(* ===== verification/_CoqProject ===== *)
-Q . S2P
Prelude.v
Cache.v
RateLimit.v
Json.v
JsonStream.v
Store.v
AuthChain.v
StateGroups.v
MissingEvents.v
External.v
Events.v
Acl.v
Pducmp.v
Wire.v
Printed.v
Digest.v
StateBody.v
Resolver.v
StateStream.v
Access.v
Served.v
ServedState.v
Replication.v
Listening.v
Config.v
Route.v
Native.v
Http.v
Proxy.v
Serve.v
Slots.v
DiffLog.v
Compare.v
EndToEnd.v
Diagnose.v
FedAuth.v
Runner.v
Verify.v
Metrics.v
Worker.v
Sweep.v
Strata.v
