(* ===== verification/Prelude.v ===== *)
(** * gopro-worker: a verification library

    The worker answers four federation read endpoints of a Matrix homeserver
    (/event, /state, /state_ids, /get_missing_events) from Synapse's own database,
    or passes them to Synapse, compares the two answers, and keeps caches that
    Synapse's replication stream invalidates.  This library models it from
    [src/internal] and [src/cmd], and proves what it promises.

    ** Files, from the bottom up
    - [Prelude]: machine integers, results, Go's string functions, list lemmas.
    - [Cache]: [cache/]. Module [LRU] is the linked-list cache on an explicit heap,
      with a list specification it refines; [Settings], [AuthChainKey], [Trace].
    - [RateLimit]: [ratelimit/]. [Host] is one [hostLimiter], its functions the
      critical sections; [System] interleaves all requests as a step relation.
    - [Json], [JsonStream]: [encoding/json] as the source uses it: a parser, struct
      decoding ([Struct]), the token stream of [json.Decoder].
    - [Store]: [store/cache.go], [store/room.go]: the tables the queries read
      ([DB]), and the monad [M], in which a query may fail, may see a later database
      than the one before, and may lose the race with an invalidation.  Its
      contract says what a cache may hold; [evals] is the logic the later files use.
    - [AuthChain], [StateGroups], [MissingEvents], [Events]: the rest of [store/]:
      both auth chain algorithms, state groups and filtered reads, the backwards
      walk, event loading with redactions and the withheld redactions.
    - [External]: what third-party packages do, as a class; module [Sample] is an
      instance to run examples with.
    - [Acl], [Pducmp], [Wire], [Digest]: [matrixstate/acl.go], [pducmp/], the
      rendering of an event ([event.go]), the digests of [state.go].  [Printed]: what
      [json.Marshal] prints is read back, for any valid UTF-8.  [StateBody]: the
      digests of a body's text are those of the events it decodes to.
    - [Resolver], [StateStream]: [matrixstate/]: the access gate, /state_ids,
      /event, /get_missing_events, and the streamed /state over any [Writer].
    - [Access], [Served], [ServedState]: specifications over the tables, which the
      resolver refines; the last for the streamed /state, over any [Writer].
    - [Replication]: [replication/], against the interface [Caches]: what is done for
      each message.  [Listening]: [Run] and [session] as a step relation; every access
      to a cache is a step of its own, interleaved with those of the requests.
    - [Config]: [config/]. [Route]: paths, parameters, the canary's choice
      ([fedapi/route.go], [canary.go]). [Native]: [native/], against the interface
      [NativeResolver]. [Http]: [net/http]'s response, over a [Connection].
    - [Proxy]: [proxy/]: the recorder, the backends and their transports, the request sent
      on. [Serve]: [fedapi/handler.go], [canary.go], [stream.go].
      [Slots]: the handler together with the rate limiter.
    - [DiffLog]: [difflog/]: records and their JSON, counters, the writer over a
      directory whose every call may fail, the report's verdicts; module [Handoff] is
      [Log] against [Close], interleaved.
    - [Compare]: [shadow/compare.go], and the verdicts of [runner.go] and [state.go].
      [Diagnose]: [shadow/diagnose.go]. [FedAuth]: [fedauth/], over mautrix as a class.
      [Runner]: what a verdict leaves in the log and the counters, the replay for
      verification, the comparison slots (module [Sem]).
    - [EndToEnd]: handler, [Answer], resolver, store and caches composed.
    - [Verify]: the comparisons a request starts ([handler.go], [canary.go],
      [shadow/state.go]): handler, proxy, digest and runner composed.
    - [Metrics]: what a request counts, and what the collectors of [metrics/] and
      [difflog/collector.go] export.
    - [Worker]: [cmd/gopro-worker/], [store/store.go]: a startup as the events it causes,
      what is built, what is released; the health probe.
    - [Sweep]: [cmd/eventsweep/], [cmd/gmesweep/], [cmd/statesweep/]: what the tools
      pick from the tables, the requests they sign, the loop that can be resumed.
      [Strata]: the sets the queries of the event sweep draw from.

    ** How the parts interact
    A request enters [Serve.ServeHTTP]: [Route.Match], the canary's [sampled], the
    limiter, the verifier; then [Native.Answer] or [serveStreamed], which call the
    resolver; the resolver calls the store, whose every read goes through a cache or
    a query on [DB].  Whatever is not answered goes to [Proxy.Forward]; what was
    forwarded, or served by a canary, is handed to [Verify.judge] and the functions
    beside it, whose verdict [Runner] records in [DiffLog].
    [Replication.handle] changes the same caches concurrently: the contract of
    [Store] is stated so that a request may meet it at any query.

    ** What the theorems show
    - Serving: /event, /state_ids, /get_missing_events and the streamed /state answer
      what the tables say, to whom the access rules allow, whatever the caches hold
      ([Access], [Served], [ServedState]), and so does the client see it, through every
      layer ([EndToEnd]); every request ends in one way, a buffered answer is whole or not
      given, a streamed one is complete or its connection is aborted ([Serve]).
    - Store: auth chains, state maps, walks and redactions equal their definitions
      over the tables; loops end; limits hold.
    - Caches: the LRU refines its specification under every sequence of operations;
      caches are armed only while invalidations arrive, and what they hold was added
      after their last flush, but for an addition a flush overtook ([Listening]); an
      announced change leaves them agreeing with the tables ([Replication]).
    - Limiter: exact counters, no lost slot, no overtaking, exact rejection; and
      that an aborted stream does lose its slot ([Slots]).
    - Comparison: what is said of a forwarded /state_ids or /state request is about what
      its client was sent: the comparison ends in a match exactly if that is the tables'
      answer, for /state_ids if it fits the capture limit, for /state up to collisions of
      the digest; a served stream is verified by
      its digest as if its events had been compared ([Verify]); the recorder between
      Synapse and the client changes nothing but informational responses ([Proxy]).
      Scanning what [State] wrote gives back the digests it reports, and digests agree as
      the multisets of canonical events do ([StateBody]); equal events have equal forms;
      verdicts and counters are exact; a diagnosis counts the difference of the answers; a
      disagreement is counted once and its record queued, or refused and counted as
      dropped, or refused after the log was closed, which nothing counts; the log
      loses no accepted record uncounted, and rotation only the oldest lines; slots neither
      leak nor run over.
    - Verification: an origin is accepted only if mautrix authenticated the request and
      the origin has a key response valid now; this code hands mautrix only key
      responses signed by their servers ([FedAuth]).
    - The process: everything opened is closed again, and a worker that serves has
      what its configuration asks for ([Worker]).  A request is counted once, under the
      way it ended, unless it is cut off ([Metrics]).  A sweep interrupted or
      killed anywhere is resumed: the next plan is the earlier one less what was answered
      and recorded; its requests are understood by the worker ([Sweep]); it asks for an
      event under a stratum the event belongs to ([Strata]).
    - Configuration and routing: loaded configurations are well formed; modes and
      paths round trip.

    ** Bounds and fuel
    [int] and [int64] are [Z] with [i64] where the code can wrap, [uint64] with
    [u64].  The store's loops (chain links, auth events, state groups) take their
    fuel from the world ([w_fuel]); the theorems ask for as much as the tables need
    (an explicit function of their sizes) and prove that the loop then ends with its
    result, on cyclic data too; [OutOfFuel] is never an outcome.  Parsing and
    scanning take the length of the document, eviction the length of the list, the
    walk of [MissingEvents] the limit: these are proved enough once and for all.

    ** Parameters
    [gjson], [sjson], mautrix's redaction, X-Matrix parsing, key cache and signature
    check (class [Mautrix]), SHA-256, case
    folding, YAML, [httputil.ReverseProxy], the clock, contexts and connections are
    arguments; what is assumed of them is a hypothesis where it is used, and each
    has a concrete instance in a witness.  [singleflight] is an argument of
    /state_ids: what a caller waiting for another's computation receives.

    ** Not modelled
    Log lines, histograms and the other Prometheus declarations, pgx and the sockets
    themselves, which members of a stratum the event sweep's queries return and the order
    [rand.Shuffle] puts them in, the layout of
    the report, the flags and printed lines of the tools.  Durations that are only reported
    are left out. *)
From Stdlib Require Export ZArith Lia Ascii String.
From stdpp Require Export base tactics numbers list strings gmap sorting relations.

#[global] Set Default Goal Selector "!".

Declare Scope gopro_scope.
Delimit Scope gopro_scope with gopro.

(** ** Machine integers

    Go's [int] and [int64] are 64-bit two's complement on the supported targets,
    [uint64] is modulo [2^64]. *)
Definition i64 (z : Z) : Z := ((z + 2 ^ 63) `mod` 2 ^ 64 - 2 ^ 63)%Z.
Definition u64 (z : Z) : Z := (z `mod` 2 ^ 64)%Z.
Definition max_int64 : Z := (2 ^ 63 - 1)%Z.

(** ** Results of fallible operations

    A Go call returning [(T, error)] is a [result]: [Ok] carries the value of a
    nil error, [Err] the error. *)
Inductive result (E A : Type) : Type :=
| Ok (a : A)
| Err (e : E).
Arguments Ok {E A} a.
Arguments Err {E A} e.

#[export] Instance result_ret {E} : MRet (result E) := fun _ a => Ok a.
#[export] Instance result_bind {E} : MBind (result E) := fun _ _ f m =>
  match m with Ok a => f a | Err e => Err e end.
#[export] Instance result_fmap {E} : FMap (result E) := fun _ _ f m =>
  match m with Ok a => Ok (f a) | Err e => Err e end.

Definition is_ok {E A} (r : result E A) : bool :=
  match r with Ok _ => true | Err _ => false end.

(** ** Byte strings: the functions of Go's package [strings] the source uses *)
Fixpoint has_prefix (s p : string) : bool :=
  match p, s with
  | EmptyString, _ => true
  | String a p', String b s' => bool_decide (a = b) && has_prefix s' p'
  | _, EmptyString => false
  end.

Fixpoint drop_str (n : nat) (s : string) : string :=
  match n, s with
  | S n', String _ s' => drop_str n' s'
  | _, _ => s
  end.

Fixpoint take_str (n : nat) (s : string) : string :=
  match n, s with
  | S n', String a s' => String a (take_str n' s')
  | _, _ => EmptyString
  end.

Definition has_suffix (s p : string) : bool :=
  bool_decide (String.length p ≤ String.length s) &&
  bool_decide (drop_str (String.length s - String.length p) s = p).

(** [strings.TrimSuffix] *)
Definition trim_suffix (s p : string) : string :=
  if has_suffix s p then take_str (String.length s - String.length p) s else s.

(** [strings.IndexByte]-style cut at the first occurrence of a byte:
    [strings.Cut] for a one-byte separator. *)
Fixpoint cut (c : ascii) (s : string) : string * string * bool :=
  match s with
  | EmptyString => (EmptyString, EmptyString, false)
  | String a s' =>
      if bool_decide (a = c) then (EmptyString, s', true)
      else let '(l, r, ok) := cut c s' in
           if ok then (String a l, r, true) else (s, EmptyString, false)
  end.

Fixpoint contains_byte (c : ascii) (s : string) : bool :=
  match s with
  | EmptyString => false
  | String a s' => bool_decide (a = c) || contains_byte c s'
  end.

(** [strings.Contains] *)
Fixpoint contains_str (s p : string) : bool :=
  has_prefix s p ||
  match s with EmptyString => false | String _ s' => contains_str s' p end.

Definition str_len (s : string) : Z := Z.of_nat (String.length s).

(** Bytewise order of Go strings, used by [sort.Strings]. *)
Fixpoint str_leb (s t : string) : bool :=
  match s, t with
  | EmptyString, _ => true
  | String _ _, EmptyString => false
  | String a s', String b t' =>
      if bool_decide (a = b) then str_leb s' t'
      else bool_decide (N_of_ascii a < N_of_ascii b)%N
  end.
Definition str_le (s t : string) : Prop := str_leb s t = true.

#[export] Instance str_le_dec : RelDecision str_le.
Proof. intros s t. unfold str_le. apply _. Defined.

(** [sort.Strings] *)
Definition sort_strings (l : list string) : list string := merge_sort str_le l.

Definition colon : ascii := ":"%char.
Definition nul : ascii := Ascii.zero.

(** ** Sums over lists *)
Definition Zsum (l : list Z) : Z := foldr Z.add 0%Z l.
Arguments Zsum _ : simpl never.

(** The loop [for start := 0; start < len(l); start += n] over the slices
    [l[start:min(start+n, len(l))]]. *)
Fixpoint batches_fuel {A} (fuel n : nat) (l : list A) : list (list A) :=
  match fuel, l with
  | S fuel, _ :: _ => take n l :: batches_fuel fuel n (drop n l)
  | _, _ => []
  end.
Definition batches {A} (n : nat) (l : list A) : list (list A) := batches_fuel (length l) n l.

(** ** Lemmas *)

Lemma batches_concat {A} n (l : list A) : 0 < n → concat (batches n l) = l.
Proof.
  intros Hn. unfold batches. assert (∀ f (l : list A), length l ≤ f → concat (batches_fuel f n l) = l) as H.
  { intros f. induction f as [|f IH]; intros [|x k] Hf; simpl in *; try lia; try done.
    destruct n as [|n]; [lia|]. simpl. f_equal. rewrite IH; [apply take_drop|].
    rewrite length_drop. lia. }
  by apply H.
Qed.

Lemma batches_length {A} n (l b : list A) : b ∈ batches n l → length b ≤ n.
Proof.
  unfold batches. generalize (length l) as f. intros f. revert l.
  induction f as [|f IH]; intros [|x l] Hb; simpl in Hb; try by apply not_elem_of_nil in Hb.
  apply elem_of_cons in Hb as [->|Hb]; [|by eapply IH]. rewrite length_take. lia.
Qed.

Lemma cut_sep c s t : contains_byte c s = false → cut c (s +:+ String c t) = (s, t, true).
Proof.
  induction s as [|a s IH]; cbn [contains_byte]; intros Hc.
  - simpl. by rewrite bool_decide_true.
  - apply orb_false_iff in Hc as [Ha Hs]. apply bool_decide_eq_false in Ha.
    change (String a s +:+ String c t) with (String a (s +:+ String c t)). cbn [cut].
    rewrite bool_decide_false by done. by rewrite IH.
Qed.

(** *** Strings *)
Lemma app_len s t : String.length (s +:+ t) = String.length s + String.length t.
Proof. induction s as [|a s IH]; [done|]. exact (f_equal S IH). Qed.
Lemma app_cons a s t : String a s +:+ t = String a (s +:+ t).
Proof. done. Qed.
Lemma app_assoc_str s t r : s +:+ (t +:+ r) = (s +:+ t) +:+ r.
Proof. induction s as [|a s IH]; [done|]. by rewrite !app_cons, IH. Qed.
Lemma app_nil_str s : s +:+ EmptyString = s.
Proof. induction s as [|a s IH]; [done|]. by rewrite app_cons, IH. Qed.
Lemma str_len_app s t : str_len (s +:+ t) = (str_len s + str_len t)%Z.
Proof. unfold str_len. rewrite app_len. lia. Qed.

Lemma has_prefix_app p s : has_prefix (p +:+ s) p = true.
Proof. induction p as [|a p IH]; [by destruct s|]. rewrite app_cons. simpl. by rewrite bool_decide_true. Qed.
Lemma drop_str_app p s : drop_str (String.length p) (p +:+ s) = s.
Proof. induction p as [|a p IH]; [by destruct s|]. exact IH. Qed.
Lemma take_str_app p s : take_str (String.length p) (p +:+ s) = p.
Proof. induction p as [|a p IH]; [by destruct s|]. rewrite app_cons. simpl. by rewrite IH. Qed.

Lemma contains_byte_app c s t : contains_byte c (s +:+ t) = contains_byte c s || contains_byte c t.
Proof. induction s as [|a s IH]; [done|]. rewrite app_cons. simpl. by rewrite IH, orb_assoc. Qed.
Lemma take_drop_str n s : take_str n s +:+ drop_str n s = s.
Proof.
  revert s. induction n as [|n IH]; intros s; [by destruct s|]. destruct s as [|a s]; [done|].
  change (String a (take_str n s +:+ drop_str n s) = String a s). by rewrite IH.
Qed.

Lemma has_suffix_split s p : has_suffix s p = true → ∃ l, s = l +:+ p.
Proof.
  unfold has_suffix. rewrite andb_true_iff, !bool_decide_eq_true. intros [_ <-].
  eexists. symmetry. apply take_drop_str.
Qed.
Lemma has_suffix_app l t : has_suffix (l +:+ t) t = true.
Proof.
  unfold has_suffix. rewrite app_len. apply andb_true_iff. rewrite !bool_decide_eq_true. split; [lia|].
  replace (String.length l + String.length t - String.length t) with (String.length l) by lia. apply drop_str_app.
Qed.
Lemma trim_suffix_app l t : trim_suffix (l +:+ t) t = l.
Proof.
  unfold trim_suffix. rewrite has_suffix_app, app_len.
  replace (String.length l + String.length t - String.length t) with (String.length l) by lia. apply take_str_app.
Qed.
Lemma trim_suffix_byte c s : contains_byte c s = false → trim_suffix s (String c EmptyString) = s.
Proof.
  unfold trim_suffix. destruct (has_suffix s _) eqn:E; [|done]. apply has_suffix_split in E as [l ->].
  rewrite contains_byte_app. simpl. rewrite bool_decide_true by done. by rewrite orb_true_r.
Qed.

Lemma i64_small (z : Z) : (- 2 ^ 63 ≤ z < 2 ^ 63)%Z → i64 z = z.
Proof. intros H. unfold i64. rewrite Z.mod_small; lia. Qed.

Lemma u64_small (z : Z) : (0 ≤ z < 2 ^ 64)%Z → u64 z = z.
Proof. intros H. unfold u64. rewrite Z.mod_small; lia. Qed.

Lemma Zsum_app l1 l2 : Zsum (l1 ++ l2) = (Zsum l1 + Zsum l2)%Z.
Proof. induction l1 as [|x l1 IH]; simpl; [done|]. unfold Zsum in *; simpl; lia. Qed.

Lemma Zsum_cons x l : Zsum (x :: l) = (x + Zsum l)%Z.
Proof. done. Qed.

Lemma Zsum_nonneg l : Forall (fun z => 0 ≤ z)%Z l → (0 ≤ Zsum l)%Z.
Proof. induction 1; simpl; [done|]. unfold Zsum in *; simpl; lia. Qed.

#[export] Instance Zsum_perm : Proper ((≡ₚ) ==> (=)) Zsum.
Proof.
  intros l1 l2 H. induction H; rewrite ?Zsum_cons in *; unfold Zsum in *; simpl; lia.
Qed.

Lemma ascii_lt_trichotomy a b :
  a ≠ b → (N_of_ascii a < N_of_ascii b)%N ∨ (N_of_ascii b < N_of_ascii a)%N.
Proof.
  intros Hne.
  assert (N_of_ascii a ≠ N_of_ascii b); [|lia].
  intros H. apply Hne. rewrite <-(ascii_N_embedding a), <-(ascii_N_embedding b). congruence.
Qed.

#[export] Instance str_le_total : Total str_le.
Proof.
  intros s. induction s as [|a s IH]; intros [|b t]; unfold str_le in *; simpl; auto.
  destruct (decide (a = b)) as [->|Hne].
  - rewrite !bool_decide_true by done. apply IH.
  - rewrite (bool_decide_false (a = b)), (bool_decide_false (b = a)) by congruence.
    rewrite !bool_decide_eq_true. by apply ascii_lt_trichotomy.
Qed.

#[export] Instance str_le_trans : Transitive str_le.
Proof.
  intros s. induction s as [|a s IH]; intros [|b t] [|c u]; unfold str_le in *; simpl;
    intros H1 H2; try done.
  repeat case_bool_decide; subst; try done; try lia; try (by eapply IH).
Qed.

#[export] Instance str_le_antisymm : AntiSymm (=) str_le.
Proof.
  intros s. induction s as [|a s IH]; intros [|b t]; unfold str_le in *; simpl;
    intros H1 H2; try done.
  repeat case_bool_decide; subst; try done; try lia. f_equal. by apply IH.
Qed.

Lemma sort_strings_perm l : sort_strings l ≡ₚ l.
Proof. apply merge_sort_Permutation. Qed.

Lemma sort_strings_elem_of x l : x ∈ sort_strings l ↔ x ∈ l.
Proof. by rewrite sort_strings_perm. Qed.

Lemma sort_strings_sorted l : Sorted str_le (sort_strings l).
Proof. apply Sorted_merge_sort, _. Qed.

(** Sorting is canonical: it depends on the multiset of the strings only. *)
Lemma sort_strings_canonical l1 l2 : l1 ≡ₚ l2 → sort_strings l1 = sort_strings l2.
Proof.
  intros H. apply (Sorted_unique str_le).
  - apply sort_strings_sorted.
  - apply sort_strings_sorted.
  - by rewrite !sort_strings_perm.
Qed.

Lemma result_bind_Ok {E A B} (m : result E A) (f : A → result E B) b :
  m ≫= f = Ok b ↔ ∃ a, m = Ok a ∧ f a = Ok b.
Proof. destruct m; unfold mbind, result_bind; naive_solver. Qed.

Lemma NoDup_fmap_filter {A B} (f : A → B) (P : A → Prop) `{∀ x, Decision (P x)} (l : list A) :
  NoDup (f <$> l) → NoDup (f <$> filter P l).
Proof.
  induction l as [|x l IH]; [done|]. rewrite fmap_cons, NoDup_cons. intros [Hx Hl].
  destruct (decide (P x)); [rewrite filter_cons_True by done|rewrite filter_cons_False by done; auto].
  rewrite fmap_cons, NoDup_cons. split; [|auto].
  rewrite list_elem_of_fmap in *. intros (y & ? & [_ ?]%list_elem_of_filter). eauto.
Qed.

(** A stricter filter that drops a kept element keeps fewer. *)
Lemma filter_length_lt {A} (Q R : A → Prop) `{∀ x, Decision (Q x)} `{∀ x, Decision (R x)} (l : list A) x :
  (∀ y, y ∈ l → Q y → R y) → x ∈ l → R x → ¬ Q x → (length (filter Q l) < length (filter R l)).
Proof.
  intros Hqr Hx HR HQ.
  assert (∀ k : list A, (∀ y, y ∈ k → Q y → R y) → (length (filter Q k) ≤ length (filter R k))) as Hle.
  { induction k as [|y k IH]; intros Hk; [done|]. rewrite !filter_cons.
    assert (length (filter Q k) ≤ length (filter R k)) by (apply IH; intros; apply Hk; [by right|done]).
    repeat case_decide; simpl; try lia. exfalso. naive_solver (by left). }
  induction l as [|y l IH]; [by apply not_elem_of_nil in Hx|]. rewrite !filter_cons.
  apply elem_of_cons in Hx as [->|Hx].
  - rewrite (decide_False (P := Q y)) by done. rewrite decide_True by done. simpl.
    assert (length (filter Q l) ≤ length (filter R l)) by (apply Hle; intros; apply Hqr; [by right|done]).
    lia.
  - assert (length (filter Q l) < length (filter R l))
      by (apply IH; [intros; apply Hqr; [by right|done]|done]).
    repeat case_decide; simpl; try lia. exfalso. naive_solver (by left).
Qed.

Create HintDb gopro discriminated.
#[export] Hint Rewrite Zsum_app Zsum_cons : gopro.
#[export] Hint Resolve sort_strings_perm : gopro.

(** Membership in, and other decidable facts on, closed data. *)
Ltac in_list :=
  solve [ simpl; repeat first [exact (list_elem_of_here _ _) | apply list_elem_of_further]
        | apply (bool_decide_unpack _); vm_compute; exact I ].

(** Case analysis on the outermost [match] of a hypothesis or of the goal. *)
Ltac split_match :=
  match goal with
  | H : context [match ?x with _ => _ end] |- _ => destruct x eqn:?
  | |- context [match ?x with _ => _ end] => destruct x eqn:?
  end.
