(* ===== verification/Cache.v ===== *)
(** * [internal/cache/lru.go]: the size-bounded LRU cache

    The Go cache is a map from keys to elements of a doubly linked list whose
    elements point to entries.  The model keeps that sharing: [heap] maps element
    identities to entries, [order] is the list from front to back, [entries] the
    map.  [Spec] is what the cache promises, a list of entries from most to least
    recently used; the refinement theorems relate the two through [abs].

    Every method body that runs under [c.mu] is one atomic function.  [Get] and
    [Add] read the armed flag before they take the lock, so [Add] is also given
    in two halves, [add_begin] and [add_commit], for the interleaving theorems. *)
From S2P Require Import Prelude.

(** ** The implementation *)
Module LRU.

Record entry (K V : Type) := Entry { e_key : K; e_value : V; e_size : Z }.
Arguments Entry {K V} _ _ _.
Arguments e_key {K V} _.
Arguments e_value {K V} _.
Arguments e_size {K V} _.

Record t (K V : Type) `{Countable K} := Mk {
  name : string;
  maxBytes : Z;
  sizeOf : V → Z;
  armed : bool;
  entries : gmap K nat;
  order : list nat;
  heap : gmap nat (entry K V);
  fresh : nat;
  bytes : Z;
  hits : Z; misses : Z; evictions : Z }.
Arguments Mk {K V _ _} _ _ _ _ _ _ _ _ _ _ _ _.
Arguments name {K V _ _} _.
Arguments maxBytes {K V _ _} _.
Arguments sizeOf {K V _ _} _ _.
Arguments armed {K V _ _} _.
Arguments entries {K V _ _} _.
Arguments order {K V _ _} _.
Arguments heap {K V _ _} _.
Arguments fresh {K V _ _} _.
Arguments bytes {K V _ _} _.
Arguments hits {K V _ _} _.
Arguments misses {K V _ _} _.
Arguments evictions {K V _ _} _.

Section ops.
Context {K V : Type} `{Countable K}.
Implicit Types (c : t K V) (k : K) (v : V).

(** The fields a locked section changes. *)
Definition with_store c ents ord hp fr b : t K V :=
  Mk (name c) (maxBytes c) (sizeOf c) (armed c) ents ord hp fr b (hits c) (misses c) (evictions c).
Definition with_stats c h m e : t K V :=
  Mk (name c) (maxBytes c) (sizeOf c) (armed c) (entries c) (order c) (heap c) (fresh c) (bytes c) h m e.
Definition with_armed c a : t K V :=
  Mk (name c) (maxBytes c) (sizeOf c) a (entries c) (order c) (heap c) (fresh c) (bytes c)
     (hits c) (misses c) (evictions c).

Definition NewLRU (nm : string) (max : Z) (size : V → Z) : t K V :=
  Mk nm max size true ∅ [] ∅ 0 0%Z 0%Z 0%Z 0%Z.

Definition Purge c : t K V := with_store c ∅ [] ∅ (fresh c) 0%Z.

Definition SetArmed (a : bool) c : t K V :=
  let c := with_armed c a in if a then c else Purge c.

Definition Armed c : bool := armed c.

Definition Enabled c : bool := bool_decide (0 < maxBytes c)%Z && armed c.

(** [list.MoveToFront] *)
Definition move_to_front (el : nat) (l : list nat) : list nat :=
  el :: filter (λ x, x ≠ el) l.

(** [Get] after its [Enabled] check: everything under the lock. *)
Definition get_locked k c : option V * t K V :=
  match entries c !! k with
  | None => (None, with_stats c (hits c) (u64 (misses c + 1)) (evictions c))
  | Some el =>
      let c := with_store c (entries c) (move_to_front el (order c)) (heap c) (fresh c) (bytes c) in
      (e_value <$> heap c !! el, with_stats c (u64 (hits c + 1)) (misses c) (evictions c))
  end.
Definition Get k c : option V * t K V := if negb (Enabled c) then (None, c) else get_locked k c.

(** [evictLocked]: [fuel] bounds the loop; the length of the list is enough. *)
Fixpoint evict_loop (fuel : nat) c : t K V :=
  match fuel with
  | O => c
  | S fuel =>
      if bool_decide (maxBytes c < bytes c)%Z then
        match last (order c) with
        | None => c
        | Some el =>
            match heap c !! el with
            | None => c
            | Some e =>
                let c := with_store c (delete (e_key e) (entries c))
                           (filter (λ x, x ≠ el) (order c))
                           (delete el (heap c)) (fresh c) (i64 (bytes c - e_size e)) in
                evict_loop fuel (with_stats c (hits c) (misses c) (u64 (evictions c + 1)))
            end
        end
      else c
  end.
Definition evictLocked c : t K V := evict_loop (length (order c)) c.

(** [Add] after its [Enabled] check: everything under the lock. *)
Definition add_commit k v c : t K V :=
  let size := sizeOf c v in
  if bool_decide (maxBytes c < size)%Z then c else
  match entries c !! k with
  | Some el =>
      match heap c !! el with
      | None => c
      | Some e =>
          evictLocked
            (with_store c (entries c) (move_to_front el (order c))
               (<[el := Entry (e_key e) v size]> (heap c)) (fresh c)
               (i64 (bytes c + (size - e_size e))))
      end
  | None =>
      let el := fresh c in
      evictLocked
        (with_store c (<[k := el]> (entries c)) (el :: order c)
           (<[el := Entry k v size]> (heap c)) (S el) (i64 (bytes c + size)))
  end.
Definition add_begin c : bool := Enabled c.
Definition Add k v c : t K V := if add_begin c then add_commit k v c else c.

Definition Remove k c : t K V :=
  match entries c !! k with
  | None => c
  | Some el =>
      match heap c !! el with
      | None => c
      | Some e =>
          with_store c (delete k (entries c)) (filter (λ x, x ≠ el) (order c))
            (delete el (heap c)) (fresh c) (i64 (bytes c - e_size e))
      end
  end.

Record Stats := MkStats {
  st_name : string; st_entries : nat; st_bytes : Z; st_max : Z;
  st_hits : Z; st_misses : Z; st_evictions : Z }.
Definition StatsOf c : Stats :=
  MkStats (name c) (size (entries c)) (bytes c) (maxBytes c) (hits c) (misses c) (evictions c).

(** ** What the cache holds, as a list from most to least recently used *)
Definition abs c : list (entry K V) := omap (λ el, heap c !! el) (order c).

(** The value a client can get back for a key. *)
Definition contents c k : option V :=
  el ← entries c !! k; e ← heap c !! el; Some (e_value e).

(** Well-formedness: the map, the list and the heap describe one set of
    elements, the byte count is the sum of the entry sizes, and sizes are the
    sizes of the values. *)
Record wf c : Prop := {
  wf_nodup : NoDup (order c);
  wf_heap : ∀ el, el ∈ order c ↔ is_Some (heap c !! el);
  wf_entries : ∀ k el, entries c !! k = Some el ↔ ∃ e, heap c !! el = Some e ∧ e_key e = k;
  wf_fresh : ∀ el, el ∈ order c → el < fresh c;
  wf_bytes : bytes c = Zsum (e_size <$> abs c);
  wf_size : ∀ el e, heap c !! el = Some e → e_size e = sizeOf c (e_value e) }.

(** The sizers are byte counts, and the bound leaves room for one more entry in
    an [int64]. *)
Record sane c : Prop := {
  sane_size : ∀ v, (0 ≤ sizeOf c v)%Z;
  sane_max : (maxBytes c < 2 ^ 62)%Z }.

Definition within_bound c : Prop := (bytes c ≤ Z.max 0 (maxBytes c))%Z.

(** What a locked section guarantees: the invariant, the bound, the unchanged
    parameters. *)
Record good c : Prop := {
  good_wf : wf c; good_sane : sane c; good_bound : within_bound c }.

(** The configuration, which only [SetArmed] changes (its flag). *)
Definition same_params c c' : Prop :=
  maxBytes c' = maxBytes c ∧ sizeOf c' = sizeOf c ∧ armed c' = armed c ∧ name c' = name c.

(** Dropping an element from the map, the list and the heap. *)
Definition drop_el c el (e : entry K V) : t K V :=
  with_store c (delete (e_key e) (entries c)) (filter (λ x, x ≠ el) (order c))
    (delete el (heap c)) (fresh c) (i64 (bytes c - e_size e)).

(** The two stores [add_commit] builds before it evicts. *)
Definition put_old c el k v : t K V :=
  with_store c (entries c) (move_to_front el (order c))
    (<[el := Entry k v (sizeOf c v)]> (heap c)) (fresh c)
    (i64 (bytes c + (sizeOf c v - default 0%Z (e_size <$> heap c !! el)))).
Definition put_new c k v : t K V :=
  with_store c (<[k := fresh c]> (entries c)) (fresh c :: order c)
    (<[fresh c := Entry k v (sizeOf c v)]> (heap c)) (S (fresh c)) (i64 (bytes c + sizeOf c v)).

End ops.
End LRU.

(** ** The specification *)
Module Spec.
Section spec.
Context {K V : Type} `{EqDecision K}.
Notation entry := (LRU.entry K V).

Definition lookup_key (k : K) (l : list entry) : option entry :=
  List.find (λ e, bool_decide (LRU.e_key e = k)) l.

Definition drop_key (k : K) (l : list entry) : list entry :=
  filter (λ e, LRU.e_key e ≠ k) l.

(** The longest front part that fits the budget. *)
Fixpoint trim (budget : Z) (l : list entry) : list entry :=
  match l with
  | [] => []
  | e :: l =>
      if bool_decide (LRU.e_size e ≤ budget)%Z
      then e :: trim (budget - LRU.e_size e) l else []
  end.

Definition get (k : K) (l : list entry) : option V * list entry :=
  match lookup_key k l with
  | None => (None, l)
  | Some e => (Some (LRU.e_value e), e :: drop_key k l)
  end.

Definition add (max : Z) (size : V → Z) (k : K) (v : V) (l : list entry) : list entry :=
  if bool_decide (max < size v)%Z then l
  else trim max (LRU.Entry k v (size v) :: drop_key k l).

Definition total (l : list entry) : Z := Zsum (LRU.e_size <$> l).
End spec.
End Spec.

(** ** Sequences of operations, on both sides *)
Section runs.
Context {K V : Type} `{Countable K}.
Implicit Types (c : LRU.t K V) (k : K) (v : V).

Inductive lru_op :=
| OGet (k : K) | OAdd (k : K) (v : V) | ORemove (k : K) | OPurge | OSetArmed (a : bool).

Definition lru_step (o : lru_op) c : option V * LRU.t K V :=
  match o with
  | OGet k => LRU.Get k c
  | OAdd k v => (None, LRU.Add k v c)
  | ORemove k => (None, LRU.Remove k c)
  | OPurge => (None, LRU.Purge c)
  | OSetArmed a => (None, LRU.SetArmed a c)
  end.

(** The specification's state: the entries and the armed flag. *)
Definition spec_step (max : Z) (size : V → Z) (o : lru_op) (s : list (LRU.entry K V) * bool)
    : option V * (list (LRU.entry K V) * bool) :=
  let '(l, a) := s in
  let on := bool_decide (0 < max)%Z && a in
  match o with
  | OGet k => if on then let '(r, l) := Spec.get k l in (r, (l, a)) else (None, s)
  | OAdd k v => (None, (if on then Spec.add max size k v l else l, a))
  | ORemove k => (None, (Spec.drop_key k l, a))
  | OPurge => (None, ([], a))
  | OSetArmed a' => (None, (if a' then l else [], a'))
  end.

Fixpoint lru_run (os : list lru_op) c : list (option V) * LRU.t K V :=
  match os with
  | [] => ([], c)
  | o :: os => let '(r, c) := lru_step o c in let '(rs, c) := lru_run os c in (r :: rs, c)
  end.

Fixpoint spec_run (max : Z) (size : V → Z) (os : list lru_op) s
    : list (option V) * (list (LRU.entry K V) * bool) :=
  match os with
  | [] => ([], s)
  | o :: os =>
      let '(r, s) := spec_step max size o s in
      let '(rs, s) := spec_run max size os s in (r :: rs, s)
  end.
End runs.
Arguments lru_op : clear implicits.

(** ** Settings ([internal/cache/stores.go]) *)
Module Settings.

Record t := Mk {
  StateGroupsMB : Z; EventsMB : Z; EventStateGroupsMB : Z; AuthChainsMB : Z; FilteredStateMB : Z }.

Definition DefaultSettings : t := Mk 512 128 32 64 64.

Definition or_default (x d : Z) : Z := if bool_decide (x = 0)%Z then d else x.

Definition WithDefaults (s : t) : t :=
  let d := DefaultSettings in
  Mk (or_default (StateGroupsMB s) (StateGroupsMB d))
     (or_default (EventsMB s) (EventsMB d))
     (or_default (EventStateGroupsMB s) (EventStateGroupsMB d))
     (or_default (AuthChainsMB s) (AuthChainsMB d))
     (or_default (FilteredStateMB s) (FilteredStateMB d)).

(** [nil] is [true]. *)
Definition Validate (s : t) : bool :=
  forallb (λ v, negb (bool_decide (v < -1)%Z))
    [StateGroupsMB s; EventsMB s; EventStateGroupsMB s; FilteredStateMB s; AuthChainsMB s].

Definition MB (n : Z) : Z := if bool_decide (n < 0)%Z then 0%Z else i64 (Z.shiftl n 20).

Definition AnyEnabled (s : t) : bool :=
  bool_decide (0 < StateGroupsMB s)%Z || bool_decide (0 < EventsMB s)%Z ||
  bool_decide (0 < EventStateGroupsMB s)%Z || bool_decide (0 < AuthChainsMB s)%Z ||
  bool_decide (0 < FilteredStateMB s)%Z.

End Settings.

(** ** The auth chain cache key ([internal/cache/stores.go])

    [AuthChainKey] hashes a byte string; [preimage] is that string, and the hash
    function (SHA-256) is an argument. *)
Module AuthChainKey.

(** [binary.BigEndian.PutUint64] *)
Fixpoint be_bytes (n : nat) (z : Z) : string :=
  match n with
  | O => EmptyString
  | S n' => String (ascii_of_N (Z.to_N ((z / 2 ^ (8 * Z.of_nat n')) `mod` 256))) (be_bytes n' z)
  end.

Definition chunk (id : string) : string := be_bytes 8 (u64 (str_len id)) +:+ id.

Definition preimage (roomID : string) (eventIDs : list string) : string :=
  roomID +:+ String nul (foldr (λ id acc, chunk id +:+ acc) EmptyString (sort_strings eventIDs)).

Definition AuthChainKey (sha256 : string → string) (roomID : string) (eventIDs : list string) : string :=
  sha256 (preimage roomID eventIDs).

End AuthChainKey.

(** ** Request traces ([internal/cache/trace.go]) *)
Module Trace.

Record t := Mk { counts : gmap string (Z * Z); joined : bool }.

Definition WithTrace : t := Mk ∅ false.

Definition RecordN (nm : string) (hits lookups : Z) (tr : t) : t :=
  if bool_decide (lookups = 0)%Z then tr else
  let '(h, n) := default (0%Z, 0%Z) (counts tr !! nm) in
  Mk (<[nm := (i64 (h + hits), i64 (n + lookups))%Z]> (counts tr)) (joined tr).

Definition boolToInt (b : bool) : Z := if b then 1%Z else 0%Z.

Definition Record_ (nm : string) (hit : bool) (tr : t) : t := RecordN nm (boolToInt hit) 1 tr.

Definition MarkJoined (tr : t) : t := Mk (counts tr) true.

Definition total_hits (tr : t) : Z := Zsum ((λ p, fst (snd p)) <$> map_to_list (counts tr)).
Definition total_lookups (tr : t) : Z := Zsum ((λ p, snd (snd p)) <$> map_to_list (counts tr)).

Definition Summary (tr : t) : string :=
  if joined tr then "joined" else
  let hits := total_hits tr in
  let lookups := total_lookups tr in
  if bool_decide (lookups = 0)%Z then ""
  else if bool_decide (hits = lookups) then "hit"
  else if bool_decide (hits = 0)%Z then "miss"
  else "partial".

End Trace.

(** ** Lemmas on the specification *)
Section spec_lemmas.
Context {K V : Type} `{EqDecision K}.
Notation entry := (LRU.entry K V).
Implicit Types (l : list entry) (e : entry).

Lemma total_app l1 l2 : Spec.total (l1 ++ l2) = (Spec.total l1 + Spec.total l2)%Z.
Proof. unfold Spec.total. by rewrite fmap_app, Zsum_app. Qed.

Lemma total_cons e l : Spec.total (e :: l) = (LRU.e_size e + Spec.total l)%Z.
Proof. done. Qed.

Lemma total_nil : Spec.total ([] : list entry) = 0%Z.
Proof. done. Qed.

Lemma total_single e : Spec.total [e] = LRU.e_size e.
Proof. unfold Spec.total, Zsum. simpl. lia. Qed.

Lemma total_nonneg l : Forall (λ e, 0 ≤ LRU.e_size e)%Z l → (0 ≤ Spec.total l)%Z.
Proof. intros HF. by apply Zsum_nonneg, Forall_fmap. Qed.

Lemma trim_fits b l :
  Forall (λ e, 0 ≤ LRU.e_size e)%Z l → (Spec.total l ≤ b)%Z → Spec.trim b l = l.
Proof.
  revert b. induction l as [|e l IH]; intros b HF Hle; simpl; [done|].
  apply Forall_cons in HF as [He HF]. rewrite total_cons in Hle.
  pose proof (total_nonneg _ HF).
  rewrite bool_decide_true by lia. f_equal. apply IH; [done|lia].
Qed.

Lemma trim_snoc b l e :
  (b < Spec.total (l ++ [e]))%Z → Spec.trim b (l ++ [e]) = Spec.trim b l.
Proof.
  revert b. induction l as [|x l IH]; intros b Hlt; simpl.
  - simpl in Hlt. rewrite total_single in Hlt. rewrite bool_decide_false by lia. done.
  - simpl in Hlt. rewrite total_cons in Hlt. case_bool_decide; [|done].
    f_equal. apply IH. lia.
Qed.

Lemma trim_total b l : (0 ≤ b)%Z → (Spec.total (Spec.trim b l) ≤ b)%Z.
Proof.
  revert b. induction l as [|e l IH]; intros b Hb; simpl; [done|].
  case_bool_decide; [|done]. rewrite total_cons. specialize (IH (b - LRU.e_size e)%Z). lia.
Qed.

Lemma trim_prefix b l : Spec.trim b l `prefix_of` l.
Proof.
  revert b. induction l as [|e l IH]; intros b; simpl; [apply prefix_nil|].
  case_bool_decide; [by apply prefix_cons|apply prefix_nil].
Qed.

Lemma elem_of_trim b l e : e ∈ Spec.trim b l → e ∈ l.
Proof. intros Hin. destruct (trim_prefix b l) as [k ->]. rewrite elem_of_app. auto. Qed.

Lemma lookup_key_Some k l e :
  Spec.lookup_key k l = Some e → e ∈ l ∧ LRU.e_key e = k.
Proof.
  unfold Spec.lookup_key. intros Hf. apply find_some in Hf as [Hin Hk].
  apply bool_decide_eq_true in Hk. split; [|done]. by apply list_elem_of_In.
Qed.

Lemma lookup_key_None k l e :
  Spec.lookup_key k l = None → e ∈ l → LRU.e_key e ≠ k.
Proof.
  unfold Spec.lookup_key. intros Hf Hin Hk.
  apply list_elem_of_In in Hin. pose proof (find_none _ _ Hf _ Hin) as Hn.
  cbv beta in Hn. by rewrite bool_decide_true in Hn.
Qed.

Lemma drop_key_id k l : (∀ e, e ∈ l → LRU.e_key e ≠ k) → Spec.drop_key k l = l.
Proof.
  intros Hk. unfold Spec.drop_key. induction l as [|e l IH]; [done|].
  rewrite filter_cons_True by (apply Hk; left). f_equal. apply IH. intros e' ?.
  apply Hk. by right.
Qed.
End spec_lemmas.

(** ** The implementation refines the specification *)
Section lru_lemmas.
Context {K V : Type} `{Countable K}.
Implicit Types (c : LRU.t K V) (k : K) (v : V).
Import LRU.

Lemma mtf_perm el l : NoDup l → el ∈ l → move_to_front el l ≡ₚ l.
Proof.
  intros Hnd Hin. unfold move_to_front.
  apply NoDup_Permutation; [|done|].
  - apply NoDup_cons. split; [|by apply NoDup_filter].
    rewrite list_elem_of_filter. tauto.
  - intros x. rewrite elem_of_cons, list_elem_of_filter.
    destruct (decide (x = el)) as [->|]; tauto.
Qed.

Lemma omap_cons_eq {A B} (f : A → option B) x (l : list A) :
  omap f (x :: l) = match f x with Some y => y :: omap f l | None => omap f l end.
Proof. done. Qed.

Lemma omap_cons_Some {A B} (f : A → option B) x y (l : list A) :
  f x = Some y → omap f (x :: l) = y :: omap f l.
Proof. intros Hf. simpl. by rewrite Hf. Qed.

Lemma omap_filter_key (hp : gmap nat (entry K V)) el e l :
  hp !! el = Some e →
  (∀ x, x ∈ l → is_Some (hp !! x)) →
  (∀ x y, x ∈ l → hp !! x = Some y → e_key y = e_key e → x = el) →
  omap (λ x, hp !! x) (filter (λ x, x ≠ el) l) = Spec.drop_key (e_key e) (omap (λ x, hp !! x) l).
Proof.
  intros Hel. induction l as [|x l IH]; intros Hsome Hinj; [done|].
  destruct (Hsome x) as [y Hy]; [left|].
  assert (omap (λ x, hp !! x) (filter (λ x, x ≠ el) l)
          = Spec.drop_key (e_key e) (omap (λ x, hp !! x) l)) as IH'.
  { apply IH; [intros; apply Hsome; by right|].
    intros x' y' ???. eapply Hinj; [by right|done..]. }
  rewrite (omap_cons_Some (λ x, hp !! x) _ _ _ Hy). unfold Spec.drop_key in *.
  destruct (decide (x = el)) as [->|Hne].
  - rewrite filter_cons_False by tauto. rewrite filter_cons_False by (simplify_eq; tauto). done.
  - rewrite filter_cons_True by done. rewrite (omap_cons_Some (λ x, hp !! x) _ _ _ Hy), IH'.
    rewrite filter_cons_True; [done|]. intros Hk. apply Hne. eapply Hinj; [left|done..].
Qed.

Lemma omap_ext_in {A B} (f g : A → option B) (l : list A) :
  (∀ x, x ∈ l → f x = g x) → omap f l = omap g l.
Proof.
  induction l as [|x l IH]; intros Hfg; [done|].
  rewrite !omap_cons_eq, Hfg by left. by rewrite IH by (intros; apply Hfg; by right).
Qed.

(** Elements are determined by their key. *)
Lemma wf_inj c x y ex ey :
  wf c → heap c !! x = Some ex → heap c !! y = Some ey → e_key ex = e_key ey → x = y.
Proof.
  intros Hwf Hx Hy Hk.
  assert (entries c !! e_key ex = Some x) as H1 by (apply (wf_entries _ Hwf); eauto).
  assert (entries c !! e_key ey = Some y) as H2 by (apply (wf_entries _ Hwf); eauto).
  congruence.
Qed.

Lemma abs_elem c e : wf c → e ∈ abs c ↔ ∃ el, heap c !! el = Some e.
Proof.
  intros Hwf. unfold abs. rewrite list_elem_of_omap. split.
  - intros (el & ? & ?). eauto.
  - intros (el & Hel). exists el. split; [|done]. apply (wf_heap _ Hwf). eauto.
Qed.

Lemma abs_filter c el e :
  wf c → heap c !! el = Some e →
  omap (λ x, heap c !! x) (filter (λ x, x ≠ el) (order c)) = Spec.drop_key (e_key e) (abs c).
Proof.
  intros Hwf Hel. apply omap_filter_key; [done| |].
  - intros x ?. by apply (wf_heap _ Hwf).
  - intros x y ? Hx Hk. by eapply wf_inj.
Qed.

Lemma abs_move c el e :
  wf c → heap c !! el = Some e →
  omap (λ x, heap c !! x) (move_to_front el (order c)) = e :: Spec.drop_key (e_key e) (abs c).
Proof.
  intros Hwf Hel. unfold move_to_front.
  by rewrite (omap_cons_Some (λ x, heap c !! x) _ _ _ Hel), (abs_filter c el e).
Qed.

Lemma abs_lookup c k el e :
  wf c → entries c !! k = Some el → heap c !! el = Some e →
  Spec.lookup_key k (abs c) = Some e ∧ e_key e = k.
Proof.
  intros Hwf Hent Hel.
  assert (e_key e = k) as Hk.
  { apply (wf_entries _ Hwf) in Hent as (e' & ? & ?). by simplify_eq. }
  split; [|done].
  destruct (Spec.lookup_key k (abs c)) as [e'|] eqn:Hl.
  - apply lookup_key_Some in Hl as [Hin Hk'].
    apply abs_elem in Hin as [el' Hel']; [|done].
    assert (el' = el) as -> by (eapply wf_inj; eauto; congruence). congruence.
  - exfalso. apply (lookup_key_None _ _ e Hl); [|done]. apply abs_elem; eauto.
Qed.

Lemma abs_lookup_None c k :
  wf c → entries c !! k = None → Spec.lookup_key k (abs c) = None.
Proof.
  intros Hwf Hent. destruct (Spec.lookup_key k (abs c)) as [e|] eqn:Hl; [|done].
  apply lookup_key_Some in Hl as [Hin Hk].
  apply abs_elem in Hin as [el Hel]; [|done].
  assert (entries c !! k = Some el) by (apply (wf_entries _ Hwf); eauto). congruence.
Qed.

Lemma wf_entry_heap c k el :
  wf c → entries c !! k = Some el → ∃ e, heap c !! el = Some e ∧ e_key e = k.
Proof. intros Hwf. apply (wf_entries _ Hwf). Qed.

Lemma wf_elem_order c el e : wf c → heap c !! el = Some e → el ∈ order c.
Proof. intros Hwf Hel. apply (wf_heap _ Hwf). eauto. Qed.

Lemma sizes_nonneg c : wf c → sane c → Forall (λ e, 0 ≤ e_size e)%Z (abs c).
Proof.
  intros Hwf Hs. apply Forall_forall. intros e Hin. apply abs_elem in Hin as [el Hel]; [|done].
  rewrite (wf_size _ Hwf _ _ Hel). apply (sane_size _ Hs).
Qed.

Lemma bytes_total c : wf c → bytes c = Spec.total (abs c).
Proof. intros Hwf. apply (wf_bytes _ Hwf). Qed.

Lemma drop_key_total c el e :
  wf c → heap c !! el = Some e →
  Spec.total (abs c) = (e_size e + Spec.total (Spec.drop_key (e_key e) (abs c)))%Z.
Proof.
  intros Hwf Hel. rewrite <-total_cons, <-(abs_move c el e) by done.
  unfold Spec.total, abs. apply Zsum_perm.
  f_equiv. f_equiv. symmetry. apply mtf_perm; [apply (wf_nodup _ Hwf)|]. by eapply wf_elem_order.
Qed.
End lru_lemmas.

(** *** Each operation preserves well-formedness and is its specification *)
Section lru_ops.
Context {K V : Type} `{Countable K}.
Implicit Types (c : LRU.t K V) (k : K) (v : V).
Import LRU.

Lemma wf_with_stats c h m e : wf c → wf (with_stats c h m e).
Proof. by intros []. Qed.

Lemma wf_with_armed c a : wf c → wf (with_armed c a).
Proof. by intros []. Qed.

Lemma wf_New nm mx sz : wf (NewLRU (K:=K) (V:=V) nm mx sz).
Proof.
  split; simpl; try done.
  - constructor.
  - intros el. rewrite lookup_empty. split; [by intros ?%not_elem_of_nil|by intros [? ?]].
  - intros k el. rewrite lookup_empty. split; [done|]. intros (e & He & _). by rewrite lookup_empty in He.
  - by intros ? ?%not_elem_of_nil.
Qed.

Lemma wf_Purge c : wf (Purge c).
Proof.
  split; simpl; try done.
  - constructor.
  - intros el. rewrite lookup_empty. split; [by intros ?%not_elem_of_nil|by intros [? ?]].
  - intros k el. rewrite lookup_empty. split; [done|]. intros (e & He & _). by rewrite lookup_empty in He.
  - by intros ? ?%not_elem_of_nil.
Qed.

(** Moving an element to the front keeps the cache well formed. *)
Lemma wf_move c el e :
  wf c → heap c !! el = Some e →
  wf (with_store c (entries c) (move_to_front el (order c)) (heap c) (fresh c) (bytes c)).
Proof.
  intros Hwf Hel.
  pose proof (mtf_perm el (order c) (wf_nodup _ Hwf) (wf_elem_order _ _ _ Hwf Hel)) as Hp.
  split; simpl.
  - rewrite Hp. apply (wf_nodup _ Hwf).
  - intros x. rewrite Hp. apply (wf_heap _ Hwf).
  - apply (wf_entries _ Hwf).
  - intros x. rewrite Hp. apply (wf_fresh _ Hwf).
  - rewrite (wf_bytes _ Hwf). apply Zsum_perm. f_equiv.
    change (omap (λ x, heap c !! x) (order c)
            ≡ₚ omap (λ x, heap c !! x) (move_to_front el (order c))).
    by rewrite Hp.
  - apply (wf_size _ Hwf).
Qed.

Lemma abs_drop_el c el e :
  wf c → heap c !! el = Some e → abs (drop_el c el e) = Spec.drop_key (e_key e) (abs c).
Proof.
  intros Hwf Hel. rewrite <-(abs_filter c el e) by done. unfold abs, drop_el; simpl.
  apply omap_ext_in. intros x [? _]%list_elem_of_filter. by rewrite lookup_delete_ne.
Qed.

Lemma wf_drop_el c el e :
  wf c → sane c → (bytes c < 2 ^ 63)%Z → heap c !! el = Some e → wf (drop_el c el e).
Proof.
  intros Hwf Hs Hb Hel.
  pose proof (sizes_nonneg _ Hwf Hs) as Hnn.
  assert (0 ≤ e_size e)%Z as He.
  { rewrite (wf_size _ Hwf _ _ Hel). apply (sane_size _ Hs). }
  assert (0 ≤ Spec.total (Spec.drop_key (e_key e) (abs c)))%Z as Hrest.
  { apply total_nonneg, Forall_forall. intros x [_ Hx]%list_elem_of_filter.
    by eapply Forall_forall in Hnn. }
  pose proof (drop_key_total _ _ _ Hwf Hel) as Htot.
  pose proof (bytes_total _ Hwf) as Hbt.
  split.
  - simpl. apply NoDup_filter, (wf_nodup _ Hwf).
  - intros x. simpl. rewrite list_elem_of_filter, (wf_heap _ Hwf).
    destruct (decide (x = el)) as [->|].
    + rewrite lookup_delete_eq. split; [tauto|by intros [? ?]].
    + rewrite lookup_delete_ne by done. tauto.
  - intros k x. simpl. rewrite lookup_delete_Some, (wf_entries _ Hwf). split.
    + intros (Hk & e' & Hx & Hke). exists e'. rewrite lookup_delete_ne; [done|]. intros ->. congruence.
    + intros (e' & Hx & Hke). apply lookup_delete_Some in Hx as [Hne Hx].
      split; [|eauto]. intros Hk. apply Hne. eapply wf_inj; eauto. congruence.
  - intros x. simpl. rewrite list_elem_of_filter. intros [_ ?]. by apply (wf_fresh _ Hwf).
  - rewrite abs_drop_el by done. simpl. fold (Spec.total (Spec.drop_key (e_key e) (abs c))).
    rewrite i64_small; lia.
  - intros x e' Hx. simpl in *. apply lookup_delete_Some in Hx as [_ Hx].
    by apply (wf_size _ Hwf x).
Qed.

Lemma last_abs c el e :
  last (order c) = Some el → heap c !! el = Some e →
  ∃ l, abs c = l ++ [e].
Proof.
  intros Hl He. apply last_Some in Hl as [l Hl]. unfold abs. rewrite Hl.
  exists (omap (λ x, heap c !! x) l). rewrite omap_app. simpl. by rewrite He.
Qed.

Lemma drop_key_last l (e : entry K V) :
  (∀ e', e' ∈ l → e_key e' ≠ e_key e) → Spec.drop_key (e_key e) (l ++ [e]) = l.
Proof.
  intros Hl. unfold Spec.drop_key. rewrite filter_app, filter_cons_False by tauto.
  rewrite filter_nil, app_nil_r. by apply drop_key_id.
Qed.

(** Keys are unique in the abstraction. *)
Lemma abs_keys_nodup c : wf c → NoDup (e_key <$> abs c).
Proof.
  intros Hwf. pose proof (wf_nodup _ Hwf) as Hnd.
  assert (∀ x, x ∈ order c → is_Some (heap c !! x)) as Hs by (intros; by apply (wf_heap _ Hwf)).
  unfold abs. induction (order c) as [|el l IH]; [constructor|].
  apply NoDup_cons in Hnd as [Hni Hnd].
  destruct (Hs el) as [e He]; [left|].
  rewrite (omap_cons_Some (λ x, heap c !! x) _ _ _ He). simpl.
  apply NoDup_cons. split; [|apply IH; [done|]; intros; apply Hs; by right].
  rewrite list_elem_of_fmap. intros (e' & Hk & Hin).
  apply list_elem_of_omap in Hin as (x & Hx & Hxe).
  assert (el = x) as -> by (by eapply wf_inj). done.
Qed.

(** The eviction loop: with the list's length as fuel it ends inside the bound,
    and what is left is the front part [Spec.trim] keeps. *)
Lemma evict_loop_spec n c :
  wf c → sane c → (0 ≤ maxBytes c)%Z → (bytes c < 2 ^ 63)%Z → length (order c) ≤ n →
  wf (evict_loop n c) ∧ same_params c (evict_loop n c) ∧
  abs (evict_loop n c) = Spec.trim (maxBytes c) (abs c) ∧
  (bytes (evict_loop n c) ≤ maxBytes c)%Z.
Proof.
  revert c. induction n as [|n IH]; intros c Hwf Hs Hm Hb Hn;
    pose proof (bytes_total _ Hwf) as Hbt; pose proof (sizes_nonneg _ Hwf Hs) as Hnn.
  - assert (order c = []) as Ho by (destruct (order c); simpl in *; [done|lia]).
    assert (abs c = []) as Ha by (unfold abs; by rewrite Ho).
    simpl. rewrite Ha in *. split_and!; try done. rewrite Hbt. done.
  - simpl. case_bool_decide as Hlt.
    2:{ split_and!; try done; [|lia]. rewrite trim_fits; [done..|lia]. }
    destruct (last (order c)) as [el|] eqn:Hl.
    2:{ apply last_None in Hl. assert (abs c = []) as Ha by (unfold abs; by rewrite Hl).
        rewrite Ha, total_nil in Hbt. lia. }
    assert (el ∈ order c) as Hin by (by apply last_Some_elem_of).
    destruct (proj1 (wf_heap _ Hwf el) Hin) as [e He]. rewrite He.
    fold (drop_el c el e).
    destruct (last_abs c el e) as [l Hal]; [done..|].
    assert (Spec.drop_key (e_key e) (abs c) = l) as Hdk.
    { rewrite Hal. apply drop_key_last. intros e' Hin' Hk.
      pose proof (abs_keys_nodup _ Hwf) as Hnd. rewrite Hal, fmap_app in Hnd.
      apply NoDup_app in Hnd as (_ & Hdis & _). apply (Hdis (e_key e')).
      - by apply list_elem_of_fmap_2.
      - rewrite Hk. simpl. by left. }
    pose proof (wf_drop_el _ _ _ Hwf Hs Hb He) as Hwf'.
    pose proof (abs_drop_el _ _ _ Hwf He) as Habs'. rewrite Hdk in Habs'.
    set (d := with_stats (drop_el c el e) (hits (drop_el c el e)) (misses (drop_el c el e))
                          (u64 (evictions (drop_el c el e) + 1))).
    assert (length (order d) < length (order c)) as Hlen.
    { apply (length_filter_lt _ _ el); [done|tauto]. }
    assert (0 ≤ Spec.total l)%Z.
    { apply total_nonneg. rewrite Hal in Hnn. by apply Forall_app in Hnn as [? _]. }
    assert (0 ≤ e_size e)%Z.
    { rewrite (wf_size _ Hwf _ _ He). apply (sane_size _ Hs). }
    rewrite Hal, total_app, total_single in Hbt.
    destruct (IH d) as (Hw & Hp & Ha & Hbd).
    + by apply wf_with_stats.
    + destruct Hs. by split.
    + done.
    + simpl. rewrite i64_small; lia.
    + lia.
    + split; [done|]. split; [|split; [|done]].
      * destruct Hp as (Hp1&Hp2&Hp3&Hp4). repeat split; [exact Hp1|exact Hp2|exact Hp3|exact Hp4].
      * etrans; [exact Ha|]. change (abs d) with (abs (drop_el c el e)). rewrite Habs', Hal.
        simpl. rewrite trim_snoc; [done|]. rewrite total_app, total_single. lia.
Qed.
End lru_ops.

(** *** Functional refinement, operation by operation *)
Section lru_refine.
Context {K V : Type} `{Countable K}.
Implicit Types (c : LRU.t K V) (k : K) (v : V).
Import LRU.

Lemma abs_put_old c el k v e :
  wf c → heap c !! el = Some e → e_key e = k →
  abs (put_old c el k v) = Entry k v (sizeOf c v) :: Spec.drop_key k (abs c).
Proof.
  intros Hwf He <-. unfold abs at 1. cbn [put_old with_store order heap]. unfold move_to_front.
  rewrite omap_cons_eq, lookup_insert_eq. f_equal.
  rewrite <-(abs_filter c el e) by done. apply omap_ext_in.
  intros x [Hx _]%list_elem_of_filter. by rewrite lookup_insert_ne.
Qed.

Lemma abs_put_new c k v :
  wf c → entries c !! k = None →
  abs (put_new c k v) = Entry k v (sizeOf c v) :: Spec.drop_key k (abs c).
Proof.
  intros Hwf Hk. unfold abs at 1. cbn [put_new with_store order heap].
  rewrite omap_cons_eq, lookup_insert_eq. f_equal.
  rewrite drop_key_id.
  - apply omap_ext_in. intros x Hx. rewrite lookup_insert_ne; [done|].
    apply (wf_fresh _ Hwf) in Hx. lia.
  - intros e Hin. apply (lookup_key_None k (abs c)); [|done]. by apply abs_lookup_None.
Qed.

Lemma wf_put_old c el k v e :
  wf c → heap c !! el = Some e → e_key e = k →
  bytes (put_old c el k v) = (sizeOf c v + Spec.total (Spec.drop_key k (abs c)))%Z →
  wf (put_old c el k v).
Proof.
  intros Hwf He Hk Hb.
  pose proof (mtf_perm el (order c) (wf_nodup _ Hwf) (wf_elem_order _ _ _ Hwf He)) as Hp.
  split.
  - simpl. rewrite Hp. apply (wf_nodup _ Hwf).
  - intros x. simpl. rewrite Hp, (wf_heap _ Hwf), lookup_insert_is_Some.
    destruct (decide (x = el)) as [->|]; naive_solver.
  - intros k' x. simpl. rewrite (wf_entries _ Hwf).
    destruct (decide (x = el)) as [->|].
    + rewrite lookup_insert_eq. naive_solver.
    + by rewrite lookup_insert_ne.
  - intros x. simpl. rewrite Hp. apply (wf_fresh _ Hwf).
  - rewrite Hb, (abs_put_old c el k v e) by done. done.
  - intros x e'. simpl. rewrite lookup_insert_Some. intros [[_ <-]|[_ Hx]]; [done|].
    by apply (wf_size _ Hwf x).
Qed.

Lemma wf_put_new c k v :
  wf c → entries c !! k = None →
  bytes (put_new c k v) = (sizeOf c v + Spec.total (Spec.drop_key k (abs c)))%Z →
  wf (put_new c k v).
Proof.
  intros Hwf Hk Hb.
  assert (fresh c ∉ order c) as Hfr by (intros ?%(wf_fresh _ Hwf); lia).
  assert (heap c !! fresh c = None) as Hhf.
  { apply eq_None_not_Some. intros ?%(wf_heap _ Hwf). done. }
  split.
  - simpl. constructor; [done|]. apply (wf_nodup _ Hwf).
  - intros x. simpl. rewrite elem_of_cons, (wf_heap _ Hwf), lookup_insert_is_Some.
    destruct (decide (x = fresh c)) as [->|]; naive_solver.
  - intros k' x. simpl. rewrite lookup_insert_Some.
    destruct (decide (x = fresh c)) as [->|Hx].
    + rewrite lookup_insert_eq. split; [|naive_solver].
      intros [[-> _]|[_ Hent]]; [eauto|].
      apply (wf_entries _ Hwf) in Hent as (e & He & _). congruence.
    + rewrite lookup_insert_ne by done. rewrite (wf_entries _ Hwf). split; [naive_solver|].
      intros Hent. right. split; [|done]. intros ->.
      apply (wf_entries _ Hwf) in Hent. congruence.
  - intros x. simpl. rewrite elem_of_cons. intros [->|Hx]; [lia|].
    apply (wf_fresh _ Hwf) in Hx. lia.
  - rewrite Hb, abs_put_new by done. done.
  - intros x e. simpl. rewrite lookup_insert_Some. intros [[_ <-]|[_ Hx]]; [done|].
    by apply (wf_size _ Hwf x).
Qed.

Lemma drop_key_bounds c k :
  wf c → sane c → (0 ≤ Spec.total (Spec.drop_key k (abs c)) ≤ Spec.total (abs c))%Z.
Proof.
  intros Hwf Hs. pose proof (sizes_nonneg _ Hwf Hs) as Hnn.
  generalize dependent (abs c). intros l Hnn. induction l as [|e l IH]; [done|].
  apply Forall_cons in Hnn as [He Hnn]. specialize (IH Hnn). unfold Spec.drop_key in *.
  rewrite total_cons. destruct (decide (e_key e ≠ k)).
  - rewrite filter_cons_True by done. rewrite total_cons. lia.
  - rewrite filter_cons_False by done. lia.
Qed.

Lemma sane_same c c' : same_params c c' → sane c → sane c'.
Proof. intros (Hm & Hz & _) []. split; [by rewrite Hz|by rewrite Hm]. Qed.

Lemma good_bytes_lt c : good c → (bytes c < 2 ^ 62)%Z.
Proof. intros [_ [_ Hm] Hb]. unfold within_bound in Hb. lia. Qed.

Lemma add_commit_refines k v c :
  good c →
  good (add_commit k v c) ∧ same_params c (add_commit k v c) ∧
  abs (add_commit k v c) = Spec.add (maxBytes c) (sizeOf c) k v (abs c).
Proof.
  intros Hg. pose proof (good_bytes_lt _ Hg) as Hlt. destruct Hg as [Hwf Hs Hbd].
  unfold add_commit, Spec.add. case_bool_decide as Hsz.
  { done. }
  pose proof (sane_size _ Hs v) as Hv. pose proof (sane_max _ Hs) as Hmax.
  pose proof (bytes_total _ Hwf) as Hbt.
  pose proof (drop_key_bounds c k Hwf Hs) as Hdk.
  assert (∀ d, wf d → same_params c d →
    abs d = Entry k v (sizeOf c v) :: Spec.drop_key k (abs c) →
    bytes d = (sizeOf c v + Spec.total (Spec.drop_key k (abs c)))%Z →
    good (evictLocked d) ∧ same_params c (evictLocked d) ∧
    abs (evictLocked d) =
      Spec.trim (maxBytes c) (Entry k v (sizeOf c v) :: Spec.drop_key k (abs c))) as Hev.
  { intros d Hwd Hpd Had Hbd'. pose proof (sane_same _ _ Hpd Hs) as Hsd.
    destruct Hpd as (Hp1 & Hp2 & Hp3 & Hp4).
    destruct (evict_loop_spec (length (order d)) d) as (Hw & (Hq1&Hq2&Hq3&Hq4) & Ha & Hb);
      [done|done|lia|lia|lia|].
    fold (evictLocked d) in *.
    assert (same_params c (evictLocked d)) as Hpc by (repeat split; congruence).
    split; [|split; [done|]].
    - split; [done|by eapply sane_same|]. unfold within_bound. rewrite Hq1. lia.
    - rewrite Ha, Had, Hp1. done. }
  destruct (entries c !! k) as [el|] eqn:Hent.
  - destruct (wf_entry_heap _ _ _ Hwf Hent) as (e & He & Hke). rewrite He.
    pose proof (drop_key_total c el e Hwf He) as Htot. rewrite Hke in Htot.
    assert (0 ≤ e_size e)%Z by (rewrite (wf_size _ Hwf _ _ He); apply (sane_size _ Hs)).
    assert (put_old c el k v = with_store c (entries c) (move_to_front el (order c))
               (<[el := Entry (e_key e) v (sizeOf c v)]> (heap c)) (fresh c)
               (i64 (bytes c + (sizeOf c v - e_size e)))) as Heq.
    { unfold put_old. by rewrite He, Hke. }
    rewrite <-Heq.
    assert (bytes (put_old c el k v) =
            (sizeOf c v + Spec.total (Spec.drop_key k (abs c)))%Z) as Hb'.
    { simpl. rewrite He. simpl. rewrite i64_small; lia. }
    apply Hev; [by eapply wf_put_old|done|by eapply abs_put_old|done].
  - fold (put_new c k v).
    assert (bytes (put_new c k v) =
            (sizeOf c v + Spec.total (Spec.drop_key k (abs c)))%Z) as Hb'.
    { simpl. rewrite i64_small by lia. rewrite drop_key_id; [lia|].
      intros e Hin. apply (lookup_key_None k (abs c)); [|done]. by apply abs_lookup_None. }
    apply Hev; [by apply wf_put_new|done|by apply abs_put_new|done].
Qed.

Lemma get_locked_refines k c :
  good c →
  good (get_locked k c).2 ∧ same_params c (get_locked k c).2 ∧
  ((get_locked k c).1, abs (get_locked k c).2) = Spec.get k (abs c).
Proof.
  intros [Hwf Hs Hbd]. unfold get_locked, Spec.get.
  destruct (entries c !! k) as [el|] eqn:Hent; simpl.
  - destruct (wf_entry_heap _ _ _ Hwf Hent) as (e & He & Hke).
    destruct (abs_lookup c k el e Hwf Hent He) as [Hlk _]. rewrite Hlk, He. simpl.
    pose proof (wf_move _ _ _ Hwf He) as Hwm.
    split; [split; [|eapply (sane_same c); [|exact Hs]; by repeat split|done]|split; [done|]].
    + by apply (wf_with_stats _ (u64 (hits c + 1)) (misses c) (evictions c)) in Hwm.
    + f_equal. rewrite <-Hke. exact (abs_move c el e Hwf He).
  - rewrite abs_lookup_None by done. split; [|done].
    split; [by apply wf_with_stats|eapply (sane_same c); [|exact Hs]; by repeat split|done].
Qed.

Lemma get_refines k c :
  good c →
  good (Get k c).2 ∧ same_params c (Get k c).2 ∧
  ((Get k c).1, abs (Get k c).2) =
    (if Enabled c then Spec.get k (abs c) else (None, abs c)).
Proof.
  intros Hg. unfold Get. destruct (Enabled c) eqn:Hen; simpl; [by apply get_locked_refines|done].
Qed.

Lemma remove_refines k c :
  good c →
  good (Remove k c) ∧ same_params c (Remove k c) ∧ abs (Remove k c) = Spec.drop_key k (abs c).
Proof.
  intros Hg. pose proof (good_bytes_lt _ Hg) as Hlt. destruct Hg as [Hwf Hs Hbd].
  unfold Remove. destruct (entries c !! k) as [el|] eqn:Hent.
  - destruct (wf_entry_heap _ _ _ Hwf Hent) as (e & He & Hke). rewrite He, <-Hke.
    fold (drop_el c el e).
    pose proof (drop_key_total c el e Hwf He) as Htot. pose proof (bytes_total _ Hwf) as Hbt.
    pose proof (drop_key_bounds c (e_key e) Hwf Hs).
    assert (0 ≤ e_size e)%Z by (rewrite (wf_size _ Hwf _ _ He); apply (sane_size _ Hs)).
    split; [|split; [done|by apply abs_drop_el]].
    split; [apply wf_drop_el; [done|done|lia|done]|eapply (sane_same c); [|exact Hs]; by repeat split|].
    unfold within_bound in *. simpl. rewrite i64_small; lia.
  - split; [done|split; [done|]]. rewrite drop_key_id; [done|].
    intros e Hin. apply (lookup_key_None k (abs c)); [|done]. by apply abs_lookup_None.
Qed.

Lemma purge_refines c : sane c → good (Purge c) ∧ same_params c (Purge c) ∧ abs (Purge c) = [].
Proof.
  intros Hs. split; [|done]. split; [apply wf_Purge|eapply (sane_same c); [|exact Hs]; by repeat split|].
  unfold within_bound. simpl. lia.
Qed.

Lemma set_armed_good a c : good c → good (SetArmed a c).
Proof.
  intros [Hwf [Hz Hm] Hb]. destruct a; simpl.
  - split; [by apply wf_with_armed|by split|done].
  - by apply purge_refines.
Qed.

Lemma with_armed_good a c : good c → good (with_armed c a).
Proof. intros [Hwf [Hz Hm] Hb]. split; [by apply wf_with_armed|by split|done]. Qed.

Lemma new_good nm mx sz :
  (∀ v, 0 ≤ sz v)%Z → (mx < 2 ^ 62)%Z → good (NewLRU (K:=K) (V:=V) nm mx sz).
Proof. intros Hz Hm. split; [apply wf_New|by split|]. unfold within_bound; simpl; lia. Qed.

Lemma contents_abs c k :
  wf c → contents c k = e_value <$> Spec.lookup_key k (abs c).
Proof.
  intros Hwf. unfold contents. destruct (entries c !! k) as [el|] eqn:Hent; simpl.
  - destruct (wf_entry_heap _ _ _ Hwf Hent) as (e & He & _). rewrite He.
    by destruct (abs_lookup c k el e Hwf Hent He) as [-> _].
  - by rewrite abs_lookup_None.
Qed.
End lru_refine.

(** ** Theorems on sequences of operations *)
Section lru_runs.
Context {K V : Type} `{Countable K}.
Implicit Types (c : LRU.t K V) (k : K) (v : V).

(** What every state reached from a good one keeps. *)
Definition reached c c' : Prop :=
  LRU.good c' ∧ LRU.maxBytes c' = LRU.maxBytes c ∧ LRU.sizeOf c' = LRU.sizeOf c.

Lemma reached_trans c1 c2 c3 : reached c1 c2 → reached c2 c3 → reached c1 c3.
Proof. intros (?&Hm1&Hz1) (?&Hm2&Hz2). split; [done|]. by rewrite Hm2, Hz2. Qed.

Lemma reached_same c c' : LRU.good c' → LRU.same_params c c' → reached c c'.
Proof. intros ? (?&?&?&?). by split. Qed.

Lemma lru_step_reached o c : LRU.good c → reached c (lru_step o c).2.
Proof.
  intros Hg. destruct o as [k|k v|k| |a]; simpl.
  - destruct (get_refines k c Hg) as (?&?&_). by apply reached_same.
  - unfold LRU.Add. destruct (LRU.add_begin c); [|done].
    destruct (add_commit_refines k v c Hg) as (?&?&_). by apply reached_same.
  - destruct (remove_refines k c Hg) as (?&?&_). by apply reached_same.
  - destruct (purge_refines c (LRU.good_sane _ Hg)) as (?&?&_). by apply reached_same.
  - split; [by apply set_armed_good|]. by destruct a.
Qed.

Lemma lru_step_refines o c :
  LRU.good c →
  spec_step (LRU.maxBytes c) (LRU.sizeOf c) o (LRU.abs c, LRU.armed c) =
    ((lru_step o c).1, (LRU.abs (lru_step o c).2, LRU.armed (lru_step o c).2)).
Proof.
  intros Hg. destruct o as [k|k v|k| |a]; simpl.
  - destruct (get_refines k c Hg) as (_&(_&_&Ha&_)&Heq). unfold LRU.Enabled in Heq.
    destruct (_ && _); destruct (LRU.Get k c) as [r c'] eqn:Hget; simpl in *.
    + rewrite <-Heq. congruence.
    + congruence.
  - unfold LRU.Add, LRU.add_begin. change (bool_decide (0 < LRU.maxBytes c)%Z && LRU.armed c) with (LRU.Enabled c).
    destruct (LRU.Enabled c) eqn:Hen; [|done].
    destruct (add_commit_refines k v c Hg) as (_&(_&_&Ha&_)&Heq). by rewrite Heq, Ha.
  - destruct (remove_refines k c Hg) as (_&(_&_&Ha&_)&Heq). by rewrite Heq, Ha.
  - destruct (purge_refines c (LRU.good_sane _ Hg)) as (_&(_&_&Ha&_)&Heq). done.
  - by destruct a.
Qed.

Lemma lru_run_reached os c : LRU.good c → reached c (lru_run os c).2.
Proof.
  revert c. induction os as [|o os IH]; intros c Hg; simpl; [done|].
  pose proof (lru_step_reached o c Hg) as Hr. destruct (lru_step o c) as [r c1]; simpl in *.
  specialize (IH c1 (proj1 Hr)). destruct (lru_run os c1) as [rs c2]; simpl in *.
  by eapply reached_trans.
Qed.

Lemma lru_run_spec os c :
  LRU.good c →
  spec_run (LRU.maxBytes c) (LRU.sizeOf c) os (LRU.abs c, LRU.armed c) =
    ((lru_run os c).1, (LRU.abs (lru_run os c).2, LRU.armed (lru_run os c).2)).
Proof.
  revert c. induction os as [|o os IH]; intros c Hg; cbn [spec_run lru_run]; [done|].
  rewrite lru_step_refines by done.
  pose proof (lru_step_reached o c Hg) as (Hg1 & Hm & Hz).
  destruct (lru_step o c) as [r c1]; simpl in *. rewrite <-Hm, <-Hz, IH by done.
  by destruct (lru_run os c1).
Qed.

(** C23. The linked-list cache is its specification: for every sequence of
    gets, adds, removals, purges and arming changes on a fresh cache, the
    answers returned and the entries left, in recency order, are those of the
    list specification (an eviction keeps exactly the longest most-recent part
    that fits the byte bound, and a disarmed or zero-sized cache neither serves
    nor admits). *)
Theorem lru_refines_spec (nm : string) (max : Z) (size : V → Z) (os : list (lru_op K V)) :
  (∀ v, 0 ≤ size v)%Z → (max < 2 ^ 62)%Z →
  let '(rs, c) := lru_run os (LRU.NewLRU nm max size) in
  spec_run max size os ([], true) = (rs, (LRU.abs c, LRU.armed c)).
Proof.
  intros Hz Hm. pose proof (lru_run_spec os _ (new_good nm max size Hz Hm)) as Hr.
  destruct (lru_run os _) as [rs c]. exact Hr.
Qed.

(** C37. Whatever the history, the byte counter never leaves [int64], it is the
    sum of the sizes of the entries held, it is within the configured bound,
    and the map and the list hold the same number of entries. *)
Theorem lru_bounded (nm : string) (max : Z) (size : V → Z) (os : list (lru_op K V)) :
  (∀ v, 0 ≤ size v)%Z → (0 ≤ max < 2 ^ 62)%Z →
  let c := (lru_run os (LRU.NewLRU nm max size)).2 in
  LRU.bytes c = Zsum ((λ e, size (LRU.e_value e)) <$> LRU.abs c) ∧
  (0 ≤ LRU.bytes c ≤ max)%Z ∧
  dom (LRU.entries c) = list_to_set (LRU.e_key <$> LRU.abs c) ∧
  NoDup (LRU.e_key <$> LRU.abs c).
Proof.
  intros Hz [Hm0 Hm]. simpl.
  destruct (lru_run_reached os _ (new_good nm max size Hz Hm)) as (Hg & Hmx & Hsz).
  set (c := (lru_run os _).2) in *. destruct Hg as [Hwf Hs Hb].
  split; [|split; [|split]].
  - rewrite (LRU.wf_bytes _ Hwf). f_equal. apply list_fmap_ext.
    intros i e Hi. apply list_elem_of_lookup_2 in Hi.
    apply abs_elem in Hi as [el Hel]; [|done]. rewrite (LRU.wf_size _ Hwf _ _ Hel), Hsz. done.
  - unfold LRU.within_bound in Hb. rewrite Hmx in Hb. simpl in Hb.
    pose proof (total_nonneg _ (sizes_nonneg _ Hwf Hs)). rewrite (bytes_total _ Hwf) in *. lia.
  - apply set_eq. intros k. rewrite elem_of_dom, elem_of_list_to_set, list_elem_of_fmap.
    split.
    + intros [el Hel]. apply (LRU.wf_entries _ Hwf) in Hel as (e & He & <-).
      exists e. split; [done|]. apply abs_elem; eauto.
    + intros (e & -> & He). apply abs_elem in He as [el Hel]; [|done].
      exists el. apply (LRU.wf_entries _ Hwf). eauto.
  - by apply abs_keys_nodup.
Qed.

(** Disarming is immediate and lasting: once [SetArmed(false)] has run, no
    sequence of operations that does not arm again makes the cache answer
    anything or hold anything. *)
Theorem disarmed_is_silent c (os : list (lru_op K V)) :
  LRU.good c → (∀ a, OSetArmed a ∈ os → a = false) →
  let '(rs, c') := lru_run os (LRU.SetArmed false c) in
  Forall (λ r, r = None) rs ∧ LRU.abs c' = [] ∧ LRU.bytes c' = 0%Z.
Proof.
  intros Hg Hos.
  set (d := LRU.SetArmed false c).
  assert (LRU.good d) as Hd by (by apply set_armed_good).
  assert (LRU.abs d = [] ∧ LRU.armed d = false) as [Ha Hf] by done. clearbody d.
  revert d Hd Ha Hf. induction os as [|o os IH]; intros d Hd Ha Hf; simpl.
  - split; [constructor|split; [done|]]. by rewrite (bytes_total d (LRU.good_wf _ Hd)), Ha.
  - pose proof (lru_step_refines o d Hd) as Hst. pose proof (lru_step_reached o d Hd) as (Hg1&_).
    destruct (lru_step o d) as [r d1]; simpl in *. rewrite Ha, Hf in Hst.
    assert (r = None ∧ LRU.abs d1 = [] ∧ LRU.armed d1 = false) as (-> & Ha1 & Hf1).
    { destruct o as [k|k v|k| |a]; simpl in Hst; rewrite ?andb_false_r in Hst; simplify_eq; try done.
      assert (LRU.armed d1 = false) as -> by (apply Hos; left).
      split_and!; [done| |done]. by destruct (LRU.armed d1). }
    specialize (IH (λ a Hin, Hos a (list_elem_of_further _ _ _ Hin)) d1 Hg1 Ha1 Hf1).
    destruct (lru_run os d1) as [rs d2]. destruct IH as (?&?&?). split; [by constructor|done].
Qed.
End lru_runs.

(** ** Single-operation theorems clients use *)
Section lru_client.
Context {K V : Type} `{Countable K}.
Implicit Types (c : LRU.t K V) (k : K) (v : V).

Lemma trim_head (b : Z) (e : LRU.entry K V) l :
  (LRU.e_size e ≤ b)%Z → Spec.trim b (e :: l) = e :: Spec.trim (b - LRU.e_size e) l.
Proof. intros. simpl. by rewrite bool_decide_true. Qed.

Lemma lookup_key_head k (e : LRU.entry K V) l :
  LRU.e_key e = k → Spec.lookup_key k (e :: l) = Some e.
Proof. intros Hk. unfold Spec.lookup_key. simpl. by rewrite bool_decide_true. Qed.

Lemma commit_contents k v c :
  LRU.good c → (LRU.sizeOf c v ≤ LRU.maxBytes c)%Z →
  LRU.contents (LRU.add_commit k v c) k = Some v.
Proof.
  intros Hg Hsz. destruct (add_commit_refines k v c Hg) as (Hg' & _ & Ha).
  rewrite contents_abs by apply Hg'. rewrite Ha. unfold Spec.add.
  rewrite bool_decide_false by lia. rewrite trim_head by done. by rewrite lookup_key_head.
Qed.

Lemma get_contents k c :
  LRU.good c → LRU.Enabled c = true → (LRU.Get k c).1 = LRU.contents c k.
Proof.
  intros Hg Hen. destruct (get_refines k c Hg) as (_ & _ & Heq). rewrite Hen in Heq.
  rewrite contents_abs by apply Hg. unfold Spec.get in Heq.
  destruct (Spec.lookup_key k (LRU.abs c)); simpl; congruence.
Qed.

Lemma lookup_key_drop k k' (l : list (LRU.entry K V)) :
  Spec.lookup_key k' (Spec.drop_key k l) = if decide (k' = k) then None else Spec.lookup_key k' l.
Proof.
  unfold Spec.drop_key. induction l as [|e l IH]; [by case_decide|].
  destruct (decide (LRU.e_key e ≠ k)) as [Hne|Heq].
  - rewrite filter_cons_True by done. unfold Spec.lookup_key in *. simpl. rewrite IH.
    repeat case_decide; repeat case_bool_decide; congruence.
  - rewrite filter_cons_False by done. rewrite IH. case_decide; [done|].
    unfold Spec.lookup_key. simpl. rewrite bool_decide_false; [done|].
    apply dec_stable in Heq. congruence.
Qed.

Lemma lookup_key_trim b k (l : list (LRU.entry K V)) e :
  NoDup (LRU.e_key <$> l) → Spec.lookup_key k (Spec.trim b l) = Some e → Spec.lookup_key k l = Some e.
Proof.
  intros Hnd Hl. apply lookup_key_Some in Hl as [Hin Hk]. apply elem_of_trim in Hin.
  destruct (Spec.lookup_key k l) as [e'|] eqn:Hl'.
  - apply lookup_key_Some in Hl' as [Hin' Hk'].
    f_equal. symmetry.
    apply list_elem_of_lookup in Hin as [i Hi]. apply list_elem_of_lookup in Hin' as [j Hj].
    assert (i = j) as ->; [|congruence].
    apply (NoDup_lookup _ i j k Hnd); rewrite list_lookup_fmap, ?Hi, ?Hj; simpl; congruence.
  - exfalso. by eapply lookup_key_None.
Qed.

Lemma lookup_key_dropped x k (l : list (LRU.entry K V)) :
  Spec.lookup_key k (Spec.drop_key x l) = None ∨ Spec.lookup_key k (Spec.drop_key x l) = Spec.lookup_key k l.
Proof. rewrite lookup_key_drop. destruct (decide (k = x)); [by left|by right]. Qed.

(** An addition adds nothing else. *)
Lemma commit_only k v c k' v' :
  LRU.good c → LRU.contents (LRU.add_commit k v c) k' = Some v' → LRU.contents c k' = Some v' ∨ (k = k' ∧ v = v').
Proof.
  intros Hg. destruct (add_commit_refines k v c Hg) as (Hg' & _ & Ha).
  rewrite !contents_abs by (apply Hg || apply Hg'). rewrite Ha. unfold Spec.add.
  destruct (bool_decide (LRU.maxBytes c < LRU.sizeOf c v)%Z); [by left|].
  intros (e & Hl & ->)%fmap_Some. apply lookup_key_trim in Hl.
  - unfold Spec.lookup_key in Hl. simpl in Hl. case_bool_decide as Hk; [right; by simplify_eq|].
    left. fold (Spec.lookup_key k' (Spec.drop_key k (LRU.abs c))) in Hl.
    destruct (lookup_key_dropped k k' (LRU.abs c)) as [Hd|Hd]; rewrite Hd in Hl; by rewrite ?Hl.
  - simpl. apply NoDup_cons. split.
    + rewrite list_elem_of_fmap. intros (e' & Hk & Hin). unfold Spec.drop_key in Hin.
      apply list_elem_of_filter in Hin as [? _]. congruence.
    + apply NoDup_fmap_filter, abs_keys_nodup, Hg.
Qed.

(** A lookup changes nothing that is held, and its locked part answers what is. *)
Lemma get_locked_contents k c k' :
  LRU.contents (LRU.get_locked k c).2 k' = LRU.contents c k' ∧ (LRU.get_locked k c).1 = LRU.contents c k.
Proof. unfold LRU.get_locked, LRU.contents. by destruct (LRU.entries c !! k). Qed.

(** Whatever a cache holds after an operation it held before, except the entry
    just added: the fact every client invariant rests on. *)
Lemma step_contents (o : lru_op K V) c k v :
  LRU.good c → LRU.contents (lru_step o c).2 k = Some v →
  LRU.contents c k = Some v ∨ o = OAdd k v.
Proof.
  intros Hg. pose proof (lru_step_refines o c Hg) as Hst.
  pose proof (lru_step_reached o c Hg) as (Hg' & _).
  rewrite !contents_abs by (apply Hg || apply Hg').
  destruct (lru_step o c) as [r c']; simpl in *. intros Hc.
  destruct o as [k0|k0 v0|k0| |a]; simpl in Hst.
  - left. destruct (bool_decide (0 < LRU.maxBytes c)%Z && LRU.armed c); [|congruence].
    unfold Spec.get in Hst. destruct (Spec.lookup_key k0 (LRU.abs c)) as [e|] eqn:Hl; simplify_eq.
    2:{ congruence. }
    apply lookup_key_Some in Hl as HH. destruct HH as [Hin Hk].
    match goal with H : e :: _ = LRU.abs c' |- _ => rewrite <-H in Hc end.
    unfold Spec.lookup_key in Hc at 1. simpl in Hc. case_bool_decide as Hek.
    + simpl in Hc. rewrite <-Hek, Hk, Hl. done.
    + fold (Spec.lookup_key k (Spec.drop_key k0 (LRU.abs c))) in Hc.
      destruct (lookup_key_dropped k0 k (LRU.abs c)) as [Hd|Hd]; rewrite Hd in Hc; done.
  - destruct (bool_decide (0 < LRU.maxBytes c)%Z && LRU.armed c); [|left; congruence].
    destruct (add_commit_refines k0 v0 c Hg) as (Hg2 & _ & Ha).
    destruct (commit_only k0 v0 c k v Hg) as [Hk|[-> ->]]; [|left|by right].
    + rewrite contents_abs, Ha by apply Hg2. simplify_eq. congruence.
    + by rewrite contents_abs in Hk by apply Hg.
  - left. assert (LRU.abs c' = Spec.drop_key k0 (LRU.abs c)) as Ha by congruence.
    rewrite Ha in Hc. destruct (lookup_key_dropped k0 k (LRU.abs c)) as [Hd|Hd]; rewrite Hd in Hc; done.
  - assert (LRU.abs c' = []) as Ha by congruence. by rewrite Ha in Hc.
  - left. destruct a; simplify_eq; [congruence|].
    assert (LRU.abs c' = []) as Ha by congruence. by rewrite Ha in Hc.
Qed.

(** What a client keeps of a cache: it is well-formed, and everything it holds
    satisfies [P].  Every operation keeps it, an addition provided the added
    entry satisfies [P], whatever is evicted. *)
Definition holds (P : K → V → Prop) c : Prop :=
  LRU.good c ∧ ∀ k v, LRU.contents c k = Some v → P k v.

Lemma holds_step P o c :
  holds P c → (∀ k v, o = OAdd k v → P k v) → holds P (lru_step o c).2.
Proof.
  intros [Hg Hc] Ho. split; [by apply lru_step_reached|].
  intros k v Hk. destruct (step_contents o c k v Hg Hk) as [?|?]; auto.
Qed.

Lemma holds_get P k c :
  holds P c → holds P (LRU.Get k c).2 ∧ ∀ v, (LRU.Get k c).1 = Some v → P k v.
Proof.
  intros Hh. split; [by apply (holds_step P (OGet k))|]. intros v Hv. destruct Hh as [Hg Hc].
  apply Hc. rewrite <-get_contents; [done|done|].
  destruct (LRU.Enabled c) eqn:E; [done|]. unfold LRU.Get in Hv. by rewrite E in Hv.
Qed.

Lemma holds_add P k v c : holds P c → P k v → holds P (LRU.Add k v c).
Proof. intros Hh Hp. apply (holds_step P (OAdd k v)); [done|]. intros ? ? [= <- <-]. done. Qed.

Lemma holds_remove P k c : holds P c → holds P (LRU.Remove k c).
Proof. intros Hh. by apply (holds_step P (ORemove k)). Qed.

Lemma holds_purge P c : holds P c → holds P (LRU.Purge c).
Proof. intros Hh. by apply (holds_step P OPurge). Qed.

(** What may replace the promise [P] when entries go away. *)
Lemma holds_weaken (P P' : K → V → Prop) c : holds P c → (∀ k v, P k v → P' k v) → holds P' c.
Proof. intros [Hg Hc] HP. split; [done|]. auto. Qed.

Lemma holds_purged P P' c : holds P c → holds P' (LRU.Purge c).
Proof. intros [Hg _]. split; [|done]. by apply (lru_step_reached OPurge c Hg). Qed.

Lemma holds_removed (P P' : K → V → Prop) k c :
  holds P c → (∀ k' v, k' ≠ k → P k' v → P' k' v) → holds P' (LRU.Remove k c).
Proof.
  intros [Hg Hc] HP. destruct (remove_refines k c Hg) as (Hg' & _ & Ha). split; [done|].
  intros k' v Hk. assert (LRU.contents c k' = Some v ∧ k' ≠ k) as [Hk' Hne]; [|by apply HP, Hc].
  rewrite !contents_abs in * by (apply Hg || apply Hg'). rewrite Ha, lookup_key_drop in Hk. by case_decide.
Qed.

Lemma holds_armed P a c : holds P c → holds P (LRU.SetArmed a c).
Proof. intros Hh. by apply (holds_step P (OSetArmed a)). Qed.

Lemma holds_new P nm mx sz :
  (∀ v, 0 ≤ sz v)%Z → (mx < 2 ^ 62)%Z → holds P (LRU.NewLRU nm mx sz).
Proof. intros Hz Hm. split; [by apply new_good|]. intros k v. by rewrite contents_abs by apply wf_New. Qed.

(** Reading back a write: on an enabled cache an admitted value (one that
    fits the bound) is returned by the next lookup of its key, whatever had to
    be evicted to make room. *)
Theorem add_then_get c k v :
  LRU.good c → LRU.Enabled c = true → (LRU.sizeOf c v ≤ LRU.maxBytes c)%Z →
  (LRU.Get k (LRU.Add k v c)).1 = Some v.
Proof.
  intros Hg Hen Hsz. unfold LRU.Add, LRU.add_begin. rewrite Hen.
  destruct (add_commit_refines k v c Hg) as (Hg' & (Hm & Hz & Ha & _) & _).
  rewrite get_contents; [by apply commit_contents|done|].
  unfold LRU.Enabled in *. by rewrite Hm, Ha.
Qed.

(** Flushing does not reach a write in flight.  A writer that passed its
    [Enabled] check (or that read the database) before the caches were disarmed
    and re-armed commits afterwards, and the cache, although it was emptied in
    between, then serves that value. *)
Theorem inflight_add_survives_flush c k v :
  LRU.good c → LRU.add_begin c = true → (LRU.sizeOf c v ≤ LRU.maxBytes c)%Z →
  let flushed := LRU.SetArmed true (LRU.SetArmed false c) in
  LRU.abs flushed = [] ∧ (LRU.Get k (LRU.add_commit k v flushed)).1 = Some v.
Proof.
  intros Hg Hen Hsz flushed.
  assert (LRU.good flushed) as Hf by (by apply set_armed_good, set_armed_good).
  split; [done|].
  destruct (add_commit_refines k v flushed Hf) as (Hg' & (Hm & Hz & Ha & _) & _).
  rewrite get_contents; [by apply commit_contents|done|].
  unfold LRU.add_begin, LRU.Enabled in *. rewrite Hm, Ha. simpl.
  by apply andb_true_iff in Hen as [-> _].
Qed.
End lru_client.

(** ** The auth chain key *)
Section auth_chain_key.
Import AuthChainKey.

Lemma str_app_cons a s t : String a s +:+ t = String a (s +:+ t).
Proof. done. Qed.

Lemma str_app_assoc s t u : (s +:+ t) +:+ u = s +:+ (t +:+ u).
Proof. induction s as [|a s IH]; [done|]. by rewrite !str_app_cons, IH. Qed.

Lemma str_app_inj_len s1 s2 t1 t2 :
  String.length s1 = String.length s2 → s1 +:+ t1 = s2 +:+ t2 → s1 = s2 ∧ t1 = t2.
Proof.
  revert s2. induction s1 as [|a s1 IH]; intros [|b s2] Hl Heq; try done.
  rewrite !str_app_cons in Heq. injection Heq as -> Heq. injection Hl as Hl.
  by destruct (IH s2 Hl Heq) as [-> ->].
Qed.

Lemma be_bytes_length n z : String.length (be_bytes n z) = n.
Proof. induction n as [|n IH]; simpl; congruence. Qed.

Fixpoint be_value (s : string) : Z :=
  match s with
  | EmptyString => 0
  | String a s => Z.of_N (N_of_ascii a) * 2 ^ (8 * str_len s) + be_value s
  end%Z.

Lemma be_value_bytes n z : be_value (be_bytes n z) = (z `mod` 2 ^ (8 * Z.of_nat n))%Z.
Proof.
  induction n as [|n IH]; [simpl; by rewrite Z.mod_1_r|].
  cbn [be_bytes be_value]. unfold str_len. rewrite be_bytes_length, IH.
  assert (0 ≤ (z / 2 ^ (8 * Z.of_nat n)) `mod` 256 < 256)%Z as Hb by (apply Z.mod_pos_bound; lia).
  rewrite N_ascii_embedding by lia. rewrite Z2N.id by lia.
  replace (2 ^ (8 * Z.of_nat (S n)))%Z with (2 ^ (8 * Z.of_nat n) * 256)%Z.
  - rewrite Z.rem_mul_r by lia. lia.
  - replace (8 * Z.of_nat (S n))%Z with (8 * Z.of_nat n + 8)%Z by lia.
    rewrite Z.pow_add_r by lia. done.
Qed.

Lemma chunk_inj id1 id2 t1 t2 :
  (str_len id1 < 2 ^ 64)%Z → (str_len id2 < 2 ^ 64)%Z →
  chunk id1 +:+ t1 = chunk id2 +:+ t2 → id1 = id2 ∧ t1 = t2.
Proof.
  intros H1 H2. unfold chunk. rewrite !str_app_assoc. intros Heq.
  apply str_app_inj_len in Heq as [Hlen Heq]; [|by rewrite !be_bytes_length].
  assert (0 ≤ str_len id1)%Z by (unfold str_len; lia).
  assert (0 ≤ str_len id2)%Z by (unfold str_len; lia).
  rewrite !u64_small in Hlen by lia. apply (f_equal be_value) in Hlen.
  rewrite !be_value_bytes, !Z.mod_small in Hlen by (simpl; lia).
  apply str_app_inj_len; [unfold str_len in Hlen; lia|done].
Qed.

Lemma chunk_cons_ne id t : chunk id +:+ t ≠ EmptyString.
Proof. done. Qed.

Lemma chunks_inj l1 l2 :
  Forall (λ id, str_len id < 2 ^ 64)%Z l1 → Forall (λ id, str_len id < 2 ^ 64)%Z l2 →
  foldr (λ id acc, chunk id +:+ acc) EmptyString l1 =
  foldr (λ id acc, chunk id +:+ acc) EmptyString l2 → l1 = l2.
Proof.
  revert l2. induction l1 as [|x l1 IH]; intros [|y l2] H1 H2; cbn [foldr]; intros Heq; try done.
  apply Forall_cons in H1 as [Hx H1]. apply Forall_cons in H2 as [Hy H2].
  apply chunk_inj in Heq as [-> Heq]; [|done..]. f_equal. by apply IH.
Qed.

Lemma nul_prefix_inj r1 r2 t1 t2 :
  contains_byte nul r1 = false → contains_byte nul r2 = false →
  r1 +:+ String nul t1 = r2 +:+ String nul t2 → r1 = r2 ∧ t1 = t2.
Proof.
  revert r2. induction r1 as [|a r1 IH]; intros [|b r2]; simpl; intros H1 H2 Heq.
  - by injection Heq.
  - injection Heq as <- _. done.
  - injection Heq as -> _. done.
  - apply orb_false_iff in H1 as [_ H1]. apply orb_false_iff in H2 as [_ H2].
    injection Heq as -> Heq. by destruct (IH r2 H1 H2 Heq) as [-> ->].
Qed.

(** The auth chain cache key identifies its input: two requests hash the
    same bytes exactly when they name the same room and the same multiset of
    event IDs, in whatever order (Matrix room IDs carry no NUL byte). *)
Theorem auth_chain_key_exact (r1 r2 : string) (ids1 ids2 : list string) :
  contains_byte nul r1 = false → contains_byte nul r2 = false →
  Forall (λ id, str_len id < 2 ^ 64)%Z ids1 → Forall (λ id, str_len id < 2 ^ 64)%Z ids2 →
  preimage r1 ids1 = preimage r2 ids2 ↔ r1 = r2 ∧ ids1 ≡ₚ ids2.
Proof.
  intros Hr1 Hr2 H1 H2. split.
  - intros Heq. apply nul_prefix_inj in Heq as [-> Heq]; [|done..]. split; [done|].
    apply chunks_inj in Heq; [|by rewrite sort_strings_perm..].
    by rewrite <-(sort_strings_perm ids1), Heq, sort_strings_perm.
  - intros [-> Hp]. unfold preimage. by rewrite (sort_strings_canonical _ _ Hp).
Qed.
End auth_chain_key.

(** ** Traces *)
Section traces.
Import Trace.

Definition record_all (l : list (string * bool)) : t :=
  foldl (λ tr p, Record_ p.1 p.2 tr) WithTrace l.

Lemma Zsum_counts_insert (f : Z * Z → Z) (m : gmap string (Z * Z)) k p q :
  default (0, 0)%Z (m !! k) = p → f (0, 0)%Z = 0%Z →
  Zsum ((λ x, f x.2) <$> map_to_list (<[k := q]> m)) =
  (Zsum ((λ x, f x.2) <$> map_to_list m) - f p + f q)%Z.
Proof.
  intros Hp Hf. destruct (m !! k) as [p'|] eqn:Hk; simpl in Hp; subst.
  - rewrite <-(insert_delete_eq m). rewrite map_to_list_insert by apply lookup_delete_eq.
    rewrite <-(insert_delete_id m k p) at 2 by done.
    rewrite (map_to_list_insert (delete k m) k p) by apply lookup_delete_eq. simpl.
    rewrite !Zsum_cons. simpl. lia.
  - rewrite map_to_list_insert by done. rewrite fmap_cons, Zsum_cons, Hf. cbn [snd]. lia.
Qed.

Definition count_true (l : list (string * bool)) : Z := Zsum ((λ p, boolToInt p.2) <$> l).

Lemma count_true_snoc l p : count_true (l ++ [p]) = (count_true l + boolToInt p.2)%Z.
Proof. unfold count_true. rewrite fmap_app, Zsum_app. cbn. unfold Zsum at 2; simpl. lia. Qed.

(** The bound under which no per-cache counter wraps. *)
Lemma record_all_sums l :
  (Z.of_nat (length l) < 2 ^ 62)%Z →
  total_hits (record_all l) = count_true l ∧
  total_lookups (record_all l) = Z.of_nat (length l) ∧
  joined (record_all l) = false ∧
  ∀ k h n, counts (record_all l) !! k = Some (h, n) →
    (0 ≤ h ≤ Z.of_nat (length l) ∧ 0 ≤ n ≤ Z.of_nat (length l))%Z.
Proof.
  unfold record_all. induction l as [|[nm b] l IH] using rev_ind; intros Hl.
  { repeat split; try done. all: intros; simplify_map_eq. }
  rewrite length_app in *. simpl in Hl. destruct IH as (Hh & Hn & Hj & Hb); [lia|].
  rewrite foldl_app. simpl. set (tr := foldl _ _ l) in *.
  unfold Record_, RecordN. rewrite bool_decide_false by lia.
  destruct (default (0, 0)%Z (counts tr !! nm)) as [h n] eqn:Hd.
  assert (0 ≤ h ≤ Z.of_nat (length l) ∧ 0 ≤ n ≤ Z.of_nat (length l))%Z as [Hbh Hbn].
  { destruct (counts tr !! nm) as [[h' n']|] eqn:Hk; simpl in Hd; simplify_eq; [by eapply Hb|lia]. }
  assert (0 ≤ boolToInt b ≤ 1)%Z by (destruct b; simpl; lia).
  rewrite !i64_small by lia.
  unfold total_hits, total_lookups in *. simpl.
  split_and!.
  - rewrite (Zsum_counts_insert fst _ _ _ _ Hd) by done. rewrite Hh.
    rewrite count_true_snoc. simpl. lia.
  - rewrite (Zsum_counts_insert snd _ _ _ _ Hd) by done. rewrite Hn. simpl. lia.
  - done.
  - intros k h0 n0. destruct (decide (nm = k)) as [->|].
    + rewrite lookup_insert_eq. intros; simplify_eq. lia.
    + rewrite lookup_insert_ne by done. intros Hk. destruct (Hb _ _ _ Hk). lia.
Qed.

Lemma count_true_bounds l : (0 ≤ count_true l ≤ Z.of_nat (length l))%Z.
Proof.
  unfold count_true. induction l as [|[nm b] l IH]; [done|].
  rewrite fmap_cons, Zsum_cons. cbn [snd length]. destruct b; cbn [boolToInt]; lia.
Qed.

Lemma count_true_all l : count_true l = Z.of_nat (length l) ↔ Forall (λ p, p.2 = true) l.
Proof.
  induction l as [|[nm b] l IH]; [split; [constructor|done]|].
  unfold count_true in *. rewrite fmap_cons, Zsum_cons, Forall_cons. cbn [snd length].
  pose proof (count_true_bounds l) as Hb. unfold count_true in Hb.
  destruct b; cbn [boolToInt]; [|split; [lia|naive_solver]]. rewrite <-IH. split; [intros; split; [done|lia]|lia].
Qed.

Lemma count_true_none l : count_true l = 0%Z ↔ Forall (λ p, p.2 = false) l.
Proof.
  induction l as [|[nm b] l IH]; [split; [constructor|done]|].
  unfold count_true in *. rewrite fmap_cons, Zsum_cons, Forall_cons. cbn [snd length].
  pose proof (count_true_bounds l) as Hb. unfold count_true in Hb.
  destruct b; cbn [boolToInt]; [split; [lia|naive_solver]|]. rewrite <-IH. split; [intros; split; [done|lia]|lia].
Qed.

(** A request's cache summary says what happened: it is empty exactly when
    nothing cacheable was looked up, ["hit"] when every lookup was served from
    memory, ["miss"] when none was, ["partial"] otherwise. *)
Theorem trace_summary_exact (l : list (string * bool)) :
  (Z.of_nat (length l) < 2 ^ 62)%Z →
  Summary (record_all l) =
    match l with
    | [] => ""
    | _ => if forallb snd l then "hit"
           else if forallb (λ p, negb p.2) l then "miss" else "partial"
    end%string.
Proof.
  intros Hl. destruct (record_all_sums l Hl) as (Hh & Hn & Hj & _).
  unfold Summary. rewrite Hj, Hh, Hn.
  destruct l as [|p l]; [done|]. rewrite bool_decide_false by (simpl; lia).
  destruct (decide (count_true (p :: l) = Z.of_nat (length (p :: l)))) as [He|He].
  - rewrite bool_decide_true by done. apply count_true_all in He.
    rewrite (proj2 (forallb_forall _ _)); [done|].
    intros x Hx%list_elem_of_In. by eapply Forall_forall in He.
  - rewrite bool_decide_false by done.
    destruct (forallb snd (p :: l)) eqn:Hall.
    { exfalso. apply He, count_true_all, Forall_forall. intros x Hx%list_elem_of_In.
      by eapply forallb_forall in Hall. }
    destruct (decide (count_true (p :: l) = 0%Z)) as [H0|H0].
    + rewrite bool_decide_true by done. apply count_true_none in H0.
      rewrite (proj2 (forallb_forall _ _)); [done|].
      intros x Hx%list_elem_of_In. eapply Forall_forall in H0; [|done]. by rewrite H0.
    + rewrite bool_decide_false by done.
      destruct (forallb (λ p, negb p.2) (p :: l)) eqn:Hnone; [|done].
      exfalso. apply H0, count_true_none, Forall_forall. intros x Hx%list_elem_of_In.
      eapply forallb_forall in Hnone; [|done]. by destruct x.2.
Qed.
End traces.

(** ** Settings *)
Section settings.
Import Settings.

(** A megabyte setting becomes a byte bound the LRU arithmetic is safe
    with: after defaulting, every valid setting below 2^42 MB gives
    [0 <= MB n < 2^62], negative ones disable the cache, and the field comment's
    "zero disables that cache" is not what happens: a zero takes the default,
    which enables it. *)
Theorem settings_bounds (s : t) :
  Validate s = true →
  let w := WithDefaults s in
  WithDefaults w = w ∧ Validate w = true ∧
  (∀ n, (-1 ≤ n < 2 ^ 42)%Z → (0 ≤ MB n < 2 ^ 62)%Z ∧ (n < 0 → MB n = 0)%Z) ∧
  (StateGroupsMB s = 0%Z → MB (StateGroupsMB w) = (512 * 2 ^ 20)%Z) ∧
  (EventsMB s = 0%Z → MB (EventsMB w) = (128 * 2 ^ 20)%Z).
Proof.
  intros Hv w.
  assert (∀ x d, d ≠ 0 → or_default (or_default x d) d = or_default x d)%Z as Hid.
  { intros x d Hd. unfold or_default. repeat case_bool_decide; congruence. }
  split; [|split; [|split; [|split]]].
  - unfold w, WithDefaults. simpl. by rewrite !Hid.
  - assert (∀ x d, negb (bool_decide (x < -1)%Z) = true → (0 ≤ d)%Z →
      negb (bool_decide (or_default x d < -1)%Z) = true) as Hor.
    { intros x d Hx Hd. unfold or_default. repeat case_bool_decide; try done; lia. }
    unfold Validate in *. simpl in *.
    repeat (apply andb_true_iff in Hv as [? Hv]).
    rewrite !Hor by (done || lia). done.
  - intros n Hn. unfold MB. case_bool_decide; [lia|].
    rewrite Z.shiftl_mul_pow2 by lia. rewrite i64_small; lia.
  - intros H0. unfold w, WithDefaults, or_default. simpl. rewrite bool_decide_true by done. done.
  - intros H0. unfold w, WithDefaults, or_default. simpl. rewrite bool_decide_true by done. done.
Qed.
End settings.

(** ** Witnesses *)
Section witnesses.
Notation cache0 := (LRU.NewLRU (K:=string) (V:=Z) "c" 10 Z.abs).
Definition ops0 : list (lru_op string Z) :=
  [OAdd "a" 4; OAdd "b" 5; OGet "a"; OAdd "c" 3; OGet "b"; OGet "a"; OGet "c"]%Z.

Lemma cache0_good : LRU.good cache0.
Proof. apply new_good; lia. Qed.

Lemma lru_refines_spec_witness :
  (lru_run ops0 cache0).1 = [None; None; Some 4; None; None; Some 4; Some 3]%Z ∧
  let '(rs, c) := lru_run ops0 cache0 in
  spec_run 10 Z.abs ops0 ([], true) = (rs, (LRU.abs c, LRU.armed c)).
Proof. split; [by vm_compute|]. apply (lru_refines_spec "c" 10 Z.abs ops0); [lia|lia]. Defined.

Lemma lru_bounded_witness :
  LRU.bytes (lru_run ops0 cache0).2 = 7%Z ∧
  (0 ≤ LRU.bytes (lru_run ops0 cache0).2 ≤ 10)%Z.
Proof.
  split; [by vm_compute|]. apply (lru_bounded "c" 10 Z.abs ops0); [lia|lia].
Defined.

Lemma disarmed_is_silent_witness :
  let '(rs, c') := lru_run ops0 (LRU.SetArmed false cache0) in
  Forall (λ r, r = None) rs ∧ LRU.abs c' = [] ∧ LRU.bytes c' = 0%Z.
Proof.
  apply (disarmed_is_silent cache0 ops0); [apply cache0_good|].
  intros a Ha. exfalso. unfold ops0 in Ha. repeat (apply elem_of_cons in Ha as [Ha|Ha]; [done|]).
  by apply not_elem_of_nil in Ha.
Defined.

Lemma add_then_get_witness : (LRU.Get "k" (LRU.Add "k" 7%Z cache0)).1 = Some 7%Z.
Proof. apply (add_then_get cache0 "k" 7%Z); [apply cache0_good|done|by vm_compute]. Defined.

Lemma inflight_add_survives_flush_witness :
  let flushed := LRU.SetArmed true (LRU.SetArmed false cache0) in
  LRU.abs flushed = [] ∧ (LRU.Get "k" (LRU.add_commit "k" 7%Z flushed)).1 = Some 7%Z.
Proof.
  apply (inflight_add_survives_flush cache0 "k" 7%Z); [apply cache0_good|done|by vm_compute].
Defined.

Lemma auth_chain_key_exact_witness :
  AuthChainKey.preimage "!r:s" ["$b"; "$a"] = AuthChainKey.preimage "!r:s" ["$a"; "$b"]
  ↔ "!r:s" = "!r:s" ∧ ["$b"; "$a"] ≡ₚ ["$a"; "$b"].
Proof.
  apply (auth_chain_key_exact "!r:s" "!r:s" ["$b"; "$a"] ["$a"; "$b"]); try done;
    repeat constructor.
Defined.

Lemma trace_summary_exact_witness :
  Trace.Summary (record_all [("events", true); ("auth_chains", false)]) = "partial"%string.
Proof. apply (trace_summary_exact [("events", true); ("auth_chains", false)]). done. Defined.

Lemma settings_bounds_witness :
  Settings.MB (Settings.EventsMB (Settings.WithDefaults (Settings.Mk 0 0 (-1) 8 8))) = (128 * 2 ^ 20)%Z.
Proof. apply (settings_bounds (Settings.Mk 0 0 (-1) 8 8)); by vm_compute. Defined.
End witnesses.
