(* ===== verification/RateLimit.v ===== *)
(** * [internal/ratelimit]: Synapse's per-origin federation rate limiter

    [Federation] is config.go.  [Host] is the per-origin state and its locked
    sections (each function is what one goroutine does between [h.mu.Lock] and
    [h.mu.Unlock]).  [System] composes them the way [Acquire], [release],
    [abandon], [hostLimiter] and [Cleanup] do, as a step relation over all
    requests in flight: a request's program counter is its [phase], and any
    interleaving of locked sections is a sequence of steps.

    Host limiters are heap objects: [hosts] maps a server name to an object,
    requests hold the object they looked up, and [Cleanup] only removes the
    name.  A request makes its own channel and is the only receiver of it, so a
    channel is identified with its request, and closing it is the move of that
    request from [Waiting] to [Granted]. *)
From S2P Require Import Prelude.

Open Scope Z_scope.

(** ** Settings *)
Module Federation.

Record FederationSettings := Mk {
  WindowSize : Z; SleepLimit : Z; SleepDelay : Z; RejectLimit : Z; Concurrent : Z }.

Definition DefaultFederationSettings : FederationSettings := Mk 1000 10 500 50 3.

Definition or_default (x d : Z) : Z := if bool_decide (x = 0) then d else x.

Definition withDefaults (s : FederationSettings) : FederationSettings :=
  let d := DefaultFederationSettings in
  Mk (or_default (WindowSize s) (WindowSize d)) (or_default (SleepLimit s) (SleepLimit d))
     (or_default (SleepDelay s) (SleepDelay d)) (or_default (RejectLimit s) (RejectLimit d))
     (or_default (Concurrent s) (Concurrent d)).

Definition Validate (s : FederationSettings) : result string unit :=
  if bool_decide (WindowSize s < 0) then Err "rc_federation: window_size must not be negative"%string
  else if bool_decide (SleepLimit s < 0) then Err "rc_federation: sleep_limit must not be negative"%string
  else if bool_decide (SleepDelay s < 0) then Err "rc_federation: sleep_delay must not be negative"%string
  else if bool_decide (RejectLimit s < 0) then Err "rc_federation: reject_limit must not be negative"%string
  else if bool_decide (Concurrent s < 0) then Err "rc_federation: concurrent must not be negative"%string
  else Ok tt.

(** The guard at the head of [Acquire]. *)
Definition disabled (s : FederationSettings) : bool :=
  bool_decide (RejectLimit s = 0) && bool_decide (Concurrent s = 0) && bool_decide (SleepLimit s = 0).

(** Go's integer division truncates. *)
Definition RetryAfterMS (s : FederationSettings) : Z :=
  let s := withDefaults s in
  if bool_decide (SleepLimit s = 0) then WindowSize s else Z.quot (WindowSize s) (SleepLimit s).

(** The [Retry-After] header of [writeLimitExceeded]: [math.Ceil] of the
    milliseconds over a thousand, exact below 2^53. *)
Definition retry_after_seconds (s : FederationSettings) : Z :=
  - ((- RetryAfterMS s) / 1000).

Definition millisecond : Z := 1000000.
Definition window_ns (s : FederationSettings) : Z := i64 (WindowSize s * millisecond).

End Federation.
Import Federation.

(** ** One host's limiter *)
Module Host.

Record t := Mk {
  requestTimes : list Z;
  sleeping : Z;
  queued : Z;
  processing : Z;
  waiters : list nat;
  lastUsed : Z }.

Definition new (now : Z) : t := Mk [] 0 0 0 [] now.

Definition with_times (h : t) ts := Mk ts (sleeping h) (queued h) (processing h) (waiters h) (lastUsed h).
Definition with_sleeping (h : t) n := Mk (requestTimes h) n (queued h) (processing h) (waiters h) (lastUsed h).
Definition with_processing (h : t) n := Mk (requestTimes h) (sleeping h) (queued h) n (waiters h) (lastUsed h).
Definition with_queue (h : t) ws n := Mk (requestTimes h) (sleeping h) n (processing h) ws (lastUsed h).
Definition with_lastUsed (h : t) now :=
  Mk (requestTimes h) (sleeping h) (queued h) (processing h) (waiters h) now.

Definition prune (now window : Z) (h : t) : t :=
  let cutoff := now - window in
  with_times h (filter (λ t, cutoff < t) (requestTimes h)).

Inductive verdict := Reject | Pass | Sleep.
#[export] Instance verdict_eq_dec : EqDecision verdict.
Proof. solve_decision. Defined.

(** The first locked section of [Acquire]. *)
Definition arrive (s : FederationSettings) (now : Z) (h : t) : verdict * t :=
  let h := prune now (window_ns s) (with_lastUsed h now) in
  if bool_decide (RejectLimit s < sleeping h + queued h) then (Reject, h) else
  let h := with_times h (requestTimes h ++ [now]) in
  if bool_decide (SleepLimit s < Z.of_nat (length (requestTimes h)))
  then (Sleep, with_sleeping h (sleeping h + 1))
  else (Pass, h).

(** After [clock.Sleep]. *)
Definition wake (h : t) : t := with_sleeping h (sleeping h - 1).

(** The second locked section of [Acquire]: [true] when a slot was taken. *)
Definition enter (s : FederationSettings) (r : nat) (h : t) : bool * t :=
  if bool_decide (processing h < Concurrent s)
  then (true, with_processing h (processing h + 1))
  else (false, with_queue h (waiters h ++ [r]) (queued h + 1)).

(** [release]: the waiter whose channel is closed, if any. *)
Definition release (h : t) : option nat * t :=
  match waiters h with
  | next :: ws => (Some next, with_queue h ws (queued h - 1))
  | [] => (None, with_processing h (processing h - 1))
  end.

Fixpoint remove_first (r : nat) (l : list nat) : option (list nat) :=
  match l with
  | [] => None
  | x :: l => if bool_decide (x = r) then Some l else (λ l', x :: l') <$> remove_first r l
  end.

(** [abandon]: [granted] tells whether the waiter's channel is closed. *)
Definition abandon (r : nat) (granted : bool) (h : t) : option nat * t :=
  match remove_first r (waiters h) with
  | Some ws => (None, with_queue h ws (queued h - 1))
  | None => if granted then release h else (None, h)
  end.

(** The condition under which [Cleanup] discards a host. *)
Definition idle (cutoff : Z) (h : t) : bool :=
  bool_decide (lastUsed h < cutoff) && bool_decide (processing h = 0) &&
  bool_decide (queued h = 0) && bool_decide (sleeping h = 0).

End Host.
#[export] Existing Instance Host.verdict_eq_dec.

(** ** The limiter and the requests in flight *)
Module System.

Inductive outcome := Rejected | Cancelled | Completed.

Inductive phase :=
| Arrived                (* [Acquire] called *)
| Found (h : nat)        (* [hostLimiter] returned *)
| Sleeping (h : nat)
| Awake (h : nat)        (* before the second lock *)
| Waiting (h : nat)
| Granted (h : nat)      (* its channel is closed, it has not run yet *)
| Running (h : nat)
| Finished (o : outcome).
#[export] Instance outcome_eq_dec : EqDecision outcome.
Proof. solve_decision. Defined.
#[export] Instance phase_eq_dec : EqDecision phase.
Proof. solve_decision. Defined.

Record t := Mk {
  hosts : gmap string nat;
  heap : gmap nat Host.t;
  reqs : gmap nat (string * phase) }.

Definition init : t := Mk ∅ ∅ ∅.

Definition set_phase (r : nat) (srv : string) (p : phase) (st : t) : t :=
  Mk (hosts st) (heap st) (<[r := (srv, p)]> (reqs st)).
Definition set_host (h : nat) (hl : Host.t) (st : t) : t :=
  Mk (hosts st) (<[h := hl]> (heap st)) (reqs st).

(** Closing a waiter's channel. *)
Definition grant (n : option nat) (h : nat) (st : t) : t :=
  match n with
  | None => st
  | Some r =>
      match reqs st !! r with
      | Some (srv, Waiting _) => set_phase r srv (Granted h) st
      | _ => st
      end
  end.

(** [Limiter.hostLimiter] *)
Definition hostLimiter (now : Z) (srv : string) (st : t) : nat * t :=
  match hosts st !! srv with
  | Some h => (h, st)
  | None =>
      let h := fresh (dom (heap st)) in
      (h, Mk (<[srv := h]> (hosts st)) (<[h := Host.new now]> (heap st)) (reqs st))
  end.

(** [Limiter.Cleanup] with the cutoff it computes; the number removed is the
    second component. *)
Definition Cleanup (cutoff : Z) (st : t) : t * Z :=
  let keep := filter (λ kv, from_option (Host.idle cutoff) false (heap st !! kv.2) = false)
                (hosts st) in
  (Mk keep (heap st) (reqs st), Z.of_nat (size (hosts st)) - Z.of_nat (size keep)).

(** What request [r] does next in its critical section. *)
Inductive action := Start (srv : string) | Lookup | Admit | WakeUp | WakeCancel | Enter
                  | Take | Cancel | Release.

Definition act (s : FederationSettings) (now : Z) (r : nat) (a : action) (st : t) : option t :=
  match a, reqs st !! r with
  | Start srv, None => Some (set_phase r srv Arrived st)
  | Lookup, Some (srv, Arrived) =>
      let '(h, st) := hostLimiter now srv st in Some (set_phase r srv (Found h) st)
  | Admit, Some (srv, Found h) =>
      hl ← heap st !! h;
      let '(v, hl) := Host.arrive s now hl in
      Some (set_phase r srv (match v with
                             | Host.Reject => Finished Rejected
                             | Host.Pass => Awake h
                             | Host.Sleep => Sleeping h end) (set_host h hl st))
  | WakeUp, Some (srv, Sleeping h) =>
      hl ← heap st !! h; Some (set_phase r srv (Awake h) (set_host h (Host.wake hl) st))
  | WakeCancel, Some (srv, Sleeping h) =>
      hl ← heap st !! h; Some (set_phase r srv (Finished Cancelled) (set_host h (Host.wake hl) st))
  | Enter, Some (srv, Awake h) =>
      hl ← heap st !! h;
      let '(go, hl) := Host.enter s r hl in
      Some (set_phase r srv (if go then Running h else Waiting h) (set_host h hl st))
  | Take, Some (srv, Granted h) => Some (set_phase r srv (Running h) st)
  | Cancel, Some (srv, Waiting h) =>
      hl ← heap st !! h;
      let '(n, hl) := Host.abandon r false hl in
      Some (grant n h (set_phase r srv (Finished Cancelled) (set_host h hl st)))
  | Cancel, Some (srv, Granted h) =>
      hl ← heap st !! h;
      let '(n, hl) := Host.abandon r true hl in
      Some (grant n h (set_phase r srv (Finished Cancelled) (set_host h hl st)))
  | Release, Some (srv, Running h) =>
      hl ← heap st !! h;
      let '(n, hl) := Host.release hl in
      Some (grant n h (set_phase r srv (Finished Completed) (set_host h hl st)))
  | _, _ => None
  end.

Inductive step (s : FederationSettings) : t → t → Prop :=
| step_act now r a st st' : act s now r a st = Some st' → step s st st'
| step_cleanup cutoff st : step s st (Cleanup cutoff st).1.

(** Scripts of actions, for concrete runs. *)
Definition run_act (s : FederationSettings) (st : option t) (x : Z * nat * action) : option t :=
  st ← st; act s x.1.1 x.1.2 x.2 st.

(** ** Counting requests *)
Definition is_sleeping (h : nat) (p : string * phase) : bool := bool_decide (p.2 = Sleeping h).
Definition holds_slot (h : nat) (p : string * phase) : bool :=
  bool_decide (p.2 = Running h) || bool_decide (p.2 = Granted h).
Definition runs_for (srv : string) (p : string * phase) : bool :=
  bool_decide (p.1 = srv) && match p.2 with Running _ => true | _ => false end.
Definition runs_on (h : nat) (p : string * phase) : bool := bool_decide (p.2 = Running h).

Definition count (P : string * phase → bool) (st : t) : Z :=
  Zsum ((λ p, Z.b2z (P p.2)) <$> map_to_list (reqs st)).

(** The object a request is using. *)
Definition uses (p : phase) : option nat :=
  match p with
  | Arrived | Finished _ => None
  | Found h | Sleeping h | Awake h | Waiting h | Granted h | Running h => Some h
  end.

(** ** The invariant *)

(** The counters of a host object are the numbers of requests in the phases
    they stand for, and its queue lists the waiting requests. *)
Record host_acct (st : t) (h : nat) (hl : Host.t) : Prop := {
  ha_sleeping : Host.sleeping hl = count (is_sleeping h) st;
  ha_queued : Host.queued hl = Z.of_nat (length (Host.waiters hl));
  ha_nodup : NoDup (Host.waiters hl);
  ha_waiters : ∀ r, r ∈ Host.waiters hl ↔ ∃ srv, reqs st !! r = Some (srv, Waiting h);
  ha_processing : Host.processing hl = count (holds_slot h) st }.

Record acct (st : t) : Prop := {
  ac_hosts : ∀ srv h, hosts st !! srv = Some h → is_Some (heap st !! h);
  ac_uses : ∀ r srv p h, reqs st !! r = Some (srv, p) → uses p = Some h → is_Some (heap st !! h);
  ac_host : ∀ h hl, heap st !! h = Some hl → host_acct st h hl }.

(** No more slots than configured, and nobody queues while a slot is free. *)
Definition bounded (s : FederationSettings) (hl : Host.t) : Prop :=
  Host.processing hl ≤ Concurrent s ∧
  (Host.waiters hl ≠ [] → Host.processing hl = Concurrent s).

Definition inv (s : FederationSettings) (st : t) : Prop :=
  acct st ∧ ∀ h hl, heap st !! h = Some hl → bounded s hl.

Definition reachable (s : FederationSettings) (st : t) : Prop := rtc (step s) init st.

End System.

(** ** Counting lemmas *)
Section counting.
Import System.
Implicit Types (st : System.t) (P : string * phase → bool).

Lemma count_new P st r q :
  reqs st !! r = None → count P (Mk (hosts st) (heap st) (<[r := q]> (reqs st))) = count P st + Z.b2z (P q).
Proof.
  intros Hr. unfold count. simpl. rewrite map_to_list_insert by done.
  rewrite fmap_cons, Zsum_cons. cbn [snd]. lia.
Qed.

Lemma count_change P st r p q :
  reqs st !! r = Some p →
  count P (Mk (hosts st) (heap st) (<[r := q]> (reqs st))) = count P st + Z.b2z (P q) - Z.b2z (P p).
Proof.
  intros Hr. unfold count. simpl.
  rewrite <-(insert_delete_eq (reqs st) r q), map_to_list_insert by apply lookup_delete_eq.
  rewrite <-(insert_delete_id (reqs st) r p) at 2 by done.
  rewrite (map_to_list_insert (delete r (reqs st)) r p) by apply lookup_delete_eq.
  rewrite !fmap_cons, !Zsum_cons. cbn [snd]. lia.
Qed.

Lemma count_nonneg P st : 0 ≤ count P st.
Proof.
  unfold count. apply Zsum_nonneg, Forall_fmap, Forall_forall. intros [r p] _. simpl.
  destruct (P p); simpl; lia.
Qed.

Lemma count_pos P st r p : reqs st !! r = Some p → P p = true → 0 < count P st.
Proof.
  intros Hr HP. pose proof (count_change P st r p p Hr) as _.
  unfold count. rewrite <-(insert_delete_id (reqs st) r p) by done.
  rewrite map_to_list_insert by apply lookup_delete_eq.
  rewrite fmap_cons, Zsum_cons. cbn [snd]. rewrite HP. simpl.
  pose proof (count_nonneg P (Mk (hosts st) (heap st) (delete r (reqs st)))) as Hn.
  unfold count in Hn. simpl in Hn. lia.
Qed.

Lemma count_pos_inv P st : 0 < count P st → ∃ r p, reqs st !! r = Some p ∧ P p = true.
Proof.
  intros Hc. destruct (decide (Exists (λ x, P x.2 = true) (map_to_list (reqs st)))) as [He|He].
  - apply Exists_exists in He as ([r p] & Hin & HP). apply elem_of_map_to_list in Hin. eauto.
  - exfalso. unfold count in Hc. apply not_Exists_Forall in He; [|apply _].
    assert (∀ l : list (nat * (string * phase)), Forall (λ x, ¬ P x.2 = true) l →
      Zsum ((λ p, Z.b2z (P p.2)) <$> l) = 0) as Hz.
    { induction 1 as [|x l Hx Hl IH]; [done|]. rewrite fmap_cons, Zsum_cons, IH.
      destruct (P x.2); [done|simpl; lia]. }
    rewrite Hz in Hc by done. lia.
Qed.

Lemma count_le P Q st : (∀ p, P p = true → Q p = true) → count P st ≤ count Q st.
Proof.
  intros HPQ. unfold count. induction (map_to_list (reqs st)) as [|x l IH]; [done|].
  rewrite !fmap_cons, !Zsum_cons. specialize (HPQ x.2).
  destruct (P x.2), (Q x.2); simpl; try lia; by discriminate HPQ.
Qed.
End counting.

(** ** The accounting invariant is preserved *)
Section accounting.
Import System.
Implicit Types (st : System.t) (s : FederationSettings).

Definition only_uses (h : nat) (p : phase) : Prop := ∀ h', uses p = Some h' → h' = h.

Lemma only_uses_other h h' p srv :
  only_uses h p → h' ≠ h →
  is_sleeping h' (srv, p) = false ∧ holds_slot h' (srv, p) = false ∧ p ≠ Waiting h'.
Proof.
  intros Hu Hne.
  assert (∀ q : phase, uses q = Some h' → p ≠ q) as Hp.
  { intros q Hq ->. by apply Hne, Hu. }
  unfold is_sleeping, holds_slot. simpl.
  rewrite (bool_decide_false (p = Sleeping h')), (bool_decide_false (p = Running h')),
    (bool_decide_false (p = Granted h')) by (by eapply Hp).
  split_and!; [done|done|by eapply Hp].
Qed.

(** One request changes phase while one host object changes its counters
    accordingly. *)
Lemma acct_update st r srv p p' h hl hl' :
  acct st → reqs st !! r = Some (srv, p) → heap st !! h = Some hl →
  only_uses h p → only_uses h p' →
  Host.sleeping hl' = Host.sleeping hl + Z.b2z (is_sleeping h (srv, p')) - Z.b2z (is_sleeping h (srv, p)) →
  Host.processing hl' =
    Host.processing hl + Z.b2z (holds_slot h (srv, p')) - Z.b2z (holds_slot h (srv, p)) →
  Host.queued hl' = Z.of_nat (length (Host.waiters hl')) → NoDup (Host.waiters hl') →
  (∀ x, x ∈ Host.waiters hl' ↔ if decide (x = r) then p' = Waiting h else x ∈ Host.waiters hl) →
  acct (set_phase r srv p' (set_host h hl' st)).
Proof.
  intros [Hh Hu Ha] Hr Hhp Hop Hop' Hs Hpr Hq Hnd Hw. split; simpl.
  - intros srv' h' Hl. rewrite lookup_insert_is_Some. destruct (decide (h = h')); eauto.
  - intros r' srv' q h' Hl Huse. rewrite lookup_insert_is_Some.
    destruct (decide (h = h')) as [|Hne]; [by left|right; split; [done|]].
    apply lookup_insert_Some in Hl as [[-> Heq]|[_ Hl]]; [|by eapply Hu].
    simplify_eq. exfalso. apply Hne. symmetry. by apply Hop'.
  - intros h' hl0 Hl.
    assert (∀ P, count P (set_phase r srv p' (set_host h hl' st)) =
              count P st + Z.b2z (P (srv, p')) - Z.b2z (P (srv, p))) as Hc.
    { intros P. exact (count_change P (set_host h hl' st) r (srv, p) (srv, p') Hr). }
    apply lookup_insert_Some in Hl as [[<- <-]|[Hne Hl]].
    + destruct (Ha _ _ Hhp) as [H1 H2 H3 H4 H5].
      split; [rewrite Hc; lia|done|done| |rewrite Hc; lia].
      intros x. rewrite Hw. simpl. destruct (decide (x = r)) as [->|Hx].
      * rewrite lookup_insert_eq. naive_solver.
      * rewrite lookup_insert_ne by done. apply H4.
    + destruct (Ha _ _ Hl) as [H1 H2 H3 H4 H5].
      destruct (only_uses_other h h' p srv) as (E1 & E2 & E3); [done..|].
      destruct (only_uses_other h h' p' srv) as (F1 & F2 & F3); [done..|].
      split; [rewrite Hc, E1, F1; lia|done|done| |rewrite Hc, E2, F2; lia].
      intros x. rewrite H4. simpl. destruct (decide (x = r)) as [->|Hx].
      * rewrite lookup_insert_eq. naive_solver.
      * by rewrite lookup_insert_ne.
Qed.

(** A phase change that touches no counter. *)
Lemma acct_phase st r srv p p' h hl :
  acct st → reqs st !! r = Some (srv, p) → heap st !! h = Some hl →
  only_uses h p → only_uses h p' →
  is_sleeping h (srv, p) = is_sleeping h (srv, p') →
  holds_slot h (srv, p) = holds_slot h (srv, p') →
  p ≠ Waiting h → p' ≠ Waiting h → acct (set_phase r srv p' st).
Proof.
  intros Hacct Hr Hh Hu Hu' Hs Hp Hw Hw'.
  assert (set_phase r srv p' st = set_phase r srv p' (set_host h hl st)) as ->.
  { unfold set_phase, set_host. simpl. by rewrite (insert_id (heap st)). }
  destruct (ac_host _ Hacct _ _ Hh) as [H1 H2 H3 H4 H5].
  eapply acct_update; try done.
  - rewrite Hs. lia.
  - rewrite Hp. lia.
  - intros x. destruct (decide (x = r)) as [->|]; [|done].
    rewrite H4. split; [|done]. intros [srv' Hx]. simplify_eq.
Qed.

Lemma remove_first_Some r l l' :
  Host.remove_first r l = Some l' → NoDup l →
  S (length l') = length l ∧ NoDup l' ∧ ∀ x, x ∈ l' ↔ x ∈ l ∧ x ≠ r.
Proof.
  revert l'. induction l as [|y l IH]; intros l' Hr Hnd; simpl in *; [done|].
  apply NoDup_cons in Hnd as [Hy Hnd]. case_bool_decide as Hyr.
  - simplify_eq. split_and!; [done|done|]. intros x. rewrite elem_of_cons. naive_solver.
  - apply fmap_Some in Hr as (l1 & Hl1 & ->). destruct (IH l1 Hl1 Hnd) as (Hlen & Hnd' & Hin).
    simpl. split_and!; [lia| |].
    + apply NoDup_cons. rewrite Hin. naive_solver.
    + intros x. rewrite !elem_of_cons, Hin. naive_solver.
Qed.

Lemma remove_first_None r l : Host.remove_first r l = None → r ∉ l.
Proof.
  induction l as [|y l IH]; simpl; [by intros _ ?%not_elem_of_nil|].
  case_bool_decide; [done|]. intros Hn. apply fmap_None in Hn. rewrite elem_of_cons. naive_solver.
Qed.

(** Giving a slot back: the request leaves its slot, and the slot either
    becomes free or moves to the head of the queue. *)
Lemma acct_release st r srv p o h hl :
  acct st → reqs st !! r = Some (srv, p) → heap st !! h = Some hl →
  p = Running h ∨ p = Granted h →
  let '(n, hl') := Host.release hl in
  acct (grant n h (set_phase r srv (Finished o) (set_host h hl' st))).
Proof.
  intros Hacct Hr Hh Hp. unfold Host.release.
  destruct (ac_host _ Hacct _ _ Hh) as [H1 H2 H3 H4 H5].
  assert (only_uses h p) as Hu by (destruct Hp as [-> | ->]; by intros ? [= ->]).
  assert (holds_slot h (srv, p) = true) as Hs.
  { unfold holds_slot. apply orb_true_iff. rewrite !bool_decide_eq_true. done. }
  assert (is_sleeping h (srv, p) = false) as Hsl.
  { unfold is_sleeping. destruct Hp as [-> | ->]; by rewrite bool_decide_false. }
  assert (∀ x, x ∈ Host.waiters hl → x ≠ r) as Hxr.
  { intros x Hx ->. apply H4 in Hx as [? Hx]. rewrite Hr in Hx. destruct Hp; simplify_eq. }
  assert (acct (set_phase r srv (Finished o)
            (set_host h (Host.with_processing hl (Host.processing hl - 1)) st))) as Hacct1.
  { eapply acct_update; try done; cbn [Host.with_processing Host.sleeping Host.processing].
    - rewrite Hsl. unfold is_sleeping. rewrite bool_decide_false by done. simpl; lia.
    - rewrite Hs. unfold holds_slot. rewrite !bool_decide_false by done. simpl; lia.
    - intros x. simpl. case_decide; [|done]. subst. split; [|done].
      intros Hx%Hxr. done. }
  destruct (Host.waiters hl) as [|n ws] eqn:Hws; [exact Hacct1|].
  destruct (proj1 (H4 n)) as [srvn Hn]; [by left|].
  assert (n ≠ r) as Hnr by (apply Hxr; by left).
  unfold grant. simpl. rewrite lookup_insert_ne by done. rewrite Hn.
  set (st1 := set_phase r srv (Finished o) _) in Hacct1.
  assert (acct (set_phase n srvn (Granted h) (set_host h (Host.with_queue hl ws (Host.queued hl - 1)) st1))) as Hacct2.
  { apply NoDup_cons in H3 as [Hnws Hnd].
    eapply (acct_update st1 n srvn (Waiting h) (Granted h) h); try done.
    - unfold st1. simpl. by rewrite lookup_insert_ne.
    - unfold st1. simpl. apply lookup_insert_eq.
    - by intros ? [= ->].
    - by intros ? [= ->].
    - unfold is_sleeping. rewrite !bool_decide_false by done. simpl. lia.
    - unfold holds_slot. rewrite (bool_decide_true (_ = Granted h)) by done.
      rewrite !bool_decide_false by done. simpl. lia.
    - simpl. simpl in H2. lia.
    - intros x. destruct (decide (x = n)) as [->|Hx]; [split; [intros ?; done|done]|].
      cbn [Host.with_queue Host.with_processing Host.waiters]. rewrite Hws, elem_of_cons. tauto. }
  unfold st1, set_phase, set_host in *. simpl in *. by rewrite insert_insert_eq in Hacct2.
Qed.
End accounting.

(** ** Every step preserves the invariant *)
Section steps.
Import System.
Implicit Types (st : System.t) (s : FederationSettings).

Lemma uses_count_zero st h :
  acct st → heap st !! h = None →
  count (is_sleeping h) st = 0 ∧ count (holds_slot h) st = 0 ∧
  ∀ r srv, reqs st !! r ≠ Some (srv, Waiting h).
Proof.
  intros Hacct Hh.
  assert (∀ r srv p, reqs st !! r = Some (srv, p) → uses p ≠ Some h) as Hno.
  { intros r srv p Hr Hu. destruct (ac_uses _ Hacct _ _ _ _ Hr Hu). congruence. }
  assert (∀ P, (∀ srv p, P (srv, p) = true → uses p = Some h) → count P st = 0) as Hz.
  { intros P HP. pose proof (count_nonneg P st).
    destruct (decide (0 < count P st)) as [Hc|]; [|lia].
    apply count_pos_inv in Hc as (r & [srv p] & Hr & HPp). exfalso. eapply Hno; eauto. }
  split_and!.
  - apply Hz. unfold is_sleeping. intros ? p Hp. apply bool_decide_eq_true in Hp. by simplify_eq/=.
  - apply Hz. unfold holds_slot. intros ? p Hp.
    apply orb_true_iff in Hp. rewrite !bool_decide_eq_true in Hp. simpl in Hp. by destruct Hp; subst.
  - intros r srv Hr. by eapply Hno.
Qed.

Lemma acct_hostLimiter now srv st :
  acct st →
  acct (hostLimiter now srv st).2 ∧ reqs (hostLimiter now srv st).2 = reqs st ∧
  is_Some (heap (hostLimiter now srv st).2 !! (hostLimiter now srv st).1).
Proof.
  intros Hacct. unfold hostLimiter. destruct (hosts st !! srv) as [h|] eqn:Hsrv; simpl.
  { split_and!; [done|done|]. by eapply ac_hosts. }
  set (h := fresh (dom (heap st))).
  assert (heap st !! h = None) as Hh by (apply not_elem_of_dom, is_fresh).
  destruct (uses_count_zero st h Hacct Hh) as (Hc1 & Hc2 & Hc3).
  split_and!; [|done|rewrite lookup_insert_eq; eauto].
  destruct Hacct as [Hho Hu Ha]. split; simpl.
  - intros srv' h' [[_ <-]|[_ Hl]]%lookup_insert_Some; rewrite lookup_insert_is_Some; [by left|].
    destruct (decide (h = h')); [by left|right; eauto].
  - intros r srv' p h' Hr Huse. rewrite lookup_insert_is_Some.
    destruct (decide (h = h')); [by left|right; eauto].
  - intros h' hl [[<- <-]|[Hne Hl]]%lookup_insert_Some.
    + split; simpl; [done|done|constructor| |done].
      intros r. split; [by intros ?%not_elem_of_nil|]. intros [srv' Hr]. by destruct (Hc3 r srv').
    + by destruct (Ha _ _ Hl); split.
Qed.

Lemma acct_start st r srv : acct st → reqs st !! r = None → acct (set_phase r srv Arrived st).
Proof.
  intros [Hh Hu Ha] Hr. split; simpl.
  - done.
  - intros r' srv' p h [[_ Heq]|[_ Hl]]%lookup_insert_Some Huse; [by simplify_eq|by eapply Hu].
  - intros h hl Hl. destruct (Ha _ _ Hl) as [H1 H2 H3 H4 H5].
    split; [|done|done| |].
    + rewrite H1. unfold set_phase. rewrite count_new by done. unfold is_sleeping at 3.
      rewrite bool_decide_false by done. simpl. lia.
    + intros x. rewrite H4. simpl. destruct (decide (x = r)) as [->|Hx].
      * rewrite lookup_insert_eq. split; intros [? ?]; simplify_eq.
      * by rewrite lookup_insert_ne.
    + rewrite H5. unfold set_phase. rewrite count_new by done. unfold holds_slot at 3.
      rewrite !bool_decide_false by done. simpl. lia.
Qed.

Lemma acct_Cleanup cutoff st : acct st → acct (Cleanup cutoff st).1.
Proof.
  intros [Hh Hu Ha]. split; simpl; [|done|].
  - intros srv h Hl. apply map_lookup_filter_Some in Hl as [Hl _]. by eapply Hh.
  - intros h hl Hl. by destruct (Ha _ _ Hl); split.
Qed.

(** Closes the arithmetic side conditions of [acct_update] on concrete phases. *)
Ltac phases :=
  unfold is_sleeping, holds_slot;
  cbn [snd Host.with_times Host.with_lastUsed Host.with_sleeping Host.with_processing
       Host.with_queue Host.sleeping Host.processing Host.queued Host.waiters Host.wake Host.prune];
  repeat case_bool_decide; try congruence; cbn [orb Z.b2z]; try lia.
Ltac uses_only := by (intros ? [= ->] || intros ? [=]).

Lemma waiters_same st r srv p h hl p' :
  host_acct st h hl → reqs st !! r = Some (srv, p) → p ≠ Waiting h → p' ≠ Waiting h →
  ∀ x, x ∈ Host.waiters hl ↔ if decide (x = r) then p' = Waiting h else x ∈ Host.waiters hl.
Proof.
  intros [_ _ _ Hw _] Hr Hp Hp' x. destruct (decide (x = r)) as [->|]; [|done].
  rewrite Hw. split; [|done]. intros [? ?]. simplify_eq.
Qed.

(** Applies [acct_update] when the queue is unchanged. *)
Ltac step_update Hacct Hhl Hha :=
  let H1 := fresh in let H2 := fresh in let H3 := fresh in
  pose proof Hha as [_ H2 H3 _ _];
  eapply (acct_update _ _ _ _ _ _ _ _ Hacct ltac:(eassumption) Hhl);
  [try uses_only | try uses_only | try by phases | try by phases
  | exact H2 | exact H3 | refine (waiters_same _ _ _ _ _ _ _ Hha ltac:(eassumption) _ _); done].

Lemma remove_first_elem r l ws : Host.remove_first r l = Some ws → r ∈ l.
Proof.
  revert ws. induction l as [|y l IH]; intros ws Hrm; [done|].
  simpl in Hrm. case_bool_decide; [subst; by left|].
  apply fmap_Some in Hrm as (? & ? & _). right. by eapply IH.
Qed.

Lemma act_acct s now r a st st' : acct st → act s now r a st = Some st' → acct st'.
Proof.
  intros Hacct Hact. unfold act in Hact.
  destruct a; destruct (reqs st !! r) as [[srv' p]|] eqn:Hr; try done; try (destruct p; try done).
  all: try (apply bind_Some in Hact as (hl & Hhl & Hact); pose proof (ac_host _ Hacct _ _ Hhl) as Hha).
  - injection Hact as <-. by apply acct_start.
  - destruct (acct_hostLimiter now srv' st Hacct) as (Hacct' & Hreqs & [hl Hhl]).
    destruct (hostLimiter now srv' st) as [h st1]; simpl in *. simplify_eq.
    rewrite <-Hreqs in Hr. eapply acct_phase; try done; try uses_only; by phases.
  - unfold Host.arrive in Hact. case_bool_decide; [|case_bool_decide]; simplify_eq.
    all: step_update Hacct Hhl Hha.
  - simplify_eq. step_update Hacct Hhl Hha.
  - simplify_eq. step_update Hacct Hhl Hha.
  - unfold Host.enter in Hact. case_bool_decide; simplify_eq.
    + step_update Hacct Hhl Hha.
    + destruct Hha as [H1 H2 H3 H4 H5].
      assert (r ∉ Host.waiters hl) as Hni by (rewrite H4; intros [? ?]; simplify_eq).
      eapply acct_update; try done; try uses_only; try (by phases); simpl.
      * rewrite length_app. simpl. lia.
      * apply NoDup_app. split_and!; [done| |apply NoDup_singleton]. set_solver.
      * intros x. rewrite elem_of_app, list_elem_of_singleton. case_decide; naive_solver.
  - injection Hact as <-. destruct (ac_uses _ Hacct _ _ _ h Hr) as [hl Hhl]; [done|].
    eapply acct_phase; try done; try uses_only; by phases.
  - destruct Hha as [H1 H2 H3 H4 H5].
    unfold Host.abandon in Hact. destruct (Host.remove_first r (Host.waiters hl)) as [ws|] eqn:Hrm.
    + destruct (remove_first_Some _ _ _ Hrm H3) as (Hlen & Hnd & Hin). simplify_eq. simpl.
      eapply acct_update; try done; try uses_only; try (by phases); simpl; try lia.
      intros x. rewrite Hin. case_decide; naive_solver.
    + exfalso. apply remove_first_None in Hrm. apply Hrm, H4. eauto.
  - destruct Hha as [H1 H2 H3 H4 H5].
    unfold Host.abandon in Hact. destruct (Host.remove_first r (Host.waiters hl)) as [ws|] eqn:Hrm.
    + exfalso. apply remove_first_elem, H4 in Hrm as [? ?]. simplify_eq.
    + pose proof (acct_release st r srv' (Granted h) Cancelled h hl Hacct Hr Hhl (or_intror eq_refl)) as Hrel.
      destruct (Host.release hl). by simplify_eq.
  - pose proof (acct_release st r srv' (Running h) Completed h hl Hacct Hr Hhl (or_introl eq_refl)) as Hrel.
    destruct (Host.release hl). by simplify_eq.
Qed.
End steps.

(** ** The slot bound is preserved *)
Section bound.
Import System.
Implicit Types (st : System.t) (s : FederationSettings) (hl : Host.t).

Lemma arrive_bounded s now hl : bounded s hl → bounded s (Host.arrive s now hl).2.
Proof. intros Hb. unfold Host.arrive. by repeat case_bool_decide. Qed.

Lemma enter_bounded s r hl : bounded s hl → bounded s (Host.enter s r hl).2.
Proof.
  intros [H1 H2]. unfold Host.enter. case_bool_decide; split; simpl; try lia.
  intros Hw. specialize (H2 Hw). lia.
Qed.

Lemma release_bounded s hl : bounded s hl → bounded s (Host.release hl).2.
Proof.
  intros [H1 H2]. unfold Host.release. destruct (Host.waiters hl) eqn:E; split; simpl; try lia.
  - by rewrite E.
  - intros _. by apply H2.
Qed.

Lemma abandon_bounded s r g hl : bounded s hl → bounded s (Host.abandon r g hl).2.
Proof.
  intros [H1 H2]. unfold Host.abandon. destruct (Host.remove_first r (Host.waiters hl)) eqn:E.
  - split; simpl; [lia|]. intros _. apply H2. intros Hn. by rewrite Hn in E.
  - destruct g; [by apply release_bounded|done].
Qed.

Lemma heap_grant n h st : heap (grant n h st) = heap st.
Proof. unfold grant. by repeat case_match. Qed.

Lemma act_bounded s now r a st st' :
  0 ≤ Concurrent s → map_Forall (λ _, bounded s) (heap st) →
  act s now r a st = Some st' → map_Forall (λ _, bounded s) (heap st').
Proof.
  intros HC Hb Hact. unfold act in Hact.
  destruct a; destruct (reqs st !! r) as [[srv' p]|] eqn:Hr; try done; try (destruct p; try done).
  all: try (apply bind_Some in Hact as (hl & Hhl & Hact)).
  all: try (pose proof (Hb _ _ Hhl) as Hbl).
  - by simplify_eq.
  - unfold hostLimiter in Hact. destruct (hosts st !! srv'); simplify_eq; simpl; [done|].
    apply map_Forall_insert_2; [|done]. by split.
  - pose proof (arrive_bounded s now hl Hbl). destruct (Host.arrive s now hl).
    simplify_eq; simpl. by apply map_Forall_insert_2.
  - simplify_eq; simpl. by apply map_Forall_insert_2.
  - simplify_eq; simpl. by apply map_Forall_insert_2.
  - pose proof (enter_bounded s r hl Hbl). destruct (Host.enter s r hl).
    simplify_eq; simpl. by apply map_Forall_insert_2.
  - by simplify_eq.
  - pose proof (abandon_bounded s r false hl Hbl). destruct (Host.abandon r false hl).
    simplify_eq. rewrite heap_grant. by apply map_Forall_insert_2.
  - pose proof (abandon_bounded s r true hl Hbl). destruct (Host.abandon r true hl).
    simplify_eq. rewrite heap_grant. by apply map_Forall_insert_2.
  - pose proof (release_bounded s hl Hbl). destruct (Host.release hl).
    simplify_eq. rewrite heap_grant. by apply map_Forall_insert_2.
Qed.

Lemma step_inv s st st' : 0 ≤ Concurrent s → inv s st → step s st st' → inv s st'.
Proof.
  intros HC Hi Hs. destruct Hs as [now r a st1 st2 Hact|cutoff st1]; destruct Hi as [Ha Hb].
  - split; [exact (act_acct _ _ _ _ _ _ Ha Hact)|exact (act_bounded _ _ _ _ _ _ HC Hb Hact)].
  - split; [by apply acct_Cleanup|done].
Qed.

Lemma reachable_inv s st : 0 ≤ Concurrent s → reachable s st → inv s st.
Proof.
  intros HC. apply (rtc_ind_r (R := step s) (inv s) init).
  - split; [split|]; simpl; intros *; rewrite ?lookup_empty; done.
  - intros y z _ Hstep Hy. by eapply step_inv.
Qed.

Lemma withDefaults_positive f :
  Validate f = Ok tt →
  let s := withDefaults f in
  0 < WindowSize s ∧ 0 < SleepLimit s ∧ 0 < SleepDelay s ∧ 0 < RejectLimit s ∧ 0 < Concurrent s.
Proof.
  unfold Validate. repeat case_bool_decide; try done. intros _. unfold withDefaults, or_default. simpl.
  repeat case_bool_decide; simpl; lia.
Qed.

(** A duplicate-free list of the requests in a phase has their number. *)
Lemma count_list P st (l : list nat) :
  NoDup l → (∀ r, r ∈ l ↔ ∃ p, reqs st !! r = Some p ∧ P p = true) →
  count P st = Z.of_nat (length l).
Proof.
  intros Hnd Hl.
  assert (count P st = Z.of_nat (length (filter (λ x, P x.2 = true) (map_to_list (reqs st))))) as ->.
  { unfold count. induction (map_to_list (reqs st)) as [|x k IH]; [done|].
    rewrite fmap_cons, Zsum_cons, IH.
    destruct (P x.2) eqn:E; [rewrite filter_cons_True by done|rewrite filter_cons_False by congruence];
      simpl; lia. }
  rewrite <-(length_fmap fst). f_equal. apply Permutation_length, NoDup_Permutation; [|done|].
  - apply NoDup_fmap_filter, NoDup_fst_map_to_list.
  - intros r. rewrite Hl, list_elem_of_fmap. split.
    + intros ([r' p] & -> & [HP Hin]%list_elem_of_filter). apply elem_of_map_to_list in Hin. eauto.
    + intros (p & Hr & HP). exists (r, p). split; [done|]. apply list_elem_of_filter.
      split; [done|]. by apply elem_of_map_to_list.
Qed.

Lemma queued_count st h hl :
  host_acct st h hl → Host.queued hl = count (λ p, bool_decide (p.2 = Waiting h)) st.
Proof.
  intros [_ H2 H3 H4 _]. rewrite H2. symmetry. apply count_list; [done|].
  intros r. rewrite H4. split.
  - intros [srv Hr]. exists (srv, Waiting h). by rewrite bool_decide_true.
  - intros ([srv p] & Hr & Hp). apply bool_decide_eq_true in Hp. simpl in Hp. subst. eauto.
Qed.
End bound.

(** ** Histories of one host *)
Section history.
Implicit Types (s : FederationSettings) (hl : Host.t).

(** What can happen to one host object, as its locked sections. *)
Inductive host_op :=
| OAdmit (now : Z) | OWake | OEnter (r : nat) | ORelease | OAbandon (r : nat) (granted : bool).

Definition host_step s (hl : Host.t) (o : host_op) : Host.t :=
  match o with
  | OAdmit now => (Host.arrive s now hl).2
  | OWake => Host.wake hl
  | OEnter r => (Host.enter s r hl).2
  | ORelease => (Host.release hl).2
  | OAbandon r g => (Host.abandon r g hl).2
  end.

(** The arrivals that were not rejected, oldest first, starting from [acc]. *)
Fixpoint accepted s (hl : Host.t) (os : list host_op) : list Z :=
  match os with
  | [] => []
  | o :: os =>
      match o with
      | OAdmit now => if bool_decide ((Host.arrive s now hl).1 = Host.Reject) then [] else [now]
      | _ => []
      end ++ accepted s (host_step s hl o) os
  end.

Fixpoint arrivals (os : list host_op) : list Z :=
  match os with
  | [] => []
  | OAdmit now :: os => now :: arrivals os
  | _ :: os => arrivals os
  end.

Lemma arrive_times s now hl :
  Host.requestTimes (Host.arrive s now hl).2 =
  filter (λ t, now - window_ns s < t) (Host.requestTimes hl) ++
  (if bool_decide ((Host.arrive s now hl).1 = Host.Reject) then [] else [now]).
Proof.
  unfold Host.arrive. case_bool_decide; [|case_bool_decide]; simpl; by rewrite ?app_nil_r.
Qed.

Lemma other_times s hl o :
  (∀ now, o ≠ OAdmit now) → Host.requestTimes (host_step s hl o) = Host.requestTimes hl.
Proof.
  intros Ho. destruct o as [now| | | |]; simpl.
  - by destruct (Ho now).
  - done.
  - unfold Host.enter. by case_bool_decide.
  - unfold Host.release. by case_match.
  - unfold Host.abandon, Host.release. by repeat case_match.
Qed.

Lemma filter_filter_later (c c' : Z) (l : list Z) :
  c ≤ c' → filter (λ t, c' < t) (filter (λ t, c < t) l) = filter (λ t, c' < t) l.
Proof.
  intros Hc. rewrite list_filter_filter. apply list_filter_iff. intros x. lia.
Qed.

(** Pruning eagerly at every arrival loses nothing a later arrival looks at. *)
Lemma window_run s os hl t0 now times :
  0 < window_ns s → Sorted Z.le (t0 :: arrivals os ++ [now]) →
  Host.requestTimes hl = filter (λ t, t0 - window_ns s < t) times →
  filter (λ t, now - window_ns s < t) (Host.requestTimes (foldl (host_step s) hl os)) =
  filter (λ t, now - window_ns s < t) (times ++ accepted s hl os).
Proof.
  intros Hw. revert hl t0 times. induction os as [|o os IH]; intros hl t0 times Hs Ht.
  - simpl in *. rewrite app_nil_r, Ht. apply filter_filter_later.
    inversion Hs as [|?? _ Hh]; subst. inversion Hh; lia.
  - assert ((∃ t, o = OAdmit t) ∨ ∀ t, o ≠ OAdmit t) as [[t ->]|Hno]
      by (destruct o; [left; eauto|right; done..]).
    + simpl in Hs. inversion Hs as [|?? Hs' Hh]; subst. inversion Hh; subst.
      cbn [foldl accepted]. rewrite app_assoc. apply (IH _ t _ Hs').
      cbn [host_step]. rewrite (arrive_times s t hl), filter_app, Ht, filter_filter_later by lia.
      f_equal. case_bool_decide; [done|]. rewrite filter_cons_True; [done|lia].
    + assert (accepted s hl (o :: os) = accepted s (host_step s hl o) os) as ->
        by (destruct o as [t| | | |]; [by destruct (Hno t)|done..]).
      apply (IH _ t0).
      * destruct o as [t| | | |]; [by destruct (Hno t)|done..].
      * by rewrite other_times.
Qed.
End history.

(** ** Properties *)
Section properties.
Import System.

Lemma script_steps s (l : list (Z * nat * action)) st st' :
  foldl (run_act s) (Some st) l = Some st' → rtc (step s) st st'.
Proof.
  revert st'. induction l as [|[[now r] a] l IH] using rev_ind; intros st'.
  - intros [= <-]. apply rtc_refl.
  - rewrite foldl_app. simpl. destruct (foldl (run_act s) (Some st) l) as [st1|]; [|done].
    intros Hact. eapply rtc_r; [by apply IH|]. by eapply step_act.
Qed.

(** C24. Under every interleaving of requests, cancellations and cleanups, the
    counters of a host are exact (sleeping, queued and slot-holding requests),
    and at most [Concurrent] of a host object's requests hold a slot or run. *)
Theorem slots_bounded f st h hl :
  Validate f = Ok tt → reachable (withDefaults f) st → heap st !! h = Some hl →
  Host.sleeping hl = count (is_sleeping h) st ∧
  Host.queued hl = count (λ p, bool_decide (p.2 = Waiting h)) st ∧
  Host.processing hl = count (holds_slot h) st ∧
  count (runs_on h) st ≤ Host.processing hl ≤ Concurrent (withDefaults f).
Proof.
  intros Hv Hr Hh. destruct (withDefaults_positive f Hv) as (_ & _ & _ & _ & HC).
  destruct (reachable_inv _ _ (Z.lt_le_incl _ _ HC) Hr) as [Ha Hb].
  pose proof (ac_host _ Ha _ _ Hh) as Hha. destruct (Hb _ _ Hh) as [Hle _].
  split_and!; [apply Hha|by apply queued_count|apply Hha| |done].
  rewrite (ha_processing _ _ _ Hha). apply count_le. intros p Hp.
  unfold holds_slot. by apply orb_true_iff; left.
Qed.

(** C38. No slot is lost: while a request waits in the queue of a host, exactly
    [Concurrent] requests hold its slots, so there is one whose release or
    cancellation hands a slot on. *)
Theorem waiting_has_holder f st r srv h :
  Validate f = Ok tt → reachable (withDefaults f) st → reqs st !! r = Some (srv, Waiting h) →
  count (holds_slot h) st = Concurrent (withDefaults f) ∧
  ∃ r' srv' p, reqs st !! r' = Some (srv', p) ∧ (p = Running h ∨ p = Granted h).
Proof.
  intros Hv Hr Hw. destruct (withDefaults_positive f Hv) as (_ & _ & _ & _ & HC).
  destruct (reachable_inv _ _ (Z.lt_le_incl _ _ HC) Hr) as [Ha Hb].
  destruct (ac_uses _ Ha _ _ _ h Hw) as [hl Hh]; [done|].
  pose proof (ac_host _ Ha _ _ Hh) as Hha. destruct (Hb _ _ Hh) as [_ Heq].
  rewrite (ha_processing _ _ _ Hha) in Heq.
  assert (Host.waiters hl ≠ []) as Hne.
  { intros Hn. pose proof (proj2 (ha_waiters _ _ _ Hha r) (ex_intro _ srv Hw)) as Hin.
    rewrite Hn in Hin. by apply not_elem_of_nil in Hin. }
  split; [by apply Heq|]. assert (0 < count (holds_slot h) st) as Hpos by (rewrite Heq; done).
  apply count_pos_inv in Hpos as (r' & [srv' p] & Hr' & Hp). exists r', srv', p.
  split; [done|]. apply orb_true_iff in Hp. by rewrite !bool_decide_eq_true in Hp.
Qed.

Lemma grant_other n h st r : reqs (grant n h st) !! r = reqs st !! r ∨ n = Some r.
Proof.
  unfold grant. destruct n as [n|]; [|by left].
  destruct (decide (n = r)) as [->|]; [by right|left].
  destruct (reqs st !! n) as [[? []]|]; try done. simpl. by rewrite lookup_insert_ne.
Qed.

Lemma release_head hl n hl' : Host.release hl = (n, hl') → n = head (Host.waiters hl).
Proof. unfold Host.release. destruct (Host.waiters hl); naive_solver. Qed.

Lemma abandon_head r g hl n hl' r2 :
  Host.abandon r g hl = (n, hl') → n = Some r2 → head (Host.waiters hl) = Some r2.
Proof.
  unfold Host.abandon. destruct (Host.remove_first r (Host.waiters hl)); [naive_solver|].
  destruct g; [|naive_solver]. intros H%release_head ->. done.
Qed.

(** A step moves the request that takes it and, at most, the head of a queue. *)
Lemma act_other s now r a st st' r2 :
  act s now r a st = Some st' → r2 ≠ r →
  reqs st' !! r2 = reqs st !! r2 ∨
  ∃ h hl, heap st !! h = Some hl ∧ head (Host.waiters hl) = Some r2.
Proof.
  intros Hact Hr2. unfold act in Hact.
  assert (∀ n h hl srv p hl', heap st !! h = Some hl → (n = Some r2 → head (Host.waiters hl) = Some r2) →
    reqs (grant n h (set_phase r srv p (set_host h hl' st))) !! r2 = reqs st !! r2 ∨
    ∃ h hl, heap st !! h = Some hl ∧ head (Host.waiters hl) = Some r2) as Hg.
  { intros n h hl srv p hl' Hh Hn.
    destruct (grant_other n h (set_phase r srv p (set_host h hl' st)) r2) as [->|Hn2].
    - left. simpl. by rewrite lookup_insert_ne.
    - right. exists h, hl. auto. }
  destruct a; destruct (reqs st !! r) as [[srv' p]|] eqn:Hr; try done; try (destruct p; try done).
  all: try (apply bind_Some in Hact as (hl & Hhl & Hact)).
  all: repeat case_match; simplify_eq; try (left; simpl; by rewrite lookup_insert_ne).
  - left. simpl. rewrite lookup_insert_ne by done.
    unfold hostLimiter in *. case_match; by simplify_eq.
  - eapply Hg; [done|]. by eapply abandon_head.
  - eapply Hg; [done|]. by eapply abandon_head.
  - eapply Hg; [done|]. intros ->. symmetry. by eapply release_head.
Qed.

(** Queued requests run in arrival order: while an earlier request waits in
    a queue, no step starts, or hands a slot to, a later one. *)
Theorem no_overtaking f st st' h hl l1 r1 l2 r2 l3 srv :
  Validate f = Ok tt → reachable (withDefaults f) st → step (withDefaults f) st st' →
  heap st !! h = Some hl → Host.waiters hl = l1 ++ r1 :: l2 ++ r2 :: l3 →
  reqs st' !! r2 ≠ Some (srv, Granted h) ∧ reqs st' !! r2 ≠ Some (srv, Running h).
Proof.
  intros Hv Hr Hstep Hh Hw. destruct (withDefaults_positive f Hv) as (_ & _ & _ & _ & HC).
  destruct (reachable_inv _ _ (Z.lt_le_incl _ _ HC) Hr) as [Ha _].
  pose proof (ac_host _ Ha _ _ Hh) as [_ _ Hnd Hin _].
  destruct (proj1 (Hin r2)) as [srv2 Hr2];
    [rewrite Hw, elem_of_app, elem_of_cons, elem_of_app, elem_of_cons; auto 10|].
  assert (∀ p, p ≠ Waiting h → reqs st' !! r2 = Some (srv, p) → reqs st' !! r2 ≠ reqs st !! r2) as Hch.
  { intros p Hp -> Heq. rewrite Hr2 in Heq. by simplify_eq. }
  destruct Hstep as [now r a st st' Hact|]; [|split; simpl; rewrite Hr2; congruence].
  assert (∀ p, p = Granted h ∨ p = Running h → reqs st' !! r2 ≠ Some (srv, p)) as Hgoal; [|by auto].
  intros p Hp Hl. destruct (decide (r2 = r)) as [->|Hne].
  - unfold act in Hact. rewrite Hr2 in Hact. destruct a; try done. rewrite Hh in Hact. simpl in Hact.
    unfold Host.abandon in Hact. destruct (Host.remove_first r (Host.waiters hl)); simplify_eq; simpl in Hl;
      rewrite lookup_insert_eq in Hl; destruct Hp; simplify_eq.
  - destruct (act_other _ _ _ _ _ _ r2 Hact Hne) as [Heq|(h' & hl' & Hh' & Hhd)].
    + eapply Hch; [|done|done]. by destruct Hp as [-> | ->].
    + pose proof (ac_host _ Ha _ _ Hh') as [_ _ _ Hin' _].
      destruct (proj1 (Hin' r2)) as [srv' Hr2'].
      { destruct (Host.waiters hl') as [|x ?]; [done|]. injection Hhd as ->. by left. }
      simplify_eq. rewrite Hw in Hnd, Hhd.
      apply NoDup_app in Hnd as (_ & Hdis & [Hni _]%NoDup_cons).
      destruct l1 as [|x l1]; simpl in Hhd; simplify_eq; [apply Hni; rewrite elem_of_app, elem_of_cons; auto 10|].
      apply (Hdis r2); [by left|]. rewrite elem_of_cons, elem_of_app, elem_of_cons; auto 10.
Qed.

(** A request is rejected exactly when more than [RejectLimit] of the host's
    requests are waiting (sleeping or queued), and a rejected request changes
    nothing but the pruned window: it is not counted. *)
Theorem reject_exact f st now r srv h hl :
  Validate f = Ok tt → reachable (withDefaults f) st →
  reqs st !! r = Some (srv, Found h) → heap st !! h = Some hl →
  ∃ st' hl', act (withDefaults f) now r Admit st = Some st' ∧ heap st' !! h = Some hl' ∧
    (reqs st' !! r = Some (srv, Finished Rejected) ↔
     RejectLimit (withDefaults f) <
       count (is_sleeping h) st + count (λ p, bool_decide (p.2 = Waiting h)) st) ∧
    (reqs st' !! r = Some (srv, Finished Rejected) →
     hl' = Host.prune now (window_ns (withDefaults f)) (Host.with_lastUsed hl now)) ∧
    (reqs st' !! r ≠ Some (srv, Finished Rejected) →
     now ∈ Host.requestTimes hl').
Proof.
  intros Hv Hr Hf Hh. destruct (withDefaults_positive f Hv) as (_ & _ & _ & _ & HC).
  destruct (reachable_inv _ _ (Z.lt_le_incl _ _ HC) Hr) as [Ha _].
  pose proof (ac_host _ Ha _ _ Hh) as Hha.
  rewrite <-(ha_sleeping _ _ _ Hha), <-(queued_count _ _ _ Hha).
  unfold act. rewrite Hf, Hh. simpl. unfold Host.arrive.
  case_bool_decide as Hrej; [|case_bool_decide].
  all: do 2 eexists; split_and!; [done|apply lookup_insert_eq|..]; simpl; rewrite !lookup_insert_eq;
    simpl in *.
  all: try (split; [by intros ?|lia]). all: try done. all: try naive_solver.
  all: intros _; rewrite elem_of_app; right; by left.
Qed.

(** The sleep decision is the sliding window's: for arrivals in time order,
    an admitted request is delayed exactly when, with it, more than [SleepLimit]
    arrivals of the window were admitted; pruning forgets none that count. *)
Theorem sleep_exact s created os now :
  0 < window_ns s → Sorted Z.le (arrivals os ++ [now]) →
  let hl := foldl (host_step s) (Host.new created) os in
  (Host.arrive s now hl).1 ≠ Host.Reject →
  ((Host.arrive s now hl).1 = Host.Sleep ↔
   SleepLimit s < Z.of_nat (length (filter (λ t, now - window_ns s < t)
                                           (accepted s (Host.new created) os ++ [now])))).
Proof.
  intros Hw Hs hl Hrej.
  assert (Sorted Z.le (hd now (arrivals os) :: arrivals os ++ [now])) as Hs0.
  { constructor; [done|]. destruct (arrivals os); simpl; constructor; done. }
  pose proof (window_run s os (Host.new created) _ now [] Hw Hs0 eq_refl) as Hrun.
  rewrite app_nil_l in Hrun. fold hl in Hrun.
  rewrite filter_app, (filter_cons_True _ now []) by lia. rewrite filter_nil, <-Hrun.
  revert Hrej. unfold Host.arrive. case_bool_decide; [done|]. intros _.
  case_bool_decide as Hsl; simpl in Hsl; (split; [|done || (intros ?; exfalso; by apply Hsl)]); intros ?; done.
Qed.

(** The per-host limit is not a per-server limit: when [Cleanup] discards an
    idle host between [hostLimiter]'s return and the admission, the next request
    makes a second host object, and more than [Concurrent] requests of one
    server run at once. *)
Theorem cleanup_race :
  ∃ st, reachable (withDefaults DefaultFederationSettings) st ∧
    Concurrent (withDefaults DefaultFederationSettings) < count (runs_for "a.org") st.
Proof.
  set (s := withDefaults DefaultFederationSettings).
  set (minute := 60 * 1000000000).
  set (visit := λ (now : Z) (r : nat), [(now, r, Lookup); (now, r, Admit); (now, r, Enter)]).
  set (pre := (0, 0%nat, Start "a.org") :: visit 0 0%nat ++ [(0, 0%nat, Release);
    (60 * minute, 1%nat, Start "a.org"); (60 * minute, 1%nat, Lookup)]).
  set (post := [(60 * minute, 1%nat, Admit); (60 * minute, 1%nat, Enter)] ++
    concat ((λ r : nat, (60 * minute, r, Start "a.org") :: visit (60 * minute) r) <$> [2; 3; 4]%nat)).
  assert (∃ st1, foldl (run_act s) (Some init) pre = Some st1 ∧
    ∃ st2, foldl (run_act s) (Some (Cleanup (30 * minute) st1).1) post = Some st2 ∧
      Concurrent s < count (runs_for "a.org") st2) as (st1 & Hpre & st2 & Hpost & Hc).
  { eexists. split; [by vm_compute|]. eexists. split; [by vm_compute|]. by vm_compute. }
  exists st2. split; [|done].
  unfold reachable. etrans; [by apply (script_steps s pre)|].
  eapply rtc_l; [apply step_cleanup|]. by apply (script_steps s post).
Qed.

(** Accepted settings, once defaulted, have every limit positive and are
    stable; so the stage-disabling guard of [Acquire] never fires for any
    configuration, zero limits included, and the advertised retry time is within
    the window and its header the least whole number of seconds covering it. *)
Theorem limits_defaulted f :
  disabled (withDefaults f) = false ∧ withDefaults (withDefaults f) = withDefaults f ∧
  (Validate f = Ok tt →
   Validate (withDefaults f) = Ok tt ∧ 0 < Concurrent (withDefaults f) ∧
   0 ≤ RetryAfterMS f ≤ WindowSize (withDefaults f) ∧
   1000 * (retry_after_seconds f - 1) < RetryAfterMS f ≤ 1000 * retry_after_seconds f).
Proof.
  split; [|split].
  - unfold disabled, withDefaults, or_default. simpl.
    repeat (case_bool_decide; simpl in *; try lia; try done).
  - unfold withDefaults, or_default. simpl. f_equal; repeat case_bool_decide; simpl in *; try lia.
  - intros Hv. destruct (withDefaults_positive f Hv) as (H1 & H2 & H3 & H4 & H5).
    split_and!; [|done|..].
    + unfold Validate. rewrite !bool_decide_false by lia. done.
    + unfold RetryAfterMS. rewrite bool_decide_false by lia. apply Z.quot_pos; lia.
    + unfold RetryAfterMS. rewrite bool_decide_false by lia.
      apply Z.quot_le_upper_bound; [done|]. nia.
    + unfold retry_after_seconds. pose proof (Z.div_mod (- RetryAfterMS f) 1000).
      pose proof (Z.mod_pos_bound (- RetryAfterMS f) 1000). lia.
    + unfold retry_after_seconds. pose proof (Z.div_mod (- RetryAfterMS f) 1000).
      pose proof (Z.mod_pos_bound (- RetryAfterMS f) 1000). lia.
Qed.
End properties.

(** ** Witnesses *)
Section witnesses.
Import System.

(** Four requests of one server: three run, the fourth queues. *)
Definition wit_settings : FederationSettings := DefaultFederationSettings.
Definition wit_script : list (Z * nat * action) :=
  concat ((λ r : nat, [(1000, r, Start "a.org"); (1000, r, Lookup); (1000, r, Admit); (1000, r, Enter)])
          <$> [0; 1; 2; 3; 4]%nat).
Definition wit_state : System.t :=
  Eval vm_compute in
    from_option id init (foldl (run_act (withDefaults wit_settings)) (Some init) wit_script).

Lemma wit_reachable : reachable (withDefaults wit_settings) wit_state.
Proof. apply (script_steps _ wit_script). by vm_compute. Qed.

Lemma slots_bounded_witness :
  count (runs_on 0) wit_state ≤ 3 ∧ count (λ p, bool_decide (p.2 = Waiting 0)) wit_state = 2.
Proof.
  destruct (slots_bounded wit_settings wit_state 0 (Host.Mk [1000; 1000; 1000; 1000; 1000] 0 2 3 [3; 4]%nat 1000))
    as (_ & Hq & _ & H); [by vm_compute|apply wit_reachable|by vm_compute|].
  split; [simpl in H; by etrans; apply H|by symmetry].
Defined.

Lemma waiting_has_holder_witness : count (holds_slot 0) wit_state = 3.
Proof.
  apply (waiting_has_holder wit_settings wit_state 3 "a.org" 0);
    [by vm_compute|apply wit_reachable|by vm_compute].
Defined.

Definition wit_next : System.t :=
  Eval vm_compute in from_option id init (act (withDefaults wit_settings) 2000 0 Release wit_state).

Lemma no_overtaking_witness :
  reqs wit_next !! 3%nat = Some ("a.org"%string, Granted 0) ∧
  reqs wit_next !! 4%nat ≠ Some ("a.org"%string, Granted 0).
Proof.
  split; [by vm_compute|].
  apply (no_overtaking wit_settings wit_state wit_next 0
    (Host.Mk [1000; 1000; 1000; 1000; 1000] 0 2 3 [3; 4]%nat 1000) [] 3 [] 4 [] "a.org");
    [by vm_compute|apply wit_reachable| |by vm_compute|done].
  apply (step_act _ 2000 0 Release). by vm_compute.
Defined.

Definition wit_before : System.t :=
  Eval vm_compute in
    from_option id init (foldl (run_act (withDefaults wit_settings)) (Some wit_state)
      [(2000, 5%nat, Start "a.org"); (2000, 5%nat, Lookup)]).

Lemma reject_exact_witness :
  ∃ st' hl', act (withDefaults wit_settings) 2000 5 Admit wit_before = Some st' ∧
             heap st' !! 0%nat = Some hl' ∧ 2000 ∈ Host.requestTimes hl'.
Proof.
  destruct (reject_exact wit_settings wit_before 2000 5 "a.org" 0
    (Host.Mk [1000; 1000; 1000; 1000; 1000] 0 2 3 [3; 4]%nat 1000)) as (st' & hl' & Hact & Hh & Hrej & _ & Hin).
  - by vm_compute.
  - apply (script_steps _ (wit_script ++ [(2000, 5%nat, Start "a.org"); (2000, 5%nat, Lookup)])).
    by vm_compute.
  - by vm_compute.
  - by vm_compute.
  - exists st', hl'. split_and!; [done|done|]. apply Hin. rewrite Hrej. by vm_compute.
Defined.

Lemma sleep_exact_witness :
  (Host.arrive (Federation.Mk 1000 1 500 50 3) 5
     (foldl (host_step (Federation.Mk 1000 1 500 50 3)) (Host.new 0) [OAdmit 3; OEnter 0])).1 = Host.Sleep.
Proof.
  apply (sleep_exact (Federation.Mk 1000 1 500 50 3) 0 [OAdmit 3; OEnter 0] 5); [by vm_compute| |done|by vm_compute].
  repeat constructor; done.
Defined.

Lemma limits_defaulted_witness : RetryAfterMS DefaultFederationSettings ≤ 1000.
Proof. destruct (limits_defaulted DefaultFederationSettings) as (_ & _ & H). by apply H. Defined.
End witnesses.
