(* ===== verification/Json.v ===== *)
(** * Go's [encoding/json], as the source uses it

    The source reads stored events with [json.Unmarshal] into small structs, maps
    of raw messages, and lists of any.  [value] is the scanner's grammar
    (objects, arrays, strings with escapes, numbers, literals, a nesting bound of
    10000), [unquote] the decoding of strings (escapes, surrogate pairs, invalid
    UTF-8 replaced by U+FFFD), and the [Struct] module the decoding of an object
    into a struct: fields matched by name up to case folding, the last of a
    repeated field winning, [null] leaving a string unchanged, a value of the
    wrong type skipped and reported at the end.

    Every element of an array and member of an object carries the bytes it was
    written with, which is what a [json.RawMessage] holds. *)
From S2P Require Import Prelude.

Open Scope Z_scope.

(** ** UTF-8 *)
Module Utf8.

Definition byte (a : ascii) : Z := Z.of_N (N_of_ascii a).
Definition chr (z : Z) : ascii := ascii_of_N (Z.to_N z).
Definition rune_error : Z := 65533.

Definition is_cont (b : Z) : bool := bool_decide (128 ≤ b) && bool_decide (b ≤ 191).

(** [utf8.DecodeRune]: the rune and the rest; an invalid byte is [rune_error]
    and one byte long. *)
Definition decode (a : ascii) (s : string) : Z * string :=
  let b0 := byte a in
  if bool_decide (b0 < 128) then (b0, s)
  else if bool_decide (194 ≤ b0) && bool_decide (b0 ≤ 223) then
    match s with
    | String c1 s1 =>
        if is_cont (byte c1) then ((b0 - 192) * 64 + (byte c1 - 128), s1) else (rune_error, s)
    | _ => (rune_error, s)
    end
  else if bool_decide (224 ≤ b0) && bool_decide (b0 ≤ 239) then
    match s with
    | String c1 (String c2 s2) =>
        let r := (b0 - 224) * 4096 + (byte c1 - 128) * 64 + (byte c2 - 128) in
        if is_cont (byte c1) && is_cont (byte c2) && bool_decide (2048 ≤ r)
           && negb (bool_decide (55296 ≤ r) && bool_decide (r ≤ 57343))
        then (r, s2) else (rune_error, s)
    | _ => (rune_error, s)
    end
  else if bool_decide (240 ≤ b0) && bool_decide (b0 ≤ 244) then
    match s with
    | String c1 (String c2 (String c3 s3)) =>
        let r := (b0 - 240) * 262144 + (byte c1 - 128) * 4096 + (byte c2 - 128) * 64 + (byte c3 - 128) in
        if is_cont (byte c1) && is_cont (byte c2) && is_cont (byte c3)
           && bool_decide (65536 ≤ r) && bool_decide (r ≤ 1114111)
        then (r, s3) else (rune_error, s)
    | _ => (rune_error, s)
    end
  else (rune_error, s).

(** [utf8.EncodeRune] *)
Definition encode (r : Z) : string :=
  let r := if bool_decide (r < 0) || bool_decide (1114111 < r)
              || (bool_decide (55296 ≤ r) && bool_decide (r ≤ 57343)) then rune_error else r in
  if bool_decide (r < 128) then String (chr r) EmptyString
  else if bool_decide (r < 2048) then
    String (chr (192 + r / 64)) (String (chr (128 + r mod 64)) EmptyString)
  else if bool_decide (r < 65536) then
    String (chr (224 + r / 4096)) (String (chr (128 + (r / 64) mod 64))
      (String (chr (128 + r mod 64)) EmptyString))
  else
    String (chr (240 + r / 262144)) (String (chr (128 + (r / 4096) mod 64))
      (String (chr (128 + (r / 64) mod 64)) (String (chr (128 + r mod 64)) EmptyString))).

(** The runes of a string, as Go's [range] and [regexp] read it. *)
Fixpoint runes_fuel (fuel : nat) (s : string) : list Z :=
  match fuel, s with
  | S fuel, String a s' => let '(r, rest) := decode a s' in r :: runes_fuel fuel rest
  | _, _ => []
  end.
Definition runes (s : string) : list Z := runes_fuel (String.length s) s.

End Utf8.
Import Utf8.

(** ** Values *)
Inductive json :=
| JNull
| JBool (b : bool)
| JNum (tok : string)
| JStr (raw : string)                               (* between the quotes *)
| JArr (elems : list (json * string))
| JObj (members : list (string * (json * string))). (* keys as written *)

Inductive parse_error := Syntax | OutOfFuel.
#[export] Instance parse_error_eq_dec : EqDecision parse_error.
Proof. solve_decision. Defined.

Definition quote : ascii := "034"%char.
Definition backslash : ascii := "\"%char.

Definition is_ws (a : ascii) : bool :=
  bool_decide (a ∈ [" "; "009"; "010"; "013"]%char).
Fixpoint skip_ws (s : string) : string :=
  match s with
  | String a s' => if is_ws a then skip_ws s' else s
  | EmptyString => s
  end.

Definition is_digit (a : ascii) : bool := bool_decide (48 ≤ byte a) && bool_decide (byte a ≤ 57).
Definition hex_val (a : ascii) : option Z :=
  let b := byte a in
  if is_digit a then Some (b - 48)
  else if bool_decide (97 ≤ b) && bool_decide (b ≤ 102) then Some (b - 87)
  else if bool_decide (65 ≤ b) && bool_decide (b ≤ 70) then Some (b - 55)
  else None.
Definition is_hex (a : ascii) : bool := bool_decide (is_Some (hex_val a)).

(** The text up to the closing quote, escapes checked but not decoded. *)
Fixpoint scan_string (s : string) : option (string * string) :=
  match s with
  | EmptyString => None
  | String a s1 =>
      if bool_decide (a = quote) then Some (EmptyString, s1)
      else if bool_decide (byte a < 32) then None
      else if bool_decide (a = backslash) then
        match s1 with
        | String e s2 =>
            if bool_decide (e = "u"%char) then
              match s2 with
              | String h1 (String h2 (String h3 (String h4 s3))) =>
                  if is_hex h1 && is_hex h2 && is_hex h3 && is_hex h4 then
                    '(raw, rest) ← scan_string s3;
                    Some (String a (String e (String h1 (String h2 (String h3 (String h4 raw))))), rest)
                  else None
              | _ => None
              end
            else if bool_decide (e ∈ [quote; backslash; "/"; "b"; "f"; "n"; "r"; "t"]%char) then
              '(raw, rest) ← scan_string s2; Some (String a (String e raw), rest)
            else None
        | EmptyString => None
        end
      else '(raw, rest) ← scan_string s1; Some (String a raw, rest)
  end.

Fixpoint digits (s : string) : string * string :=
  match s with
  | String a s' => if is_digit a then let '(d, r) := digits s' in (String a d, r) else (EmptyString, s)
  | EmptyString => (EmptyString, s)
  end.

Definition scan_frac (s : string) : option (string * string) :=
  match s with
  | String "." s' =>
      match digits s' with
      | (EmptyString, _) => None
      | (d, r) => Some (String "." d, r)
      end
  | _ => Some (EmptyString, s)
  end.

Definition scan_exp (s : string) : option (string * string) :=
  match s with
  | String e s' =>
      if bool_decide (e ∈ ["e"; "E"]%char) then
        let '(sign, s'') := match s' with
                            | String a r => if bool_decide (a ∈ ["+"; "-"]%char)
                                            then (String a EmptyString, r) else (EmptyString, s')
                            | EmptyString => (EmptyString, s')
                            end in
        match digits s'' with
        | (EmptyString, _) => None
        | (d, r) => Some (String e (sign +:+ d), r)
        end
      else Some (EmptyString, s)
  | EmptyString => Some (EmptyString, s)
  end.

Definition scan_int (s : string) : option (string * string) :=
  match s with
  | String "0" r => Some ("0"%string, r)
  | _ => match digits s with (EmptyString, _) => None | p => Some p end
  end.

Definition scan_number (s : string) : option (string * string) :=
  let '(neg, s1) := match s with String "-" r => ("-"%string, r) | _ => (EmptyString, s) end in
  '(i, s2) ← scan_int s1;
  '(f, s3) ← scan_frac s2;
  '(e, s4) ← scan_exp s3;
  Some (neg +:+ i +:+ f +:+ e, s4).

Definition literals : list (string * json) :=
  [("true"%string, JBool true); ("false"%string, JBool false); ("null"%string, JNull)].

Definition scan_literal (s : string) : option (json * string) :=
  match filter (λ l, has_prefix s l.1 = true) literals with
  | (w, v) :: _ => Some (v, drop_str (String.length w) s)
  | [] => None
  end.

Definition max_depth : Z := 10000.

(** The bytes of [s] before its suffix [rest]. *)
Definition consumed (s rest : string) : string := take_str (String.length s - String.length rest) s.

Definition of_option {A} (o : option A) : result parse_error A :=
  match o with Some a => Ok a | None => Err Syntax end.

(** [value] reads one value; [elements] and [members] read what follows an
    opening bracket that is not closed at once. *)
Fixpoint value (fuel : nat) (depth : Z) (s : string) : result parse_error (json * string) :=
  match fuel with
  | O => Err OutOfFuel
  | S fuel =>
      match s with
      | EmptyString => Err Syntax
      | String a s1 =>
          if bool_decide (a = quote) then
            '(raw, rest) ← of_option (scan_string s1); Ok (JStr raw, rest)
          else if bool_decide (a = "{"%char) then
            if bool_decide (max_depth < depth + 1) then Err Syntax else
            match skip_ws s1 with
            | String "}" rest => Ok (JObj [], rest)
            | s2 => '(ms, rest) ← members fuel (depth + 1) s2; Ok (JObj ms, rest)
            end
          else if bool_decide (a = "["%char) then
            if bool_decide (max_depth < depth + 1) then Err Syntax else
            match skip_ws s1 with
            | String "]" rest => Ok (JArr [], rest)
            | s2 => '(es, rest) ← elements fuel (depth + 1) s2; Ok (JArr es, rest)
            end
          else if is_digit a || bool_decide (a = "-"%char) then
            '(tok, rest) ← of_option (scan_number s); Ok (JNum tok, rest)
          else of_option (scan_literal s)
      end
  end
with elements (fuel : nat) (depth : Z) (s : string) : result parse_error (list (json * string) * string) :=
  match fuel with
  | O => Err OutOfFuel
  | S fuel =>
      '(v, rest) ← value fuel depth s;
      let e := (v, consumed s rest) in
      match skip_ws rest with
      | String "," rest => '(es, rest) ← elements fuel depth (skip_ws rest); Ok (e :: es, rest)
      | String "]" rest => Ok ([e], rest)
      | _ => Err Syntax
      end
  end
with members (fuel : nat) (depth : Z) (s : string)
    : result parse_error (list (string * (json * string)) * string) :=
  match fuel with
  | O => Err OutOfFuel
  | S fuel =>
      match s with
      | String a s1 =>
          if bool_decide (a = quote) then
            '(key, rest) ← of_option (scan_string s1);
            match skip_ws rest with
            | String ":" rest =>
                let s2 := skip_ws rest in
                '(v, rest) ← value fuel depth s2;
                let m := (key, (v, consumed s2 rest)) in
                match skip_ws rest with
                | String "," rest => '(ms, rest) ← members fuel depth (skip_ws rest); Ok (m :: ms, rest)
                | String "}" rest => Ok ([m], rest)
                | _ => Err Syntax
                end
            | _ => Err Syntax
            end
          else Err Syntax
      | EmptyString => Err Syntax
      end
  end.

(** A whole document, surrounded by white space only. *)
Definition parse (s : string) : result parse_error json :=
  let s := skip_ws s in
  '(v, rest) ← value (2 * String.length s + 2) 0 s;
  match skip_ws rest with EmptyString => Ok v | _ => Err Syntax end.

(** ** Strings *)
Definition hex4 (a b c d : ascii) : option Z :=
  a ← hex_val a; b ← hex_val b; c ← hex_val c; d ← hex_val d;
  Some (a * 4096 + b * 256 + c * 16 + d).

Definition is_surrogate (r : Z) : bool := bool_decide (55296 ≤ r) && bool_decide (r ≤ 57343).

(** [utf16.DecodeRune] *)
Definition decode_surrogates (r1 r2 : Z) : option Z :=
  if bool_decide (55296 ≤ r1) && bool_decide (r1 < 56320) && bool_decide (56320 ≤ r2) && bool_decide (r2 < 57344)
  then Some ((r1 - 55296) * 1024 + (r2 - 56320) + 65536) else None.

Definition simple_escape (e : ascii) : ascii :=
  if bool_decide (e = "b"%char) then "008"%char
  else if bool_decide (e = "f"%char) then "012"%char
  else if bool_decide (e = "n"%char) then "010"%char
  else if bool_decide (e = "r"%char) then "013"%char
  else if bool_decide (e = "t"%char) then "009"%char
  else e.

Fixpoint unquote_fuel (fuel : nat) (s : string) : string :=
  match fuel, s with
  | S fuel, String a s1 =>
      if bool_decide (a = backslash) then
        match s1 with
        | String "u" (String h1 (String h2 (String h3 (String h4 s2)))) =>
            let r := default 0 (hex4 h1 h2 h3 h4) in
            if is_surrogate r then
              match s2 with
              | String "\" (String "u" (String g1 (String g2 (String g3 (String g4 s3))))) =>
                  match hex4 g1 g2 g3 g4 ≫= decode_surrogates r with
                  | Some r2 => encode r2 +:+ unquote_fuel fuel s3
                  | None => encode rune_error +:+ unquote_fuel fuel s2
                  end
              | _ => encode rune_error +:+ unquote_fuel fuel s2
              end
            else encode r +:+ unquote_fuel fuel s2
        | String e s2 => String (simple_escape e) (unquote_fuel fuel s2)
        | EmptyString => EmptyString
        end
      else if bool_decide (byte a < 128) then String a (unquote_fuel fuel s1)
      else let '(r, rest) := decode a s1 in encode r +:+ unquote_fuel fuel rest
  | _, _ => EmptyString
  end.
Definition unquote (raw : string) : string := unquote_fuel (String.length raw) raw.

(** ** Decoding into structs *)
Module Struct.

(** Case folding of a key, exact for comparison with an ASCII field name: the
    non-ASCII runes that fold into ASCII are U+017F (s) and U+212A (k). *)
Definition upper (a : ascii) : ascii :=
  if bool_decide (97 ≤ byte a) && bool_decide (byte a ≤ 122) then chr (byte a - 32) else a.
Fixpoint fold_name (s : string) : string :=
  match s with
  | String "197" (String "191" s') => String "S" (fold_name s')
  | String "226" (String "132" (String "170" s')) => String "K" (fold_name s')
  | String a s' => String (upper a) (fold_name s')
  | EmptyString => EmptyString
  end.

(** Which of a struct's fields a key sets: an exact match, else a folded one. *)
Definition match_field (fields : list string) (key : string) : option string :=
  match List.find (λ f, bool_decide (f = key)) fields with
  | Some f => Some f
  | None => List.find (λ f, bool_decide (fold_name f = fold_name key)) fields
  end.

(** The values a document gives to the field [f] of a struct with [fields], in
    document order, as value and raw bytes. *)
Definition occurrences (fields : list string) (f : string) (ms : list (string * (json * string)))
    : list (json * string) :=
  (λ m, m.2) <$> filter (λ m, match_field fields (unquote m.1) = Some f) ms.

(** A string field: [None] when some occurrence has the wrong type. *)
Fixpoint string_field (cur : string) (vs : list (json * string)) : option string :=
  match vs with
  | [] => Some cur
  | (JNull, _) :: vs => string_field cur vs
  | (JStr raw, _) :: vs => string_field (unquote raw) vs
  | _ :: _ => None
  end.

(** A [json.RawMessage] field: empty when absent, the last occurrence otherwise. *)
Definition raw_field (vs : list (json * string)) : string := from_option snd EmptyString (last vs).

(** A [*bool] field. *)
Fixpoint bool_ptr_field (cur : option bool) (vs : list (json * string)) : option (option bool) :=
  match vs with
  | [] => Some cur
  | (JNull, _) :: vs => bool_ptr_field None vs
  | (JBool b, _) :: vs => bool_ptr_field (Some b) vs
  | _ :: _ => None
  end.

(** A nested struct: its members are decoded into the same struct, in order;
    [null] leaves it, another type is an error. *)
Fixpoint struct_members (vs : list (json * string)) : option (list (string * (json * string))) :=
  match vs with
  | [] => Some []
  | (JNull, _) :: vs => struct_members vs
  | (JObj ms, _) :: vs => (λ rest, ms ++ rest) <$> struct_members vs
  | _ :: _ => None
  end.

(** A [map[string]json.RawMessage] field: objects are merged, [null] clears. *)
Fixpoint raw_map_field (cur : gmap string string) (vs : list (json * string))
    : option (gmap string string) :=
  match vs with
  | [] => Some cur
  | (JNull, _) :: vs => raw_map_field ∅ vs
  | (JObj ms, _) :: vs => raw_map_field (foldl (λ m x, <[unquote x.1 := x.2.2]> m) cur ms) vs
  | _ :: _ => None
  end.

(** The members of a document decoded into a struct; [null] sets nothing. *)
Definition top (body : string) : option (list (string * (json * string))) :=
  match parse body with
  | Ok (JObj ms) => Some ms
  | Ok JNull => Some []
  | _ => None
  end.

(** The common shapes: [None] is the error of [json.Unmarshal]. *)
Definition get_string (f body : string) : option string :=
  ms ← top body; string_field EmptyString (occurrences [f] f ms).
Definition get_nested_string (outer f body : string) : option string :=
  ms ← top body; inner ← struct_members (occurrences [outer] outer ms);
  string_field EmptyString (occurrences [f] f inner).
Definition get_raw (f body : string) : option string :=
  ms ← top body; Some (raw_field (occurrences [f] f ms)).
Definition get_raw_map (f body : string) : option (gmap string string) :=
  ms ← top body; raw_map_field ∅ (occurrences [f] f ms).
Definition get_bool_ptr (f body : string) : option (option bool) :=
  ms ← top body; bool_ptr_field None (occurrences [f] f ms).

End Struct.

(** JSON written with single quotes, for examples. *)
Fixpoint js (s : string) : string :=
  match s with
  | String a s' => String (if bool_decide (a = "'"%char) then quote else a) (js s')
  | EmptyString => EmptyString
  end.

(** ** The fuel of [parse] is enough *)
Lemma byte_chr z : 0 ≤ z < 256 → Utf8.byte (Utf8.chr z) = z.
Proof.
  intros Hz. unfold Utf8.byte, Utf8.chr. rewrite N_ascii_embedding by lia. by rewrite Z2N.id by lia.
Qed.

Section fuel.
Notation len := String.length.

Lemma skip_ws_len s : (len (skip_ws s) ≤ len s)%nat.
Proof. induction s as [|a s IH]; simpl; [done|]. case_match; simpl; lia. Qed.

Lemma drop_str_len n s : (len (drop_str n s) ≤ len s)%nat.
Proof. revert s. induction n as [|n IH]; intros [|a s]; simpl; try lia. specialize (IH s). lia. Qed.

Lemma scan_string_len s raw rest : scan_string s = Some (raw, rest) → (len rest < len s)%nat.
Proof.
  assert (∀ n s raw rest, (len s ≤ n)%nat → scan_string s = Some (raw, rest) → (len rest < len s)%nat)
    as H; [|by eapply H].
  clear. induction n as [|n IH]; intros [|a s] raw rest Hn Hs; simpl in Hn; try lia; [done..|].
  simpl in Hs. case_bool_decide; [simplify_eq; simpl; lia|].
  case_bool_decide; [done|]. case_bool_decide.
  - destruct s as [|e s]; [done|]. simpl in *. case_bool_decide.
    + destruct s as [|h1 [|h2 [|h3 [|h4 s]]]]; try done. case_match; [|done].
      destruct (scan_string s) as [[? ?]|] eqn:E; [|done]. simplify_eq/=.
      apply IH in E; simpl in *; lia.
    + case_bool_decide; [|done]. destruct (scan_string s) as [[? ?]|] eqn:E; [|done]. simplify_eq/=.
      apply IH in E; simpl in *; lia.
  - destruct (scan_string s) as [[? ?]|] eqn:E; [|done]. simplify_eq/=. apply IH in E; simpl in *; lia.
Qed.

Lemma digits_len s d r : digits s = (d, r) → len s = (len d + len r)%nat.
Proof.
  revert d r. induction s as [|a s IH]; intros d r Hd; simpl in *; [by simplify_eq|].
  case_match; [|by simplify_eq]. destruct (digits s) as [d' r'] eqn:E. simplify_eq/=. by rewrite (IH _ _ eq_refl).
Qed.

Lemma scan_int_len s i r : scan_int s = Some (i, r) → (len r < len s)%nat.
Proof.
  unfold scan_int. intros Hs.
  assert ((match digits s with (EmptyString, _) => None | p => Some p end) = Some (i, r) →
    (len r < len s)%nat) as Hd.
  { destruct (digits s) as [[|c d] r'] eqn:E; [done|]. intros [= <- <-]. apply digits_len in E. simpl in E. lia. }
  destruct s as [|a s]; [done|]. destruct (decide (a = "0"%char)) as [->|Ha].
  - simplify_eq. simpl. lia.
  - apply Hd. destruct a as [[] [] [] [] [] [] [] []]; try done.
Qed.

Lemma scan_frac_len s f r : scan_frac s = Some (f, r) → (len r ≤ len s)%nat.
Proof.
  unfold scan_frac. intros Hs. destruct s as [|a s]; [by simplify_eq|].
  destruct (decide (a = "."%char)) as [->|Ha].
  - destruct (digits s) as [[|c d] r'] eqn:E; [done|]. simplify_eq. apply digits_len in E. simpl in *. lia.
  - destruct a as [[] [] [] [] [] [] [] []]; try done; by simplify_eq.
Qed.

Lemma scan_exp_len s e r : scan_exp s = Some (e, r) → (len r ≤ len s)%nat.
Proof.
  unfold scan_exp. intros Hs. destruct s as [|a s]; [by simplify_eq|].
  case_bool_decide; [|by simplify_eq].
  assert (∀ sg s', (len s' ≤ len s)%nat →
    (match digits s' with (EmptyString, _) => None | (d, r) => Some (String a (sg +:+ d), r) end) = Some (e, r) →
    (len r ≤ len (String a s))%nat) as Hd.
  { intros sg s' Hl. destruct (digits s') as [[|c d] r'] eqn:E; [done|]. intros [= _ <-].
    apply digits_len in E. simpl in *. lia. }
  destruct s as [|b s]; [by eapply Hd in Hs|]. case_bool_decide; (eapply Hd in Hs; [done|]); simpl; lia.
Qed.

Lemma scan_number_len s t r : scan_number s = Some (t, r) → (len r < len s)%nat.
Proof.
  unfold scan_number. intros Hs.
  destruct (match s with String "-" r => ("-"%string, r) | _ => (EmptyString, s) end) as [neg s1] eqn:E.
  assert (len s1 ≤ len s)%nat.
  { destruct s as [|a s]; [by simplify_eq|]. destruct (decide (a = "-"%char)) as [->|].
    - simplify_eq. simpl. lia.
    - destruct a as [[] [] [] [] [] [] [] []]; try done; by simplify_eq. }
  apply bind_Some in Hs as ([i s2] & H1 & Hs). apply bind_Some in Hs as ([f s3] & H2 & Hs).
  apply bind_Some in Hs as ([e s4] & H3 & Hs). simplify_eq.
  apply scan_int_len in H1. apply scan_frac_len in H2. apply scan_exp_len in H3. lia.
Qed.

Lemma scan_literal_len s v r : scan_literal s = Some (v, r) → (len r < len s)%nat.
Proof.
  unfold scan_literal. destruct (filter _ literals) as [|[w v'] l] eqn:E; [done|]. intros [= _ <-].
  assert ((w, v') ∈ filter (λ l, has_prefix s l.1 = true) literals) as [Hp Hin]%list_elem_of_filter
    by (rewrite E; left).
  assert (∀ n s', (0 < n)%nat → (0 < len s')%nat → (len (drop_str n s') < len s')%nat) as Hdrop.
  { intros [|n] [|a s'] Hn Hl; simpl in *; try lia. pose proof (drop_str_len n s'). lia. }
  unfold literals in Hin. rewrite !elem_of_cons in Hin.
  destruct Hin as [Hin|[Hin|[Hin|Hin%not_elem_of_nil]]]; simplify_eq;
    (apply Hdrop; [simpl; lia|]); destruct s; simpl in *; try done; lia.
Qed.

Definition fine {A} (ok : Prop) (s : string) (r : result parse_error (A * string)) : Prop :=
  (ok → r ≠ Err OutOfFuel) ∧ ∀ v rest, r = Ok (v, rest) → (len rest < len s)%nat.

Lemma fine_bind {A B} (ok ok' : Prop) s s' (r : result parse_error (A * string))
    (k : A * string → result parse_error (B * string)) :
  fine ok s r → (ok' → ok) → (len s ≤ len s')%nat →
  (∀ v rest, (len rest < len s)%nat → fine ok' s' (k (v, rest))) → fine ok' s' (r ≫= k).
Proof.
  intros [H1 H2] Hok Hl Hk. destruct r as [[v rest]|e]; simpl.
  - apply Hk. by eapply H2.
  - split; [|done]. intros Ho ?. apply H1; [auto|congruence].
Qed.

Lemma fine_option {A} ok s (o : option (A * string)) :
  (∀ v r, o = Some (v, r) → (len r < len s)%nat) → fine ok s (of_option o).
Proof. intros Ho. destruct o as [[v r]|]; split; try done. simpl. intros ? ? [= <- <-]. by eapply Ho. Qed.

Lemma fine_Ok {A} ok s (v : A) rest : (len rest < len s)%nat → fine ok s (Ok (v, rest)).
Proof. intros Hl. split; [done|]. by intros ? ? [= <- <-]. Qed.

Lemma fine_Err {A} ok s : fine (A:=A) ok s (Err Syntax).
Proof. by split. Qed.

Lemma value_fine fuel :
  (∀ d s, fine (2 * len s + 1 ≤ fuel)%nat s (value fuel d s)) ∧
  (∀ d s, fine (2 * len s + 2 ≤ fuel)%nat s (elements fuel d s)) ∧
  (∀ d s, fine (2 * len s + 2 ≤ fuel)%nat s (members fuel d s)).
Proof.
  induction fuel as [|fuel (IHv & IHe & IHm)].
  { split_and!; intros d s; (split; [lia|done]). }
  split_and!; intros d s.
  - destruct s as [|a s1]; [apply fine_Err|]. cbn [value].
    pose proof (skip_ws_len s1) as Hws.
    case_bool_decide.
    { eapply (fine_bind True _ s1); [|done|simpl; lia|intros v r Hr; apply fine_Ok; simpl; lia].
      apply fine_option. intros v r. apply scan_string_len. }
    case_bool_decide.
    { case_bool_decide; [apply fine_Err|].
      assert (fine (2 * len (String a s1) + 1 ≤ S fuel)%nat (String a s1)
        ('(ms, rest) ← members fuel (d + 1) (skip_ws s1); Ok (JObj ms, rest))) as Hm.
      { eapply fine_bind; [apply IHm|simpl; lia|simpl; lia|]. intros v r Hr. apply fine_Ok. simpl; lia. }
      destruct (skip_ws s1) as [|b s2]; [exact Hm|].
      destruct (decide (b = "}"%char)) as [->|].
      - apply fine_Ok. simpl in *; lia.
      - destruct b as [[] [] [] [] [] [] [] []]; done. }
    case_bool_decide.
    { case_bool_decide; [apply fine_Err|].
      assert (fine (2 * len (String a s1) + 1 ≤ S fuel)%nat (String a s1)
        ('(es, rest) ← elements fuel (d + 1) (skip_ws s1); Ok (JArr es, rest))) as Hm.
      { eapply fine_bind; [apply IHe|simpl; lia|simpl; lia|]. intros v r Hr. apply fine_Ok. simpl; lia. }
      destruct (skip_ws s1) as [|b s2]; [exact Hm|].
      destruct (decide (b = "]"%char)) as [->|].
      - apply fine_Ok. simpl in *; lia.
      - destruct b as [[] [] [] [] [] [] [] []]; done. }
    case_match.
    + eapply (fine_bind True _ (String a s1)); [|done|done|intros v r Hr; apply fine_Ok; lia].
      apply fine_option. intros v r. apply scan_number_len.
    + apply fine_option. intros v r. apply scan_literal_len.
  - cbn [elements]. eapply fine_bind; [apply IHv|simpl; lia|done|]. intros v rest Hr. cbn beta zeta.
    pose proof (skip_ws_len rest) as Hws. destruct (skip_ws rest) as [|b s2]; [apply fine_Err|]. simpl in Hws.
    pose proof (skip_ws_len s2).
    assert (fine (2 * len s + 2 ≤ S fuel)%nat s
      ('(es, rest0) ← elements fuel d (skip_ws s2); Ok ((v, consumed s rest) :: es, rest0))) as Hm.
    { eapply fine_bind; [apply IHe|lia|lia|]. intros v' r Hr'. apply fine_Ok. lia. }
    destruct b as [[] [] [] [] [] [] [] []]; try apply fine_Err; [apply fine_Ok; lia|exact Hm].
  - cbn [members]. destruct s as [|a s1]; [apply fine_Err|]. case_bool_decide; [|apply fine_Err].
    eapply (fine_bind True _ s1); [|done|simpl; lia|].
    { apply fine_option. intros v r. apply scan_string_len. }
    intros key rest Hr. pose proof (skip_ws_len rest) as Hws.
    destruct (skip_ws rest) as [|c s2]; [apply fine_Err|]. simpl in Hws.
    pose proof (skip_ws_len s2).
    assert (fine (2 * len (String a s1) + 2 ≤ S fuel)%nat (String a s1)
      (let s3 := skip_ws s2 in
       '(v, rest) ← value fuel d s3;
       let m := (key, (v, consumed s3 rest)) in
       match skip_ws rest with
       | String "," rest => '(ms, rest) ← members fuel d (skip_ws rest); Ok (m :: ms, rest)
       | String "}" rest => Ok ([m], rest)
       | _ => Err Syntax
       end)) as Hm; [|by destruct c as [[] [] [] [] [] [] [] []]; try apply fine_Err].
    cbn zeta. eapply fine_bind; [apply IHv|simpl; lia|simpl; lia|]. intros v r Hr'. cbn zeta.
    pose proof (skip_ws_len r) as Hws3. destruct (skip_ws r) as [|b s3]; [apply fine_Err|]. simpl in Hws3.
    pose proof (skip_ws_len s3).
    assert (fine (2 * len (String a s1) + 2 ≤ S fuel)%nat (String a s1)
      ('(ms, rest0) ← members fuel d (skip_ws s3); Ok ((key, (v, consumed (skip_ws s2) r)) :: ms, rest0))) as Hm.
    { eapply fine_bind; [apply IHm|simpl; lia|simpl; lia|]. intros v' r' Hr''. apply fine_Ok. simpl; lia. }
    destruct b as [[] [] [] [] [] [] [] []]; try apply fine_Err; [apply fine_Ok; simpl; lia|exact Hm].
Qed.

(** Parsing always answers: a document is accepted or refused, never undecided. *)
Lemma parse_total s : parse s ≠ Err OutOfFuel.
Proof.
  unfold parse. destruct (value_fine (2 * len (skip_ws s) + 2)) as (Hv & _ & _).
  destruct (Hv 0 (skip_ws s)) as [H _]. destruct (value _ _ _) as [[v rest]|e]; simpl.
  - by destruct (skip_ws rest).
  - intros ?. apply H; [lia|congruence].
Qed.
End fuel.
