(* ===== verification/JsonStream.v ===== *)
(** * A streaming JSON decoder: [json.Decoder]'s [Token], [More] and [Decode]

    The decoder is what is left to read and the token state that says which
    punctuation comes next.  [Decode] reads one value with the parser of [Json];
    the lemmas say that a value read on its own is the value read in front of
    more text, which relates what was written to what is read. *)
From S2P Require Import Prelude Json.

Open Scope Z_scope.
Open Scope string_scope.

Inductive token_state := TopValue | ArrayStart | ArrayValue | ArrayComma
  | ObjectStart | ObjectKey | ObjectColon | ObjectValue | ObjectComma.

Record decoder := Dec { d_in : string; d_state : token_state; d_stack : list token_state }.

Inductive token := Delim (c : ascii) | StrTok (s : string) | OtherTok.

Definition NewDecoder (body : string) : decoder := Dec body TopValue [].

(** [peek] skips white space; at the end of the input it fails. *)
Definition peek (d : decoder) : option (ascii * string) :=
  match skip_ws (d_in d) with String a s => Some (a, s) | EmptyString => None end.

Definition More (d : decoder) : bool :=
  match peek d with
  | Some (c, _) => negb (bool_decide (c ∈ ["]"; "}"]%char))
  | None => false
  end.

Definition value_allowed (t : token_state) : bool :=
  match t with TopValue | ArrayStart | ArrayValue | ObjectValue => true | _ => false end.
Definition value_end (t : token_state) : token_state :=
  match t with
  | ArrayStart | ArrayValue => ArrayComma
  | ObjectValue => ObjectComma
  | t => t
  end.

(** One value, as value and raw text, and what follows it. *)
Definition read_value (s : string) : option (json * string * string) :=
  let s := skip_ws s in
  match value (2 * String.length s + 2) 0 s with
  | Ok (v, rest) => Some (v, consumed s rest, rest)
  | Err _ => None
  end.

Definition Decode (d : decoder) : option (json * string * decoder) :=
  '(s, st) ← (match d_state d, peek d with
              | ArrayComma, Some (",", s) => Some (s, ArrayValue)
              | ObjectColon, Some (":", s) => Some (s, ObjectValue)
              | (ArrayComma | ObjectColon), _ => None
              | st, _ => Some (d_in d, st)
              end)%char;
  if value_allowed st then
    '(v, raw, rest) ← read_value s; Some (v, raw, Dec rest (value_end st) (d_stack d))
  else None.

(** What closing a bracket leaves. *)
Definition pop (s : string) (stack : list token_state) : option decoder :=
  match stack with
  | st :: stack => Some (Dec s (value_end st) stack)
  | [] => None
  end.

(** [Token] once a separator has been passed. *)
Definition token_at (st : token_state) (d : decoder) : option (token * decoder) :=
  '(c, s) ← peek d;
  if bool_decide (c = "[")%char then
    if value_allowed st then Some (Delim c, Dec s ArrayStart (st :: d_stack d)) else None
  else if bool_decide (c = "]")%char then
    match st with ArrayStart | ArrayComma => d' ← pop s (d_stack d); Some (Delim c, d') | _ => None end
  else if bool_decide (c = "{")%char then
    if value_allowed st then Some (Delim c, Dec s ObjectStart (st :: d_stack d)) else None
  else if bool_decide (c = "}")%char then
    match st with ObjectStart | ObjectComma => d' ← pop s (d_stack d); Some (Delim c, d') | _ => None end
  else if bool_decide (c = quote) && match st with ObjectStart | ObjectKey => true | _ => false end then
    '(v, _, rest) ← read_value (d_in d);
    match v with JStr raw => Some (StrTok (unquote raw), Dec rest ObjectColon (d_stack d)) | _ => None end
  else if value_allowed st then
    '(v, _, rest) ← read_value (d_in d);
    Some (match v with JStr raw => StrTok (unquote raw) | _ => OtherTok end, Dec rest (value_end st) (d_stack d))
  else None.

(** [Token] passes the one separator its state expects. *)
Definition Token (d : decoder) : option (token * decoder) :=
  match d_state d, peek d with
  | ObjectColon, Some (":", s) => token_at ObjectValue (Dec s ObjectValue (d_stack d))
  | ArrayComma, Some (",", s) => token_at ArrayValue (Dec s ArrayValue (d_stack d))
  | ObjectComma, Some (",", s) => token_at ObjectKey (Dec s ObjectKey (d_stack d))
  | st, Some ((":" | ",")%char, _) => None
  | st, _ => token_at st d
  end%char.

(** ** Reading a value whatever follows it

    What a scanner reads depends on the text it consumes only: the rest can be
    exchanged for any other.  A number also looks at the byte after it. *)
Section swap.
Notation len := String.length.
Implicit Types (s t r c : string).

Lemma skip_ws_split s : ∃ ws, s = ws +:+ skip_ws s ∧ skip_ws ws = "" ∧ ∀ t, skip_ws (ws +:+ t) = skip_ws t.
Proof.
  induction s as [|a s (ws & Hs & Hw & Ht)]; [by exists ""|]. cbn [skip_ws]. destruct (is_ws a) eqn:E.
  - exists (String a ws). rewrite app_cons, <-Hs. cbn [skip_ws]. rewrite E. split_and!; [done..|].
    intros t. rewrite app_cons. cbn [skip_ws]. by rewrite E.
  - by exists "".
Qed.

Lemma skip_ws_idem s : skip_ws (skip_ws s) = skip_ws s.
Proof. induction s as [|a s IH]; [done|]. cbn [skip_ws]. destruct (is_ws a) eqn:E; [done|]. cbn. by rewrite E. Qed.

Lemma skip_ws_blank ws t : skip_ws ws = "" → skip_ws (ws +:+ t) = skip_ws t.
Proof. induction ws as [|a ws IH]; [done|]. rewrite app_cons. cbn [skip_ws]. by destruct (is_ws a). Qed.

(** White space up to a byte that stays. *)
Lemma skip_ws_to s a r : skip_ws s = String a r →
  ∃ ws, s = ws +:+ String a r ∧ ∀ t, skip_ws (ws +:+ String a t) = String a t.
Proof.
  intros E. destruct (skip_ws_split s) as (ws & Hs & Hw & Ht). exists ws. rewrite E in Hs.
  split; [done|]. intros t. rewrite Ht. pose proof (skip_ws_idem s) as Hi. rewrite E in Hi. cbn [skip_ws] in Hi |- *.
  destruct (is_ws a); [|done]. exfalso. pose proof (skip_ws_len r). rewrite Hi in H. simpl in H. lia.
Qed.

Definition head_byte s : option ascii := match s with String a _ => Some a | EmptyString => None end.
(** [t] may stand for [r] after a number. *)
Definition like_rest r t : Prop := t = "" ∨ head_byte t = head_byte r.

Lemma scan_string_swap s raw r : scan_string s = Some (raw, r) →
  ∃ c, s = c +:+ r ∧ ∀ t, scan_string (c +:+ t) = Some (raw, t).
Proof.
  assert (∀ n s raw r, (len s ≤ n)%nat → scan_string s = Some (raw, r) →
    ∃ c, s = c +:+ r ∧ ∀ t, scan_string (c +:+ t) = Some (raw, t)) as H; [|by eapply H].
  clear. induction n as [|n IH]; intros [|a s] raw r Hn Hs; simpl in Hn; try lia; try done.
  cbn [scan_string] in Hs. case_bool_decide as H1.
  { simplify_eq. exists (String quote ""). split; [done|]. done. }
  case_bool_decide as H2; [done|]. case_bool_decide as H3.
  - destruct s as [|e s]; [done|]. case_bool_decide as H4.
    + destruct s as [|h1 [|h2 [|h3 [|h4 s]]]]; try done. destruct (_ && is_hex h4) eqn:Eh; [|done].
      destruct (scan_string s) as [[x y]|] eqn:E; [|done]. simplify_eq/=.
      destruct (IH s x r) as (c & -> & Hc); [lia|done|].
      exists (String backslash (String "u" (String h1 (String h2 (String h3 (String h4 c)))))). split; [done|].
      intros t. rewrite !app_cons. cbn [scan_string].
      rewrite !bool_decide_false, !bool_decide_true by done. by rewrite Eh, Hc.
    + case_bool_decide as H5; [|done]. destruct (scan_string s) as [[x y]|] eqn:E; [|done]. simplify_eq/=.
      destruct (IH s x r) as (c & -> & Hc); [lia|done|].
      exists (String backslash (String e c)). split; [done|]. intros t. rewrite !app_cons. cbn [scan_string].
      rewrite (bool_decide_false (backslash = quote)), (bool_decide_false (_ < 32)), (bool_decide_true (backslash = backslash)),
        (bool_decide_false (e = "u"%char)), bool_decide_true by done. by rewrite Hc.
  - destruct (scan_string s) as [[x y]|] eqn:E; [|done]. simplify_eq/=.
    destruct (IH s x r) as (c & -> & Hc); [lia|done|].
    exists (String a c). split; [done|]. intros t. rewrite !app_cons. cbn [scan_string].
    rewrite !bool_decide_false by done. by rewrite Hc.
Qed.

Lemma digits_swap s d r : digits s = (d, r) → s = d +:+ r ∧ ∀ t, like_rest r t → digits (d +:+ t) = (d, t).
Proof.
  revert d r. induction s as [|a s IH]; intros d r Hd; simpl in Hd.
  { simplify_eq. split; [done|]. intros t [->|Ht]; [done|]. by destruct t. }
  destruct (is_digit a) eqn:Ea.
  - destruct (digits s) as [d' r']. simplify_eq. destruct (IH d' r eq_refl) as [-> Ht]. split; [done|].
    intros t Hl. rewrite app_cons. simpl. by rewrite Ea, Ht.
  - simplify_eq. split; [done|]. intros t [->|Hl]; [done|]. destruct t as [|b t]; [done|]. simpl in Hl. simplify_eq.
    simpl. by rewrite Ea.
Qed.

Definition swaps (f : string → option (string * string)) s x r : Prop :=
  s = x +:+ r ∧ ∀ t, like_rest r t → f (x +:+ t) = Some (x, t).

Lemma scan_int_swap s i r : scan_int s = Some (i, r) → i ≠ "" ∧ swaps scan_int s i r.
Proof.
  unfold scan_int, swaps. intros Hs.
  assert (∀ s', (match digits s' with (EmptyString, _) => None | p => Some p end) = Some (i, r) →
    i ≠ "" ∧ s' = i +:+ r ∧ ∀ t, like_rest r t →
    (match digits (i +:+ t) with (EmptyString, _) => None | p => Some p end) = Some (i, t)) as Hd.
  { intros s' E. destruct (digits s') as [[|b d] r'] eqn:Ed; [done|]. simplify_eq.
    apply digits_swap in Ed as [-> Ht]. split_and!; [done..|]. intros t Hl. by rewrite Ht. }
  destruct s as [|a s]; [done|]. destruct (decide (a = "0"%char)) as [->|Ha].
  { by simplify_eq. }
  assert ((match digits (String a s) with (EmptyString, _) => None | p => Some p end) = Some (i, r)) as Hs'
    by (destruct a as [[] [] [] [] [] [] [] []]; done).
  destruct (Hd _ Hs') as (Hi & Hsr & Ht). split_and!; [done..|]. intros t Hl. specialize (Ht t Hl).
  destruct i as [|b i]; [done|]. rewrite app_cons in *. injection Hsr as -> _.
  destruct b as [[] [] [] [] [] [] [] []]; done.
Qed.

Lemma scan_frac_swap s i r : scan_frac s = Some (i, r) → swaps scan_frac s i r.
Proof.
  unfold scan_frac, swaps. intros Hs. destruct s as [|a s].
  { simplify_eq. split; [done|]. intros t [->|Hl]; [done|]. by destruct t. }
  destruct (decide (a = "."%char)) as [->|Ha].
  - destruct (digits s) as [[|b d] r'] eqn:Ed; [done|]. simplify_eq. apply digits_swap in Ed as [-> Ht].
    split; [done|]. intros t Hl. rewrite app_cons. by rewrite Ht.
  - assert (i = "" ∧ r = String a s) as [-> ->] by (destruct a as [[] [] [] [] [] [] [] []]; by simplify_eq).
    split; [done|]. intros t [->|Hl]; [done|]. destruct t as [|b t]; [done|]. simpl in Hl. simplify_eq.
    destruct a as [[] [] [] [] [] [] [] []]; done.
Qed.

Lemma scan_exp_swap s i r : scan_exp s = Some (i, r) → swaps scan_exp s i r.
Proof.
  unfold scan_exp, swaps. intros Hs. destruct s as [|a s].
  { simplify_eq. split; [done|]. intros t [->|Hl]; [done|]. by destruct t. }
  case_bool_decide as Ha.
  - destruct s as [|b s]; [done|]. case_bool_decide as Hb.
    + destruct (digits s) as [[|z d] r'] eqn:Ed; [done|]. simplify_eq. apply digits_swap in Ed as [-> Ht].
      split; [done|]. intros t Hl. rewrite !app_cons. rewrite !bool_decide_true by done.
      change (("" +:+ String z d) +:+ t) with (String z d +:+ t). by rewrite (Ht t Hl).
    + destruct (digits (String b s)) as [[|z d] r'] eqn:Ed; [done|]. simplify_eq.
      apply digits_swap in Ed as [Hs Ht]. split; [by rewrite Hs|]. intros t Hl.
      rewrite app_cons in Hs. injection Hs as -> ->.
      change (String a ("" +:+ String z d) +:+ t) with (String a (String z (d +:+ t))). cbn beta iota.
      case_bool_decide; [|done]. case_bool_decide; [done|].
      pose proof (Ht t Hl) as E. rewrite app_cons in E. by rewrite E.
  - simplify_eq. split; [done|]. intros t [->|Hl]; [done|]. destruct t as [|b t]; [done|]. simpl in Hl. simplify_eq.
    simpl. by rewrite bool_decide_false.
Qed.

Lemma like_rest_app x y t : y ≠ "" → like_rest (x +:+ y) (x +:+ t) ∨ x = "".
Proof. destruct x as [|a x]; [by right|]. left. by right. Qed.

(** What follows [x] when [x] is exchanged for nothing else. *)
Lemma like_rest_keep x r t : like_rest r t → like_rest (x +:+ r) (x +:+ t).
Proof. destruct x as [|a x]; [done|]. by right. Qed.

Lemma scan_number_swap s tok r : scan_number s = Some (tok, r) → tok ≠ "" ∧ swaps scan_number s tok r.
Proof.
  unfold scan_number, swaps. intros Hs.
  set (sign := λ s, match s with String "-" r => ("-", r) | _ => ("", s) end) in *.
  change (match s with String "-" r => ("-", r) | _ => ("", s) end) with (sign s) in Hs.
  assert (s = (sign s).1 +:+ (sign s).2 ∧ ∀ x, x ≠ "" → like_rest (sign s).2 x →
    sign ((sign s).1 +:+ x) = ((sign s).1, x)) as [Hsg Hx].
  { destruct s as [|a s].
    - split; [done|]. intros x Hne [->|Hh]; [done|]. by destruct x.
    - destruct (decide (a = "-"%char)) as [->|Ha]; [done|].
      assert (sign (String a s) = ("", String a s)) as -> by (destruct a as [[] [] [] [] [] [] [] []]; done).
      split; [done|]. intros x Hne [->|Hh]; [done|]. destruct x as [|b x]; [done|]. simpl in Hh. simplify_eq.
      destruct a as [[] [] [] [] [] [] [] []]; done. }
  destruct (sign s) as [neg s1] eqn:E. cbn [fst snd] in Hsg, Hx.
  apply bind_Some in Hs as ([i s2] & H1 & Hs). apply bind_Some in Hs as ([f s3] & H2 & Hs).
  apply bind_Some in Hs as ([e s4] & H3 & Hs). simplify_eq.
  apply scan_int_swap in H1 as (Hi & -> & H1). apply scan_frac_swap in H2 as (-> & H2).
  apply scan_exp_swap in H3 as (-> & H3).
  split; [by destruct neg, i|]. split; [by rewrite !app_assoc_str|]. intros t Hl.
  rewrite <-!app_assoc_str.
  change (match neg +:+ (i +:+ (f +:+ (e +:+ t))) with String "-" r => ("-", r)
    | _ => ("", neg +:+ (i +:+ (f +:+ (e +:+ t)))) end) with (sign (neg +:+ (i +:+ (f +:+ (e +:+ t))))).
  rewrite Hx; [|by destruct i|by do 3 apply like_rest_keep].
  rewrite H1 by (by do 2 apply like_rest_keep). cbn [mbind option_bind].
  rewrite H2 by (by apply like_rest_keep). cbn [mbind option_bind]. by rewrite H3.
Qed.

Lemma scan_literal_swap s v r : scan_literal s = Some (v, r) →
  ∃ c, c ≠ "" ∧ s = c +:+ r ∧ ∀ t, scan_literal (c +:+ t) = Some (v, t).
Proof.
  assert (∀ w s, has_prefix s w = true → s = w +:+ drop_str (len w) s) as Hp.
  { induction w as [|a w IH]; intros s' Hs; [by destruct s'|]. destruct s' as [|b s']; [done|]. simpl in Hs.
    apply andb_true_iff in Hs as [->%bool_decide_eq_true Hs]. rewrite app_cons. simpl. f_equal. by apply IH. }
  intros Hs. unfold scan_literal in Hs. destruct (filter _ literals) as [|[w v'] l] eqn:E; [done|].
  simplify_eq. assert ((w, v) ∈ filter (λ l, has_prefix s l.1 = true) literals) as [Hw Hin]%list_elem_of_filter
    by (rewrite E; left).
  exists w. pose proof (Hp w s Hw) as Hsw. unfold literals in Hin. rewrite !elem_of_cons in Hin.
  destruct Hin as [Hin|[Hin|[Hin|Hin%not_elem_of_nil]]]; simplify_eq;
    (split_and!; [done|done|]); intros t; by destruct t.
Qed.

Lemma consumed_exact c t : consumed (c +:+ t) t = c.
Proof.
  unfold consumed. rewrite app_len. replace (len c + len t - len t)%nat with (len c) by lia.
  induction c as [|a c IH]; [by destruct t|]. rewrite app_cons. simpl. by rewrite IH.
Qed.

Definition starts_number s : Prop :=
  match s with String a _ => is_digit a = true ∨ a = "-"%char | EmptyString => False end.

Lemma of_option_Ok {A} (o : option A) x : of_option o = Ok x ↔ o = Some x.
Proof. destruct o; naive_solver. Qed.

(** What a scanner consumes, exchanging the rest. *)
Definition reads {A} (ok : string → Prop) (f : string → result parse_error (A * string)) s (v : A) r : Prop :=
  ∃ c, c ≠ "" ∧ s = c +:+ r ∧ ∀ t, ok t → f (c +:+ t) = Ok (v, t).

Definition any_rest (t : string) : Prop := True.
Definition value_rest s r (t : string) : Prop := starts_number s → like_rest r t.

(** White space, then something that reads. *)
Lemma reads_ws {A} (f : string → result parse_error (A * string)) s v r :
  reads any_rest f (skip_ws s) v r → skip_ws s ≠ "" →
  ∃ b c, s = c +:+ r ∧ head_byte (skip_ws s) = Some b ∧
    ∀ t, ∃ x, skip_ws (c +:+ t) = String b x ∧ f (String b x) = Ok (v, t).
Proof.
  intros (c & Hc & Hs & Ht) Hne. destruct (skip_ws s) as [|b s2] eqn:E; [done|].
  apply skip_ws_to in E as (ws & -> & Hw). destruct c as [|b' c]; [done|].
  rewrite app_cons in Hs. injection Hs as -> ->.
  exists b', (ws +:+ String b' c). split; [by rewrite <-app_cons, app_assoc_str|]. split; [done|].
  intros t. exists (c +:+ t). rewrite <-app_assoc_str, app_cons. split; [apply Hw|]. rewrite <-app_cons. by apply Ht.
Qed.

Lemma value_mono fuel :
  (∀ d s f', value fuel d s ≠ Err OutOfFuel → (fuel ≤ f')%nat → value f' d s = value fuel d s) ∧
  (∀ d s f', elements fuel d s ≠ Err OutOfFuel → (fuel ≤ f')%nat → elements f' d s = elements fuel d s) ∧
  (∀ d s f', members fuel d s ≠ Err OutOfFuel → (fuel ≤ f')%nat → members f' d s = members fuel d s).
Proof.
  assert (∀ {A B} (m m' : result parse_error A) (k k' : A → result parse_error B),
    (m ≠ Err OutOfFuel → m' = m) → (∀ a, k a ≠ Err OutOfFuel → k' a = k a) →
    (m ≫= k) ≠ Err OutOfFuel → (m' ≫= k') = (m ≫= k)) as Hbind.
  { intros A B m m' k k' Hm Hk Hne. destruct m as [a|e]; simpl in *.
    - rewrite Hm by done. by apply Hk.
    - by rewrite Hm by (by intros [= ->]). }
  induction fuel as [|fuel (IHv & IHe & IHm)]; [by split_and!|].
  split_and!; intros d s f' Hne Hf; (destruct f' as [|f']; [lia|]).
  - cbn [value] in *. destruct s as [|a s]; [done|]. case_bool_decide; [done|]. case_bool_decide.
    { case_bool_decide; [done|]. destruct (skip_ws s) as [|b s2].
      { apply Hbind; [|by intros []|done]. intros Hx. apply IHm; [done|lia]. }
      destruct b as [[] [] [] [] [] [] [] []]; try done;
      (apply Hbind; [intros Hx; apply IHm; [done|lia]|by intros []|done]). }
    case_bool_decide; [|done].
    case_bool_decide; [done|]. destruct (skip_ws s) as [|b s2].
    { apply Hbind; [|by intros []|done]. intros Hx. apply IHe; [done|lia]. }
    destruct b as [[] [] [] [] [] [] [] []]; try done;
      (apply Hbind; [intros Hx; apply IHe; [done|lia]|by intros []|done]).
  - cbn [elements] in *. apply Hbind; [|clear Hne|done].
    { intros Hx. apply IHv; [done|lia]. }
    intros [v rest] Hne. cbn zeta in *. destruct (skip_ws rest) as [|b s2]; [done|].
    destruct b as [[] [] [] [] [] [] [] []]; try done.
    apply Hbind; [|by intros []|done]. intros Hx. apply IHe; [done|lia].
  - cbn [members] in *. destruct s as [|a s]; [done|]. case_bool_decide; [|done].
    apply Hbind; [done|clear Hne|done]. intros [key rest] Hne. destruct (skip_ws rest) as [|b s2]; [done|].
    destruct b as [[] [] [] [] [] [] [] []]; try done. cbn zeta in *.
    apply Hbind; [|clear Hne|done]. { intros Hx. apply IHv; [done|lia]. }
    intros [v rest1] Hne. cbn zeta in *. destruct (skip_ws rest1) as [|b s3]; [done|].
    destruct b as [[] [] [] [] [] [] [] []]; try done.
    apply Hbind; [|by intros []|done]. intros Hx. apply IHm; [done|lia].
Qed.

(** The bracketed forms. *)
Lemma object_eq fuel d b s2 : b ≠ "}"%char →
  (match String b s2 with
   | String "}" rest => Ok (JObj [], rest)
   | s3 => '(ms, rest) ← members fuel d s3; Ok (JObj ms, rest)
   end) = ('(ms, rest) ← members fuel d (String b s2); Ok (JObj ms, rest)).
Proof. by destruct b as [[] [] [] [] [] [] [] []]. Qed.
Lemma array_eq fuel d b s2 : b ≠ "]"%char →
  (match String b s2 with
   | String "]" rest => Ok (JArr [], rest)
   | s3 => '(es, rest) ← elements fuel d s3; Ok (JArr es, rest)
   end) = ('(es, rest) ← elements fuel d (String b s2); Ok (JArr es, rest)).
Proof. by destruct b as [[] [] [] [] [] [] [] []]. Qed.

Lemma members_nonempty fuel d s x : members fuel d s = Ok x → s ≠ "".
Proof. intros Hm ->. by destruct fuel. Qed.
Lemma elements_nonempty fuel d s x : elements fuel d s = Ok x → s ≠ "".
Proof. intros He ->. by destruct fuel as [|[|fuel]]. Qed.
Lemma value_nonempty fuel d s x : value fuel d s = Ok x → s ≠ "".
Proof. intros Hv ->. by destruct fuel. Qed.

(** A value, then white space and a separator. *)
Lemma reads_then fuel d s v rest b s2 :
  reads (value_rest s rest) (value fuel d) s v rest → skip_ws rest = String b s2 →
  ∃ c ws, c ≠ "" ∧ s = c +:+ (ws +:+ String b s2) ∧ rest = ws +:+ String b s2 ∧
    ∀ t, value fuel d (c +:+ (ws +:+ String b t)) = Ok (v, ws +:+ String b t) ∧
         skip_ws (ws +:+ String b t) = String b t.
Proof.
  intros (c & Hc & -> & Ht) E. apply skip_ws_to in E as (ws & -> & Hw).
  exists c, ws. split_and!; [done..|]. intros t. split; [|apply Hw]. apply Ht. intros _.
  destruct ws as [|a ws]; by right.
Qed.

Lemma value_swap fuel :
  (∀ d s v r, value fuel d s = Ok (v, r) → reads (value_rest s r) (value fuel d) s v r) ∧
  (∀ d s v r, elements fuel d s = Ok (v, r) → reads any_rest (elements fuel d) s v r) ∧
  (∀ d s v r, members fuel d s = Ok (v, r) → reads any_rest (members fuel d) s v r).
Proof.
  induction fuel as [|fuel (IHv & IHe & IHm)]; [done|].
  split_and!; intros d s v r Hr.
  - destruct s as [|a s]; [done|]. cbn [value] in Hr. unfold reads.
    case_bool_decide as H1.
    { apply result_bind_Ok in Hr as ([raw rest] & Hs%of_option_Ok & Hr). simplify_eq/=.
      apply scan_string_swap in Hs as (c & -> & Hc). exists (String quote c). split_and!; [done..|].
      intros t _. rewrite app_cons. cbn [value]. rewrite bool_decide_true by done. by rewrite Hc. }
    case_bool_decide as H2.
    { case_bool_decide as H3; [done|]. destruct (skip_ws s) as [|b s2] eqn:E.
      { apply result_bind_Ok in Hr as ([ms rest] & Hm%members_nonempty & _). done. }
      destruct (decide (b = "}"%char)) as [->|Hb].
      - simplify_eq. apply skip_ws_to in E as (ws & -> & Hw). exists (String "{" (ws +:+ "}")).
        split_and!; [done|by rewrite app_cons, <-app_assoc_str|]. intros t _.
        rewrite app_cons, <-app_assoc_str. cbn [value]. rewrite bool_decide_false, bool_decide_true by done.
        rewrite bool_decide_false by done. change ("}" +:+ t) with (String "}" t). by rewrite Hw.
      - rewrite object_eq in Hr by done. apply result_bind_Ok in Hr as ([ms rest] & Hm & Hr). simplify_eq.
        apply IHm in Hm. rewrite <-E in Hm. apply reads_ws in Hm as (b' & c & -> & Hhd & Ht); [|by rewrite E].
        rewrite E in Hhd. simplify_eq/=. exists (String "{" c). split_and!; [done..|]. intros t _.
        rewrite app_cons. cbn [value]. rewrite bool_decide_false, bool_decide_true by done.
        rewrite bool_decide_false by done. destruct (Ht t) as (x & -> & Hx).
        rewrite object_eq by done. by rewrite Hx. }
    case_bool_decide as H3.
    { case_bool_decide as H4; [done|]. destruct (skip_ws s) as [|b s2] eqn:E.
      { apply result_bind_Ok in Hr as ([ms rest] & Hm%elements_nonempty & _). done. }
      destruct (decide (b = "]"%char)) as [->|Hb].
      - simplify_eq. apply skip_ws_to in E as (ws & -> & Hw). exists (String "[" (ws +:+ "]")).
        split_and!; [done|by rewrite app_cons, <-app_assoc_str|]. intros t _.
        rewrite app_cons, <-app_assoc_str. cbn [value]. rewrite !bool_decide_false, bool_decide_true by done.
        rewrite bool_decide_false by done. change ("]" +:+ t) with (String "]" t). by rewrite Hw.
      - rewrite array_eq in Hr by done. apply result_bind_Ok in Hr as ([ms rest] & Hm & Hr). simplify_eq.
        apply IHe in Hm. rewrite <-E in Hm. apply reads_ws in Hm as (b' & c & -> & Hhd & Ht); [|by rewrite E].
        rewrite E in Hhd. simplify_eq/=. exists (String "[" c). split_and!; [done..|]. intros t _.
        rewrite app_cons. cbn [value]. rewrite !bool_decide_false, bool_decide_true by done.
        rewrite bool_decide_false by done. destruct (Ht t) as (x & -> & Hx).
        rewrite array_eq by done. by rewrite Hx. }
    destruct (is_digit a || bool_decide (a = "-"%char)) eqn:Ea.
    + apply result_bind_Ok in Hr as ([tok rest] & Hs%of_option_Ok & Hr). simplify_eq.
      apply scan_number_swap in Hs as (Hne & Hs & Ht). exists tok. split_and!; [done..|]. intros t Hl.
      destruct tok as [|b tok]; [done|]. rewrite app_cons in Hs. injection Hs as -> ->.
      assert (like_rest r t) as Hlr.
      { apply Hl. cbn. apply orb_true_iff in Ea. by rewrite bool_decide_eq_true in Ea. }
      rewrite app_cons. cbn [value]. rewrite !bool_decide_false by done. rewrite Ea, <-app_cons.
      by rewrite (Ht t Hlr).
    + apply of_option_Ok, scan_literal_swap in Hr as (c & Hne & Hs & Ht). exists c. split_and!; [done..|].
      intros t _. destruct c as [|b c]; [done|]. rewrite app_cons in Hs. injection Hs as -> ->.
      rewrite app_cons. cbn [value]. rewrite !bool_decide_false by done. rewrite Ea, <-app_cons.
      by rewrite Ht.
  - cbn [elements] in Hr. apply result_bind_Ok in Hr as ([v1 rest] & Hv & Hr). cbn zeta in Hr.
    destruct (skip_ws rest) as [|b s2] eqn:E; [done|].
    pose proof (reads_then _ _ _ _ _ _ _ (IHv _ _ _ _ Hv) E) as (c & ws & Hc & Hs & Hrest & Ht).
    rewrite Hs, Hrest, consumed_exact in Hr.
    destruct (decide (b = ","%char)) as [->|Hb].
    + apply result_bind_Ok in Hr as ([es rest'] & He & Hr). simplify_eq.
      pose proof (elements_nonempty _ _ _ _ He) as Hne.
      apply IHe, reads_ws in He as (b' & c' & -> & Hhd & Ht'); [|done].
      exists (c +:+ (ws +:+ String "," c')). split_and!; [by destruct c|by rewrite <-!app_assoc_str|].
      intros t _. rewrite <-!app_assoc_str, app_cons. cbn [elements]. destruct (Ht (c' +:+ t)) as [-> Hw].
      cbn [mbind result_bind]. rewrite consumed_exact, Hw. destruct (Ht' t) as (x & -> & Hx). by rewrite Hx.
    + assert (b = "]"%char ∧ v = [(v1, c)] ∧ r = s2) as (-> & -> & ->).
      { destruct b as [[] [] [] [] [] [] [] []]; simplify_eq/=; done. }
      exists (c +:+ (ws +:+ "]")). split_and!; [by destruct c|by rewrite Hs, <-!app_assoc_str|].
      intros t _. rewrite <-!app_assoc_str. change ("]" +:+ t) with (String "]" t). cbn [elements].
      destruct (Ht t) as [-> Hw]. cbn [mbind result_bind]. by rewrite consumed_exact, Hw.
  - cbn [members] in Hr. destruct s as [|a s]; [done|]. case_bool_decide as Ha; [|done]. subst a.
    apply result_bind_Ok in Hr as ([key rest] & Hs%of_option_Ok & Hr).
    apply scan_string_swap in Hs as (ck & -> & Hk).
    destruct (skip_ws rest) as [|c s2] eqn:E; [done|].
    assert (c = ":"%char) as -> by (destruct c as [[] [] [] [] [] [] [] []]; done).
    apply skip_ws_to in E as (ws1 & -> & Hw1). cbn zeta in Hr.
    apply result_bind_Ok in Hr as ([v1 rest1] & Hv & Hr). cbn zeta in Hr.
    destruct (skip_ws rest1) as [|b s4] eqn:E3; [done|].
    pose proof (reads_then _ _ _ _ _ _ _ (IHv _ _ _ _ Hv) E3) as (c & ws & Hc & Hs & Hrest & Ht).
    rewrite Hs, Hrest, consumed_exact in Hr. clear Hv.
    assert (∃ ws2, s2 = ws2 +:+ (c +:+ (ws +:+ String b s4)) ∧
      ∀ y, skip_ws (ws2 +:+ (c +:+ y)) = c +:+ y) as (ws2 & -> & Hw2).
    { destruct c as [|e c]; [done|]. rewrite app_cons in Hs. apply skip_ws_to in Hs as (ws2 & -> & Hw2).
      exists ws2. split; [done|]. intros y. rewrite app_cons. apply Hw2. }
    destruct (decide (b = ","%char)) as [->|Hb].
    + apply result_bind_Ok in Hr as ([ms rest'] & He & Hr). simplify_eq.
      pose proof (members_nonempty _ _ _ _ He) as Hne.
      apply IHm, reads_ws in He as (b' & c' & -> & Hhd & Ht'); [|done].
      exists (String quote (ck +:+ (ws1 +:+ String ":" (ws2 +:+ (c +:+ (ws +:+ String "," c')))))).
      split_and!; [done|by rewrite ?app_cons, <-!app_assoc_str, ?app_cons, <-!app_assoc_str|].
      intros t _. rewrite app_cons, <-!app_assoc_str, app_cons, <-!app_assoc_str, app_cons. cbn [members].
      rewrite bool_decide_true, Hk by done. cbn [of_option mbind result_bind]. rewrite Hw1. cbn zeta.
      rewrite Hw2. destruct (Ht (c' +:+ t)) as [-> Hw].
      cbn [mbind result_bind]. rewrite consumed_exact, Hw. destruct (Ht' t) as (x & -> & Hx). by rewrite Hx.
    + assert (b = "}"%char ∧ v = [(key, (v1, c))] ∧ r = s4) as (-> & -> & ->).
      { destruct b as [[] [] [] [] [] [] [] []]; simplify_eq/=; done. }
      exists (String quote (ck +:+ (ws1 +:+ String ":" (ws2 +:+ (c +:+ (ws +:+ "}")))))).
      split_and!; [done|by rewrite ?app_cons, <-!app_assoc_str, ?app_cons, <-!app_assoc_str|].
      intros t _. rewrite app_cons, <-!app_assoc_str, app_cons, <-!app_assoc_str.
      change ("}" +:+ t) with (String "}" t). cbn [members].
      rewrite bool_decide_true, Hk by done. cbn [of_option mbind result_bind]. rewrite Hw1. cbn zeta.
      rewrite Hw2. destruct (Ht t) as [-> Hw]. cbn [mbind result_bind]. by rewrite consumed_exact, Hw.
Qed.

Lemma value_any_fuel f1 f2 d s x :
  value f1 d s = Ok x → (2 * len s + 1 ≤ f2)%nat → value f2 d s = Ok x.
Proof.
  intros H1 Hf. destruct (value_mono f1) as (Hm1 & _ & _). destruct (value_mono f2) as (Hm2 & _ & _).
  rewrite <-(Hm2 d s (f1 `max` f2)%nat); [rewrite (Hm1 d s (f1 `max` f2)%nat); [done|by rewrite H1|lia]| |lia].
  destruct (value_fine f2) as (Hv & _ & _). by apply (Hv d s).
Qed.

(** A value that is not a number is read the same from any text that starts with
    its own. *)
Lemma read_value_swap s v raw rest :
  read_value s = Some (v, raw, rest) → ¬ starts_number (skip_ws s) →
  head_byte raw = head_byte (skip_ws s) ∧ skip_ws s = raw +:+ rest ∧
  (∀ t, skip_ws (raw +:+ t) = raw +:+ t ∧ read_value (raw +:+ t) = Some (v, raw, t)).
Proof.
  unfold read_value. intros Hr Hn.
  destruct (value _ 0 (skip_ws s)) as [[v' r]|] eqn:Ev; [|done]. simplify_eq.
  destruct (value_swap (2 * len (skip_ws s) + 2)) as (Hv & _ & _).
  destruct (Hv _ _ _ _ Ev) as (c & Hc & Hs & Ht). rewrite Hs, consumed_exact. clear Ev Hv.
  destruct c as [|a c]; [done|]. split; [done|]. split; [done|]. intros t.
  assert (is_ws a = false) as Hws.
  { pose proof (skip_ws_idem s) as Hi. rewrite Hs in Hi. rewrite app_cons in Hi. cbn [skip_ws] in Hi.
    destruct (is_ws a); [|done]. exfalso. pose proof (skip_ws_len (c +:+ rest)). rewrite Hi in H. simpl in H. lia. }
  assert (skip_ws (String a c +:+ t) = String a c +:+ t) as Hsk
    by (rewrite app_cons; cbn [skip_ws]; by rewrite Hws).
  split; [done|]. rewrite Hsk. specialize (Ht t (λ Hnum, False_ind _ (Hn Hnum))).
  rewrite (value_any_fuel _ (2 * len (String a c +:+ t) + 2) _ _ _ Ht) by lia. by rewrite consumed_exact.
Qed.
End swap.
