(* ===== verification/Store.v ===== *)
(** * [internal/store]: the database, the store's caches, and the room queries

    The store only reads: every query is a function of a database state ([DB]:
    the rows of the Synapse tables the queries name).  A query without an
    [ORDER BY] returns the matching rows in table order; tables are arbitrary
    lists, so the theorems hold for any order.

    A store call runs in the monad [M]: it may fail, it changes the caches, and
    each query it issues is answered by what the database is, or does, at that
    moment ([w_db n] is the outcome of the [n]-th query: a database state, or a
    failure).  [w_fuel] bounds the loops whose end depends on the data. *)
From S2P Require Import Prelude Cache.

Open Scope Z_scope.

(** ** Errors

    Go errors wrapped with [%w] keep what they wrap, which is what [errors.Is]
    and [errors.As] look for. *)
Inductive error :=
| ErrNotFound
| ErrNoChainCoverIndex (roomID : string)
| ErrQuery (what : string)
| ErrText (msg : string)
| MatrixError (status : Z) (code msg : string)
| ErrEventNotFound
| Wrapped (what : string) (e : error)
| OutOfFuel.

Fixpoint unwrap (e : error) : error :=
  match e with Wrapped _ e => unwrap e | _ => e end.
Definition is_not_found (e : error) : bool :=
  match unwrap e with ErrNotFound => true | _ => false end.
Definition as_no_index (e : error) : bool :=
  match unwrap e with ErrNoChainCoverIndex _ => true | _ => false end.

(** ** Keys and events *)
Record StateKey := SK { sk_type : string; sk_key : string }.
#[export] Instance StateKey_eq_dec : EqDecision StateKey.
Proof. solve_decision. Defined.
#[export] Instance StateKey_countable : Countable StateKey.
Proof.
  apply (inj_countable' (λ k, (sk_type k, sk_key k)) (λ p, SK p.1 p.2)). by intros [].
Defined.

Notation StateMap := (gmap StateKey string).

Record Event := MkEvent {
  EventID : string; RoomID : string; Type_ : string; StateKey_ : option string;
  RoomVersion : string; JSON : string; InternalMetadata : string;
  StreamOrdering : Z; Outlier : bool; FormatVersion : Z;
  RejectedReason : string; RedactedBy : string }.
#[export] Instance Event_eq_dec : EqDecision Event.
Proof. solve_decision. Defined.

Definition IsRedacted (e : Event) : bool := negb (bool_decide (RedactedBy e = "")).
Definition IsStateEvent (e : Event) : bool := bool_decide (is_Some (StateKey_ e)).

(** Key of the filtered state cache. *)
Record FilteredStateKey := FSK { Group : Z; Filter_ : string }.
#[export] Instance FilteredStateKey_eq_dec : EqDecision FilteredStateKey.
Proof. solve_decision. Defined.
#[export] Instance FilteredStateKey_countable : Countable FilteredStateKey.
Proof.
  apply (inj_countable' (λ k, (Group k, Filter_ k)) (λ p, FSK p.1 p.2)). by intros [].
Defined.

(** ** Tables *)
Module Db.
Record event_row := EventRow {
  ev_id : string; ev_room : string; ev_type : string; ev_state_key : option string;
  ev_sender : string; ev_outlier : bool; ev_stream : Z }.
Record json_row := JsonRow {
  ej_id : string; ej_json : string; ej_meta : string; ej_format : option Z }.
Record room_row := RoomRow {
  rm_id : string; rm_version : option string; rm_indexed : option bool }.
Record edge_row := EdgeRow { ed_event : string; ed_prev : string; ed_is_state : bool }.
Record chain_row := ChainRow { ch_event : string; ch_chain : Z; ch_seq : Z }.
Record link_row := LinkRow { ln_ochain : Z; ln_oseq : Z; ln_tchain : Z; ln_tseq : Z }.
Record sgs_row := SgsRow { sg_group : Z; sg_type : string; sg_key : string; sg_event : string }.
Record cse_row := CseRow {
  cs_room : string; cs_type : string; cs_key : string; cs_event : string; cs_membership : option string }.
Record redaction_row := RedactionRow {
  rd_event : string; rd_redacts : option string; rd_recheck : option bool }.
Record ban_row := BanRow { bn_room : string; bn_user : string; bn_event : string; bn_end : option Z }.
Record key_row := KeyRow {
  ky_server : string; ky_id : string; ky_from : string; ky_valid : Z; ky_json : string }.

Record t := MkDb {
  events : list event_row;
  event_json : list json_row;
  rooms : list room_row;
  rejections : list (string * string);
  event_auth : list (string * string);
  event_edges : list edge_row;
  event_auth_chains : list chain_row;
  event_auth_chain_links : list link_row;
  event_to_state_groups : list (string * option Z);
  state_groups_state : list sgs_row;
  state_group_edges : list (Z * Z);
  current_state_events : list cse_row;
  partial_state_rooms : list string;
  erased_users : list string;
  redactions : list redaction_row;
  room_ban_redactions : list ban_row;
  server_keys_json : list key_row }.

Definition empty : t := MkDb [] [] [] [] [] [] [] [] [] [] [] [] [] [] [] [] [].
End Db.
Notation DB := Db.t.

(** ** SQL *)

(** [LIKE]: [%] is any text, a backslash makes the next character literal.  [_]
    is one byte here and one character in PostgreSQL; no pattern contains it.  A
    pattern that ends in a lone backslash is refused by PostgreSQL and matches
    nothing here. *)
Fixpoint any_suffix (f : string → bool) (s : string) : bool :=
  f s || match s with EmptyString => false | String _ s' => any_suffix f s' end.
Fixpoint like (p : string) (s : string) : bool :=
  match p with
  | EmptyString => match s with EmptyString => true | _ => false end
  | String "%" p => any_suffix (like p) s
  | String "_" p => match s with String _ s => like p s | _ => false end
  | String "\" (String c p) =>
      match s with String a s => bool_decide (a = c) && like p s | _ => false end
  | String "\" EmptyString => false
  | String c p => match s with String a s => bool_decide (a = c) && like p s | _ => false end
  end.

(** [strings.ContainsAny(s, "%_")] *)
Definition has_wildcard (s : string) : bool :=
  contains_byte "%"%char s || contains_byte "_"%char s.

(** ** The caches *)
Record caches := MkCaches {
  stateGroups : LRU.t Z StateMap;
  events : LRU.t string Event;
  eventStateGroup : LRU.t string Z;
  authChains : LRU.t string (list string);
  filteredState : LRU.t FilteredStateKey StateMap }.

Definition sizeOfStateMap (m : StateMap) : Z :=
  Zsum ((λ kv, str_len (sk_type kv.1) + str_len (sk_key kv.1) + str_len kv.2 + 64) <$> map_to_list m).
Definition sizeOfEvent (e : Event) : Z :=
  str_len (JSON e) + str_len (InternalMetadata e) + str_len (EventID e) +
  str_len (RoomID e) + str_len (Type_ e) + str_len (RoomVersion e) + 128.
Definition sizeOfIDs (ids : list string) : Z := Zsum ((λ id, str_len id + 16) <$> ids).

Definition newCaches (s : Settings.t) : caches :=
  let s := Settings.WithDefaults s in
  MkCaches
    (LRU.NewLRU "state_groups" (Settings.MB (Settings.StateGroupsMB s)) sizeOfStateMap)
    (LRU.NewLRU "events" (Settings.MB (Settings.EventsMB s)) sizeOfEvent)
    (LRU.NewLRU "event_state_groups" (Settings.MB (Settings.EventStateGroupsMB s)) (λ _, 64))
    (LRU.NewLRU "auth_chains" (Settings.MB (Settings.AuthChainsMB s)) sizeOfIDs)
    (LRU.NewLRU "filtered_state" (Settings.MB (Settings.FilteredStateMB s)) sizeOfStateMap).

Definition CacheStats (c : caches) : list LRU.Stats :=
  [LRU.StatsOf (stateGroups c); LRU.StatsOf (events c); LRU.StatsOf (eventStateGroup c);
   LRU.StatsOf (authChains c); LRU.StatsOf (filteredState c)].

Definition SetCachesArmed (armed : bool) (c : caches) : caches :=
  MkCaches (LRU.SetArmed armed (stateGroups c)) (LRU.SetArmed armed (events c))
    (LRU.SetArmed armed (eventStateGroup c)) (LRU.SetArmed armed (authChains c))
    (LRU.SetArmed armed (filteredState c)).

Definition PurgeCaches (c : caches) : caches :=
  MkCaches (LRU.Purge (stateGroups c)) (LRU.Purge (events c)) (LRU.Purge (eventStateGroup c))
    (LRU.Purge (authChains c)) (LRU.Purge (filteredState c)).

Definition DropEvent (eventID : string) (c : caches) : caches :=
  MkCaches (stateGroups c) (LRU.Remove eventID (events c)) (LRU.Remove eventID (eventStateGroup c))
    (authChains c) (filteredState c).

Definition CachesArmed (c : caches) : bool := LRU.Armed (events c).

(** ** The monad *)
Record world := MkWorld {
  w_db : nat → result string DB;      (* the outcome of the n-th query *)
  w_cancelled : nat → bool;           (* [ctx.Err()] before the n-th query *)
  w_fuel : nat;
  w_tick : nat;
  w_caches : caches;
  w_trace : Trace.t }.

Definition M (A : Type) : Type := world → result error A * world.

#[export] Instance M_ret : MRet M := λ A a w, (Ok a, w).
#[export] Instance M_bind : MBind M := λ A B f m w,
  match m w with
  | (Ok a, w') => f a w'
  | (Err e, w') => (Err e, w')
  end.

Definition fail {A} (e : error) : M A := λ w, (Err e, w).

(** Handling an error value: what [if err != nil] sees. *)
Definition try {A} (m : M A) : M (result error A) := λ w, let '(r, w') := m w in (Ok r, w').
Definition of_result {A} (r : result error A) : M A := λ w, (r, w).

Definition wrap {A} (what : string) (m : M A) : M A := λ w,
  match m w with
  | (Err e, w') => (Err (Wrapped what e), w')
  | r => r
  end.

Definition tick (w : world) : world :=
  MkWorld (w_db w) (w_cancelled w) (w_fuel w) (S (w_tick w)) (w_caches w) (w_trace w).

(** [s.pool.Query] and reading its rows to the end. *)
Definition query {A} (what : string) (f : DB → A) : M A := λ w,
  match w_db w (w_tick w) with
  | Ok d => (Ok (f d), tick w)
  | Err e => (Err (Wrapped what (ErrQuery e)), tick w)
  end.

Definition ctx_err : M unit := λ w,
  if w_cancelled w (w_tick w) then (Err (ErrText "context"), w) else (Ok tt, w).

Definition fuel : M nat := λ w, (Ok (w_fuel w), w).

(** Operations on the caches. *)
Definition with_caches (c : caches) (w : world) : world :=
  MkWorld (w_db w) (w_cancelled w) (w_fuel w) (w_tick w) c (w_trace w).
Definition gets {A} (f : caches → A * caches) : M A := λ w,
  let '(a, c) := f (w_caches w) in (Ok a, with_caches c w).
Definition puts (f : caches → caches) : M unit := λ w, (Ok tt, with_caches (f (w_caches w)) w).
Definition record_ (f : Trace.t → Trace.t) : M unit := λ w,
  (Ok tt, MkWorld (w_db w) (w_cancelled w) (w_fuel w) (w_tick w) (w_caches w) (f (w_trace w))).

Definition get_stateGroups (g : Z) : M (option StateMap) :=
  gets (λ c, let '(r, l) := LRU.Get g (stateGroups c) in
             (r, MkCaches l (events c) (eventStateGroup c) (authChains c) (filteredState c))).
Definition get_events (id : string) : M (option Event) :=
  gets (λ c, let '(r, l) := LRU.Get id (events c) in
             (r, MkCaches (stateGroups c) l (eventStateGroup c) (authChains c) (filteredState c))).
Definition get_eventStateGroup (id : string) : M (option Z) :=
  gets (λ c, let '(r, l) := LRU.Get id (eventStateGroup c) in
             (r, MkCaches (stateGroups c) (events c) l (authChains c) (filteredState c))).
Definition get_authChains (k : string) : M (option (list string)) :=
  gets (λ c, let '(r, l) := LRU.Get k (authChains c) in
             (r, MkCaches (stateGroups c) (events c) (eventStateGroup c) l (filteredState c))).
Definition get_filteredState (k : FilteredStateKey) : M (option StateMap) :=
  gets (λ c, let '(r, l) := LRU.Get k (filteredState c) in
             (r, MkCaches (stateGroups c) (events c) (eventStateGroup c) (authChains c) l)).
Definition add_stateGroups (g : Z) (m : StateMap) : M unit :=
  puts (λ c, MkCaches (LRU.Add g m (stateGroups c)) (events c) (eventStateGroup c) (authChains c) (filteredState c)).
Definition add_events (id : string) (e : Event) : M unit :=
  puts (λ c, MkCaches (stateGroups c) (LRU.Add id e (events c)) (eventStateGroup c) (authChains c) (filteredState c)).
Definition add_eventStateGroup (id : string) (g : Z) : M unit :=
  puts (λ c, MkCaches (stateGroups c) (events c) (LRU.Add id g (eventStateGroup c)) (authChains c) (filteredState c)).
Definition add_authChains (k : string) (ids : list string) : M unit :=
  puts (λ c, MkCaches (stateGroups c) (events c) (eventStateGroup c) (LRU.Add k ids (authChains c)) (filteredState c)).
Definition add_filteredState (k : FilteredStateKey) (m : StateMap) : M unit :=
  puts (λ c, MkCaches (stateGroups c) (events c) (eventStateGroup c) (authChains c) (LRU.Add k m (filteredState c))).

(** [errors.Is(err, pgx.ErrNoRows)] on a single-row query. *)
Definition query_row {A} (what : string) (f : DB → list A) : M (option A) :=
  query what (λ d, head (f d)).

(** ** Rooms ([room.go]) *)
Record RoomInfo := MkRoomInfo { ri_version : string; HasAuthChainIndex : bool }.

Definition GetRoomInfo (roomID : string) : M RoomInfo :=
  row ← query_row "store: get room info" (λ d, filter (λ r, Db.rm_id r = roomID) (Db.rooms d));
  match row with
  | None => fail ErrNotFound
  | Some r => mret (MkRoomInfo (default EmptyString (Db.rm_version r)) (default false (Db.rm_indexed r)))
  end.

Definition domainFromID (id : string) : string :=
  let '(_, domain, found) := cut colon id in if found then domain else EmptyString.

Definition host_members (roomID host : string) (d : DB) : list string :=
  Db.cs_key <$> filter (λ r, Db.cs_membership r = Some "join"%string ∧ Db.cs_type r = "m.room.member"%string ∧
                             Db.cs_room r = roomID ∧ like ("%:" +:+ host) (Db.cs_key r) = true)
                  (Db.current_state_events d).

Definition IsHostInRoom (roomID host : string) : M bool :=
  if has_wildcard host then fail (ErrText ("store: invalid host name " +:+ host)) else
  row ← query_row "store: is host in room" (host_members roomID host);
  match row with
  | None => mret false
  | Some userID =>
      if bool_decide (domainFromID userID = host) then mret true
      else fail (ErrText ("store: host " +:+ host +:+ " did not match user " +:+ userID))
  end.

Definition IsPartialStateRoom (roomID : string) : M bool :=
  row ← query_row "store: is partial state room" (λ d, filter (λ r, r = roomID) (Db.partial_state_rooms d));
  mret (bool_decide (is_Some row)).

(** Both [GetCurrentStateEvent] and its JSON-only wrapper. *)
Definition GetCurrentStateEvent (roomID evType stateKey : string) : M (string * string) :=
  row ← query_row "store: get current state event" (λ d,
    c ← filter (λ c, Db.cs_room c = roomID ∧ Db.cs_type c = evType ∧ Db.cs_key c = stateKey)
          (Db.current_state_events d);
    j ← filter (λ j, Db.ej_id j = Db.cs_event c) (Db.event_json d);
    [(Db.cs_event c, Db.ej_json j)]);
  match row with None => fail ErrNotFound | Some p => mret p end.
Definition GetCurrentStateEventJSON (roomID evType stateKey : string) : M string :=
  p ← GetCurrentStateEvent roomID evType stateKey; mret p.2.

(** [ORDER BY ts_valid_until_ms DESC] *)
Definition newer (a b : Db.key_row) : Prop := Db.ky_valid b ≤ Db.ky_valid a.
#[export] Instance newer_dec : RelDecision newer.
Proof. intros a b. unfold newer. apply _. Defined.

Definition GetServerKeys (serverName : string) (validAtMS : Z) : M (list Db.key_row) :=
  query "store: get server keys" (λ d,
    merge_sort newer (filter (λ k, Db.ky_server k = serverName ∧ validAtMS < Db.ky_valid k)
                        (Db.server_keys_json d))).

(** [AreUsersErased] *)
Definition AreUsersErased (userIDs : list string) : M (gset string) :=
  match userIDs with
  | [] => mret ∅
  | _ => query "store: are users erased" (λ d,
           list_to_set (filter (λ u, u ∈ userIDs) (Db.erased_users d)))
  end.

(** ** Runs that succeed *)
Lemma ok_bind {A B} (m : M A) (f : A → M B) b w w' :
  (m ≫= f) w = (Ok b, w') → ∃ a w1, m w = (Ok a, w1) ∧ f a w1 = (Ok b, w').
Proof. unfold mbind, M_bind. destruct (m w) as [[a|e] w1]; [eauto|done]. Qed.

Lemma query_ok {A} what (f : DB → A) w a w' :
  query what f w = (Ok a, w') → ∃ d, w_db w (w_tick w) = Ok d ∧ a = f d.
Proof. unfold query. destruct (w_db w (w_tick w)); [intros [= <- _]; eauto|done]. Qed.

Lemma mret_ok {A} (a b : A) (w w' : world) : (mret a : M A) w = (Ok b, w') → b = a ∧ w' = w.
Proof. intros Heq. injection Heq as -> ->. done. Qed.

(** ** Reasoning about store calls

    [contract] says what the entries of each cache must satisfy; a world is
    [fit] for a database and a contract when every query sees that database, no
    request is cancelled, the fuel is at least [F], and the caches keep the
    contract.  [evals] is the specification the components give each other: from
    every fit world, whatever its caches hold, the call returns [r], and leaves a
    fit world.  So a result that [evals] fixes does not depend on the caches. *)
Record contract := MkContract {
  p_stateGroups : Z → StateMap → Prop;
  p_events : string → Event → Prop;
  p_eventStateGroup : string → Z → Prop;
  p_authChains : string → list string → Prop;
  p_filteredState : FilteredStateKey → StateMap → Prop }.

Record keeps (P : contract) (c : caches) : Prop := {
  k_stateGroups : holds (p_stateGroups P) (stateGroups c);
  k_events : holds (p_events P) (events c);
  k_eventStateGroup : holds (p_eventStateGroup P) (eventStateGroup c);
  k_authChains : holds (p_authChains P) (authChains c);
  k_filteredState : holds (p_filteredState P) (filteredState c) }.

Record fit (d : DB) (F : nat) (P : contract) (w : world) : Prop := {
  fit_db : ∀ n, w_db w n = Ok d;
  fit_live : ∀ n, w_cancelled w n = false;
  fit_fuel : (F ≤ w_fuel w)%nat;
  fit_caches : keeps P (w_caches w) }.

Section evals.
Context (d : DB) (F : nat) (P : contract).

Definition evals {A} (m : M A) (r : result error A) : Prop :=
  ∀ w, fit d F P w → ∃ w', m w = (r, w') ∧ fit d F P w'.

Lemma evals_ret {A} (a : A) : evals (mret a) (Ok a).
Proof. intros w Hw. by exists w. Qed.

Lemma evals_fail {A} e : evals (fail (A:=A) e) (Err e).
Proof. intros w Hw. by exists w. Qed.

Lemma evals_bind {A B} (m : M A) (f : A → M B) a r :
  evals m (Ok a) → evals (f a) r → evals (m ≫= f) r.
Proof.
  intros Hm Hf w Hw. destruct (Hm w Hw) as (w1 & E & Hw1).
  unfold mbind, M_bind. rewrite E. by apply Hf.
Qed.

Lemma evals_bind_err {A B} (m : M A) (f : A → M B) e :
  evals m (Err e) → evals (m ≫= f) (Err e).
Proof.
  intros Hm w Hw. destruct (Hm w Hw) as (w1 & E & Hw1). unfold mbind, M_bind. rewrite E. eauto.
Qed.

Lemma evals_result {A} (r : result error A) : evals (of_result r) r.
Proof. intros w Hw. by exists w. Qed.

Lemma evals_try {A} (m : M A) r : evals m r → evals (try m) (Ok r).
Proof.
  intros Hm w Hw. destruct (Hm w Hw) as (w1 & E & Hw1). unfold try. rewrite E. eauto.
Qed.

Lemma evals_wrap {A} what (m : M A) a : evals m (Ok a) → evals (wrap what m) (Ok a).
Proof. intros Hm w Hw. destruct (Hm w Hw) as (w1 & E & Hw1). unfold wrap. rewrite E. eauto. Qed.

Lemma evals_query {A} what (f : DB → A) : evals (query what f) (Ok (f d)).
Proof.
  intros w Hw. unfold query. rewrite (fit_db _ _ _ _ Hw). eexists. split; [done|].
  destruct Hw; by split.
Qed.

Lemma evals_ctx : evals ctx_err (Ok tt).
Proof. intros w Hw. unfold ctx_err. rewrite (fit_live _ _ _ _ Hw). eauto. Qed.

Lemma evals_record f : evals (record_ f) (Ok tt).
Proof. intros w Hw. unfold record_. eexists. split; [done|]. destruct Hw; by split. Qed.

Lemma fit_with_caches w c : fit d F P w → keeps P c → fit d F P (with_caches c w).
Proof. intros [] Hc. by split. Qed.

(** A cache lookup returns something that keeps the contract, or nothing. *)
Lemma evals_gets {A B} (f : caches → option A * caches) (Q : A → Prop) (k : option A → M B) r :
  (∀ c, keeps P c → keeps P (f c).2 ∧ ∀ v, (f c).1 = Some v → Q v) →
  evals (k None) r → (∀ v, Q v → evals (k (Some v)) r) → evals (gets f ≫= k) r.
Proof.
  intros Hf Hn Hs w Hw. unfold mbind, M_bind, gets.
  destruct (Hf (w_caches w) (fit_caches _ _ _ _ Hw)) as [Hk HQ].
  destruct (f (w_caches w)) as [[v|] c]; simpl in *.
  - apply Hs; [by apply HQ|]. by apply fit_with_caches.
  - apply Hn. by apply fit_with_caches.
Qed.

Lemma evals_puts f : (∀ c, keeps P c → keeps P (f c)) → evals (puts f) (Ok tt).
Proof.
  intros Hf w Hw. unfold puts. eexists. split; [done|]. apply fit_with_caches; [done|].
  apply Hf, Hw.
Qed.

Lemma evals_get_stateGroups {B} g (k : option StateMap → M B) r :
  evals (k None) r → (∀ v, p_stateGroups P g v → evals (k (Some v)) r) →
  evals (get_stateGroups g ≫= k) r.
Proof.
  intros Hn Hs. eapply (evals_gets _ (p_stateGroups P g)); [|done|done].
  intros c [H1 H2 H3 H4 H5]. pose proof (holds_get _ g _ H1) as [? ?].
  destruct (LRU.Get g (stateGroups c)); by split.
Qed.

Lemma evals_get_events {B} g (k : option Event → M B) r :
  evals (k None) r → (∀ v, p_events P g v → evals (k (Some v)) r) →
  evals (get_events g ≫= k) r.
Proof.
  intros Hn Hs. eapply (evals_gets _ (p_events P g)); [|done|done].
  intros c [H1 H2 H3 H4 H5]. pose proof (holds_get _ g _ H2) as [? ?].
  destruct (LRU.Get g (events c)); by split.
Qed.

Lemma evals_get_eventStateGroup {B} g (k : option Z → M B) r :
  evals (k None) r → (∀ v, p_eventStateGroup P g v → evals (k (Some v)) r) →
  evals (get_eventStateGroup g ≫= k) r.
Proof.
  intros Hn Hs. eapply (evals_gets _ (p_eventStateGroup P g)); [|done|done].
  intros c [H1 H2 H3 H4 H5]. pose proof (holds_get _ g _ H3) as [? ?].
  destruct (LRU.Get g (eventStateGroup c)); by split.
Qed.

Lemma evals_get_authChains {B} g (k : option (list string) → M B) r :
  evals (k None) r → (∀ v, p_authChains P g v → evals (k (Some v)) r) →
  evals (get_authChains g ≫= k) r.
Proof.
  intros Hn Hs. eapply (evals_gets _ (p_authChains P g)); [|done|done].
  intros c [H1 H2 H3 H4 H5]. pose proof (holds_get _ g _ H4) as [? ?].
  destruct (LRU.Get g (authChains c)); by split.
Qed.

Lemma evals_get_filteredState {B} g (k : option StateMap → M B) r :
  evals (k None) r → (∀ v, p_filteredState P g v → evals (k (Some v)) r) →
  evals (get_filteredState g ≫= k) r.
Proof.
  intros Hn Hs. eapply (evals_gets _ (p_filteredState P g)); [|done|done].
  intros c [H1 H2 H3 H4 H5]. pose proof (holds_get _ g _ H5) as [? ?].
  destruct (LRU.Get g (filteredState c)); by split.
Qed.

Ltac put_tac := intros; apply evals_puts; intros c [H1 H2 H3 H4 H5]; split; simpl; auto using holds_add.

Lemma evals_add_stateGroups g v : p_stateGroups P g v → evals (add_stateGroups g v) (Ok tt).
Proof. put_tac. Qed.
Lemma evals_add_events g v : p_events P g v → evals (add_events g v) (Ok tt).
Proof. put_tac. Qed.
Lemma evals_add_eventStateGroup g v : p_eventStateGroup P g v → evals (add_eventStateGroup g v) (Ok tt).
Proof. put_tac. Qed.
Lemma evals_add_authChains g v : p_authChains P g v → evals (add_authChains g v) (Ok tt).
Proof. put_tac. Qed.
Lemma evals_add_filteredState g v : p_filteredState P g v → evals (add_filteredState g v) (Ok tt).
Proof. put_tac. Qed.

(** Disarming, purging and dropping entries keep any contract. *)
Lemma keeps_armed a c : keeps P c → keeps P (SetCachesArmed a c).
Proof. intros []. split; simpl; auto using holds_armed. Qed.
Lemma keeps_purge c : keeps P c → keeps P (PurgeCaches c).
Proof. intros []. split; simpl; auto using holds_purge. Qed.
Lemma keeps_drop id c : keeps P c → keeps P (DropEvent id c).
Proof. intros []. split; simpl; auto using holds_remove. Qed.
End evals.

Lemma sizeOfStateMap_nonneg m : 0 ≤ sizeOfStateMap m.
Proof.
  apply Zsum_nonneg, Forall_fmap, Forall_forall. intros x _. unfold str_len. simpl. lia.
Qed.
Lemma sizeOfIDs_nonneg ids : 0 ≤ sizeOfIDs ids.
Proof. apply Zsum_nonneg, Forall_fmap, Forall_forall. intros x _. unfold str_len. simpl. lia. Qed.
Lemma sizeOfEvent_nonneg e : 0 ≤ sizeOfEvent e.
Proof. unfold sizeOfEvent, str_len. lia. Qed.

(** Fresh caches keep every contract. *)
Lemma keeps_new P s :
  Forall (λ v, v < 2 ^ 42) [Settings.StateGroupsMB s; Settings.EventsMB s; Settings.EventStateGroupsMB s;
                            Settings.AuthChainsMB s; Settings.FilteredStateMB s] →
  keeps P (newCaches s).
Proof.
  rewrite !Forall_cons. intros (H1 & H2 & H3 & H4 & H5 & _).
  assert (∀ x dflt, x < 2 ^ 42 → 0 < dflt < 1000 →
    Settings.MB (Settings.or_default x dflt) < 2 ^ 62) as Hmb.
  { intros x dflt Hx Hd. unfold Settings.MB, Settings.or_default.
    assert (∀ y, 0 ≤ y < 2 ^ 42 → i64 (Z.shiftl y 20) < 2 ^ 62) as Hy.
    { intros y Hy. rewrite Z.shiftl_mul_pow2 by lia. rewrite i64_small; lia. }
    repeat case_bool_decide; try lia; apply Hy; lia. }
  split; simpl; apply holds_new; auto using sizeOfStateMap_nonneg, sizeOfIDs_nonneg, sizeOfEvent_nonneg.
  all: try (apply Hmb; [done|lia]). intros _. lia.
Qed.
