(* ===== verification/AuthChain.v ===== *)
(** * [internal/store/authchain.go]: the auth chain of a set of events

    [GetAuthChainIDs] reads the chain cover index: [materialiseChains] follows
    the links between chains to the furthest sequence number reachable in each,
    and everything at or below it is in the chain.  [GetAuthChainIDsRecursive]
    walks [event_auth] breadth first.  Both are compared with the transitive
    closure of the auth relation the database holds. *)
From S2P Require Import Prelude Cache Store.

Open Scope Z_scope.

(** ** The cover index *)

(** Step 1: the events that have a chain position, and per chain the highest
    starting sequence number. *)
Definition chain_positions (ids : list string) (d : DB) : list Db.chain_row :=
  filter (λ r, Db.ch_event r ∈ ids) (Db.event_auth_chains d).

Definition raise (c s : Z) (m : gmap Z Z) : gmap Z Z :=
  if bool_decide (default 0 (m !! c) < s) then <[c := s]> m else m.

Definition start_chains (rows : list Db.chain_row) : gmap Z Z :=
  foldl (λ m r, raise (Db.ch_chain r) (Db.ch_seq r) m) ∅ rows.

(** Step 2: one generation of links. *)
Definition links_from (frontier : gmap Z Z) (d : DB) : list Db.link_row :=
  filter (λ l, Db.ln_ochain l ∈ dom frontier) (Db.event_auth_chain_links d).

Definition follow_link (frontier : gmap Z Z) (acc : gmap Z Z * gmap Z Z) (l : Db.link_row)
    : gmap Z Z * gmap Z Z :=
  let '(reachable, next) := acc in
  if bool_decide (default 0 (frontier !! Db.ln_ochain l) < Db.ln_oseq l) then acc
  else if bool_decide (default 0 (reachable !! Db.ln_tchain l) < Db.ln_tseq l) then
    (<[Db.ln_tchain l := Db.ln_tseq l]> reachable, raise (Db.ln_tchain l) (Db.ln_tseq l) next)
  else acc.

Fixpoint chains_loop (fuel : nat) (frontier reachable : gmap Z Z) : M (gmap Z Z) :=
  match fuel with
  | O => fail OutOfFuel
  | S fuel =>
      if decide (frontier = ∅) then mret reachable else
      rows ← query "store: auth chain links" (links_from frontier);
      let '(reachable, next) := foldl (follow_link frontier) (reachable, ∅) rows in
      chains_loop fuel next reachable
  end.

Definition materialiseChains (eventChains : gmap Z Z) : M (gmap Z Z) :=
  f ← fuel; chains_loop f eventChains ∅.

(** Step 3: an event reaches everything earlier in its own chain. *)
Definition own_chains (eventChains chains : gmap Z Z) : gmap Z Z :=
  map_fold (λ c s m, if bool_decide (s ≤ 1) then m else raise c (s - 1) m) chains eventChains.

(** Step 4. *)
Definition below (chains : gmap Z Z) (r : Db.chain_row) : bool :=
  from_option (λ m, bool_decide (Db.ch_seq r ≤ m)) false (chains !! Db.ch_chain r).
Definition events_below (chains : gmap Z Z) (d : DB) : list string :=
  Db.ch_event <$> filter (λ r, below chains r = true) (Db.event_auth_chains d).

Section go.
Variable sha256 : string → string.

Definition GetAuthChainIDs (roomID : string) (eventIDs : list string) : M (list string) :=
  match eventIDs with
  | [] => mret []
  | _ =>
      let key := AuthChainKey.AuthChainKey sha256 roomID eventIDs in
      hit ← get_authChains key;
      record_ (Trace.Record_ "auth_chains" (bool_decide (is_Some hit)));;
      match hit with
      | Some ids => mret ids
      | None =>
          rows ← query "store: auth chain positions" (chain_positions eventIDs);
          let seen : gset string := list_to_set (Db.ch_event <$> rows) in
          let eventChains := start_chains rows in
          if forallb (λ id, bool_decide (id ∈ seen)) eventIDs then
            chains ← materialiseChains eventChains;
            let chains := own_chains eventChains chains in
            if decide (chains = ∅) then mret [] else
            out ← query "store: auth chain events" (events_below chains);
            add_authChains key out;;
            mret out
          else fail (ErrNoChainCoverIndex roomID)
      end
  end.

(** ** The recursive walk *)
Definition authChainBatch : nat := 100.

(** [SELECT a.auth_id ... INNER JOIN events AS e ON e.event_id = a.auth_id] *)
Definition auth_ids (ids : list string) (d : DB) : list string :=
  a ← filter (λ a, a.1 ∈ ids) (Db.event_auth d);
  e ← filter (λ e, Db.ev_id e = a.2) (Db.events d);
  [a.2].

Fixpoint walk_batches (bs : list (list string)) (next : gset string) : M (gset string) :=
  match bs with
  | [] => mret next
  | b :: bs =>
      rows ← query "store: recursive auth chain" (auth_ids b);
      walk_batches bs (next ∪ list_to_set rows)
  end.

Fixpoint walk_loop (fuel : nat) (front results : gset string) : M (gset string) :=
  match fuel with
  | O => fail OutOfFuel
  | S fuel =>
      if decide (front = ∅) then mret results else
      next ← walk_batches (batches authChainBatch (elements front)) ∅;
      walk_loop fuel (next ∖ results) (results ∪ next)
  end.

Definition GetAuthChainIDsRecursive (eventIDs : list string) : M (list string) :=
  f ← fuel;
  results ← walk_loop f (list_to_set eventIDs) ∅;
  mret (elements results).

(** The [bool] tells whether the walk was used. *)
Definition GetAuthChainIDsWithFallback (roomID : string) (eventIDs : list string) : M (list string * bool) :=
  r ← try (GetAuthChainIDs roomID eventIDs);
  match r with
  | Ok ids => mret (ids, false)
  | Err e =>
      if as_no_index e then ids ← GetAuthChainIDsRecursive eventIDs; mret (ids, true)
      else fail e
  end.
End go.

(** ** What the auth chain is *)

(** [a] lists [b] among its auth events, and the database holds [b]. *)
Definition auth (d : DB) (a b : string) : Prop :=
  (a, b) ∈ Db.event_auth d ∧ b ∈ Db.ev_id <$> Db.events d.

Definition in_chain (d : DB) (ids : list string) (e : string) : Prop :=
  ∃ i, i ∈ ids ∧ tc (auth d) i e.

(** Positions the links reach from a starting position per chain. *)
Inductive reached (links : list Db.link_row) (start : gmap Z Z) : Z → Z → Prop :=
| reached_start l s :
    l ∈ links → start !! Db.ln_ochain l = Some s → Db.ln_oseq l ≤ s →
    reached links start (Db.ln_tchain l) (Db.ln_tseq l)
| reached_link l n :
    reached links start (Db.ln_ochain l) n → l ∈ links → Db.ln_oseq l ≤ n →
    reached links start (Db.ln_tchain l) (Db.ln_tseq l).

(** The pure result of the loop. *)
Definition follow_all (links : list Db.link_row) (frontier reachable : gmap Z Z) : gmap Z Z * gmap Z Z :=
  foldl (follow_link frontier) (reachable, ∅) (filter (λ l, Db.ln_ochain l ∈ dom frontier) links).

Fixpoint chains_pure (fuel : nat) (links : list Db.link_row) (frontier reachable : gmap Z Z) : gmap Z Z :=
  match fuel with
  | O => reachable
  | S fuel => if decide (frontier = ∅) then reachable
              else let '(r, n) := follow_all links frontier reachable in chains_pure fuel links n r
  end.

(** Fuel that is enough for both walks. *)
Definition chain_fuel (d : DB) : nat :=
  S (S (length (Db.event_auth_chain_links d) + length (Db.event_auth d))).

(** The index covers the events. *)
Definition covered (d : DB) (ids : list string) : Prop :=
  ∀ id, id ∈ ids → id ∈ Db.ch_event <$> Db.event_auth_chains d.
#[export] Instance covered_dec d ids : Decision (covered d ids).
Proof.
  refine (cast_if (decide (Forall (λ id, id ∈ Db.ch_event <$> Db.event_auth_chains d) ids)));
    unfold covered; by rewrite <-Forall_forall.
Defined.

(** What the cover index answers. *)
Definition cover_bounds (d : DB) (ids : list string) : gmap Z Z :=
  let start := start_chains (chain_positions ids d) in
  own_chains start (chains_pure (chain_fuel d) (Db.event_auth_chain_links d) start ∅).
Definition cover_chain (d : DB) (ids : list string) : list string := events_below (cover_bounds d ids) d.

(** ** The furthest reachable points *)
Section chains.
Implicit Types (f r : gmap Z Z) (links : list Db.link_row) (l : Db.link_row).

Definition val (m : gmap Z Z) (c : Z) : Z := default 0 (m !! c).
Definition usable f l : Prop := ∃ s, f !! Db.ln_ochain l = Some s ∧ Db.ln_oseq l ≤ s.
Definition positive r : Prop := ∀ c s, r !! c = Some s → 0 < s.

Lemma val_nonneg r c : positive r → 0 ≤ val r c.
Proof. intros Hp. unfold val. destruct (r !! c) eqn:E; simpl; [apply Hp in E; lia|lia]. Qed.

Lemma val_Some r c n : 0 < n → n ≤ val r c → ∃ s, r !! c = Some s ∧ n ≤ s.
Proof. unfold val. intros Hn Hv. destruct (r !! c); simpl in Hv; [eauto|lia]. Qed.

Lemma raise_new c s m : val m c < s → raise c s m = <[c := s]> m.
Proof. intros Hv. unfold raise. by rewrite bool_decide_true. Qed.

(** What one generation has done after the links of [ls]. *)
Record generation (f reach : gmap Z Z) (ls : list Db.link_row) (r n : gmap Z Z) : Prop := {
  gen_change : ∀ c, (r !! c = reach !! c ∧ n !! c = None) ∨
    ∃ s, r !! c = Some s ∧ n !! c = Some s ∧ val reach c < s ∧
         ∃ l, l ∈ ls ∧ usable f l ∧ Db.ln_tchain l = c ∧ Db.ln_tseq l = s;
  gen_done : ∀ l, l ∈ ls → usable f l → Db.ln_tseq l ≤ val r (Db.ln_tchain l) }.

Lemma generation_positive f reach ls r n : positive reach → generation f reach ls r n → positive r.
Proof.
  intros Hp [Hc _] c s Hs. destruct (Hc c) as [[E _]|(s2 & E & _ & Hv & _)].
  - rewrite E in Hs. by eapply Hp.
  - rewrite E in Hs. simplify_eq. pose proof (val_nonneg _ c Hp). lia.
Qed.

Lemma generation_snoc f reach ls r n l :
  positive reach → Db.ln_ochain l ∈ dom f → generation f reach ls r n →
  let '(r', n') := follow_link f (r, n) l in generation f reach (ls ++ [l]) r' n'.
Proof.
  intros Hp Hdom Hg. pose proof (generation_positive _ _ _ _ _ Hp Hg) as Hr. destruct Hg as [Hc Hd].
  apply elem_of_dom in Hdom as [sf Hsf].

  unfold follow_link. rewrite Hsf. simpl. case_bool_decide as Hus; [|case_bool_decide as Hlt].
  - split.
    + intros c. destruct (Hc c) as [?|(s & ? & ? & ? & l' & ? & ?)]; [by left|right].
      exists s. split_and!; [done..|]. exists l'. split; [set_solver|done].
    + intros l' [?| ->%list_elem_of_singleton]%elem_of_app Hu; [by apply Hd|].
      destruct Hu as (s & Hs & ?). rewrite Hsf in Hs. simplify_eq. lia.
  - change (val r (Db.ln_tchain l) < Db.ln_tseq l) in Hlt.
    assert (val n (Db.ln_tchain l) < Db.ln_tseq l) as Hn.
    { destruct (Hc (Db.ln_tchain l)) as [[_ E]|(s & E1 & E2 & _)]; unfold val in *.
      - rewrite E. simpl. pose proof (val_nonneg r (Db.ln_tchain l) Hr). unfold val in *. lia.
      - rewrite E1 in Hlt. by rewrite E2. }
    rewrite raise_new by done. split.
    + intros c. destruct (decide (c = Db.ln_tchain l)) as [->|Hne].
      * right. exists (Db.ln_tseq l). rewrite !lookup_insert_eq. split_and!; [done..| |].
        { destruct (Hc (Db.ln_tchain l)) as [[E _]|(s & E & _ & ? & _)]; unfold val in *.
          - by rewrite <-E. - rewrite E in Hlt. simpl in Hlt. lia. }
        exists l. split_and!; [set_solver|by exists sf; split; [|lia]|done..].
      * rewrite !lookup_insert_ne by done.
        destruct (Hc c) as [?|(s & ? & ? & ? & l' & ? & ?)]; [by left|right].
        exists s. split_and!; [done..|]. exists l'. split; [set_solver|done].
    + intros l' Hl' Hu. unfold val. destruct (decide (Db.ln_tchain l' = Db.ln_tchain l)) as [E|Hne].
      * rewrite E, lookup_insert_eq. simpl.
        apply elem_of_app in Hl' as [Hl'| ->%list_elem_of_singleton]; [|lia].
        specialize (Hd _ Hl' Hu). rewrite E in Hd. lia.
      * rewrite lookup_insert_ne by done.
        apply elem_of_app in Hl' as [Hl'| ->%list_elem_of_singleton]; [by apply Hd|done].
  - change (¬ val r (Db.ln_tchain l) < Db.ln_tseq l) in Hlt. split.
    + intros c. destruct (Hc c) as [?|(s & ? & ? & ? & l' & ? & ?)]; [by left|right].
      exists s. split_and!; [done..|]. exists l'. split; [set_solver|done].
    + intros l' [?| ->%list_elem_of_singleton]%elem_of_app Hu; [by apply Hd|]. lia.
Qed.

Lemma follow_all_generation links f reach :
  positive reach →
  let '(r, n) := follow_all links f reach in
  generation f reach (filter (λ l, Db.ln_ochain l ∈ dom f) links) r n.
Proof.
  intros Hp. unfold follow_all.
  assert (∀ ls, (∀ l, l ∈ ls → Db.ln_ochain l ∈ dom f) →
    let '(r, n) := foldl (follow_link f) (reach, ∅) ls in generation f reach ls r n) as H.
  { intros ls. induction ls as [|l ls IH] using rev_ind; intros Hin.
    - split; [by left|]. by intros l ?%not_elem_of_nil.
    - rewrite foldl_app. simpl. destruct (foldl _ _ ls) as [r n]. apply generation_snoc; [done|..].
      + apply Hin. set_solver.
      + apply IH. set_solver. }
  apply H. intros l [? _]%list_elem_of_filter. done.
Qed.

(** The links that can still raise a chain. *)
Definition open_links links r : list Db.link_row :=
  filter (λ l, val r (Db.ln_tchain l) < Db.ln_tseq l) links.

Lemma generation_open links f reach r n :
  positive reach → generation f reach (filter (λ l, Db.ln_ochain l ∈ dom f) links) r n → n ≠ ∅ →
  (length (open_links links r) < length (open_links links reach))%nat.
Proof.
  intros Hp [Hc _] Hn. apply map_choose in Hn as (c & s & Hs).
  destruct (Hc c) as [[_ E]|(s' & Er & En & Hlt & l & [_ Hl]%list_elem_of_filter & _ & Htc & Hts)].
  { by rewrite E in Hs. }
  simplify_eq. apply (filter_length_lt _ _ _ l); [|done|..].
  - intros l' _ Hl'. destruct (Hc (Db.ln_tchain l')) as [[E _]|(s & E & _ & ? & _)].
    + unfold val in *. by rewrite <-E.
    + unfold val in *. rewrite E in Hl'. simpl in Hl'. lia.
  - lia.
  - unfold val. rewrite Er. simpl. lia.
Qed.

(** The loop's invariant, relative to the starting positions. *)
Record expanding links (start f reach : gmap Z Z) : Prop := {
  ex_positive : positive reach;
  ex_sound : ∀ c s, reach !! c = Some s → reached links start c s;
  ex_frontier : ∀ c s, f !! c = Some s → start !! c = Some s ∨ reached links start c s;
  ex_pending : ∀ l, l ∈ links → usable start l ∨ usable reach l →
               usable f l ∨ Db.ln_tseq l ≤ val reach (Db.ln_tchain l) }.

Lemma usable_dom f l : usable f l → Db.ln_ochain l ∈ dom f.
Proof. intros (s & ? & _). apply elem_of_dom. eauto. Qed.

Lemma expanding_step links start f reach :
  expanding links start f reach →
  let '(r, n) := follow_all links f reach in expanding links start n r.
Proof.
  intros [Hp Hs Hf Hpend]. pose proof (follow_all_generation links f reach Hp) as Hg.
  destruct (follow_all links f reach) as [r n].
  pose proof (generation_positive _ _ _ _ _ Hp Hg) as Hpr. destruct Hg as [Hc Hd].
  assert (∀ c s, n !! c = Some s → reached links start c s) as Hnew.
  { intros c s Hn. destruct (Hc c) as [[_ E]|(s' & _ & En & _ & l & [_ Hl]%list_elem_of_filter & (sf & Hsf & Ho) & <- & <-)].
    { by rewrite E in Hn. }
    simplify_eq. destruct (Hf _ _ Hsf) as [?|?]; [by eapply reached_start|by eapply reached_link]. }
  split; [done|..].
  - intros c s Hr. destruct (Hc c) as [[E _]|(s' & Er & En & _)].
    + rewrite E in Hr. by apply Hs.
    + rewrite Er in Hr. simplify_eq. by apply Hnew.
  - intros c s Hn. right. by apply Hnew.
  - intros l Hl Hu.
    assert (usable start l ∨ usable reach l ∨ usable n l) as [Hu'|[Hu'|Hu']]; [|auto 10..|by left].
    { destruct Hu as [?|(s & Er & ?)]; [by left|]. destruct (Hc (Db.ln_ochain l)) as [[E _]|(s' & Er' & En & _)].
      - right; left. exists s. by rewrite <-E.
      - right; right. exists s'. simplify_eq. done. }
    all: assert (usable f l ∨ Db.ln_tseq l ≤ val reach (Db.ln_tchain l)) as [Huf|Hle] by auto.
    1, 3: right; apply Hd; [|done]; apply list_elem_of_filter; split; [by apply usable_dom|done].
    all: right; destruct (Hc (Db.ln_tchain l)) as [[E _]|(s' & Er & _ & ? & _)]; unfold val in *;
      [by rewrite E|rewrite Er; simpl; lia].
Qed.

Lemma expanding_init links start : expanding links start start ∅.
Proof.
  split; [by intros ? ?|by intros ? ?|by left|]. intros l _ [?|(s & E & _)]; [by left|done].
Qed.

(** When the frontier is empty the result is the furthest point of every chain. *)
Lemma expanding_end links start reach :
  Forall (λ l, 0 < Db.ln_tseq l) links → expanding links start ∅ reach →
  ∀ c n, reached links start c n → 0 < n ∧ n ≤ val reach c.
Proof.
  intros Hpos [Hp Hs _ Hpend] c n Hr.
  assert (∀ l, l ∈ links → usable start l ∨ usable reach l → Db.ln_tseq l ≤ val reach (Db.ln_tchain l)) as Hend.
  { intros l Hl Hu. destruct (Hpend l Hl Hu) as [(s & E & _)|?]; [done|done]. }
  rewrite Forall_forall in Hpos.
  induction Hr as [l s Hl Hst Ho|l n Hr [IH1 IH2] Hl Ho].
  - split; [by apply Hpos|]. apply Hend; [done|]. left. by exists s.
  - split; [by apply Hpos|]. apply Hend; [done|]. right.
    apply val_Some in IH2 as (s & E & ?); [|done]. exists s. split; [done|lia].
Qed.

Lemma chains_pure_end fuel links start f reach :
  expanding links start f reach → (length (open_links links reach) + 2 ≤ fuel)%nat →
  expanding links start ∅ (chains_pure fuel links f reach).
Proof.
  revert f reach. induction fuel as [|fuel IH]; intros f reach He Hf; [lia|]. simpl.
  case_decide as Hemp; [by subst|].
  pose proof (expanding_step links start f reach He) as Hst.
  pose proof (follow_all_generation links f reach (ex_positive _ _ _ _ He)) as Hg.
  destruct (follow_all links f reach) as [r n].
  destruct (decide (n = ∅)) as [->|Hn].
  { destruct fuel; simpl; [by apply Hst|]. by rewrite decide_True. }
  apply IH; [done|]. pose proof (generation_open _ _ _ _ _ (ex_positive _ _ _ _ He) Hg Hn). lia.
Qed.

Lemma chains_pure_fuel links start f reach F1 F2 :
  expanding links start f reach →
  (length (open_links links reach) + 2 ≤ F1)%nat → (length (open_links links reach) + 2 ≤ F2)%nat →
  chains_pure F1 links f reach = chains_pure F2 links f reach.
Proof.
  revert f reach F2. induction F1 as [|F1 IH]; intros f reach [|F2] He H1 H2; try lia. simpl.
  case_decide; [done|].
  pose proof (expanding_step links start f reach He) as Hst.
  pose proof (follow_all_generation links f reach (ex_positive _ _ _ _ He)) as Hg.
  destruct (follow_all links f reach) as [r n].
  destruct (decide (n = ∅)) as [->|Hn]; [by destruct F1, F2|].
  pose proof (generation_open _ _ _ _ _ (ex_positive _ _ _ _ He) Hg Hn). apply IH; [done|lia|lia].
Qed.

Lemma open_links_le links r : (length (open_links links r) ≤ length links)%nat.
Proof. apply length_filter. Qed.
End chains.

(** ** The store calls are their pure counterparts *)
Section calls.
Context (d : DB) (F : nat) (P : contract).
Notation links := (Db.event_auth_chain_links d).
Notation evals := (evals d F P).


Lemma evals_chains_loop fuel start f reach :
  expanding links start f reach → (length (open_links links reach) + 2 ≤ fuel)%nat →
  evals (chains_loop fuel f reach) (Ok (chains_pure fuel links f reach)).
Proof.
  revert f reach. induction fuel as [|fuel IH]; intros f reach He Hf; [lia|]. simpl.
  case_decide as Hemp; [apply evals_ret|].
  eapply evals_bind; [apply evals_query|]. fold (follow_all links f reach).
  unfold links_from. fold (follow_all links f reach).
  pose proof (expanding_step links start f reach He) as Hst.
  pose proof (follow_all_generation links f reach (ex_positive _ _ _ _ He)) as Hg.
  destruct (follow_all links f reach) as [r n].
  destruct (decide (n = ∅)) as [->|Hn].
  { destruct fuel; [lia|]. simpl. rewrite !decide_True by done. apply evals_ret. }
  apply IH; [done|]. pose proof (generation_open _ _ _ _ _ (ex_positive _ _ _ _ He) Hg Hn). lia.
Qed.

Lemma evals_fuel {A} (k : nat → M A) r :
  (∀ n, (F ≤ n)%nat → evals (k n) r) → evals (fuel ≫= k) r.
Proof.
  intros Hk w Hw. unfold mbind, M_bind, fuel. apply Hk; [|done]. apply Hw.
Qed.

Lemma evals_materialise start :
  (chain_fuel d ≤ F)%nat →
  evals (materialiseChains start) (Ok (chains_pure (chain_fuel d) links start ∅)).
Proof.
  intros HF. apply evals_fuel. intros n Hn. pose proof (open_links_le links ∅).
  unfold chain_fuel in *.
  rewrite (chains_pure_fuel links start start ∅ _ n); [|apply expanding_init|lia|lia].
  eapply evals_chains_loop; [apply expanding_init|lia].
Qed.

(** *** The recursive walk *)
Lemma evals_walk_batches bs next :
  evals (walk_batches bs next) (Ok (next ∪ list_to_set (bs ≫= λ b, auth_ids b d))).
Proof.
  revert next. induction bs as [|b bs IH]; intros next; simpl.
  - rewrite (right_id_L ∅ (∪)). apply evals_ret.
  - eapply evals_bind; [apply evals_query|].
    rewrite list_to_set_app_L, (assoc_L (∪)). apply IH.
Qed.

Lemma elem_of_auth_ids ids e : e ∈ auth_ids ids d ↔ ∃ i, i ∈ ids ∧ auth d i e.
Proof.
  unfold auth_ids, auth. rewrite list_elem_of_bind. split.
  - intros ([i a] & He & [Hi Ha]%list_elem_of_filter).
    apply list_elem_of_bind in He as (x & He & [Hx Hin]%list_elem_of_filter).
    apply list_elem_of_singleton in He. simpl in *. subst. exists i. split_and!; [done..|].
    by apply list_elem_of_fmap_2.
  - intros (i & Hi & Ha & (x & -> & Hx)%list_elem_of_fmap). exists (i, Db.ev_id x). split.
    + apply list_elem_of_bind. exists x. split; [by apply list_elem_of_singleton|].
      by apply list_elem_of_filter.
    + by apply list_elem_of_filter.
Qed.

(** The next generation of the walk: the batches do not matter. *)
Definition next_front (front : gset string) : gset string := list_to_set (auth_ids (elements front) d).

Lemma next_front_spec front e : e ∈ next_front front ↔ ∃ i, i ∈ front ∧ auth d i e.
Proof.
  unfold next_front. rewrite elem_of_list_to_set, elem_of_auth_ids.
  by setoid_rewrite elem_of_elements.
Qed.

Lemma evals_generation front :
  evals (walk_batches (batches authChainBatch (elements front)) ∅) (Ok (next_front front)).
Proof.
  assert (next_front front =
    ∅ ∪ list_to_set (batches authChainBatch (elements front) ≫= λ b, auth_ids b d)) as ->;
    [|apply evals_walk_batches].
  apply set_eq. intros e. rewrite (left_id_L ∅ (∪)), next_front_spec, elem_of_list_to_set.
  rewrite list_elem_of_bind. setoid_rewrite elem_of_auth_ids.
  assert (∀ i, i ∈ front ↔ ∃ b, b ∈ batches authChainBatch (elements front) ∧ i ∈ b) as Hb.
  { intros i. rewrite <-elem_of_elements. rewrite <-(batches_concat authChainBatch (elements front)) at 1
      by (unfold authChainBatch; lia).
    rewrite list_elem_of_In, in_concat. setoid_rewrite <-list_elem_of_In. naive_solver. }
  setoid_rewrite Hb. naive_solver.
Qed.

(** The walk's invariant: what was found is in the chain, and everything one
    step from a start or a found event is found or one step from the front. *)
Record walking (ids : list string) (front results : gset string) : Prop := {
  wk_front : ∀ e, e ∈ front → e ∈ ids ∨ e ∈ results;
  wk_sound : ∀ e, e ∈ results → in_chain d ids e;
  wk_closed : ∀ i e, i ∈ ids ∨ i ∈ results → auth d i e → e ∈ results ∨ i ∈ front }.

Lemma walking_init ids : walking ids (list_to_set ids) ∅.
Proof. split; set_solver. Qed.

Lemma walking_step ids front results :
  walking ids front results →
  walking ids (next_front front ∖ results) (results ∪ next_front front).
Proof.
  intros [Hf Hs Hc]. split.
  - set_solver.
  - intros e [He|He]%elem_of_union; [by apply Hs|].
    apply next_front_spec in He as (i & Hi & Ha). destruct (Hf i Hi) as [Hid|Hr].
    + exists i. split; [done|by apply tc_once].
    + destruct (Hs i Hr) as (j & Hj & Ht). exists j. split; [done|by eapply tc_r].
  - intros i e Hi Ha.
    assert (i ∈ ids ∨ i ∈ results ∨ i ∈ next_front front ∖ results) as [Hi'|[Hi'|Hi']].
    { destruct Hi as [?|[?|?]%elem_of_union]; [auto..|].
      destruct (decide (i ∈ results)); [auto|]. right; right. by apply elem_of_difference. }
    1, 2: destruct (Hc i e) as [?|Hif]; [auto|done|left; by apply elem_of_union_l|].
    1, 2: left; apply elem_of_union_r, next_front_spec; eauto.
    by right.
Qed.

Lemma walking_end ids results : walking ids ∅ results → ∀ e, e ∈ results ↔ in_chain d ids e.
Proof.
  intros [Hf Hs Hc] e. split; [by apply Hs|]. intros (i & Hi & Ht).
  assert (∀ x y, (x ∈ ids ∨ x ∈ results) → tc (auth d) x y → y ∈ results) as H; [|by eapply H; [left|]].
  clear i e Hi Ht. intros x y Hx Ht. induction Ht as [x y Ha|x y z Ha Ht IH].
  - destruct (Hc x y Hx Ha) as [?|?]; [done|set_solver].
  - apply IH. right. destruct (Hc x y Hx Ha) as [?|?]; [done|set_solver].
Qed.

(** Every generation with a new front finds something new. *)
Definition unfound (results : gset string) : list string :=
  filter (λ e, e ∉ results) ((Db.event_auth d).*2).

Lemma unfound_le results : (length (unfound results) ≤ length (Db.event_auth d))%nat.
Proof.
  unfold unfound. etrans; [apply length_filter|]. by rewrite length_fmap.
Qed.

Lemma unfound_lt front results :
  next_front front ∖ results ≠ ∅ →
  (length (unfound (results ∪ next_front front)) < length (unfound results))%nat.
Proof.
  intros (e & [He Hn]%elem_of_difference)%set_choose_L. unfold unfound.
  apply (filter_length_lt _ _ _ e).
  - set_solver.
  - apply next_front_spec in He as (i & _ & Ha & _). apply list_elem_of_fmap. by exists (i, e).
  - done.
  - set_solver.
Qed.

Lemma evals_walk_loop fuel ids front results :
  walking ids front results → (length (unfound results) + 2 ≤ fuel)%nat →
  ∃ out, evals (walk_loop fuel front results) (Ok out) ∧ ∀ e, e ∈ out ↔ in_chain d ids e.
Proof.
  revert front results. induction fuel as [|fuel IH]; intros front results Hw Hf; [lia|]. simpl.
  case_decide as Hemp.
  { subst. exists results. split; [apply evals_ret|by apply walking_end]. }
  pose proof (walking_step _ _ _ Hw) as Hw'.
  destruct (decide (next_front front ∖ results = ∅)) as [Hd|Hd].
  - exists (results ∪ next_front front). rewrite Hd in Hw'. split; [|by apply walking_end].
    eapply evals_bind; [apply evals_generation|]. rewrite Hd. destruct fuel; [lia|]. simpl.
    rewrite decide_True by done. apply evals_ret.
  - pose proof (unfound_lt _ _ Hd).
    destruct (IH _ _ Hw') as (out & He & Hout); [lia|]. exists out. split; [|done].
    eapply evals_bind; [apply evals_generation|]. done.
Qed.
End calls.

(** ** The cover index describes the auth relation

    What Synapse maintains, and the comment on [GetAuthChainIDs] states: every
    event with a position reaches everything earlier in its chain, a link's
    origin reaches its target, and everything an event lists among its auth
    events is found from its position by the links. *)
Record cover_index (d : DB) : Prop := {
  ci_unique : NoDup (Db.ch_event <$> Db.event_auth_chains d);
  ci_seq : Forall (λ r, 0 < Db.ch_seq r) (Db.event_auth_chains d);
  ci_link_seq : Forall (λ l, 0 < Db.ln_tseq l) (Db.event_auth_chain_links d);
  ci_position : ∀ r1 r2, r1 ∈ Db.event_auth_chains d → r2 ∈ Db.event_auth_chains d →
    Db.ch_chain r1 = Db.ch_chain r2 → Db.ch_seq r1 = Db.ch_seq r2 → Db.ch_event r1 = Db.ch_event r2;
  ci_order : ∀ r1 r2, r1 ∈ Db.event_auth_chains d → r2 ∈ Db.event_auth_chains d →
    Db.ch_chain r1 = Db.ch_chain r2 → Db.ch_seq r2 < Db.ch_seq r1 →
    tc (auth d) (Db.ch_event r1) (Db.ch_event r2);
  ci_link : ∀ l, l ∈ Db.event_auth_chain_links d →
    ∃ r1 r2, r1 ∈ Db.event_auth_chains d ∧ r2 ∈ Db.event_auth_chains d ∧
      Db.ch_chain r1 = Db.ln_ochain l ∧ Db.ch_seq r1 = Db.ln_oseq l ∧
      Db.ch_chain r2 = Db.ln_tchain l ∧ Db.ch_seq r2 = Db.ln_tseq l ∧
      tc (auth d) (Db.ch_event r1) (Db.ch_event r2);
  ci_edge : ∀ r1 b, r1 ∈ Db.event_auth_chains d → auth d (Db.ch_event r1) b →
    ∃ r2, r2 ∈ Db.event_auth_chains d ∧ Db.ch_event r2 = b ∧
      ((Db.ch_chain r2 = Db.ch_chain r1 ∧ Db.ch_seq r2 < Db.ch_seq r1) ∨
       ∃ n, reached (Db.event_auth_chain_links d) {[Db.ch_chain r1 := Db.ch_seq r1]} (Db.ch_chain r2) n ∧
            Db.ch_seq r2 ≤ n) }.

Section cover.
Context (d : DB) (Hci : cover_index d) (ids : list string).
Notation rows := (Db.event_auth_chains d).
Notation links := (Db.event_auth_chain_links d).

Let start := start_chains (chain_positions ids d).
Let chains := chains_pure (chain_fuel d) links start ∅.

Lemma chains_expanded : expanding links start ∅ chains.
Proof.
  apply chains_pure_end; [apply expanding_init|]. pose proof (open_links_le links ∅).
  unfold chain_fuel. lia.
Qed.

Lemma foldl_raise (l : list Db.chain_row) :
  let m := foldl (λ m r, raise (Db.ch_chain r) (Db.ch_seq r) m) ∅ l in
  (∀ c s, m !! c = Some s → ∃ r, r ∈ l ∧ Db.ch_chain r = c ∧ Db.ch_seq r = s) ∧
  (∀ r, r ∈ l → Db.ch_seq r ≤ val m (Db.ch_chain r)).
Proof.
  induction l as [|r l [IH1 IH2]] using rev_ind; [split; [done|by intros ? ?%not_elem_of_nil]|].
  rewrite foldl_app. simpl. set (m := foldl _ ∅ l) in *. unfold raise. case_bool_decide as Hlt; split.
  - intros c s [[<- <-]|[_ Hs]]%lookup_insert_Some; [exists r; set_solver|].
    destruct (IH1 c s Hs) as (r' & ? & ? & ?). exists r'. set_solver.
  - intros r' Hr'. unfold val. destruct (decide (Db.ch_chain r' = Db.ch_chain r)) as [E|Hne].
    + rewrite E, lookup_insert_eq. simpl. apply elem_of_app in Hr' as [Hr'| ->%list_elem_of_singleton]; [|done].
      specialize (IH2 _ Hr'). unfold val in IH2. rewrite E in IH2. lia.
    + rewrite lookup_insert_ne by done. apply IH2. set_solver.
  - intros c s Hs. destruct (IH1 c s Hs) as (r' & ? & ? & ?). exists r'. set_solver.
  - intros r' [Hr'| ->%list_elem_of_singleton]%elem_of_app; [by apply IH2|]. unfold val. lia.
Qed.

Lemma start_sound c s : start !! c = Some s →
  ∃ r, r ∈ rows ∧ Db.ch_event r ∈ ids ∧ Db.ch_chain r = c ∧ Db.ch_seq r = s.
Proof.
  intros Hs. apply (foldl_raise (chain_positions ids d)) in Hs as (r & Hr & <- & <-).
  apply list_elem_of_filter in Hr as [? ?]. eauto.
Qed.

Lemma start_complete r : r ∈ rows → Db.ch_event r ∈ ids →
  ∃ s, start !! Db.ch_chain r = Some s ∧ Db.ch_seq r ≤ s.
Proof.
  intros Hr Hid. apply val_Some.
  - by eapply Forall_forall in Hr; [|apply (ci_seq _ Hci)].
  - apply (foldl_raise (chain_positions ids d)). by apply list_elem_of_filter.
Qed.

Lemma own_lookup (st m : gmap Z Z) c :
  own_chains st m !! c =
  match st !! c with
  | Some s => if bool_decide (1 < s ∧ val m c < s - 1) then Some (s - 1) else m !! c
  | None => m !! c
  end.
Proof.
  unfold own_chains. revert c.
  apply (map_fold_weak_ind (λ r st, ∀ c, r !! c = match st !! c with
    | Some s => if bool_decide (1 < s ∧ val m c < s - 1) then Some (s - 1) else m !! c
    | None => m !! c end)); [done|].
  intros c s st' r Hc IH c'. specialize (IH c') as IHc'.
  destruct (decide (c = c')) as [->|Hne].
  - rewrite lookup_insert_eq, Hc in *. case_bool_decide as H1.
    + rewrite IHc'. rewrite bool_decide_false by lia. done.
    + unfold raise. rewrite IHc'. unfold val. case_bool_decide as H2.
      * rewrite lookup_insert_eq. rewrite bool_decide_true by lia. done.
      * rewrite IHc'. rewrite bool_decide_false by lia. done.
  - rewrite lookup_insert_ne by done. rewrite <-IHc'. case_bool_decide; [done|].
    unfold raise. case_bool_decide; [by rewrite lookup_insert_ne|done].
Qed.

Lemma below_bounds r :
  r ∈ rows → below (cover_bounds d ids) r = true ↔
  Db.ch_seq r ≤ val chains (Db.ch_chain r) ∨
  ∃ s, start !! Db.ch_chain r = Some s ∧ Db.ch_seq r ≤ s - 1.
Proof.
  intros Hr. assert (0 < Db.ch_seq r) as Hpos by (eapply Forall_forall in Hr; [|apply (ci_seq _ Hci)]; done).
  unfold below, cover_bounds. fold start chains. rewrite own_lookup. unfold val.
  destruct (start !! Db.ch_chain r) as [s|]; [case_bool_decide|].
  - simpl. rewrite bool_decide_eq_true. split; [intros; right; eauto|].
    intros [?|(s' & ? & ?)]; simplify_eq; lia.
  - destruct (chains !! Db.ch_chain r); simpl in *; rewrite ?bool_decide_eq_true; split;
      try (intros; left; lia); try done; intros [?|(s' & ? & ?)]; simplify_eq; lia.
  - destruct (chains !! Db.ch_chain r); simpl in *; rewrite ?bool_decide_eq_true; split;
      try (intros; left; lia); try done; intros [?|(s' & ? & ?)]; simplify_eq; lia.
Qed.

Lemma in_chain_tc a b : in_chain d ids a → tc (auth d) a b → in_chain d ids b.
Proof. intros (i & ? & ?) Ht. exists i. split; [done|by etrans]. Qed.

Lemma same_position r1 r2 :
  r1 ∈ rows → r2 ∈ rows → Db.ch_chain r1 = Db.ch_chain r2 → Db.ch_seq r2 ≤ Db.ch_seq r1 →
  Db.ch_event r1 = Db.ch_event r2 ∨ tc (auth d) (Db.ch_event r1) (Db.ch_event r2).
Proof.
  intros H1 H2 Hc Hs. destruct (decide (Db.ch_seq r1 = Db.ch_seq r2)).
  - left. by apply (ci_position _ Hci).
  - right. apply (ci_order _ Hci); [done..|lia].
Qed.

Lemma reached_event c n : reached links start c n →
  ∃ r, r ∈ rows ∧ Db.ch_chain r = c ∧ Db.ch_seq r = n ∧ in_chain d ids (Db.ch_event r).
Proof.
  induction 1 as [l s Hl Hst Ho|l n Hr IH Hl Ho];
    destruct (ci_link _ Hci l Hl) as (r1 & r2 & H1 & H2 & C1 & S1 & C2 & S2 & Ht);
    exists r2; split_and!; try done.
  - destruct (start_sound _ _ Hst) as (r0 & H0 & Hid & C0 & S0).
    destruct (same_position r0 r1) as [E|Ht0]; [done..|congruence|lia| |].
    + exists (Db.ch_event r0). split; [done|congruence].
    + exists (Db.ch_event r0). split; [done|by etrans].
  - destruct IH as (r0 & H0 & C0 & S0 & Hin).
    destruct (same_position r0 r1) as [E|Ht0]; [done..|congruence|lia| |].
    + eapply in_chain_tc; [exact Hin|congruence].
    + eapply in_chain_tc; [exact Hin|by etrans].
Qed.

Lemma below_sound r : r ∈ rows → below (cover_bounds d ids) r = true → in_chain d ids (Db.ch_event r).
Proof.
  intros Hr Hb. assert (0 < Db.ch_seq r) as Hpos by (eapply Forall_forall in Hr; [|apply (ci_seq _ Hci)]; done).
  apply below_bounds in Hb as [Hb|(s & Hs & Hle)]; [|..|done].
  - apply val_Some in Hb as (s & Hs & Hle); [|done].
    apply (ex_sound _ _ _ _ chains_expanded) in Hs as Hre.
    destruct (reached_event _ _ Hre) as (r0 & H0 & C0 & S0 & Hin).
    destruct (same_position r0 r) as [E|Ht]; [done..|lia|congruence|by eapply in_chain_tc].
  - destruct (start_sound _ _ Hs) as (r0 & H0 & Hid & C0 & S0).
    exists (Db.ch_event r0). split; [done|]. apply (ci_order _ Hci); [done..|lia].
Qed.

Lemma reached_mono c1 n1 c n :
  reached links {[c1 := n1]} c n →
  (∃ s, (start !! c1 = Some s ∨ reached links start c1 s) ∧ n1 ≤ s) → reached links start c n.
Proof.
  intros Hr Hs. induction Hr as [l s' Hl Hst Ho|l n Hr IH Hl Ho]; [|by eapply reached_link].
  apply lookup_singleton_Some in Hst as [E1 E2]. subst c1 s'. destruct Hs as (s & [Hs|Hs] & Hle).
  - eapply reached_start; [done..|lia].
  - eapply reached_link; [done..|lia].
Qed.

(** At or below a starting or reached position. *)
Definition at_or_below (e : string) : Prop :=
  ∃ r s, r ∈ rows ∧ Db.ch_event r = e ∧ Db.ch_seq r ≤ s ∧
    (start !! Db.ch_chain r = Some s ∨ reached links start (Db.ch_chain r) s).

Lemma below_step a b : at_or_below a → auth d a b →
  ∃ r, r ∈ rows ∧ Db.ch_event r = b ∧ below (cover_bounds d ids) r = true.
Proof.
  intros (r1 & s & H1 & <- & Hle & Hs) Ha.
  assert (∀ c n, reached links start c n → n ≤ val chains c) as Hmax.
  { intros c n Hre. eapply expanding_end; [apply (ci_link_seq _ Hci)|apply chains_expanded|done]. }
  destruct (ci_edge _ Hci r1 b H1 Ha) as (r2 & H2 & <- & [[Hc Hlt]|(n & Hre & Hn)]).
  - exists r2. split_and!; [done..|]. apply below_bounds; [done|]. rewrite Hc.
    destruct Hs as [Hs|Hs]; [right; exists s; split; [done|lia]|left]. apply Hmax in Hs. lia.
  - exists r2. split_and!; [done..|]. apply below_bounds; [done|]. left.
    apply reached_mono in Hre; [apply Hmax in Hre; lia|]. exists s. auto.
Qed.

Lemma below_at_or_below r : r ∈ rows → below (cover_bounds d ids) r = true → at_or_below (Db.ch_event r).
Proof.
  intros Hr Hb. assert (0 < Db.ch_seq r) as Hpos by (eapply Forall_forall in Hr; [|apply (ci_seq _ Hci)]; done).
  apply below_bounds in Hb as [Hb|(s & Hs & Hle)]; [|..|done].
  - apply val_Some in Hb as (s & Hs & Hle); [|done]. exists r, s. split_and!; [done..|right].
    by apply (ex_sound _ _ _ _ chains_expanded).
  - exists r, s. split_and!; [done..|lia|by left].
Qed.

Lemma cover_chain_exact : covered d ids → ∀ e, e ∈ cover_chain d ids ↔ in_chain d ids e.
Proof.
  intros Hcov e. unfold cover_chain, events_below. rewrite list_elem_of_fmap. split.
  - intros (r & -> & [Hb Hr]%list_elem_of_filter). by apply below_sound.
  - intros (i & Hi & Ht).
    assert (∀ x y, at_or_below x → tc (auth d) x y →
      ∃ r, r ∈ rows ∧ Db.ch_event r = y ∧ below (cover_bounds d ids) r = true) as H.
    { intros x y Hx Hxy. induction Hxy as [x y Ha|x y z Ha Hyz IH]; [by eapply below_step|].
      apply IH. destruct (below_step x y Hx Ha) as (r & Hr & <- & Hb). by apply below_at_or_below. }
    destruct (H i e) as (r & Hr & <- & Hb); [|done|exists r; split; [done|by apply list_elem_of_filter]].
    pose proof (Hcov i Hi) as (r & -> & Hr)%list_elem_of_fmap.
    destruct (start_complete r Hr Hi) as (s & ? & ?). exists r, s. auto 10.
Qed.

Lemma cover_chain_nodup : NoDup (cover_chain d ids).
Proof. apply NoDup_fmap_filter, (ci_unique _ Hci). Qed.
End cover.

(** ** The calls against the auth relation *)
Section spec.
Context (sha256 : string → string) (d : DB).

(** Inputs the cache key tells apart: Matrix room IDs carry no NUL. *)
Definition plain (roomID : string) (ids : list string) : Prop :=
  contains_byte nul roomID = false ∧ Forall (λ id, str_len id < 2 ^ 64) ids.

(** What an entry of the auth chain cache promises. *)
Definition chain_entry (key : string) (out : list string) : Prop :=
  ∀ roomID ids, plain roomID ids → ids ≠ [] →
    key = AuthChainKey.AuthChainKey sha256 roomID ids → covered d ids ∧ out = cover_chain d ids.

Lemma cover_chain_perm ids1 ids2 : ids1 ≡ₚ ids2 → cover_chain d ids1 = cover_chain d ids2.
Proof.
  intros Hp. unfold cover_chain, cover_bounds, chain_positions.
  assert (filter (λ r, Db.ch_event r ∈ ids1) (Db.event_auth_chains d) =
          filter (λ r, Db.ch_event r ∈ ids2) (Db.event_auth_chains d)) as ->; [|done].
  apply list_filter_iff. intros r. by rewrite Hp.
Qed.

Lemma covered_perm ids1 ids2 : ids1 ≡ₚ ids2 → covered d ids1 → covered d ids2.
Proof. intros Hp Hc id. rewrite <-Hp. apply Hc. Qed.

Lemma covered_forallb ids :
  forallb (λ id, bool_decide (id ∈ (list_to_set (Db.ch_event <$> chain_positions ids d) : gset string))) ids
  = bool_decide (covered d ids).
Proof.
  apply eq_true_iff_eq. rewrite forallb_forall, bool_decide_eq_true. unfold covered.
  setoid_rewrite bool_decide_eq_true. setoid_rewrite <-list_elem_of_In.
  setoid_rewrite elem_of_list_to_set. setoid_rewrite list_elem_of_fmap. unfold chain_positions.
  setoid_rewrite list_elem_of_filter. naive_solver.
Qed.

Context (Hinj : Inj (=) (=) sha256) (F : nat) (P : contract).
Context (HP : ∀ key out, p_authChains P key out ↔ chain_entry key out) (HF : (chain_fuel d ≤ F)%nat).

Lemma entry_added roomID ids :
  plain roomID ids → covered d ids →
  chain_entry (AuthChainKey.AuthChainKey sha256 roomID ids) (cover_chain d ids).
Proof.
  intros [Hr Hl] Hc r' ids' [Hr' Hl'] _ Heq. apply Hinj in Heq.
  apply auth_chain_key_exact in Heq as [_ Hp]; [|done..].
  split; [by eapply covered_perm|by apply cover_chain_perm].
Qed.

(** The index lookup: what the index gives, or its error. *)
Lemma evals_GetAuthChainIDs roomID ids :
  plain roomID ids →
  evals d F P (GetAuthChainIDs sha256 roomID ids)
    (if decide (ids = []) then Ok []
     else if decide (covered d ids) then Ok (cover_chain d ids) else Err (ErrNoChainCoverIndex roomID)).
Proof.
  intros Hpl. destruct ids as [|i ids]; [apply evals_ret|]. rewrite decide_False by done.
  unfold GetAuthChainIDs. set (all := i :: ids) in *. apply evals_get_authChains.
  - eapply evals_bind; [apply evals_record|]. eapply evals_bind; [apply evals_query|].
    rewrite covered_forallb. case_decide as Hc; [rewrite bool_decide_true by done|rewrite bool_decide_false by done; apply evals_fail].
    eapply evals_bind; [by apply evals_materialise|]. fold (cover_bounds d all).
    case_decide as Hemp.
    { assert (cover_chain d all = []) as ->; [|apply evals_ret].
      unfold cover_chain. rewrite Hemp. unfold events_below, below.
      induction (Db.event_auth_chains d) as [|r l IH]; [done|]. rewrite filter_cons_False; [done|].
      by rewrite lookup_empty. }
    eapply evals_bind; [apply evals_query|].
    eapply evals_bind; [|apply evals_ret]. apply evals_add_authChains, HP. by apply entry_added.
  - intros out Hout. apply HP in Hout. destruct (Hout roomID all Hpl ltac:(done) eq_refl) as [Hc ->].
    eapply evals_bind; [apply evals_record|]. rewrite decide_True by done. apply evals_ret.
Qed.

(** The walk, on any database. *)
Lemma evals_recursive ids :
  ∃ out, evals d F P (GetAuthChainIDsRecursive ids) (Ok out) ∧ NoDup out ∧
         ∀ e, e ∈ out ↔ in_chain d ids e.
Proof using HF.
  assert (∃ r, evals d F P (f ← fuel; walk_loop f (list_to_set ids) ∅) (Ok r) ∧
               ∀ e, e ∈ r ↔ in_chain d ids e) as (r & He & Hr).
  { destruct (evals_walk_loop d F P (chain_fuel d) ids (list_to_set ids) ∅ (walking_init d ids)) as (out & _ & Hout).
    { pose proof (unfound_le d ∅). unfold chain_fuel. lia. }
    exists out. split; [|done]. apply evals_fuel. intros n Hn.
    destruct (evals_walk_loop d F P n ids (list_to_set ids) ∅ (walking_init d ids)) as (out' & He & Hout').
    { pose proof (unfound_le d ∅). unfold chain_fuel in *. lia. }
    assert (out = out') as ->; [|done]. apply set_eq. intros e. by rewrite Hout, Hout'. }
  exists (elements r). split_and!.
  - unfold GetAuthChainIDsRecursive. intros w Hw. destruct (He w Hw) as (w' & E & Hw').
    exists w'. split; [|done]. revert E. unfold mbind, M_bind, fuel.
    destruct (walk_loop _ _ _ w) as [[?|?] ?]; intros ?; by simplify_eq.
  - apply NoDup_elements.
  - intros e. rewrite elem_of_elements. apply Hr.
Qed.

Lemma evals_fallback roomID ids :
  cover_index d → plain roomID ids →
  ∃ out walked, evals d F P (GetAuthChainIDsWithFallback sha256 roomID ids) (Ok (out, walked)) ∧
    NoDup out ∧ (∀ e, e ∈ out ↔ in_chain d ids e) ∧ (walked = true ↔ ¬ covered d ids).
Proof.
  intros Hci Hpl. pose proof (evals_GetAuthChainIDs roomID ids Hpl) as Hg.
  destruct (decide (ids = [])) as [->|Hne]; [|destruct (decide (covered d ids)) as [Hc|Hc]].
  - exists [], false. split_and!; [|constructor|..].
    + eapply evals_bind; [by apply evals_try|apply evals_ret].
    + intros e. split; [by intros ?%not_elem_of_nil|by intros (i & ?%not_elem_of_nil & _)].
    + split; [done|]. intros []. by intros ? ?%not_elem_of_nil.
  - exists (cover_chain d ids), false. split_and!.
    + eapply evals_bind; [by apply evals_try|apply evals_ret].
    + by apply cover_chain_nodup.
    + by apply cover_chain_exact.
    + by split.
  - destruct (evals_recursive ids) as (out & He & Hnd & Hout). exists out, true. split_and!; [|done..|by split].
    eapply evals_bind; [by apply evals_try|]. simpl. eapply evals_bind; [exact He|apply evals_ret].
Qed.

(** C17. The auth chain is exact and the loops end: on a database whose cover
    index describes its auth relation, with the cache in any state that keeps
    its promise, [GetAuthChainIDsWithFallback] answers with each event reachable
    through [event_auth] from the given ones exactly once, through the index
    when it covers the events and by the walk otherwise. *)
Theorem auth_chain_exact roomID ids w :
  cover_index d → plain roomID ids → fit d F P w →
  ∃ out walked w', GetAuthChainIDsWithFallback sha256 roomID ids w = (Ok (out, walked), w') ∧
    fit d F P w' ∧ NoDup out ∧ (∀ e, e ∈ out ↔ in_chain d ids e) ∧ (walked = true ↔ ¬ covered d ids).
Proof.
  intros Hci Hpl Hw. destruct (evals_fallback roomID ids Hci Hpl) as (out & walked & He & Hnd & Hout & Hwk).
  destruct (He w Hw) as (w' & E & Hw'). exists out, walked, w'. auto.
Qed.

(** C36. The walk needs no index and no well-formed rooms: on any database,
    cyclic [event_auth] included, it ends and finds exactly the events reachable
    through [event_auth] and held. *)
Theorem recursive_walk_exact ids w :
  fit d F P w →
  ∃ out w', GetAuthChainIDsRecursive ids w = (Ok out, w') ∧ NoDup out ∧
    ∀ e, e ∈ out ↔ in_chain d ids e.
Proof using HF.
  intros Hw. destruct (evals_recursive ids) as (out & He & Hnd & Hout).
  destruct (He w Hw) as (w' & E & _). eauto.
Qed.

(** [materialiseChains] ends with the furthest reachable point of every
    chain, on any links with positive sequence numbers. *)
Theorem materialise_furthest start w :
  Forall (λ l, 0 < Db.ln_tseq l) (Db.event_auth_chain_links d) → fit d F P w →
  ∃ m w', materialiseChains start w = (Ok m, w') ∧
    (∀ c s, m !! c = Some s → reached (Db.event_auth_chain_links d) start c s) ∧
    (∀ c n, reached (Db.event_auth_chain_links d) start c n → ∃ s, m !! c = Some s ∧ n ≤ s).
Proof using HF.
  intros Hpos Hw. destruct (evals_materialise d F P start HF w Hw) as (w' & E & _).
  assert (expanding (Db.event_auth_chain_links d) start ∅
    (chains_pure (chain_fuel d) (Db.event_auth_chain_links d) start ∅)) as He.
  { apply chains_pure_end; [apply expanding_init|].
    pose proof (open_links_le (Db.event_auth_chain_links d) ∅). unfold chain_fuel. lia. }
  eexists _, w'. split; [done|]. split; [apply He|].
  intros c n Hr. destruct (expanding_end _ _ _ Hpos He c n Hr). by apply val_Some.
Qed.
End spec.

(** ** Witnesses *)
Section witnesses.
Local Open Scope string_scope.

(** Create event [$a], member event [$b] after it in one chain, message [$c] in
    another, linked to [$b]; [$x] is not indexed. *)
Definition wit_db : DB :=
  Db.MkDb [Db.EventRow "$a" "!r" "m.room.create" (Some "") "@u:s" false 1;
           Db.EventRow "$b" "!r" "m.room.member" (Some "@u:s") "@u:s" false 2;
           Db.EventRow "$c" "!r" "m.room.message" None "@u:s" false 3;
           Db.EventRow "$x" "!r" "m.room.message" None "@u:s" false 4] [] [] []
    [("$b", "$a"); ("$c", "$b"); ("$c", "$a"); ("$x", "$b"); ("$x", "$gone")] []
    [Db.ChainRow "$a" 1 1; Db.ChainRow "$b" 1 2; Db.ChainRow "$c" 2 1]
    [Db.LinkRow 2 1 1 2] [] [] [] [] [] [] [] [] [].

Definition wit_contract : contract :=
  MkContract (λ _ _, True) (λ _ _, True) (λ _ _, True) (chain_entry id wit_db) (λ _ _, True).
Definition wit_world : world :=
  MkWorld (λ _, Ok wit_db) (λ _, false) 20 0 (newCaches (Settings.Mk 0 0 0 0 0)) Trace.WithTrace.

Lemma auth_wit_fit : fit wit_db 20 wit_contract wit_world.
Proof. split; [done|done|done|]. apply keeps_new. repeat constructor; done. Qed.

Lemma wit_rows r : r ∈ Db.event_auth_chains wit_db →
  r = Db.ChainRow "$a" 1 1 ∨ r = Db.ChainRow "$b" 1 2 ∨ r = Db.ChainRow "$c" 2 1.
Proof.
  simpl. rewrite !elem_of_cons. intros [?|[?|[?|Hr]]]; [auto..|]. by apply not_elem_of_nil in Hr.
Qed.

Lemma wit_auth a b : (a, b) ∈ Db.event_auth wit_db → b ≠ "$gone" → auth wit_db a b.
Proof.
  intros Hin Hb. split; [done|]. simpl in Hin. rewrite !elem_of_cons in Hin.
  destruct Hin as [?|[?|[?|[?|[?|Hr]]]]]; simplify_eq; try in_list. by apply not_elem_of_nil in Hr.
Qed.

Lemma wit_cover_index : cover_index wit_db.
Proof.
  assert (auth wit_db "$b" "$a") as Hba by (apply wit_auth; [in_list|done]).
  assert (auth wit_db "$c" "$b") as Hcb by (apply wit_auth; [in_list|done]).
  split.
  - in_list.
  - repeat constructor; done.
  - repeat constructor; done.
  - intros r1 r2 [-> |[-> | ->]]%wit_rows [-> |[-> | ->]]%wit_rows; done.
  - intros r1 r2 [-> |[-> | ->]]%wit_rows [-> |[-> | ->]]%wit_rows; simpl; try lia. intros _ _. by apply tc_once.
  - intros l Hl. simpl in Hl. apply list_elem_of_singleton in Hl as ->.
    exists (Db.ChainRow "$c" 2 1), (Db.ChainRow "$b" 1 2).
    split_and!; try done; [in_list|in_list|by apply tc_once].
  - intros r1 b Hr1 [Hin Hb].
    assert (reached [Db.LinkRow 2 1 1 2] {[2 := 1]} 1 2) as Hre.
    { apply (reached_start _ _ (Db.LinkRow 2 1 1 2) 1); [by left|done|done]. }
    simpl in Hin. rewrite !elem_of_cons in Hin.
    apply wit_rows in Hr1 as [-> |[-> | ->]]; simpl in *;
      destruct Hin as [?|[?|[?|[?|[?|[]%not_elem_of_nil]]]]]; simplify_eq.
    + exists (Db.ChainRow "$a" 1 1). split_and!; [in_list|done|left; simpl; lia].
    + exists (Db.ChainRow "$b" 1 2). split_and!; [in_list|done|right].
      exists 2. split; [exact Hre|simpl; lia].
    + exists (Db.ChainRow "$a" 1 1). split_and!; [in_list|done|right].
      exists 2. split; [exact Hre|simpl; lia].
Qed.

Lemma auth_chain_exact_witness :
  ∃ out walked w', GetAuthChainIDsWithFallback id "!r" ["$c"] wit_world = (Ok (out, walked), w') ∧
    ∀ e, e ∈ out ↔ in_chain wit_db ["$c"] e.
Proof.
  destruct (auth_chain_exact id wit_db (λ _ _ H, H) 20 wit_contract (λ _ _, iff_refl _)
    ltac:(vm_compute; lia) "!r" ["$c"] wit_world wit_cover_index) as (out & walked & w' & E & _ & _ & Hin & _).
  - split; [done|]. repeat constructor.
  - apply auth_wit_fit.
  - eauto.
Defined.

Lemma recursive_walk_exact_witness :
  ∃ out w', GetAuthChainIDsRecursive ["$x"] wit_world = (Ok out, w') ∧
    ∀ e, e ∈ out ↔ in_chain wit_db ["$x"] e.
Proof.
  destruct (recursive_walk_exact wit_db 20 wit_contract ltac:(vm_compute; lia) ["$x"] wit_world)
    as (out & w' & E & _ & Hin); [apply auth_wit_fit|eauto].
Defined.

Lemma materialise_furthest_witness :
  ∃ m w', materialiseChains {[2 := 1]} wit_world = (Ok m, w') ∧
    ∀ c n, reached (Db.event_auth_chain_links wit_db) {[2 := 1]} c n → ∃ s, m !! c = Some s ∧ (n ≤ s)%Z.
Proof.
  destruct (materialise_furthest wit_db 20 wit_contract ltac:(vm_compute; lia) {[2 := 1]} wit_world)
    as (m & w' & E & _ & Hmax); [repeat constructor|apply auth_wit_fit|eauto].
Defined.
End witnesses.
