(* ===== verification/StateGroups.v ===== *)
(** * [internal/store/state.go]: room state at a state group

    A state group holds the rows of [state_groups_state] that carry its number;
    [state_group_edges] links a group to the one it is a delta against.  The
    queries walk that chain with a recursive common table expression and take,
    per (type, state_key), the row of the highest-numbered group.  A walk that
    meets a cycle never ends in PostgreSQL and is an error here. *)
From S2P Require Import Prelude Cache Store.

Open Scope Z_scope.

(** ** The queries *)

(** One level of [WITH RECURSIVE ... UNION ALL]. *)
Definition prev_groups (d : DB) (ws : list Z) : list Z :=
  s ← ws; e ← filter (λ e, e.1 = s) (Db.state_group_edges d); [e.2].

Fixpoint sgs_levels (d : DB) (fuel : nat) (ws : list Z) : option (list Z) :=
  match ws with
  | [] => Some []
  | _ => match fuel with
         | O => None
         | S fuel => (λ rest, ws ++ rest) <$> sgs_levels d fuel (prev_groups d ws)
         end
  end.

(** An acyclic walk has at most one level per edge, after the first. *)
Definition sgs (d : DB) (g : Z) : option (list Z) :=
  sgs_levels d (S (length (Db.state_group_edges d))) [g].

Definition row_key (r : Db.sgs_row) : StateKey := SK (Db.sg_type r) (Db.sg_key r).

(** [SELECT DISTINCT ON (type, state_key) ... ORDER BY ..., state_group DESC]. *)
Definition pick (m : gmap StateKey Db.sgs_row) (r : Db.sgs_row) : gmap StateKey Db.sgs_row :=
  match m !! row_key r with
  | Some r' => if bool_decide (Db.sg_group r' < Db.sg_group r) then <[row_key r := r]> m else m
  | None => <[row_key r := r]> m
  end.
Definition distinct_on (rows : list Db.sgs_row) : StateMap := Db.sg_event <$> foldl pick ∅ rows.

(** [stateGroupQuery], [stateGroupFilteredQuery] and [stateGroupMemberQuery]
    differ in their [WHERE] clause. *)
Definition state_query (keep : Db.sgs_row → bool) (g : Z) (d : DB) : option StateMap :=
  (λ groups, distinct_on (filter (λ r, Db.sg_group r ∈ groups ∧ keep r = true) (Db.state_groups_state d)))
    <$> sgs d g.

Definition all_rows (r : Db.sgs_row) : bool := true.
Definition rows_of_types (types : list string) (r : Db.sgs_row) : bool := bool_decide (Db.sg_type r ∈ types).
Definition rows_of_members (pattern : string) (r : Db.sgs_row) : bool :=
  bool_decide (Db.sg_type r = "m.room.member"%string) && like pattern (Db.sg_key r).

(** The transaction around each state query: begin, the planner hint, the query. *)
Definition in_tx (what : string) (q : DB → option StateMap) : M StateMap :=
  query "store: begin" (λ _, tt);;
  query "store: disable seqscan" (λ _, tt);;
  rows ← query what q;
  match rows with Some m => mret m | None => fail (Wrapped what (ErrQuery "statement timeout")) end.

(** ** The store calls *)
Definition GetStateGroupForEvent (eventID : string) : M Z :=
  hit ← get_eventStateGroup eventID;
  record_ (Trace.Record_ "event_state_groups" (bool_decide (is_Some hit)));;
  match hit with
  | Some g => mret g
  | None =>
      row ← query_row "store: get state group for event"
              (λ d, (filter (λ r, r.1 = eventID) (Db.event_to_state_groups d)).*2);
      match row with
      | None => fail ErrNotFound
      | Some None => fail ErrNotFound
      | Some (Some group) => add_eventStateGroup eventID group;; mret group
      end
  end.

Definition GetStateForGroup (group : Z) : M StateMap :=
  hit ← get_stateGroups group;
  record_ (Trace.Record_ "state_groups" (bool_decide (is_Some hit)));;
  match hit with
  | Some cached => mret cached
  | None =>
      state ← in_tx "store: state for group" (state_query all_rows group);
      add_stateGroups group state;;
      mret state
  end.

Definition filterByTypes (types : list string) (state : StateMap) : StateMap :=
  filter (λ kv, sk_type kv.1 ∈ types) state.

Definition filterMembersForServer (serverName : string) (state : StateMap) : StateMap :=
  let suffix := (":" +:+ serverName)%string in
  filter (λ kv, sk_type kv.1 = "m.room.member"%string ∧ has_suffix (sk_key kv.1) suffix = true) state.

(** Values are immutable here, so [copyState] is the identity; what the copies
    protect, the cached maps, is modelled by returning them by value. *)
Definition cachedFilteredState (key : FilteredStateKey) (fromWholeMap : StateMap → StateMap)
    (fromDB : M StateMap) : M StateMap :=
  hit ← get_filteredState key;
  match hit with
  | Some state =>
      record_ (Trace.Record_ "filtered_state" true);;
      mret state
  | None =>
      hit ← get_stateGroups (Group key);
      match hit with
      | Some whole =>
          add_filteredState key (fromWholeMap whole);;
          record_ (Trace.Record_ "filtered_state" true);;
          mret (fromWholeMap whole)
      | None =>
          filtered ← fromDB;
          add_filteredState key filtered;;
          record_ (Trace.Record_ "filtered_state" false);;
          mret filtered
      end
  end.

Definition types_key (group : Z) (types : list string) : FilteredStateKey :=
  FSK group ("types:" +:+ String.concat "," (sort_strings types)).
Definition members_key (group : Z) (serverName : string) : FilteredStateKey :=
  FSK group ("members:" +:+ serverName).

Definition GetFilteredStateForGroup (group : Z) (types : list string) : M StateMap :=
  cachedFilteredState (types_key group types) (filterByTypes types)
    (in_tx "store: filtered state" (state_query (rows_of_types types) group)).

Definition GetServerMembershipStateForGroup (group : Z) (serverName : string) : M StateMap :=
  if has_wildcard serverName then fail (ErrText ("store: invalid server name " +:+ serverName)) else
  cachedFilteredState (members_key group serverName) (filterMembersForServer serverName)
    (in_tx "store: filtered state" (state_query (rows_of_members ("%:" +:+ serverName)) group)).

(** ** Reference definitions *)

(** The state group of an event: its first row, when not NULL. *)
Definition event_group (d : DB) (eventID : string) : option Z :=
  mjoin (head (filter (λ r, r.1 = eventID) (Db.event_to_state_groups d)).*2).

(** The state at a group, when the walk ends. *)
Definition state_at (d : DB) (g : Z) : option StateMap := state_query all_rows g d.

(** The rows a group itself holds. *)
Definition own_state (d : DB) (g : Z) : StateMap :=
  distinct_on (filter (λ r, Db.sg_group r = g) (Db.state_groups_state d)).

(** ** Lemmas: the newest row of each key *)
Section newest.
Implicit Types (l : list Db.sgs_row) (k : StateKey).

(** [r] is the first row of [l] with the key [k] and the highest group. *)
Definition is_best k l r : Prop :=
  ∃ l1 l2, l = l1 ++ r :: l2 ∧ row_key r = k ∧
    (∀ x, x ∈ l1 → row_key x = k → Db.sg_group x < Db.sg_group r) ∧
    (∀ x, x ∈ l2 → row_key x = k → Db.sg_group x ≤ Db.sg_group r).

Lemma pick_best l k :
  match foldl pick ∅ l !! k with
  | Some r => is_best k l r
  | None => ∀ x, x ∈ l → row_key x ≠ k
  end.
Proof.
  induction l as [|x l IH] using rev_ind; [simpl; rewrite lookup_empty; by intros x ?%not_elem_of_nil|].
  rewrite foldl_app. simpl. set (m := foldl pick ∅ l) in *.
  destruct (decide (row_key x = k)) as [<-|Hne].
  - unfold pick. destruct (m !! row_key x) as [r|] eqn:E; rewrite ?E.
    + destruct IH as (l1 & l2 & -> & Hk & H1 & H2). case_bool_decide as Hlt.
      * rewrite lookup_insert_eq. eexists _, []. split_and!; [done|done| |by intros ? ?%not_elem_of_nil].
        intros y [Hy|[->|Hy]%elem_of_cons]%elem_of_app Hky; [specialize (H1 y Hy Hky); lia|done|].
        specialize (H2 y Hy Hky). lia.
      * rewrite E. exists l1, (l2 ++ [x]). split_and!; [by rewrite <-(assoc_L (++))|done|done|].
        intros y [Hy| ->%list_elem_of_singleton]%elem_of_app Hky; [by apply H2|lia].
    + rewrite lookup_insert_eq. exists l, []. split_and!; [done|done| |by intros ? ?%not_elem_of_nil].
      intros y Hy Hky. by destruct (IH y Hy).
  - assert (pick m x !! k = m !! k) as ->.
    { unfold pick. repeat case_match; try done; by rewrite lookup_insert_ne. }
    destruct (m !! k) as [r|].
    + destruct IH as (l1 & l2 & -> & Hk & H1 & H2). exists l1, (l2 ++ [x]).
      split_and!; [by rewrite <-(assoc_L (++))|done|done|].
      intros y [Hy| ->%list_elem_of_singleton]%elem_of_app Hky; [by apply H2|done].
    + intros y [Hy| ->%list_elem_of_singleton]%elem_of_app; [by apply IH|done].
Qed.

Lemma is_best_elem k l r : is_best k l r → r ∈ l ∧ row_key r = k ∧ ∀ x, x ∈ l → row_key x = k → Db.sg_group x ≤ Db.sg_group r.
Proof.
  intros (l1 & l2 & -> & Hk & H1 & H2). split_and!; [set_solver|done|].
  intros x [Hx|[->|Hx]%elem_of_cons]%elem_of_app Hkx; [specialize (H1 x Hx Hkx); lia|done|by apply H2].
Qed.

Lemma is_best_unique k l r1 r2 : is_best k l r1 → is_best k l r2 → r1 = r2.
Proof.
  intros (a1 & b1 & -> & K1 & A1 & B1) (a2 & b2 & E & K2 & A2 & B2).
  apply app_eq_inv in E as [(c & -> & E)|(c & -> & E)];
    (destruct c as [|y c]; simpl in E; [by injection E|injection E as <- ->]).
  - assert (Db.sg_group r1 ≤ Db.sg_group r2) by (apply B2; [set_solver|done]).
    assert (Db.sg_group r2 < Db.sg_group r1) by (apply A1; [set_solver|done]). lia.
  - assert (Db.sg_group r2 ≤ Db.sg_group r1) by (apply B1; [set_solver|done]).
    assert (Db.sg_group r1 < Db.sg_group r2) by (apply A2; [set_solver|done]). lia.
Qed.

(** Rows that lose can be left out. *)
Lemma is_best_filter (Q : Db.sgs_row → Prop) `{∀ x, Decision (Q x)} k l r :
  is_best k l r → Q r → is_best k (filter Q l) r.
Proof.
  intros (l1 & l2 & -> & Hk & H1 & H2) HQ. exists (filter Q l1), (filter Q l2).
  rewrite filter_app, filter_cons_True by done. split_and!; [done|done|..];
    intros x [_ Hx]%list_elem_of_filter; auto.
Qed.

Lemma distinct_on_lookup l k e :
  distinct_on l !! k = Some e ↔ ∃ r, is_best k l r ∧ Db.sg_event r = e.
Proof.
  unfold distinct_on. rewrite lookup_fmap, fmap_Some. pose proof (pick_best l k) as Hp.
  destruct (foldl pick ∅ l !! k) as [r|]; split.
  - intros (? & [= <-] & ->). eauto.
  - intros (r' & Hr' & <-). exists r. split; [done|]. by rewrite (is_best_unique k l r r').
  - by intros (? & ? & _).
  - intros (r & (Hin & Hk & _)%is_best_elem & _). by destruct (Hp r Hin).
Qed.

Lemma distinct_on_None l k : distinct_on l !! k = None ↔ ∀ x, x ∈ l → row_key x ≠ k.
Proof.
  unfold distinct_on. rewrite lookup_fmap, fmap_None. pose proof (pick_best l k) as Hp.
  destruct (foldl pick ∅ l !! k) as [r|]; [|done]. split; [done|].
  intros Hn. apply is_best_elem in Hp as (Hin & Hk & _). by destruct (Hn r Hin).
Qed.

Lemma option_ext {A} (x y : option A) : (∀ a, x = Some a → y = Some a) → (x = None → y = None) → x = y.
Proof. destruct x; intros H1 H2; symmetry; auto. Qed.

(** Rows selected by key commute with resolution. *)
Lemma distinct_on_filter (Q : StateKey → Prop) `{∀ k, Decision (Q k)} l :
  distinct_on (filter (λ r, Q (row_key r)) l) = filter (λ kv, Q kv.1) (distinct_on l).
Proof.
  apply map_eq. intros k. symmetry. apply option_ext.
  - intros e. rewrite map_lookup_filter_Some. intros [Hl HQ]. apply distinct_on_lookup in Hl as (r & Hr & <-).
    apply distinct_on_lookup. exists r. split; [|done].
    pose proof (is_best_elem _ _ _ Hr) as (_ & Hk & _). apply is_best_filter; [done|]. by rewrite Hk.
  - rewrite map_lookup_filter_None. intros Hf. apply distinct_on_None.
    intros x [HQ Hx]%list_elem_of_filter Hk.
    destruct Hf as [Hn|Hn].
    + by apply (proj1 (distinct_on_None l k) Hn x).
    + destruct (distinct_on l !! k) as [e|] eqn:E.
      * apply (Hn e); [done|]. simpl. by rewrite <-Hk.
      * by apply (proj1 (distinct_on_None l k) E x).
Qed.

(** Rows of a group higher than all others come first. *)
Lemma distinct_on_top g l :
  (∀ x, x ∈ l → Db.sg_group x ≤ g) →
  distinct_on l = distinct_on (filter (λ r, Db.sg_group r = g) l) ∪ distinct_on (filter (λ r, Db.sg_group r ≠ g) l).
Proof.
  intros Hg. apply map_eq. intros k. apply option_ext.
  - intros e He. apply distinct_on_lookup in He as (r & Hr & <-).
    pose proof (is_best_elem _ _ _ Hr) as (Hin & Hk & Hmax).
    destruct (decide (Db.sg_group r = g)) as [Heq|Hne].
    + apply lookup_union_Some_l, distinct_on_lookup. exists r. split; [|done]. by apply is_best_filter.
    + rewrite lookup_union_r.
      * apply distinct_on_lookup. exists r. split; [|done]. by apply is_best_filter.
      * apply distinct_on_None. intros x [Hx Hxl]%list_elem_of_filter Hkx.
        specialize (Hmax x Hxl Hkx). specialize (Hg r Hin). lia.
  - rewrite distinct_on_None. intros Hn. apply lookup_union_None. rewrite !distinct_on_None.
    split; intros x [_ Hx]%list_elem_of_filter; by apply Hn.
Qed.
End newest.

(** ** Delta chains *)
Section deltas.
Context (d : DB).

(** State groups are numbered upwards and have at most one predecessor. *)
Record delta_groups : Prop := {
  dg_single : NoDup (Db.state_group_edges d).*1;
  dg_down : ∀ e, e ∈ Db.state_group_edges d → e.2 < e.1 }.

Definition prev_of (g : Z) : option Z :=
  snd <$> head (filter (λ e, e.1 = g) (Db.state_group_edges d)).

Lemma sgs_levels_mono f1 f2 ws l :
  sgs_levels d f1 ws = Some l → (f1 ≤ f2)%nat → sgs_levels d f2 ws = Some l.
Proof.
  revert f2 ws l. induction f1 as [|f1 IH]; intros [|f2] [|x ws] l Hs Hf; simpl in *; try done; try lia.
  apply fmap_Some in Hs as (rest & Hs & ->). by rewrite (IH f2 _ rest) by (done || lia).
Qed.

Context (Hd : delta_groups).

Lemma sources_filter g : filter (λ e : Z * Z, e.1 = g) (Db.state_group_edges d) =
  match prev_of g with Some p => [(g, p)] | None => [] end.
Proof.
  unfold prev_of. pose proof (dg_single Hd) as Hs.
  induction (Db.state_group_edges d) as [|[a b] l IH]; [done|].
  rewrite fmap_cons, NoDup_cons in Hs. destruct Hs as [Ha Hl]. specialize (IH Hl).
  destruct (decide (a = g)) as [->|Hne].
  - rewrite filter_cons_True by done. simpl.
    assert (filter (λ e : Z * Z, e.1 = g) l = []) as ->; [|done].
    destruct (filter _ l) as [|[x y] r] eqn:E; [done|]. exfalso. apply Ha.
    assert ((x, y) ∈ filter (λ e : Z * Z, e.1 = g) l) as [Hx Hin]%list_elem_of_filter by (rewrite E; left).
    simpl in Hx. subst. by apply (list_elem_of_fmap_2 fst) in Hin.
  - by rewrite filter_cons_False.
Qed.

Lemma prev_groups_single g : prev_groups d [g] = option_list (prev_of g).
Proof.
  unfold prev_groups. simpl. rewrite app_nil_r, sources_filter. by destruct (prev_of g).
Qed.

Lemma prev_of_lt g p : prev_of g = Some p → p < g.
Proof.
  intros Hp. assert ((g, p) ∈ filter (λ e : Z * Z, e.1 = g) (Db.state_group_edges d)) as Hin.
  { rewrite sources_filter, Hp. left. }
  apply list_elem_of_filter in Hin as [_ Hin]. by apply (dg_down Hd) in Hin.
Qed.

(** Edges at or below a group: what bounds its chain. *)
Definition edges_upto (g : Z) : nat := length (filter (λ e : Z * Z, e.1 ≤ g) (Db.state_group_edges d)).

Lemma edges_upto_lt g p : prev_of g = Some p → (edges_upto p < edges_upto g)%nat.
Proof.
  intros Hp. pose proof (prev_of_lt g p Hp).
  assert ((g, p) ∈ filter (λ e : Z * Z, e.1 = g) (Db.state_group_edges d)) as [_ Hin]%list_elem_of_filter.
  { rewrite sources_filter, Hp. left. }
  unfold edges_upto. apply (filter_length_lt _ _ _ (g, p)); simpl; [|done|lia|lia]. intros; lia.
Qed.

Lemma sgs_chain f g :
  (edges_upto g < f)%nat →
  ∃ rest, sgs_levels d f [g] = Some (g :: rest) ∧ (∀ x, x ∈ rest → x < g) ∧
    match prev_of g with Some p => sgs_levels d (pred f) [p] = Some rest | None => rest = [] end.
Proof.
  revert g. induction f as [|f IH]; intros g Hf; [lia|]. cbn [sgs_levels pred].
  rewrite prev_groups_single. destruct (prev_of g) as [p|] eqn:Hp; simpl.
  - pose proof (edges_upto_lt g p Hp). pose proof (prev_of_lt g p Hp).
    destruct (IH p) as (rest & Hr & Hlt & _); [lia|]. rewrite Hr. simpl. eexists. split_and!; [done| |done].
    intros x [->|Hx]%elem_of_cons; [done|]. specialize (Hlt x Hx). lia.
  - exists []. destruct f; simpl; split_and!; try done; by intros ? ?%not_elem_of_nil.
Qed.

Lemma edges_upto_fuel g : (edges_upto g < S (length (Db.state_group_edges d)))%nat.
Proof. unfold edges_upto. pose proof (length_filter (λ e : Z * Z, e.1 ≤ g) (Db.state_group_edges d)). lia. Qed.

Lemma sgs_some g : ∃ rest, sgs d g = Some (g :: rest) ∧ (∀ x, x ∈ rest → x < g) ∧
  match prev_of g with Some p => sgs d p = Some rest | None => rest = [] end.
Proof.
  destruct (sgs_chain _ g (edges_upto_fuel g)) as (rest & Hs & Hlt & Hp). exists rest. split_and!; [done..|].
  destruct (prev_of g) as [p|]; [|done]. eapply sgs_levels_mono; [exact Hp|simpl; lia].
Qed.

Lemma state_at_delta g :
  state_at d g = Some (own_state d g ∪ default ∅ (prev_of g ≫= state_at d)).
Proof.
  destruct (sgs_some g) as (rest & Hs & Hlt & Hp). unfold state_at, state_query. rewrite Hs. simpl. f_equal.
  rewrite (distinct_on_top g); [|intros x [[[->|Hx]%elem_of_cons _] _]%list_elem_of_filter; [done|]; specialize (Hlt _ Hx); lia].
  rewrite !list_filter_filter. f_equal.
  - unfold own_state. f_equal. apply list_filter_iff. intros r. rewrite elem_of_cons. unfold all_rows. naive_solver.
  - destruct (prev_of g) as [p|]; simpl.
    + unfold state_query. rewrite Hp. simpl. f_equal. apply list_filter_iff. intros r. rewrite elem_of_cons.
      unfold all_rows. split; [naive_solver|]. intros [Hr _]. specialize (Hlt _ Hr). split; [lia|auto].
    + subst. assert (filter (λ r, Db.sg_group r ≠ g ∧ Db.sg_group r ∈ [g] ∧ all_rows r = true)
        (Db.state_groups_state d) = []) as ->; [|done].
      induction (Db.state_groups_state d) as [|r l IH]; [done|]. rewrite filter_cons_False; [done|].
      intros (Hne & Hin%list_elem_of_singleton & _). done.
Qed.
End deltas.

(** ** Filter strings name filters *)
Section filter_names.
Local Open Scope string_scope.

Definition comma : ascii := ","%char.

(** Types a filter string tells apart. *)
Definition clean (types : list string) : Prop :=
  types ≠ [] ∧ Forall (λ t, contains_byte comma t = false) types.

Lemma cut_none s : contains_byte comma s = false → cut comma s = (s, "", false).
Proof.
  induction s as [|a s IH]; intros Hs; cbn [cut contains_byte] in *; [done|].
  apply orb_false_iff in Hs as [Ha Hs]. apply bool_decide_eq_false in Ha.
  rewrite bool_decide_false by done. by rewrite IH.
Qed.

Lemma concat_inj l1 l2 :
  clean l1 → clean l2 → String.concat "," l1 = String.concat "," l2 → l1 = l2.
Proof.
  revert l2. induction l1 as [|x l1 IH]; intros [|y l2] [H1 C1] [H2 C2]; try done. intros Heq.
  apply Forall_cons in C1 as [Cx C1]. apply Forall_cons in C2 as [Cy C2].
  assert (∀ z l, contains_byte comma z = false → cut comma (String.concat "," (z :: l)) =
    match l with [] => (z, "", false) | _ => (z, String.concat "," l, true) end) as Hcut.
  { intros z [|t l] Hz; [by apply cut_none|]. apply (cut_sep comma z). done. }
  pose proof (Hcut x l1 Cx) as E1. pose proof (Hcut y l2 Cy) as E2. rewrite Heq, E2 in E1.
  destruct l1 as [|x' l1], l2 as [|y' l2]; try (injection E1; congruence).
  injection E1 as -> E1. f_equal. apply IH; [by split|by split|done].
Qed.

Lemma sort_clean types : clean types → clean (sort_strings types).
Proof.
  intros [Hn Hc]. split.
  - intros E. pose proof (sort_strings_perm types) as Hp. rewrite E in Hp.
    by apply Permutation_nil_l in Hp.
  - by rewrite sort_strings_perm.
Qed.

Lemma types_key_inj g1 t1 g2 t2 :
  clean t1 → clean t2 → types_key g1 t1 = types_key g2 t2 → g1 = g2 ∧ t1 ≡ₚ t2.
Proof.
  intros C1 C2 [= -> Heq]. split; [done|].
  apply concat_inj in Heq; [|by apply sort_clean..].
  by rewrite <-(sort_strings_perm t1), Heq, sort_strings_perm.
Qed.

Lemma members_key_inj g1 s1 g2 s2 : members_key g1 s1 = members_key g2 s2 → g1 = g2 ∧ s1 = s2.
Proof. unfold members_key. simpl. intros Heq. by simplify_eq. Qed.

Lemma keys_differ g1 t g2 s : types_key g1 t ≠ members_key g2 s.
Proof. intros Heq. apply (f_equal Filter_) in Heq. simpl in Heq. discriminate Heq. Qed.

(** *** The suffix match of the two paths *)
Definition no_specials (s : string) : Prop :=
  contains_byte "%" s = false ∧ contains_byte "_" s = false ∧ contains_byte "\" s = false.

Lemma like_literal p s : no_specials p → like p s = bool_decide (p = s).
Proof.
  revert s. induction p as [|c p IH]; intros s (H1 & H2 & H3); cbn [contains_byte] in *.
  { by destruct s. }
  apply orb_false_iff in H1 as [N1 H1]. apply orb_false_iff in H2 as [N2 H2].
  apply orb_false_iff in H3 as [N3 H3].
  apply bool_decide_eq_false in N1, N2, N3.
  assert (like (String c p) s =
    match s with String a s => bool_decide (a = c) && like p s | EmptyString => false end) as ->.
  { destruct c as [[] [] [] [] [] [] [] []]; done. }
  destruct s as [|a s]; [by rewrite bool_decide_false|]. rewrite IH by done.
  destruct (decide (a = c)) as [->|].
  - rewrite (bool_decide_true (c = c)) by done. apply bool_decide_ext. split; congruence.
  - rewrite (bool_decide_false (a = c)) by done.
    rewrite (bool_decide_false (String c p = String a s)); [done|]. by intros [= ->].
Qed.

Lemma any_suffix_spec f s : any_suffix f s = true ↔ ∃ n, (n ≤ String.length s)%nat ∧ f (drop_str n s) = true.
Proof.
  induction s as [|a s IH]; cbn [any_suffix]; rewrite orb_true_iff.
  - split.
    + intros [Hf|]; [|done]. by exists 0%nat.
    + intros (n & Hn & Hf). left. simpl in Hn. assert (n = 0%nat) as -> by lia. done.
  - rewrite IH. split.
    + intros [Hf|(n & Hn & Hf)]; [exists 0%nat; split; [lia|done]|exists (S n); split; [simpl; lia|done]].
    + intros ([|n] & Hn & Hf); [by left|right]. exists n. simpl in Hn. split; [lia|done].
Qed.

Lemma drop_str_length n s :
  (n ≤ String.length s)%nat → String.length (drop_str n s) = (String.length s - n)%nat.
Proof.
  revert s. induction n as [|n IH]; intros [|a s] Hn; simpl in *; try lia. by rewrite IH by lia.
Qed.

Lemma like_suffix p s : no_specials p → like (String "%" p) s = has_suffix s p.
Proof.
  intros Hp. apply eq_true_iff_eq. cbn [like]. rewrite any_suffix_spec. unfold has_suffix.
  rewrite andb_true_iff, !bool_decide_eq_true. split.
  - intros (n & Hn & Hl). rewrite like_literal in Hl by done. apply bool_decide_eq_true in Hl.
    pose proof (drop_str_length n s Hn) as Hlen. rewrite <-Hl in Hlen. split; [lia|].
    rewrite Hl at 2. f_equal. lia.
  - intros [Hlen Hd]. exists (String.length s - String.length p)%nat. split; [lia|].
    rewrite Hd, like_literal by done. by rewrite bool_decide_true.
Qed.
End filter_names.

(** ** The store calls against the reference state *)
Section calls.
Context (d : DB).

(** What the cached entries promise. *)
Definition state_entry (g : Z) (m : StateMap) : Prop := state_at d g = Some m.
Definition group_entry (eventID : string) (g : Z) : Prop := event_group d eventID = Some g.
Definition filtered_entry (k : FilteredStateKey) (m : StateMap) : Prop :=
  (∀ g types, clean types → k = types_key g types → filterByTypes types <$> state_at d g = Some m) ∧
  (∀ g srv, no_specials srv → k = members_key g srv → filterMembersForServer srv <$> state_at d g = Some m).

(** The database path and the in-memory path agree. *)
Lemma state_query_filter (Q : StateKey → Prop) `{∀ k, Decision (Q k)} keep g :
  (∀ r, keep r = true ↔ Q (row_key r)) →
  state_query keep g d = (λ m, filter (λ kv, Q kv.1) m) <$> state_at d g.
Proof.
  intros Hk. unfold state_at, state_query. destruct (sgs d g) as [groups|]; [|done]. simpl. f_equal.
  rewrite <-distinct_on_filter, list_filter_filter. f_equal. apply list_filter_iff. intros r.
  rewrite Hk. unfold all_rows. naive_solver.
Qed.

Lemma types_query types g : state_query (rows_of_types types) g d = filterByTypes types <$> state_at d g.
Proof.
  rewrite (state_query_filter (λ k, sk_type k ∈ types)); [done|]. intros r. apply bool_decide_eq_true.
Qed.

Lemma members_query srv g : no_specials srv →
  state_query (rows_of_members ("%:" +:+ srv)) g d = filterMembersForServer srv <$> state_at d g.
Proof.
  intros Hs.
  rewrite (state_query_filter (λ k, sk_type k = "m.room.member"%string ∧ has_suffix (sk_key k) (":" +:+ srv) = true));
    [done|].
  intros r. unfold rows_of_members. rewrite andb_true_iff, bool_decide_eq_true. simpl.
  rewrite <-(like_suffix (":" +:+ srv)); [done|]. done.
Qed.

Lemma filterByTypes_perm t1 t2 m : t1 ≡ₚ t2 → filterByTypes t1 m = filterByTypes t2 m.
Proof.
  intros Hp. unfold filterByTypes. apply map_filter_ext. intros k e _. simpl. by rewrite Hp.
Qed.

Lemma types_entry g types m : clean types → filterByTypes types <$> state_at d g = Some m →
  filtered_entry (types_key g types) m ∧ ∀ m', filtered_entry (types_key g types) m' → m' = m.
Proof.
  intros Hc Hm. split; [split|].
  - intros g' t' Hc' Heq. apply types_key_inj in Heq as [<- Hp]; [|done..].
    rewrite <-Hm. destruct (state_at d g); [|done]. simpl. f_equal. by rewrite (filterByTypes_perm _ _ _ Hp).
  - intros g' srv _ Heq. by apply keys_differ in Heq.
  - intros m' [H1 _]. specialize (H1 g types Hc eq_refl). congruence.
Qed.

Lemma members_entry g srv m : no_specials srv → filterMembersForServer srv <$> state_at d g = Some m →
  filtered_entry (members_key g srv) m ∧ ∀ m', filtered_entry (members_key g srv) m' → m' = m.
Proof.
  intros Hs Hm. split; [split|].
  - intros g' t' _ Heq. symmetry in Heq. by apply keys_differ in Heq.
  - intros g' srv' _ Heq. by apply members_key_inj in Heq as [<- <-].
  - intros m' [_ H2]. specialize (H2 g srv Hs eq_refl). congruence.
Qed.

Context (F : nat) (P : contract).
Context (HPs : ∀ g m, p_stateGroups P g m ↔ state_entry g m).
Context (HPg : ∀ id g, p_eventStateGroup P id g ↔ group_entry id g).
Context (HPf : ∀ k m, p_filteredState P k m ↔ filtered_entry k m).
Notation evals := (evals d F P).

Lemma evals_in_tx what q m : q d = Some m → evals (in_tx what q) (Ok m).
Proof using Type.
  intros Hq. unfold in_tx. do 3 (eapply evals_bind; [apply evals_query|]). rewrite Hq. apply evals_ret.
Qed.

Lemma evals_GetStateGroupForEvent id :
  evals (GetStateGroupForEvent id)
    (match event_group d id with Some g => Ok g | None => Err ErrNotFound end).
Proof using HPg.
  unfold GetStateGroupForEvent. apply evals_get_eventStateGroup.
  - eapply evals_bind; [apply evals_record|]. eapply evals_bind; [apply evals_query|].
    unfold event_group in *. destruct (head _) as [[g|]|] eqn:E; simpl; [|apply evals_fail..].
    eapply evals_bind; [|apply evals_ret]. apply evals_add_eventStateGroup, HPg.
    unfold group_entry, event_group. by rewrite E.
  - intros g Hg. apply HPg in Hg. unfold group_entry in Hg. rewrite Hg.
    eapply evals_bind; [apply evals_record|apply evals_ret].
Qed.

Lemma evals_GetStateForGroup g m : state_at d g = Some m → evals (GetStateForGroup g) (Ok m).
Proof using HPs.
  intros Hm. unfold GetStateForGroup. apply evals_get_stateGroups.
  - eapply evals_bind; [apply evals_record|]. eapply evals_bind; [by apply evals_in_tx|].
    eapply evals_bind; [|apply evals_ret]. by apply evals_add_stateGroups, HPs.
  - intros m' Hm'. apply HPs in Hm'. unfold state_entry in Hm'. simplify_eq.
    eapply evals_bind; [apply evals_record|apply evals_ret].
Qed.

Lemma evals_cachedFilteredState key f db m whole :
  state_at d (Group key) = Some whole → f whole = m → evals db (Ok m) → filtered_entry key m →
  (∀ m', filtered_entry key m' → m' = m) → evals (cachedFilteredState key f db) (Ok m).
Proof using HPs HPf.
  intros Hw Hf Hdb Hent Huniq. unfold cachedFilteredState. apply evals_get_filteredState.
  - apply evals_get_stateGroups.
    + eapply evals_bind; [exact Hdb|]. eapply evals_bind; [by apply evals_add_filteredState, HPf|].
      eapply evals_bind; [apply evals_record|apply evals_ret].
    + intros w Hw'. apply HPs in Hw'. unfold state_entry in Hw'. simplify_eq.
      eapply evals_bind; [by apply evals_add_filteredState, HPf|].
      eapply evals_bind; [apply evals_record|apply evals_ret].
  - intros m' Hm'. apply HPf in Hm'. rewrite (Huniq m' Hm').
    eapply evals_bind; [apply evals_record|apply evals_ret].
Qed.

Lemma evals_GetFilteredStateForGroup g types m :
  clean types → state_at d g = Some m →
  evals (GetFilteredStateForGroup g types) (Ok (filterByTypes types m)).
Proof using HPs HPf.
  intros Hc Hm. destruct (types_entry g types (filterByTypes types m) Hc) as [He Hu]; [by rewrite Hm|].
  eapply evals_cachedFilteredState; [exact Hm|done| |done|done].
  apply evals_in_tx. by rewrite types_query, Hm.
Qed.

Lemma evals_GetServerMembership g srv m :
  no_specials srv → state_at d g = Some m →
  evals (GetServerMembershipStateForGroup g srv) (Ok (filterMembersForServer srv m)).
Proof using HPs HPf.
  intros Hs Hm. unfold GetServerMembershipStateForGroup.
  assert (has_wildcard srv = false) as -> by (unfold has_wildcard; destruct Hs as (-> & -> & _); done).
  destruct (members_entry g srv (filterMembersForServer srv m) Hs) as [He Hu]; [by rewrite Hm|].
  eapply evals_cachedFilteredState; [exact Hm|done| |done|done].
  apply evals_in_tx. by rewrite members_query, Hm.
Qed.
End calls.

(** ** Properties *)
Section properties.
Context (d : DB) (F : nat) (P : contract).
Context (HPs : ∀ g m, p_stateGroups P g m ↔ state_entry d g m).
Context (HPg : ∀ id g, p_eventStateGroup P id g ↔ group_entry d id g).
Context (HPf : ∀ k m, p_filteredState P k m ↔ filtered_entry d k m).

(** C26. State resolution is the delta chain: with groups numbered upwards and at
    most one predecessor each, the walk ends for every group, and the state at a
    group is its own rows laid over the state at its predecessor. *)
Theorem state_is_delta_chain g w :
  delta_groups d → fit d F P w →
  ∃ w', GetStateForGroup g w =
    (Ok (own_state d g ∪ default ∅ (prev_of d g ≫= state_at d)), w') ∧ fit d F P w'.
Proof using HPs.
  intros Hd Hw. destruct (evals_GetStateForGroup d F P HPs g _ (state_at_delta d Hd g) w Hw) as (w' & E & Hw').
  eauto.
Qed.

(** C25. Caching is transparent: whatever the caches hold, provided what they
    hold is true of the database, a filtered lookup answers with the filtered
    state at the group, the same from the filtered cache, from a cached whole
    map, and from the database; and so does the membership lookup of a server. *)
Theorem filtered_state_transparent g types srv m w :
  state_at d g = Some m → clean types → no_specials srv → fit d F P w →
  (∃ w', GetFilteredStateForGroup g types w =
     (Ok (filter (λ kv, sk_type kv.1 ∈ types) m), w') ∧ fit d F P w') ∧
  (∃ w', GetServerMembershipStateForGroup g srv w =
     (Ok (filter (λ kv, sk_type kv.1 = "m.room.member"%string ∧
                        has_suffix (sk_key kv.1) (":" +:+ srv) = true) m), w') ∧ fit d F P w').
Proof using HPs HPf.
  intros Hm Hc Hs Hw. split.
  - destruct (evals_GetFilteredStateForGroup d F P HPs HPf g types m Hc Hm w Hw) as (w' & E & Hw'). eauto.
  - destruct (evals_GetServerMembership d F P HPs HPf g srv m Hs Hm w Hw) as (w' & E & Hw'). eauto.
Qed.
End properties.

(** ** Witnesses *)
Section witnesses.
Local Open Scope string_scope.

(** Group 10 is a delta on group 7: it replaces the topic and adds a member. *)
Definition wit_db : DB :=
  Db.MkDb [] [] [] [] [] [] [] [] [("$m", Some 10%Z); ("$o", None)]
    [Db.SgsRow 7 "m.room.create" "" "$create"; Db.SgsRow 7 "m.room.topic" "" "$t1";
     Db.SgsRow 10 "m.room.topic" "" "$t2"; Db.SgsRow 10 "m.room.member" "@a:s.org" "$join"]
    [(10, 7)%Z] [] [] [] [] [] [].

Definition wit_contract : contract :=
  MkContract (state_entry wit_db) (λ _ _, True) (group_entry wit_db) (λ _ _, True) (filtered_entry wit_db).
Definition wit_world : world :=
  MkWorld (λ _, Ok wit_db) (λ _, false) 20 0 (newCaches (Settings.Mk 0 0 0 0 0)) Trace.WithTrace.

Lemma groups_wit_fit : fit wit_db 20 wit_contract wit_world.
Proof. split; [done|done|done|]. apply keeps_new. repeat constructor; done. Qed.

Lemma wit_deltas : delta_groups wit_db.
Proof.
  split; [in_list|]. intros e He. apply list_elem_of_singleton in He as ->. simpl. lia.
Qed.

Definition wit_state : StateMap :=
  list_to_map [(SK "m.room.create" "", "$create"); (SK "m.room.topic" "", "$t2");
               (SK "m.room.member" "@a:s.org", "$join")].

Lemma state_is_delta_chain_witness :
  ∃ w', GetStateForGroup 10 wit_world =
    (Ok (own_state wit_db 10 ∪ default ∅ (prev_of wit_db 10 ≫= state_at wit_db)), w').
Proof.
  destruct (state_is_delta_chain wit_db 20 wit_contract (λ _ _, iff_refl _) 10 wit_world wit_deltas groups_wit_fit)
    as (w' & E & _). eauto.
Defined.

Lemma filtered_state_transparent_witness :
  ∃ w', GetFilteredStateForGroup 10 ["m.room.topic"] wit_world =
    (Ok (filter (λ kv, sk_type kv.1 ∈ ["m.room.topic"]) wit_state), w').
Proof.
  destruct (filtered_state_transparent wit_db 20 wit_contract (λ _ _, iff_refl _) (λ _ _, iff_refl _)
    10 ["m.room.topic"] "s.org" wit_state wit_world) as [(w' & E & _) _].
  - apply (bool_decide_unpack _). vm_compute. exact I.
  - split; [done|]. repeat constructor.
  - by split_and!.
  - apply groups_wit_fit.
  - eauto.
Defined.
End witnesses.
