(* ===== verification/MissingEvents.v ===== *)
(** * [internal/store/missingevents.go]: the backwards walk of /get_missing_events *)
From S2P Require Import Prelude Cache Store.

Open Scope Z_scope.

Definition MaxMissingEvents : Z := 20.

(** The query of [prevEvents] without its [LIMIT]: the prev events in the room,
    [ORDER BY ee.prev_event_id]. *)
Definition prevs (d : DB) (roomID eventID : string) : list string :=
  sort_strings
    (ee ← filter (λ ee, Db.ed_event ee = eventID ∧ Db.ed_is_state ee = false) (Db.event_edges d);
     e ← filter (λ e, Db.ev_id e = Db.ed_prev ee ∧ Db.ev_room e = roomID) (Db.events d);
     [Db.ed_prev ee]).

Definition prevEvents (eventID roomID : string) (limit : Z) : M (list string) :=
  query "store: prev events" (λ d, take (Z.to_nat limit) (prevs d roomID eventID)).

(** What the walk keeps: [seen], the next frontier, the results. *)
Record walk := Walk { seen : gset string; next : list string; results : list string }.

Definition visit (s : walk) (p : string) : walk :=
  if bool_decide (p ∈ seen s) then s
  else Walk ({[p]} ∪ seen s) (next s ++ [p]) (results s ++ [p]).

Definition len (l : list string) : Z := Z.of_nat (length l).

(** The inner loop over the frontier, with its [break]. *)
Fixpoint walk_front (roomID : string) (limit : Z) (front : list string) (s : walk) : M walk :=
  match front with
  | [] => mret s
  | eventID :: front =>
      if bool_decide (limit ≤ len (results s)) then mret s else
      prev ← prevEvents eventID roomID (limit - len (results s));
      walk_front roomID limit front (foldl visit s prev)
  end.

(** The outer loop. *)
Fixpoint walk_levels (fuel : nat) (roomID : string) (limit : Z) (s : walk) : M walk :=
  match fuel with
  | O => fail OutOfFuel
  | S fuel =>
      if bool_decide (next s ≠ [] ∧ len (results s) < limit) then
        s ← walk_front roomID limit (sort_strings (next s)) (Walk (seen s) [] (results s));
        walk_levels fuel roomID limit s
      else mret s
  end.

(** [wanted]: the latest events the caller does not already have. *)
Definition wanted (earliest latest : list string) : list string := filter (λ id, id ∉ earliest) latest.

Definition starts (d : DB) (roomID : string) (ids : list string) : list string :=
  Db.ev_id <$> filter (λ e, Db.ev_id e ∈ ids ∧ Db.ev_room e = roomID) (Db.events d).

(** The result is reversed; the [bool] is the truncation flag.  Every level but
    the last adds a result, so one level more than the limit is enough fuel. *)
Definition GetMissingEvents (roomID : string) (earliest latest : list string) (limit : Z)
    : M (list string * bool) :=
  let limit := if bool_decide (MaxMissingEvents < limit) then MaxMissingEvents else limit in
  if bool_decide (limit ≤ 0) then mret ([], false) else
  match wanted earliest latest with
  | [] => mret ([], false)
  | ids =>
      front ← query "store: missing events start" (λ d, starts d roomID ids);
      s ← walk_levels (S (S (Z.to_nat limit))) roomID limit (Walk (list_to_set earliest) front []);
      mret (reverse (results s), bool_decide (limit ≤ len (results s)))
  end.

(** ** What any run guarantees, whatever the queries answer *)
Section any_world.
Implicit Types (s : walk) (w : world).

(** The results are new, pairwise different, and within the limit. *)
Record sane (earliest : gset string) (limit : Z) s : Prop := {
  sn_seen : seen s = earliest ∪ list_to_set (results s);
  sn_new : ∀ x, x ∈ results s → x ∉ earliest;
  sn_nodup : NoDup (results s);
  sn_limit : len (results s) ≤ limit }.

Lemma visit_all s (ps : list string) earliest limit :
  sane earliest limit s → len (results s) + len ps ≤ limit → sane earliest limit (foldl visit s ps).
Proof.
  revert s. induction ps as [|p ps IH]; intros s Hs Hl; [done|]. simpl.
  unfold len in *. simpl in Hl. apply IH.
  - unfold visit. case_bool_decide as Hp; [done|]. destruct Hs as [H1 H2 H3 H4]. split; simpl.
    + rewrite H1, list_to_set_app_L. set_solver.
    + intros x [Hx| ->%list_elem_of_singleton]%elem_of_app; [by apply H2|]. rewrite H1, elem_of_union in Hp. tauto.
    + apply NoDup_app. split_and!; [done| |apply NoDup_singleton].
      intros x Hx Hxp. apply list_elem_of_singleton in Hxp as ->. apply Hp. rewrite H1. set_solver.
    + unfold len. rewrite length_app. simpl. lia.
  - unfold visit. case_bool_decide; simpl; rewrite ?length_app; simpl; lia.
Qed.

Lemma walk_front_sane roomID limit front s w s' w' earliest :
  walk_front roomID limit front s w = (Ok s', w') → sane earliest limit s → sane earliest limit s'.
Proof.
  revert s w. induction front as [|e front IH]; intros s w Hw Hs; [by apply mret_ok in Hw as [-> _]|]. simpl in Hw.
  case_bool_decide; [by apply mret_ok in Hw as [-> _]|].
  apply ok_bind in Hw as (ps & w1 & Hq & Hw). apply query_ok in Hq as (d & _ & ->).
  eapply IH; [exact Hw|]. apply visit_all; [done|]. unfold len in *. rewrite length_take. lia.
Qed.

Lemma walk_levels_sane fuel roomID limit s w s' w' earliest :
  walk_levels fuel roomID limit s w = (Ok s', w') → sane earliest limit s → sane earliest limit s'.
Proof.
  revert s w. induction fuel as [|fuel IH]; intros s w Hw Hs; [done|]. simpl in Hw.
  case_bool_decide; [|by apply mret_ok in Hw as [-> _]].
  apply ok_bind in Hw as (s1 & w1 & Hf & Hw). eapply IH; [exact Hw|].
  eapply walk_front_sane; [exact Hf|]. by destruct Hs; split.
Qed.

(** The frontier and the results grow together. *)
Lemma visit_all_next s (ps : list string) :
  (length (results s) ≤ length (results (foldl visit s ps)))%nat ∧
  (length (next (foldl visit s ps)) + length (results s) =
   length (next s) + length (results (foldl visit s ps)))%nat.
Proof.
  revert s. induction ps as [|p ps IH]; intros s; simpl; [lia|].
  destruct (IH (visit s p)) as [H1 H2]. revert H1 H2. generalize (foldl visit (visit s p) ps).
  unfold visit. intros s'. case_bool_decide; simpl; rewrite ?length_app; simpl; lia.
Qed.

Lemma walk_front_next roomID limit front s w s' w' :
  walk_front roomID limit front s w = (Ok s', w') →
  (length (results s) ≤ length (results s'))%nat ∧
  (length (next s') + length (results s) = length (next s) + length (results s'))%nat.
Proof.
  revert s w. induction front as [|e front IH]; intros s w Hw; [by apply mret_ok in Hw as [-> _]|].
  simpl in Hw. case_bool_decide; [by apply mret_ok in Hw as [-> _]|].
  apply ok_bind in Hw as (ps & w1 & _ & Hw). apply IH in Hw as [H1 H2].
  pose proof (visit_all_next s ps) as [H3 H4]. lia.
Qed.

Lemma walk_front_no_fuel roomID limit front s w : (walk_front roomID limit front s w).1 ≠ Err OutOfFuel.
Proof.
  revert s w. induction front as [|e front IH]; intros s w; simpl; [done|].
  case_bool_decide; [done|]. unfold mbind, M_bind, prevEvents, query.
  destruct (w_db w (w_tick w)); [apply IH|done].
Qed.

Lemma walk_levels_fuel fuel roomID limit s w :
  (Z.to_nat (limit - len (results s)) + 2 ≤ fuel)%nat →
  (walk_levels fuel roomID limit s w).1 ≠ Err OutOfFuel.
Proof.
  revert s w. induction fuel as [|fuel IH]; intros s w Hf; [lia|]. simpl.
  case_bool_decide as Hc; [|done]. destruct Hc as [_ Hlt].
  pose proof (walk_front_no_fuel roomID limit (sort_strings (next s)) (Walk (seen s) [] (results s)) w) as Hno.
  unfold mbind, M_bind. destruct (walk_front _ _ _ _ w) as [[s'|e] w'] eqn:E; [|done].
  apply walk_front_next in E as [H1 H2]. simpl in *. unfold len in *.
  destruct (next s') as [|x nx] eqn:En.
  - destruct fuel as [|fuel]; [lia|]. simpl. rewrite En, bool_decide_false by naive_solver. done.
  - apply IH. simpl in H2. lia.
Qed.
End any_world.

(** ** What a run on one database finds *)
Section one_db.
Context (d : DB) (roomID : string).
Implicit Types (s : walk) (w : world).

Definition steady (w : world) : Prop := ∀ n, w_db w n = Ok d.

(** [b] is a prev event of [a], in the room. *)
Definition parent (a b : string) : Prop := b ∈ prevs d roomID a.

(** ... and among the events found. *)
Definition inside (found : list string) (a b : string) : Prop := parent a b ∧ b ∈ found.
Lemma inside_mono found found' a x : found `prefix_of` found' → tc (inside found) a x → tc (inside found') a x.
Proof.
  intros [k ->] Ht. induction Ht as [y z [H1 H2]|y z u [H1 H2] _ IH]; [apply tc_once|eapply tc_l; [|exact IH]];
    (split; [done|]); apply elem_of_app; by left.
Qed.

Definition found_from (from : list string) s : Prop :=
  (∀ x, x ∈ next s → x ∈ from ∨ x ∈ results s) ∧
  ∀ x, x ∈ results s → ∃ a, a ∈ from ∧ tc (inside (results s)) a x.

(** Everything visited but [todo] has had its prev events looked at. *)
Definition closed (from todo : list string) s : Prop :=
  ∀ x, x ∈ from ∨ x ∈ results s → x ∈ todo ∨ ∀ p, parent x p → p ∈ seen s.

Lemma visit_all_mono s (ps : list string) :
  seen s ⊆ seen (foldl visit s ps) ∧ results s `prefix_of` results (foldl visit s ps) ∧
  (∀ p, p ∈ ps → p ∈ seen (foldl visit s ps)) ∧
  (∀ x, x ∈ results (foldl visit s ps) → x ∈ results s ∨ x ∈ ps) ∧
  (∀ x, x ∈ next (foldl visit s ps) → x ∈ next s ∨ x ∈ ps) ∧
  (∀ x, x ∈ next s → x ∈ next (foldl visit s ps)) ∧
  (∀ x, x ∈ results (foldl visit s ps) → x ∈ results s ∨ x ∈ next (foldl visit s ps)) ∧
  (∀ x, x ∈ next (foldl visit s ps) → x ∈ next s ∨ x ∈ results (foldl visit s ps)).
Proof.
  induction ps as [|p ps IH] using rev_ind.
  { simpl. split_and!; try done; auto. by intros ? ?%not_elem_of_nil. }
  rewrite foldl_app. simpl. destruct IH as (H1 & H2 & H3 & H4 & H5 & H6 & H7 & H8).
  set (s1 := foldl visit s ps) in *. unfold visit. case_bool_decide as Hp; simpl.
  - split_and!; try done.
    + intros q [Hq| ->%list_elem_of_singleton]%elem_of_app; auto.
    + intros x Hx. destruct (H4 x Hx); rewrite elem_of_app; auto.
    + intros x Hx. destruct (H5 x Hx); rewrite elem_of_app; auto.
  - split_and!.
    + intros x Hx. apply elem_of_union_r. auto.
    + etrans; [exact H2|]. by eexists.
    + intros q [Hq| ->%list_elem_of_singleton]%elem_of_app; apply elem_of_union; [auto|left].
      by apply elem_of_singleton.
    + intros x [Hx|Hx]%elem_of_app; rewrite elem_of_app; [destruct (H4 x Hx); auto|auto].
    + intros x [Hx|Hx]%elem_of_app; rewrite elem_of_app; [destruct (H5 x Hx); auto|auto].
    + intros x Hx. apply elem_of_app. auto.
    + intros x [Hx|Hx]%elem_of_app; rewrite elem_of_app; [destruct (H7 x Hx); auto|auto].
    + intros x [Hx|Hx]%elem_of_app; rewrite elem_of_app; [destruct (H8 x Hx); auto|auto].
Qed.

Lemma walk_front_steady limit front s w s' w' from :
  steady w → walk_front roomID limit front s w = (Ok s', w') →
  found_from from s → (∀ x, x ∈ front → x ∈ from ∨ x ∈ results s) →
  steady w' ∧ found_from from s' ∧ results s `prefix_of` results s' ∧
  (len (results s') < limit → (∀ e, e ∈ from ∨ e ∈ results s' → len (prevs d roomID e) + len (results s') ≤ limit) →
   closed from (front ++ next s) s → closed from (next s') s').
Proof.
  revert s w. induction front as [|e front IH]; intros s w Hst Hw Hff Hfr; simpl in Hw.
  { apply mret_ok in Hw as [-> ->]. auto. }
  case_bool_decide as Hlim.
  { apply mret_ok in Hw as [-> ->]. split_and!; try done. intros Hlt. lia. }
  apply ok_bind in Hw as (ps & w1 & Hq & Hw).
  assert (ps = take (Z.to_nat (limit - len (results s))) (prevs d roomID e) ∧ steady w1) as [-> Hst1].
  { unfold prevEvents, query in Hq. rewrite Hst in Hq. injection Hq as <- <-. by split. }
  set (n := Z.to_nat (limit - len (results s))) in *.
  pose proof (visit_all_mono s (take n (prevs d roomID e))) as (M1 & M2 & M3 & M4 & M5 & M6 & M7 & M8).
  set (s1 := foldl visit s (take n (prevs d roomID e))) in *.
  assert (∀ x, x ∈ take n (prevs d roomID e) → parent e x) as Htake.
  { intros x Hx. by apply (elem_of_take) in Hx as (i & Hi%list_elem_of_lookup_2 & _). }
  assert (e ∈ from ∨ e ∈ results s) as He by (apply Hfr; left).
  destruct Hff as [Hf1 Hf2].
  assert (∀ x, parent e x → x ∈ results s1 → ∃ a, a ∈ from ∧ tc (inside (results s1)) a x) as Hpar.
  { intros x Hx Hin. destruct He as [He|He]; [exists e; split; [done|by apply tc_once]|].
    destruct (Hf2 e He) as (a & Ha & Ht). exists a. split; [done|]. eapply tc_r; [by eapply inside_mono|by split]. }
  assert (∀ x, x ∈ results s → x ∈ results s1) as Hres.
  { intros x Hx. destruct M2 as [k ->]. apply elem_of_app. by left. }
  destruct (IH s1 w1 Hst1 Hw) as (R1 & R2 & R3 & R4).
  - split.
    + intros x Hx. destruct (M8 x Hx) as [Hx'|?]; [|by right]. destruct (Hf1 x Hx'); auto.
    + intros x Hx. destruct (M4 x Hx) as [Hx'|Hx']; [|by apply Hpar; [apply Htake|]].
      destruct (Hf2 x Hx') as (a & Ha & Ht). exists a. split; [done|by eapply inside_mono].
  - intros x Hx. destruct (Hfr x) as [?|?]; [by right|by left|right; auto].
  - apply prefix_length in M2 as HM2. apply prefix_length in R3 as HR3. split_and!; [done|done|by etrans|].
    intros Hlt Hlim' Hcl. apply R4; [done|done|]. intros x Hx.
    assert (take n (prevs d roomID e) = prevs d roomID e) as Hall.
    { apply take_ge. assert (len (prevs d roomID e) + len (results s') ≤ limit); [|unfold len, n in *; unfold len in *; lia].
      apply Hlim'. destruct He as [?|He]; [by left|right]. destruct R3 as [k ->]. apply elem_of_app. left. auto. }
    destruct (decide (x = e)) as [->|Hxe]; [right; intros p Hp; apply M3; rewrite Hall; exact Hp|].
    assert (x ∈ from ∨ x ∈ results s ∨ x ∈ next s1) as [Hx'|[Hx'|Hx']].
    { destruct Hx as [?|Hx]; [auto|]. destruct (M7 x Hx); auto. }
    3: left; apply elem_of_app; by right.
    all: destruct (Hcl x) as [Hin|Hpx]; [auto| |right; intros p Hp; by apply M1, Hpx].
    all: apply elem_of_app in Hin as [Hin|Hin]; left; apply elem_of_app; [left; set_solver|right; by apply M6].
Qed.

Lemma walk_levels_steady fuel limit s w s' w' from :
  steady w → walk_levels fuel roomID limit s w = (Ok s', w') → found_from from s →
  found_from from s' ∧ results s `prefix_of` results s' ∧
  (len (results s') < limit → (∀ e, e ∈ from ∨ e ∈ results s' → len (prevs d roomID e) + len (results s') ≤ limit) →
   closed from (next s) s → closed from [] s').
Proof.
  revert s w. induction fuel as [|fuel IH]; intros s w Hst Hw Hff; [done|]. simpl in Hw.
  case_bool_decide as Hc.
  - apply ok_bind in Hw as (s1 & w1 & Hf & Hw).
    destruct (walk_front_steady limit _ _ w s1 w1 from Hst Hf) as (Hst1 & Hff1 & Hl1 & Hcl1).
    + split; [by intros ? ?%not_elem_of_nil|apply Hff].
    + intros x Hx. rewrite sort_strings_elem_of in Hx. exact (proj1 Hff x Hx).
    + destruct (IH s1 w1 Hst1 Hw Hff1) as (Hff2 & Hl2 & Hcl2). simpl in *. split_and!; [done|by etrans|].
      apply prefix_length in Hl2 as HL2. destruct Hl2 as [k Ek].
      intros Hlt Hlim Hcl. apply Hcl2; [done|done|]. unfold len in *. apply Hcl1; [lia| |].
      { intros e He. assert (e ∈ from ∨ e ∈ results s') as He' by (destruct He; [by left|right; rewrite Ek; apply elem_of_app; by left]).
        specialize (Hlim e He'). lia. }
      intros x Hx. destruct (Hcl x Hx) as [?|?]; [left|by right].
      rewrite app_nil_r. by apply sort_strings_elem_of.
  - apply mret_ok in Hw as [-> _]. split_and!; [done|done|].
    intros Hlt _ Hcl x Hx. destruct (Hcl x Hx) as [Hin|?]; [|by right].
    exfalso. apply Hc. split; [|done]. intros En. rewrite En in Hin. by apply not_elem_of_nil in Hin.
Qed.
End one_db.

(** ** Properties *)
Section properties.

Definition capped (limit : Z) : Z := Z.min limit MaxMissingEvents.

Lemma limit_capped limit : (if bool_decide (MaxMissingEvents < limit) then MaxMissingEvents else limit) = capped limit.
Proof. unfold capped. case_bool_decide; lia. Qed.

(** A run that gets as far as the walk. *)
Lemma run_walk roomID earliest latest limit w out truncated w' :
  GetMissingEvents roomID earliest latest limit w = (Ok (out, truncated), w') →
  (out = [] ∧ truncated = false ∧ (capped limit ≤ 0 ∨ wanted earliest latest = [])) ∨
  ∃ d w1 s, 0 < capped limit ∧ w_db w (w_tick w) = Ok d ∧ w_db w1 = w_db w ∧
    walk_levels (S (S (Z.to_nat (capped limit)))) roomID (capped limit)
      (Walk (list_to_set earliest) (starts d roomID (wanted earliest latest)) []) w1 = (Ok s, w') ∧
    out = reverse (results s) ∧ truncated = bool_decide (capped limit ≤ len (results s)).
Proof.
  unfold GetMissingEvents. rewrite limit_capped. case_bool_decide as Hlim.
  { intros [[= -> ->] _]%mret_ok. auto. }
  destruct (wanted earliest latest) as [|id ids]; [intros [[= -> ->] _]%mret_ok; auto|].
  intros (front & w1 & Hq & Hw)%ok_bind. right.
  unfold query in Hq. destruct (w_db w (w_tick w)) as [d|] eqn:Hd; [|done]. injection Hq as <- <-.
  apply ok_bind in Hw as (s' & w2 & Hs & [[= -> ->] ->]%mret_ok).
  exists d, (tick w), s'. split_and!; [lia|done|done|done|done|done].
Qed.

(** From every world that shows one database, the walk gives one result. *)
Lemma evals_walk_front d F P roomID limit front s :
  ∃ s', evals d F P (walk_front roomID limit front s) (Ok s').
Proof.
  revert s. induction front as [|e front IH]; intros s; simpl; [exists s; apply evals_ret|].
  case_bool_decide; [exists s; apply evals_ret|].
  destruct (IH (foldl visit s (take (Z.to_nat (limit - len (results s))) (prevs d roomID e)))) as [s' Hs'].
  exists s'. eapply evals_bind; [apply evals_query|exact Hs'].
Qed.

Lemma evals_walk_levels d F P fuel roomID limit s :
  ∃ r, evals d F P (walk_levels fuel roomID limit s) r ∧ (r = Err OutOfFuel ∨ ∃ s', r = Ok s').
Proof.
  revert s. induction fuel as [|fuel IH]; intros s; simpl; [exists (Err OutOfFuel); split; [apply evals_fail|auto]|].
  case_bool_decide; [|exists (Ok s); split; [apply evals_ret|eauto]].
  destruct (evals_walk_front d F P roomID limit (sort_strings (next s)) (Walk (seen s) [] (results s))) as [s' Hs'].
  destruct (IH s') as (r & Hr & Hor). exists r. split; [by eapply evals_bind|done].
Qed.

Lemma evals_walk d F P roomID earliest latest limit :
  ∃ r, evals d F P (GetMissingEvents roomID earliest latest limit) (Ok r).
Proof.
  unfold GetMissingEvents. rewrite limit_capped. case_bool_decide; [eexists; apply evals_ret|].
  destruct (wanted earliest latest) as [|id ids]; [eexists; apply evals_ret|].
  set (s0 := Walk (list_to_set earliest) (starts d roomID (id :: ids)) []).
  set (fuel := S (S (Z.to_nat (capped limit)))).
  destruct (evals_walk_levels d F P fuel roomID (capped limit) s0) as (r & Hr & Hor).
  destruct Hor as [->|[s' ->]].
  - exists ([], false). eapply evals_bind; [apply evals_query|]. fold s0. intros w Hw. exfalso.
    destruct (Hr w Hw) as (w1 & E & _). apply (walk_levels_fuel fuel roomID (capped limit) s0 w); [|by rewrite E].
    unfold fuel, s0, len. simpl. lia.
  - eexists. eapply evals_bind; [apply evals_query|]. eapply evals_bind; [exact Hr|]. apply evals_ret.
Qed.

(** Whatever the queries answer, and in particular if the database changes
    under the walk: an answer holds at most [min limit 20] events, each once, and
    none the caller said it has; the flag is set exactly when the limit was
    reached; and the walk never runs on. *)
Theorem missing_events_bounded roomID earliest latest limit w :
  (GetMissingEvents roomID earliest latest limit w).1 ≠ Err OutOfFuel ∧
  ∀ out truncated w', GetMissingEvents roomID earliest latest limit w = (Ok (out, truncated), w') →
    len out ≤ Z.max 0 (capped limit) ∧ NoDup out ∧ (∀ x, x ∈ out → x ∉ earliest) ∧
    (truncated = true ↔ 0 < capped limit ∧ len out = capped limit).
Proof.
  split.
  - unfold GetMissingEvents. rewrite limit_capped. case_bool_decide as Hlim; [done|].
    destruct (wanted earliest latest); [done|]. unfold mbind, M_bind, query.
    destruct (w_db w (w_tick w)) as [d|]; [|done].
    set (s0 := Walk _ _ _). pose proof (walk_levels_fuel (S (S (Z.to_nat (capped limit)))) roomID (capped limit) s0 (tick w)) as Hf.
    destruct (walk_levels _ _ _ _ _) as [[s'|e] w2]; simpl in *; [done|].
    intros [= ->]. apply Hf; [unfold s0, len; simpl; lia|done].
  - intros out tr w' [(-> & -> & Hz)|(d & w1 & s & Hpos & _ & _ & Hs & -> & ->)]%run_walk.
    + split_and!; [unfold len; simpl; lia|constructor|by intros ? ?%not_elem_of_nil|].
      split; [done|]. intros [? Hl]. unfold len in Hl. simpl in Hl. lia.
    + apply (walk_levels_sane _ _ _ _ _ _ _ (list_to_set earliest)) in Hs as [H1 H2 H3 H4].
      * assert (len (reverse (results s)) = len (results s)) as Hlen by (unfold len; by rewrite length_reverse).
        rewrite Hlen, bool_decide_eq_true. split_and!; [lia| | |lia].
        -- by rewrite reverse_Permutation.
        -- intros x Hx. rewrite reverse_Permutation in Hx. specialize (H2 x Hx). set_solver.
      * split; simpl; [set_solver|by intros ? ?%not_elem_of_nil|constructor|unfold len; simpl; lia].
Qed.

(** An edge that does not lead to one of the caller's events. *)
Definition missing_edge (d : DB) (roomID : string) (earliest : list string) (a b : string) : Prop :=
  parent d roomID a b ∧ b ∉ earliest.

Lemma walk_complete d roomID earliest latest limit w out w' a x :
  steady d w → GetMissingEvents roomID earliest latest limit w = (Ok (out, false), w') →
  let from := starts d roomID (wanted earliest latest) in
  (∀ e, e ∈ from ∨ e ∈ out → len (prevs d roomID e) + len out ≤ capped limit) →
  a ∈ from → tc (missing_edge d roomID earliest) a x → x ∈ out.
Proof.
  intros Hst Hrun from Hlen Ha Ht. apply run_walk in Hrun as [(-> & _ & Hz)|(d' & w1 & s & Hpos & Hd & Hw1 & Hs & -> & Htr)].
  - exfalso. destruct Hz as [Hz|Hz].
    + specialize (Hlen a (or_introl Ha)). assert (∃ y, parent d roomID a y) as [y Hy].
      { inversion Ht as [? ? [? ?]|? ? ? [? ?]]; eauto. }
      unfold len, parent in *. destruct (prevs d roomID a); [by apply not_elem_of_nil in Hy|]. simpl in Hlen. lia.
    + unfold from, starts in Ha. rewrite Hz in Ha. apply list_elem_of_fmap in Ha as (e & _ & [[He _] _]%list_elem_of_filter).
      by apply not_elem_of_nil in He.
  - rewrite Hst in Hd. injection Hd as <-. symmetry in Htr. apply bool_decide_eq_false in Htr.
    assert (steady d w1) as Hst1 by (intros n; rewrite Hw1; apply Hst).
    pose proof (walk_levels_sane _ _ _ _ _ _ _ (list_to_set earliest) Hs) as Hsane.
    destruct (walk_levels_steady d roomID _ _ _ _ _ _ from Hst1 Hs) as (_ & _ & Hcl).
    { split; [by left|by intros ? ?%not_elem_of_nil]. }
    assert (len (reverse (results s)) = len (results s)) as Hlr by (unfold len; by rewrite length_reverse).
    assert (closed d roomID from [] s) as Hclosed.
    { apply Hcl; [lia| |intros y [Hy|Hy]; [by left|by apply not_elem_of_nil in Hy]].
      intros e He. rewrite <-Hlr. apply Hlen. destruct He; [by left|right; by rewrite reverse_Permutation]. }
    destruct Hsane as [Hseen _ _ _].
    { split; simpl; [set_solver|by intros ? ?%not_elem_of_nil|constructor|unfold len; simpl; lia]. }
    assert (∀ y z, y ∈ from ∨ y ∈ results s → missing_edge d roomID earliest y z → z ∈ results s) as Hone.
    { intros y z Hy [Hz Hne]. destruct (Hclosed y Hy) as [?%not_elem_of_nil|Hp]; [done|].
      specialize (Hp z Hz). rewrite Hseen in Hp. set_solver. }
    rewrite reverse_Permutation. revert Ha. assert (a ∈ from → a ∈ from ∨ a ∈ results s) as Hfr by auto. intros Ha. specialize (Hfr Ha).
    clear Ha. induction Ht as [y z Hyz|y z u Hyz Hzu IH]; [by eapply Hone|]. apply IH. right. by eapply Hone.
Qed.

(** C28. On one database the walk finds nothing but missing ancestors: every event
    returned is reached from a wanted event of the room through [event_edges], without
    meeting an event the caller has.  And it finds exactly these when it says that it
    was not truncated and, besides, the limit leaves room, beyond the events returned,
    for all the prev events of any one event it went through; the second condition is
    needed, since the flag does not tell of prev events that the query's own [LIMIT]
    left out. *)
Theorem missing_events_exact d roomID earliest latest limit w out truncated w' :
  steady d w → GetMissingEvents roomID earliest latest limit w = (Ok (out, truncated), w') →
  let from := starts d roomID (wanted earliest latest) in
  let missing x := ∃ a, a ∈ from ∧ tc (missing_edge d roomID earliest) a x in
  (∀ x, x ∈ out → missing x) ∧
  (truncated = false → (∀ e, e ∈ from ∨ e ∈ out → len (prevs d roomID e) + len out ≤ capped limit) →
   ∀ x, x ∈ out ↔ missing x).
Proof.
  intros Hst Hrun from missing. assert (∀ x, x ∈ out → missing x) as Hsound; [|split; [done|]].
  - apply run_walk in Hrun as [(-> & -> & Hz)|(d' & w1 & s & Hpos & Hd & Hw1 & Hs & -> & ->)]; [by intros ? ?%not_elem_of_nil|].
    rewrite Hst in Hd. injection Hd as <-. assert (steady d w1) as Hst1 by (intros n; rewrite Hw1; apply Hst).
    pose proof (walk_levels_sane _ _ _ _ _ _ _ (list_to_set earliest) Hs) as Hsane.
    destruct (walk_levels_steady d roomID _ _ _ _ _ _ from Hst1 Hs) as ([_ Hf] & _ & _).
    { split; [by left|by intros ? ?%not_elem_of_nil]. }
    destruct Hsane as [_ Hnew _ _].
    { split; simpl; [set_solver|by intros ? ?%not_elem_of_nil|constructor|unfold len; simpl; lia]. }
    intros x Hx. rewrite reverse_Permutation in Hx. destruct (Hf x Hx) as (a & Ha & Ht). exists a. split; [done|].
    clear Ha Hx. induction Ht as [y z [H1 H2]|y z u [H1 H2] _ IH]; [apply tc_once|eapply tc_l; [|exact IH]];
      (split; [done|]); specialize (Hnew z H2); set_solver.
  - intros -> Hroom x. split; [by apply Hsound|]. intros (a & Ha & Ht). exact (walk_complete d roomID earliest latest limit w out w' a x Hst Hrun Hroom Ha Ht).
Qed.

Local Open Scope string_scope.

(** An event whose two prev events the caller half has. *)
Definition half_db : DB :=
  Db.MkDb [Db.EventRow "$a" "!r" "m" None "@u:s" false 1; Db.EventRow "$b" "!r" "m" None "@u:s" false 2;
           Db.EventRow "$c" "!r" "m" None "@u:s" false 3] [] [] [] []
    [Db.EdgeRow "$c" "$a" false; Db.EdgeRow "$c" "$b" false] [] [] [] [] [] [] [] [] [] [] [].
Definition world_of (d : DB) : world :=
  MkWorld (λ _, Ok d) (λ _, false) 20 0 (newCaches (Settings.Mk 0 0 0 0 0)) Trace.WithTrace.

(** The flag can miss a cut: the [LIMIT] of the prev-event query counts the
    events the caller already has, so a missing event can be cut off while the
    answer stays below the limit, and the flag says that the walk ran out of
    DAG.  Here [$b] is a prev event of the wanted [$c], is held, and is not
    among the caller's events. *)
Theorem truncation_flag_incomplete :
  ∃ w', GetMissingEvents "!r" ["$a"] ["$c"] 1 (world_of half_db) = (Ok ([], false), w') ∧
    parent half_db "!r" "$c" "$b" ∧ "$b" ∉ ["$a"] ∧ "$c" ∈ starts half_db "!r" (wanted ["$a"] ["$c"]).
Proof.
  eexists. split; [reflexivity|]. split_and!; in_list.
Qed.

Lemma missing_events_bounded_witness : (len ["$b"; "$a"] ≤ 20)%Z.
Proof.
  destruct (GetMissingEvents "!r" [] ["$c"] 50 (world_of half_db)) as [r w'] eqn:E.
  destruct (missing_events_bounded "!r" [] ["$c"] 50 (world_of half_db)) as [_ H].
  destruct (H ["$b"; "$a"] false w') as [Hl _]; [|exact Hl].
  rewrite E. f_equal. change r with (r, w').1. rewrite <-E. reflexivity.
Defined.

Lemma missing_events_exact_witness :
  "$b" ∈ ["$b"; "$a"].
Proof.
  destruct (GetMissingEvents "!r" [] ["$c"] 10 (world_of half_db)) as [r w'] eqn:E.
  destruct (missing_events_exact half_db "!r" [] ["$c"] 10 (world_of half_db) ["$b"; "$a"] false w') as [_ H].
  - intros n. done.
  - rewrite E. f_equal. change r with (r, w').1. rewrite <-E. reflexivity.
  - apply (H eq_refl).
    + intros e _. destruct (decide (e = "$c")) as [->|Hne]; [by vm_compute|].
      assert (prevs half_db "!r" e = []) as ->; [|by vm_compute].
      unfold prevs. simpl. rewrite !filter_cons_False, filter_nil by (simpl; naive_solver). done.
    + exists "$c". split; [in_list|]. apply tc_once. split; [in_list|]. apply not_elem_of_nil.
Defined.
End properties.
