(* ===== verification/External.v ===== *)
(** * Code the source calls and does not contain

    Third-party packages and the parts of the standard library that stay
    parameters: [gjson] and [sjson] (reading and splicing raw JSON), mautrix's
    [pdu.Redact] (as decode, redact, encode), [crypto/sha256], and the Unicode
    case folding [regexp] uses.  Definitions take them as an instance of
    [External]; what a theorem relies on is a hypothesis of that theorem. *)
From S2P Require Import Prelude Json.

Class External := {
  (** [gjson.GetBytes]: [Str] and [Raw] of a path that exists. *)
  gjson_get : string → string → option (string * string);
  (** [sjson.SetRawBytes] and [sjson.SetBytes] with a string value. *)
  sjson_set_raw : string → string → string → option string;
  sjson_set_str : string → string → string → option string;
  (** Decoding a PDU (in the v1 format or not), [Redact] for a room version, and
      encoding the result. *)
  pdu_redact : bool → string → string → option string;
  (** [sha256.Sum256], as bytes. *)
  sha256 : string → string;
  (** The representative of a rune's case-folding orbit. *)
  fold_rune : Z → Z;
  (** mautrix's [id.RoomV0], [id.RoomV1] and [id.RoomV2]. *)
  RoomV0 : string; RoomV1 : string; RoomV2 : string }.

(** ** A concrete instance, for the witnesses

    Enough of each package to run the definitions on examples: reading and
    setting a top-level or nested key of an object, a redaction that empties
    [content], and ASCII case folding.  The hash is the identity. *)
Module Sample.
Local Open Scope string_scope.

Definition member (key : string) (ms : list (string * (json * string))) : option (json * string) :=
  snd <$> List.find (λ m, bool_decide (unquote m.1 = key)) ms.

Definition get (body path : string) : option (string * string) :=
  ms ← Struct.top body;
  let '(a, b, nested) := cut "."%char path in
  v ← member a ms;
  v ← (if (nested : bool) then match v.1 with JObj ms => member b ms | _ => None end else Some v);
  Some (match v.1 with JStr raw => unquote raw | _ => "" end, v.2).

Definition quoted (s : string) : string := String quote s +:+ String quote "".

Fixpoint print_members (ms : list (string * string)) : string :=
  match ms with
  | [] => ""
  | [(k, v)] => quoted k +:+ ":" +:+ v
  | (k, v) :: ms => quoted k +:+ ":" +:+ v +:+ "," +:+ print_members ms
  end.

Fixpoint set_member (key raw : string) (ms : list (string * string)) : list (string * string) :=
  match ms with
  | [] => [(key, raw)]
  | (k, v) :: ms => if bool_decide (k = key) then (k, raw) :: ms else (k, v) :: set_member key raw ms
  end.

(** A result that is no document is refused, so that what is set always parses. *)
Definition set_raw (body key raw : string) : option string :=
  ms ← Struct.top body;
  let out := "{" +:+ print_members (set_member key raw ((λ m, (m.1, m.2.2)) <$> ms)) +:+ "}" in
  if is_ok (parse out) then Some out else None.

Lemma set_raw_doc body key raw out : set_raw body key raw = Some out → is_ok (parse out) = true.
Proof. unfold set_raw. destruct (Struct.top body); [simpl|done]. case_match; congruence. Qed.

Definition lower_rune (r : Z) : Z := if bool_decide (65 ≤ r ≤ 90)%Z then (r + 32)%Z else r.

Definition ext : External :=
  {| gjson_get := get; sjson_set_raw := set_raw;
     sjson_set_str body key s := set_raw body key (quoted s);
     pdu_redact _ _ body := set_raw body "content" "{}";
     sha256 := id; fold_rune := lower_rune;
     RoomV0 := ""; RoomV1 := "1"; RoomV2 := "2" |}.
End Sample.
