(* ===== verification/Events.v ===== *)
(** * [internal/store]: events and their redactions (event.go, redaction.go,
      redactionauth.go)

    Stored events are immutable and cached; whether an event is redacted is
    decided on every load, from the [redactions] table and from the bans with
    [redact_events] (MSC4293). *)
From S2P Require Import Prelude Cache Json Store External.

Open Scope Z_scope.

(** ** Loading events *)

(** A [LEFT JOIN]: the matching rows, or one row of NULLs. *)
Definition left_join {A} (l : list A) : list (option A) :=
  match l with [] => [None] | _ => Some <$> l end.

(** [eventQuery], each row decoded the way the scan loop does. *)
Definition event_of (e : Db.event_row) (j : Db.json_row) (r : option Db.room_row)
    (rej : option (string * string)) : Event :=
  MkEvent (Db.ev_id e) (Db.ev_room e) (Db.ev_type e) (Db.ev_state_key e)
    (default EmptyString (r ≫= Db.rm_version)) (Db.ej_json j) (Db.ej_meta j)
    (Db.ev_stream e) (Db.ev_outlier e) (default 1 (Db.ej_format j))
    (from_option snd EmptyString rej) EmptyString.

Definition event_rows (ids : list string) (d : DB) : list Event :=
  e ← filter (λ e, Db.ev_id e ∈ ids) (Db.events d);
  j ← filter (λ j, Db.ej_id j = Db.ev_id e) (Db.event_json d);
  r ← left_join (filter (λ r, Db.rm_id r = Db.ev_room e) (Db.rooms d));
  rej ← left_join (filter (λ x, x.1 = Db.ev_id e) (Db.rejections d));
  [event_of e j r rej].

Notation EventMap := (gmap string Event).

(** Serving what is cached; the rest stays [missing]. *)
Fixpoint cached_events (ids : list string) (out : EventMap) (missing : list string)
    : M (EventMap * list string) :=
  match ids with
  | [] => mret (out, missing)
  | id :: ids =>
      hit ← get_events id;
      match hit with
      | Some ev => cached_events ids (<[id := ev]> out) missing
      | None => cached_events ids out (missing ++ [id])
      end
  end.

Fixpoint admit_events (rows : list Event) (populateCache : bool) (out : EventMap) : M EventMap :=
  match rows with
  | [] => mret out
  | e :: rows =>
      (if populateCache then add_events (EventID e) e else mret tt);;
      admit_events rows populateCache (<[EventID e := e]> out)
  end.

Definition events_enabled : M bool := gets (λ c, (LRU.Enabled (events c), c)).

Definition getEventsRawOpt (eventIDs : list string) (populateCache : bool) : M EventMap :=
  match eventIDs with
  | [] => mret (∅ : EventMap)
  | _ =>
      enabled ← events_enabled;
      p ← (if (enabled : bool) then cached_events eventIDs ∅ [] else mret (∅, eventIDs));
      let '(out, missing) := (p : EventMap * list string) in
      record_ (Trace.RecordN "events" (Z.of_nat (length eventIDs) - Z.of_nat (length missing))
                 (Z.of_nat (length eventIDs)));;
      match missing with
      | [] => mret out
      | _ =>
          rows ← query "store: get events" (event_rows missing);
          admit_events rows populateCache out
      end
  end.

Definition getEventsRaw (eventIDs : list string) : M EventMap := getEventsRawOpt eventIDs true.

Definition HasEvent (eventID : string) : M bool :=
  row ← query_row "store: has event" (λ d, filter (λ e, Db.ev_id e = eventID) (Db.events d));
  mret (bool_decide (is_Some row)).

(** ** Redactions *)
Record redactionRow := RR { RedactionID : string; Recheck : bool }.

Definition getRedactions (eventIDs : list string) : M (gmap string (list redactionRow)) :=
  match eventIDs with
  | [] => mret ∅
  | _ =>
      rows ← query "store: get redactions"
               (λ d, filter (λ r, from_option (λ x, bool_decide (x ∈ eventIDs)) false (Db.rd_redacts r) = true)
                           (Db.redactions d));
      mret (foldl (λ out r,
              match Db.rd_redacts r with
              | None => out
              | Some x => <[x := default [] (out !! x) ++
                                 [RR (Db.rd_event r) (default false (Db.rd_recheck r))]]> out
              end) ∅ rows)
  end.

Definition senderOfEvent (raw : string) : string := default EmptyString (Struct.get_string "sender" raw).

(** The text after the first colon; [store] has three copies of it. *)
Definition domainOf (id : string) : string :=
  let '(_, domain, found) := cut colon id in if found then domain else EmptyString.
Definition senderDomain (raw : string) : string :=
  match Struct.get_string "sender" raw with Some s => domainOf s | None => EmptyString end.

Record banRedaction := BR { RedactingEventID : string; EndOrdering : Z }.

Definition ban_key (roomID userID : string) : string := roomID +:+ String nul userID.

Definition getBanRedactions (rooms users : list string) : M (gmap string banRedaction) :=
  match rooms with
  | [] => mret ∅
  | _ =>
      rows ← query "store: ban redactions"
               (λ d, filter (λ r, (Db.bn_room r, Db.bn_user r) ∈ zip rooms users) (Db.room_ban_redactions d));
      mret (foldl (λ out r, <[ban_key (Db.bn_room r) (Db.bn_user r) :=
                               BR (Db.bn_event r) (default 0 (Db.bn_end r))]> out) ∅ rows)
  end.

Definition banAppliesTo (br : banRedaction) (ev : Event) : bool :=
  if bool_decide (Type_ ev = "m.room.create"%string) then false
  else if bool_decide (EndOrdering br ≠ 0) && bool_decide (EndOrdering br ≤ StreamOrdering ev) then false
  else true.

Definition deferred_applies (ev : Event) (redactionEvents : EventMap) (r : redactionRow) : bool :=
  match redactionEvents !! RedactionID r with
  | None => false
  | Some redaction =>
      bool_decide (RejectedReason redaction = EmptyString) &&
      bool_decide (RoomID redaction = RoomID ev) &&
      bool_decide (senderDomain (JSON redaction) = senderDomain (JSON ev))
  end.

Definition shouldRedact (ev : Event) (rows : list redactionRow) (redactionEvents : EventMap) : option string :=
  match List.find (λ r, negb (Recheck r)) rows with
  | Some r => Some (RedactionID r)
  | None => RedactionID <$> List.find (deferred_applies ev redactionEvents) rows
  end.

Definition with_redacted_by (ev : Event) (by_ : string) : Event :=
  MkEvent (EventID ev) (RoomID ev) (Type_ ev) (StateKey_ ev) (RoomVersion ev) (JSON ev)
    (InternalMetadata ev) (StreamOrdering ev) (Outlier ev) (FormatVersion ev) (RejectedReason ev) by_.

(** The body of the final loop of [applyRedactions]. *)
Definition apply_to (redactions : gmap string (list redactionRow)) (redactionEvents : EventMap)
    (bans : gmap string banRedaction) (senders : gmap string string) (id : string) (ev : Event) : Event :=
  let banned := br ← bans !! ban_key (RoomID ev) (default EmptyString (senders !! id));
                if banAppliesTo br ev then Some (RedactingEventID br) else None in
  let by_ban := match banned with Some b => with_redacted_by ev b | None => ev end in
  match redactions !! id with
  | None => by_ban
  | Some rows =>
      if bool_decide (Type_ ev = "m.room.create"%string) then ev else
      match shouldRedact ev rows redactionEvents with
      | Some redactionID => with_redacted_by ev redactionID
      | None => by_ban
      end
  end.

(** The redaction events to load: those that still need authorising. *)
Definition needed_redactions (redactions : gmap string (list redactionRow)) : list string :=
  (map_to_list redactions).*2 ≫= λ rows, RedactionID <$> filter (λ r, Recheck r = true) rows.

Definition event_senders (evs : EventMap) : list (string * (string * string)) :=
  omap (λ p : string * Event,
          let s := senderOfEvent (JSON p.2) in
          if bool_decide (s = EmptyString) then None else Some (p.1, (RoomID p.2, s)))
       (map_to_list evs).

Definition applyRedactions (evs : EventMap) : M EventMap :=
  if decide (evs = ∅) then mret evs else
  redactions ← getRedactions (map_to_list evs).*1;
  let needed := needed_redactions redactions in
  redactionEvents ← (match needed with [] => mret (∅ : EventMap) | _ => getEventsRaw needed end);
  let pairs := event_senders evs in
  bans ← getBanRedactions ((λ p, p.2.1) <$> pairs) ((λ p, p.2.2) <$> pairs);
  let senders : gmap string string := list_to_map ((λ p, (p.1, p.2.2)) <$> pairs) in
  mret (map_imap (λ id ev, Some (apply_to redactions redactionEvents bans senders id ev)) evs).

Definition GetEvents (eventIDs : list string) : M EventMap :=
  evs ← getEventsRaw eventIDs; applyRedactions evs.

Definition GetEvent (eventID : string) : M Event :=
  evs ← GetEvents [eventID];
  match (evs : EventMap) !! eventID with None => fail ErrNotFound | Some ev => mret ev end.

(** [GetEventsBatched]: [fn] changes the variables its closure captures, a state
    [S], and may return an error; the state survives every exit. *)
Definition DefaultEventBatch : nat := 1000.

Definition load_batch (ids : list string) : M EventMap :=
  ctx_err;;
  evs ← getEventsRawOpt ids false;
  applyRedactions evs.

Fixpoint run_batches {S} (bs : list (list string)) (fn : EventMap → S → S * option error) (s : S)
    : M (S * option error) :=
  match bs with
  | [] => mret (s, None)
  | b :: bs =>
      r ← try (load_batch b);
      match r with
      | Err e => mret (s, Some e)
      | Ok evs =>
          let '(s, e) := fn evs s in
          match e with
          | Some e => mret (s, Some e)
          | None => run_batches bs fn s
          end
      end
  end.
Definition GetEventsBatched {S} (eventIDs : list string) (batch : Z) (fn : EventMap → S → S * option error)
    (s : S) : M (S * option error) :=
  let batch := if bool_decide (batch ≤ 0) then DefaultEventBatch else Z.to_nat batch in
  run_batches (batches batch eventIDs) fn s.

(** ** Redaction events that are not served ([redactionauth.go]) *)
Section withheld.
Context `{!External}.

Definition redactsTarget (body : string) : option string :=
  let str path := s ← fst <$> gjson_get body path; if bool_decide (s = EmptyString) then None else Some s in
  match str "redacts"%string with
  | Some s => Some s
  | None => str "content.redacts"%string
  end.

Definition needsRedactionRecheck (internalMetadata : string) : bool :=
  if bool_decide (internalMetadata = EmptyString) then false
  else default false (mjoin (Struct.get_bool_ptr "recheck_redaction" internalMetadata)).

Record original := Orig { o_room : string; o_type : string; o_sender : string }.

(** Rules 2 to 5, in order. *)
Definition withheld_by (ev : Event) (o : option original) : bool :=
  match o with
  | None => true
  | Some o =>
      if bool_decide (o_type o = "m.room.create"%string) then true
      else if bool_decide (o_room o ≠ RoomID ev) then true
      else needsRedactionRecheck (InternalMetadata ev) &&
           bool_decide (domainOf (o_sender o) ≠ domainOf (senderOfEvent (JSON ev)))
  end.

Definition redaction_targets (evs : EventMap) : gmap string (option string) :=
  redactsTarget ∘ JSON <$> filter (λ kv, Type_ kv.2 = "m.room.redaction"%string) evs.

Definition originals (wanted : list string) (d : DB) : list (string * original) :=
  (λ e, (Db.ev_id e, Orig (Db.ev_room e) (Db.ev_type e) (Db.ev_sender e))) <$>
    filter (λ e, Db.ev_id e ∈ wanted) (Db.events d).

Definition WithheldRedactions (evs : EventMap) : M (gset string) :=
  let targets := redaction_targets evs in
  let no_target : gset string := dom (filter (λ kv, kv.2 = None) targets) in
  let wanted := omap id (map_to_list targets).*2 in
  match wanted with
  | [] => mret no_target
  | _ =>
      rows ← query "store: redaction targets" (originals wanted);
      let found : gmap string original := foldl (λ m p, <[p.1 := p.2]> m) ∅ rows in
      mret (no_target ∪
            dom (filter (λ kv : string * option string,
                   match kv.2, evs !! kv.1 with
                   | Some target, Some ev => withheld_by ev (found !! target)
                   | _, _ => false
                   end = true) targets))
  end.
End withheld.

(** ** Reference definitions *)
Definition raw_event (d : DB) (id : string) : option Event := head (event_rows [id] d).
Definition raw_map (d : DB) (ids : list string) : EventMap :=
  list_to_map (omap (λ id, pair id <$> raw_event d id) ids).

Definition redactions_of (d : DB) (id : string) : list redactionRow :=
  (λ r, RR (Db.rd_event r) (default false (Db.rd_recheck r))) <$>
    filter (λ r, Db.rd_redacts r = Some id) (Db.redactions d).
Definition ban_of (d : DB) (roomID userID : string) : option banRedaction :=
  (λ r, BR (Db.bn_event r) (default 0 (Db.bn_end r))) <$>
    last (filter (λ r, Db.bn_room r = roomID ∧ Db.bn_user r = userID) (Db.room_ban_redactions d)).

(** A deferred redaction counts when it is held, accepted, and of the same room
    and server. *)
Definition authorised (d : DB) (ev : Event) (r : redactionRow) : bool :=
  match raw_event d (RedactionID r) with
  | None => false
  | Some redaction =>
      bool_decide (RejectedReason redaction = EmptyString) &&
      bool_decide (RoomID redaction = RoomID ev) &&
      bool_decide (senderDomain (JSON redaction) = senderDomain (JSON ev))
  end.

Definition banned_by (d : DB) (ev : Event) : option string :=
  let s := senderOfEvent (JSON ev) in
  if bool_decide (s = EmptyString) then None else
  br ← ban_of d (RoomID ev) s; if banAppliesTo br ev then Some (RedactingEventID br) else None.

(** What redacts an event, if anything. *)
Definition redacted_by (d : DB) (ev : Event) : option string :=
  if bool_decide (Type_ ev = "m.room.create"%string) then None else
  let rows := redactions_of d (EventID ev) in
  match List.find (λ r, negb (Recheck r)) rows with
  | Some r => Some (RedactionID r)
  | None => match List.find (authorised d ev) rows with
            | Some r => Some (RedactionID r)
            | None => banned_by d ev
            end
  end.

Definition marked (d : DB) (ev : Event) : Event :=
  match redacted_by d ev with Some b => with_redacted_by ev b | None => ev end.

(** One row per event ID, and room IDs without NUL. *)
Record keyed (d : DB) : Prop := {
  ky_one : ∀ id, (length (event_rows [id] d) ≤ 1)%nat;
  ky_rooms : ∀ e, e ∈ Db.events d → contains_byte nul (Db.ev_room e) = false;
  ky_bans : ∀ r, r ∈ Db.room_ban_redactions d → contains_byte nul (Db.bn_room r) = false }.

(** ** Lemmas: raw events *)
Section raw.
Context (d : DB).

Lemma elem_of_event_rows ids e :
  e ∈ event_rows ids d ↔ EventID e ∈ ids ∧ e ∈ event_rows [EventID e] d.
Proof.
  assert (∀ ids, e ∈ event_rows ids d ↔ ∃ x j r rej,
    x ∈ Db.events d ∧ Db.ev_id x ∈ ids ∧ j ∈ filter (λ j, Db.ej_id j = Db.ev_id x) (Db.event_json d) ∧
    r ∈ left_join (filter (λ r, Db.rm_id r = Db.ev_room x) (Db.rooms d)) ∧
    rej ∈ left_join (filter (λ y, y.1 = Db.ev_id x) (Db.rejections d)) ∧ e = event_of x j r rej) as H.
  { intros l. unfold event_rows. rewrite list_elem_of_bind. setoid_rewrite list_elem_of_bind.
    setoid_rewrite list_elem_of_bind. setoid_rewrite list_elem_of_bind. setoid_rewrite list_elem_of_singleton.
    setoid_rewrite (list_elem_of_filter (λ e, Db.ev_id e ∈ l)).
    split.
    - intros (x & (j & (r & (rej & ? & ?) & ?) & ?) & ? & ?). by exists x, j, r, rej.
    - intros (x & j & r & rej & ? & ? & ? & ? & ? & ?). exists x. split; [|done]. exists j. split; [|done].
      exists r. split; [|done]. by exists rej. }
  rewrite !H. split.
  - intros (x & j & r & rej & Hx & Hid & Hj & Hr & Hrej & ->). simpl. split; [done|].
    exists x, j, r, rej. split_and!; try done. by apply list_elem_of_singleton.
  - intros (Hid & x & j & r & rej & Hx & Hxid%list_elem_of_singleton & Hj & Hr & Hrej & E).
    exists x, j, r, rej. split_and!; try done. by rewrite Hxid.
Qed.

Lemma raw_event_id id e : raw_event d id = Some e → EventID e = id.
Proof.
  unfold raw_event. intros He. assert (e ∈ event_rows [id] d) as Hin.
  { destruct (event_rows [id] d); [done|]. injection He as ->. left. }
  apply elem_of_event_rows in Hin as [Hid _]. by apply list_elem_of_singleton in Hid.
Qed.

Lemma raw_event_elem (Hk : keyed d) ids e : e ∈ event_rows ids d → raw_event d (EventID e) = Some e.
Proof.
  intros [_ Hin]%elem_of_event_rows. unfold raw_event. pose proof (ky_one d Hk (EventID e)) as Hl.
  destruct (event_rows [EventID e] d) as [|x [|y l]]; simpl in *; [by apply not_elem_of_nil in Hin| |lia].
  apply list_elem_of_singleton in Hin as ->. done.
Qed.

Lemma raw_event_row ids id e : raw_event d id = Some e → id ∈ ids → e ∈ event_rows ids d.
Proof.
  intros He Hid. pose proof (raw_event_id id e He) as Hx. apply elem_of_event_rows. rewrite Hx. split; [done|].
  unfold raw_event in He. destruct (event_rows [id] d); [done|]. injection He as ->. left.
Qed.

Lemma raw_map_lookup ids id : raw_map d ids !! id = if decide (id ∈ ids) then raw_event d id else None.
Proof.
  induction ids as [|x ids IH]; [by rewrite decide_False by apply not_elem_of_nil|].
  assert (raw_map d (x :: ids) = match raw_event d x with
    | Some e => <[x := e]> (raw_map d ids) | None => raw_map d ids end) as ->.
  { unfold raw_map. simpl. by destruct (raw_event d x). }
  destruct (decide (x = id)) as [->|Hne].
  - rewrite (decide_True (P := id ∈ id :: ids)) by (by left).
    destruct (raw_event d id) as [e|] eqn:Hx; [by rewrite lookup_insert_eq|]. rewrite IH. by case_decide.
  - assert (raw_map d ids !! id = if decide (id ∈ x :: ids) then raw_event d id else None) as Hr.
    { rewrite IH. apply decide_ext. rewrite elem_of_cons. naive_solver. }
    destruct (raw_event d x); [by rewrite lookup_insert_ne|done].
Qed.

Lemma insert_rows_lookup (Hk : keyed d) (rows : list Event) (out : EventMap) id :
  (∀ e, e ∈ rows → raw_event d (EventID e) = Some e) →
  foldl (λ m e, <[EventID e := e]> m) out rows !! id =
  if decide (id ∈ EventID <$> rows) then raw_event d id else out !! id.
Proof.
  induction rows as [|e rows IH] using rev_ind; intros Hr; [by rewrite decide_False by apply not_elem_of_nil|].
  rewrite foldl_app. simpl. destruct (decide (EventID e = id)) as [<-|Hne].
  - rewrite lookup_insert_eq, decide_True; [symmetry; apply Hr; set_solver|].
    rewrite fmap_app. set_solver.
  - rewrite lookup_insert_ne, IH by (done || (intros; apply Hr; set_solver)). apply decide_ext.
    rewrite fmap_app, elem_of_app. simpl. rewrite list_elem_of_singleton. naive_solver.
Qed.
End raw.

(** ** The event loads are their reference *)
Section loads.
Context (d : DB) (Hk : keyed d) (F : nat) (P : contract).
Context (HPe : ∀ id e, p_events P id e ↔ raw_event d id = Some e).
Notation evals := (evals d F P).

Lemma evals_admit rows populate out :
  (∀ e, e ∈ rows → raw_event d (EventID e) = Some e) →
  evals (admit_events rows populate out) (Ok (foldl (λ m e, <[EventID e := e]> m) out rows)).
Proof using HPe.
  revert out. induction rows as [|e rows IH]; intros out Hr; simpl; [apply evals_ret|].
  eapply evals_bind; [|apply IH; intros; apply Hr; by right].
  destruct populate; [|apply evals_ret]. apply evals_add_events, HPe, Hr. left.
Qed.

(** What the cached part leaves to load. *)
Definition split_ok (ids : list string) (out : EventMap) (missing : list string) : Prop :=
  (∀ id e, out !! id = Some e → raw_event d id = Some e ∧ id ∈ ids) ∧
  (∀ id, id ∈ ids → id ∈ missing ∨ is_Some (out !! id)) ∧ (∀ id, id ∈ missing → id ∈ ids).

Lemma evals_cached {B} all ids done_ out missing (k : EventMap * list string → M B) r :
  all = done_ ++ ids → split_ok done_ out missing →
  (∀ out missing, split_ok all out missing → evals (k (out, missing)) r) →
  evals (cached_events ids out missing ≫= k) r.
Proof using Hk HPe.
  revert done_ out missing. induction ids as [|id ids IH]; intros done_ out missing -> (H1 & H2 & H3) Hkont; simpl.
  - eapply evals_bind; [apply evals_ret|]. rewrite app_nil_r in Hkont. by apply Hkont.
  - assert (∀ w, (((x ← get_events id; match x with
       | Some ev => cached_events ids (<[id := ev]> out) missing
       | None => cached_events ids out (missing ++ [id]) end) : M _) ≫= k) w =
      (x ← get_events id; (match x with
       | Some ev => cached_events ids (<[id := ev]> out) missing
       | None => cached_events ids out (missing ++ [id]) end) ≫= k) w) as Has.
    { intros w. unfold mbind, M_bind, get_events, gets. by destruct (LRU.Get _ _). }
    intros w Hw. rewrite Has. revert w Hw. change (evals (x ← get_events id; (match x with
       | Some ev => cached_events ids (<[id := ev]> out) missing
       | None => cached_events ids out (missing ++ [id]) end) ≫= k) r).
    apply evals_get_events.
    + eapply (IH (done_ ++ [id])); [by rewrite <-(assoc_L (++))| |exact Hkont]. split_and!.
      * intros x e Hx. apply H1 in Hx as [? ?]. set_solver.
      * intros x [Hx| ->%list_elem_of_singleton]%elem_of_app; [destruct (H2 x Hx); set_solver|set_solver].
      * intros x [Hx| ->%list_elem_of_singleton]%elem_of_app; set_solver.
    + intros ev Hev%HPe. eapply (IH (done_ ++ [id])); [by rewrite <-(assoc_L (++))| |exact Hkont]. split_and!.
      * intros x e [[<- <-]|[_ Hx]]%lookup_insert_Some; [set_solver|]. apply H1 in Hx as [? ?]. set_solver.
      * intros x Hx. destruct (decide (x = id)) as [->|Hne]; [right; rewrite lookup_insert_eq; eauto|].
        rewrite lookup_insert_ne by done. apply H2. set_solver.
      * set_solver.
Qed.

Lemma split_done ids out missing :
  split_ok ids out missing →
  foldl (λ m e, <[EventID e := e]> m) out (event_rows missing d) = raw_map d ids.
Proof using Hk.
  intros (H1 & H2 & H3). apply map_eq. intros id.
  rewrite (insert_rows_lookup d), raw_map_lookup by (done || (intros e He; by eapply raw_event_elem)).
  destruct (decide (id ∈ EventID <$> event_rows missing d)) as [Hin|Hout].
  - apply list_elem_of_fmap in Hin as (e & -> & [He _]%elem_of_event_rows).
    rewrite decide_True by auto. done.
  - destruct (out !! id) as [e|] eqn:E.
    + apply H1 in E as [E ?]. by rewrite decide_True.
    + case_decide as Hid; [|done]. destruct (H2 id Hid) as [Hm|[? ?]]; [|congruence].
      destruct (raw_event d id) as [e|] eqn:Er; [|done]. exfalso. apply Hout.
      apply list_elem_of_fmap. exists e. split; [by rewrite (raw_event_id d id e)|]. by eapply raw_event_row.
Qed.

Lemma evals_getEventsRawOpt ids populate : evals (getEventsRawOpt ids populate) (Ok (raw_map d ids)).
Proof using Hk HPe.
  destruct ids as [|i ids]; [apply evals_ret|]. unfold getEventsRawOpt. set (all := i :: ids).
  assert (∀ out missing, split_ok all out missing →
    evals (record_ (Trace.RecordN "events" (Z.of_nat (length all) - Z.of_nat (length missing)) (Z.of_nat (length all)));;
           match missing with
           | [] => mret out
           | _ => rows ← query "store: get events" (event_rows missing); admit_events rows populate out
           end) (Ok (raw_map d all))) as Hrest.
  { intros out missing Hs. eapply evals_bind; [apply evals_record|].
    pose proof (split_done _ _ _ Hs) as Hd.
    destruct missing as [|x missing].
    - assert (event_rows [] d = []) as E0.
      { destruct (event_rows [] d) as [|e l] eqn:E; [done|]. exfalso.
        assert (e ∈ event_rows [] d) as [Hn _]%elem_of_event_rows by (rewrite E; left).
        by apply not_elem_of_nil in Hn. }
      rewrite E0 in Hd. simpl in Hd. rewrite <-Hd. apply evals_ret.
    - eapply evals_bind; [apply evals_query|]. rewrite <-Hd. apply evals_admit.
      intros e He. by eapply raw_event_elem. }
  intros w Hw. unfold mbind at 1, M_bind at 1, events_enabled, gets.
  assert (with_caches (w_caches w) w = w) as -> by (by destruct w).
  destruct (LRU.Enabled (events (w_caches w))).
  - revert w Hw. change (evals (cached_events all ∅ [] ≫= λ p, let '(out, missing) := p in
      record_ (Trace.RecordN "events" (Z.of_nat (length all) - Z.of_nat (length missing)) (Z.of_nat (length all)));;
           match missing with
           | [] => mret out
           | _ => rows ← query "store: get events" (event_rows missing); admit_events rows populate out
           end) (Ok (raw_map d all))).
    eapply (evals_cached all all []); [done| |done].
    split_and!; [by intros ? ? ?|by intros ? ?%not_elem_of_nil|by intros ? ?%not_elem_of_nil].
  - apply (Hrest ∅ all); [|done]. split_and!; [by intros ? ? ?|by left|done].
Qed.
End loads.

(** ** Redactions are their reference *)
Section redactions.
Context (d : DB) (Hk : keyed d) (F : nat) (P : contract).
Context (HPe : ∀ id e, p_events P id e ↔ raw_event d id = Some e).
Notation evals := (evals d F P).

Lemma fold_redactions (rows : list Db.redaction_row) x :
  foldl (λ out r, match Db.rd_redacts r with
    | None => out
    | Some x => <[x := default [] (out !! x) ++ [RR (Db.rd_event r) (default false (Db.rd_recheck r))]]> out
    end) (∅ : gmap string (list redactionRow)) rows !! x =
  match (λ r, RR (Db.rd_event r) (default false (Db.rd_recheck r))) <$>
          filter (λ r, Db.rd_redacts r = Some x) rows with
  | [] => None | l => Some l end.
Proof.
  induction rows as [|r rows IH] using rev_ind; [done|]. rewrite foldl_app, filter_app. simpl.
  destruct (Db.rd_redacts r) as [y|] eqn:Hy.
  - destruct (decide (y = x)) as [->|Hne].
    + rewrite lookup_insert_eq, filter_cons_True by done. rewrite filter_nil, fmap_app. simpl.
      rewrite IH. by destruct (_ <$> filter _ rows).
    + rewrite lookup_insert_ne by done. rewrite filter_cons_False by congruence.
      by rewrite filter_nil, app_nil_r.
  - rewrite filter_cons_False by congruence. by rewrite filter_nil, app_nil_r.
Qed.

(** The loaded redactions of the events in question. *)
Definition redaction_map (ids : list string) : gmap string (list redactionRow) :=
  foldl (λ out r, match Db.rd_redacts r with
    | None => out
    | Some x => <[x := default [] (out !! x) ++ [RR (Db.rd_event r) (default false (Db.rd_recheck r))]]> out
    end) ∅ (filter (λ r, from_option (λ x, bool_decide (x ∈ ids)) false (Db.rd_redacts r) = true) (Db.redactions d)).

Lemma redaction_map_lookup ids x : x ∈ ids →
  redaction_map ids !! x = match redactions_of d x with [] => None | l => Some l end.
Proof.
  intros Hx. unfold redaction_map. rewrite fold_redactions, list_filter_filter. unfold redactions_of.
  assert (filter (λ r, Db.rd_redacts r = Some x ∧
      from_option (λ x, bool_decide (x ∈ ids)) false (Db.rd_redacts r) = true) (Db.redactions d) =
    filter (λ r, Db.rd_redacts r = Some x) (Db.redactions d)) as ->; [|done].
  apply list_filter_iff. intros r. split; [by intros [? _]|]. intros E. split; [done|]. rewrite E. simpl.
  by apply bool_decide_eq_true.
Qed.

Lemma evals_getRedactions ids : ids ≠ [] → evals (getRedactions ids) (Ok (redaction_map ids)).
Proof.
  intros Hne. destruct ids as [|i ids]; [done|]. unfold getRedactions.
  eapply evals_bind; [apply evals_query|apply evals_ret].
Qed.

(** The loaded bans. *)
Definition ban_map (pairs : list (string * string)) : gmap string banRedaction :=
  foldl (λ out r, <[ban_key (Db.bn_room r) (Db.bn_user r) := BR (Db.bn_event r) (default 0 (Db.bn_end r))]> out) ∅
    (filter (λ r, (Db.bn_room r, Db.bn_user r) ∈ pairs) (Db.room_ban_redactions d)).

Lemma zip_fmap {A B C} (f : A → B) (g : A → C) (l : list A) : zip (f <$> l) (g <$> l) = (λ x, (f x, g x)) <$> l.
Proof. induction l as [|x l IH]; [done|]. simpl. f_equal. exact IH. Qed.

Lemma evals_bans {A} (f g : A → string) (l : list A) :
  evals (getBanRedactions (f <$> l) (g <$> l)) (Ok (ban_map ((λ x, (f x, g x)) <$> l))).
Proof.
  unfold ban_map, getBanRedactions. destruct l as [|x l].
  - simpl. assert (filter (λ r, (Db.bn_room r, Db.bn_user r) ∈ []) (Db.room_ban_redactions d) = []) as ->;
      [|apply evals_ret].
    induction (Db.room_ban_redactions d) as [|r k IH]; [done|].
    by rewrite filter_cons_False by apply not_elem_of_nil.
  - pose proof (zip_fmap f g (x :: l)) as Hz. rewrite <-Hz.
    eapply evals_bind; [apply evals_query|apply evals_ret].
Qed.

Lemma fold_bans (rows : list Db.ban_row) room user :
  (∀ r, r ∈ rows → contains_byte nul (Db.bn_room r) = false) → contains_byte nul room = false →
  foldl (λ out r, <[ban_key (Db.bn_room r) (Db.bn_user r) := BR (Db.bn_event r) (default 0 (Db.bn_end r))]> out)
    (∅ : gmap string banRedaction) rows !! ban_key room user =
  (λ r, BR (Db.bn_event r) (default 0 (Db.bn_end r))) <$>
    last (filter (λ r, Db.bn_room r = room ∧ Db.bn_user r = user) rows).
Proof.
  intros Hn Hroom. induction rows as [|r rows IH] using rev_ind; [done|].
  rewrite foldl_app, filter_app. simpl.
  assert (contains_byte nul (Db.bn_room r) = false) as Hr by (apply Hn; set_solver).
  destruct (decide (Db.bn_room r = room ∧ Db.bn_user r = user)) as [[<- <-]|Hne].
  - rewrite lookup_insert_eq, filter_cons_True by done. by rewrite filter_nil, last_snoc.
  - rewrite filter_cons_False by done. rewrite filter_nil, app_nil_r, lookup_insert_ne.
    + apply IH. intros r' Hr'. apply Hn. set_solver.
    + intros Heq. apply nul_prefix_inj in Heq as [? ?]; [tauto|done..].
Qed.

Lemma ban_map_lookup pairs room user : contains_byte nul room = false →
  ban_map pairs !! ban_key room user = if decide ((room, user) ∈ pairs) then ban_of d room user else None.
Proof.
  intros Hroom. unfold ban_map. rewrite fold_bans; [|intros r [_ Hr]%list_elem_of_filter; by apply (ky_bans d Hk)|done].
  rewrite list_filter_filter. unfold ban_of. case_decide as Hin.
  - do 2 f_equal. apply list_filter_iff. intros r. split; [by intros [? _]|]. by intros [<- <-].
  - assert (filter (λ r, (Db.bn_room r = room ∧ Db.bn_user r = user) ∧ (Db.bn_room r, Db.bn_user r) ∈ pairs)
      (Db.room_ban_redactions d) = []) as ->; [|done].
    induction (Db.room_ban_redactions d) as [|r k IH]; [done|]. rewrite filter_cons_False; [done|].
    by intros [[<- <-] ?].
Qed.

(** The pairs of room and sender of the events. *)
Lemma senders_lookup (evs : EventMap) id ev : evs !! id = Some ev →
  (list_to_map ((λ p : string * (string * string), (p.1, p.2.2)) <$> event_senders evs) : gmap string string) !! id =
  if bool_decide (senderOfEvent (JSON ev) = EmptyString) then None else Some (senderOfEvent (JSON ev)).
Proof.
  intros He.
  assert (∀ x s, (x, s) ∈ (λ p : string * (string * string), (p.1, p.2.2)) <$> event_senders evs ↔
    ∃ e, evs !! x = Some e ∧ s = senderOfEvent (JSON e) ∧ s ≠ EmptyString) as Hin.
  { intros x s. rewrite list_elem_of_fmap. unfold event_senders. setoid_rewrite list_elem_of_omap. split.
    - intros ([y [r u]] & [= -> ->] & ([z e] & Hz & Hf)). simpl in Hf.
      apply elem_of_map_to_list in Hz. case_bool_decide; [done|]. simplify_eq. eauto.
    - intros (e & Hx & -> & Hne). exists (x, (RoomID e, senderOfEvent (JSON e))). split; [done|].
      exists (x, e). split; [by apply elem_of_map_to_list|]. simpl. by rewrite bool_decide_false. }
  case_bool_decide as Hs.
  - apply not_elem_of_list_to_map_1. rewrite list_elem_of_fmap. intros ([x s] & -> & Hx).
    apply Hin in Hx as (e & Hx & -> & Hne). simpl in He. rewrite He in Hx. by simplify_eq.
  - apply elem_of_list_to_map_1'; [|by apply Hin; eauto].
    intros y Hy. apply Hin in Hy as (e & Hx & -> & _). by simplify_eq.
Qed.

Lemma pairs_elem (evs : EventMap) id ev : evs !! id = Some ev → senderOfEvent (JSON ev) ≠ EmptyString →
  (RoomID ev, senderOfEvent (JSON ev)) ∈ (λ p : string * (string * string), (p.2.1, p.2.2)) <$> event_senders evs.
Proof.
  intros He Hs. apply list_elem_of_fmap. exists (id, (RoomID ev, senderOfEvent (JSON ev))). split; [done|].
  unfold event_senders. apply list_elem_of_omap. exists (id, ev). split; [by apply elem_of_map_to_list|].
  simpl. by rewrite bool_decide_false.
Qed.

Lemma pairs_no_empty (evs : EventMap) room :
  (room, EmptyString) ∉ (λ p : string * (string * string), (p.2.1, p.2.2)) <$> event_senders evs.
Proof.
  intros ([x [r s]] & [= -> <-] & Hx)%list_elem_of_fmap. unfold event_senders in Hx.
  apply list_elem_of_omap in Hx as ([z e] & _ & Hf). simpl in Hf. case_bool_decide; by simplify_eq.
Qed.

Lemma find_ext {A} (f g : A → bool) (l : list A) :
  (∀ x, x ∈ l → f x = g x) → List.find f l = List.find g l.
Proof.
  induction l as [|x l IH]; intros Hfg; [done|]. simpl. rewrite (Hfg x) by left.
  destruct (g x); [done|]. apply IH. intros y Hy. apply Hfg. by right.
Qed.

Lemma needed_elem rm x rows r : rm !! x = Some rows → r ∈ rows → Recheck r = true →
  RedactionID r ∈ needed_redactions rm.
Proof.
  intros Hx Hr Hc. unfold needed_redactions. apply list_elem_of_bind. exists rows. split.
  - apply list_elem_of_fmap. exists r. split; [done|]. by apply list_elem_of_filter.
  - apply list_elem_of_fmap. exists (x, rows). split; [done|]. by apply elem_of_map_to_list.
Qed.

(** One event of a batch. *)
Lemma apply_to_marked (evs : EventMap) id ev :
  (∀ x e, evs !! x = Some e → raw_event d x = Some e) → evs !! id = Some ev →
  apply_to (redaction_map (map_to_list evs).*1)
    (raw_map d (needed_redactions (redaction_map (map_to_list evs).*1)))
    (ban_map ((λ p, (p.2.1, p.2.2)) <$> event_senders evs))
    (list_to_map ((λ p, (p.1, p.2.2)) <$> event_senders evs)) id ev = marked d ev.
Proof.
  intros Hraw He. pose proof (Hraw id ev He) as Hev. pose proof (raw_event_id d id ev Hev) as Hid.
  assert (contains_byte nul (RoomID ev) = false) as Hroom.
  { unfold raw_event in Hev. assert (ev ∈ event_rows [id] d) as Hin.
    { destruct (event_rows [id] d); [done|]. injection Hev as ->. left. }
    unfold event_rows in Hin. apply list_elem_of_bind in Hin as (e & Hin & [_ Hee]%list_elem_of_filter).
    apply list_elem_of_bind in Hin as (j & Hin & _). apply list_elem_of_bind in Hin as (r & Hin & _).
    apply list_elem_of_bind in Hin as (rej & ->%list_elem_of_singleton & _). by apply (ky_rooms d Hk). }
  assert (id ∈ (map_to_list evs).*1) as Hmem.
  { apply list_elem_of_fmap. exists (id, ev). split; [done|]. by apply elem_of_map_to_list. }
  unfold apply_to, marked, redacted_by. rewrite (redaction_map_lookup _ id Hmem), Hid.
  rewrite (senders_lookup evs id ev He), ban_map_lookup by done.
  assert ((br ← (if decide ((RoomID ev, default EmptyString
        (if bool_decide (senderOfEvent (JSON ev) = EmptyString) then None else Some (senderOfEvent (JSON ev))))
      ∈ (λ p : string * (string * string), (p.2.1, p.2.2)) <$> event_senders evs)
      then ban_of d (RoomID ev) (default EmptyString
        (if bool_decide (senderOfEvent (JSON ev) = EmptyString) then None else Some (senderOfEvent (JSON ev))))
      else None); (if banAppliesTo br ev then Some (RedactingEventID br) else None)) = banned_by d ev) as ->.
  { unfold banned_by. case_bool_decide as Hs; simpl.
    - rewrite decide_False by apply pairs_no_empty. done.
    - rewrite decide_True by by apply (pairs_elem evs id). done. }
  assert (Type_ ev = "m.room.create"%string → banned_by d ev = None) as Hcreate.
  { intros Hc. unfold banned_by. case_bool_decide; [done|]. destruct (ban_of _ _ _) as [br|]; [|done]. simpl.
    unfold banAppliesTo. by rewrite bool_decide_true. }
  pose proof (redaction_map_lookup (map_to_list evs).*1 id Hmem) as Hrm.
  destruct (redactions_of d id) as [|r0 rows] eqn:Hrows.
  { simpl. case_bool_decide as Hc; [by rewrite Hcreate|done]. }
  case_bool_decide as Hc; [done|]. unfold shouldRedact.
  destruct (List.find (λ r, negb (Recheck r)) (r0 :: rows)) as [r|] eqn:Hf; [done|].
  rewrite (find_ext (deferred_applies ev _) (authorised d ev) (r0 :: rows)).
  { by destruct (List.find (authorised d ev) (r0 :: rows)). }
  intros r Hr. unfold deferred_applies, authorised. rewrite raw_map_lookup, decide_True; [done|].
  eapply needed_elem; [exact Hrm|done|].
  apply list_elem_of_In in Hr. pose proof (List.find_none _ _ Hf r Hr) as Hneg. by apply negb_false_iff.
Qed.

Lemma evals_applyRedactions (evs : EventMap) :
  (∀ x e, evs !! x = Some e → raw_event d x = Some e) →
  evals (applyRedactions evs) (Ok (marked d <$> evs)).
Proof using Hk HPe.
  intros Hraw. unfold applyRedactions. case_decide as Hemp.
  { subst. rewrite fmap_empty. apply evals_ret. }
  eapply evals_bind.
  { apply evals_getRedactions. intros Hnil. apply Hemp.
    apply fmap_nil_inv in Hnil. by apply map_to_list_empty_iff in Hnil. }
  eapply (evals_bind _ _ _ _ _ (raw_map d (needed_redactions (redaction_map (map_to_list evs).*1)))).
  { destruct (needed_redactions _); [apply evals_ret|]. by apply evals_getEventsRawOpt. }
  eapply evals_bind; [apply (evals_bans (λ p : string * (string * string), p.2.1) (λ p, p.2.2))|].
  assert (map_imap (λ id ev, Some (apply_to (redaction_map (map_to_list evs).*1)
     (raw_map d (needed_redactions (redaction_map (map_to_list evs).*1)))
     (ban_map ((λ p, (p.2.1, p.2.2)) <$> event_senders evs))
     (list_to_map ((λ p, (p.1, p.2.2)) <$> event_senders evs)) id ev)) evs = marked d <$> evs) as <-;
    [|apply evals_ret].
  apply map_eq. intros id. rewrite map_lookup_imap, lookup_fmap. destruct (evs !! id) as [ev|] eqn:E; [|done].
  simpl. f_equal. by apply apply_to_marked.
Qed.

Lemma raw_map_raw ids x e : raw_map d ids !! x = Some e → raw_event d x = Some e.
Proof. rewrite raw_map_lookup. by case_decide. Qed.

Lemma evals_GetEvents ids : evals (GetEvents ids) (Ok (marked d <$> raw_map d ids)).
Proof using Hk HPe.
  unfold GetEvents. eapply evals_bind; [by apply evals_getEventsRawOpt|]. apply evals_applyRedactions, raw_map_raw.
Qed.

Lemma evals_GetEvent id :
  evals (GetEvent id) (match raw_event d id with Some e => Ok (marked d e) | None => Err ErrNotFound end).
Proof using Hk HPe.
  unfold GetEvent. eapply evals_bind; [apply evals_GetEvents|].
  rewrite lookup_fmap, raw_map_lookup, decide_True by by left.
  destruct (raw_event d id); [apply evals_ret|apply evals_fail].
Qed.
End redactions.

(** ** When an event is served redacted *)

(** A row of [redactions] that redacts the event: it targets it, and it was
    authorised when it was stored, or else its event is held, was accepted, and
    comes from the same room and the same server. *)
Definition redacting_row (d : DB) (ev : Event) (r : Db.redaction_row) : Prop :=
  Db.rd_redacts r = Some (EventID ev) ∧
  (Db.rd_recheck r ≠ Some true ∨
   ∃ x, raw_event d (Db.rd_event r) = Some x ∧ RejectedReason x = EmptyString ∧ RoomID x = RoomID ev ∧
        senderDomain (JSON x) = senderDomain (JSON ev)).

(** The sender's ban in the room redacts, and had not ended at the event. *)
Definition ban_redacts (d : DB) (ev : Event) : Prop :=
  senderOfEvent (JSON ev) ≠ EmptyString ∧
  ∃ br, ban_of d (RoomID ev) (senderOfEvent (JSON ev)) = Some br ∧
        (EndOrdering br = 0 ∨ StreamOrdering ev < EndOrdering br).

Definition redacted (d : DB) (ev : Event) : Prop :=
  Type_ ev ≠ "m.room.create"%string ∧
  ((∃ r, r ∈ Db.redactions d ∧ redacting_row d ev r) ∨ ban_redacts d ev).

(** No redaction is recorded under the empty event ID. *)
Definition named (d : DB) : Prop :=
  (∀ r, r ∈ Db.redactions d → Db.rd_event r ≠ EmptyString) ∧
  (∀ r, r ∈ Db.room_ban_redactions d → Db.bn_event r ≠ EmptyString).

Section served.
Context (d : DB).

Lemma find_some_iff {A} (f : A → bool) (l : list A) : is_Some (List.find f l) ↔ ∃ x, x ∈ l ∧ f x = true.
Proof.
  split.
  - intros [x [Hin Hf]%List.find_some]. exists x. split; [by apply list_elem_of_In|done].
  - intros (x & Hx & Hf). destruct (List.find f l) eqn:E; [eauto|].
    apply list_elem_of_In in Hx. pose proof (List.find_none _ _ E x Hx). congruence.
Qed.

Lemma elem_of_redactions_of id r :
  r ∈ redactions_of d id ↔ ∃ x, x ∈ Db.redactions d ∧ Db.rd_redacts x = Some id ∧
    r = RR (Db.rd_event x) (default false (Db.rd_recheck x)).
Proof.
  unfold redactions_of. rewrite list_elem_of_fmap. setoid_rewrite list_elem_of_filter. naive_solver.
Qed.

Lemma authorised_iff ev r : authorised d ev r = true ↔
  ∃ x, raw_event d (RedactionID r) = Some x ∧ RejectedReason x = EmptyString ∧ RoomID x = RoomID ev ∧
       senderDomain (JSON x) = senderDomain (JSON ev).
Proof.
  unfold authorised. destruct (raw_event d (RedactionID r)) as [x|]; [|split; [done|by intros (? & ? & _)]].
  rewrite !andb_true_iff, !bool_decide_eq_true. split; [intros [[? ?] ?]; eauto|].
  by intros (? & [= <-] & ? & ? & ?).
Qed.

Lemma banned_by_iff ev : Type_ ev ≠ "m.room.create"%string → is_Some (banned_by d ev) ↔ ban_redacts d ev.
Proof.
  intros Hc. unfold banned_by, ban_redacts. case_bool_decide as Hs.
  { split; [by intros []|by intros [? _]]. }
  destruct (ban_of d _ _) as [br|]; simpl; [|split; [by intros []|by intros (_ & ? & ? & _)]].
  unfold banAppliesTo. rewrite bool_decide_false by done.
  destruct (bool_decide (EndOrdering br ≠ 0) && bool_decide (EndOrdering br ≤ StreamOrdering ev)) eqn:E.
  - apply andb_true_iff in E. rewrite !bool_decide_eq_true in E. split; [by intros []|].
    intros (_ & ? & [= <-] & ?). lia.
  - apply andb_false_iff in E. rewrite !bool_decide_eq_false in E. split; [|eauto].
    intros _. split; [done|]. exists br. split; [done|]. destruct (decide (EndOrdering br = 0)); [auto|lia].
Qed.

Lemma redacted_by_iff ev : is_Some (redacted_by d ev) ↔ redacted d ev.
Proof.
  unfold redacted_by, redacted. case_bool_decide as Hc; [split; [by intros []|tauto]|].
  assert (∀ r, Recheck r = false ∧ r ∈ redactions_of d (EventID ev) →
    ∃ x, x ∈ Db.redactions d ∧ redacting_row d ev x) as H1.
  { intros r [Hr (x & Hx & Ht & ->)%elem_of_redactions_of]. exists x. split; [done|]. split; [done|left].
    simpl in Hr. by destruct (Db.rd_recheck x) as [[]|]. }
  assert (∀ r, r ∈ redactions_of d (EventID ev) → authorised d ev r = true →
    ∃ x, x ∈ Db.redactions d ∧ redacting_row d ev x) as H2.
  { intros r (x & Hx & Ht & ->)%elem_of_redactions_of Ha%authorised_iff. exists x. split; [done|]. split; [done|by right]. }
  destruct (List.find (λ r, negb (Recheck r)) _) as [r|] eqn:Hf1.
  { apply List.find_some in Hf1 as [Hin Hr%negb_true_iff]. apply list_elem_of_In in Hin.
    split; [|eauto]. intros _. split; [done|left]. eauto. }
  destruct (List.find (authorised d ev) _) as [r|] eqn:Hf2.
  { apply List.find_some in Hf2 as [Hin Hr]. apply list_elem_of_In in Hin. split; [|eauto].
    intros _. split; [done|left]. eauto. }
  rewrite banned_by_iff by done. split; [tauto|]. intros [_ [(x & Hx & Ht & Hau)|?]]; [exfalso|done].
  assert (RR (Db.rd_event x) (default false (Db.rd_recheck x)) ∈ redactions_of d (EventID ev)) as Hin
    by (apply elem_of_redactions_of; eauto).
  assert (is_Some (None : option redactionRow)) as [? ?]; [|done]. destruct Hau as [Hau|Hau].
  - rewrite <-Hf1. apply find_some_iff. eexists. split; [exact Hin|]. simpl. by destruct (Db.rd_recheck x) as [[]|].
  - rewrite <-Hf2. apply find_some_iff. eexists. split; [exact Hin|]. by apply authorised_iff.
Qed.

Lemma redacted_by_named ev b : named d → redacted_by d ev = Some b → b ≠ EmptyString.
Proof.
  intros [Hn1 Hn2]. unfold redacted_by. case_bool_decide; [done|].
  assert (∀ r, r ∈ redactions_of d (EventID ev) → RedactionID r ≠ EmptyString) as Hr.
  { intros r (x & Hx & _ & ->)%elem_of_redactions_of. by apply Hn1. }
  destruct (List.find _ _) as [r|] eqn:Hf1.
  { apply List.find_some in Hf1 as [Hin%list_elem_of_In _]. intros [= <-]. by apply Hr. }
  destruct (List.find (authorised d ev) _) as [r|] eqn:Hf2.
  { apply List.find_some in Hf2 as [Hin%list_elem_of_In _]. intros [= <-]. by apply Hr. }
  unfold banned_by. case_bool_decide; [done|]. unfold ban_of.
  destruct (last (filter _ (Db.room_ban_redactions d))) as [r|] eqn:E; simpl; [|done].
  case_match; [|done]. intros [= <-]. simpl. apply last_Some_elem_of in E.
  apply list_elem_of_filter in E as [_ E]. by apply Hn2.
Qed.

Lemma marked_redacted ev : named d → RedactedBy ev = EmptyString → IsRedacted (marked d ev) = true ↔ redacted d ev.
Proof.
  intros Hn He. rewrite <-redacted_by_iff. unfold marked, IsRedacted. rewrite negb_true_iff, bool_decide_eq_false.
  destruct (redacted_by d ev) as [b|] eqn:Hb; simpl.
  - split; [eauto|]. intros _. by eapply redacted_by_named.
  - split; [done|by intros []].
Qed.

Lemma raw_event_unredacted id ev : raw_event d id = Some ev → RedactedBy ev = EmptyString.
Proof.
  unfold raw_event. intros He. assert (ev ∈ event_rows [id] d) as Hin.
  { destruct (event_rows [id] d); [done|]. injection He as ->. left. }
  unfold event_rows in Hin. apply list_elem_of_bind in Hin as (e & Hin & _).
  apply list_elem_of_bind in Hin as (j & Hin & _). apply list_elem_of_bind in Hin as (r & Hin & _).
  by apply list_elem_of_bind in Hin as (rej & ->%list_elem_of_singleton & _).
Qed.
End served.

(** ** Properties *)
Section properties.
Context (d : DB) (Hk : keyed d) (F : nat) (P : contract).
Context (HPe : ∀ id e, p_events P id e ↔ raw_event d id = Some e).

(** C15. Every load decides redaction afresh and exactly: each event held is
    returned, with its stored fields, marked redacted if and only if a
    redaction row or a ban covers it (never an [m.room.create]); the caches,
    which may have served it, keep only the unmarked event. *)
Theorem events_redacted_exactly ids w :
  named d → fit d F P w →
  ∃ evs w', GetEvents ids w = (Ok evs, w') ∧ fit d F P w' ∧
    (∀ id, is_Some (evs !! id) ↔ id ∈ ids ∧ is_Some (raw_event d id)) ∧
    ∀ id ev, evs !! id = Some ev →
      ∃ stored, raw_event d id = Some stored ∧ JSON ev = JSON stored ∧ RejectedReason ev = RejectedReason stored ∧
        (IsRedacted ev = true ↔ redacted d stored).
Proof using Hk HPe.
  intros Hn Hw. destruct (evals_GetEvents d Hk F P HPe ids w Hw) as (w' & E & Hw').
  exists (marked d <$> raw_map d ids), w'. split_and!; [done|done|..].
  - intros id. rewrite lookup_fmap, fmap_is_Some, raw_map_lookup. case_decide; split; try tauto.
    by intros [].
  - intros id ev. rewrite lookup_fmap, raw_map_lookup. case_decide; [|done].
    destruct (raw_event d id) as [e|] eqn:He; [|done]. intros [= <-]. exists e.
    split; [done|]. rewrite marked_redacted by (done || by eapply raw_event_unredacted).
    unfold marked. by destruct (redacted_by d e).
Qed.

Lemma evals_load_batch b : evals d F P (load_batch b) (Ok (marked d <$> raw_map d b)).
Proof using Hk HPe.
  unfold load_batch. eapply evals_bind; [apply evals_ctx|].
  eapply evals_bind; [by apply evals_getEventsRawOpt|]. by apply evals_applyRedactions, raw_map_raw.
Qed.

(** The batches without the database. *)
Fixpoint fold_batches {S} (fn : EventMap → S → S * option error) (bs : list (list string)) (s : S)
    : S * option error :=
  match bs with
  | [] => (s, None)
  | b :: bs =>
      let '(s, e) := fn (marked d <$> raw_map d b) s in
      match e with Some e => (s, Some e) | None => fold_batches fn bs s end
  end.

Lemma evals_run_batches {S} (fn : EventMap → S → S * option error) bs s :
  evals d F P (run_batches bs fn s) (Ok (fold_batches fn bs s)).
Proof using Hk HPe.
  revert s. induction bs as [|b bs IH]; intros s; simpl; [apply evals_ret|].
  eapply evals_bind; [apply evals_try, evals_load_batch|]. simpl.
  destruct (fn _ s) as [s' [e|]]; [apply evals_ret|apply IH].
Qed.
End properties.

(** ** Redaction events that are not served *)
Section withheld_properties.
Context `{!External} (d : DB).

(** The five rules of the comment on [WithheldRedactions]. *)
Definition withheld (ev : Event) : Prop :=
  Type_ ev = "m.room.redaction"%string ∧
  match redactsTarget (JSON ev) with
  | None => True
  | Some target =>
      (∀ o, o ∈ Db.events d → Db.ev_id o ≠ target) ∨
      ∃ o, o ∈ Db.events d ∧ Db.ev_id o = target ∧
        (Db.ev_type o = "m.room.create"%string ∨ Db.ev_room o ≠ RoomID ev ∨
         (needsRedactionRecheck (InternalMetadata ev) = true ∧
          domainOf (Db.ev_sender o) ≠ domainOf (senderOfEvent (JSON ev))))
  end.

Lemma fold_found (rows : list (string * original)) t :
  NoDup rows.*1 → ∀ o, foldl (λ m p, <[p.1 := p.2]> m) (∅ : gmap string original) rows !! t = Some o ↔ (t, o) ∈ rows.
Proof.
  induction rows as [|[x y] rows IH] using rev_ind; intros Hnd o.
  { split; [done|by intros ?%not_elem_of_nil]. }
  rewrite fmap_app in Hnd. apply NoDup_app in Hnd as (Hnd & Hdis & _).
  rewrite foldl_app, elem_of_app, list_elem_of_singleton. simpl. rewrite <-(IH Hnd).
  destruct (decide (x = t)) as [->|Hne].
  - rewrite lookup_insert_eq. split; [intros [= ->]; auto|]. intros [Hin|[= ->]]; [exfalso|done].
    apply (IH Hnd) in Hin. apply (Hdis t); [|by left]. by apply (list_elem_of_fmap_2 fst) in Hin.
  - rewrite lookup_insert_ne by done. split; [by left|]. intros [?|?]; [done|congruence].
Qed.

Lemma withheld_by_rules ev target :
  NoDup (Db.ev_id <$> Db.events d) → redactsTarget (JSON ev) = Some target →
  ∀ wanted, target ∈ wanted →
  withheld_by ev (foldl (λ m p, <[p.1 := p.2]> m) (∅ : gmap string original) (originals wanted d) !! target) = true
  ↔ ((∀ o, o ∈ Db.events d → Db.ev_id o ≠ target) ∨
     ∃ o, o ∈ Db.events d ∧ Db.ev_id o = target ∧
       (Db.ev_type o = "m.room.create"%string ∨ Db.ev_room o ≠ RoomID ev ∨
        (needsRedactionRecheck (InternalMetadata ev) = true ∧
         domainOf (Db.ev_sender o) ≠ domainOf (senderOfEvent (JSON ev))))).
Proof.
  intros Hnd Ht wanted Hw.
  assert (NoDup (originals wanted d).*1) as Hnd'.
  { unfold originals. rewrite <-list_fmap_compose. by apply NoDup_fmap_filter. }
  assert (∀ o, foldl (λ m p, <[p.1 := p.2]> m) (∅ : gmap string original) (originals wanted d) !! target = Some o ↔
    ∃ e, e ∈ Db.events d ∧ Db.ev_id e = target ∧ o = Orig (Db.ev_room e) (Db.ev_type e) (Db.ev_sender e)) as Hl.
  { intros o. rewrite fold_found by done. unfold originals. rewrite list_elem_of_fmap.
    setoid_rewrite list_elem_of_filter. split.
    - intros (e & [= -> ->] & _ & He). eauto.
    - intros (e & He & <- & ->). eauto. }
  set (fm := foldl _ _ (originals wanted d)) in *. destruct (fm !! target) as [o|] eqn:E; simpl.
  - destruct (proj1 (Hl o) eq_refl) as (e & He & Hid & ->). simpl.
    assert (∀ e', e' ∈ Db.events d → Db.ev_id e' = target → Orig (Db.ev_room e') (Db.ev_type e') (Db.ev_sender e') =
      Orig (Db.ev_room e) (Db.ev_type e) (Db.ev_sender e)) as Huniq.
    { intros e' He' Hid'. symmetry. apply (inj Some), Hl. eauto. }
    split.
    + intros Hw'. right. exists e. split_and!; [done..|]. case_bool_decide; [auto|].
      case_bool_decide; [auto|]. apply andb_true_iff in Hw' as [? ?%bool_decide_eq_true]. auto.
    + intros [Hno|(e' & He' & Hid' & Hr)]; [by destruct (Hno e)|].
      pose proof (Huniq e' He' Hid') as [= R1 R2 R3]. rewrite R1, R2, R3 in Hr.
      case_bool_decide; [done|]. case_bool_decide; [done|].
      destruct Hr as [?|[?|[-> ?]]]; [done..|]. simpl. by apply bool_decide_eq_true.
  - split; [|done]. intros _. left. intros e He Hid.
    assert (None = Some (Orig (Db.ev_room e) (Db.ev_type e) (Db.ev_sender e))) by (apply Hl; eauto).
    done.
Qed.

(** The set does not depend on the world. *)
Lemma withheld_set (evs : EventMap) :
  NoDup (Db.ev_id <$> Db.events d) →
  ∃ W, (∀ w, (∀ n, w_db w n = Ok d) →
          WithheldRedactions evs w = (Ok W, w) ∨ WithheldRedactions evs w = (Ok W, tick w)) ∧
    ∀ id ev, evs !! id = Some ev → (id ∈ W ↔ withheld ev).
Proof.
  intros Hnd. unfold WithheldRedactions.
  set (targets := redaction_targets evs). set (wanted := omap id (map_to_list targets).*2).
  assert (∀ id ev t, evs !! id = Some ev → targets !! id = Some t ↔
    Type_ ev = "m.room.redaction"%string ∧ t = redactsTarget (JSON ev)) as Htg.
  { intros id ev t He. unfold targets, redaction_targets. rewrite lookup_fmap, fmap_Some.
    setoid_rewrite map_lookup_filter_Some. split.
    - intros (e & [He' Hty] & ->). simplify_eq. done.
    - intros [Hty ->]. exists ev. done. }
  set (found := foldl (λ m p, <[p.1 := p.2]> m) (∅ : gmap string original) (originals wanted d)).
  set (W := dom (filter (λ kv, kv.2 = None) targets) ∪
    (dom (filter (λ kv : string * option string,
       match kv.2, evs !! kv.1 with
       | Some target, Some ev => withheld_by ev (found !! target)
       | _, _ => false end = true) targets) : gset string)).
  assert (∀ id ev, evs !! id = Some ev → id ∈ W ↔ withheld ev) as HW.
  { intros id ev He. unfold W, withheld. rewrite elem_of_union, !elem_of_dom. unfold is_Some.
    setoid_rewrite map_lookup_filter_Some. setoid_rewrite (Htg id ev _ He). simpl. rewrite He.
    destruct (redactsTarget (JSON ev)) as [target|] eqn:Ht.
    - destruct (decide (Type_ ev = "m.room.redaction"%string)) as [Hty|Hty]; [|naive_solver].
      assert (target ∈ wanted) as Hin.
      { unfold wanted. apply list_elem_of_omap. exists (Some target). split; [|done].
        apply list_elem_of_fmap. exists (id, Some target). split; [done|]. apply elem_of_map_to_list.
        by apply (Htg id ev). }
      rewrite <-(withheld_by_rules ev target Hnd Ht wanted Hin). fold found. naive_solver.
    - naive_solver. }
  destruct wanted as [|x wd] eqn:Hwd.
  - exists (dom (filter (λ kv, kv.2 = None) targets)). split; [by left|]. intros id ev He.
    rewrite <-(HW id ev He). unfold W. rewrite elem_of_union. split; [by left|]. intros [?|Hin]; [done|exfalso].
    apply elem_of_dom in Hin as [t [Hl Hm]%map_lookup_filter_Some]. simpl in Hm. destruct t as [target|]; [|done].
    assert (target ∈ wanted) as Hin; [|by rewrite Hwd in Hin; apply not_elem_of_nil in Hin].
    apply list_elem_of_omap. exists (Some target). split; [|done]. apply list_elem_of_fmap.
    exists (id, Some target). split; [done|]. by apply elem_of_map_to_list.
  - exists W. split; [|done]. intros w Hdb. right. unfold mbind, M_bind, query. rewrite Hdb. done.
Qed.

(** A redaction event is withheld exactly under the five rules: it names
    nothing to redact, or the event it names is not held, is an
    [m.room.create], is in another room, or the redaction is flagged for
    rechecking and comes from another server. *)
Theorem withheld_redactions_exact (evs : EventMap) w :
  NoDup (Db.ev_id <$> Db.events d) → (∀ n, w_db w n = Ok d) →
  ∃ W w', WithheldRedactions evs w = (Ok W, w') ∧
    ∀ id ev, evs !! id = Some ev → (id ∈ W ↔ withheld ev).
Proof.
  intros Hnd Hdb. destruct (withheld_set evs Hnd) as (W & Hrun & HW).
  destruct (Hrun w Hdb) as [E|E]; eauto.
Qed.

Lemma evals_withheld F P (evs : EventMap) :
  NoDup (Db.ev_id <$> Db.events d) →
  ∃ W, evals d F P (WithheldRedactions evs) (Ok W) ∧ ∀ id ev, evs !! id = Some ev → (id ∈ W ↔ withheld ev).
Proof.
  intros Hnd. destruct (withheld_set evs Hnd) as (W & Hrun & HW). exists W. split; [|done].
  intros w Hw. destruct (Hrun w (fit_db _ _ _ _ Hw)) as [E|E]; rewrite E; eexists; (split; [done|]); [done|].
  destruct Hw; by split.
Qed.
End withheld_properties.

(** [keyed] on a concrete database. *)
Lemma keyed_check d :
  forallb (λ e, bool_decide (length (event_rows [Db.ev_id e] d) ≤ 1)%nat && negb (contains_byte nul (Db.ev_room e)))
    (Db.events d) = true →
  forallb (λ r, negb (contains_byte nul (Db.bn_room r))) (Db.room_ban_redactions d) = true → keyed d.
Proof.
  rewrite !forallb_forall. setoid_rewrite andb_true_iff. setoid_rewrite negb_true_iff.
  setoid_rewrite bool_decide_eq_true. setoid_rewrite <-list_elem_of_In. intros He Hb.
  split; [|intros e Hin; by apply He|done]. intros id.
  destruct (decide (id ∈ Db.ev_id <$> Db.events d)) as [(e & -> & Hin)%list_elem_of_fmap|Hno]; [by apply He|].
  assert (event_rows [id] d = []) as ->; [|simpl; lia]. unfold event_rows.
  assert (filter (λ e, Db.ev_id e ∈ [id]) (Db.events d) = []) as ->; [|done].
  destruct (filter _ _) as [|e l] eqn:E; [done|exfalso]. apply Hno.
  assert (e ∈ filter (λ e, Db.ev_id e ∈ [id]) (Db.events d)) as [<-%list_elem_of_singleton Hin]%list_elem_of_filter
    by (rewrite E; left). by apply list_elem_of_fmap_2.
Qed.

(** ** Witnesses *)
Section witnesses.
Local Open Scope string_scope.

(** A message redacted by its author's server, one by a ban, and two redactions,
    one of them from another server. *)
Definition wit_event (id sender ty : string) (n : Z) : Db.event_row := Db.EventRow id "!r" ty None sender false n.
Definition wit_json (id body : string) : Db.json_row := Db.JsonRow id (js body) (js "{'recheck_redaction':true}") (Some 3%Z).
Definition wit_db : DB :=
  Db.MkDb [wit_event "$m" "@a:s.org" "m.room.message" 1; wit_event "$spam" "@b:s.org" "m.room.message" 2;
           wit_event "$red" "@mod:s.org" "m.room.redaction" 3; wit_event "$evil" "@x:evil.org" "m.room.redaction" 4]
    [wit_json "$m" "{'sender':'@a:s.org'}"; wit_json "$spam" "{'sender':'@b:s.org'}";
     wit_json "$red" "{'sender':'@mod:s.org','redacts':'$m'}";
     wit_json "$evil" "{'sender':'@x:evil.org','redacts':'$spam'}"]
    [Db.RoomRow "!r" (Some "11") (Some true)] [] [] [] [] [] [] [] [] [] [] []
    [Db.RedactionRow "$red" (Some "$m") (Some true); Db.RedactionRow "$evil" (Some "$spam") (Some true)]
    [Db.BanRow "!r" "@b:s.org" "$ban" None] [].
Definition wit_contract : contract :=
  MkContract (λ _ _, True) (λ id e, raw_event wit_db id = Some e) (λ _ _, True) (λ _ _, True) (λ _ _, True).
Definition wit_world : world :=
  MkWorld (λ _, Ok wit_db) (λ _, false) 20 0 (newCaches (Settings.Mk 0 0 0 0 0)) Trace.WithTrace.

Lemma events_wit_fit : fit wit_db 20 wit_contract wit_world.
Proof. split; [done|done|done|]. apply keeps_new. repeat constructor; done. Qed.

Lemma wit_keyed : keyed wit_db.
Proof. by apply keyed_check; vm_compute. Qed.

Lemma wit_named : named wit_db.
Proof.
  split.
  - intros r. simpl. rewrite !elem_of_cons. intros [->|[->|Hr]]; [done..|]. by apply not_elem_of_nil in Hr.
  - intros r Hr. by apply list_elem_of_singleton in Hr as ->.
Qed.

Lemma events_redacted_exactly_witness :
  ∃ evs w', GetEvents ["$m"; "$spam"] wit_world = (Ok evs, w') ∧
    ∀ id ev, evs !! id = Some ev → ∃ stored, raw_event wit_db id = Some stored ∧
      (IsRedacted ev = true ↔ redacted wit_db stored).
Proof.
  destruct (events_redacted_exactly wit_db wit_keyed 20 wit_contract (λ _ _, iff_refl _) ["$m"; "$spam"] wit_world
    wit_named events_wit_fit) as (evs & w' & E & _ & _ & Hev).
  exists evs, w'. split; [done|]. intros id ev He. destruct (Hev id ev He) as (st & ? & _ & _ & ?). eauto.
Defined.

Lemma withheld_redactions_exact_witness :
  ∃ W w', WithheldRedactions (H := Sample.ext) (raw_map wit_db ["$red"; "$evil"]) wit_world = (Ok W, w') ∧
    ∀ id ev, raw_map wit_db ["$red"; "$evil"] !! id = Some ev → (id ∈ W ↔ withheld (H := Sample.ext) wit_db ev).
Proof.
  apply (withheld_redactions_exact (H := Sample.ext) wit_db (raw_map wit_db ["$red"; "$evil"]) wit_world).
  - in_list.
  - done.
Defined.
End witnesses.
