(* ===== verification/Acl.v ===== *)
(** * [internal/matrixstate/acl.go]: server ACLs

    [globToRegex] builds an anchored, case-insensitive regular expression of a
    restricted form, modelled as a list of [item]s: a literal rune, or a gap of
    exactly, or at least, a number of runes other than newline (Go's [.]).  A
    count over 1000, or a glob that is not UTF-8, does not compile and the entry
    is skipped.  Case folding is [fold_rune] of [External]. *)
From S2P Require Import Prelude Json External.

Open Scope Z_scope.

Inductive item := Lit (r : Z) | Gap (count : nat) (at_least : bool).

Definition star : Z := 42.
Definition question : Z := 63.
Definition newline : Z := 10.
Definition is_wild (r : Z) : bool := bool_decide (r = star) || bool_decide (r = question).

(** A run of wildcards: its question marks, whether it has a star, the rest. *)
Fixpoint take_wild (g : list Z) : nat * bool * list Z :=
  match g with
  | r :: g' =>
      if is_wild r then
        let '(q, s, rest) := take_wild g' in
        if bool_decide (r = question) then (S q, s, rest) else (q, true, rest)
      else (O, false, g)
  | [] => (O, false, [])
  end.

Fixpoint compile_items (fuel : nat) (g : list Z) : list item :=
  match fuel, g with
  | S fuel, r :: g' =>
      if is_wild r then
        let '(q, s, rest) := take_wild g in Gap q s :: compile_items fuel rest
      else Lit r :: compile_items fuel g'
  | _, _ => []
  end.

Definition max_repeat : nat := 1000.
Definition compiles (i : item) : bool :=
  match i with Gap n _ => (n <=? max_repeat)%nat | Lit _ => true end.

Definition valid_utf8 (s : string) : bool :=
  bool_decide (String.concat "" (Utf8.encode <$> Utf8.runes s) = s).

(** [None] is a compile error. *)
Definition globToRegex (glob : string) : option (list item) :=
  let g := Utf8.runes glob in
  let items := compile_items (length g) g in
  if valid_utf8 glob && forallb compiles items then Some items else None.

(** ** IPv4 literals: [net.ParseIP(s)] with a 4-byte form *)
Module Ip.

(** A decimal field of an IPv4 address: no leading zero, at most 255. *)
Fixpoint v4_field (s : string) (acc : option Z) : option (Z * string) :=
  match s with
  | String a s' =>
      if is_digit a then
        let dg := Utf8.byte a - 48 in
        match acc with
        | None => v4_field s' (Some dg)
        | Some 0 => None
        | Some n => let n := n * 10 + dg in if bool_decide (255 < n) then None else v4_field s' (Some n)
        end
      else (λ n, (n, s)) <$> acc
  | EmptyString => (λ n, (n, s)) <$> acc
  end.

Definition v4 (s : string) : option (list Z) :=
  '(a, s) ← v4_field s None; s ← (match s with String "." s => Some s | _ => None end);
  '(b, s) ← v4_field s None; s ← (match s with String "." s => Some s | _ => None end);
  '(c, s) ← v4_field s None; s ← (match s with String "." s => Some s | _ => None end);
  '(e, s) ← v4_field s None;
  match s with EmptyString => Some [a; b; c; e] | _ => None end.

(** Up to four hex digits: value, number of digits, rest. *)
Fixpoint hex_field (s : string) (acc : Z) (off : nat) : option (Z * nat * string) :=
  match s with
  | String a s' =>
      match hex_val a with
      | Some h => if (4 <=? off)%nat then None else hex_field s' (acc * 16 + h) (S off)
      | None => Some (acc, off, s)
      end
  | EmptyString => Some (acc, off, s)
  end.

(** The 16-bit groups before and after the ellipsis. *)
Fixpoint v6_groups (fuel : nat) (s : string) (groups : list Z) (ellipsis : option nat)
    : option (list Z * option nat) :=
  match fuel with
  | O => match s with EmptyString => Some (groups, ellipsis) | _ => None end
  | S fuel =>
      '(n, off, rest) ← hex_field s 0 0;
      if (off =? 0)%nat then None else
      match rest with
      | String "." _ =>
          if bool_decide (ellipsis = None) && negb (length groups =? 6)%nat then None
          else if (6 <? length groups)%nat then None
          else match v4 s with
               | Some [a; b; c; e] => Some (groups ++ [a * 256 + b; c * 256 + e], ellipsis)
               | _ => None
               end
      | EmptyString => Some (groups ++ [n], ellipsis)
      | String ":" (String ":" rest) =>
          let groups := groups ++ [n] in
          match ellipsis with
          | Some _ => None
          | None => match rest with
                    | EmptyString => Some (groups, Some (length groups))
                    | _ => v6_groups fuel rest groups (Some (length groups))
                    end
          end
      | String ":" (String c rest) => v6_groups fuel (String c rest) (groups ++ [n]) ellipsis
      | _ => None
      end
  end.

Definition v6 (s : string) : option (list Z) :=
  r ← (match s with
       | String ":" (String ":" EmptyString) => Some ([], Some O)
       | String ":" (String ":" s) => v6_groups 8 s [] (Some O)
       | _ => v6_groups 8 s [] None
       end);
  let '(groups, ellipsis) := r in
  match ellipsis with
  | None => if (length groups =? 8)%nat then Some groups else None
  | Some e => if (length groups <? 8)%nat
              then Some (take e groups ++ replicate (8 - length groups) 0 ++ drop e groups) else None
  end.

(** Which parser: decided by the first of [.], [:] and [%]; a zone is refused. *)
Fixpoint first_sep (s : string) : option ascii :=
  match s with
  | String a s => if bool_decide (a ∈ ["."; ":"; "%"]%char) then Some a else first_sep s
  | EmptyString => None
  end.

(** [ip != nil && ip.To4() != nil] *)
Definition is_v4 (s : string) : bool :=
  match first_sep s with
  | Some "."%char => bool_decide (is_Some (v4 s))
  | Some ":"%char =>
      negb (contains_byte "%"%char s) &&
      match v6 s with
      | Some [0; 0; 0; 0; 0; 65535; _; _] => true
      | _ => false
      end
  | _ => false
  end.
End Ip.

(** ** The evaluator *)
Record ServerACL := ACL { allowIPLiterals : bool; allow : list (list item); deny : list (list item) }.

Section acl.
Context `{!External}.

(** [re.MatchString] for the anchored expression. *)
Fixpoint skip_runes (n : nat) (s : list Z) : option (list Z) :=
  match n, s with
  | O, _ => Some s
  | S n, r :: s => if bool_decide (r = newline) then None else skip_runes n s
  | S _, [] => None
  end.
Fixpoint any_tail (f : list Z → bool) (s : list Z) : bool :=
  f s || match s with
         | r :: s => negb (bool_decide (r = newline)) && any_tail f s
         | [] => false
         end.
Fixpoint matches (items : list item) (s : list Z) : bool :=
  match items with
  | [] => match s with [] => true | _ => false end
  | Lit r :: items =>
      match s with
      | x :: s => bool_decide (fold_rune x = fold_rune r) && matches items s
      | [] => false
      end
  | Gap n at_least :: items =>
      match skip_runes n s with
      | Some s => if at_least then any_tail (matches items) s else matches items s
      | None => false
      end
  end.
Definition MatchString (re : list item) (s : string) : bool := matches re (Utf8.runes s).

(** [None] is the nil ACL. *)
Definition Allowed (a : option ServerACL) (serverName : string) : bool :=
  match a with
  | None => true
  | Some a =>
      if negb (allowIPLiterals a) && (has_prefix serverName "[" || Ip.is_v4 serverName) then false
      else if existsb (λ re, MatchString re serverName) (deny a) then false
      else existsb (λ re, MatchString re serverName) (allow a)
  end.

(** ** Parsing the event *)

(** The strings of a list of any; another type than a list is ignored. *)
Definition glob_strings (raw : string) : list string :=
  if bool_decide (raw = EmptyString) then [] else
  match parse raw with
  | Ok (JArr es) => omap (λ e : json * string, match e.1 with JStr s => Some (unquote s) | _ => None end) es
  | _ => []
  end.

Definition compileGlobs (raw : string) : list (list item) := omap globToRegex (glob_strings raw).

Definition acl_fields : list string := ["allow_ip_literals"; "allow"; "deny"]%string.

(** [json.Unmarshal(raw, &b)] into a false [b]: [null] succeeds and leaves it. *)
Definition decode_bool (raw : string) : option bool :=
  match parse raw with
  | Ok (JBool b) => Some b
  | Ok JNull => Some false
  | _ => None
  end.

(** [None] is the error of [ParseServerACL]. *)
Definition acl_content (eventJSON : string) : option (string * string * string) :=
  ms ← Struct.top eventJSON;
  inner ← Struct.struct_members (Struct.occurrences ["content"%string] "content" ms);
  let field f := Struct.raw_field (Struct.occurrences acl_fields f inner) in
  Some (field "allow_ip_literals"%string, field "allow"%string, field "deny"%string).

Definition ParseServerACL (eventJSON : string) : option ServerACL :=
  '(ip, al, dn) ← acl_content eventJSON;
  Some (ACL (if bool_decide (ip = EmptyString) then true else default true (decode_bool ip))
            (compileGlobs al) (compileGlobs dn)).

(** ** What a glob means *)

(** [*] is any text, [?] any rune (neither crosses a newline), anything else
    itself up to case. *)
Fixpoint glob_match (g : list Z) (s : list Z) : bool :=
  match g with
  | [] => match s with [] => true | _ => false end
  | r :: g =>
      if bool_decide (r = star) then any_tail (glob_match g) s
      else match s with
           | x :: s => (if bool_decide (r = question) then negb (bool_decide (x = newline))
                        else bool_decide (fold_rune x = fold_rune r)) && glob_match g s
           | [] => false
           end
  end.

(** A gap followed by [f]. *)
Definition gap (n : nat) (at_least : bool) (f : list Z → bool) (s : list Z) : bool :=
  match skip_runes n s with
  | Some s => if at_least then any_tail f s else f s
  | None => false
  end.

Lemma any_tail_ext f g s : (∀ s, f s = g s) → any_tail f s = any_tail g s.
Proof. intros Hfg. induction s as [|r s IH]; simpl; rewrite Hfg; [done|]. by rewrite IH. Qed.

Lemma any_tail_idem f s : any_tail (any_tail f) s = any_tail f s.
Proof.
  induction s as [|r s IH]; simpl; [by rewrite !orb_false_r|]. rewrite IH.
  destruct (f (r :: s)), (negb _), (any_tail f s); done.
Qed.

Lemma gap_S n o f r s : gap (S n) o f (r :: s) = negb (bool_decide (r = newline)) && gap n o f s.
Proof. unfold gap. simpl. by case_bool_decide. Qed.

Lemma any_tail_gap n o f s : any_tail (gap n o f) s = gap n true f s.
Proof.
  revert s. induction n as [|n IH]; intros s.
  - transitivity (any_tail (λ s, if o then any_tail f s else f s) s); [by apply any_tail_ext|].
    destruct o; [apply any_tail_idem|done].
  - induction s as [|r s IHs]; [done|]. cbn [any_tail]. rewrite IHs, !gap_S, <-(IH s).
    assert (any_tail (gap n o f) s = gap n o f s || gap (S n) true f s) as ->.
    { destruct s as [|r' s]; [done|]. cbn [any_tail]. by rewrite (gap_S n true f r' s), IH. }
    by destruct (negb (bool_decide (r = newline))).
Qed.

(** A run of wildcards is one gap, whatever the order of its stars and marks. *)
Lemma take_wild_match g q o rest f s :
  take_wild g = (q, o, rest) → (∀ s, glob_match rest s = f s) → glob_match g s = gap q o f s.
Proof.
  revert q o rest f s. induction g as [|r g IH]; intros q o rest f s Hw Hf; [by simplify_eq/=; rewrite Hf|].
  cbn [take_wild] in Hw. destruct (is_wild r) eqn:Hr; [|simplify_eq; rewrite Hf; done].
  destruct (take_wild g) as [[q' o'] rest'] eqn:Hg. cbn [glob_match].
  destruct (decide (r = question)) as [->|Hq].
  - rewrite bool_decide_true in Hw by done. simplify_eq. rewrite bool_decide_false by done.
    destruct s as [|x s]; [done|]. rewrite bool_decide_true by done. by rewrite gap_S, (IH q' o rest f).
  - rewrite bool_decide_false in Hw by done. simplify_eq.
    assert (r = star) as ->.
    { unfold is_wild in Hr. apply orb_true_iff in Hr. rewrite !bool_decide_eq_true in Hr. tauto. }
    rewrite bool_decide_true by done.
    rewrite (any_tail_ext _ (gap q o' f)) by (intros; by eapply IH). apply any_tail_gap.
Qed.

Lemma take_wild_length g q o rest : take_wild g = (q, o, rest) → (length rest ≤ length g)%nat.
Proof.
  revert q o rest. induction g as [|r g IH]; intros q o rest Hw; cbn [take_wild] in Hw; [by simplify_eq|].
  destruct (is_wild r); [|by simplify_eq]. destruct (take_wild g) as [[q' o'] rest'].
  specialize (IH q' o' rest' eq_refl). simpl. case_bool_decide; simplify_eq; lia.
Qed.

Lemma take_wild_first r g q o rest : is_wild r = true → take_wild (r :: g) = (q, o, rest) →
  (length rest < length (r :: g))%nat.
Proof.
  intros Hr Hw. cbn [take_wild] in Hw. rewrite Hr in Hw. destruct (take_wild g) as [[q' o'] rest'] eqn:E.
  apply take_wild_length in E. simpl. case_bool_decide; simplify_eq; lia.
Qed.

(** The compiled expression matches what the glob means. *)
Lemma compile_items_match fuel g s :
  (length g ≤ fuel)%nat → matches (compile_items fuel g) s = glob_match g s.
Proof.
  revert g s. induction fuel as [|fuel IH]; intros g s Hf; [by destruct g; simpl in Hf; [|lia]|].
  destruct g as [|r g]; [done|]. cbn [compile_items]. destruct (is_wild r) eqn:Hr.
  - destruct (take_wild (r :: g)) as [[q o] rest] eqn:Hw.
    pose proof (take_wild_first _ _ _ _ _ Hr Hw). cbn [length] in *.
    rewrite (take_wild_match _ _ _ _ (matches (compile_items fuel rest)) s Hw); [done|].
    intros s'. symmetry. apply IH. lia.
  - unfold is_wild in Hr. apply orb_false_iff in Hr as [H1 H2].
    cbn [matches glob_match]. rewrite H1. destruct s as [|x s]; [done|]. rewrite H2, IH; [done|].
    simpl in Hf. lia.
Qed.

Lemma globToRegex_match glob re s : globToRegex glob = Some re →
  MatchString re s = glob_match (Utf8.runes glob) (Utf8.runes s).
Proof.
  unfold globToRegex. case_match; [|done]. intros [= <-]. unfold MatchString. by apply compile_items_match.
Qed.

Lemma exists_globs (globs : list string) s :
  existsb (λ re, MatchString re s) (omap globToRegex globs) =
  existsb (λ g, bool_decide (is_Some (globToRegex g)) && glob_match (Utf8.runes g) (Utf8.runes s)) globs.
Proof.
  induction globs as [|g globs IH]; [done|].
  change (omap globToRegex (g :: globs)) with
    (match globToRegex g with Some y => y :: omap globToRegex globs | None => omap globToRegex globs end).
  cbn [existsb]. rewrite <-IH. destruct (globToRegex g) as [re|] eqn:E; [|done].
  cbn [existsb]. by rewrite (globToRegex_match g re s E).
Qed.

(** C27. The ACL of an event decides as the globs it lists read: with the strings
    of [allow] and [deny] (other entries, and entries that do not compile, are
    ignored), a server is refused if a deny glob matches its whole name, else
    allowed exactly if an allow glob does; collapsing runs of wildcards into one
    counted gap changes no answer.  IP literals are refused first when the event
    says so. *)
Theorem acl_exact eventJSON ip al dn server :
  acl_content eventJSON = Some (ip, al, dn) →
  let hit globs := existsb (λ g, bool_decide (is_Some (globToRegex g)) &&
                                 glob_match (Utf8.runes g) (Utf8.runes server)) (glob_strings globs) in
  Allowed (ParseServerACL eventJSON) server =
  if negb (if bool_decide (ip = EmptyString) then true else default true (decode_bool ip))
     && (has_prefix server "[" || Ip.is_v4 server) then false
  else negb (hit dn) && hit al.
Proof.
  intros Hc hit. unfold ParseServerACL. rewrite Hc. simpl. unfold compileGlobs. rewrite !exists_globs.
  fold (hit dn) (hit al). case_match; [done|]. by destruct (hit dn).
Qed.

(** A value that is not a boolean is not always ignored: an event whose
    [allow_ip_literals] is [null] refuses the IP literals that an event without
    the field, or with a string there, allows. *)
Theorem acl_null_ip_literals :
  Allowed (ParseServerACL (js "{'content':{'allow':['*'],'allow_ip_literals':null}}")) "1.2.3.4" = false ∧
  Allowed (ParseServerACL (js "{'content':{'allow':['*'],'allow_ip_literals':'no'}}")) "1.2.3.4" = true ∧
  Allowed (ParseServerACL (js "{'content':{'allow':['*']}}")) "1.2.3.4" = true.
Proof. split_and!; reflexivity. Qed.
End acl.

Lemma acl_exact_witness :
  Allowed (H := Sample.ext) (ParseServerACL (js "{'content':{'allow':['*'],'deny':['*?.evil.org',7]}}"))
    "Bad.EVIL.org" = false.
Proof.
  rewrite (acl_exact (H := Sample.ext) (js "{'content':{'allow':['*'],'deny':['*?.evil.org',7]}}")
    "" (js "['*']") (js "['*?.evil.org',7]") "Bad.EVIL.org"); by vm_compute.
Defined.
