(* ===== verification/Pducmp.v ===== *)
(** * [internal/pducmp]: when two serialisations of an event agree

    An event is decoded with [UseNumber] into Go's generic values: maps, here
    lists of entries sorted by key with no key twice, so that equality of values
    is [reflect.DeepEqual]; numbers keep their text.  [Equal] compares two
    events, [Canonical] renders one for a digest. *)
From S2P Require Import Prelude Json.

Open Scope Z_scope.

Inductive goval :=
| GNull | GBool (b : bool) | GNum (tok : string) | GStr (s : string)
| GArr (l : list goval) | GObj (m : list (string * goval)).

Notation gomap := (list (string * goval)).

(** Map operations. *)
Fixpoint set_key (k : string) (v : goval) (m : gomap) : gomap :=
  match m with
  | [] => [(k, v)]
  | (k', v') :: m' =>
      if bool_decide (k = k') then (k, v) :: m'
      else if str_leb k k' then (k, v) :: m else (k', v') :: set_key k v m'
  end.
Definition get_key (k : string) (m : gomap) : option goval :=
  snd <$> List.find (λ p, bool_decide (p.1 = k)) m.
Definition del_key (k : string) (m : gomap) : gomap := filter (λ p, p.1 ≠ k) m.

Fixpoint to_go (v : json) : goval :=
  match v with
  | JNull => GNull
  | JBool b => GBool b
  | JNum tok => GNum tok
  | JStr raw => GStr (unquote raw)
  | JArr es => GArr ((fix go es := match es with [] => [] | (x, _) :: es => to_go x :: go es end) es)
  | JObj ms =>
      GObj ((fix go acc ms := match ms with
             | [] => acc
             | (k, (x, _)) :: ms => go (set_key (unquote k) (to_go x) acc) ms
             end) [] ms)
  end.

(** [Decoder.Decode] reads the first value and leaves what follows it. *)
Definition decode_first (s : string) : option json :=
  let s := skip_ws s in
  match value (2 * String.length s + 2) 0 s with Ok (v, _) => Some v | Err _ => None end.

(** [*map[string]any]: [null] gives the nil map, kept apart from an empty one. *)
Definition decode_map (raw : string) : option (option gomap) :=
  match to_go <$> decode_first raw with
  | Some (GObj m) => Some (Some m)
  | Some GNull => Some None
  | _ => None
  end.

(** Applying a function to [ev["unsigned"]] when it is a map. *)
Definition on_unsigned (f : gomap → gomap) (ev : option gomap) : option gomap :=
  match ev with
  | None => None
  | Some m => match get_key "unsigned" m with
              | Some (GObj u) => Some (set_key "unsigned" (GObj (f u)) m)
              | _ => Some m
              end
  end.

Definition mark_age (u : gomap) : gomap :=
  match get_key "age" u with Some _ => set_key "age" (GStr "<age>") u | None => u end.

Definition normalise (raw : string) : option (option gomap) := on_unsigned mark_age <$> decode_map raw.

Definition polluted : list string := ["prev_content"; "prev_sender"]%string.

Definition dropUncomparableUnsigned (ev : option gomap) : option gomap :=
  on_unsigned (λ u, foldl (λ u f, del_key f u) u polluted) ev.

(** The keys of [ev["unsigned"]]; none when it is not a map. *)
Definition unsigned_keys (ev : option gomap) : list string :=
  match ev ≫= get_key "unsigned" with Some (GObj u) => u.*1 | _ => [] end.

Definition dropSynapseCachePollution (synapse native : option gomap) : option gomap :=
  on_unsigned (λ u, foldl (λ u f, if bool_decide (f ∈ unsigned_keys native) then u else del_key f u) u polluted)
    synapse.

#[export] Instance goval_eq_dec : EqDecision goval.
Proof.
  refine (fix go (x y : goval) : Decision (x = y) :=
    let _ : EqDecision goval := go in
    match x, y with
    | GNull, GNull => left eq_refl
    | GBool a, GBool b => cast_if (decide (a = b))
    | GNum a, GNum b => cast_if (decide (a = b))
    | GStr a, GStr b => cast_if (decide (a = b))
    | GArr a, GArr b => cast_if (decide (a = b))
    | GObj a, GObj b => cast_if (decide (a = b))
    | _, _ => right _
    end); abstract congruence.
Defined.

Definition Equal (synapse native : string) : bool :=
  match normalise synapse, normalise native with
  | Some ns, Some nn => bool_decide (dropSynapseCachePollution ns nn = nn)
  | _, _ => bool_decide (synapse = native)
  end.

(** ** [json.Marshal] *)
Definition hex_digit (z : Z) : ascii := Utf8.chr (if bool_decide (z < 10) then 48 + z else 87 + z).
Definition u_escape (z : Z) : string :=
  "\u" +:+ String (hex_digit (z / 4096)) (String (hex_digit ((z / 256) mod 16))
    (String (hex_digit ((z / 16) mod 16)) (String (hex_digit (z mod 16)) EmptyString))).

Definition escape_byte (a : ascii) : string :=
  let b := Utf8.byte a in
  if bool_decide (a = quote) then String backslash (String quote EmptyString)
  else if bool_decide (a = backslash) then String backslash (String backslash EmptyString)
  else if bool_decide (b = 8) then "\b"
  else if bool_decide (b = 12) then "\f"
  else if bool_decide (b = 10) then "\n"
  else if bool_decide (b = 13) then "\r"
  else if bool_decide (b = 9) then "\t"
  else if bool_decide (b < 32) || bool_decide (a ∈ ["<"; ">"; "&"]%char) then u_escape b
  else String a EmptyString.

(** [appendString] with HTML escaping. *)
Fixpoint escape_fuel (fuel : nat) (s : string) : string :=
  match fuel, s with
  | S fuel, String a s' =>
      if bool_decide (Utf8.byte a < 128) then escape_byte a +:+ escape_fuel fuel s'
      else
        let '(r, rest) := Utf8.decode a s' in
        (if bool_decide (r = 8232) || bool_decide (r = 8233) then u_escape r
         else if bool_decide (r = Utf8.rune_error) && bool_decide (rest = s') then "\ufffd"
         else Utf8.encode r) +:+ escape_fuel fuel rest
  | _, _ => EmptyString
  end.
Definition encode_string (s : string) : string :=
  String quote (escape_fuel (String.length s) s) +:+ String quote EmptyString.

Fixpoint marshal (v : goval) : string :=
  match v with
  | GNull => "null"
  | GBool true => "true"
  | GBool false => "false"
  | GNum tok => tok
  | GStr s => encode_string s
  | GArr l =>
      "[" +:+ (fix go l := match l with
               | [] => EmptyString
               | [x] => marshal x
               | x :: l => marshal x +:+ "," +:+ go l
               end) l +:+ "]"
  | GObj m =>
      "{" +:+ (fix go m := match m with
               | [] => EmptyString
               | [(k, x)] => encode_string k +:+ ":" +:+ marshal x
               | (k, x) :: m => encode_string k +:+ ":" +:+ marshal x +:+ "," +:+ go m
               end) m +:+ "}"
  end.

Definition Canonical (raw : string) : option string :=
  ev ← normalise raw;
  Some (match dropUncomparableUnsigned ev with Some m => marshal (GObj m) | None => "null"%string end).

(** ** Lemmas *)
Section maps.
Implicit Types (m u : gomap) (k : string).

Lemma get_set k v m : get_key k (set_key k v m) = Some v.
Proof.
  unfold get_key. induction m as [|[k' v'] m IH]; simpl; [by rewrite bool_decide_true|].
  case_bool_decide as H1; [simpl; by rewrite bool_decide_true|].
  destruct (str_leb k k'); simpl; [by rewrite bool_decide_true|].
  rewrite bool_decide_false by congruence. done.
Qed.

Lemma set_set k v w m : set_key k w (set_key k v m) = set_key k w m.
Proof.
  induction m as [|[k' v'] m IH]; simpl; [by rewrite bool_decide_true|].
  case_bool_decide as H1; simpl; [by rewrite bool_decide_true|].
  destruct (str_leb k k') eqn:E; simpl; [by rewrite bool_decide_true|].
  rewrite bool_decide_false, E by done. by rewrite IH.
Qed.

Lemma del_key_comm k1 k2 u : del_key k1 (del_key k2 u) = del_key k2 (del_key k1 u).
Proof. unfold del_key. rewrite !list_filter_filter. apply list_filter_iff. tauto. Qed.

Lemma del_key_idem k u : del_key k (del_key k u) = del_key k u.
Proof. unfold del_key. rewrite list_filter_filter. apply list_filter_iff. tauto. Qed.

(** What was dropped on one side is dropped again on both. *)
Lemma drop_after (fs : list string) (keep : string → bool) u :
  foldl (λ u f, del_key f u) (foldl (λ u f, if keep f then u else del_key f u) u fs) fs =
  foldl (λ u f, del_key f u) u fs.
Proof.
  assert (∀ l u f, foldl (λ u f, del_key f u) (del_key f u) l = del_key f (foldl (λ u f, del_key f u) u l)) as Hc.
  { induction l as [|g l IH]; intros u' f; [done|]. simpl. by rewrite del_key_comm, IH. }
  assert (∀ l u f, f ∈ l → del_key f (foldl (λ u f, del_key f u) u l) = foldl (λ u f, del_key f u) u l) as Hi.
  { induction l as [|g l IH]; intros u' f Hf; [by apply not_elem_of_nil in Hf|]. simpl.
    apply elem_of_cons in Hf as [->|Hf]; [|by apply IH]. rewrite <-Hc. by rewrite del_key_idem. }
  assert (∀ l u, (∀ f, f ∈ l → f ∈ fs) →
    foldl (λ u f, del_key f u) (foldl (λ u f, if keep f then u else del_key f u) u l) fs =
    foldl (λ u f, del_key f u) u fs) as H; [|by apply H].
  induction l as [|g l IH]; intros u' Hl; [done|]. simpl. rewrite IH by (intros; apply Hl; by right).
  destruct (keep g); [done|]. rewrite Hc. apply Hi, Hl. left.
Qed.
End maps.

Lemma drop_pollution_then (ns nn : option gomap) :
  dropUncomparableUnsigned (dropSynapseCachePollution ns nn) = dropUncomparableUnsigned ns.
Proof.
  unfold dropUncomparableUnsigned, dropSynapseCachePollution, on_unsigned.
  destruct ns as [m|]; [|done]. destruct (get_key "unsigned" m) as [v|] eqn:E; [|by rewrite E].
  destruct v as [| | | | |u]; try by rewrite E.
  rewrite get_set, set_set. do 3 f_equal. apply drop_after.
Qed.

(** The pairwise comparison and the digest agree: two events that parse and
    that [Equal] accepts, tolerating what Synapse's cache adds, have the same
    canonical form. *)
Theorem equal_canonical synapse native :
  Equal synapse native = true → is_Some (normalise synapse) → is_Some (normalise native) →
  Canonical synapse = Canonical native ∧ is_Some (Canonical native).
Proof.
  unfold Equal, Canonical. intros He [ns Hs] [nn Hn]. rewrite Hs, Hn in *. simpl.
  apply bool_decide_eq_true in He. split; [|eauto].
  by rewrite <-(drop_pollution_then ns nn), He.
Qed.

Lemma equal_canonical_witness :
  Canonical (js "{'b':1.0,'unsigned':{'age':5,'prev_sender':'@x:y'},'a':'<'}")
  = Canonical (js " {'a':'<','b':1.0 , 'unsigned':{'age':77}}").
Proof.
  apply (equal_canonical (js "{'b':1.0,'unsigned':{'age':5,'prev_sender':'@x:y'},'a':'<'}")
                         (js " {'a':'<','b':1.0 , 'unsigned':{'age':77}}"));
    [by vm_compute|by vm_compute; eexists|by vm_compute; eexists].
Defined.

(** ** What [encode_string] writes is read back as one string *)

(** Text that [scan_string] passes over inside a string. *)
Fixpoint plain_text (u : string) : bool :=
  match u with
  | EmptyString => true
  | String a u =>
      if bool_decide (a = quote) || bool_decide (Utf8.byte a < 32) then false
      else if bool_decide (a = backslash) then
        match u with
        | String e u =>
            if bool_decide (e = "u"%char) then
              match u with
              | String h1 (String h2 (String h3 (String h4 u))) =>
                  is_hex h1 && is_hex h2 && is_hex h3 && is_hex h4 && plain_text u
              | _ => false
              end
            else bool_decide (e ∈ [quote; backslash; "/"; "b"; "f"; "n"; "r"; "t"]%char) && plain_text u
        | EmptyString => false
        end
      else plain_text u
  end.

Lemma scan_plain u rest raw rest' : plain_text u = true → scan_string rest = Some (raw, rest') →
  scan_string (u +:+ rest) = Some (u +:+ raw, rest').
Proof.
  intros Hu Hr. remember (String.length u) as n eqn:En.
  assert (String.length u ≤ n)%nat as Hn by lia. clear En. revert u Hu Hn.
  induction n as [|n IH]; intros [|a u] Hu Hn; try done; [cbn in Hn; lia|].
  cbn in Hn. rewrite !app_cons. cbn [plain_text scan_string] in *.
  destruct (bool_decide (a = quote)); [done|]. destruct (bool_decide (Utf8.byte a < 32)); [done|].
  cbn [orb] in Hu. destruct (bool_decide (a = backslash)) eqn:Eb.
  2: { rewrite IH by (done || lia). done. }
  destruct u as [|e u]; [done|]. rewrite !app_cons. cbn in Hn. destruct (bool_decide (e = "u"%char)).
  - destruct u as [|h1 [|h2 [|h3 [|h4 u]]]]; try done.
    rewrite !app_cons. cbn in Hn. destruct (is_hex h1 && is_hex h2 && is_hex h3 && is_hex h4); [|done].
    rewrite IH by (done || lia). done.
  - apply andb_true_iff in Hu as [-> Hu]. rewrite IH by (done || lia). done.
Qed.

Lemma plain_app u v : plain_text u = true → plain_text v = true → plain_text (u +:+ v) = true.
Proof.
  intros Hu Hv. remember (String.length u) as n eqn:En.
  assert (String.length u ≤ n)%nat as Hn by lia. clear En. revert u Hu Hn.
  induction n as [|n IH]; intros [|a u] Hu Hn; try done; [cbn in Hn; lia|].
  cbn in Hn. rewrite !app_cons. cbn [plain_text] in *.
  destruct (_ || _); [done|]. destruct (bool_decide (a = backslash)); [|apply IH; [done|lia]].
  destruct u as [|e u]; [done|]. rewrite !app_cons. cbn in Hn. destruct (bool_decide (e = "u"%char)).
  - destruct u as [|h1 [|h2 [|h3 [|h4 u]]]]; try done. rewrite !app_cons. cbn in Hn.
    apply andb_true_iff in Hu as [-> Hu]. apply IH; [done|lia].
  - apply andb_true_iff in Hu as [-> Hu]. apply IH; [done|lia].
Qed.

Lemma high_plain z : 128 ≤ z < 256 → plain_text (String (Utf8.chr z) EmptyString) = true.
Proof.
  intros Hz. cbn [plain_text]. rewrite byte_chr by lia.
  rewrite !bool_decide_false; [done| |lia|]; intros E; apply (f_equal Utf8.byte) in E; rewrite byte_chr in E by lia;
    vm_compute in E; subst; lia.
Qed.
Lemma encode_plain r : 128 ≤ r → plain_text (Utf8.encode r) = true.
Proof.
  intros Hr. unfold Utf8.encode. set (r' := if _ || _ then Utf8.rune_error else r).
  assert (128 ≤ r' ≤ 1114111) as Hr'.
  { unfold r', Utf8.rune_error. destruct (_ || _) eqn:E; [lia|].
    apply orb_false_iff in E as [[_ E]%orb_false_iff _]. apply bool_decide_eq_false in E. lia. }
  assert (∀ (x z : Z) (s : string), 128 ≤ x + z < 256 → plain_text s = true → plain_text (String (Utf8.chr (x + z)) s) = true) as Hcons.
  { intros x z s Hz Hs. apply (plain_app (String _ EmptyString)); [by apply high_plain|done]. }
  pose proof (Z.mod_pos_bound r' 64). pose proof (Z.mod_pos_bound (r' / 64) 64).
  pose proof (Z.mod_pos_bound (r' / 4096) 64).
  rewrite (bool_decide_false (r' < 128)) by lia. clearbody r'.
  repeat case_bool_decide; repeat (apply Hcons; [first [lia|split; Z.div_mod_to_equations; lia]|]); done.
Qed.

Lemma escape_byte_plain a : Utf8.byte a < 128 → plain_text (escape_byte a) = true.
Proof.
  intros Ha. assert (forallb (λ n, plain_text (escape_byte (ascii_of_nat n))) (seq 0 128) = true) as H by by vm_compute.
  rewrite forallb_forall in H. rewrite <-(ascii_nat_embedding a). apply H, in_seq.
  unfold Utf8.byte in Ha. unfold nat_of_ascii. lia.
Qed.

Lemma decode_high a s r rest : 128 ≤ Utf8.byte a → Utf8.decode a s = (r, rest) → 128 ≤ r.
Proof.
  intros Ha. unfold Utf8.decode, Utf8.is_cont, Utf8.rune_error. rewrite (bool_decide_false (Utf8.byte a < 128)) by lia.
  intros E. repeat (split_match; simplify_eq; try lia);
    repeat match goal with
    | H : _ && _ = true |- _ => apply andb_true_iff in H as []
    | H : bool_decide _ = true |- _ => apply bool_decide_eq_true in H
    end; lia.
Qed.

Lemma escape_plain n s : plain_text (escape_fuel n s) = true.
Proof.
  revert s. induction n as [|n IH]; intros [|a s]; try done. cbn [escape_fuel].
  case_bool_decide as Ha; [by apply plain_app; [apply escape_byte_plain|]|].
  destruct (Utf8.decode a s) as [r rest] eqn:Ed. apply plain_app; [|done].
  apply decode_high in Ed; [|lia].
  destruct (_ || _) eqn:E; [|destruct (_ && _); [done|by apply encode_plain]].
  apply orb_true_iff in E as [E|E]; apply bool_decide_eq_true in E as ->; by vm_compute.
Qed.

Lemma parse_encode_string s : parse (encode_string s) = Ok (JStr (escape_fuel (String.length s) s)).
Proof.
  unfold parse, encode_string. set (e := escape_fuel _ s). rewrite app_cons.
  change (skip_ws (String quote (e +:+ String quote EmptyString))) with (String quote (e +:+ String quote EmptyString)).
  cbn [String.length]. set (n := String.length _).
  replace (2 * S n + 2)%nat with (S (2 * n + 3)) by lia. cbn [value].
  rewrite bool_decide_true by done.
  rewrite (scan_plain e (String quote EmptyString) EmptyString EmptyString) by (done || apply escape_plain).
  cbn. by rewrite app_nil_str.
Qed.
