(* ===== verification/Wire.v ===== *)
(** * [internal/matrixstate]: what a stored event looks like on the wire

    The rendering of one event (event.go, state.go): the allowlist of
    [unsigned], [age_ts] and [age], redaction, and the depth filter.  Reading and
    splicing raw JSON ([gjson], [sjson]) and mautrix's redaction are [External];
    [encoding/json] is [Json]. *)
From Stdlib Require Import DecimalString DecimalZ DecimalPos.
From S2P Require Import Prelude Json JsonStream Store External Events Pducmp.

Open Scope Z_scope.

(** ** Fields of an event *)
Definition senderOf (body : string) : option string := Struct.get_string "sender" body.
Definition historyVisibilityOf (body : string) : string :=
  default EmptyString (Struct.get_nested_string "content" "history_visibility" body).
Definition membershipOf (body : string) : string :=
  default EmptyString (Struct.get_nested_string "content" "membership" body).
Definition replacesState (eventJSON : string) : string :=
  default EmptyString (Struct.get_nested_string "unsigned" "replaces_state" eventJSON).

(** ** Integers in JSON *)

(** [strconv.ParseInt(s, 10, 64)] *)
Definition parse_digits (s : string) : option Z :=
  match s with
  | EmptyString => None
  | _ => (fix go (acc : Z) (s : string) : option Z :=
            match s with
            | EmptyString => Some acc
            | String a s => if is_digit a then go (acc * 10 + (Utf8.byte a - 48)) s else None
            end) 0 s
  end.
Definition ParseInt (s : string) : option Z :=
  n ← (match s with
       | String "-" s => Z.opp <$> parse_digits s
       | String "+" s => parse_digits s
       | _ => parse_digits s
       end);
  if bool_decide (- 2 ^ 63 ≤ n ≤ max_int64) then Some n else None.

(** [json.Marshal] of an [int64]. *)
Definition print_int (z : Z) : string := NilEmpty.string_of_int (Z.to_int z).

(** [json.Unmarshal(raw, &n)] into a zero [n]: [null] leaves it. *)
Definition decode_int (raw : string) : option Z :=
  match parse raw with
  | Ok JNull => Some 0
  | Ok (JNum tok) => ParseInt tok
  | _ => None
  end.

(** ** [json.Marshal] of a [map[string]json.RawMessage]

    Keys in order; each value compacted, with HTML escaping. *)
Fixpoint compact (inside : bool) (s : string) : string :=
  match s with
  | String "226" (String "128" (String "168" s)) => "\u2028" +:+ compact inside s
  | String "226" (String "128" (String "169" s)) => "\u2029" +:+ compact inside s
  | String "\" (String c s) => String "\" (String c (compact inside s))
  | String a s =>
      if bool_decide (a = quote) then String a (compact (negb inside) s)
      else if bool_decide (a ∈ ["<"; ">"; "&"]%char) then u_escape (Utf8.byte a) +:+ compact inside s
      else if negb inside && is_ws a then compact inside s
      else String a (compact inside s)
  | EmptyString => EmptyString
  end.

Definition key_le (a b : string * string) : Prop := str_le a.1 b.1.
#[export] Instance key_le_dec : RelDecision key_le.
Proof. intros a b. unfold key_le. apply _. Defined.

Fixpoint print_raw (ms : list (string * string)) : string :=
  match ms with
  | [] => EmptyString
  | [(k, v)] => encode_string k +:+ ":" +:+ compact false v
  | (k, v) :: ms => encode_string k +:+ ":" +:+ compact false v +:+ "," +:+ print_raw ms
  end.
Definition marshal_raw_map (m : gmap string string) : string :=
  "{" +:+ print_raw (merge_sort key_le (map_to_list m)) +:+ "}".

(** The fields of [fields] that [m] has. *)
Definition pick_fields (fields : list string) (m : gmap string string) : gmap string string :=
  filter (λ kv, kv.1 ∈ fields) m.

Definition persistedUnsignedFields : list string :=
  ["age_ts"; "replaces_state"; "invite_room_state"; "knock_room_state"; "prev_content"; "prev_sender"]%string.
Definition prunedUnsignedFields : list string := ["age_ts"; "replaces_state"]%string.

Section wire.
Context `{!External}.

(** The [unsigned] that is served; without a clock [age_ts] stays. *)
Definition served_unsigned (nowMS : option Z) (stored : gmap string string) : gmap string string :=
  let unsigned := pick_fields persistedUnsignedFields stored in
  match nowMS, unsigned !! "age_ts"%string ≫= decode_int with
  | Some now, Some ageTS => <["age" := print_int (i64 (now - ageTS))]> (delete "age_ts"%string unsigned)
  | _, _ => unsigned
  end.

(** [None] is an error. *)
Definition applyPDUJSONRulesAt (body : string) (nowMS : option Z) : option string :=
  stored ← Struct.get_raw_map "unsigned" body;
  sjson_set_raw body "unsigned" (marshal_raw_map (served_unsigned nowMS stored)).
Definition applyPDUJSONRules (body : string) (nowMS : Z) : option string :=
  applyPDUJSONRulesAt body (Some nowMS).

(** ** Redaction *)
Definition usesV1EventFormat (roomVersion : string) : bool :=
  bool_decide (roomVersion ∈ [RoomV0; RoomV1; RoomV2]).

(** [strings.TrimRight(s, "=")] *)
Fixpoint trim_padding (s : string) : string :=
  match s with
  | EmptyString => EmptyString
  | String a s =>
      match trim_padding s with
      | EmptyString => if bool_decide (a = "="%char) then EmptyString else String a EmptyString
      | t => String a t
      end
  end.

(** The event to parse, and the stored hashes if they had to change. *)
Definition unpadEventHash (body : string) : string * option string :=
  match gjson_get body "hashes", gjson_get body "hashes.sha256" with
  | Some (_, raw), Some (sha, _) =>
      if has_suffix sha "=" then
        match sjson_set_str body "hashes.sha256" (trim_padding sha) with
        | Some fixed => (fixed, Some raw)
        | None => (body, None)
        end
      else (body, None)
  | _, _ => (body, None)
  end.

Definition restorePrunedUnsigned (original redacted : string) : option string :=
  stored ← Struct.get_raw_map "unsigned" original;
  sjson_set_raw redacted "unsigned" (marshal_raw_map (pick_fields prunedUnsignedFields stored)).

Definition redactEvent (ev : Event) : option string :=
  let roomVersion := if bool_decide (RoomVersion ev = EmptyString) then RoomV1 else RoomVersion ev in
  let '(source, padded) := unpadEventHash (JSON ev) in
  redacted ← pdu_redact (usesV1EventFormat roomVersion) roomVersion source;
  redacted ← (match padded with
              | Some hashes => sjson_set_raw redacted "hashes" hashes
              | None => Some redacted
              end);
  restorePrunedUnsigned (JSON ev) redacted.

(** What [/state] serves for an event. *)
Definition serialisePDU (ev : Event) : result error string :=
  match (if IsRedacted ev then redactEvent ev else Some (JSON ev)) with
  | None => Err (ErrText ("redact " +:+ EventID ev))
  | Some body =>
      match applyPDUJSONRulesAt body None with
      | None => Err (ErrText ("prepare pdu " +:+ EventID ev))
      | Some out => Ok out
      end
  end.

(** ** Filters on what is served *)
Definition canonicalJSONMinInt : Z := - 2 ^ 53 + 1.
Definition canonicalJSONMaxInt : Z := 2 ^ 53 - 1.

Definition depthInCanonicalRange (body : string) : bool :=
  match Struct.get_raw "depth" body with
  | None | Some EmptyString => true
  | Some (String a _ as depth) =>
      if bool_decide (a = quote) then true
      else match ParseInt depth with
           | None => false
           | Some n => bool_decide (canonicalJSONMinInt ≤ n) && bool_decide (n ≤ canonicalJSONMaxInt)
           end
  end.

Definition emitsCachePollution (body : string) : bool :=
  match Struct.get_raw_map "unsigned" body with
  | None => false
  | Some unsigned => existsb (λ f, bool_decide (is_Some (unsigned !! f))) ["prev_content"; "prev_sender"]%string
  end.
End wire.

(** ** Integers round trip *)
Section integers.
Import Decimal.

Fixpoint digits_value (acc : Z) (u : uint) : Z :=
  match u with
  | Nil => acc
  | D0 u => digits_value (acc * 10) u | D1 u => digits_value (acc * 10 + 1) u
  | D2 u => digits_value (acc * 10 + 2) u | D3 u => digits_value (acc * 10 + 3) u
  | D4 u => digits_value (acc * 10 + 4) u | D5 u => digits_value (acc * 10 + 5) u
  | D6 u => digits_value (acc * 10 + 6) u | D7 u => digits_value (acc * 10 + 7) u
  | D8 u => digits_value (acc * 10 + 8) u | D9 u => digits_value (acc * 10 + 9) u
  end.

Lemma parse_digits_acc u acc :
  (fix go (acc : Z) (s : string) : option Z :=
     match s with
     | EmptyString => Some acc
     | String a s => if is_digit a then go (acc * 10 + (Utf8.byte a - 48)) s else None
     end) acc (NilEmpty.string_of_uint u) = Some (digits_value acc u).
Proof.
  revert acc. induction u; intros acc; [done|..];
    cbn [NilEmpty.string_of_uint digits_value];
    match goal with |- context [is_digit ?a] => change (is_digit a) with true end; cbn beta iota;
    rewrite IHu; apply (f_equal (λ z, Some (digits_value z u)));
    match goal with |- context [Utf8.byte ?a] => let v := eval vm_compute in (Utf8.byte a) in change (Utf8.byte a) with v end; lia.
Qed.

Lemma digits_value_pos u p : digits_value (Z.pos p) u = Z.pos (Pos.of_uint_acc u p).
Proof.
  revert p. induction u; intros p; [done|..]; cbn [digits_value Pos.of_uint_acc]; rewrite <-IHu; apply (f_equal (λ z, digits_value z u)); lia.
Qed.

Lemma digits_value_uint u : digits_value 0 u = Z.of_uint u.
Proof.
  unfold Z.of_uint. induction u; [done|..]; cbn [digits_value Pos.of_uint Z.of_N]; [exact IHu|..];
    by rewrite <-digits_value_pos.
Qed.

Lemma parse_digits_uint u : u ≠ Nil → parse_digits (NilEmpty.string_of_uint u) = Some (Z.of_uint u).
Proof.
  intros Hu. rewrite <-digits_value_uint, <-parse_digits_acc. by destruct u.
Qed.

Lemma print_int_parse n : - 2 ^ 63 ≤ n ≤ max_int64 → ParseInt (print_int n) = Some n.
Proof.
  intros Hn. unfold ParseInt, print_int.
  assert (Z.of_int (Z.to_int n) = n) as Hz by apply DecimalZ.of_to.
  destruct (Z.to_int n) as [u|u] eqn:E; cbn [Z.of_int NilEmpty.string_of_int] in *.
  - assert (u ≠ Nil) as Hu by (destruct n as [|p|p]; simplify_eq/=; [done|by apply DecimalPos.Unsigned.to_uint_nonnil]).
    assert (∀ s, parse_digits s = Some n → (n ← match s with
       | String "-" s => Z.opp <$> parse_digits s
       | String "+" s => parse_digits s
       | _ => parse_digits s end; if bool_decide (- 2 ^ 63 ≤ n ≤ max_int64) then Some n else None) = Some n) as Hs.
    { intros s Hp. assert (match s with
       | String "-" s => Z.opp <$> parse_digits s
       | String "+" s => parse_digits s
       | _ => parse_digits s end = Some n) as ->; [|simpl; by rewrite bool_decide_true].
      destruct s as [|a s]; [done|]. destruct a as [[] [] [] [] [] [] [] []]; try done. }
    apply Hs. rewrite parse_digits_uint by done. by rewrite Hz.
  - assert (u ≠ Nil) as Hu by (destruct n as [|p|p]; simplify_eq/=; by apply DecimalPos.Unsigned.to_uint_nonnil).
    rewrite parse_digits_uint by done. simpl. rewrite Hz. by rewrite bool_decide_true.
Qed.
End integers.

(** ** The properties of the rendering *)
Lemma to_int_digits n u : (Z.to_int n = Decimal.Pos u ∨ Z.to_int n = Decimal.Neg u) → u ≠ Decimal.Nil.
Proof.
  destruct n as [|p|p]; intros [E|E]; simplify_eq/=; [done|by apply DecimalPos.Unsigned.to_uint_nonnil..].
Qed.

Lemma print_int_ends n : print_int n ≠ EmptyString ∧ ∀ s, print_int n ≠ String quote s.
Proof.
  unfold print_int. pose proof (to_int_digits n) as Hu. destruct (Z.to_int n) as [u|u]; [|by split].
  specialize (Hu u (or_introl eq_refl)). by destruct u.
Qed.

(** The text of a number outside [int64] does not parse. *)
Lemma print_int_range n v : ParseInt (print_int n) = Some v → v = n.
Proof.
  unfold ParseInt, print_int. assert (Z.of_int (Z.to_int n) = n) as Hz by apply DecimalZ.of_to.
  pose proof (to_int_digits n) as Hu.
  destruct (Z.to_int n) as [u|u]; cbn [Z.of_int NilEmpty.string_of_int] in *; intros Hp;
    apply bind_Some in Hp as (x & Hx & Hc); case_bool_decide; [|done| |done]; injection Hc as ->;
    specialize (Hu u); rewrite <-Hz.
  - assert (parse_digits (NilEmpty.string_of_uint u) = Some v) as Hd.
    { specialize (Hu (or_introl eq_refl)).
      destruct (NilEmpty.string_of_uint u) as [|[[] [] [] [] [] [] [] []] s] eqn:Es; try done; by destruct u. }
    rewrite parse_digits_uint in Hd by auto. by simplify_eq.
  - rewrite parse_digits_uint in Hx by auto. by simplify_eq/=.
Qed.

Section rendering.
Context `{!External}.

(** The depth filter: with the integer [n] as its depth an event passes
    exactly if [n] is within plus or minus [2^53 - 1], integers outside [int64]
    included; without a depth, or with a string, it passes; a depth that is no
    integer (a fraction, null, an object) never does. *)
Theorem depth_filter_exact body depth :
  Struct.get_raw "depth" body = Some depth →
  (∀ n, depth = print_int n → depthInCanonicalRange body = bool_decide (Z.abs n ≤ 2 ^ 53 - 1)) ∧
  (depth = EmptyString ∨ head_byte depth = Some quote → depthInCanonicalRange body = true) ∧
  (depth ≠ EmptyString → head_byte depth ≠ Some quote → ParseInt depth = None → depthInCanonicalRange body = false).
Proof.
  intros Hd. unfold depthInCanonicalRange. rewrite Hd. split_and!.
  - intros n ->. destruct (print_int_ends n) as [Hne Hq]. destruct (print_int n) as [|a s] eqn:E; [done|].
    rewrite bool_decide_false by (intros ->; by eapply Hq). rewrite <-E.
    destruct (ParseInt (print_int n)) as [v|] eqn:Ep.
    + apply print_int_range in Ep as ->. unfold canonicalJSONMinInt, canonicalJSONMaxInt.
      rewrite <-bool_decide_and. apply bool_decide_ext. lia.
    + rewrite bool_decide_false; [done|]. intros Hn. rewrite print_int_parse in Ep; [done|]. unfold max_int64. lia.
  - intros [->|Hq]; [done|]. destruct depth as [|a s]; [done|]. simpl in Hq. simplify_eq.
    by rewrite bool_decide_true.
  - intros Hne Hq Hp. destruct depth as [|a s]; [done|]. simpl in Hq. rewrite bool_decide_false by congruence.
    by rewrite Hp.
Qed.

(** What [unsigned] holds on the wire: only the six fields Synapse emits,
    each as stored, and never the [age] that was stored.  With a clock a readable
    [age_ts] is served as the [age] it gives, modulo [2^64]; without one, or if it
    does not read as an integer, it stays. *)
Theorem unsigned_allowlist body stored now :
  Struct.get_raw_map "unsigned" body = Some stored →
  ∃ m, applyPDUJSONRulesAt body now = sjson_set_raw body "unsigned" (marshal_raw_map m) ∧
    (∀ k, k ∉ persistedUnsignedFields → k ≠ "age"%string → m !! k = None) ∧
    (∀ k, k ∈ persistedUnsignedFields → k ≠ "age_ts"%string → m !! k = stored !! k) ∧
    match now, stored !! "age_ts"%string ≫= decode_int with
    | Some t, Some ts => m !! "age_ts"%string = None ∧ m !! "age"%string = Some (print_int (i64 (t - ts)))
    | _, _ => m !! "age_ts"%string = stored !! "age_ts"%string ∧ m !! "age"%string = None
    end.
Proof.
  intros Hs. exists (served_unsigned now stored). unfold applyPDUJSONRulesAt. rewrite Hs. split; [done|].
  set (u := pick_fields persistedUnsignedFields stored).
  assert (∀ k, u !! k = if decide (k ∈ persistedUnsignedFields) then stored !! k else None) as Hu.
  { intros k. unfold u, pick_fields. destruct (stored !! k) as [v|] eqn:E.
    - case_decide; [by apply map_lookup_filter_Some|]. apply map_lookup_filter_None. right. simpl. naive_solver.
    - rewrite (proj2 (map_lookup_filter_None _ _ _)) by auto. by case_decide. }
  assert (u !! "age_ts"%string = stored !! "age_ts"%string) as Hts by by rewrite Hu.
  assert (u !! "age"%string = None) as Hage by by rewrite Hu.
  unfold served_unsigned. fold u. rewrite Hts. destruct now as [t|]; [|split_and!; try done].
  - destruct (stored !! "age_ts"%string ≫= decode_int) as [ts|]; split_and!; try done.
    + intros k Hk Ha. rewrite lookup_insert_ne, lookup_delete_None by done. right. by rewrite Hu, decide_False.
    + intros k Hk Ha. rewrite lookup_insert_ne by (intros <-; revert Hk; apply (bool_decide_unpack _); vm_compute; exact I).
      rewrite lookup_delete_ne by done. by rewrite Hu, decide_True.
    + by rewrite lookup_insert_ne, lookup_delete_eq.
    + apply lookup_insert_eq.
    + intros k Hk Ha. by rewrite Hu, decide_False.
    + intros k Hk Ha. by rewrite Hu, decide_True.
  - intros k Hk Ha. by rewrite Hu, decide_False.
  - intros k Hk Ha. by rewrite Hu, decide_True.
Qed.
End rendering.

Lemma depth_filter_exact_witness :
  depthInCanonicalRange (js "{'depth':9007199254740992}") = false ∧
  depthInCanonicalRange (js "{'depth':null}") = false ∧
  depthInCanonicalRange (js "{'depth':'12'}") = true.
Proof.
  split_and!.
  - destruct (depth_filter_exact (js "{'depth':9007199254740992}") "9007199254740992") as (H & _ & _); [by vm_compute|].
    rewrite (H 9007199254740992); by vm_compute.
  - destruct (depth_filter_exact (js "{'depth':null}") "null") as (_ & _ & H); [by vm_compute|].
    apply H; by vm_compute.
  - destruct (depth_filter_exact (js "{'depth':'12'}") (js "'12'")) as (_ & H & _); [by vm_compute|].
    apply H. by right.
Defined.

Lemma unsigned_allowlist_witness :
  ∃ m, applyPDUJSONRulesAt (H := Sample.ext) (js "{'unsigned':{'age':9,'age_ts':100,'x':1}}") (Some 150)
       = sjson_set_raw (External := Sample.ext) (js "{'unsigned':{'age':9,'age_ts':100,'x':1}}") "unsigned" (marshal_raw_map m) ∧
    m !! "age"%string = Some "50"%string ∧ m !! "x"%string = None.
Proof.
  destruct (unsigned_allowlist (H := Sample.ext) (js "{'unsigned':{'age':9,'age_ts':100,'x':1}}")
    (<["age" := "9"]> (<["age_ts" := "100"]> (<["x" := "1"]> ∅)))%string (Some 150)) as (m & Hm & Hno & _ & Hts).
  - apply (bool_decide_unpack _). vm_compute. exact I.
  - exists m. split; [done|]. destruct Hts as [_ Ha]. split; [done|]. apply Hno; [|done].
    apply (bool_decide_unpack _). vm_compute. exact I.
Defined.
