(* ===== verification/Printed.v ===== *)
(** * JSON that is printed is read back

    What [json.Marshal] writes of lists and objects, and the lemmas that say how the
    parser reads it: a text [prints] a value if it is read as that value wherever it
    stands.  The readers of printed text ([Native], [Compare], [DiffLog], [Sweep])
    share them. *)
From Stdlib Require Import DecimalString DecimalZ DecimalPos DecimalFacts.
From S2P Require Import Prelude Json JsonStream Pducmp Wire.

Open Scope list_scope.
Open Scope Z_scope.

(** ** Printing *)
Fixpoint print_list (l : list string) : string :=
  match l with
  | [] => EmptyString
  | [x] => x
  | x :: l => x +:+ "," +:+ print_list l
  end.
Definition print_array (l : list string) : string := "[" +:+ print_list l +:+ "]".
Fixpoint print_members (ms : list (string * string)) : string :=
  match ms with
  | [] => EmptyString
  | [(k, v)] => encode_string k +:+ ":" +:+ v
  | (k, v) :: ms => encode_string k +:+ ":" +:+ v +:+ "," +:+ print_members ms
  end.
Definition print_object (ms : list (string * string)) : string := "{" +:+ print_members ms +:+ "}".

(** ** Reading what was printed *)

(** What may follow a value. *)
Definition follows (rest : string) : Prop :=
  match rest with EmptyString => True | String a _ => a ∈ [","; "]"; "}"]%char end.

(** [t] is read as [v], at any depth that leaves room for [k] more levels. *)
Record prints (k : Z) (t : string) (v : json) : Prop := {
  pr_nonempty : t ≠ EmptyString;
  pr_start : ∀ rest, skip_ws (t +:+ rest) = t +:+ rest;
  pr_value : ∀ d rest, 0 ≤ d → d + k ≤ max_depth → follows rest → ∃ fuel, value fuel d (t +:+ rest) = Ok (v, rest) }.

Definition escaped (s : string) : string := escape_fuel (String.length s) s.

Lemma prints_weaken k k' t v : prints k t v → k ≤ k' → prints k' t v.
Proof. intros [H1 H2 H3] Hk. split; [done..|]. intros d rest Hd Hm. apply H3; lia. Qed.

Lemma encode_scan s rest : ∃ t, encode_string s +:+ rest = String quote t ∧ scan_string t = Some (escaped s, rest).
Proof.
  unfold encode_string. exists ((escaped s +:+ String quote EmptyString) +:+ rest). split; [done|].
  rewrite <-app_assoc_str. change (String quote EmptyString +:+ rest) with (String quote rest).
  rewrite (scan_plain (escaped s) (String quote rest) EmptyString rest) by (done || apply escape_plain).
  by rewrite app_nil_str.
Qed.

Lemma prints_string s : prints 0 (encode_string s) (JStr (escaped s)).
Proof.
  split; [done|done|]. intros d rest _ _ _. exists 1%nat.
  destruct (encode_scan s rest) as (t & -> & Hs). cbn [value]. rewrite bool_decide_true by done. by rewrite Hs.
Qed.

Lemma prints_null : prints 0 "null" JNull.
Proof. split; [done|done|]. intros d rest _ _ _. exists 1%nat. destruct rest; done. Qed.
Lemma prints_true : prints 0 "true" (JBool true).
Proof. split; [done|done|]. intros d rest _ _ _. exists 1%nat. destruct rest; done. Qed.

(** *** Lists *)
Lemma elements_printed k ts vs d rest : Forall2 (prints k) ts vs → ts ≠ [] → 0 ≤ d → d + k ≤ max_depth →
  ∃ fuel, elements fuel d (print_list ts +:+ String "]" rest) = Ok (zip vs ts, rest).
Proof.
  intros Hall Hne Hd Hk. induction Hall as [|t v ts vs Ht Hall IH]; [done|]. destruct Ht as [_ _ Hv].
  destruct ts as [|t' ts].
  - apply Forall2_nil_inv_l in Hall as ->. cbn [print_list].
    destruct (Hv d (String "]" rest) Hd Hk) as [f Hf]; [by right; left|]. exists (S f).
    cbn [elements]. rewrite Hf. cbn [mbind result_bind]. cbn. by rewrite consumed_exact.
  - destruct IH as [f2 Hf2]; [done|].
    assert (print_list (t :: t' :: ts) +:+ String "]" rest = t +:+ String "," (print_list (t' :: ts) +:+ String "]" rest)) as E
      by (cbn [print_list]; by rewrite <-!app_assoc_str).
    rewrite E. destruct (Hv d (String "," (print_list (t' :: ts) +:+ String "]" rest)) Hd Hk) as [f1 Hf1]; [by left|].
    assert (skip_ws (print_list (t' :: ts) +:+ String "]" rest) = print_list (t' :: ts) +:+ String "]" rest) as Hws.
    { apply Forall2_cons_inv_l in Hall as (v' & ? & [_ Hs _] & _ & _). destruct ts; cbn [print_list]; rewrite <-?app_assoc_str; apply Hs. }
    exists (S (f1 `max` f2)). cbn [elements]. destruct (value_mono f1) as (Hm1 & _ & _). destruct (value_mono f2) as (_ & Hm2 & _).
    rewrite (Hm1 _ _ (f1 `max` f2)%nat), Hf1; [|by rewrite Hf1|lia]. cbn [mbind result_bind]. rewrite consumed_exact.
    cbn [skip_ws]. change (is_ws ",") with false. cbn iota. rewrite Hws. rewrite (Hm2 _ _ (f1 `max` f2)%nat), Hf2; [done|by rewrite Hf2|lia].
Qed.

Lemma array_value fuel d s x rest : elements fuel (d + 1) s = Ok (x, rest) → d + 1 ≤ max_depth → skip_ws s = s →
  head_byte s ≠ Some "]"%char → value (S fuel) d (String "[" s) = Ok (JArr x, rest).
Proof.
  intros He Hd Hs Hh. cbn [value]. rewrite !bool_decide_false, bool_decide_true by done.
  rewrite bool_decide_false by lia. rewrite Hs. destruct s as [|b s]; [by apply elements_nonempty in He|].
  rewrite array_eq; [by rewrite He|]. intros ->. by apply Hh.
Qed.
Lemma object_value fuel d s x rest : members fuel (d + 1) s = Ok (x, rest) → d + 1 ≤ max_depth → skip_ws s = s →
  head_byte s ≠ Some "}"%char → value (S fuel) d (String "{" s) = Ok (JObj x, rest).
Proof.
  intros He Hd Hs Hh. cbn [value]. rewrite bool_decide_false, bool_decide_true by done.
  rewrite bool_decide_false by lia. rewrite Hs. destruct s as [|b s]; [by apply members_nonempty in He|].
  rewrite object_eq; [by rewrite He|]. intros ->. by apply Hh.
Qed.

(** A printed value starts with no closing bracket. *)
Lemma prints_head k t v rest : prints k t v → k ≤ max_depth →
  head_byte (t +:+ rest) ≠ Some "]"%char ∧ head_byte (t +:+ rest) ≠ Some "}"%char.
Proof.
  intros [Hne _ Hv] Hk. destruct (Hv 0 EmptyString) as [fuel Hf]; [lia|lia|done|].
  rewrite app_nil_str in Hf. destruct t as [|a t]; [done|].
  destruct fuel as [|fuel]; [done|]. split; cbn; intros [= ->]; cbn [value] in Hf; vm_compute in Hf; discriminate Hf.
Qed.

Lemma prints_array k ts vs : Forall2 (prints k) ts vs → 0 ≤ k < max_depth → prints (k + 1) (print_array ts) (JArr (zip vs ts)).
Proof.
  intros Hall Hk. split; [done|done|]. intros d rest Hd Hdk _. unfold print_array.
  assert (("[" +:+ print_list ts +:+ "]") +:+ rest = String "[" (print_list ts +:+ String "]" rest)) as ->
    by (by rewrite <-!app_assoc_str).
  destruct Hall as [|t v ts vs Ht Hall].
  - exists 1%nat. cbn [print_list zip_with value]. rewrite !bool_decide_false, bool_decide_true by done.
    rewrite bool_decide_false by lia. done.
  - destruct (elements_printed k (t :: ts) (v :: vs) (d + 1) rest) as [fuel Hf]; [by constructor|done|lia|lia|].
    exists (S fuel). apply array_value; [done|lia| |].
    + destruct ts; cbn [print_list]; rewrite <-?app_assoc_str; apply Ht.
    + destruct ts; cbn [print_list]; rewrite <-?app_assoc_str; eapply prints_head; (exact Ht || lia).
Qed.

(** *** Objects *)
Lemma members_printed k ms vs d rest : Forall2 (λ m v, prints k m.2 v) ms vs → ms ≠ [] → 0 ≤ d → d + k ≤ max_depth →
  ∃ fuel, members fuel d (print_members ms +:+ String "}" rest) = Ok (zip_with (λ m v, (escaped m.1, (v, m.2))) ms vs, rest).
Proof.
  intros Hall Hne Hd Hk. induction Hall as [|[key t] v ms vs Ht Hall IH]; [done|]. cbn [snd] in Ht. destruct Ht as [_ Hst Hv].
  assert (∀ f y z, value f d (t +:+ y) = Ok (v, y) →
    members (S f) d (encode_string key +:+ (":" +:+ (t +:+ y))) =
    match skip_ws y with
    | String "," rest => '(ms, rest) ← members f d (skip_ws rest); Ok ((escaped key, (v, t)) :: ms, rest)
    | String "}" rest => Ok ([(escaped key, (v, t))], rest)
    | _ => Err Syntax
    end ∨ z) as Hone.
  { intros f y z Hf. left. destruct (encode_scan key (":" +:+ (t +:+ y))) as (u & -> & Hu). cbn [members].
    rewrite bool_decide_true, Hu by done. cbn [of_option mbind result_bind].
    change (skip_ws (":" +:+ (t +:+ y))) with (String ":" (t +:+ y)). cbn iota zeta. rewrite Hst, Hf. cbn [mbind result_bind].
    by rewrite consumed_exact. }
  destruct ms as [|[key' t'] ms].
  - apply Forall2_nil_inv_l in Hall as ->. cbn [print_members].
    destruct (Hv d (String "}" rest) Hd Hk) as [f Hf]; [by right; right; left|]. exists (S f).
    rewrite <-!app_assoc_str. destruct (Hone f (String "}" rest) False Hf) as [->|[]]. done.
  - destruct IH as [f2 Hf2]; [done|]. set (m2 := print_members ((key', t') :: ms)) in *.
    assert (print_members ((key, t) :: (key', t') :: ms) +:+ String "}" rest =
      encode_string key +:+ (":" +:+ (t +:+ String "," (m2 +:+ String "}" rest)))) as E
      by (cbn [print_members]; fold m2; by rewrite <-!app_assoc_str).
    rewrite E. destruct (Hv d (String "," (m2 +:+ String "}" rest)) Hd Hk) as [f1 Hf1]; [by left|].
    destruct (value_mono f1) as (Hm1 & _ & _). destruct (value_mono f2) as (_ & _ & Hm2).
    assert (value (f1 `max` f2) d (t +:+ String "," (m2 +:+ String "}" rest)) = Ok (v, String "," (m2 +:+ String "}" rest))) as Hf.
    { rewrite <-Hf1. apply Hm1; [by rewrite Hf1|lia]. }
    exists (S (f1 `max` f2)). destruct (Hone _ _ False Hf) as [->|[]]. cbn [skip_ws]. change (is_ws ",") with false. cbn iota.
    assert (skip_ws (m2 +:+ String "}" rest) = m2 +:+ String "}" rest) as -> by (unfold m2; by destruct ms).
    rewrite (Hm2 _ _ (f1 `max` f2)%nat), Hf2; [done|by rewrite Hf2|lia].
Qed.

Lemma prints_object k ms vs : Forall2 (λ m v, prints k m.2 v) ms vs → 0 ≤ k < max_depth →
  prints (k + 1) (print_object ms) (JObj (zip_with (λ m v, (escaped m.1, (v, m.2))) ms vs)).
Proof.
  intros Hall Hk. split; [done|done|]. intros d rest Hd Hdk _. unfold print_object.
  assert (("{" +:+ print_members ms +:+ "}") +:+ rest = String "{" (print_members ms +:+ String "}" rest)) as ->
    by (by rewrite <-!app_assoc_str).
  destruct Hall as [|[key t] v ms vs Ht Hall].
  - exists 1%nat. cbn [print_members zip_with value]. rewrite bool_decide_false, bool_decide_true by done.
    rewrite bool_decide_false by lia. done.
  - destruct (members_printed k ((key, t) :: ms) (v :: vs) (d + 1) rest) as [fuel Hf]; [by constructor|done|lia|lia|].
    exists (S fuel). apply object_value; [done|lia|by destruct ms|by destruct ms].
Qed.

(** *** A whole document *)
Lemma prints_parse k t v : prints k t v → k ≤ max_depth → parse t = Ok v.
Proof.
  intros [_ Hs Hv] Hk. specialize (Hs EmptyString). destruct (Hv 0 EmptyString) as [fuel Hf]; [lia|lia|done|].
  rewrite app_nil_str in Hs, Hf. unfold parse. rewrite Hs.
  rewrite (value_any_fuel fuel (2 * String.length t + 2) 0 t _ Hf) by lia. done.
Qed.

(** ** Integers *)
Lemma digits_uint d rest : (∀ a s, rest = String a s → is_digit a = false) →
  digits (NilEmpty.string_of_uint d +:+ rest) = (NilEmpty.string_of_uint d, rest).
Proof.
  intros Hr. assert (digits rest = (EmptyString, rest)) as H0.
  { destruct rest as [|a rest]; [done|]. cbn. by rewrite (Hr a rest). }
  induction d; cbn [NilEmpty.string_of_uint]; [done|..]; rewrite app_cons; cbn [digits]; by rewrite IHd.
Qed.

Lemma nzhead_head d : ∀ d', Decimal.nzhead d ≠ Decimal.D0 d'.
Proof. induction d; cbn; try done. Qed.
Lemma to_uint_head p d : Pos.to_uint p ≠ Decimal.D0 d.
Proof.
  pose proof (Unsigned.to_of (Pos.to_uint p)) as E. rewrite Unsigned.of_to in E. cbn [N.to_uint] in E.
  intros Hd. pose proof (Unsigned.to_uint_nonzero p) as Hz. rewrite Hd in E, Hz.
  unfold Decimal.unorm in E. destruct (Decimal.nzhead (Decimal.D0 d)) eqn:En; try done.
  by apply nzhead_head in En.
Qed.

Lemma follows_no_number rest : follows rest → (∀ a s, rest = String a s → is_digit a = false) ∧
  scan_frac rest = Some (EmptyString, rest) ∧ scan_exp rest = Some (EmptyString, rest).
Proof.
  destruct rest as [|a rest]; [done|]. cbn [follows]. rewrite !elem_of_cons, elem_of_nil.
  intros [->|[->|[->|[]]]]; (split; [by intros a s [= <- _]|done]).
Qed.

(** Printed digits are scanned as a whole. *)
Lemma scan_int_uint n rest : 0 ≤ n → follows rest →
  scan_int (NilEmpty.string_of_uint (N.to_uint (Z.to_N n)) +:+ rest) = Some (NilEmpty.string_of_uint (N.to_uint (Z.to_N n)), rest).
Proof.
  intros Hn Hr. apply follows_no_number in Hr as (Hr & _ & _). destruct n as [|p|p]; [done| |lia].
  cbn [Z.to_N N.to_uint]. pose proof (digits_uint (Pos.to_uint p) rest Hr) as Hd.
  pose proof (Unsigned.to_uint_nonnil p) as Hne. pose proof (to_uint_head p) as Hh.
  unfold scan_int. destruct (Pos.to_uint p) as [|u|u|u|u|u|u|u|u|u|u]; [done|by destruct (Hh u)|..];
    cbn [NilEmpty.string_of_uint] in *; rewrite app_cons in *; cbn iota; rewrite Hd; done.
Qed.

Lemma print_int_text n : ∃ u, print_int n = (if bool_decide (n < 0) then String "-" u else u) ∧
  u = NilEmpty.string_of_uint (N.to_uint (Z.to_N (Z.abs n))) ∧ u ≠ EmptyString ∧
  ∀ a s, u = String a s → is_digit a = true ∧ is_ws a = false.
Proof.
  eexists. split; [|split; [done|]].
  - destruct n as [|p|p]; [done|..]; [by rewrite bool_decide_false by lia|by rewrite bool_decide_true by lia].
  - assert (∀ d, d ≠ Decimal.Nil → NilEmpty.string_of_uint d ≠ EmptyString ∧
      ∀ a s, NilEmpty.string_of_uint d = String a s → is_digit a = true ∧ is_ws a = false) as Hd.
    { intros d Hd. destruct d; [done|..]; (split; [done|]); intros a s [= <- _]; done. }
    apply Hd. destruct n as [|p|p]; [done|..]; cbn; apply Unsigned.to_uint_nonnil.
Qed.

Lemma scan_number_int n rest : follows rest → scan_number (print_int n +:+ rest) = Some (print_int n, rest).
Proof.
  intros Hr. destruct (print_int_text n) as (u & -> & Hu & Hne & Hd).
  pose proof (scan_int_uint (Z.abs n) rest (Z.abs_nonneg n) Hr) as Hi. rewrite <-Hu in Hi.
  apply follows_no_number in Hr as (_ & Hf & He). unfold scan_number.
  case_bool_decide as Hneg.
  - rewrite app_cons. cbn iota. rewrite Hi. cbn [mbind option_bind]. rewrite Hf. cbn [mbind option_bind]. rewrite He.
    cbn [mbind option_bind]. do 2 f_equal. cbn. by rewrite !app_nil_str.
  - assert ((match u +:+ rest with String "-" r => ("-"%string, r) | _ => (EmptyString, u +:+ rest) end) = (EmptyString, u +:+ rest)) as ->.
    { destruct u as [|a u]; [done|]. destruct (Hd a u eq_refl) as [Ha _]. rewrite app_cons.
      destruct a as [[] [] [] [] [] [] [] []]; done. }
    rewrite Hi. cbn [mbind option_bind]. rewrite Hf. cbn [mbind option_bind]. rewrite He. cbn [mbind option_bind].
    do 2 f_equal. cbn. by rewrite !app_nil_str.
Qed.

Lemma prints_int n : prints 0 (print_int n) (JNum (print_int n)).
Proof.
  pose proof (print_int_text n) as (u & E & _ & Hne & Hd). split.
  - rewrite E. by case_bool_decide.
  - intros rest. rewrite E. case_bool_decide; [done|]. destruct u as [|a u]; [done|]. destruct (Hd a u eq_refl) as [_ Hw].
    rewrite app_cons. cbn [skip_ws]. by rewrite Hw.
  - intros d rest _ _ Hr. exists 1%nat. pose proof (scan_number_int n rest Hr) as Hs.
    assert (∃ a s, print_int n +:+ rest = String a s ∧ (is_digit a || bool_decide (a = "-"%char)) = true ∧
      a ≠ quote ∧ a ≠ "{"%char ∧ a ≠ "["%char) as (a & s & Es & Ha & H1 & H2 & H3).
    { rewrite E. case_bool_decide; [by eexists _, _|]. destruct u as [|a u]; [done|]. destruct (Hd a u eq_refl) as [Hw _].
      exists a, (u +:+ rest). rewrite Hw. split_and!; try done; by intros ->. }
    rewrite Es in *. cbn [value]. rewrite !bool_decide_false by done. rewrite Ha, Hs. done.
Qed.

(** ** Strings come back *)
Import Utf8.

(** [utf8.ValidString] *)
Fixpoint valid_fuel (fuel : nat) (s : string) : bool :=
  match fuel, s with
  | S fuel, String a s' =>
      if bool_decide (Utf8.byte a < 128) then valid_fuel fuel s'
      else let '(r, rest) := Utf8.decode a s' in
           negb (bool_decide (r = Utf8.rune_error) && bool_decide (rest = s')) && valid_fuel fuel rest
  | _, _ => true
  end.
Definition valid_utf8 (s : string) : bool := valid_fuel (String.length s) s.

Lemma unquote_byte a fuel t : Utf8.byte a < 128 →
  unquote_fuel (S fuel) (escape_byte a +:+ t) = String a (unquote_fuel fuel t).
Proof.
  intros Ha. destruct a as [[] [] [] [] [] [] [] []]; first [reflexivity|exfalso; vm_compute in Ha; discriminate Ha].
Qed.

Lemma chr_byte a : Utf8.chr (Utf8.byte a) = a.
Proof. unfold Utf8.chr, Utf8.byte. rewrite N2Z.id. apply ascii_N_embedding. Qed.
Lemma byte_range a : 0 ≤ Utf8.byte a < 256.
Proof. unfold Utf8.byte. pose proof (N_ascii_bounded a). lia. Qed.

#[local] Ltac run_bools :=
  repeat match goal with
         | H : _ && _ = true |- _ => apply andb_true_iff in H as [??]
         | H : bool_decide _ = true |- _ => apply bool_decide_eq_true in H
         | H : negb _ = true |- _ => apply negb_true_iff in H
         end.

Lemma is_cont_iff b : is_cont b = true ↔ 128 ≤ b ≤ 191.
Proof. unfold is_cont. rewrite andb_true_iff, !bool_decide_eq_true. lia. Qed.

Lemma encode_range r : 0 ≤ r ≤ 1114111 → (r < 55296 ∨ 57343 < r) → encode r =
  if bool_decide (r < 128) then String (chr r) EmptyString
  else if bool_decide (r < 2048) then String (chr (192 + r / 64)) (String (chr (128 + r mod 64)) EmptyString)
  else if bool_decide (r < 65536) then
    String (chr (224 + r / 4096)) (String (chr (128 + (r / 64) mod 64)) (String (chr (128 + r mod 64)) EmptyString))
  else
    String (chr (240 + r / 262144)) (String (chr (128 + (r / 4096) mod 64))
      (String (chr (128 + (r / 64) mod 64)) (String (chr (128 + r mod 64)) EmptyString))).
Proof.
  intros Hr Hs. unfold encode. rewrite (bool_decide_false (r < 0)), (bool_decide_false (1114111 < r)) by lia.
  cbn [orb]. destruct (bool_decide (55296 ≤ r) && bool_decide (r ≤ 57343)) eqn:E; [|done].
  apply andb_true_iff in E as [?%bool_decide_eq_true ?%bool_decide_eq_true]. lia.
Qed.

(** The digits of a number in base 64. *)
Lemma digit_0 x c : 0 ≤ c < 64 → (x * 64 + c) mod 64 = c.
Proof. intros Hc. rewrite Z.add_comm, Z.mod_add by lia. by apply Z.mod_small. Qed.
Lemma digit_up x c : 0 ≤ c < 64 → (x * 64 + c) / 64 = x.
Proof. intros Hc. rewrite Z.div_add_l by lia. rewrite (Z.div_small c) by lia. lia. Qed.
Lemma chr_eq a z : z = byte a → chr z = a.
Proof. intros ->. apply chr_byte. Qed.

Lemma encode_2 a c1 : 194 ≤ byte a ≤ 223 → 128 ≤ byte c1 ≤ 191 →
  encode ((byte a - 192) * 64 + (byte c1 - 128)) = String a (String c1 EmptyString).
Proof.
  intros Ha H1. rewrite encode_range by lia. rewrite bool_decide_false, bool_decide_true by lia.
  rewrite digit_0, digit_up by lia. f_equal; [|f_equal]; apply chr_eq; lia.
Qed.
Lemma encode_3 a c1 c2 r : 224 ≤ byte a ≤ 239 → 128 ≤ byte c1 ≤ 191 → 128 ≤ byte c2 ≤ 191 →
  r = (byte a - 224) * 4096 + (byte c1 - 128) * 64 + (byte c2 - 128) → 2048 ≤ r → (r < 55296 ∨ 57343 < r) →
  encode r = String a (String c1 (String c2 EmptyString)).
Proof.
  intros Ha H1 H2 Hr Hl Hs. rewrite encode_range by lia. rewrite !bool_decide_false, bool_decide_true by lia.
  assert (r = ((byte a - 224) * 64 + (byte c1 - 128)) * 64 + (byte c2 - 128)) as E by lia.
  change 4096 with (64 * 64). rewrite <-Z.div_div by lia. rewrite E, digit_0, !digit_up, digit_0 by lia.
  f_equal; [|f_equal; [|f_equal]]; apply chr_eq; lia.
Qed.
Lemma encode_4 a c1 c2 c3 r : 240 ≤ byte a ≤ 244 → 128 ≤ byte c1 ≤ 191 → 128 ≤ byte c2 ≤ 191 → 128 ≤ byte c3 ≤ 191 →
  r = (byte a - 240) * 262144 + (byte c1 - 128) * 4096 + (byte c2 - 128) * 64 + (byte c3 - 128) → 65536 ≤ r ≤ 1114111 →
  encode r = String a (String c1 (String c2 (String c3 EmptyString))).
Proof.
  intros Ha H1 H2 H3 Hr Hl. rewrite encode_range by lia. rewrite !bool_decide_false by lia.
  assert (r = (((byte a - 240) * 64 + (byte c1 - 128)) * 64 + (byte c2 - 128)) * 64 + (byte c3 - 128)) as E by lia.
  change 262144 with (64 * (64 * 64)). change 4096 with (64 * 64). rewrite <-!Z.div_div by lia.
  rewrite E, digit_0, !digit_up, !digit_0 by lia.
  f_equal; [|f_equal; [|f_equal; [|f_equal]]]; apply chr_eq; lia.
Qed.

(** A valid sequence of bytes is what its rune is encoded as. *)
Lemma decode_valid a s r rest : decode a s = (r, rest) → 128 ≤ byte a → (r = rune_error → rest ≠ s) →
  ∃ x, encode r = String a x ∧ s = x +:+ rest ∧ ∀ t, decode a (x +:+ t) = (r, t).
Proof.
  intros Hd Ha Hv. unfold decode in Hd. rewrite bool_decide_false in Hd by lia.
  assert ((rune_error, s) ≠ (r, rest)) as Hno by (intros [= <- <-]; by destruct Hv).
  destruct (_ && _) eqn:E2 in Hd.
  { destruct s as [|c1 s1]; [done|]. destruct (is_cont (byte c1)) eqn:Ec; [|done]. injection Hd as <- <-.
    exists (String c1 EmptyString). split; [run_bools; apply encode_2; rewrite ?is_cont_iff in *; lia|]. split; [done|]. intros t.
    unfold decode. rewrite bool_decide_false, E2 by lia. change (String c1 EmptyString +:+ t) with (String c1 t). cbv beta iota. by rewrite Ec. }
  destruct (_ && _) eqn:E3 in Hd.
  { destruct s as [|c1 [|c2 s2]]; [done..|]. destruct (_ && _) eqn:Ec in Hd; [|done]. injection Hd as <- <-.
    exists (String c1 (String c2 EmptyString)). split.
    - run_bools. rewrite ?is_cont_iff in *. eapply encode_3; try lia.
      match goal with E : _ && _ = false |- _ => apply andb_false_iff in E as [E|E]; apply bool_decide_eq_false in E; lia end.
    - split; [done|]. intros t. unfold decode. rewrite bool_decide_false, E2, E3 by lia.
      change (String c1 (String c2 EmptyString) +:+ t) with (String c1 (String c2 t)). cbv beta iota zeta. by rewrite Ec. }
  destruct (_ && _) eqn:E4 in Hd; [|done].
  destruct s as [|c1 [|c2 [|c3 s3]]]; [done..|]. destruct (_ && _) eqn:Ec in Hd; [|done]. injection Hd as <- <-.
  exists (String c1 (String c2 (String c3 EmptyString))). split.
  - run_bools. rewrite ?is_cont_iff in *. eapply encode_4; lia.
  - split; [done|]. intros t. unfold decode. rewrite bool_decide_false, E2, E3, E4 by lia.
    change (String c1 (String c2 (String c3 EmptyString)) +:+ t) with (String c1 (String c2 (String c3 t))). cbv beta iota zeta. by rewrite Ec.
Qed.

Lemma unquote_rune a x r fuel t : encode r = String a x → 128 ≤ byte a → (∀ t, decode a (x +:+ t) = (r, t)) →
  unquote_fuel (S fuel) (encode r +:+ t) = encode r +:+ unquote_fuel fuel t.
Proof.
  intros E Ha Hd. rewrite E at 1. rewrite app_cons. cbn [unquote_fuel].
  rewrite (bool_decide_false (a = backslash)) by (intros ->; vm_compute in Ha; by destruct Ha).
  rewrite bool_decide_false by lia. by rewrite Hd.
Qed.

Lemma escape_byte_len a : (0 < String.length (escape_byte a))%nat.
Proof. destruct a as [[] [] [] [] [] [] [] []]; apply Nat.ltb_lt; reflexivity. Qed.

Lemma u_escape_len r : String.length (u_escape r) = 6%nat.
Proof. done. Qed.
Lemma unquote_u r fuel t : r = 8232 ∨ r = 8233 → unquote_fuel (S fuel) (u_escape r +:+ t) = encode r +:+ unquote_fuel fuel t.
Proof. by intros [-> | ->]. Qed.

(** Reading back what [encode_string] wrote. *)
Lemma unquote_escape n : ∀ s fuel, (String.length s ≤ n)%nat → valid_fuel n s = true →
  (String.length (escape_fuel n s) ≤ fuel)%nat → unquote_fuel fuel (escape_fuel n s) = s.
Proof.
  induction n as [|n IH]; intros [|a s] fuel Hn Hs Hf; cbn [String.length] in Hn; try (lia || by destruct fuel).
  cbn [valid_fuel escape_fuel] in *. case_bool_decide as Ha.
  - rewrite app_len in Hf. pose proof (escape_byte_len a). destruct fuel as [|fuel]; [lia|].
    rewrite unquote_byte by done. f_equal. apply IH; [lia|done|lia].
  - destruct (decode a s) as [r rest] eqn:Ed. apply andb_true_iff in Hs as [Hb Hs].
    assert (r = rune_error → rest ≠ s) as Hbad.
    { intros -> ->. rewrite !bool_decide_true in Hb by done. done. }
    destruct (decode_valid a s r rest Ed ltac:(lia) Hbad) as (x & Ex & Es & Hx).
    assert (String.length rest ≤ n)%nat as Hr by (rewrite Es, app_len in Hn; lia).
    replace (bool_decide (r = rune_error) && bool_decide (rest = s)) with false in * by (by destruct (_ && _)).
    assert (String a s = encode r +:+ rest) as -> by (by rewrite Ex, Es).
    destruct (bool_decide (r = 8232) || bool_decide (r = 8233)) eqn:Eu.
    + rewrite app_len, u_escape_len in Hf. destruct fuel as [|fuel]; [lia|].
      rewrite unquote_u by (by apply orb_true_iff in Eu as [?%bool_decide_eq_true|?%bool_decide_eq_true]; auto).
      f_equal. apply IH; [done..|lia].
    + rewrite app_len, Ex in Hf. cbn [String.length] in Hf. destruct fuel as [|fuel]; [lia|].
      rewrite (unquote_rune a x) by (done || lia). f_equal. apply IH; [done..|lia].
Qed.
Lemma unquote_escaped s : valid_utf8 s = true → unquote (escaped s) = s.
Proof. intros Hs. by apply unquote_escape. Qed.

(** ** Arrays of strings, and structs *)
Definition str_values (l : list string) : list (json * string) := (λ s, (JStr (escaped s), encode_string s)) <$> l.

Lemma prints_strings l : prints 1 (print_array (encode_string <$> l)) (JArr (str_values l)).
Proof.
  assert (str_values l = zip ((λ s, JStr (escaped s)) <$> l) (encode_string <$> l)) as ->.
  { unfold str_values. induction l as [|s l IH]; [done|]. cbn. by rewrite <-IH. }
  apply (prints_array 0); [|unfold max_depth; lia]. apply Forall2_fmap, Forall_Forall2_diag, Forall_true. intros s. apply prints_string.
Qed.

(** The members a printed object is decoded from. *)
Lemma top_object k ms vs : Forall2 (λ m v, prints k m.2 v) ms vs → 0 ≤ k < max_depth →
  Struct.top (print_object ms) = Some (zip_with (λ m v, (escaped m.1, (v, m.2))) ms vs).
Proof.
  intros Hall Hk. unfold Struct.top. rewrite (prints_parse (k + 1) _ _ (prints_object k ms vs Hall Hk)) by lia. done.
Qed.
