(* ===== verification/Digest.v ===== *)
(** * [internal/matrixstate/state.go]: the digests of a /state response

    [digestAccumulator] sums the hashes of the events' canonical forms modulo
    [2^256]; [ScanStateResponse] walks a response body with the streaming
    decoder and hands every PDU to a visitor; [DigestStateResponse] folds the
    visited PDUs into the two digests. *)
From S2P Require Import Prelude Json JsonStream Store External Pducmp.

Open Scope Z_scope.

(** Big-endian bytes: [big.Int.SetBytes], and [Bytes] left-padded to [n]. *)
Definition of_bytes (s : string) : Z := foldl (λ acc a, acc * 256 + Utf8.byte a) 0 (list_ascii_of_string s).
Fixpoint to_bytes (n : nat) (z : Z) : string :=
  match n with
  | O => EmptyString
  | S n => to_bytes n (z / 256) +:+ String (Utf8.chr (z mod 256)) EmptyString
  end.

Record digestAccumulator := Acc { sum : Z; count : Z }.
Definition empty_digest : digestAccumulator := Acc 0 0.

Record StateResult := MkStateResult {
  PDUs : Z; AuthChain_ : Z; Bytes : Z; PDUDigest : string; AuthChainDigest : string }.
Definition zero_digest : string := to_bytes 32 0.
Definition no_result : StateResult := MkStateResult 0 0 0 zero_digest zero_digest.

Definition Agrees (s other : StateResult) : bool :=
  bool_decide (PDUDigest s = PDUDigest other) && bool_decide (AuthChainDigest s = AuthChainDigest other).

(** ** Scanning a response *)
Definition ArrayPDUs : string := "pdus".
Definition ArrayAuthChain : string := "auth_chain".

(** The visitor: array, index, canonical form, raw text; it changes a state [St]
    and may fail. *)
Notation visitor St := (string → Z → string → string → St → St * option error).

Section scan.
Context {St : Type} (visit : visitor St).

(** The loop of [scanArray]; the fuel is the length of the input. *)
Fixpoint scan_elements (fuel : nat) (array : string) (n : Z) (dec : decoder) (s : St)
    : Z * decoder * St * option error :=
  match fuel with
  | O => (n, dec, s, Some OutOfFuel)
  | S fuel =>
      if More dec then
        match Decode dec with
        | None => (n, dec, s, Some (ErrText "decode"))
        | Some (_, raw, dec) =>
            match Canonical raw with
            | None => (n, dec, s, Some (ErrText "unparseable pdu"))
            | Some canonical =>
                let '(s, e) := visit array n canonical raw s in
                match e with
                | Some e => (n, dec, s, Some e)
                | None => scan_elements fuel array (n + 1) dec s
                end
            end
        end
      else match Token dec with
           | None => (n, dec, s, Some (ErrText "token"))
           | Some (_, dec) => (n, dec, s, None)
           end
  end.

Definition scanArray (dec : decoder) (array : string) (s : St) : Z * decoder * St * option error :=
  match Token dec with
  | Some (Delim "[", dec) => scan_elements (S (String.length (d_in dec))) array 0 dec s
  | _ => (0, dec, s, Some (ErrText "expected array"))
  end.

(** The counts, the visitor's state and the error. *)
Notation scanned := (Z * Z * St * option error)%type.

Fixpoint scan_members (fuel : nat) (pdus authChain : Z) (dec : decoder) (s : St) : scanned :=
  match fuel with
  | O => (pdus, authChain, s, Some OutOfFuel)
  | S fuel =>
      if More dec then
        match Token dec with
        | None => (pdus, authChain, s, Some (ErrText "state response"))
        | Some (tok, dec) =>
            let key := match tok with StrTok k => k | _ => EmptyString end in
            if bool_decide (key = ArrayPDUs) then
              let '(n, dec, s, e) := scanArray dec ArrayPDUs s in
              match e with
              | Some e => (n, authChain, s, Some (Wrapped "state response pdus" e))
              | None => scan_members fuel n authChain dec s
              end
            else if bool_decide (key = ArrayAuthChain) then
              let '(n, dec, s, e) := scanArray dec ArrayAuthChain s in
              match e with
              | Some e => (pdus, n, s, Some (Wrapped "state response auth_chain" e))
              | None => scan_members fuel pdus n dec s
              end
            else
              match Decode dec with
              | None => (pdus, authChain, s, Some (ErrText "state response: skip"))
              | Some (_, _, dec) => scan_members fuel pdus authChain dec s
              end
        end
      else match Token dec with
           | None => (pdus, authChain, s, Some (ErrText "state response"))
           | Some _ => (pdus, authChain, s, None)
           end
  end.

Definition ScanStateResponse (body : string) (s : St) : scanned :=
  match Token (NewDecoder body) with
  | Some (Delim "{", dec) => scan_members (S (String.length body)) 0 0 dec s
  | _ => (0, 0, s, Some (ErrText "state response: expected object"))
  end.
End scan.

Section digests.
Context `{!External}.

Definition add (canonical : string) (d : digestAccumulator) : digestAccumulator :=
  Acc (sum d + of_bytes (sha256 canonical)) (count d + 1).
Definition digest (d : digestAccumulator) : string := to_bytes 32 (sum d mod 2 ^ 256).

Definition digest_visit (array : string) (_ : Z) (canonical _ : string)
    (s : digestAccumulator * digestAccumulator) : (digestAccumulator * digestAccumulator) * option error :=
  (if bool_decide (array = ArrayPDUs) then (add canonical s.1, s.2)
   else if bool_decide (array = ArrayAuthChain) then (s.1, add canonical s.2) else s, None).

Definition DigestStateResponse (body : string) : StateResult * option error :=
  let '(pdus, authChain, (pduDigest, authDigest), e) :=
    ScanStateResponse digest_visit body (empty_digest, empty_digest) in
  match e with
  | Some e => (MkStateResult pdus authChain 0 zero_digest zero_digest, Some e)
  | None => (MkStateResult pdus authChain 0 (digest pduDigest) (digest authDigest), None)
  end.
End digests.

(** The literal text [State] writes around the two arrays. *)
Definition pdus_head : string := String "{" (String quote ("pdus" +:+ String quote ":[")).
Definition auth_head : string := "]," +:+ String quote ("auth_chain" +:+ String quote ":[").

(** ** Bytes *)
Lemma list_ascii_app s t : list_ascii_of_string (s +:+ t) = (list_ascii_of_string s ++ list_ascii_of_string t)%list.
Proof. induction s as [|a s IH]; [done|]. rewrite app_cons. simpl. by rewrite IH. Qed.

Lemma of_bytes_snoc s a : of_bytes (s +:+ String a EmptyString) = of_bytes s * 256 + Utf8.byte a.
Proof. unfold of_bytes. by rewrite list_ascii_app, foldl_app. Qed.

Lemma of_to_bytes n z : of_bytes (to_bytes n z) = z mod 256 ^ Z.of_nat n.
Proof.
  revert z. induction n as [|n IH]; intros z; [by rewrite Z.mod_1_r|].
  cbn [to_bytes]. rewrite of_bytes_snoc, IH, byte_chr by (apply Z.mod_pos_bound; lia).
  rewrite Nat2Z.inj_succ, Z.pow_succ_r by lia.
  rewrite Z.rem_mul_r by lia. lia.
Qed.

(** ** Reading back what was written *)
Definition is_doc (b : string) : Prop := is_ok (parse b) = true.

(** The text of an array: the first body, then the others after a comma. *)
Definition more (bs : list string) : string := foldr (λ b acc, "," +:+ (b +:+ acc)) EmptyString bs.
Definition text (bs : list string) : string :=
  match bs with [] => EmptyString | b :: bs => b +:+ more bs end.

(** What a body is to the decoder: its value's text, then blanks. *)
Record body_reads (b canonical : string) : Prop := {
  br_more : ∀ c, head_byte (skip_ws b) = Some c → c ∉ ["]"; "}"]%char;
  br_some : skip_ws b ≠ EmptyString;
  br_read : ∀ t, ∃ v raw rest, read_value (b +:+ t) = Some (v, raw, rest) ∧
              Canonical raw = Some canonical ∧ skip_ws rest = skip_ws t }.

Lemma value_start f d a s v r : value f d (String a s) = Ok (v, r) → (v = JNull ∨ ∃ ms, v = JObj ms) →
  a = "{"%char ∨ a = "n"%char.
Proof.
  destruct f as [|f]; [done|]. cbn [value]. intros Hv Hs.
  case_bool_decide. { apply result_bind_Ok in Hv as ([? ?] & _ & ?). naive_solver. }
  case_bool_decide; [by left|].
  case_bool_decide.
  { case_bool_decide; [done|]. destruct (skip_ws s) as [|b s2].
    { apply result_bind_Ok in Hv as ([? ?] & _ & ?). naive_solver. }
    destruct (decide (b = "]"%char)) as [->|Hb]; [naive_solver|]. rewrite array_eq in Hv by done.
    apply result_bind_Ok in Hv as ([? ?] & _ & ?). naive_solver. }
  destruct (is_digit a || bool_decide (a = "-"%char)).
  { apply result_bind_Ok in Hv as ([? ?] & _ & ?). naive_solver. }
  apply of_option_Ok in Hv. unfold scan_literal in Hv.
  destruct (filter _ literals) as [|[w v'] l] eqn:E; [done|]. simplify_eq.
  assert ((w, v) ∈ filter (λ l, has_prefix (String a s) l.1 = true) literals) as [Hw Hin]%list_elem_of_filter
    by (rewrite E; left).
  unfold literals in Hin. rewrite !elem_of_cons in Hin. right.
  destruct Hin as [Hin|[Hin|[Hin|Hin%not_elem_of_nil]]]; simplify_eq; try naive_solver.
  cbn [fst has_prefix] in Hw. apply andb_true_iff in Hw as [Hw _]. apply bool_decide_eq_true in Hw. done.
Qed.

Lemma canonical_value b c : Canonical b = Some c →
  ∃ v raw rest, read_value b = Some (v, raw, rest) ∧ (v = JNull ∨ ∃ ms, v = JObj ms).
Proof.
  unfold Canonical, normalise, decode_map, decode_first, read_value. intros Hc.
  destruct (value _ 0 (skip_ws b)) as [[v rest]|] eqn:E; [|done]. do 3 eexists. split; [done|].
  destruct v; try done; [by left|by right; eexists].
Qed.

Lemma canonical_reads b c : Canonical b = Some c → is_doc b → body_reads b c.
Proof.
  intros Hc Hd. destruct (canonical_value b c Hc) as (v & raw & rest & Hr & Hv).
  assert (∃ a s, skip_ws b = String a s ∧ (a = "{"%char ∨ a = "n"%char)) as (a & s & Hs & Ha).
  { unfold read_value in Hr. destruct (value _ 0 (skip_ws b)) as [[v' r]|] eqn:E; [|done]. simplify_eq.
    pose proof (value_nonempty _ _ _ _ E). destruct (skip_ws b) as [|a s]; [done|].
    exists a, s. split; [done|]. by eapply value_start. }
  assert (¬ starts_number (skip_ws b)) as Hn.
  { rewrite Hs. cbn. intros [Hd'|Hd']; destruct Ha as [->| ->]; done. }
  pose proof (read_value_swap b v raw rest Hr Hn) as (Hh & Hb & Ht).
  assert (skip_ws rest = EmptyString) as Hblank.
  { unfold is_doc, parse in Hd. unfold read_value in Hr. destruct (value _ 0 (skip_ws b)) as [[v' r]|]; [|done].
    simplify_eq. simpl in Hd. by destruct (skip_ws rest). }
  split.
  - intros x. rewrite Hs. intros [= <-]. destruct Ha as [->| ->]; apply (bool_decide_unpack _); vm_compute; exact I.
  - by rewrite Hs.
  - intros t. exists v, raw, (rest +:+ t). split_and!.
    + destruct (skip_ws_split b) as (ws & Hbw & Hws & Hwt). rewrite Hbw, Hb, <-!app_assoc_str.
      unfold read_value. rewrite Hwt. destruct (Ht (rest +:+ t)) as [Hsk Hrv]. exact Hrv.
    + rewrite <-Hc. unfold Canonical, normalise, decode_map, decode_first.
      destruct (Ht EmptyString) as [Hsk Hrv]. rewrite app_nil_str in Hsk, Hrv. unfold read_value in Hr, Hrv.
      destruct (value _ 0 (skip_ws raw)) as [[v1 r1]|]; [|done].
      destruct (value _ 0 (skip_ws b)) as [[v2 r2]|]; [|done]. by simplify_eq.
    + by apply skip_ws_blank.
Qed.

Section scans.
Context {St : Type} (f : string → string → St → St).
(** A visitor that never fails. *)
Definition visiting : visitor St := λ array _ canonical _ s, (f array canonical s, None).
Definition visits (array : string) (cs : list string) (s : St) : St := foldl (λ s c, f array c s) s cs.

Lemma peek_at i st stack a t : skip_ws i = String a t → peek (Dec i st stack) = Some (a, t).
Proof. intros E. unfold peek. simpl. by rewrite E. Qed.

Lemma peek_head a t st stack : is_ws a = false → peek (Dec (String a t) st stack) = Some (a, t).
Proof. intros E. apply peek_at. cbn [skip_ws]. by rewrite E. Qed.

Lemma more_bracket bs t : skip_ws (more bs +:+ String "]" t) = more bs +:+ String "]" t.
Proof. by destruct bs. Qed.

(** One element, after its comma or at the start of the array. *)
Lemma decode_element b c i st s stack t :
  body_reads b c → s = b +:+ t → skip_ws t = t →
  (st = ArrayComma ∧ skip_ws i = String "," s ∨ st = ArrayStart ∧ i = s) →
  More (Dec i st stack) = true ∧
  ∃ v raw rest, Decode (Dec i st stack) = Some (v, raw, Dec rest ArrayComma stack) ∧
    Canonical raw = Some c ∧ skip_ws rest = t.
Proof.
  intros [Hm Hne Hr] -> Ht Hst. destruct (Hr t) as (v & raw & rest & Hrv & Hcan & Hrest).
  destruct Hst as [[-> Hi]|[-> ->]].
  - split; [unfold More; by rewrite (peek_at _ _ _ _ _ Hi)|].
    exists v, raw, rest. split_and!; [|done|by rewrite Hrest].
    unfold Decode. cbn [d_state d_stack]. rewrite (peek_at _ _ _ _ _ Hi). cbn. by rewrite Hrv.
  - split.
    + destruct (skip_ws b) as [|a x] eqn:E; [done|].
      assert (skip_ws (b +:+ t) = String a (x +:+ t)) as E'.
      { apply skip_ws_to in E as (ws & -> & Hw). rewrite <-app_assoc_str. apply Hw. }
      unfold More. rewrite (peek_at _ _ _ _ _ E'). specialize (Hm a eq_refl). by rewrite bool_decide_false.
    + exists v, raw, rest. split_and!; [|done|by rewrite Hrest].
      unfold Decode. cbn [d_state d_stack d_in].
      destruct (peek (Dec (b +:+ t) ArrayStart stack)) as [[? ?]|]; cbn; by rewrite Hrv.
Qed.

Lemma scan_rest array fuel bs cs n i stack s t :
  Forall2 body_reads bs cs → (length bs < fuel)%nat → skip_ws i = more bs +:+ String "]" t →
  scan_elements visiting fuel array n (Dec i ArrayComma (ObjectValue :: stack)) s =
  (n + Z.of_nat (length bs), Dec t ObjectComma stack, visits array cs s, None).
Proof.
  intros H. revert fuel n i s. induction H as [|b c bs cs Hb _ IH]; intros fuel n i s Hf Hi;
    (destruct fuel as [|fuel]; [simpl in Hf; lia|]); cbn [scan_elements].
  - change (more [] +:+ String "]" t) with (String "]" t) in Hi.
    unfold More, Token. cbn [d_state]. rewrite !(peek_at _ _ _ _ _ Hi). cbn -[peek].
    unfold token_at. rewrite (peek_at _ _ _ _ _ Hi). cbn. by rewrite Z.add_0_r.
  - assert (skip_ws i = String "," (b +:+ (more bs +:+ String "]" t))) as Hi'.
    { rewrite Hi. cbn [more foldr]. by rewrite <-!app_assoc_str. }
    destruct (decode_element b c i ArrayComma _ (ObjectValue :: stack) _ Hb eq_refl (more_bracket bs t)
      (or_introl (conj eq_refl Hi'))) as (-> & v & raw & rest & -> & Hcan & Hrest).
    rewrite Hcan. cbn [visiting]. rewrite IH by (done || (simpl in Hf; lia)).
    simpl. do 3 f_equal. lia.
Qed.

Lemma scan_all array fuel bs cs i stack s t :
  Forall2 body_reads bs cs → (length bs < fuel)%nat → i = text bs +:+ String "]" t →
  scan_elements visiting fuel array 0 (Dec i ArrayStart (ObjectValue :: stack)) s =
  (Z.of_nat (length bs), Dec t ObjectComma stack, visits array cs s, None).
Proof.
  intros H Hf ->. (destruct fuel as [|fuel]; [simpl in Hf; lia|]); cbn [scan_elements].
  destruct H as [|b c bs cs Hb H].
  - change (text [] +:+ String "]" t) with (String "]" t).
    unfold More, Token. cbn [d_state]. rewrite !peek_head by done. cbn -[peek].
    unfold token_at. by rewrite peek_head.
  - cbn [text] in *.
    destruct (decode_element b c ((b +:+ more bs) +:+ String "]" t) ArrayStart ((b +:+ more bs) +:+ String "]" t)
      (ObjectValue :: stack) (more bs +:+ String "]" t) Hb) as (-> & v & raw & rest & -> & Hcan & Hrest);
      [symmetry; apply app_assoc_str|apply more_bracket|by right|].
    rewrite Hcan. cbn [visiting]. rewrite (scan_rest array fuel bs cs 1 rest stack _ t) by (done || (simpl in Hf; lia)).
    simpl. do 3 f_equal. lia.
Qed.

Lemma text_length bs cs t : Forall2 body_reads bs cs → (length bs < S (String.length (text bs +:+ t)))%nat.
Proof.
  intros H. assert (∀ bs cs, Forall2 body_reads bs cs → (length bs ≤ String.length (more bs))%nat) as Hm.
  { intros ?? H'. induction H' as [|b c bs' cs' Hb _ IH]; [done|]. cbn [more foldr]. rewrite !app_len.
    change (String.length ",") with 1%nat. change (foldr _ _ bs') with (more bs'). simpl. lia. }
  rewrite app_len. destruct H as [|b c bs cs [_ Hne _] H]; [simpl; lia|]. cbn [text]. rewrite app_len.
  specialize (Hm _ _ H). destruct b as [|a b]; [done|]. simpl. lia.
Qed.

Lemma scanArray_all array bs cs stack s t :
  Forall2 body_reads bs cs →
  scanArray visiting (Dec (":[" +:+ (text bs +:+ String "]" t)) ObjectColon stack) array s =
  (Z.of_nat (length bs), Dec t ObjectComma stack, visits array cs s, None).
Proof.
  intros H. unfold scanArray, Token. cbn [d_state].
  change (":[" +:+ ?x) with (String ":" (String "[" x)). rewrite peek_head by done.
  unfold token_at. rewrite peek_head by done. cbn -[scan_elements].
  apply scan_all; [done| |done]. by apply (text_length bs cs).
Qed.

(** The key of a member. *)
Lemma key_token name t stack st :
  (st = ObjectStart ∨ st = ObjectKey) → (name = ArrayPDUs ∨ name = ArrayAuthChain) →
  token_at st (Dec (String quote (name +:+ String quote t)) st stack) =
  Some (StrTok name, Dec t ObjectColon stack).
Proof.
  intros Hst Hn. assert (scan_string (name +:+ String quote t) = Some (name, t) ∧ unquote name = name) as [Hs Hu]
    by (by destruct Hn as [->| ->]).
  unfold token_at. rewrite peek_head by done. cbn [mbind option_bind].
  rewrite !bool_decide_false by done. rewrite bool_decide_true by done.
  assert (read_value (String quote (name +:+ String quote t)) =
    Some (JStr name, String quote (name +:+ String quote EmptyString), t)) as Hr.
  { unfold read_value. change (skip_ws (String quote ?x)) with (String quote x).
    rewrite (value_any_fuel 1 _ 0 _ (JStr name, t)); [|cbn [value]; by rewrite Hs|lia].
    do 2 f_equal.
    by rewrite <-(consumed_exact (String quote (name +:+ String quote EmptyString)) t), !app_cons, <-app_assoc_str. }
  destruct Hst as [->| ->]; cbn [andb d_in]; rewrite Hr; cbn; by rewrite Hu.
Qed.

(** The loop over the members, step by step. *)
Lemma step_pdus fuel pdus authChain dec dec1 dec2 n s s' :
  More dec = true → Token dec = Some (StrTok ArrayPDUs, dec1) →
  scanArray visiting dec1 ArrayPDUs s = (n, dec2, s', None) →
  scan_members visiting (S fuel) pdus authChain dec s = scan_members visiting fuel n authChain dec2 s'.
Proof. intros H1 H2 H3. cbn [scan_members]. rewrite H1, H2. cbn zeta. rewrite bool_decide_true by done. by rewrite H3. Qed.
Lemma step_auth fuel pdus authChain dec dec1 dec2 n s s' :
  More dec = true → Token dec = Some (StrTok ArrayAuthChain, dec1) →
  scanArray visiting dec1 ArrayAuthChain s = (n, dec2, s', None) →
  scan_members visiting (S fuel) pdus authChain dec s = scan_members visiting fuel pdus n dec2 s'.
Proof.
  intros H1 H2 H3. cbn [scan_members]. rewrite H1, H2. cbn zeta.
  rewrite bool_decide_false, bool_decide_true by done. by rewrite H3.
Qed.
Lemma step_end fuel pdus authChain dec x s :
  More dec = false → Token dec = Some x →
  scan_members visiting (S fuel) pdus authChain dec s = (pdus, authChain, s, None).
Proof. intros H1 H2. cbn [scan_members]. rewrite H1, H2. by destruct x. Qed.

Lemma More_head a t st stack : is_ws a = false → a ∉ ["]"; "}"]%char → More (Dec (String a t) st stack) = true.
Proof. intros Ha Hin. unfold More. rewrite peek_head by done. by rewrite bool_decide_false. Qed.

(** The whole response. *)
Definition response (bs1 bs2 : list string) : string :=
  pdus_head +:+ (text bs1 +:+ (auth_head +:+ (text bs2 +:+ "]}"))).

Lemma scan_response bs1 cs1 bs2 cs2 s :
  Forall2 body_reads bs1 cs1 → Forall2 body_reads bs2 cs2 →
  ScanStateResponse visiting (response bs1 bs2) s =
  (Z.of_nat (length bs1), Z.of_nat (length bs2),
   visits ArrayAuthChain cs2 (visits ArrayPDUs cs1 s), None).
Proof.
  intros H1 H2. unfold response. set (t2 := text bs2 +:+ "]}").
  set (t1 := String "," (String quote (ArrayAuthChain +:+ String quote (":[" +:+ t2)))).
  assert (pdus_head +:+ (text bs1 +:+ (auth_head +:+ t2)) =
    String "{" (String quote (ArrayPDUs +:+ String quote (":[" +:+ (text bs1 +:+ String "]" t1))))) as -> by done.
  unfold ScanStateResponse. set (body := String "{" _).
  assert (Token (NewDecoder body) = Some (Delim "{", Dec (String quote (ArrayPDUs +:+ String quote
    (":[" +:+ (text bs1 +:+ String "]" t1)))) ObjectStart [TopValue])) as -> by done.
  assert (∃ n, S (String.length body) = S (S (S n))) as [n ->].
  { unfold body. simpl. eauto. }
  erewrite step_pdus; [|by apply More_head; [|apply (bool_decide_unpack _)]| |by eapply (scanArray_all _ bs1 cs1 _ _ t1)].
  2:{ unfold Token. cbn [d_state]. rewrite peek_head by done. apply key_token; auto. }
  erewrite step_auth; [|by apply More_head; [|apply (bool_decide_unpack _)]| |by eapply (scanArray_all _ bs2 cs2 _ _ "}")].
  2:{ unfold t1, Token. cbn [d_state]. rewrite peek_head by done. apply key_token; auto. }
  by eapply step_end.
Qed.
End scans.

(** ** What the digest identifies *)
Section identify.
Context `{!External}.

Definition hash (canonical : string) : Z := of_bytes (sha256 canonical).
Definition accumulate (cs : list string) (d : digestAccumulator) : digestAccumulator :=
  foldl (λ d c, add c d) d cs.

Lemma accumulate_sum cs d : sum (accumulate cs d) = sum d + Zsum (hash <$> cs).
Proof.
  revert d. induction cs as [|c cs IH]; intros d; [apply eq_sym, Z.add_0_r|].
  rewrite fmap_cons, Zsum_cons. change (accumulate (c :: cs) d) with (accumulate cs (add c d)).
  rewrite IH. unfold add, hash. cbn [sum]. lia.
Qed.

Lemma to_bytes_inj z1 z2 : 0 ≤ z1 < 2 ^ 256 → 0 ≤ z2 < 2 ^ 256 → to_bytes 32 z1 = to_bytes 32 z2 → z1 = z2.
Proof.
  intros H1 H2 Heq. apply (f_equal of_bytes) in Heq. rewrite !of_to_bytes in Heq.
  change (256 ^ Z.of_nat 32) with (2 ^ 256) in Heq. by rewrite !Z.mod_small in Heq by done.
Qed.

(** Two arrays have the same digest exactly if the sums of their hashes agree
    modulo [2^256]. *)
Lemma digest_sums cs1 cs2 :
  digest (accumulate cs1 empty_digest) = digest (accumulate cs2 empty_digest) ↔
  Zsum (hash <$> cs1) mod 2 ^ 256 = Zsum (hash <$> cs2) mod 2 ^ 256.
Proof.
  unfold digest. rewrite !accumulate_sum. simpl. rewrite !Z.add_0_l. split; [|by intros ->].
  apply to_bytes_inj; apply Z.mod_pos_bound; lia.
Qed.

(** One more copy keeps the sum only if its hash is zero. *)
Lemma one_more c cs :
  Zsum (hash <$> c :: cs) mod 2 ^ 256 = Zsum (hash <$> cs) mod 2 ^ 256 ↔ hash c mod 2 ^ 256 = 0.
Proof.
  rewrite fmap_cons, Zsum_cons. split; intros Hm.
  - replace (hash c) with (hash c + Zsum (hash <$> cs) - Zsum (hash <$> cs)) by lia.
    by rewrite Zminus_mod, Hm, Z.sub_diag.
  - by rewrite Zplus_mod, Hm, Z.add_0_l, Zmod_mod.
Qed.
End identify.

(** ** What a body holds *)

(** Two visitors that keep related states and fail alike are run alike. *)
Section fusion.
Context {St1 St2 : Type} (v1 : visitor St1) (v2 : visitor St2) (rel : St1 → St2 → Prop).
Context (Hv : ∀ array n c raw s1 s2, rel s1 s2 →
  rel (v1 array n c raw s1).1 (v2 array n c raw s2).1 ∧ (v1 array n c raw s1).2 = (v2 array n c raw s2).2).

Lemma scan_elements_fusion fuel array n dec s1 s2 : rel s1 s2 →
  let '(m1, d1, t1, e1) := scan_elements v1 fuel array n dec s1 in
  let '(m2, d2, t2, e2) := scan_elements v2 fuel array n dec s2 in m1 = m2 ∧ d1 = d2 ∧ rel t1 t2 ∧ e1 = e2.
Proof using Hv.
  revert n dec s1 s2. induction fuel as [|fuel IH]; intros n dec s1 s2 Hs; [done|]. cbn [scan_elements].
  destruct (More dec); [|by destruct (Token dec) as [[? ?]|]]. destruct (Decode dec) as [[[? raw] dec']|]; [|done].
  destruct (Canonical raw) as [c|]; [|done]. destruct (Hv array n c raw s1 s2 Hs) as [Hs' He].
  destruct (v1 array n c raw s1) as [s1' e1], (v2 array n c raw s2) as [s2' e2]. cbn [fst snd] in *. subst e2.
  destruct e1; [done|by apply IH].
Qed.

Lemma scanArray_fusion dec array s1 s2 : rel s1 s2 →
  let '(m1, d1, t1, e1) := scanArray v1 dec array s1 in
  let '(m2, d2, t2, e2) := scanArray v2 dec array s2 in m1 = m2 ∧ d1 = d2 ∧ rel t1 t2 ∧ e1 = e2.
Proof using Hv.
  intros Hs. unfold scanArray. destruct (Token dec) as [[[a| |] dec']|]; try by split_and!.
  destruct (decide (a = "["%char)) as [->|Ha]; [by apply scan_elements_fusion|].
  destruct a as [[] [] [] [] [] [] [] []]; first [done|by split_and!].
Qed.

Lemma scan_members_fusion fuel p a dec s1 s2 : rel s1 s2 →
  let '(p1, a1, t1, e1) := scan_members v1 fuel p a dec s1 in
  let '(p2, a2, t2, e2) := scan_members v2 fuel p a dec s2 in p1 = p2 ∧ a1 = a2 ∧ rel t1 t2 ∧ e1 = e2.
Proof using Hv.
  revert p a dec s1 s2. induction fuel as [|fuel IH]; intros p a dec s1 s2 Hs; [done|]. cbn [scan_members].
  destruct (More dec); [|by destruct (Token dec)]. destruct (Token dec) as [[tok dec']|]; [|done]. cbv zeta.
  destruct (bool_decide _).
  { pose proof (scanArray_fusion dec' ArrayPDUs s1 s2 Hs) as Ha.
    destruct (scanArray v1 dec' ArrayPDUs s1) as [[[m1 d1] t1] e1], (scanArray v2 dec' ArrayPDUs s2) as [[[m2 d2] t2] e2].
    destruct Ha as (<- & <- & Ht & <-). destruct e1; [done|by apply IH]. }
  destruct (bool_decide _).
  { pose proof (scanArray_fusion dec' ArrayAuthChain s1 s2 Hs) as Ha.
    destruct (scanArray v1 dec' ArrayAuthChain s1) as [[[m1 d1] t1] e1], (scanArray v2 dec' ArrayAuthChain s2) as [[[m2 d2] t2] e2].
    destruct Ha as (<- & <- & Ht & <-). destruct e1; [done|by apply IH]. }
  destruct (Decode dec') as [[[? ?] ?]|]; [by apply IH|done].
Qed.

Lemma ScanStateResponse_fusion body s1 s2 : rel s1 s2 →
  let '(p1, a1, t1, e1) := ScanStateResponse v1 body s1 in
  let '(p2, a2, t2, e2) := ScanStateResponse v2 body s2 in p1 = p2 ∧ a1 = a2 ∧ rel t1 t2 ∧ e1 = e2.
Proof using Hv.
  intros Hs. unfold ScanStateResponse. destruct (Token _) as [[[a| |] dec']|]; try by split_and!.
  destruct (decide (a = "{"%char)) as [->|Ha]; [by apply scan_members_fusion|].
  destruct a as [[] [] [] [] [] [] [] []]; first [done|by split_and!].
Qed.
End fusion.

(** The canonical forms of the events in the two arrays of a body, in order; [None]
    where it cannot be scanned. *)
Definition keep_visit (array : string) (_ : Z) (canonical _ : string) (s : list string * list string)
    : (list string * list string) * option error :=
  (if bool_decide (array = ArrayPDUs) then ((s.1 ++ [canonical])%list, s.2)
   else if bool_decide (array = ArrayAuthChain) then (s.1, (s.2 ++ [canonical])%list) else s, None).
Definition arrays (body : string) : option (list string * list string) :=
  match ScanStateResponse keep_visit body ([], []) with (_, s, None) => Some s | _ => None end.

(** The digests are those of the two arrays. *)
Lemma digest_arrays `{!External} body :
  let '(res, e) := DigestStateResponse body in
  match arrays body with
  | Some (pdus, chain) => e = None ∧ PDUDigest res = digest (accumulate pdus empty_digest) ∧
      AuthChainDigest res = digest (accumulate chain empty_digest)
  | None => is_Some e
  end.
Proof.
  set (rel := λ (s : list string * list string) (t : digestAccumulator * digestAccumulator),
    t = (accumulate s.1 empty_digest, accumulate s.2 empty_digest)).
  assert (∀ cs c, add c (accumulate cs empty_digest) = accumulate (cs ++ [c])%list empty_digest) as Hadd
    by (intros; unfold accumulate; by rewrite foldl_app).
  pose proof (ScanStateResponse_fusion keep_visit digest_visit rel) as Hf.
  assert (∀ array n c raw s t, rel s t → rel (keep_visit array n c raw s).1 (digest_visit array n c raw t).1 ∧
    (keep_visit array n c raw s).2 = (digest_visit array n c raw t).2) as Hv.
  { unfold rel, keep_visit, digest_visit. intros array n c raw s t ->. split; [|done]. cbn [fst snd].
    destruct (bool_decide _); [|destruct (bool_decide _)]; cbn [fst snd]; by rewrite ?Hadd. }
  specialize (Hf Hv body ([], []) (empty_digest, empty_digest) eq_refl).
  unfold DigestStateResponse, arrays.
  destruct (ScanStateResponse keep_visit body ([], [])) as [[[p1 a1] [pdus chain]] e1],
    (ScanStateResponse digest_visit body (empty_digest, empty_digest)) as [[[p2 a2] t] e2].
  destruct Hf as (_ & _ & -> & <-). by destruct e1.
Qed.
