(* ===== verification/StateBody.v ===== *)
(** * What the digests of a /state response say of its body

    [collect] lists the canonical forms of the events of the two arrays from the
    members of a body as Go decodes them, without looking at the text.  Scanning
    the text of a body ([ScanStateResponse], [scanArray], [Canonical]) collects
    exactly these, whatever its white space and the order of its keys, and fails
    exactly where there is nothing to collect; so the digests identify a body's two
    multisets of events. *)
From S2P Require Import Prelude Json JsonStream Store External Pducmp Digest.

Open Scope list_scope.
Open Scope Z_scope.

(** ** The events of a body, from its decoded members *)

(** What does not take part in a comparison: the value of [age], and the members
    that Synapse's cache adds to [unsigned]. *)
Definition clean_unsigned (u : gomap) : gomap :=
  (λ p, if bool_decide (p.1 = "age"%string) then (p.1, GStr "<age>") else p) <$>
  filter (λ p, p.1 ∉ ["prev_content"; "prev_sender"]%string) u.
Definition clean (m : gomap) : gomap :=
  (λ p, (p.1, match p.2 with
              | GObj u => if bool_decide (p.1 = "unsigned"%string) then GObj (clean_unsigned u) else p.2
              | v => v
              end)) <$> m.
Definition event_text (v : goval) : option string :=
  match v with
  | GObj m => Some (marshal (GObj (clean m)))
  | GNull => Some "null"%string
  | _ => None
  end.

(** The events of the arrays [pdus] and [auth_chain]; a repeated member adds to its
    array.  [None] where one of them is no array of events. *)
Fixpoint collect (ms : gomap) : option (list string * list string) :=
  match ms with
  | [] => Some ([], [])
  | (k, v) :: ms =>
      own ← (if bool_decide (k ∈ ["pdus"; "auth_chain"]%string)
             then match v with GArr l => mapM event_text l | _ => None end else Some []);
      '(pdus, chain) ← collect ms;
      Some (if bool_decide (k = "pdus"%string) then (own ++ pdus, chain)
            else if bool_decide (k = "auth_chain"%string) then (pdus, own ++ chain) else (pdus, chain))
  end.
Definition listed (v : json) : option (list string * list string) :=
  match v with JObj ms => collect ((λ m, (unquote m.1, to_go m.2.1)) <$> ms) | _ => None end.

(** ** Maps are sorted *)
Lemma str_le_antisym s t : str_le s t → str_le t s → s = t.
Proof.
  revert t. unfold str_le. induction s as [|a s IH]; intros [|b t]; simpl; try done.
  case_bool_decide as Ha; [subst b|].
  - rewrite bool_decide_true by done. intros H1 H2. f_equal. by apply IH.
  - rewrite (bool_decide_false (b = a)) by congruence. rewrite !bool_decide_eq_true. lia.
Qed.

Definition sorted (m : gomap) : Prop := NoDup m.*1 ∧ StronglySorted str_le m.*1.

Lemma set_key_keys k v m x : x ∈ (set_key k v m).*1 → x = k ∨ x ∈ m.*1.
Proof.
  induction m as [|[k' v'] m IH]; simpl; [intros ->%list_elem_of_singleton; by left|].
  case_bool_decide as Hk; [|destruct (str_leb k k')]; simpl; rewrite !elem_of_cons; naive_solver.
Qed.

Lemma set_key_sorted k v m : sorted m → sorted (set_key k v m).
Proof.
  induction m as [|[k' v'] m IH]; intros [Hn Hs]; simpl.
  { split; [apply NoDup_singleton|]. by repeat constructor. }
  simpl in Hn, Hs. apply NoDup_cons in Hn as [Hk' Hn]. inversion_clear Hs as [|?? Hs' Hall].
  case_bool_decide as Hk; [subst; split; by constructor|]. destruct (str_leb k k') eqn:E.
  - assert (Forall (str_le k) m.*1) as Hf by (eapply Forall_impl; [done|]; intros x Hx; by etransitivity).
    split; [|by repeat constructor]. simpl. constructor; [|by constructor].
    rewrite elem_of_cons. intros [?|Hin]; [done|]. apply Hk. apply str_le_antisym; [done|].
    by eapply (proj1 (Forall_forall _ _) Hall).
  - destruct (IH (conj Hn Hs')) as [Hn2 Hs2]. split; simpl; constructor; [|done..|].
    + intros [->|?]%set_key_keys; done.
    + apply Forall_forall. intros x [->|Hx]%set_key_keys; [|by eapply (proj1 (Forall_forall _ _) Hall)].
      destruct (str_le_total k k') as [Hle|Hle]; [|done]. unfold str_le in Hle. congruence.
Qed.

Lemma set_key_all (P : goval → Prop) k v m :
  P v → Forall (λ p, P p.2) m → Forall (λ p, P p.2) (set_key k v m).
Proof.
  intros Hv. induction 1 as [|[k' v'] m Hp Hm IH]; simpl; [by repeat constructor|].
  case_bool_decide; [|destruct (str_leb k k')]; by repeat constructor.
Qed.

Lemma to_go_obj ms : ∃ m, to_go (JObj ms) = GObj m ∧ sorted m ∧ Forall (λ p, ∃ x, p.2 = to_go x) m.
Proof.
  cbn [to_go]. eexists. split; [done|].
  assert (sorted [] ∧ Forall (λ p : string * goval, ∃ x, p.2 = to_go x) []) as Hs
    by (split; [by split; constructor|by constructor]).
  revert Hs. generalize (@nil (string * goval)).
  induction ms as [|[k [x raw]] ms IH]; intros acc [Hacc Hall]; [done|]. apply IH.
  split; [by apply set_key_sorted|]. apply (set_key_all (λ v, ∃ x, v = to_go x)); eauto.
Qed.

Lemma to_go_arr es : to_go (JArr es) = GArr ((λ e, to_go e.1) <$> es).
Proof. cbn [to_go]. f_equal. induction es as [|[x raw] es IH]; [done|]. rewrite IH. done. Qed.

(** Storing under a key that is there changes its value only. *)
Lemma set_key_present k v w m : sorted m → get_key k m = Some v →
  set_key k w m = (λ p, if bool_decide (p.1 = k) then (k, w) else p) <$> m.
Proof.
  unfold get_key. induction m as [|[k' v'] m IH]; intros [Hn Hs]; simpl in *; [done|].
  apply NoDup_cons in Hn as [Hk' Hn]. inversion_clear Hs as [|?? Hs' Hall].
  assert (∀ m : gomap, k ∉ m.*1 → (λ p, if bool_decide (p.1 = k) then (k, w) else p) <$> m = m) as Hid.
  { clear. induction m as [|[k' v'] m IH]; [done|]. simpl. rewrite not_elem_of_cons. intros [? ?].
    rewrite bool_decide_false by done. f_equal. by apply IH. }
  case_bool_decide as Hk; [subst; intros _; rewrite bool_decide_true by done; f_equal; symmetry; by apply Hid|].
  rewrite bool_decide_false by done. intros Hg. rewrite IH by done.
  assert (k ∈ m.*1) as Hin.
  { destruct (List.find _ m) as [[k2 v2]|] eqn:E; [|done]. apply find_some in E as [E Hk2].
    apply bool_decide_eq_true in Hk2. simpl in Hk2. subst k2. apply list_elem_of_fmap. exists (k, v2).
    split; [done|]. by apply list_elem_of_In. }
  destruct (str_leb k k') eqn:E; [|done]. exfalso. apply Hk. symmetry. apply str_le_antisym; [done|].
  by eapply (proj1 (Forall_forall _ _) Hall).
Qed.

Lemma get_key_None k m p : get_key k m = None → p ∈ m → p.1 ≠ k.
Proof.
  unfold get_key. intros Hg Hp Hk. destruct (List.find _ m) eqn:E; [done|].
  eapply find_none in E; [|by apply list_elem_of_In]. by apply bool_decide_eq_false in E.
Qed.
Lemma get_key_elem k v m : sorted m → (k, v) ∈ m → get_key k m = Some v.
Proof.
  unfold get_key. induction m as [|[k' v'] m IH]; intros [Hn Hs] Hin; [by apply not_elem_of_nil in Hin|].
  simpl in *. apply NoDup_cons in Hn as [Hk' Hn]. inversion_clear Hs. apply elem_of_cons in Hin as [[= -> ->]|Hin].
  { by rewrite bool_decide_true. }
  rewrite bool_decide_false; [by apply IH|]. intros ->. apply Hk'. apply list_elem_of_fmap. by exists (k, v).
Qed.

(** Marking the age and dropping what the cache adds cleans [unsigned]. *)
Lemma drop_mark u : sorted u → foldl (λ u f, del_key f u) (mark_age u) polluted = clean_unsigned u.
Proof.
  intros Hu. unfold mark_age, clean_unsigned. cbn [foldl polluted]. unfold del_key. rewrite list_filter_filter.
  set (P := λ p : string * goval, p.1 ∉ _). set (Q := λ p : string * goval, _ ∧ _).
  assert (∀ p, Q p ↔ P p) as HQ by (intros p; unfold P, Q; rewrite !not_elem_of_cons; pose proof (not_elem_of_nil p.1); tauto).
  rewrite (list_filter_iff Q P _ HQ). clear HQ. clearbody Q.
  destruct (get_key "age" u) as [v|] eqn:E.
  - rewrite (set_key_present _ _ _ _ Hu E). clear. induction u as [|[k x] u IH]; [done|]. cbn [fmap list_fmap].
    rewrite !filter_cons, IH. case_bool_decide as Hk; [by simplify_eq/=|].
    destruct (decide (P (k, x))); [|done]. cbn [fmap list_fmap]. by rewrite bool_decide_false.
  - symmetry. rewrite <-(list_fmap_id (filter P u)) at 2. apply list_fmap_ext. intros i p Hp.
    apply list_elem_of_lookup_2, list_elem_of_filter in Hp as [_ Hp].
    rewrite bool_decide_false; [done|]. by eapply get_key_None.
Qed.

(** The canonical form of a decoded event. *)
Lemma canonical_text b v : decode_first b = Some v → Canonical b = event_text (to_go v).
Proof.
  intros Hv. unfold Canonical, normalise, decode_map. rewrite Hv. cbn [fmap option_fmap option_map].
  destruct v as [| | | |es|ms]; try done. destruct (to_go_obj ms) as (m & -> & Hs & Hall).
  cbn [mbind option_bind fmap option_fmap option_map event_text]. do 2 f_equal.
  enough (dropUncomparableUnsigned (on_unsigned mark_age (Some m)) = Some (clean m)) as -> by done.
  unfold dropUncomparableUnsigned, on_unsigned, clean. destruct (get_key "unsigned" m) as [w|] eqn:E.
  - assert (∀ p, p ∈ m → p.1 = "unsigned"%string → p.2 = w) as Hu.
    { intros [k x] Hp Hk. simpl in Hk. subst k. apply get_key_elem in Hp; [|done]. by simplify_eq. }
    destruct w as [| | | | |u]; try (rewrite E; f_equal; symmetry; rewrite <-(list_fmap_id m) at 2;
      apply list_fmap_ext; intros i [k x] Hp%list_elem_of_lookup_2; specialize (Hu _ Hp); simpl in *;
      destruct x; try done; case_bool_decide as Hk; [by specialize (Hu Hk)|done]).
    rewrite get_set, set_set, (set_key_present _ _ _ _ Hs E), drop_mark.
    + f_equal. apply list_fmap_ext. intros i [k x] Hp%list_elem_of_lookup_2. specialize (Hu _ Hp). simpl in *.
      case_bool_decide as Hk; [|by destruct x]. subst k. by rewrite (Hu eq_refl).
    + unfold get_key in E. destruct (List.find _ m) as [[k x]|] eqn:Ef; [|done]. simplify_eq/=.
      apply find_some in Ef as [Hin _]. apply list_elem_of_In in Hin.
      destruct (proj1 (Forall_forall _ _) Hall _ Hin) as [y Hy]. simpl in Hy.
      destruct y as [| | | | |ms']; try done. destruct (to_go_obj ms') as (m' & Hm' & Hs' & _). congruence.
  - rewrite E. f_equal. symmetry. rewrite <-(list_fmap_id m) at 2. apply list_fmap_ext.
    intros i [k x] Hp%list_elem_of_lookup_2. simpl. destruct x; try done.
    rewrite bool_decide_false; [done|]. by apply (get_key_None _ _ _ E Hp).
Qed.

(** ** A value read on its own is the value read inside its body *)
Section inside.
Notation len := String.length.

(** A value nests no deeper further out. *)
Lemma depth_mono fuel :
  (∀ d d' s x, d' ≤ d → value fuel d s = Ok x → value fuel d' s = Ok x) ∧
  (∀ d d' s x, d' ≤ d → elements fuel d s = Ok x → elements fuel d' s = Ok x) ∧
  (∀ d d' s x, d' ≤ d → members fuel d s = Ok x → members fuel d' s = Ok x).
Proof.
  induction fuel as [|fuel (IHv & IHe & IHm)]; [by split_and!|].
  split_and!; intros d d' s x Hd Hx.
  - destruct s as [|a s]; [done|]. cbn [value] in *. case_bool_decide; [done|]. case_bool_decide.
    { case_bool_decide; [done|]. rewrite bool_decide_false by lia. destruct (skip_ws s) as [|b s2].
      { by apply result_bind_Ok in Hx as ([ms rest] & Hm%members_nonempty & _). }
      destruct (decide (b = "}"%char)) as [->|Hb]; [done|]. rewrite object_eq in * by done.
      apply result_bind_Ok in Hx as ([ms rest] & Hm & Hx). rewrite (IHm (d + 1) (d' + 1) _ _ ltac:(lia) Hm). done. }
    case_bool_decide; [|done].
    case_bool_decide; [done|]. rewrite bool_decide_false by lia. destruct (skip_ws s) as [|b s2].
    { by apply result_bind_Ok in Hx as ([ms rest] & Hm%elements_nonempty & _). }
    destruct (decide (b = "]"%char)) as [->|Hb]; [done|]. rewrite array_eq in * by done.
    apply result_bind_Ok in Hx as ([ms rest] & Hm & Hx). rewrite (IHe (d + 1) (d' + 1) _ _ ltac:(lia) Hm). done.
  - cbn [elements] in *. apply result_bind_Ok in Hx as ([v rest] & Hv & Hx). rewrite (IHv _ _ _ _ Hd Hv).
    cbn [mbind result_bind]. cbv zeta in *. destruct (skip_ws rest) as [|b s2]; [done|].
    destruct b as [[] [] [] [] [] [] [] []]; try done.
    apply result_bind_Ok in Hx as ([es rest'] & He & Hx). by rewrite (IHe _ _ _ _ Hd He).
  - cbn [members] in *. destruct s as [|a s]; [done|]. case_bool_decide; [|done].
    apply result_bind_Ok in Hx as ([key rest] & -> & Hx). cbn [mbind result_bind].
    destruct (skip_ws rest) as [|b s2]; [done|]. destruct b as [[] [] [] [] [] [] [] []]; try done. cbv zeta in *.
    apply result_bind_Ok in Hx as ([v rest1] & Hv & Hx). rewrite (IHv _ _ _ _ Hd Hv). cbn [mbind result_bind].
    cbv zeta in *. destruct (skip_ws rest1) as [|b s3]; [done|]. destruct b as [[] [] [] [] [] [] [] []]; try done.
    apply result_bind_Ok in Hx as ([es rest'] & He & Hx). by rewrite (IHm _ _ _ _ Hd He).
Qed.

(** What a value does not start with. *)
Definition no_start : list ascii := [" "; "009"; "010"; "013"; "]"; "}"; ","; ":"]%char.
Lemma value_head fuel d s x : value fuel d s = Ok x → ∃ a t, s = String a t ∧ a ∉ no_start.
Proof.
  intros Hv. destruct s as [|a t]; [by apply value_nonempty in Hv|]. exists a, t. split; [done|]. intros Ha.
  destruct fuel as [|fuel]; [done|]. revert Hv. unfold no_start in Ha. rewrite !elem_of_cons in Ha.
  repeat (destruct Ha as [->|Ha]; [done|]). by apply not_elem_of_nil in Ha.
Qed.

Lemma head_plain fuel d s x : value fuel d s = Ok x →
  ∃ a t, s = String a t ∧ is_ws a = false ∧ a ∉ ["]"; "}"]%char ∧ a ≠ ":"%char ∧ a ≠ ","%char.
Proof.
  intros (a & t & -> & Ha)%value_head. exists a, t. unfold no_start in Ha. rewrite !elem_of_cons in Ha.
  split; [done|]. split; [apply bool_decide_eq_false; rewrite !elem_of_cons; tauto|].
  split; [rewrite !elem_of_cons; tauto|]. tauto.
Qed.

(** One value where the decoder stands. *)
Lemma read_inside fuel d i s v rest : 0 ≤ d → value fuel d s = Ok (v, rest) → skip_ws i = s →
  read_value i = Some (v, consumed s rest, rest) ∧ Canonical (consumed s rest) = event_text (to_go v).
Proof.
  intros Hd Hv Hi. destruct (depth_mono fuel) as (Hm & _ & _). specialize (Hm _ 0 _ _ Hd Hv). split.
  - unfold read_value. rewrite Hi. by rewrite (value_any_fuel _ (2 * len s + 2) _ _ _ Hm) by lia.
  - apply canonical_text. destruct (value_swap fuel) as (Hsw & _ & _). destruct (Hsw _ _ _ _ Hm) as (c & Hc & -> & Ht).
    specialize (Ht EmptyString (λ _, or_introl eq_refl)). rewrite app_nil_str in Ht.
    rewrite consumed_exact. unfold decode_first. pose proof (head_plain _ _ _ _ Ht) as (a & t & -> & Ha & _).
    cbn [skip_ws]. rewrite Ha.
    by rewrite (value_any_fuel _ (2 * len (String a t) + 2) _ _ _ Ht) by lia.
Qed.

(** What a loop of the parser goes through in one turn. *)
Lemma elements_step fuel d s es rest : elements (S fuel) d s = Ok (es, rest) →
  ∃ v r1 b s2 es', value fuel d s = Ok (v, r1) ∧ skip_ws r1 = String b s2 ∧ es = (v, consumed s r1) :: es' ∧
    (b = ","%char ∧ elements fuel d (skip_ws s2) = Ok (es', rest) ∨ b = "]"%char ∧ es' = [] ∧ rest = s2).
Proof.
  cbn [elements]. intros He. apply result_bind_Ok in He as ([v r1] & Hv & He). cbv zeta in He.
  destruct (skip_ws r1) as [|b s2] eqn:E; [done|]. exists v, r1, b, s2.
  destruct b as [[] [] [] [] [] [] [] []]; try done; [simplify_eq; eauto 10|].
  apply result_bind_Ok in He as ([es' rest'] & He & ?). simplify_eq. eauto 10.
Qed.
Lemma members_step fuel d s ms rest : members (S fuel) d s = Ok (ms, rest) →
  ∃ s1 key r0 s2 v r1 b s3 ms', s = String quote s1 ∧ scan_string s1 = Some (key, r0) ∧
    skip_ws r0 = String ":" s2 ∧ value fuel d (skip_ws s2) = Ok (v, r1) ∧ skip_ws r1 = String b s3 ∧
    ms = (key, (v, consumed (skip_ws s2) r1)) :: ms' ∧
    (b = ","%char ∧ members fuel d (skip_ws s3) = Ok (ms', rest) ∨ b = "}"%char ∧ ms' = [] ∧ rest = s3).
Proof.
  cbn [members]. destruct s as [|b0 s1]; [done|]. case_bool_decide as H0; [subst b0|done]. intros Hm.
  apply result_bind_Ok in Hm as ([key r0] & Hk%of_option_Ok & Hm). destruct (skip_ws r0) as [|b s2] eqn:E0; [done|].
  assert (b = ":"%char) as -> by (destruct b as [[] [] [] [] [] [] [] []]; done). cbv zeta in Hm.
  apply result_bind_Ok in Hm as ([v r1] & Hv & Hm). cbv zeta in Hm. destruct (skip_ws r1) as [|b s3] eqn:E1; [done|].
  exists s1, key, r0, s2, v, r1, b, s3.
  destruct b as [[] [] [] [] [] [] [] []]; try done; [simplify_eq; eauto 12|].
  apply result_bind_Ok in Hm as ([ms' rest'] & He & ?). simplify_eq. eauto 12.
Qed.

(** Each element and each member takes a byte. *)
Lemma elements_count fuel d s es rest : elements fuel d s = Ok (es, rest) → (length es + len rest ≤ len s)%nat.
Proof.
  revert d s es rest. induction fuel as [|fuel IH]; intros d s es rest He; [done|].
  apply elements_step in He as (v & r1 & b & s2 & es' & Hv & E & -> & Hb).
  destruct (value_fine fuel) as (Hf & _ & _). destruct (Hf d s) as [_ Hl]. specialize (Hl _ _ Hv).
  pose proof (skip_ws_len r1) as H1. rewrite E in H1. pose proof (skip_ws_len s2). simpl in *.
  destruct Hb as [(_ & He%IH)|(_ & -> & ->)]; simpl; lia.
Qed.
Lemma members_count fuel d s ms rest : members fuel d s = Ok (ms, rest) → (length ms + len rest ≤ len s)%nat.
Proof.
  revert d s ms rest. induction fuel as [|fuel IH]; intros d s ms rest He; [done|].
  apply members_step in He as (s1 & key & r0 & s2 & v & r1 & b & s3 & ms' & -> & Hk%scan_string_len & E0 & Hv & E1 & -> & Hb).
  destruct (value_fine fuel) as (Hf & _ & _). destruct (Hf d (skip_ws s2)) as [_ Hl]. specialize (Hl _ _ Hv).
  pose proof (skip_ws_len r0) as H0. rewrite E0 in H0. pose proof (skip_ws_len r1) as H1. rewrite E1 in H1.
  pose proof (skip_ws_len s2). pose proof (skip_ws_len s3). simpl in *.
  destruct Hb as [(_ & He%IH)|(_ & -> & ->)]; simpl; lia.
Qed.

(** The first byte says which values are arrays and objects. *)
Lemma value_shape fuel d a s v rest : value fuel d (String a s) = Ok (v, rest) →
  match v with
  | JArr es => a = "["%char ∧ (es = [] ∧ skip_ws s = String "]" rest ∨
                               ∃ fuel', elements fuel' (d + 1) (skip_ws s) = Ok (es, rest))
  | JObj ms => a = "{"%char ∧ (ms = [] ∧ skip_ws s = String "}" rest ∨
                               ∃ fuel', members fuel' (d + 1) (skip_ws s) = Ok (ms, rest))
  | _ => a ∉ ["["; "{"]%char
  end.
Proof.
  destruct fuel as [|fuel]; [done|]. cbn [value]. intros Hv.
  case_bool_decide as Hq.
  { apply result_bind_Ok in Hv as ([? ?] & _ & ?). simplify_eq. by apply (bool_decide_unpack _). }
  case_bool_decide as Ho.
  { case_bool_decide; [done|]. destruct (skip_ws s) as [|b s2].
    { by apply result_bind_Ok in Hv as ([ms r] & Hm%members_nonempty & _). }
    destruct (decide (b = "}"%char)) as [->|Hb]; [simplify_eq; eauto|]. rewrite object_eq in Hv by done.
    apply result_bind_Ok in Hv as ([? ?] & ? & ?). simplify_eq. eauto. }
  case_bool_decide as Ha.
  { case_bool_decide; [done|]. destruct (skip_ws s) as [|b s2].
    { by apply result_bind_Ok in Hv as ([ms r] & Hm%elements_nonempty & _). }
    destruct (decide (b = "]"%char)) as [->|Hb]; [simplify_eq; eauto|]. rewrite array_eq in Hv by done.
    apply result_bind_Ok in Hv as ([es r] & He & ?). simplify_eq. eauto. }
  assert (a ∉ ["["; "{"]%char) as Hno by (rewrite !elem_of_cons; intros [?|[?|?%not_elem_of_nil]]; done).
  destruct (is_digit a || bool_decide (a = "-"%char)).
  { apply result_bind_Ok in Hv as ([? ?] & _ & ?). by simplify_eq. }
  apply of_option_Ok in Hv. unfold scan_literal in Hv.
  destruct (filter _ literals) as [|[w v'] l] eqn:E; [done|]. simplify_eq.
  assert ((w, v) ∈ filter (λ l, has_prefix (String a s) l.1 = true) literals) as [_ Hin]%list_elem_of_filter
    by (rewrite E; left).
  unfold literals in Hin. rewrite !elem_of_cons in Hin.
  by destruct Hin as [Hin|[Hin|[Hin|Hin%not_elem_of_nil]]]; simplify_eq.
Qed.

(** A delimiter is what [Token] sees next. *)
Lemma token_delim st d c d' : token_at st d = Some (Delim c, d') → ∃ t, skip_ws (d_in d) = String c t.
Proof.
  unfold token_at, peek. destruct (skip_ws (d_in d)) as [|c' t]; [done|]. cbn [mbind option_bind]. intros Ht.
  enough (c' = c) as -> by eauto. revert Ht.
  destruct (read_value (d_in d)) as [[[v raw] r]|]; cbn [mbind option_bind];
    destruct (pop t (d_stack d)) as [d2|]; cbn [mbind option_bind];
    repeat case_bool_decide; destruct st; cbn; try destruct v; naive_solver.
Qed.
End inside.

(** ** Scanning collects *)
Section collects.
Context {St : Type} (f : string → string → St → St).
Notation len := String.length.

(** The decoder in front of the value at [s]. *)
Definition in_front (i : string) (st : token_state) (s : string) : Prop :=
  st = ArrayStart ∧ skip_ws i = s ∨ st = ArrayComma ∧ ∃ s', skip_ws i = String "," s' ∧ skip_ws s' = s.

Lemma decode_inside fuel d i st s stack v rest :
  0 ≤ d → value fuel d s = Ok (v, rest) → in_front i st s →
  More (Dec i st stack) = true ∧
  Decode (Dec i st stack) = Some (v, consumed s rest, Dec rest ArrayComma stack) ∧
  Canonical (consumed s rest) = event_text (to_go v).
Proof.
  intros Hd Hv Hi. destruct (head_plain _ _ _ _ Hv) as (a & t & Hs & Ha & Hb & Hc).
  destruct Hi as [[-> Hi]|[-> (s' & Hi & Hs')]].
  - destruct (read_inside _ _ i _ _ _ Hd Hv Hi) as [Hr Hcan]. rewrite Hs in Hi. split_and!; [| |done].
    + unfold More. rewrite (peek_at _ _ _ _ _ Hi). by rewrite bool_decide_false.
    + unfold Decode. cbn [d_state d_stack d_in]. destruct (peek (Dec i ArrayStart stack)) as [[? ?]|]; cbn; by rewrite Hr.
  - destruct (read_inside _ _ s' _ _ _ Hd Hv Hs') as [Hr Hcan]. split_and!; [| |done].
    + unfold More. by rewrite (peek_at _ _ _ _ _ Hi).
    + unfold Decode. cbn [d_state d_stack]. rewrite (peek_at _ _ _ _ _ Hi). cbn. by rewrite Hr.
Qed.

(** What a loop over an array ends in: all the events there, or an error. *)
Definition scans_to (r : Z * decoder * St * option error) (array : string) (es : list (json * string))
    (n : Z) (dec : decoder) (s : St) : Prop :=
  match mapM (λ e, event_text (to_go e.1)) es with
  | Some cs => r = (n + Z.of_nat (length es), dec, visits f array cs s, None)
  | None => is_Some r.2
  end.

Lemma scan_elements_inside fuel d i st s es rest scan array n stack acc :
  0 ≤ d → elements fuel d s = Ok (es, rest) → in_front i st s → (length es < scan)%nat →
  scans_to (scan_elements (visiting f) scan array n (Dec i st (ObjectValue :: stack)) acc)
    array es n (Dec rest ObjectComma stack) acc.
Proof.
  intros Hd. revert i st s es rest scan n acc. induction fuel as [|fuel IH]; intros i st s es rest scan n acc He Hi Hf;
    [done|]. apply elements_step in He as (v & r1 & b & s2 & es' & Hv & E & -> & Hb).
  destruct scan as [|scan]; [lia|]. cbn [scan_elements].
  destruct (decode_inside _ _ _ _ _ (ObjectValue :: stack) _ _ Hd Hv Hi) as (-> & -> & ->).
  unfold scans_to. cbn [mapM fst]. destruct (event_text (to_go v)) as [c|]; cbn [mbind option_bind]; [|done].
  cbn [visiting length] in *. destruct Hb as [(-> & He)|(-> & -> & ->)]; swap 1 2.
  - cbn [mapM mret option_ret]. destruct scan as [|scan]; [lia|]. cbn [scan_elements].
    unfold More, Token. cbn [d_state]. rewrite !(peek_at _ _ _ _ _ E). cbn -[peek].
    unfold token_at. rewrite (peek_at _ _ _ _ _ E). done.
  - assert (length es' < scan)%nat as Hf' by lia.
    specialize (IH r1 ArrayComma _ _ _ scan (n + 1) (f array c acc) He
      (or_intror (conj eq_refl (ex_intro _ s2 (conj E eq_refl)))) Hf').
    unfold scans_to in IH. destruct (mapM _ es') as [cs|]; cbn [mbind option_bind mret option_ret]; [|done].
    rewrite IH. do 3 f_equal. lia.
Qed.

(** The member after its colon: skipped, or scanned as an array. *)
Lemma member_inside fuel d i s v rest stack array acc :
  0 ≤ d → skip_ws i = String ":" s → value fuel d (skip_ws s) = Ok (v, rest) →
  Decode (Dec i ObjectColon stack) = Some (v, consumed (skip_ws s) rest, Dec rest ObjectComma stack) ∧
  let r := scanArray (visiting f) (Dec i ObjectColon stack) array acc in
  match v with JArr es => scans_to r array es 0 (Dec rest ObjectComma stack) acc | _ => is_Some r.2 end.
Proof.
  intros Hd Hi Hv. split.
  { unfold Decode. cbn [d_state d_stack]. rewrite (peek_at _ _ _ _ _ Hi). cbn.
    by destruct (read_inside _ _ s _ _ _ Hd Hv eq_refl) as [-> _]. }
  cbv zeta. unfold scanArray, Token. cbn [d_state]. rewrite (peek_at _ _ _ _ _ Hi). cbn [d_stack].
  destruct (head_plain _ _ _ _ Hv) as (a & t & Hs & Ha & _). rewrite Hs in Hv. apply value_shape in Hv.
  assert (a ≠ "["%char → is_Some (match token_at ObjectValue (Dec s ObjectValue stack) with
    | Some (Delim "["%char, dec) => scan_elements (visiting f) (S (len (d_in dec))) array 0 dec acc
    | _ => (0, Dec i ObjectColon stack, acc, Some (ErrText "expected array")) end).2) as Hno.
  { intros Hne. destruct (token_at _ _) as [[[c| |] d2]|] eqn:E; try done.
    destruct (decide (c = "["%char)) as [->|]; [|destruct c as [[] [] [] [] [] [] [] []]; done].
    apply token_delim in E as [t' E]. cbn [d_in] in E. rewrite Hs in E. by simplify_eq. }
  destruct v as [| | | |es|ms]; try (apply Hno; destruct Hv as [-> _] || rewrite elem_of_cons in Hv; tauto || done).
  destruct Hv as [-> Hes].
  clear Hno. unfold token_at at 1. rewrite (peek_at _ _ _ _ _ Hs). cbn [mbind option_bind].
  rewrite bool_decide_true by done. cbn [value_allowed d_stack d_in].
  destruct Hes as [[-> E]|[fuel' He]].
  - cbn [scan_elements]. unfold More, Token. cbn [d_state]. rewrite !(peek_at _ _ _ _ _ E). cbn -[peek].
    unfold token_at. by rewrite (peek_at _ _ _ _ _ E).
  - apply (scan_elements_inside fuel' (d + 1) t ArrayStart (skip_ws t) es rest); [lia|done|by left|].
    apply elements_count in He. pose proof (skip_ws_len t). lia.
Qed.
End collects.

(** ** The members *)
Definition keep (array canonical : string) (s : list string * list string) : list string * list string :=
  if bool_decide (array = ArrayPDUs) then (s.1 ++ [canonical], s.2)
  else if bool_decide (array = ArrayAuthChain) then (s.1, s.2 ++ [canonical]) else s.

Lemma visits_keep array cs s : visits keep array cs s =
  if bool_decide (array = ArrayPDUs) then (s.1 ++ cs, s.2)
  else if bool_decide (array = ArrayAuthChain) then (s.1, s.2 ++ cs) else s.
Proof.
  revert s. induction cs as [|c cs IH]; intros s.
  { cbn. rewrite !app_nil_r. destruct s. by repeat case_bool_decide. }
  change (visits keep array (c :: cs) s) with (visits keep array cs (keep array c s)). rewrite IH. unfold keep.
  repeat case_bool_decide; cbn [fst snd]; by rewrite <-?app_assoc.
Qed.

(** The decoder in front of the member at [s]. *)
Definition at_key (i : string) (st : token_state) (s : string) : Prop :=
  st = ObjectStart ∧ skip_ws i = s ∨ st = ObjectComma ∧ ∃ s', skip_ws i = String "," s' ∧ skip_ws s' = s.

Lemma key_inside i st s1 stack key rest : at_key i st (String quote s1) → scan_string s1 = Some (key, rest) →
  More (Dec i st stack) = true ∧ Token (Dec i st stack) = Some (StrTok (unquote key), Dec rest ObjectColon stack).
Proof.
  intros Hi Hk.
  assert (∀ i, skip_ws i = String quote s1 →
    read_value i = Some (JStr key, consumed (String quote s1) rest, rest)) as Hr.
  { intros i' Hi'. apply (read_inside 1 0); [lia| |done]. cbn [value]. by rewrite Hk. }
  destruct Hi as [[-> Hi]|[-> (s' & Hi & Hs')]]; unfold More, Token; cbn [d_state d_stack];
    rewrite !(peek_at _ _ _ _ _ Hi).
  - split; [done|]. unfold token_at. rewrite !(peek_at _ _ _ _ _ Hi). cbn -[read_value].
    by rewrite (Hr _ Hi).
  - split; [done|]. unfold token_at. rewrite !(peek_at _ _ _ _ _ Hs'). cbn -[read_value].
    by rewrite (Hr _ Hs').
Qed.

Notation decoded := (λ m : string * (json * string), (unquote m.1, to_go m.2.1)).

(** What the loop over the members ends in. *)
Definition collects_to {A B} (r : A * B * (list string * list string) * option error) (ms : list (string * (json * string)))
    (acc : list string * list string) : Prop :=
  match collect (decoded <$> ms) with
  | Some (pdus, chain) => r.1.2 = (acc.1 ++ pdus, acc.2 ++ chain) ∧ r.2 = None
  | None => is_Some r.2
  end.

Lemma event_texts es : mapM event_text ((λ e : json * string, to_go e.1) <$> es) = mapM (λ e, event_text (to_go e.1)) es.
Proof. induction es as [|e es IH]; [done|]. cbn [fmap list_fmap mapM]. by rewrite IH. Qed.

Lemma scan_events (r : Z * decoder * (list string * list string) * option error) array v dec acc :
  match v with JArr es => scans_to keep r array es 0 dec acc | _ => is_Some r.2 end →
  match match to_go v with GArr l => mapM event_text l | _ => None end with
  | Some cs => ∃ n, r = (n, dec, visits keep array cs acc, None)
  | None => is_Some r.2
  end.
Proof.
  destruct v as [| | | |es|ms]; try done.
  rewrite to_go_arr, event_texts. unfold scans_to. destruct (mapM _ es); eauto.
Qed.

(** One member, and the loop on the rest. *)
Lemma scan_member dec dec1 dec2 key v raw text ms scan p a acc :
  More dec = true → Token dec = Some (StrTok (unquote key), dec1) → Decode dec1 = Some (v, text, dec2) →
  (∀ array, let r := scanArray (visiting keep) dec1 array acc in
     match v with JArr es => scans_to keep r array es 0 dec2 acc | _ => is_Some r.2 end) →
  (∀ p a acc, collects_to (scan_members (visiting keep) scan p a dec2 acc) ms acc) →
  collects_to (scan_members (visiting keep) (S scan) p a dec acc) ((key, (v, raw)) :: ms) acc.
Proof.
  intros HM HT HD Hmem Hrest. cbn [scan_members]. rewrite HM, HT. cbv zeta beta iota. clear HM HT.
  unfold collects_to in *. cbn [fmap list_fmap collect fst snd].
  destruct (decide (unquote key = ArrayPDUs)) as [Ek|Np]; [|destruct (decide (unquote key = ArrayAuthChain)) as [Ek|Nc]].
  - rewrite Ek. specialize (Hmem ArrayPDUs). apply scan_events in Hmem.
    change (bool_decide (ArrayPDUs = ArrayPDUs)) with true.
    change (bool_decide (ArrayPDUs ∈ ["pdus"; "auth_chain"]%string)) with true.
    change (bool_decide (ArrayPDUs = "pdus"%string)) with true. cbv iota.
    destruct (scanArray _ _ _ _) as [[[n dec'] s'] e'], (match to_go v with GArr l => _ | _ => None end) as [cs|];
      [|destruct e' as [e'|]; [by eexists|by destruct Hmem]].
    destruct Hmem as [n' [= -> -> -> ->]]. specialize (Hrest n' a (visits keep ArrayPDUs cs acc)).
    rewrite visits_keep in *. cbn [mbind option_bind]. destruct (collect _) as [[pd ch]|]; [|done].
    cbn [mbind option_bind]. rewrite bool_decide_true in * by done. cbn [fst snd] in Hrest. by rewrite app_assoc.
  - rewrite Ek. specialize (Hmem ArrayAuthChain). apply scan_events in Hmem.
    change (bool_decide (ArrayAuthChain = ArrayPDUs)) with false.
    change (bool_decide (ArrayAuthChain = ArrayAuthChain)) with true.
    change (bool_decide (ArrayAuthChain ∈ ["pdus"; "auth_chain"]%string)) with true.
    change (bool_decide (ArrayAuthChain = "pdus"%string)) with false.
    change (bool_decide (ArrayAuthChain = "auth_chain"%string)) with true. cbv iota.
    destruct (scanArray _ _ _ _) as [[[n dec'] s'] e'], (match to_go v with GArr l => _ | _ => None end) as [cs|];
      [|destruct e' as [e'|]; [by eexists|by destruct Hmem]].
    destruct Hmem as [n' [= -> -> -> ->]]. specialize (Hrest p n' (visits keep ArrayAuthChain cs acc)).
    rewrite visits_keep in *. cbn [mbind option_bind]. destruct (collect _) as [[pd ch]|]; [|done].
    cbn [mbind option_bind]. rewrite bool_decide_false, bool_decide_true in * by done. cbn [fst snd] in Hrest.
    by rewrite app_assoc.
  - rewrite HD. specialize (Hrest p a acc).
    change "pdus"%string with ArrayPDUs. change "auth_chain"%string with ArrayAuthChain.
    rewrite !bool_decide_false; try done; [|rewrite !elem_of_cons; intros [?|[?|?%not_elem_of_nil]]; done].
    cbn [mbind option_bind]. destruct (collect _) as [[pd ch]|]; done.
Qed.

Lemma scan_members_inside fuel d i st s ms rest scan p a acc :
  0 ≤ d → members fuel d s = Ok (ms, rest) → at_key i st s → (length ms < scan)%nat →
  collects_to (scan_members (visiting keep) scan p a (Dec i st [TopValue]) acc) ms acc.
Proof.
  intros Hd. revert i st s ms scan p a acc. induction fuel as [|fuel IH];
    intros i st s ms scan p a acc Hm Hi Hf; [done|].
  apply members_step in Hm as (s1 & key & r0 & s2 & v & r1 & b & s3 & ms' & -> & Hk & E0 & Hv & E1 & -> & Hb).
  destruct scan as [|scan]; [lia|]. cbn [length] in Hf. destruct (key_inside _ _ _ [TopValue] _ _ Hi Hk) as [HM HT].
  pose proof (λ array, member_inside keep _ _ _ _ _ _ [TopValue] array acc Hd E0 Hv) as Hmem.
  eapply scan_member; [exact HM|exact HT|apply (Hmem EmptyString)|intros array; apply Hmem|].
  intros p' a' acc'. destruct Hb as [(-> & Hm)|(-> & -> & ->)].
  - eapply IH; [done| |lia]. right. eauto.
  - destruct scan as [|scan]; [lia|]. cbn [scan_members]. unfold More, Token. cbn [d_state].
    rewrite !(peek_at _ _ _ _ _ E1). cbn -[peek]. unfold token_at. rewrite (peek_at _ _ _ _ _ E1). cbn.
    unfold collects_to. cbn. by rewrite !app_nil_r, <-surjective_pairing.
Qed.

(** The arrays of a body are those of its decoded members. *)
Lemma arrays_listed body v : decode_first body = Some v → arrays body = listed v.
Proof.
  unfold decode_first. destruct (value _ 0 (skip_ws body)) as [[v' rest]|] eqn:E; [|done]. intros [= ->].
  destruct (head_plain _ _ _ _ E) as (a & t & Hs & Hw & _ & Hc & Hk). rewrite Hs in E. apply value_shape in E.
  unfold arrays, ScanStateResponse. change keep_visit with (visiting keep).
  assert (a ≠ "{"%char → (match Token (NewDecoder body) with
    | Some (Delim "{"%char, dec) => scan_members (visiting keep) (S (String.length body)) 0 0 dec ([], [])
    | _ => (0, 0, ([], []), Some (ErrText "state response: expected object")) end).2 ≠ None) as Hno.
  { intros Hne. destruct (Token _) as [[[c| |] d2]|] eqn:Et; try done.
    destruct (decide (c = "{"%char)) as [->|]; [|destruct c as [[] [] [] [] [] [] [] []]; done].
    assert (token_at TopValue (NewDecoder body) = Some (Delim "{", d2)) as Ht.
    { revert Et. unfold Token. cbn [d_state NewDecoder]. unfold NewDecoder. rewrite (peek_at _ _ _ _ _ Hs).
      by destruct a as [[] [] [] [] [] [] [] []]. }
    apply token_delim in Ht as [t' Ht]. cbn [d_in NewDecoder] in Ht. rewrite Hs in Ht. by simplify_eq. }
  assert (a ≠ "{"%char → (match (match Token (NewDecoder body) with
    | Some (Delim "{"%char, dec) => scan_members (visiting keep) (S (String.length body)) 0 0 dec ([], [])
    | _ => (0, 0, ([], []), Some (ErrText "state response: expected object")) end)
    with (_, s, None) => Some s | _ => None end) = None) as Hnone.
  { intros Hne. specialize (Hno Hne). by destruct (match Token _ with Some _ => _ | None => _ end) as [[[? ?] ?] [?|]]. }
  clear Hno. destruct v as [| | | |es|ms];
    try (apply Hnone; first [destruct E as [-> _]; done|revert E; rewrite !elem_of_cons; tauto]).
  destruct E as [-> Hms]. clear Hnone.
  assert (Token (NewDecoder body) = Some (Delim "{", Dec t ObjectStart [TopValue])) as ->.
  { unfold Token, NewDecoder. cbn [d_state]. rewrite (peek_at _ _ _ _ _ Hs). cbn -[peek]. unfold token_at.
    by rewrite (peek_at _ _ _ _ _ Hs). }
  destruct Hms as [[-> E]|[fuel E]].
  - cbn [scan_members]. unfold More, Token. cbn [d_state]. rewrite !(peek_at _ _ _ _ _ E). cbn -[peek].
    unfold token_at. by rewrite (peek_at _ _ _ _ _ E).
  - assert (length ms < S (String.length body))%nat as Hl.
    { apply members_count in E. pose proof (skip_ws_len t). pose proof (skip_ws_len body) as Hb. rewrite Hs in Hb.
      simpl in Hb. lia. }
    pose proof (scan_members_inside _ (0 + 1) t ObjectStart _ _ _ _ 0 0 ([], []) ltac:(lia) E
      (or_introl (conj eq_refl eq_refl)) Hl) as Hc'.
    unfold collects_to in Hc'. unfold listed. destruct (scan_members _ _ _ _ _ _) as [[[p q] s] e].
    cbn [fst snd] in Hc'. destruct (collect _) as [[pd ch]|]; [by destruct Hc' as [-> ->]|].
    by destruct e; [|destruct Hc'].
Qed.

(** ** What the digests identify *)
Section identifies.
Context `{!External}.

(** C29. The digests of a /state response depend on the two multisets of its
    events' canonical forms only, and on all of them.  Scanning the text of a body
    fails exactly if a member [pdus] or [auth_chain] is not an array of events
    ([listed], read off the decoded body).  Of two bodies that can be scanned, the
    digests agree exactly if, in both arrays, the sums of the hashes of the
    canonical forms agree modulo [2^256]: so the order of the events, white space,
    the order of an event's keys, the value of its age and what Synapse's cache
    adds to it are immaterial, and one more copy of an event, unlike with XOR,
    changes the digests unless its hash is zero. *)
Theorem digest_multiset body other v w :
  decode_first body = Some v → decode_first other = Some w →
  let '(r, e) := DigestStateResponse body in let '(r', e') := DigestStateResponse other in
  (e = None ↔ is_Some (listed v)) ∧
  ∀ pdus chain pdus' chain', listed v = Some (pdus, chain) → listed w = Some (pdus', chain') →
    let same cs cs' := Zsum (hash <$> cs) mod 2 ^ 256 = Zsum (hash <$> cs') mod 2 ^ 256 in
    (Agrees r r' = true ↔ same pdus pdus' ∧ same chain chain') ∧
    (pdus ≡ₚ pdus' → chain ≡ₚ chain' → Agrees r r' = true) ∧
    (∀ c, pdus ≡ₚ c :: pdus' ∧ chain ≡ₚ chain' ∨ pdus ≡ₚ pdus' ∧ chain ≡ₚ c :: chain' →
      Agrees r r' = true ↔ hash c mod 2 ^ 256 = 0).
Proof.
  intros Hv Hw. pose proof (digest_arrays body) as H1. pose proof (digest_arrays other) as H2.
  rewrite (arrays_listed _ _ Hv) in H1. rewrite (arrays_listed _ _ Hw) in H2.
  destruct (DigestStateResponse body) as [r e], (DigestStateResponse other) as [r' e'].
  split. { destruct (listed v) as [[? ?]|]; [naive_solver|]. destruct H1 as [? ->]. by split; [|intros [? ?]]. }
  intros pdus chain pdus' chain' E1 E2. rewrite E1 in H1. rewrite E2 in H2. clear E1 E2. destruct H1 as (_ & Hp & Hc), H2 as (_ & Hp' & Hc'). cbv zeta.
  assert (Agrees r r' = true ↔ Zsum (hash <$> pdus) mod 2 ^ 256 = Zsum (hash <$> pdus') mod 2 ^ 256 ∧
    Zsum (hash <$> chain) mod 2 ^ 256 = Zsum (hash <$> chain') mod 2 ^ 256) as Ha.
  { unfold Agrees. rewrite andb_true_iff, !bool_decide_eq_true, Hp, Hc, Hp', Hc'. by rewrite !digest_sums. }
  split_and!; [done|by intros E1 E2; apply Ha; rewrite E1, E2|].
  intros c [[E1 E2]|[E1 E2]]; rewrite Ha, E1, E2, one_more; tauto.
Qed.
End identifies.

(** Two events, and the same ones with other white space, ages, key and array order. *)
Lemma digest_multiset_witness :
  let digests := DigestStateResponse (H := Sample.ext) in
  let one := js "{'pdus':[{'a':1,'unsigned':{'age':5}},{'b':'x'}],'auth_chain':[{'a':1}]}" in
  let two := js " { 'auth_chain' : [{'a':1}], 'x':[{}],
    'pdus' : [ {'b': 'x'} , {'unsigned':{'prev_sender':'@x:y','age':77} , 'a':1} ] } " in
  Agrees (digests one).1 (digests two).1 = true ∧ (digests one).2 = None.
Proof.
  intros digests one two.
  destruct (decode_first one) as [v|] eqn:Ev; [|by vm_compute in Ev].
  destruct (decode_first two) as [w|] eqn:Ew; [|by vm_compute in Ew].
  pose proof (digest_multiset (H := Sample.ext) one two v w Ev Ew) as Hd.
  unfold digests. destruct (DigestStateResponse one) as [r e], (DigestStateResponse two) as [r' e'].
  destruct Hd as [He Hd]. cbn [fst snd]. vm_compute in Ev, Ew. injection Ev as <-. injection Ew as <-.
  match type of Hd with context [listed ?v = _] => set (v1 := v) in * end.
  destruct (listed v1) as [[pdus chain]|] eqn:E1; [|by vm_compute in E1].
  match type of Hd with context [listed ?w = Some (_, _) → let _ := _ in _] => set (v2 := w) in * end.
  destruct (listed v2) as [[pdus' chain']|] eqn:E2; [|by vm_compute in E2].
  destruct (Hd _ _ _ _ eq_refl eq_refl) as (_ & Hp & _). clear Hd. split; [|by apply He].
  vm_compute in E1, E2. injection E1 as <- <-. injection E2 as <- <-. apply Hp; [apply perm_swap|reflexivity].
Defined.
