(* ===== verification/Resolver.v ===== *)
(** * [internal/matrixstate]: the resolver behind the federation endpoints

    The access check, /state_ids, /event, /get_missing_events and the streamed
    /state.  A resolver call runs in [R]: the store's world and the cache of
    parsed ACLs. *)
From S2P Require Import Prelude Cache Json Store AuthChain StateGroups MissingEvents External Events Acl Pducmp Wire Digest.

Open Scope Z_scope.

(** ** Errors ([errors.go]) *)
Definition errHostNotInRoom : error := MatrixError 403 "M_FORBIDDEN" "Host not in room.".
Definition errPartialState : error :=
  MatrixError 403 "M_UNABLE_DUE_TO_PARTIAL_STATE" "Unable to authorise you right now; room is partial-stated here.".
Definition errServerBanned : error := MatrixError 403 "M_FORBIDDEN" "Server is banned from room".
Definition errEventNotFound (eventID : string) : error :=
  MatrixError 404 "M_NOT_FOUND" ("Could not find event " +:+ eventID).
Definition errEventNotInRoom (eventID roomID : string) : error :=
  MatrixError 404 "M_NOT_FOUND" ("Could not find event " +:+ eventID +:+ " in room " +:+ roomID).
Definition errStateNotKnown (eventID : string) : error :=
  MatrixError 404 "M_NOT_FOUND" ("State not known at event " +:+ eventID).
Definition ErrBadJSON : error := MatrixError 400 "M_NOT_JSON" "Content not JSON.".

(** The body and the status of a [MatrixError]. *)
Definition Response (status : Z) (code msg : string) : string * Z :=
  ("{" +:+ encode_string "errcode" +:+ ":" +:+ encode_string code +:+ ","
       +:+ encode_string "error" +:+ ":" +:+ encode_string msg +:+ "}", status).

(** ** The monad *)
Notation acl_cache := (LRU.t string (option ServerACL)).
Record rworld := RW { rw_world : world; rw_acls : acl_cache }.
Definition R (A : Type) : Type := rworld → result error A * rworld.

#[export] Instance R_ret : MRet R := λ A a w, (Ok a, w).
#[export] Instance R_bind : MBind R := λ A B f m w,
  match m w with
  | (Ok a, w') => f a w'
  | (Err e, w') => (Err e, w')
  end.
Definition rfail {A} (e : error) : R A := λ w, (Err e, w).
Definition rtry {A} (m : R A) : R (result error A) := λ w, let '(r, w') := m w in (Ok r, w').
Definition lift {A} (m : M A) : R A := λ w,
  let '(r, w') := m (rw_world w) in (r, RW w' (rw_acls w)).
Definition get_acls (id : string) : R (option (option ServerACL)) := λ w,
  let '(r, c) := LRU.Get id (rw_acls w) in (Ok r, RW (rw_world w) c).
Definition add_acls (id : string) (a : option ServerACL) : R unit := λ w,
  (Ok tt, RW (rw_world w) (LRU.Add id a (rw_acls w))).

(** ** ACLs and access ([stateids.go]) *)

(** The length of the regular expression's text. *)
Definition is_meta (r : Z) : bool := bool_decide (Utf8.chr r ∈ list_ascii_of_string "\.+*?()|[]{}^$") && bool_decide (r < 128).
Definition item_len (i : item) : Z :=
  match i with
  | Lit r => str_len (Utf8.encode r) + (if is_meta r then 1 else 0)
  | Gap n at_least => 3 + str_len (print_int (Z.of_nat n)) + (if at_least then 1 else 0)
  end.
Definition regex_len (re : list item) : Z := str_len "(?i)\A\z" + Zsum (item_len <$> re).

Definition sizeOfACL (acl : option ServerACL) : Z :=
  match acl with
  | None => 64
  | Some a => 128 + Zsum ((λ re, regex_len re + 256) <$> allow a) + Zsum ((λ re, regex_len re + 256) <$> deny a)
  end.

Definition NewResolver (w : world) : rworld := RW w (LRU.NewLRU "server_acls" (Settings.MB 8) sizeOfACL).

Section resolver.
Context `{!External}.

Definition serverACL (roomID : string) : R (option ServerACL) :=
  r ← rtry (lift (GetCurrentStateEvent roomID "m.room.server_acl" EmptyString));
  match r with
  | Err e => if is_not_found e then mret None else rfail (Wrapped "load server acl" e)
  | Ok (eventID, raw) =>
      hit ← get_acls eventID;
      match hit with
      | Some acl => mret acl
      | None =>
          let acl := ParseServerACL raw in
          add_acls eventID acl;;
          mret acl
      end
  end.

Definition checkAccess (origin roomID : string) : R unit :=
  partial ← lift (wrap "partial state check" (IsPartialStateRoom roomID));
  if (partial : bool) then rfail errPartialState else
  inRoom ← lift (wrap "membership check" (IsHostInRoom roomID origin));
  if negb (inRoom : bool) then rfail errHostNotInRoom else
  acl ← serverACL roomID;
  if negb (Allowed acl origin) then rfail errServerBanned else mret tt.

(** ** /state_ids *)
Definition stateIDsForEvent (roomID eventID : string) : M (list string) :=
  r ← try (GetEvent eventID);
  match r with
  | Err e => fail (if is_not_found e then errEventNotFound eventID else Wrapped "get event" e)
  | Ok ev =>
      if bool_decide (RoomID ev ≠ roomID) then fail (errEventNotInRoom eventID roomID)
      else if bool_decide (RejectedReason ev ≠ EmptyString) then fail (errEventNotFound eventID)
      else if Outlier ev then fail (errStateNotKnown eventID)
      else
        r ← try (GetStateGroupForEvent eventID);
        match r with
        | Err e => fail (if is_not_found e then errStateNotKnown eventID else Wrapped "state group" e)
        | Ok group =>
            state ← wrap "state for group" (GetStateForGroup group);
            let skip := SK (Type_ ev) <$> StateKey_ ev in
            let replacement := if IsStateEvent ev then replacesState (JSON ev) else EmptyString in
            mret (omap (λ p : StateKey * string,
                    if bool_decide (skip = Some p.1) then
                      if bool_decide (replacement = EmptyString) then None else Some replacement
                    else Some p.2)
                  (map_to_list (state : StateMap)))
        end
  end.

Record StateIDsResponse := SIR { PDUIDs : list string; AuthChainIDs : list string }.

Definition computeStateIDs (roomID eventID : string) : M StateIDsResponse :=
  stateIDs ← stateIDsForEvent roomID eventID;
  p ← wrap "auth chain" (GetAuthChainIDsWithFallback sha256 roomID stateIDs);
  mret (SIR stateIDs p.1).

(** [coalesce.go].  Concurrent calls for one event share one computation
    ([singleflight]).  What a caller waits for: its own computation ([None]), or
    the outcome of one that was already running or that it stopped waiting for. *)
Inductive flight_outcome :=
| Delivered (r : result error StateIDsResponse)
| Abandoned (cause : error).

Definition cloneStateIDs (r : StateIDsResponse) : StateIDsResponse := SIR (PDUIDs r) (AuthChainIDs r).

Definition do_flight (other : option flight_outcome) (fn : M StateIDsResponse) : M StateIDsResponse :=
  match other with
  | None => r ← fn; mret (cloneStateIDs r)
  | Some (Delivered r) =>
      record_ Trace.MarkJoined;;
      match r with Ok r => mret (cloneStateIDs r) | Err e => fail e end
  | Some (Abandoned cause) => fail (Wrapped "state_ids: waiting for shared computation" cause)
  end.

Definition StateIDs (other : option flight_outcome) (origin roomID eventID : string) : R StateIDsResponse :=
  checkAccess origin roomID;;
  lift (do_flight other (computeStateIDs roomID eventID)).

(** ** Visibility ([visibility.go], [event.go]) *)
Definition HistoryVisibilityShared : string := "shared".
Definition HistoryVisibilityInvited : string := "invited".
Definition HistoryVisibilityJoined : string := "joined".
Definition MembershipJoin : string := "join".
Definition MembershipInvite : string := "invite".
Definition historyVisibilityType : string := "m.room.history_visibility".

Record Membership := MkMembership { UserID : string; Membership_ : string }.

Definition restricted (vis : string) : bool :=
  bool_decide (vis = HistoryVisibilityInvited) || bool_decide (vis = HistoryVisibilityJoined).

Definition eventVisibleToServer (sender historyVisibility : string) (erasedSenders : gset string)
    (partialStateInvisible : bool) (memberships : list Membership) : bool :=
  if bool_decide (sender ∈ erasedSenders) then false
  else if partialStateInvisible then false
  else if negb (restricted historyVisibility) then true
  else existsb (λ m,
         bool_decide (Membership_ m = MembershipJoin) ||
         bool_decide (Membership_ m = MembershipInvite) && bool_decide (historyVisibility = HistoryVisibilityInvited))
       memberships.

Definition domainOf (id : string) : string :=
  let '(_, domain, found) := cut colon id in if found then domain else EmptyString.

(** The membership events of the target server, by event ID. *)
Definition server_members (targetServer : string) (state : StateMap) : list (string * string) :=
  (λ p : StateKey * string, (p.2, sk_key p.1)) <$>
    filter (λ p, domainOf (sk_key p.1) = targetServer) (map_to_list state).

Definition visibilityAt (ev : Event) (targetServer : string) : M (string * list Membership) :=
  if Outlier ev then mret (HistoryVisibilityShared, []) else
  r ← try (GetStateGroupForEvent (EventID ev));
  match r with
  | Err e => if is_not_found e then mret (HistoryVisibilityShared, []) else fail (Wrapped "state group" e)
  | Ok group =>
      state ← wrap "history visibility state" (GetFilteredStateForGroup group [historyVisibilityType]);
      vis ← (match (state : StateMap) !! SK historyVisibilityType EmptyString with
             | None => mret HistoryVisibilityShared
             | Some visEventID =>
                 r ← try (GetEvent visEventID);
                 mret (match r with
                       | Ok visEvent =>
                           let v := historyVisibilityOf (JSON visEvent) in
                           if bool_decide (v = EmptyString) then HistoryVisibilityShared else v
                       | Err _ => HistoryVisibilityShared
                       end)
             end);
      if negb (restricted vis) then mret (vis, []) else
      memberState ← wrap "membership state" (GetServerMembershipStateForGroup group targetServer);
      let keyOf := server_members targetServer memberState in
      match keyOf with
      | [] => mret (vis, [])
      | _ =>
          events ← wrap "membership events" (GetEvents keyOf.*1);
          mret (vis, (λ p : string * Event,
                        MkMembership (default EmptyString ((list_to_map keyOf : gmap string string) !! p.1))
                                     (membershipOf (JSON p.2))) <$> map_to_list (events : EventMap))
      end
  end.

Definition eventVisibleInRoom (ev : Event) (targetServer localServer : string) (partialStateRoom : bool) : M bool :=
  match senderOf (JSON ev) with
  | None => fail (ErrText "parse sender")
  | Some sender =>
      erased ← wrap "erased users" (AreUsersErased [sender]);
      let partialStateInvisible := partialStateRoom && negb (bool_decide (domainOf sender = localServer)) in
      p ← visibilityAt ev targetServer;
      mret (eventVisibleToServer sender p.1 erased partialStateInvisible p.2)
  end.
Definition eventVisible (ev : Event) (targetServer localServer : string) : M bool :=
  eventVisibleInRoom ev targetServer localServer false.

(** An error of the rendering. *)
Definition rendered (what : string) (r : option string) : M string :=
  match r with Some body => mret body | None => fail (ErrText what) end.

(** ** /event *)
Record TransactionResponse := TR { Origin : string; OriginServerTS : Z; TPDUs : list string }.

Definition event_body (ev : Event) (visible : bool) (now : Z) : M string :=
  body ← (if IsRedacted ev || negb visible then rendered "redact event" (redactEvent ev) else mret (JSON ev));
  rendered "prepare pdu" (applyPDUJSONRules body now).

Definition Event_ (now : Z) (origin serverName eventID : string) : M TransactionResponse :=
  r ← try (GetEvent eventID);
  match r with
  | Err e => fail (if is_not_found e then ErrEventNotFound else Wrapped "get event" e)
  | Ok ev =>
      partial ← wrap "partial state check" (IsPartialStateRoom (RoomID ev));
      if (partial : bool) then fail errPartialState else
      inRoom ← wrap "membership check" (IsHostInRoom (RoomID ev) origin);
      if negb (inRoom : bool) then fail errHostNotInRoom else
      visible ← eventVisible ev origin serverName;
      body ← event_body ev visible now;
      mret (TR serverName now [body])
  end.

(** ** /get_missing_events *)
Record MissingEventsResponse := MER { Events_ : list string; WalkTruncated : bool }.

Definition missingEventBody (ev : Event) (origin serverName : string) (partialStateRoom : bool) (now : Z) : M string :=
  visible ← eventVisibleInRoom ev origin serverName partialStateRoom;
  event_body ev visible now.

(** The loop over the walk's result. *)
Fixpoint missing_bodies (ids : list string) (events : EventMap) (withheld : gset string)
    (body : Event → M string) : M (list string) :=
  match ids with
  | [] => mret []
  | id :: ids =>
      match events !! id with
      | None => missing_bodies ids events withheld body
      | Some ev =>
          if bool_decide (RejectedReason ev ≠ EmptyString) then missing_bodies ids events withheld body
          else if bool_decide (id ∈ withheld) then missing_bodies ids events withheld body
          else
            b ← body ev;
            rest ← missing_bodies ids events withheld body;
            mret (if depthInCanonicalRange b then b :: rest else rest)
      end
  end.

Definition GetMissingEvents (now : Z) (origin serverName roomID : string) (earliest latest : list string)
    (limit : Z) : R MissingEventsResponse :=
  acl ← serverACL roomID;
  if negb (Allowed acl origin) then rfail errServerBanned else
  inRoom ← lift (wrap "membership check" (IsHostInRoom roomID origin));
  if negb (inRoom : bool) then rfail errHostNotInRoom else
  partial ← lift (wrap "partial state check" (IsPartialStateRoom roomID));
  p ← lift (wrap "missing events" (MissingEvents.GetMissingEvents roomID earliest latest limit));
  events ← lift (wrap "get events" (GetEvents p.1));
  withheld ← lift (wrap "redaction authorisation" (WithheldRedactions events));
  out ← lift (missing_bodies p.1 events withheld
                (λ ev, missingEventBody ev origin serverName partial now));
  mret (MER out p.2).
End resolver.
