(* ===== verification/StateStream.v ===== *)
(** * [internal/matrixstate/state.go]: the streamed /state

    [State] writes the response while it is built.  The writer it is given is a
    parameter: how many of the bytes offered it takes, and its error.  What was
    written, the partial result and the error survive together, as they do for
    the caller. *)
From S2P Require Import Prelude Cache Json JsonStream Store AuthChain StateGroups External Events Pducmp Wire Digest Resolver.

Open Scope Z_scope.

(** ** [io.Writer] *)

(** What is written to changes; how much it took, and its error. *)
Class Writer (W : Type) := write : W → string → W * (Z * option error).

(** The contract of [io.Writer]: without an error, everything was taken. *)
Class LawfulWriter (W : Type) `{!Writer W} := {
  taken : W → string;
  write_all w p w' n : write w p = (w', (n, None)) → n = str_len p ∧ taken w' = taken w +:+ p }.

(** ** [countingWriter] *)
Record sink (W : Type) := Sink { s_w : W; s_n : Z }.
Arguments Sink {W} _ _.
Arguments s_w {W} _.
Arguments s_n {W} _.
Definition fresh_sink {W} (w : W) : sink W := Sink w 0.

(** ** [streamEvents]: the variables its callback changes *)
Record stream (W : Type) := Stream {
  st_sink : sink W; st_digest : digestAccumulator; st_found : list string; st_written : Z;
  st_polluted : Z  (* the counter of cache pollution we emitted *) }.
Arguments Stream {W} _ _ _ _ _.
Arguments st_sink {W} _.
Arguments st_digest {W} _.
Arguments st_found {W} _.
Arguments st_written {W} _.
Arguments st_polluted {W} _.

(** [State]: the result, the writer, and the error. *)
Notation outcome W := (StateResult * sink W * option error)%type.

Section state.
Context `{!External} {W : Type} `{!Writer W}.
Notation sink := (sink W).
Notation stream := (stream W).
Notation outcome := (outcome W).

Definition Write (p : string) (s : sink) : sink * option error :=
  let '(w, (n, e)) := write (s_w s) p in (Sink w (s_n s + n), e).

Definition with_sink (k : sink) (s : stream) : stream :=
  Stream k (st_digest s) (st_found s) (st_written s) (st_polluted s).

(** Writing one body: a separator unless it is the first, then the body. *)
Definition emit (body canonical : string) (s : stream) : stream * option error :=
  let '(k, e) := if bool_decide (0 < st_written s) then Write "," (st_sink s) else (st_sink s, None) in
  match e with
  | Some e => (with_sink k s, Some e)
  | None =>
      let '(k, e) := Write body k in
      match e with
      | Some e => (with_sink k s, Some e)
      | None => (Stream k (add canonical (st_digest s)) (st_found s) (st_written s + 1) (st_polluted s), None)
      end
  end.

Definition stream_event (collect : bool) (id : string) (ev : Event) (s : stream) : stream * option error :=
  if bool_decide (RejectedReason ev ≠ EmptyString) then (s, None) else
  let s := Stream (st_sink s) (st_digest s) (if collect then st_found s ++ [id] else st_found s)
                  (st_written s) (st_polluted s) in
  match serialisePDU ev with
  | Err e => (s, Some e)
  | Ok body =>
      if negb (depthInCanonicalRange body) then (s, None) else
      match Canonical body with
      | None => (s, Some (ErrText ("canonicalise " +:+ id)))
      | Some canonical =>
          let s := Stream (st_sink s) (st_digest s) (st_found s) (st_written s)
                     (if emitsCachePollution body then st_polluted s + 1 else st_polluted s) in
          emit body canonical s
      end
  end.

(** The callback: every requested ID that the batch holds. *)
Fixpoint stream_batch (collect : bool) (ids : list string) (events : EventMap) (s : stream)
    : stream * option error :=
  match ids with
  | [] => (s, None)
  | id :: ids =>
      match events !! id with
      | None => stream_batch collect ids events s
      | Some ev =>
          let '(s, e) := stream_event collect id ev s in
          match e with
          | Some e => (s, Some e)
          | None => stream_batch collect ids events s
          end
      end
  end.

Definition streamEvents (collect : bool) (ids : list string) (k : sink) : M (stream * option error) :=
  GetEventsBatched ids (Z.of_nat DefaultEventBatch) (stream_batch collect ids)
    (Stream k empty_digest [] 0 0).

(** ** [State] *)
Definition done_ (res : StateResult) (k : sink) (e : option error) : R outcome := mret (res, k, e).

(** A write, and what follows it when it succeeds. *)
Definition writing (res : StateResult) (p : string) (k : sink) (next : sink → R outcome) : R outcome :=
  let '(k, e) := Write p k in
  match e with Some _ => done_ res k e | None => next k end.

Definition State (w : W) (origin roomID eventID : string) : R outcome :=
  let res := no_result in
  let k := fresh_sink w in
  r ← rtry (checkAccess origin roomID);
  match r with
  | Err e => done_ res k (Some e)
  | Ok _ =>
      r ← rtry (lift (stateIDsForEvent roomID eventID));
      match r with
      | Err e => done_ res k (Some e)
      | Ok stateIDs =>
          writing res pdus_head k (λ k,
            p ← lift (streamEvents true stateIDs k);
            let '(s1, e) := (p : stream * option error) in
            match e with
            | Some e => done_ res (st_sink s1) (Some e)
            | None =>
                let res := MkStateResult (st_written s1) 0 0 zero_digest zero_digest in
                writing res auth_head (st_sink s1) (λ k,
                  r ← rtry (lift (GetAuthChainIDsWithFallback sha256 roomID (st_found s1)));
                  match r with
                  | Err e => done_ res k (Some (Wrapped "auth chain" e))
                  | Ok (authIDs, _) =>
                      p ← lift (streamEvents false authIDs k);
                      let '(s2, e) := (p : stream * option error) in
                      match e with
                      | Some e => done_ res (st_sink s2) (Some e)
                      | None =>
                          let res := MkStateResult (st_written s1) (st_written s2) 0 zero_digest zero_digest in
                          writing res "]}" (st_sink s2) (λ k,
                            done_ (MkStateResult (st_written s1) (st_written s2) (s_n k)
                                     (digest (st_digest s1)) (digest (st_digest s2))) k None)
                      end
                  end)
            end)
      end
  end.
End state.

(** ** What a successful run wrote *)
Section written.
Context `{!External} {W : Type} `{LawfulWriter W}.
(** A served event is one JSON document: splicing a JSON value into an object
    gives an object ([sjson]). *)
Context (Hdoc : ∀ ev body, serialisePDU ev = Ok body → is_doc body).
Notation sink := (sink W).
Notation stream := (stream W).

Definition s_out (k : sink) : string := taken (s_w k).

Lemma Write_ok p (k k' : sink) : Write p k = (k', None) → s_out k' = s_out k +:+ p ∧ s_n k' = s_n k + str_len p.
Proof using Type.
  unfold Write, s_out. destruct (write (s_w k) p) as [w [n [e|]]] eqn:E; [done|]. intros [= <-].
  apply write_all in E as [-> E]. cbn [s_w s_n]. by rewrite E.
Qed.

(** The stream's variables when the bodies [bs] were written after [k0]: [R] relates
    each to the canonical form that was digested. *)
Record emitted (R : string → string → Prop) (k0 : sink) (s : stream) (bs cs : list string) : Prop := {
  sd_out : s_out (st_sink s) = s_out k0 +:+ text bs;
  sd_n : s_n (st_sink s) = s_n k0 + str_len (text bs);
  sd_written : st_written s = Z.of_nat (length bs);
  sd_digest : st_digest s = accumulate cs empty_digest;
  sd_reads : Forall2 R bs cs }.
Notation streamed := (emitted body_reads).

Lemma text_snoc bs b : text (bs ++ [b]) = text bs +:+ (match bs with [] => b | _ => "," +:+ b end).
Proof.
  assert (∀ bs, more (bs ++ [b]) = more bs +:+ ("," +:+ b)) as Hm.
  { intros l. induction l as [|x l IH]; [exact (f_equal (String "044") (app_nil_str b))|].
    change (more ((x :: l) ++ [b])) with ("," +:+ (x +:+ more (l ++ [b]))).
    change (more (x :: l)) with ("," +:+ (x +:+ more l)). by rewrite IH, <-!app_assoc_str. }
  destruct bs as [|x bs]; [exact (app_nil_str b)|]. cbn [app text]. by rewrite Hm, app_assoc_str.
Qed.

Lemma emitted_emit R k0 s bs cs b c s' :
  emitted R k0 s bs cs → R b c → emit b c s = (s', None) →
  emitted R k0 s' (bs ++ [b]) (cs ++ [c]).
Proof using Type.
  intros [Ho Hn Hw Hd Hr] Hb He. unfold emit in He.
  assert (∀ k k', Write b k = (k', None) →
    s' = Stream k' (add c (st_digest s)) (st_found s) (st_written s + 1) (st_polluted s) →
    s_out k = s_out k0 +:+ (text bs +:+ match bs with [] => EmptyString | _ => "," end) →
    s_n k = s_n k0 + str_len (text bs) + str_len (match bs with [] => EmptyString | _ => "," end) →
    emitted R k0 s' (bs ++ [b]) (cs ++ [c])) as Hfin.
  { intros k k' Hk -> Hok Hnk. apply Write_ok in Hk as [H1 H2].
    assert (text (bs ++ [b]) = (text bs +:+ match bs with [] => EmptyString | _ => "," end) +:+ b) as Ht
      by (rewrite text_snoc; destruct bs; by rewrite <-app_assoc_str).
    split; cbn [st_sink st_written st_digest].
    - by rewrite H1, Hok, Ht, <-!app_assoc_str.
    - rewrite H2, Hnk, Ht, !str_len_app. lia.
    - rewrite Hw, length_app. simpl. lia.
    - rewrite Hd. unfold accumulate. by rewrite foldl_app.
    - by apply Forall2_app; [|constructor]. }
  case_bool_decide as Hpos.
  - assert (bs ≠ []) as Hne by (intros ->; simpl in Hw; lia).
    destruct (Write "," (st_sink s)) as [k [e|]] eqn:E1; [done|].
    destruct (Write b k) as [k' [e|]] eqn:E2; [done|]. injection He as <-.
    apply Write_ok in E1 as [H1 H2]. eapply Hfin; [done|done|..].
    + rewrite H1, Ho, <-app_assoc_str. by destruct bs.
    + rewrite H2, Hn. destruct bs; [done|]. lia.
  - assert (bs = []) as -> by (destruct bs; [done|simpl in Hw; lia]).
    destruct (Write b (st_sink s)) as [k' [e|]] eqn:E2; [done|]. injection He as <-.
    eapply Hfin; [done|done|..]; [by rewrite Ho|rewrite Hn; change (str_len EmptyString) with 0; lia].
Qed.

Lemma streamed_event collect id ev k0 s bs cs s' :
  streamed k0 s bs cs → stream_event collect id ev s = (s', None) →
  ∃ bs' cs', streamed k0 s' bs' cs'.
Proof using Hdoc.
  intros Hs. unfold stream_event. case_bool_decide; [intros [= <-]; eauto|].
  destruct (serialisePDU ev) as [body|e] eqn:Eb; [|done].
  set (s1 := Stream _ _ _ _ _).
  assert (streamed k0 s1 bs cs) as Hs1 by (destruct Hs; by split).
  destruct (depthInCanonicalRange body); cbn [negb]; [|intros [= <-]; eauto].
  destruct (Canonical body) as [c|] eqn:Ec; [|done]. intros He.
  exists (bs ++ [body])%list, (cs ++ [c])%list. eapply emitted_emit; [..|exact He].
  - destruct Hs; by split.
  - apply canonical_reads; [done|]. by eapply Hdoc.
Qed.

Lemma streamed_batch collect ids events k0 s bs cs s' :
  streamed k0 s bs cs → stream_batch collect ids events s = (s', None) →
  ∃ bs' cs', streamed k0 s' bs' cs'.
Proof using Hdoc.
  revert s bs cs. induction ids as [|id ids IH]; intros s bs cs Hs; simpl; [intros [= <-]; eauto|].
  destruct (events !! id) as [ev|]; [|by eapply IH].
  destruct (stream_event collect id ev s) as [s1 [e|]] eqn:E; [done|].
  destruct (streamed_event _ _ _ _ _ _ _ _ Hs E) as (bs' & cs' & Hs1). by eapply IH.
Qed.

Lemma streamed_run collect ids bbs k0 s bs cs w s' w' :
  streamed k0 s bs cs → run_batches bbs (stream_batch collect ids) s w = (Ok (s', None), w') →
  ∃ bs' cs', streamed k0 s' bs' cs'.
Proof using Hdoc.
  revert s bs cs w. induction bbs as [|b bbs IH]; intros s bs cs w Hs Hr; cbn [run_batches] in Hr.
  - apply mret_ok in Hr as [[= ->] _]. eauto.
  - apply ok_bind in Hr as (r & w1 & _ & Hr). destruct r as [evs|e]; [|by apply mret_ok in Hr as [? _]].
    destruct (stream_batch collect ids evs s) as [s1 [e|]] eqn:E; [by apply mret_ok in Hr as [? _]|].
    destruct (streamed_batch _ _ _ _ _ _ _ _ Hs E) as (bs' & cs' & Hs1). by eapply IH.
Qed.

Lemma streamed_all collect ids k w s' w' :
  streamEvents collect ids k w = (Ok (s', None), w') → ∃ bs cs, streamed k s' bs cs.
Proof using Hdoc.
  unfold streamEvents, GetEventsBatched. apply (streamed_run _ _ _ k _ [] []).
  split; simpl; [by rewrite app_nil_str|by rewrite Z.add_0_r|done..|constructor].
Qed.

Lemma rok_bind {A B} (m : R A) (f : A → R B) b w w' :
  (m ≫= f) w = (Ok b, w') → ∃ a w1, m w = (Ok a, w1) ∧ f a w1 = (Ok b, w').
Proof. unfold mbind, R_bind. destruct (m w) as [[a|e] w1]; [eauto|done]. Qed.

Lemma rtry_ok {A} (m : R A) r w w' : rtry m w = (Ok r, w') → m w = (r, w').
Proof. unfold rtry. destruct (m w). by intros [= -> ->]. Qed.

Lemma lift_ok {A} (m : M A) r w w' : lift m w = (r, w') → ∃ w1, m (rw_world w) = (r, w1) ∧ w' = RW w1 (rw_acls w).
Proof. unfold lift. destruct (m (rw_world w)). intros [= -> <-]. eauto. Qed.

Lemma done_ok res (k : sink) (e : option error) x w w' : done_ res k e w = (Ok x, w') → x = (res, k, e) ∧ w' = w.
Proof. intros Heq. injection Heq as -> ->. done. Qed.

Lemma writing_ok res p k next res' k' w w' :
  writing res p k next w = (Ok (res', k', None), w') →
  ∃ k1, Write p k = (k1, None) ∧ next k1 w = (Ok (res', k', None), w').
Proof. unfold writing. destruct (Write p k) as [k1 [e|]]; [by intros [? _]%done_ok|eauto]. Qed.

(** A run without an error, taken apart. *)
Lemma state_ok w0 origin roomID eventID w res k w' : taken w0 = EmptyString →
  State w0 origin roomID eventID w = (Ok (res, k, None), w') →
  ∃ bs1 cs1 bs2 cs2, Forall2 body_reads bs1 cs1 ∧ Forall2 body_reads bs2 cs2 ∧
    s_out k = response bs1 bs2 ∧
    res = MkStateResult (Z.of_nat (length bs1)) (Z.of_nat (length bs2)) (str_len (s_out k))
            (digest (accumulate cs1 empty_digest)) (digest (accumulate cs2 empty_digest)).
Proof using Hdoc.
  intros Hw0. unfold State. intros (r & w1 & _ & H1)%rok_bind. destruct r as [u|e]; [|by apply done_ok in H1 as [? _]].
  apply rok_bind in H1 as (r & w2 & _ & H2). destruct r as [ids|e]; [|by apply done_ok in H2 as [? _]].
  apply writing_ok in H2 as (k1 & Hk1 & H2). apply rok_bind in H2 as ([s1 e1] & w3 & Hs1 & H2).
  destruct e1 as [e|]; [by apply done_ok in H2 as [? _]|].
  apply lift_ok in Hs1 as (w3' & Hs1 & _). apply streamed_all in Hs1 as (bs1 & cs1 & [Ho1 Hn1 Hw1 Hd1 Hr1]).
  apply writing_ok in H2 as (k2 & Hk2 & H2). apply rok_bind in H2 as (r & w4 & _ & H2).
  destruct r as [[auth b]|e]; [|by apply done_ok in H2 as [? _]].
  apply rok_bind in H2 as ([s2 e2] & w5 & Hs2 & H2). destruct e2 as [e|]; [by apply done_ok in H2 as [? _]|].
  apply lift_ok in Hs2 as (w5' & Hs2 & _). apply streamed_all in Hs2 as (bs2 & cs2 & [Ho2 Hn2 Hw2 Hd2 Hr2]).
  apply writing_ok in H2 as (k3 & Hk3 & H2). apply done_ok in H2 as [[= -> ->] _].
  apply Write_ok in Hk1 as [Ha1 Hb1]. apply Write_ok in Hk2 as [Ha2 Hb2]. apply Write_ok in Hk3 as [Ha3 Hb3].
  assert (s_out k3 = response bs1 bs2) as Hout.
  { unfold response. rewrite Ha3, Ho2, Ha2, Ho1, Ha1. change (s_out (fresh_sink w0)) with (taken w0).
    by rewrite Hw0, <-!app_assoc_str. }
  exists bs1, cs1, bs2, cs2. split_and!; [done..|]. rewrite Hw1, Hw2, Hd1, Hd2. f_equal.
  rewrite Hb3, Hn2, Hb2, Hn1, Hb1, Hout. unfold response. rewrite !str_len_app. simpl. lia.
Qed.

Lemma visits_pdus cs d1 d2 :
  visits (λ array c s, (digest_visit array 0 c EmptyString s).1) ArrayPDUs cs (d1, d2) = (accumulate cs d1, d2).
Proof. revert d1. induction cs as [|c cs IH]; intros d1; [done|apply IH]. Qed.
Lemma visits_auth cs d1 d2 :
  visits (λ array c s, (digest_visit array 0 c EmptyString s).1) ArrayAuthChain cs (d1, d2) = (d1, accumulate cs d2).
Proof. revert d2. induction cs as [|c cs IH]; intros d2; [done|apply IH]. Qed.

(** What was written scans back to what was reported. *)
Lemma state_scans w0 origin roomID eventID w res k w' : taken w0 = EmptyString →
  State w0 origin roomID eventID w = (Ok (res, k, None), w') →
  ∃ res', DigestStateResponse (s_out k) = (res', None) ∧ Agrees res res' = true ∧
    PDUs res' = PDUs res ∧ AuthChain_ res' = AuthChain_ res ∧ Bytes res = str_len (s_out k).
Proof using Hdoc.
  intros Hw0 (bs1 & cs1 & bs2 & cs2 & H1 & H2 & Hout & ->)%state_ok; [|done].
  eexists. unfold DigestStateResponse. rewrite Hout.
  change digest_visit with (visiting (λ array c s, (digest_visit array 0 c EmptyString s).1)).
  rewrite (scan_response _ bs1 cs1 bs2 cs2) by done. rewrite visits_pdus, visits_auth.
  split; [reflexivity|]. unfold Agrees. cbn [PDUDigest AuthChainDigest PDUs AuthChain_ Bytes].
  by rewrite !bool_decide_true by reflexivity.
Qed.

(** C11. The two halves of the /state comparison are one: whatever the database
    and the caches hold, when [State] succeeds, scanning the bytes it wrote finds
    well-formed JSON with the two arrays, as many PDUs in each as it reports, and
    folds them to the digests it reports; its byte count is the length of the
    response. *)
Theorem state_roundtrip w0 origin roomID eventID w res k w' :
  taken w0 = EmptyString →
  State w0 origin roomID eventID w = (Ok (res, k, None), w') →
  ∃ res', DigestStateResponse (s_out k) = (res', None) ∧ Agrees res res' = true ∧
    PDUs res' = PDUs res ∧ AuthChain_ res' = AuthChain_ res ∧ Bytes res = str_len (s_out k).
Proof using Hdoc. apply state_scans. Qed.
End written.

(** ** Whatever the outcome *)
Section kept.
Context `{!External} {W : Type} `{!Writer W}.

(** What every write preserves holds of the writer at the end. *)
Context (I : W → Prop) (Hw : ∀ w p, I w → I (write w p).1).

Lemma Write_keeps p (k : sink W) : I (s_w k) → I (s_w (Write p k).1).
Proof using Hw.
  intros Hi. unfold Write. specialize (Hw (s_w k) p Hi). destruct (write (s_w k) p) as [w [n e]]. exact Hw.
Qed.

Lemma emit_keeps b c (s : stream W) : I (s_w (st_sink s)) → I (s_w (st_sink (emit b c s).1)).
Proof using Hw.
  intros Hi. unfold emit.
  assert (∀ k, I (s_w k) → I (s_w (st_sink (let '(k, e) := Write b k in
    match e with Some e => (with_sink k s, Some e)
    | None => (Stream k (add c (st_digest s)) (st_found s) (st_written s + 1) (st_polluted s), None) end).1))) as Hb.
  { intros k Hk. pose proof (Write_keeps b k Hk) as Hk'. by destruct (Write b k) as [k' [e|]]. }
  destruct (bool_decide _); [|by apply Hb].
  pose proof (Write_keeps "," (st_sink s) Hi) as Hk. destruct (Write "," (st_sink s)) as [k [e|]]; [done|by apply Hb].
Qed.

Lemma stream_event_keeps collect id ev (s : stream W) :
  I (s_w (st_sink s)) → I (s_w (st_sink (stream_event collect id ev s).1)).
Proof using Hw.
  intros Hi. unfold stream_event. destruct (bool_decide _); [done|]. cbv zeta.
  destruct (serialisePDU ev) as [body|e]; [|done]. destruct (negb _); [done|].
  destruct (Canonical body); [|done]. by apply emit_keeps.
Qed.

Lemma stream_batch_keeps collect ids events (s : stream W) :
  I (s_w (st_sink s)) → I (s_w (st_sink (stream_batch collect ids events s).1)).
Proof using Hw.
  revert s. induction ids as [|id ids IH]; intros s Hi; simpl; [done|].
  destruct (events !! id) as [ev|]; [|by apply IH].
  pose proof (stream_event_keeps collect id ev s Hi) as Hs.
  destruct (stream_event collect id ev s) as [s' [e|]]; [done|by apply IH].
Qed.

Lemma streamEvents_keeps collect ids (k : sink W) w :
  I (s_w k) → ∃ s e w', streamEvents collect ids k w = (Ok (s, e), w') ∧ I (s_w (st_sink s)).
Proof using Hw.
  unfold streamEvents, GetEventsBatched.
  generalize (batches (if bool_decide (Z.of_nat DefaultEventBatch ≤ 0) then DefaultEventBatch
                       else Z.to_nat (Z.of_nat DefaultEventBatch)) ids) as bbs.
  intros bbs Hi. assert (I (s_w (st_sink (Stream k empty_digest [] 0 0)))) as Hs by exact Hi. clear Hi.
  revert w Hs. generalize (Stream k empty_digest [] 0 0) as s.
  induction bbs as [|b bbs IH]; intros s w Hi; cbn [run_batches]; [by exists s, None, w|].
  unfold mbind, M_bind, try. destruct (load_batch b w) as [[evs|e] w1]; [|by exists s, (Some e), w1].
  pose proof (stream_batch_keeps collect ids evs s Hi) as Hs.
  destruct (stream_batch collect ids evs s) as [s' [e|]]; [by exists s', (Some e), w1|by apply IH].
Qed.

Lemma state_keeps w0 origin roomID eventID w :
  I w0 → ∃ res k e w', State w0 origin roomID eventID w = (Ok (res, k, e), w') ∧ I (s_w k).
Proof using Hw.
  intros Hi. unfold State, rtry, mbind, R_bind.
  destruct (checkAccess origin roomID w) as [[u|e] w1]; [|by exists no_result, (fresh_sink w0), (Some e), w1].
  unfold lift at 1. destruct (stateIDsForEvent roomID eventID (rw_world w1)) as [[ids|e] w2];
    [|by exists no_result, (fresh_sink w0), (Some e), (RW w2 (rw_acls w1))].
  unfold writing at 1. pose proof (Write_keeps pdus_head (fresh_sink w0) Hi) as H1.
  destruct (Write pdus_head (fresh_sink w0)) as [k1 [e1|]]; [by eexists _, k1, (Some e1), _|].
  unfold lift at 1. destruct (streamEvents_keeps true ids k1 (rw_world (RW w2 (rw_acls w1))) H1) as (s1 & e & w3 & -> & Hs1).
  destruct e as [e|]; [by eexists _, (st_sink s1), (Some e), _|].
  unfold writing at 1. pose proof (Write_keeps auth_head _ Hs1) as H2.
  destruct (Write auth_head (st_sink s1)) as [k2 [e2|]]; [by eexists _, k2, (Some e2), _|].
  unfold lift at 1. destruct (GetAuthChainIDsWithFallback _ _ _ _) as [[[authIDs b]|e] w4];
    [|by eexists _, k2, (Some _), _].
  unfold lift at 1. destruct (streamEvents_keeps false authIDs k2
    (rw_world (RW w4 (rw_acls (RW w3 (rw_acls (RW w2 (rw_acls w1))))))) H2) as (s2 & e & w5 & -> & Hs2).
  destruct e as [e|]; [by eexists _, (st_sink s2), (Some e), _|].
  unfold writing at 1. pose proof (Write_keeps "]}" _ Hs2) as H3.
  destruct (Write "]}" (st_sink s2)) as [k3 [e3|]]; [by eexists _, k3, (Some e3), _|by eexists _, k3, None, _].
Qed.
End kept.

(** ** Errors come before the first byte *)
Section answered.
Context `{!External} {W : Type} `{!Writer W}.

(** [State] writes nothing until the access check and the resolution of the
    state have succeeded: if either fails, the error is returned with an untouched
    writer, and every byte in the output of any run, failed ones included, is
    behind both. *)
Theorem state_errors_before_output (w0 : W) origin roomID eventID w :
  (∀ e w1, checkAccess origin roomID w = (Err e, w1) →
     State w0 origin roomID eventID w = (Ok (no_result, fresh_sink w0, Some e), w1)) ∧
  (∀ w1 e w2, checkAccess origin roomID w = (Ok tt, w1) →
     stateIDsForEvent roomID eventID (rw_world w1) = (Err e, w2) →
     State w0 origin roomID eventID w = (Ok (no_result, fresh_sink w0, Some e), RW w2 (rw_acls w1))) ∧
  (∀ res k e w', State w0 origin roomID eventID w = (Ok (res, k, e), w') → s_w k ≠ w0 →
     ∃ w1 ids w2, checkAccess origin roomID w = (Ok tt, w1) ∧
       stateIDsForEvent roomID eventID (rw_world w1) = (Ok ids, w2)).
Proof.
  unfold State, rtry, mbind, R_bind. split_and!.
  - intros e w1 ->. done.
  - intros w1 e w2 -> H2. unfold lift. by rewrite H2.
  - intros res k e w'. destruct (checkAccess origin roomID w) as [[[]|e1] w1]; [|by intros [= <- <- <- _]].
    unfold lift at 1. destruct (stateIDsForEvent roomID eventID (rw_world w1)) as [[ids|e2] w2] eqn:E2.
    + intros _ _. by exists w1, ids, w2.
    + by intros [= <- <- <- _].
Qed.
End answered.

(** ** Writers that take everything are alike *)

(** [io.Discard] and [bytes.Buffer]: every write is taken whole. *)
Class Accepting (W : Type) `{!Writer W} := accepts w p : (write w p).2 = (str_len p, None).

Section alike.
Context `{!External} {W1 W2 : Type} `{Accepting W1, Accepting W2}.

(** Two computations that change the same state and end in related results. *)
Definition coupled {S A B} (P : A → B → Prop) (m1 : S → result error A * S) (m2 : S → result error B * S) : Prop :=
  ∀ w, (m1 w).2 = (m2 w).2 ∧
    match (m1 w).1, (m2 w).1 with Ok a, Ok b => P a b | Err e1, Err e2 => e1 = e2 | _, _ => False end.

Lemma coupled_ret {A B} (P : A → B → Prop) a b : P a b → coupled P (mret a : R A) (mret b : R B).
Proof using Type. by intros HP w. Qed.
Lemma coupled_same {A} (m : R A) : coupled eq m m.
Proof using Type. intros w. split; [done|]. by destruct (m w).1. Qed.
Lemma coupled_bind {A B A' B'} (P : A → B → Prop) (Q : A' → B' → Prop) (m1 : R A) (m2 : R B) f g :
  coupled P m1 m2 → (∀ a b, P a b → coupled Q (f a) (g b)) → coupled Q (m1 ≫= f) (m2 ≫= g).
Proof using Type.
  intros Hm Hf w. destruct (Hm w) as [Hw HP]. unfold mbind, R_bind.
  destruct (m1 w) as [[a|e1] w1], (m2 w) as [[b|e2] w2]; cbn [fst snd] in *; subst w2; first [done|by apply Hf].
Qed.
Lemma coupled_after {A A' B'} (Q : A' → B' → Prop) (m : R A) f g :
  (∀ a, coupled Q (f a) (g a)) → coupled Q (m ≫= f) (m ≫= g).
Proof using Type. intros Hf. eapply coupled_bind; [apply coupled_same|]. by intros a ? <-. Qed.
Lemma coupled_lift {A B} (P : A → B → Prop) (m1 : M A) (m2 : M B) : coupled P m1 m2 → coupled P (lift m1) (lift m2).
Proof using Type.
  intros Hm w. destruct (Hm (rw_world w)) as [Hw HP]. unfold lift.
  destruct (m1 (rw_world w)) as [r1 w1], (m2 (rw_world w)) as [r2 w2]. cbn [fst snd] in *. by subst w2.
Qed.

(** The sinks have counted the same; the streams hold the same. *)
Definition level (k1 : sink W1) (k2 : sink W2) : Prop := s_n k1 = s_n k2.
Record alike (s1 : stream W1) (s2 : stream W2) : Prop := {
  al_sink : level (st_sink s1) (st_sink s2); al_digest : st_digest s1 = st_digest s2; al_found : st_found s1 = st_found s2;
  al_written : st_written s1 = st_written s2; al_polluted : st_polluted s1 = st_polluted s2 }.
Definition alike_result (r1 : stream W1 * option error) (r2 : stream W2 * option error) : Prop :=
  alike r1.1 r2.1 ∧ r1.2 = r2.2.
Definition alike_outcome (o1 : outcome W1) (o2 : outcome W2) : Prop := o1.1.1 = o2.1.1 ∧ o1.2 = o2.2.

Lemma Write_level p k1 k2 : level k1 k2 →
  ∃ k1' k2', Write p k1 = (k1', None) ∧ Write p k2 = (k2', None) ∧ level k1' k2'.
Proof using Type*.
  unfold level, Write. intros Hk. pose proof (accepts (s_w k1) p) as E1. pose proof (accepts (s_w k2) p) as E2.
  destruct (write (s_w k1) p) as [w1 [n1 e1]], (write (s_w k2) p) as [w2 [n2 e2]]. cbn [snd] in *. simplify_eq.
  eexists _, _. split; [done|]. split; [done|]. cbn [s_n]. by rewrite Hk.
Qed.

Lemma emit_alike b c s1 s2 : alike s1 s2 → alike_result (emit b c s1) (emit b c s2).
Proof using Type*.
  intros [Hk Hd Hf Hw Hp]. unfold emit. rewrite Hw. destruct (bool_decide _).
  - destruct (Write_level "," _ _ Hk) as (k1 & k2 & -> & -> & Hk'). cbv beta iota.
    destruct (Write_level b _ _ Hk') as (k1' & k2' & -> & -> & Hk''). split; [|done]. split; cbn; congruence || done.
  - destruct (Write_level b _ _ Hk) as (k1' & k2' & -> & -> & Hk''). split; [|done]. split; cbn; congruence || done.
Qed.

Lemma stream_event_alike collect id ev s1 s2 : alike s1 s2 →
  alike_result (stream_event collect id ev s1) (stream_event collect id ev s2).
Proof using Type*.
  intros Ha. unfold stream_event. destruct (bool_decide _); [done|]. cbv zeta.
  assert (∀ p1 p2, p1 = p2 → alike
    (Stream (st_sink s1) (st_digest s1) (if collect then st_found s1 ++ [id] else st_found s1)%list (st_written s1) p1)
    (Stream (st_sink s2) (st_digest s2) (if collect then st_found s2 ++ [id] else st_found s2)%list (st_written s2) p2)) as Ha'.
  { intros p1 p2 ->. destruct Ha as [Hk Hd Hf Hw Hp]. split; cbn; try done. by rewrite Hf. }
  destruct (serialisePDU ev) as [body|e]; [|split; [apply Ha'; apply Ha|done]].
  destruct (negb _); [split; [apply Ha'; apply Ha|done]|]. destruct (Canonical body); [|split; [apply Ha'; apply Ha|done]].
  apply emit_alike, Ha'. cbn [st_polluted]. by rewrite (al_polluted _ _ Ha).
Qed.

Lemma stream_batch_alike collect ids events s1 s2 : alike s1 s2 →
  alike_result (stream_batch collect ids events s1) (stream_batch collect ids events s2).
Proof using Type*.
  revert s1 s2. induction ids as [|id ids IH]; intros s1 s2 Ha; [done|]. cbn [stream_batch].
  destruct (events !! id) as [ev|]; [|by apply IH]. destruct (stream_event_alike collect id ev s1 s2 Ha) as [Ha' He].
  destruct (stream_event collect id ev s1) as [s1' e1], (stream_event collect id ev s2) as [s2' e2]. cbn [fst snd] in *.
  subst e2. destruct e1; [done|by apply IH].
Qed.

Lemma streamEvents_alike collect ids k1 k2 : level k1 k2 →
  coupled alike_result (streamEvents collect ids k1) (streamEvents collect ids k2).
Proof using Type*.
  intros Hk. unfold streamEvents, GetEventsBatched.
  assert (alike (Stream k1 empty_digest [] 0 0) (Stream k2 empty_digest [] 0 0)) as Ha by (split; done). clear Hk. revert Ha.
  generalize (Stream k1 empty_digest [] 0 0) as s1. generalize (Stream k2 empty_digest [] 0 0) as s2.
  generalize (batches (if bool_decide (Z.of_nat DefaultEventBatch ≤ 0) then DefaultEventBatch
                       else Z.to_nat (Z.of_nat DefaultEventBatch)) ids) as bs.
  induction bs as [|b bs IH]; intros s2 s1 Ha w; [done|]. cbn [run_batches]. unfold mbind, M_bind, try.
  destruct (load_batch b w) as [[evs|e] w1]; [|done].
  destruct (stream_batch_alike collect ids evs s1 s2 Ha) as [Ha' He].
  destruct (stream_batch collect ids evs s1) as [s1' e1], (stream_batch collect ids evs s2) as [s2' e2]. cbn [fst snd] in *.
  subst e2. destruct e1; [done|by apply IH].
Qed.

Lemma writing_alike res p k1 k2 f g : level k1 k2 →
  (∀ k1 k2, level k1 k2 → coupled alike_outcome (f k1) (g k2)) →
  coupled alike_outcome (writing res p k1 f) (writing res p k2 g).
Proof using Type*.
  intros Hk Hf. unfold writing. destruct (Write_level p _ _ Hk) as (k1' & k2' & -> & -> & Hk'). by apply Hf.
Qed.

Lemma streaming_alike collect ids k1 k2 f g : level k1 k2 →
  (∀ s1 s2, alike s1 s2 → coupled alike_outcome (f (s1, None)) (g (s2, None))) →
  (∀ s1 s2 e, alike s1 s2 → coupled alike_outcome (f (s1, Some e)) (g (s2, Some e))) →
  coupled alike_outcome (lift (streamEvents collect ids k1) ≫= f) (lift (streamEvents collect ids k2) ≫= g).
Proof using Type*.
  intros Hk Hn Hs. eapply coupled_bind; [by apply coupled_lift, streamEvents_alike|].
  intros [s1 e1] [s2 e2] [Ha He]. cbn [fst snd] in *. subst e2. destruct e1; auto.
Qed.

(** The result, the error and what becomes of the resolver do not depend on which of
    them [State] is given. *)
Lemma State_alike (w1 : W1) (w2 : W2) origin roomID eventID :
  coupled alike_outcome (State w1 origin roomID eventID) (State w2 origin roomID eventID).
Proof using Type*.
  unfold State, done_. assert (level (fresh_sink w1) (fresh_sink w2)) as Hk by done.
  apply coupled_after. intros [u|e]; [|by apply coupled_ret].
  apply coupled_after. intros [ids|e]; [|by apply coupled_ret].
  apply writing_alike; [done|]. clear Hk. intros k1 k2 Hk.
  apply streaming_alike; [done| |intros s1 s2 e _; by apply coupled_ret]. intros s1 s2 Ha.
  destruct Ha as [Hk1 Hd1 Hf1 Hn1 _]. rewrite Hn1, Hf1, Hd1.
  apply writing_alike; [done|]. clear Hk. intros k1' k2' Hk.
  apply coupled_after. intros [[authIDs b]|e]; [|by apply coupled_ret].
  apply streaming_alike; [done| |intros s3 s4 e _; by apply coupled_ret]. intros s3 s4 Ha'.
  destruct Ha' as [Hk2 Hd2 _ Hn2 _]. rewrite Hn2, Hd2.
  apply writing_alike; [done|]. intros k3 k4 Hk4. apply coupled_ret. split; [|done]. cbn. by rewrite Hk4.
Qed.
End alike.

(** ** A concrete room *)
Module Witness.
Local Open Scope string_scope.

Definition event (id ty : string) (key : option string) (n : Z) : Db.event_row :=
  Db.EventRow id "!r" ty key "@u:h" false n.
Definition json (id body : string) : Db.json_row := Db.JsonRow id (js body) "{}" (Some 3%Z).
Definition db : DB :=
  Db.MkDb
    [event "$c" "m.room.create" (Some "") 1; event "$m" "m.room.member" (Some "@u:h") 2;
     event "$x" "m.room.message" None 3]
    [json "$c" "{'depth':1,'sender':'@u:h','unsigned':{'age_ts':5}}";
     json "$m" "{'depth':2,'sender':'@u:h','content':{'membership':'join'}}";
     json "$x" "{'depth':3,'sender':'@u:h','content':{'body':'hi'}}"]
    [Db.RoomRow "!r" (Some "10") (Some true)] []
    [("$m", "$c"); ("$x", "$c"); ("$x", "$m")] [] [] []
    [("$c", Some 1%Z); ("$m", Some 1%Z); ("$x", Some 1%Z)]
    [Db.SgsRow 1 "m.room.create" "" "$c"; Db.SgsRow 1 "m.room.member" "@u:h" "$m"] []
    [Db.CseRow "!r" "m.room.member" "@u:h" "$m" (Some "join")] [] [] [] [] [].
Definition world_of (d : DB) : world :=
  MkWorld (λ _, Ok d) (λ _, false) 50 0 (newCaches Settings.DefaultSettings) Trace.WithTrace.
Definition start : rworld := NewResolver (world_of db).
End Witness.

(** A buffer that takes everything. *)
#[export] Instance buffer : Writer string := λ w p, (w +:+ p, (str_len p, None)).
#[export] Instance lawful_buffer : LawfulWriter string.
Proof. refine {| taken := id |}. by intros w p w' n [= <- <-]. Defined.

Lemma sample_doc ev body : serialisePDU (H := Sample.ext) ev = Ok body → is_doc body.
Proof.
  unfold serialisePDU, applyPDUJSONRulesAt. destruct (if IsRedacted ev then _ else _) as [b|]; [|done].
  destruct (Struct.get_raw_map "unsigned" b) as [m|]; [|done]. cbn [mbind option_bind].
  destruct (sjson_set_raw b "unsigned" (marshal_raw_map (served_unsigned None m))) as [out|] eqn:E; [|done].
  intros [= <-]. by apply Sample.set_raw_doc in E.
Qed.

Lemma state_roundtrip_witness :
  match State (H := Sample.ext) EmptyString "h" "!r" "$x" Witness.start with
  | (Ok (res, k, None), _) =>
      ∃ res', DigestStateResponse (H := Sample.ext) (s_w k) = (res', None) ∧ Agrees res res' = true ∧
        PDUs res' = 2 ∧ AuthChain_ res' = 1
  | _ => False
  end.
Proof.
  assert (match (State (H := Sample.ext) EmptyString "h" "!r" "$x" Witness.start).1 with
    | Ok (res, _, None) => bool_decide (PDUs res = 2) && bool_decide (AuthChain_ res = 1) | _ => false end = true) as Hr
    by (vm_compute; reflexivity).
  destruct (State (H := Sample.ext) EmptyString "h" "!r" "$x" Witness.start) as [[[[res k] [e|]]|e] w'] eqn:E;
    [done| |done]. cbn [fst] in Hr.
  apply andb_true_iff in Hr. rewrite !bool_decide_eq_true in Hr. destruct Hr as [Hp Ha].
  destruct (state_roundtrip (H := Sample.ext) sample_doc EmptyString "h" "!r" "$x" Witness.start res k w')
    as (res' & H1 & H2 & H3 & H4 & _).
  - reflexivity.
  - exact E.
  - exists res'. rewrite H3, H4. exact (conj H1 (conj H2 (conj Hp Ha))).
Defined.

Lemma state_errors_before_output_witness :
  (State (H := Sample.ext) EmptyString "evil" "!r" "$x" Witness.start).1 =
    Ok (no_result, fresh_sink EmptyString, Some errHostNotInRoom) ∧
  (State (H := Sample.ext) EmptyString "h" "!r" "$y" Witness.start).1 =
    Ok (no_result, fresh_sink EmptyString, Some (errEventNotFound "$y")).
Proof.
  split.
  - destruct (state_errors_before_output (H := Sample.ext) EmptyString "evil" "!r" "$x" Witness.start) as (H & _ & _).
    destruct (checkAccess (H := Sample.ext) "evil" "!r" Witness.start) as [[u|e] w1] eqn:E.
    + exfalso. apply (f_equal (λ r, is_ok r.1)) in E. vm_compute in E. discriminate.
    + rewrite (H e w1 eq_refl). apply (f_equal fst) in E. cbn [fst] in E |- *. do 2 f_equal.
      assert ((checkAccess (H := Sample.ext) "evil" "!r" Witness.start).1 = Err errHostNotInRoom) as E'
        by (vm_compute; reflexivity).
      congruence.
  - destruct (state_errors_before_output (H := Sample.ext) EmptyString "h" "!r" "$y" Witness.start) as (_ & H & _).
    destruct (checkAccess (H := Sample.ext) "h" "!r" Witness.start) as [[[]|e] w1] eqn:E.
    + destruct (stateIDsForEvent "!r" "$y" (rw_world w1)) as [[ids|e] w2] eqn:E2.
      * exfalso. assert (is_ok (stateIDsForEvent "!r" "$y" (rw_world
          (checkAccess (H := Sample.ext) "h" "!r" Witness.start).2)).1 = false) as E3 by (vm_compute; reflexivity).
        rewrite E in E3. cbn [snd] in E3. rewrite E2 in E3. discriminate.
      * rewrite (H w1 e w2 eq_refl E2). cbn [fst]. do 2 f_equal.
        assert ((stateIDsForEvent "!r" "$y" (rw_world
          (checkAccess (H := Sample.ext) "h" "!r" Witness.start).2)).1 = Err (errEventNotFound "$y")) as E3
          by (vm_compute; reflexivity).
        rewrite E in E3. cbn [snd] in E3. rewrite E2 in E3. cbn [fst] in E3. congruence.
    + exfalso. apply (f_equal (λ r, is_ok r.1)) in E. vm_compute in E. discriminate.
Defined.
