(* ===== verification/Access.v ===== *)
(** * Who may read: [checkAccess] against the tables

    [sound] collects what the resolver's theorems assume of a database; [promises]
    is the contract of the store's caches, [acl_entry] that of the ACL cache, and
    [revals] the specification of a resolver call: from every world that shows the
    database and keeps the contracts, it returns that result. *)
From S2P Require Import Prelude Cache Json JsonStream Store AuthChain StateGroups External Events Acl Wire Resolver.

Open Scope Z_scope.

Section rules.
Context `{!External} (d : DB) (F : nat).

Definition promises : contract :=
  MkContract (state_entry d) (λ id e, raw_event d id = Some e) (group_entry d)
    (chain_entry sha256 d) (filtered_entry d).

(** An entry of the ACL cache is the parse of its event. *)
Definition acl_entry (eventID : string) (a : option ServerACL) : Prop :=
  ∀ j, j ∈ Db.event_json d → Db.ej_id j = eventID → a = ParseServerACL (Db.ej_json j).

Record rfit (w : rworld) : Prop := {
  rfit_world : fit d F promises (rw_world w);
  rfit_acls : holds acl_entry (rw_acls w) }.

Definition revals {A} (m : R A) (r : result error A) : Prop :=
  ∀ w, rfit w → ∃ w', m w = (r, w') ∧ rfit w'.

Lemma revals_ret {A} (a : A) : revals (mret a) (Ok a).
Proof. intros w Hw. by exists w. Qed.
Lemma revals_fail {A} e : revals (rfail (A:=A) e) (Err e).
Proof. intros w Hw. by exists w. Qed.

Lemma revals_bind {A B} (m : R A) (f : A → R B) a r :
  revals m (Ok a) → revals (f a) r → revals (m ≫= f) r.
Proof.
  intros Hm Hf w Hw. destruct (Hm w Hw) as (w1 & E & Hw1).
  unfold mbind, R_bind. rewrite E. by apply Hf.
Qed.
Lemma revals_bind_err {A B} (m : R A) (f : A → R B) e :
  revals m (Err e) → revals (m ≫= f) (Err e).
Proof.
  intros Hm w Hw. destruct (Hm w Hw) as (w1 & E & Hw1). unfold mbind, R_bind. rewrite E. eauto.
Qed.

Lemma revals_lift {A} (m : M A) r : evals d F promises m r → revals (lift m) r.
Proof.
  intros Hm w [Hw Ha]. destruct (Hm _ Hw) as (w1 & E & Hw1). unfold lift. rewrite E.
  eexists. split; [done|]. by split.
Qed.
Lemma revals_try {A} (m : R A) r : revals m r → revals (rtry m) (Ok r).
Proof. intros Hm w Hw. destruct (Hm w Hw) as (w1 & E & Hw1). unfold rtry. rewrite E. eauto. Qed.

Lemma revals_get_acls {B} id (k : option (option ServerACL) → R B) r :
  revals (k None) r → (∀ a, acl_entry id a → revals (k (Some a)) r) → revals (get_acls id ≫= k) r.
Proof.
  intros Hn Hs w [Hw Ha]. unfold mbind, R_bind, get_acls.
  destruct (holds_get _ id _ Ha) as [Hk HQ]. destruct (LRU.Get id (rw_acls w)) as [[a|] c]; simpl in *.
  - apply Hs; [by apply HQ|by split].
  - apply Hn. by split.
Qed.
Lemma revals_add_acls id a : acl_entry id a → revals (add_acls id a) (Ok tt).
Proof. intros Ha w [Hw Hc]. eexists. split; [done|]. split; [done|]. by apply holds_add. Qed.
End rules.

Lemma sizeOfACL_nonneg a : 0 ≤ sizeOfACL a.
Proof.
  assert (∀ l : list (list item), 0 ≤ Zsum ((λ re, regex_len re + 256) <$> l)) as Hs.
  { intros l. apply Zsum_nonneg, Forall_fmap, Forall_forall. intros re _. simpl. unfold regex_len.
    assert (0 ≤ Zsum (item_len <$> re)); [|unfold str_len; lia].
    apply Zsum_nonneg, Forall_fmap, Forall_forall. intros [] _; unfold item_len, str_len; simpl; case_match; lia. }
  destruct a as [a|]; simpl; [|lia]. pose proof (Hs (allow a)). pose proof (Hs (deny a)). lia.
Qed.

(** ** Membership *)
Definition join_row (roomID : string) (r : Db.cse_row) : Prop :=
  Db.cs_membership r = Some "join"%string ∧ Db.cs_type r = "m.room.member"%string ∧ Db.cs_room r = roomID.

(** Some member of the room is on the server. *)
Definition joined (d : DB) (roomID host : string) : Prop :=
  ∃ r, r ∈ Db.current_state_events d ∧ join_row roomID r ∧ domainFromID (Db.cs_key r) = host.

#[export] Instance joined_dec d roomID host : Decision (joined d roomID host).
Proof.
  refine (cast_if (decide (Exists (λ r, join_row roomID r ∧ domainFromID (Db.cs_key r) = host)
    (Db.current_state_events d)))); unfold joined, join_row in *; rewrite Exists_exists in *; naive_solver.
Defined.

(** A server name the SQL pattern finds exactly: no character special to [LIKE],
    and no joined user ID ends in it after a colon without having it as domain
    (such an ID makes the store answer with an error). *)
Record clear_host (d : DB) (roomID host : string) : Prop := {
  ch_specials : no_specials host;
  ch_nonempty : host ≠ EmptyString;
  ch_suffix : ∀ r, r ∈ Db.current_state_events d → join_row roomID r →
    has_suffix (Db.cs_key r) (":" +:+ host) = true → domainFromID (Db.cs_key r) = host }.

Lemma cut_found c s l r : cut c s = (l, r, true) → s = l +:+ String c r.
Proof.
  revert l r. induction s as [|a s IH]; intros l r; simpl; [done|]. case_bool_decide; [by intros [= <- <-]; subst|].
  destruct (cut c s) as [[l' r'] [|]]; [|done]. intros [= <- <-]. by rewrite (IH l' r').
Qed.

Lemma domain_suffix id host : domainFromID id = host → host ≠ EmptyString → has_suffix id (":" +:+ host) = true.
Proof.
  unfold domainFromID. destruct (cut colon id) as [[l r] [|]] eqn:E; [|by intros <-].
  intros -> _. apply cut_found in E as ->. apply (has_suffix_app l (String colon host)).
Qed.

Section access.
Context `{!External} (d : DB) (F : nat).
Notation evals := (evals d F (promises d)).
Notation revals := (revals d F).

Lemma evals_IsHostInRoom roomID host : clear_host d roomID host →
  evals (IsHostInRoom roomID host) (Ok (bool_decide (joined d roomID host))).
Proof.
  intros [Hs Hne Hd]. unfold IsHostInRoom.
  assert (has_wildcard host = false) as -> by (unfold has_wildcard; destruct Hs as (-> & -> & _); done).
  eapply evals_bind; [apply evals_query|].
  assert (∀ u, u ∈ host_members roomID host d ↔ ∃ r, r ∈ Db.current_state_events d ∧ join_row roomID r ∧
    has_suffix (Db.cs_key r) (":" +:+ host) = true ∧ u = Db.cs_key r) as Hm.
  { intros u. unfold host_members, join_row. rewrite list_elem_of_fmap. setoid_rewrite list_elem_of_filter.
    setoid_rewrite <-(like_suffix (":" +:+ host)); [|destruct Hs as (? & ? & ?); done]. naive_solver. }
  destruct (host_members roomID host d) as [|u us] eqn:E; simpl.
  - rewrite bool_decide_false; [apply evals_ret|]. intros (r & Hr & Hj & Hdom).
    apply (not_elem_of_nil (Db.cs_key r)), Hm. exists r. split_and!; try done. by apply domain_suffix.
  - assert (∃ r, r ∈ Db.current_state_events d ∧ join_row roomID r ∧
      has_suffix (Db.cs_key r) (":" +:+ host) = true ∧ u = Db.cs_key r) as (r & Hr & Hj & Hx & ->) by (apply Hm; left).
    rewrite !bool_decide_true; [apply evals_ret| |by apply Hd]. exists r. auto.
Qed.

Lemma evals_IsPartialStateRoom roomID :
  evals (IsPartialStateRoom roomID) (Ok (bool_decide (roomID ∈ Db.partial_state_rooms d))).
Proof.
  unfold IsPartialStateRoom. eapply evals_bind; [apply evals_query|]. simpl.
  assert (bool_decide (is_Some (head (filter (λ r, r = roomID) (Db.partial_state_rooms d)))) =
    bool_decide (roomID ∈ Db.partial_state_rooms d)) as <-; [|apply evals_ret].
  apply bool_decide_ext. split.
  - intros [x Hx]. destruct (filter _ _) as [|y l] eqn:E; [done|].
    assert (y ∈ filter (λ r, r = roomID) (Db.partial_state_rooms d)) as [-> ?]%list_elem_of_filter; [rewrite E; left|done].
  - intros Hin. assert (roomID ∈ filter (λ r, r = roomID) (Db.partial_state_rooms d)) as Hf
      by by apply list_elem_of_filter.
    destruct (filter _ _); [by apply not_elem_of_nil in Hf|]. by eexists.
Qed.

(** ** The room's ACL *)
Definition acl_rows (roomID : string) : list (string * string) :=
  c ← filter (λ c, Db.cs_room c = roomID ∧ Db.cs_type c = "m.room.server_acl"%string ∧ Db.cs_key c = EmptyString)
        (Db.current_state_events d);
  j ← filter (λ j, Db.ej_id j = Db.cs_event c) (Db.event_json d);
  [(Db.cs_event c, Db.ej_json j)].
(** The current ACL event's, or none: no restriction, like an event that does not
    parse. *)
Definition room_acl (roomID : string) : option ServerACL :=
  p ← head (acl_rows roomID); ParseServerACL p.2.

Lemma evals_found {A} (h : option A) :
  evals (match h with Some p => mret p | None => fail ErrNotFound end)
        (match h with Some p => Ok p | None => Err ErrNotFound end).
Proof. destruct h; [apply evals_ret|apply evals_fail]. Qed.

(** Each event has one JSON. *)
Definition one_json : Prop :=
  ∀ j1 j2, j1 ∈ Db.event_json d → j2 ∈ Db.event_json d → Db.ej_id j1 = Db.ej_id j2 → Db.ej_json j1 = Db.ej_json j2.

Lemma acl_row_json roomID id raw : (id, raw) ∈ acl_rows roomID →
  ∃ j, j ∈ Db.event_json d ∧ Db.ej_id j = id ∧ Db.ej_json j = raw.
Proof.
  unfold acl_rows. rewrite list_elem_of_bind. intros (c & Hin & _).
  apply list_elem_of_bind in Hin as (j & Hin & [Hid Hj]%list_elem_of_filter).
  apply list_elem_of_singleton in Hin. simplify_eq. eauto.
Qed.

Lemma revals_serverACL roomID : one_json → revals (serverACL roomID) (Ok (room_acl roomID)).
Proof.
  intros Hj. unfold serverACL.
  eapply (revals_bind _ _ _ _ (match head (acl_rows roomID) with Some p => Ok p | None => Err ErrNotFound end)).
  { apply revals_try, revals_lift. unfold GetCurrentStateEvent. eapply evals_bind; [apply evals_query|].
    apply (evals_found (head (acl_rows roomID))). }
  unfold room_acl. destruct (head (acl_rows roomID)) as [[id raw]|] eqn:E; [|apply revals_ret]. simpl.
  assert ((id, raw) ∈ acl_rows roomID) as Hin by (destruct (acl_rows roomID); [done|]; simplify_eq/=; left).
  apply acl_row_json in Hin as (j & Hjin & Hid & Hraw).
  assert (∀ a, acl_entry d id a ↔ a = ParseServerACL raw) as He.
  { intros a. unfold acl_entry. split; [intros H'; rewrite <-Hraw; by apply H'|].
    intros -> j' Hj' Hid'. f_equal. rewrite <-Hraw. apply Hj; congruence. }
  apply revals_get_acls.
  - eapply revals_bind; [by apply revals_add_acls, He|apply revals_ret].
  - intros a ->%He. apply revals_ret.
Qed.

(** What [checkAccess] answers. *)
Definition access_answer (origin roomID : string) : result error unit :=
  if bool_decide (roomID ∈ Db.partial_state_rooms d) then Err errPartialState
  else if bool_decide (joined d roomID origin) then
    if Allowed (room_acl roomID) origin then Ok tt else Err errServerBanned
  else Err errHostNotInRoom.

Lemma revals_checkAccess origin roomID :
  one_json → clear_host d roomID origin → revals (checkAccess origin roomID) (access_answer origin roomID).
Proof.
  intros Hj Hc. unfold checkAccess, access_answer.
  eapply revals_bind; [apply revals_lift, evals_wrap, evals_IsPartialStateRoom|].
  case_bool_decide; [apply revals_fail|].
  eapply revals_bind; [by apply revals_lift, evals_wrap, evals_IsHostInRoom|].
  case_bool_decide; simpl; [|apply revals_fail].
  eapply revals_bind; [by apply revals_serverACL|].
  destruct (Allowed _ _); [apply revals_ret|apply revals_fail].
Qed.

End access.

(** ** A concrete room *)
Module AccessWitness.
Local Open Scope string_scope.
Definition db : DB :=
  Db.MkDb [] [Db.JsonRow "$acl" (js "{'content':{'allow':['*'],'deny':['evil.*']}}") "{}" None] [] [] [] [] [] [] [] [] []
    [Db.CseRow "!r" "m.room.server_acl" "" "$acl" None;
     Db.CseRow "!r" "m.room.member" "@u:h" "$u" (Some "join");
     Db.CseRow "!r" "m.room.member" "@e:evil.org" "$e" (Some "join")] ["!p"] [] [] [] [].
Definition start : rworld :=
  NewResolver (MkWorld (λ _, Ok db) (λ _, false) 50 0 (newCaches Settings.DefaultSettings) Trace.WithTrace).

Lemma rows_joined r : r ∈ Db.current_state_events db → join_row "!r" r →
  Db.cs_key r = "@u:h" ∨ Db.cs_key r = "@e:evil.org".
Proof.
  simpl. rewrite !elem_of_cons. intros [->|[->|[->|Hr]]] (? & ? & _); [done|by left|by right|].
  by apply not_elem_of_nil in Hr.
Qed.

Lemma access_clear host : host = "h" ∨ host = "evil.org" ∨ host = "else" → clear_host db "!r" host.
Proof.
  intros Hh. split.
  - destruct Hh as [->|[->| ->]]; by split_and!.
  - by destruct Hh as [->|[->| ->]].
  - intros r Hr Hj. destruct (rows_joined r Hr Hj) as [-> | ->], Hh as [->|[->| ->]]; by vm_compute.
Qed.

Lemma single : one_json db.
Proof. intros j1 j2 Hj1%list_elem_of_singleton Hj2%list_elem_of_singleton _. congruence. Qed.

Lemma access_fits : rfit (H := Sample.ext) db 20 start.
Proof.
  split.
  - split; [done|done| |]; [vm_compute; lia|]. apply keeps_new. repeat constructor; done.
  - apply holds_new; [apply sizeOfACL_nonneg|done].
Qed.
End AccessWitness.

