(* ===== verification/Served.v ===== *)
(** * What the resolver answers, from the tables

    Specifications of the resolver's calls that mention no cache and no query, and
    the proofs that the calls refine them: the state before an event, the
    visibility of an event to a server, what /event and /get_missing_events serve. *)
From S2P Require Import Prelude Cache Json JsonStream Store AuthChain StateGroups MissingEvents External Events Acl Wire Resolver Access.

Open Scope Z_scope.

(** ** The state before an event *)

(** The state at the event's group is the state after it; before it, the event's
    own entry was the one it replaces, or absent. *)
Definition before (ev : Event) (after : StateMap) : StateMap :=
  match StateKey_ ev with
  | None => after
  | Some key =>
      let k := SK (Type_ ev) key in
      if decide (is_Some (after !! k)) then
        let r := replacesState (JSON ev) in
        if decide (r = EmptyString) then delete k after else <[k := r]> after
      else after
  end.
Definition at_group (d : DB) (g : Z) : StateMap := default ∅ (state_at d g).
Definition ids_before (d : DB) (ev : Event) (g : Z) : list string := (map_to_list (before ev (at_group d g))).*2.

(** What [StateIDs] may answer once the caller has access; the list's order is the
    map's. *)
Inductive state_answer (d : DB) (roomID eventID : string) : result error StateIDsResponse → Prop :=
| sa_unknown :
    raw_event d eventID = None → state_answer d roomID eventID (Err (errEventNotFound eventID))
| sa_other_room ev :
    raw_event d eventID = Some ev → RoomID ev ≠ roomID →
    state_answer d roomID eventID (Err (errEventNotInRoom eventID roomID))
| sa_rejected ev :
    raw_event d eventID = Some ev → RoomID ev = roomID → RejectedReason ev ≠ EmptyString →
    state_answer d roomID eventID (Err (errEventNotFound eventID))
| sa_outlier ev :
    raw_event d eventID = Some ev → RoomID ev = roomID → RejectedReason ev = EmptyString → Outlier ev = true →
    state_answer d roomID eventID (Err (errStateNotKnown eventID))
| sa_no_state ev :
    raw_event d eventID = Some ev → RoomID ev = roomID → RejectedReason ev = EmptyString → Outlier ev = false →
    event_group d eventID = None → state_answer d roomID eventID (Err (errStateNotKnown eventID))
| sa_state ev g pdus chain :
    raw_event d eventID = Some ev → RoomID ev = roomID → RejectedReason ev = EmptyString → Outlier ev = false →
    event_group d eventID = Some g → pdus ≡ₚ ids_before d ev g →
    NoDup chain → (∀ e, e ∈ chain ↔ in_chain d pdus e) →
    state_answer d roomID eventID (Ok (SIR pdus chain)).

(** The caller waiting on another's computation of the same answer. *)
Definition shared (d : DB) (roomID eventID : string) (other : option flight_outcome) : Prop :=
  match other with Some (Delivered r) => state_answer d roomID eventID r | _ => True end.

Section served.
Context `{!External} (d : DB) (F : nat).
Notation evals := (evals d F (promises d)).
Notation revals := (revals d F).

(** What the theorems assume of the tables: one row per event, delta groups, and
    a cover index that is right where it is present. *)
Record proper : Prop := {
  pr_keyed : keyed d;
  pr_deltas : delta_groups d;
  pr_index : cover_index d;
  pr_json : one_json d;
  pr_ids : NoDup (Db.ev_id <$> Db.events d);
  pr_named : named d;
  pr_fuel : (chain_fuel d ≤ F)%nat }.
Context (Hd : proper).

Lemma evals_event id :
  evals (GetEvent id) (match raw_event d id with Some e => Ok (marked d e) | None => Err ErrNotFound end).
Proof using Hd. apply evals_GetEvent; [apply Hd|done]. Qed.

Lemma evals_group id :
  evals (GetStateGroupForEvent id) (match event_group d id with Some g => Ok g | None => Err ErrNotFound end).
Proof using Type. by apply evals_GetStateGroupForEvent. Qed.

Lemma state_at_group g : state_at d g = Some (at_group d g).
Proof using Hd. unfold at_group. by rewrite (state_at_delta d (pr_deltas Hd) g). Qed.

Lemma evals_state g : evals (GetStateForGroup g) (Ok (at_group d g)).
Proof using Hd. apply evals_GetStateForGroup; [done|apply state_at_group]. Qed.

(** The loop of [stateIDsForEvent]. *)
Definition own_entry (skip : option StateKey) (replacement : string) (p : StateKey * string) : option string :=
  if bool_decide (skip = Some p.1) then
    if bool_decide (replacement = EmptyString) then None else Some replacement
  else Some p.2.

Lemma own_entry_cons skip r p (l : list (StateKey * string)) :
  omap (own_entry skip r) (p :: l) = (option_list (own_entry skip r p) ++ omap (own_entry skip r) l)%list.
Proof using Type. cbn. by destruct (own_entry skip r p). Qed.

Lemma own_entry_other k r (l : list (StateKey * string)) : k ∉ l.*1 → omap (own_entry (Some k) r) l = l.*2.
Proof using Type.
  induction l as [|[k' v] l IH]; [done|]. rewrite fmap_cons, not_elem_of_cons. intros [Hne Hl].
  rewrite own_entry_cons, IH by done. unfold own_entry. by rewrite bool_decide_false by (simpl in *; congruence).
Qed.

Lemma own_entry_none r (l : list (StateKey * string)) : omap (own_entry None r) l = l.*2.
Proof using Type. induction l as [|p l IH]; [done|]. by rewrite own_entry_cons, IH. Qed.

Lemma own_entry_before ev (m : StateMap) :
  omap (own_entry (SK (Type_ ev) <$> StateKey_ ev) (if IsStateEvent ev then replacesState (JSON ev) else EmptyString))
    (map_to_list m) ≡ₚ (map_to_list (before ev m)).*2.
Proof using Type.
  unfold before, IsStateEvent. destruct (StateKey_ ev) as [key|]; cbn [fmap option_fmap option_map].
  2: by rewrite own_entry_none.
  rewrite bool_decide_true by eauto. set (k := SK (Type_ ev) key). set (r := replacesState (JSON ev)).
  assert (∀ m' : StateMap, m' !! k = None → k ∉ (map_to_list m').*1) as Hk.
  { intros m' Hm' ([k' v] & -> & Hin%elem_of_map_to_list)%list_elem_of_fmap. simpl in *. congruence. }
  case_decide as Hs; [destruct Hs as [v Hv]|rewrite own_entry_other; [done|]; by apply Hk, eq_None_not_Some].
  assert (map_to_list m ≡ₚ (k, v) :: map_to_list (delete k m)) as -> by (symmetry; by apply map_to_list_delete).
  rewrite own_entry_cons, own_entry_other by apply Hk, lookup_delete_eq.
  unfold own_entry. cbn [fst snd]. rewrite bool_decide_true by done.
  case_decide as Hr; [by rewrite bool_decide_true by done|rewrite bool_decide_false by done].
  rewrite <-insert_delete_eq, map_to_list_insert by apply lookup_delete_eq. done.
Qed.

(** The outcome of [stateIDsForEvent]. *)
Definition resolved (roomID eventID : string) (r : result error (list string)) : Prop :=
  match r with
  | Err e => state_answer d roomID eventID (Err e)
  | Ok pdus =>
      ∃ ev g, raw_event d eventID = Some ev ∧ RoomID ev = roomID ∧ RejectedReason ev = EmptyString ∧
        Outlier ev = false ∧ event_group d eventID = Some g ∧ pdus ≡ₚ ids_before d ev g
  end.

Lemma marked_fields ev : RoomID (marked d ev) = RoomID ev ∧ RejectedReason (marked d ev) = RejectedReason ev ∧
  Outlier (marked d ev) = Outlier ev ∧ StateKey_ (marked d ev) = StateKey_ ev ∧ Type_ (marked d ev) = Type_ ev ∧
  JSON (marked d ev) = JSON ev ∧ EventID (marked d ev) = EventID ev ∧ IsStateEvent (marked d ev) = IsStateEvent ev.
Proof using Type. unfold marked. by destruct (redacted_by d ev). Qed.

Lemma evals_stateIDs roomID eventID :
  ∃ r, evals (stateIDsForEvent roomID eventID) r ∧ resolved roomID eventID r.
Proof using Hd.
  pose proof (evals_event eventID) as He. unfold stateIDsForEvent.
  destruct (raw_event d eventID) as [ev|] eqn:Hev.
  2: { eexists (Err _). split; [eapply evals_bind; [by apply evals_try|apply evals_fail]|by apply sa_unknown]. }
  destruct (marked_fields ev) as (E1 & E2 & E3 & E4 & E5 & E6 & _ & E8).
  destruct (decide (RoomID ev = roomID)) as [Hr|Hr].
  2: { exists (Err (errEventNotInRoom eventID roomID)). split; [|by eapply sa_other_room].
       eapply evals_bind; [by apply evals_try|]. cbv beta iota. rewrite E1, bool_decide_true by done. apply evals_fail. }
  destruct (decide (RejectedReason ev = EmptyString)) as [Hj|Hj].
  2: { exists (Err (errEventNotFound eventID)). split; [|by eapply sa_rejected].
       eapply evals_bind; [by apply evals_try|]. cbv beta iota.
       rewrite E1, bool_decide_false, E2, bool_decide_true by (done || tauto). apply evals_fail. }
  destruct (Outlier ev) eqn:Ho.
  { exists (Err (errStateNotKnown eventID)). split; [|by eapply sa_outlier].
    eapply evals_bind; [by apply evals_try|]. cbv beta iota.
    rewrite E1, bool_decide_false, E2, bool_decide_false, E3 by tauto. apply evals_fail. }
  pose proof (evals_group eventID) as Hg. destruct (event_group d eventID) as [g|] eqn:Eg.
  2: { exists (Err (errStateNotKnown eventID)). split; [|by eapply sa_no_state].
       eapply evals_bind; [by apply evals_try|]. cbv beta iota.
       rewrite E1, bool_decide_false, E2, bool_decide_false, E3 by tauto.
       eapply evals_bind; [by apply evals_try|]. apply evals_fail. }
  eexists (Ok _). split.
  - eapply evals_bind; [by apply evals_try|]. cbv beta iota.
    rewrite E1, bool_decide_false, E2, bool_decide_false, E3 by tauto.
    eapply evals_bind; [by apply evals_try|]. cbv beta iota.
    eapply evals_bind; [apply evals_wrap, evals_state|]. apply evals_ret.
  - exists ev, g. split_and!; try done. rewrite E4, E5, E6, E8. apply own_entry_before.
Qed.

(** ** Visibility *)

(** The history visibility at an event; [shared] when there is none to be found. *)
Definition visibility_at (ev : Event) : string :=
  default HistoryVisibilityShared (
    g ← (if Outlier ev then None else event_group d (EventID ev));
    id ← at_group d g !! SK historyVisibilityType EmptyString;
    e ← raw_event d id;
    let v := historyVisibilityOf (JSON e) in
    if decide (v = EmptyString) then None else Some v).

(** A user of the server had that membership at the event. *)
Definition had_member (ev : Event) (server membership : string) : Prop :=
  Outlier ev = false ∧ ∃ g user id e,
    event_group d (EventID ev) = Some g ∧ at_group d g !! SK "m.room.member" user = Some id ∧
    domainOf user = server ∧ raw_event d id = Some e ∧ membershipOf (JSON e) = membership.

Definition visible_to (ev : Event) (sender server localServer : string) (partial : bool) : Prop :=
  sender ∉ Db.erased_users d ∧ (partial = true → domainOf sender = localServer) ∧
  (restricted (visibility_at ev) = false ∨ had_member ev server MembershipJoin ∨
   visibility_at ev = HistoryVisibilityInvited ∧ had_member ev server MembershipInvite).

Lemma server_members_spec server (m : StateMap) id :
  server ≠ EmptyString →
  id ∈ (server_members server (filterMembersForServer server m)).*1 ↔
  ∃ user, m !! SK "m.room.member" user = Some id ∧ domainOf user = server.
Proof using Type.
  intros Hne. unfold server_members, filterMembersForServer. rewrite <-list_fmap_compose, list_elem_of_fmap. split.
  - intros ([[ty user] i] & -> & [Hdom Hin%elem_of_map_to_list]%list_elem_of_filter).
    apply map_lookup_filter_Some in Hin as [Hm [Hty _]]. simpl in *. subst ty. eauto.
  - intros (user & Hm & Hdom). exists (SK "m.room.member" user, id). split; [done|].
    apply list_elem_of_filter. split; [done|]. apply elem_of_map_to_list, map_lookup_filter_Some. split; [done|].
    split; [done|]. by apply domain_suffix.
Qed.

Lemma evals_members server (m : StateMap) :
  server ≠ EmptyString →
  let keyOf := server_members server (filterMembersForServer server m) in
  ∃ evs, evals (wrap "membership events" (GetEvents keyOf.*1)) (Ok evs) ∧
    ∀ x, (∃ id ev, (evs : EventMap) !! id = Some ev ∧ membershipOf (JSON ev) = x) ↔
      ∃ user id e, m !! SK "m.room.member" user = Some id ∧ domainOf user = server ∧
        raw_event d id = Some e ∧ membershipOf (JSON e) = x.
Proof using Hd.
  intros Hne keyOf. eexists. split; [apply evals_wrap, evals_GetEvents; [apply Hd|done]|].
  intros x. setoid_rewrite lookup_fmap. setoid_rewrite raw_map_lookup. split.
  - intros (id & ev & He & <-). destruct (decide (id ∈ keyOf.*1)) as [Hin|]; [|done].
    apply server_members_spec in Hin as (user & Hm & Hdom); [|done].
    destruct (raw_event d id) as [e|] eqn:Her; [|done]. injection He as <-.
    exists user, id, e. by rewrite (proj1 (proj2 (proj2 (proj2 (proj2 (proj2 (marked_fields e))))))).
  - intros (user & id & e & Hm & Hdom & He & <-). exists id, (marked d e).
    rewrite decide_True by (apply server_members_spec; eauto). rewrite He. split; [done|].
    by rewrite (proj1 (proj2 (proj2 (proj2 (proj2 (proj2 (marked_fields e))))))).
Qed.

Lemma evals_visibility_event (m : StateMap) :
  evals (match m !! SK historyVisibilityType EmptyString with
         | None => mret HistoryVisibilityShared
         | Some visEventID =>
             r ← try (GetEvent visEventID);
             mret (match r with
                   | Ok visEvent =>
                       let v := historyVisibilityOf (JSON visEvent) in
                       if bool_decide (v = EmptyString) then HistoryVisibilityShared else v
                   | Err _ => HistoryVisibilityShared
                   end)
         end)
    (Ok (default HistoryVisibilityShared (
       id ← m !! SK historyVisibilityType EmptyString; e ← raw_event d id;
       let v := historyVisibilityOf (JSON e) in if decide (v = EmptyString) then None else Some v))).
Proof using Hd.
  destruct (m !! _) as [id|]; [|apply evals_ret]. eapply evals_bind; [apply evals_try, evals_event|]. simpl.
  destruct (raw_event d id) as [e|]; [|apply evals_ret]. simpl.
  rewrite (proj1 (proj2 (proj2 (proj2 (proj2 (proj2 (marked_fields e))))))).
  case_decide; [rewrite bool_decide_true by done|rewrite bool_decide_false by done]; apply evals_ret.
Qed.

Lemma evals_visibilityAt ev server :
  no_specials server → server ≠ EmptyString →
  ∃ ms, evals (visibilityAt ev server) (Ok (visibility_at ev, ms)) ∧
    (restricted (visibility_at ev) = true →
     ∀ x, (∃ m, m ∈ ms ∧ Membership_ m = x) ↔ had_member ev server x).
Proof using Hd.
  intros Hs Hne. unfold visibilityAt, visibility_at, had_member. destruct (Outlier ev).
  { exists []. split; [apply evals_ret|done]. }
  pose proof (evals_group (EventID ev)) as Hg. destruct (event_group d (EventID ev)) as [g|].
  2: { exists []. split; [|done]. eapply evals_bind; [by apply evals_try|apply evals_ret]. }
  cbn [mbind option_bind].
  set (vis := default HistoryVisibilityShared (at_group d g !! SK historyVisibilityType EmptyString ≫= _)).
  assert (∀ k : string → M (string * list Membership), ∀ r, evals (k vis) r →
    evals (state ← wrap "history visibility state" (GetFilteredStateForGroup g [historyVisibilityType]);
           (match (state : StateMap) !! SK historyVisibilityType EmptyString with
            | None => mret HistoryVisibilityShared
            | Some visEventID =>
                r ← try (GetEvent visEventID);
                mret (match r with
                      | Ok visEvent =>
                          let v := historyVisibilityOf (JSON visEvent) in
                          if bool_decide (v = EmptyString) then HistoryVisibilityShared else v
                      | Err _ => HistoryVisibilityShared
                      end)
            end) ≫= k) r) as Hvis.
  { intros k r Hk. eapply evals_bind.
    { apply evals_wrap, (evals_GetFilteredStateForGroup d F (promises d)); [done|done| |apply state_at_group].
      split; [done|]. by repeat constructor. }
    eapply evals_bind; [apply evals_visibility_event|].
    assert (filterByTypes [historyVisibilityType] (at_group d g) !! SK historyVisibilityType EmptyString =
      at_group d g !! SK historyVisibilityType EmptyString) as ->; [|exact Hk].
    apply option_eq. intros x. unfold filterByTypes. rewrite map_lookup_filter_Some. split; [tauto|].
    intros Hx. split; [done|]. by left. }
  destruct (evals_members server (at_group d g) Hne) as (evs & Hevs & Hspec).
  destruct (restricted vis) eqn:Hr.
  2: { exists []. split; [|done]. eapply evals_bind; [by apply evals_try|]. apply Hvis. rewrite Hr. apply evals_ret. }
  assert (∀ k : StateMap → M (string * list Membership), ∀ r,
    evals (k (filterMembersForServer server (at_group d g))) r →
    evals (wrap "membership state" (GetServerMembershipStateForGroup g server) ≫= k) r) as Hmem.
  { intros k r Hk. eapply evals_bind; [|exact Hk].
    apply evals_wrap, (evals_GetServerMembership d F (promises d)); [done|done|done|apply state_at_group]. }
  destruct (server_members server (filterMembersForServer server (at_group d g))) as [|x l] eqn:Hk.
  - exists []. split.
    + eapply evals_bind; [by apply evals_try|]. apply Hvis. rewrite Hr. apply Hmem. rewrite Hk. apply evals_ret.
    + intros _ y. split; [by intros (? & ?%not_elem_of_nil & _)|].
      intros (_ & g' & user & id & e & [= <-] & Hm & Hdom & _). exfalso.
      apply (not_elem_of_nil id). change [] with ([] : list (string * string)).*1. rewrite <-Hk.
      apply server_members_spec; eauto.
  - eexists. split.
    + eapply evals_bind; [by apply evals_try|]. apply Hvis. rewrite Hr. apply Hmem. rewrite Hk.
      eapply evals_bind; [exact Hevs|apply evals_ret].
    + intros _ y. split.
      * intros (m & ([id ev'] & -> & Hin%elem_of_map_to_list)%list_elem_of_fmap & Hy).
        split; [done|]. destruct (proj1 (Hspec y)) as (user & id' & e & ? & ? & ? & ?); [eauto|].
        exists g, user, id', e. done.
      * intros (_ & g' & user & id & e & [= <-] & Hm & Hdom & He & Hy).
        destruct (proj2 (Hspec y)) as (id' & ev' & Hl & Hy'); [eauto 10|].
        eexists. split; [apply list_elem_of_fmap; exists (id', ev'); split; [done|by apply elem_of_map_to_list]|done].
Qed.

Lemma evals_visible ev sender server localServer partial :
  no_specials server → server ≠ EmptyString → senderOf (JSON ev) = Some sender →
  ∃ b, evals (eventVisibleInRoom ev server localServer partial) (Ok b) ∧
    (b = true ↔ visible_to ev sender server localServer partial).
Proof using Hd.
  intros Hs Hne Hsend. destruct (evals_visibilityAt ev server Hs Hne) as (ms & Hv & Hms).
  eexists. split.
  - unfold eventVisibleInRoom. rewrite Hsend. eapply evals_bind; [apply evals_wrap, evals_query|].
    eapply evals_bind; [exact Hv|]. apply evals_ret.
  - unfold eventVisibleToServer, visible_to. cbn [fst snd].
    rewrite (bool_decide_ext (sender ∈ _) (sender ∈ Db.erased_users d)).
    2: { rewrite elem_of_list_to_set, list_elem_of_filter, list_elem_of_singleton. tauto. }
    case_bool_decide as He; [naive_solver|].
    destruct partial, (bool_decide (domainOf sender = localServer)) eqn:Hl; cbn [andb negb];
      rewrite ?bool_decide_eq_true, ?bool_decide_eq_false in Hl; [|naive_solver|..].
    all: destruct (restricted (visibility_at ev)) eqn:Hr; cbn [negb]; [|naive_solver].
    all: rewrite existsb_exists; setoid_rewrite <-list_elem_of_In; setoid_rewrite orb_true_iff;
      setoid_rewrite andb_true_iff; setoid_rewrite bool_decide_eq_true; rewrite <-!Hms by done; naive_solver.
Qed.

(** ** The body of an event *)
Definition rendering (ev : Event) (hide : bool) (now : Z) : result error string :=
  match (if hide then redactEvent ev else Some (JSON ev)) with
  | None => Err (ErrText "redact event")
  | Some body =>
      match applyPDUJSONRules body now with None => Err (ErrText "prepare pdu") | Some out => Ok out end
  end.

(** An event goes out redacted exactly if it is redacted or hidden from the server. *)
Definition must_hide (ev : Event) (sender server localServer : string) (partial hide : bool) : Prop :=
  hide = true ↔ redacted d ev ∨ ¬ visible_to ev sender server localServer partial.

Inductive shown (ev : Event) (server localServer : string) (partial : bool) (now : Z) : result error string → Prop :=
| shown_no_sender : senderOf (JSON ev) = None → shown ev server localServer partial now (Err (ErrText "parse sender"))
| shown_body sender hide :
    senderOf (JSON ev) = Some sender → must_hide ev sender server localServer partial hide →
    shown ev server localServer partial now (rendering ev hide now).

Lemma visible_marked ev sender server localServer partial :
  visible_to (marked d ev) sender server localServer partial ↔ visible_to ev sender server localServer partial.
Proof using Type.
  destruct (marked_fields ev) as (_ & _ & Ho & _ & _ & _ & Hid & _).
  unfold visible_to, visibility_at, had_member. by rewrite Ho, Hid.
Qed.

Lemma redactEvent_marked ev : redactEvent (marked d ev) = redactEvent ev.
Proof using Type. unfold marked. by destruct (redacted_by d ev). Qed.

Lemma evals_rendering ev hide now visible :
  IsRedacted ev || negb visible = hide → evals (event_body ev visible now) (rendering ev hide now).
Proof using Type.
  intros <-. unfold event_body, rendering, rendered. destruct (IsRedacted ev || negb visible).
  - destruct (redactEvent ev) as [b|]; [|eapply evals_bind_err, evals_fail].
    eapply evals_bind; [apply evals_ret|]. destruct (applyPDUJSONRules b now); [apply evals_ret|apply evals_fail].
  - eapply evals_bind; [apply evals_ret|].
    destruct (applyPDUJSONRules (JSON ev) now); [apply evals_ret|apply evals_fail].
Qed.

Lemma evals_shown id ev server localServer partial now :
  raw_event d id = Some ev → no_specials server → server ≠ EmptyString →
  ∃ r, evals (missingEventBody (marked d ev) server localServer partial now) r ∧
    shown ev server localServer partial now r.
Proof using Hd.
  intros Hev Hs Hne. unfold missingEventBody.
  assert (JSON (marked d ev) = JSON ev) as Hj by apply marked_fields.
  destruct (senderOf (JSON ev)) as [sender|] eqn:Hsend.
  2: { eexists. split; [|by apply shown_no_sender]. eapply evals_bind_err.
       unfold eventVisibleInRoom. rewrite Hj, Hsend. apply evals_fail. }
  destruct (evals_visible (marked d ev) sender server localServer partial Hs Hne) as (b & Hb & Hvis); [by rewrite Hj|].
  rewrite visible_marked in Hvis. eexists. split.
  - eapply evals_bind; [exact Hb|]. by apply evals_rendering.
  - assert (∀ h, rendering (marked d ev) h now = rendering ev h now) as ->
      by (intros h; unfold rendering; by rewrite redactEvent_marked, Hj).
    eapply shown_body; [done|]. unfold must_hide. rewrite orb_true_iff, negb_true_iff.
    rewrite marked_redacted by (apply Hd || by eapply raw_event_unredacted).
    destruct b; naive_solver.
Qed.

(** ** /event *)
Inductive event_answer (now : Z) (origin serverName eventID : string) : result error TransactionResponse → Prop :=
| ea_unknown : raw_event d eventID = None → event_answer now origin serverName eventID (Err ErrEventNotFound)
| ea_partial ev :
    raw_event d eventID = Some ev → RoomID ev ∈ Db.partial_state_rooms d →
    event_answer now origin serverName eventID (Err errPartialState)
| ea_absent ev :
    raw_event d eventID = Some ev → RoomID ev ∉ Db.partial_state_rooms d → ¬ joined d (RoomID ev) origin →
    event_answer now origin serverName eventID (Err errHostNotInRoom)
| ea_served ev r :
    raw_event d eventID = Some ev → RoomID ev ∉ Db.partial_state_rooms d → joined d (RoomID ev) origin →
    shown ev origin serverName false now r →
    event_answer now origin serverName eventID
      (match r with Ok body => Ok (TR serverName now [body]) | Err e => Err e end).

Lemma evals_Event now origin serverName eventID :
  (∀ ev, raw_event d eventID = Some ev → clear_host d (RoomID ev) origin) →
  ∃ r, evals (Event_ now origin serverName eventID) r ∧ event_answer now origin serverName eventID r.
Proof using Hd.
  intros Hc. pose proof (evals_event eventID) as He. unfold Event_.
  destruct (raw_event d eventID) as [ev|] eqn:Hev.
  2: { eexists. split; [eapply evals_bind; [by apply evals_try|apply evals_fail]|by apply ea_unknown]. }
  specialize (Hc ev eq_refl). assert (RoomID (marked d ev) = RoomID ev) as Hr by apply marked_fields.
  pose proof (evals_IsPartialStateRoom d F (RoomID ev)) as Hp.
  case_bool_decide as Hpart.
  { eexists. split; [|by apply (ea_partial _ _ _ _ ev)]. eapply evals_bind; [by apply evals_try|]. cbv beta iota.
    rewrite Hr. eapply evals_bind; [by apply evals_wrap|]. apply evals_fail. }
  pose proof (evals_IsHostInRoom d F (RoomID ev) origin Hc) as Hh.
  case_bool_decide as Hjoin.
  2: { eexists. split; [|by apply (ea_absent _ _ _ _ ev)]. eapply evals_bind; [by apply evals_try|]. cbv beta iota.
       rewrite Hr. eapply evals_bind; [by apply evals_wrap|]. cbv beta iota.
       eapply evals_bind; [by apply evals_wrap|]. apply evals_fail. }
  destruct (evals_shown eventID ev origin serverName false now Hev) as (r & Hb & Hsh); [apply Hc..|].
  eexists. split; [|by apply (ea_served _ _ _ _ ev)].
  eapply evals_bind; [by apply evals_try|]. cbv beta iota. rewrite Hr.
  eapply evals_bind; [by apply evals_wrap|]. cbv beta iota.
  eapply evals_bind; [by apply evals_wrap|]. cbv beta iota. cbn [negb].
  unfold missingEventBody in Hb. intros w Hw. destruct (Hb w Hw) as (w' & E & Hw').
  exists w'. split; [|done]. revert E. unfold eventVisible, mbind, M_bind.
  destruct (eventVisibleInRoom _ _ _ _ w) as [[v|e] w1]; [|by intros [= <- ->]].
  intros E. rewrite E. by destruct r.
Qed.

(** ** /get_missing_events *)
Inductive item (server localServer : string) (partial : bool) (now : Z) (id : string) : option string → Prop :=
| item_unknown : raw_event d id = None → item server localServer partial now id None
| item_rejected ev :
    raw_event d id = Some ev → RejectedReason ev ≠ EmptyString → item server localServer partial now id None
| item_withheld ev :
    raw_event d id = Some ev → withheld d ev → item server localServer partial now id None
| item_shown ev body :
    raw_event d id = Some ev → RejectedReason ev = EmptyString → ¬ withheld d ev →
    shown ev server localServer partial now (Ok body) →
    item server localServer partial now id (if depthInCanonicalRange body then Some body else None).

(** The items in order, or the error of one that should have been shown. *)
Definition items (server localServer : string) (partial : bool) (now : Z) (ids : list string)
    (r : result error (list string)) : Prop :=
  match r with
  | Ok out => ∃ bs, Forall2 (item server localServer partial now) ids bs ∧ out = omap id bs
  | Err e => ∃ id ev, id ∈ ids ∧ raw_event d id = Some ev ∧ RejectedReason ev = EmptyString ∧ ¬ withheld d ev ∧
               shown ev server localServer partial now (Err e)
  end.

Lemma items_skip server localServer partial now id ids r :
  item server localServer partial now id None →
  items server localServer partial now ids r → items server localServer partial now (id :: ids) r.
Proof using Type.
  intros Hi. destruct r as [out|e].
  - intros (bs & Hbs & ->). exists (None :: bs). split; [by constructor|done].
  - intros (i & ev & Hin & Hrest). exists i, ev. split; [by right|done].
Qed.

Lemma withheld_marked ev : withheld d (marked d ev) ↔ withheld d ev.
Proof using Type. unfold withheld, marked. by destruct (redacted_by d ev). Qed.

Lemma evals_bodies all W server localServer partial now ids :
  no_specials server → server ≠ EmptyString → (∀ x, x ∈ ids → x ∈ all) →
  (∀ id ev, raw_event d id = Some ev → id ∈ all → (id ∈ W ↔ withheld d ev)) →
  ∃ r, evals (missing_bodies ids (marked d <$> raw_map d all) W
                (λ ev, missingEventBody ev server localServer partial now)) r ∧
    items server localServer partial now ids r.
Proof using Hd.
  intros Hs Hne Hsub HW. induction ids as [|id ids IH].
  { exists (Ok []). split; [apply evals_ret|]. by exists []. }
  destruct IH as (r & Hr & Hi); [intros x Hx; apply Hsub; by right|].
  assert (id ∈ all) as Hall by (apply Hsub; left). cbn [missing_bodies].
  rewrite lookup_fmap, raw_map_lookup, decide_True by done.
  destruct (raw_event d id) as [ev|] eqn:Hev.
  2: { exists r. split; [exact Hr|]. by apply items_skip; [apply item_unknown|]. }
  cbn [fmap option_fmap option_map]. destruct (marked_fields ev) as (_ & E2 & _). rewrite E2.
  case_bool_decide as Hrej.
  { exists r. split; [exact Hr|]. by apply items_skip; [eapply item_rejected|]. }
  assert (RejectedReason ev = EmptyString) as Hrej' by (by destruct (decide (RejectedReason ev = EmptyString))).
  case_bool_decide as Hw; rewrite (HW id ev Hev Hall) in Hw.
  { exists r. split; [exact Hr|]. by apply items_skip; [eapply item_withheld|]. }
  destruct (evals_shown id ev server localServer partial now Hev Hs Hne) as ([body|e] & Hb & Hsh).
  2: { exists (Err e). split; [by eapply evals_bind_err|]. exists id, ev. split_and!; [left|done..]. }
  destruct r as [out|e].
  2: { exists (Err e). split; [eapply evals_bind; [exact Hb|]; by apply evals_bind_err|].
       destruct Hi as (i & ev' & Hin & Hrest). exists i, ev'. split; [by right|done]. }
  exists (Ok (if depthInCanonicalRange body then body :: out else out)). split.
  - eapply evals_bind; [exact Hb|]. eapply evals_bind; [exact Hr|]. apply evals_ret.
  - destruct Hi as (bs & Hbs & ->). exists ((if depthInCanonicalRange body then Some body else None) :: bs).
    split; [constructor; [by eapply item_shown|done]|]. by destruct (depthInCanonicalRange body).
Qed.

(** What [GetMissingEvents] may answer; the ACL is consulted before membership. *)
Definition missing_answer (now : Z) (origin serverName roomID : string) (earliest latest : list string) (limit : Z)
    (r : result error MissingEventsResponse) : Prop :=
  if Allowed (room_acl d roomID) origin then
    if decide (joined d roomID origin) then
      ∃ ids truncated, evals (MissingEvents.GetMissingEvents roomID earliest latest limit) (Ok (ids, truncated)) ∧
        ∃ r', items origin serverName (bool_decide (roomID ∈ Db.partial_state_rooms d)) now ids r' ∧
          r = match r' with Ok out => Ok (MER out truncated) | Err e => Err e end
    else r = Err errHostNotInRoom
  else r = Err errServerBanned.

Lemma revals_GetMissingEvents now origin serverName roomID earliest latest limit :
  clear_host d roomID origin →
  ∃ r, revals (GetMissingEvents now origin serverName roomID earliest latest limit) r ∧
    missing_answer now origin serverName roomID earliest latest limit r.
Proof using Hd.
  intros Hc. unfold GetMissingEvents, missing_answer.
  pose proof (revals_serverACL d F roomID (pr_json Hd)) as Hacl.
  destruct (Allowed (room_acl d roomID) origin) eqn:Ha.
  2: { eexists. split; [|done]. eapply revals_bind; [exact Hacl|]. rewrite Ha. apply revals_fail. }
  pose proof (revals_lift d F _ _ (evals_wrap d F (promises d) "membership check" _ _
    (evals_IsHostInRoom d F roomID origin Hc))) as Hm.
  destruct (decide (joined d roomID origin)) as [Hj|Hj].
  2: { eexists. split; [|done]. eapply revals_bind; [exact Hacl|]. rewrite Ha.
       eapply revals_bind; [exact Hm|]. rewrite bool_decide_false by done. apply revals_fail. }
  destruct (evals_walk d F (promises d) roomID earliest latest limit) as [[ids tr] Hw].
  destruct (evals_withheld d F (promises d) (marked d <$> raw_map d ids) (pr_ids Hd)) as (W & HWe & HW).
  destruct (evals_bodies ids W origin serverName (bool_decide (roomID ∈ Db.partial_state_rooms d)) now ids)
    as (r' & Hb & Hi); [apply Hc..|done| |].
  { intros i ev Hev Hin. rewrite <-withheld_marked. apply HW. by rewrite lookup_fmap, raw_map_lookup, decide_True, Hev. }
  eexists. split; [|exists ids, tr; split; [exact Hw|]; by exists r'].
  eapply revals_bind; [exact Hacl|]. rewrite Ha. eapply revals_bind; [exact Hm|]. rewrite bool_decide_true by done.
  eapply revals_bind; [by apply revals_lift, evals_wrap, evals_IsPartialStateRoom|].
  eapply revals_bind; [by apply revals_lift, evals_wrap|]. cbn [fst snd].
  eapply revals_bind; [apply revals_lift, evals_wrap, evals_GetEvents; [apply Hd|done]|].
  eapply revals_bind; [by apply revals_lift, evals_wrap|].
  destruct r' as [out|e]; [eapply revals_bind; [by apply revals_lift|apply revals_ret]|].
  eapply revals_bind_err. by apply revals_lift.
Qed.

(** ** /state_ids *)

(** Identifiers as Matrix has them: no NUL, of bounded length. *)
Definition plain_ids (roomID eventID : string) : Prop :=
  contains_byte nul roomID = false ∧
  ∀ ev g, raw_event d eventID = Some ev → event_group d eventID = Some g →
    Forall (λ id, str_len id < 2 ^ 64) (ids_before d ev g).

Lemma evals_computeStateIDs (Hinj : Inj (=) (=) sha256) roomID eventID :
  plain_ids roomID eventID →
  ∃ r, evals (computeStateIDs roomID eventID) r ∧ state_answer d roomID eventID r.
Proof using Hd.
  intros [Hroom Hshort]. unfold computeStateIDs.
  destruct (evals_stateIDs roomID eventID) as ([pdus|e] & He & Hr); [|exists (Err e); split; [by apply evals_bind_err|done]].
  destruct Hr as (ev & g & Hev & Hrm & Hrej & Hout & Hg & Hp).
  destruct (evals_fallback sha256 d Hinj F (promises d) (λ _ _, iff_refl _) (pr_fuel Hd) roomID pdus (pr_index Hd))
    as (chain & walked & Hc & Hnd & Hin & _).
  { split; [done|]. rewrite Hp. by apply Hshort. }
  exists (Ok (SIR pdus chain)). split; [|by eapply sa_state].
  eapply evals_bind; [exact He|]. eapply evals_bind; [by apply evals_wrap|]. apply evals_ret.
Qed.
(** The answer to a caller of [StateIDs], who may be waiting on another's computation. *)
Definition state_ids_answer (other : option flight_outcome) (origin roomID eventID : string)
    (r : result error StateIDsResponse) : Prop :=
  match access_answer d origin roomID, other with
  | Err e, _ => r = Err e
  | Ok _, Some (Abandoned cause) => r = Err (Wrapped "state_ids: waiting for shared computation" cause)
  | Ok _, _ => state_answer d roomID eventID r
  end.

Lemma revals_StateIDs (Hinj : Inj (=) (=) sha256) other origin roomID eventID :
  clear_host d roomID origin → plain_ids roomID eventID → shared d roomID eventID other →
  ∃ r, revals (StateIDs other origin roomID eventID) r ∧ state_ids_answer other origin roomID eventID r.
Proof using Hd.
  intros Hc Hp Hs. pose proof (revals_checkAccess d F origin roomID (pr_json Hd) Hc) as Ha.
  unfold StateIDs, state_ids_answer. destruct (access_answer d origin roomID) as [[]|e].
  2: { exists (Err e). split; [by apply revals_bind_err|done]. }
  destruct other as [[r|cause]|]; simpl in Hs |- *.
  - exists r. split; [|done]. eapply revals_bind; [exact Ha|]. apply revals_lift.
    eapply evals_bind; [apply evals_record|]. destruct r as [[]|]; [apply evals_ret|apply evals_fail].
  - eexists. split; [|done]. eapply revals_bind; [exact Ha|]. apply revals_lift, evals_fail.
  - destruct (evals_computeStateIDs Hinj roomID eventID Hp) as (r & Hr & Hans). exists r. split; [|done].
    eapply revals_bind; [exact Ha|]. apply revals_lift. destruct r as [[]|e].
    + eapply evals_bind; [exact Hr|apply evals_ret].
    + by apply evals_bind_err.
Qed.
End served.

(** ** Properties *)
Section properties.
Context `{!External} (d : DB) (F : nat) (Hd : proper d F).

(** C8. /state_ids refines its specification, whatever the caches hold and
    whoever computes: a caller that passes the gate is answered with the state
    before the event, each entry once, and the exact auth chain of that state, or
    with the error that applies (unknown, rejected, in another room, an outlier,
    without state); a caller that waited for a shared computation of the same
    answer is told the same; one that does not pass the gate is told why. *)
Theorem state_ids_exact other origin roomID eventID w :
  Inj (=) (=) sha256 → clear_host d roomID origin → plain_ids d roomID eventID →
  shared d roomID eventID other → rfit d F w →
  ∃ r w', StateIDs other origin roomID eventID w = (r, w') ∧ rfit d F w' ∧
    match access_answer d origin roomID, other with
    | Err e, _ => r = Err e
    | Ok _, Some (Abandoned cause) => r = Err (Wrapped "state_ids: waiting for shared computation" cause)
    | Ok _, _ => state_answer d roomID eventID r
    end.
Proof using Hd.
  intros Hinj Hc Hp Hs Hw. destruct (revals_StateIDs d F Hd Hinj other origin roomID eventID Hc Hp Hs) as (r & Hr & Hans).
  destruct (Hr w Hw) as (w' & E & Hw'). by exists r, w'.
Qed.

(** C1. /event serves an event to exactly the servers in its room, and its content
    only to those that may see it: the rendered event is redacted if and only if
    the event has been redacted, its sender is erased, or the history visibility
    in force at the event hides it from every member the server had there. *)
Theorem event_served_exactly now origin serverName eventID w :
  (∀ ev, raw_event d eventID = Some ev → clear_host d (RoomID ev) origin) → fit d F (promises d) w →
  ∃ r w', Event_ now origin serverName eventID w = (r, w') ∧ fit d F (promises d) w' ∧
    event_answer d now origin serverName eventID r.
Proof using Hd.
  intros Hc Hw. destruct (evals_Event d F Hd now origin serverName eventID Hc) as (r & Hr & Ha).
  destruct (Hr w Hw) as (w' & E & Hw'). by exists r, w'.
Qed.

(** C16. /get_missing_events serves what the walk found, minus what must not be
    served: in the walk's order, rejected events, withheld redactions and events
    with an unrepresentable depth are left out, and every other event goes out in
    full or redacted by the rules of /event, with a sender of another server hidden
    while the room is partially joined.  The ACL is consulted before membership. *)
Theorem missing_events_served now origin serverName roomID earliest latest limit w :
  clear_host d roomID origin → rfit d F w →
  ∃ r w', GetMissingEvents now origin serverName roomID earliest latest limit w = (r, w') ∧ rfit d F w' ∧
    (Allowed (room_acl d roomID) origin = false → r = Err errServerBanned) ∧
    (Allowed (room_acl d roomID) origin = true → ¬ joined d roomID origin → r = Err errHostNotInRoom) ∧
    (Allowed (room_acl d roomID) origin = true → joined d roomID origin →
     ∃ ids truncated, evals d F (promises d) (MissingEvents.GetMissingEvents roomID earliest latest limit)
                        (Ok (ids, truncated)) ∧
       ∃ r', items d origin serverName (bool_decide (roomID ∈ Db.partial_state_rooms d)) now ids r' ∧
         r = match r' with Ok out => Ok (MER out truncated) | Err e => Err e end).
Proof using Hd.
  intros Hc Hw.
  destruct (revals_GetMissingEvents d F Hd now origin serverName roomID earliest latest limit Hc) as (r & Hr & Hspec).
  destruct (Hr w Hw) as (w' & E & Hw'). exists r, w'. unfold missing_answer in Hspec. split_and!; [done|done|..].
  all: destruct (Allowed _ _); [|done]; case_decide; done.
Qed.
End properties.

(** ** A concrete room *)
Module ServedWitness.
Local Open Scope string_scope.

(** History is visible to members that had joined; [o]'s user joined after [$x]. *)
Definition event (id ty : string) (key : option string) (n : Z) : Db.event_row :=
  Db.EventRow id "!r" ty key "@u:h" false n.
Definition json (id body : string) : Db.json_row := Db.JsonRow id (js body) "{}" (Some 3%Z).
Definition db : DB :=
  Db.MkDb
    [event "$c" "m.room.create" (Some "") 1; event "$m" "m.room.member" (Some "@u:h") 2;
     event "$v" "m.room.history_visibility" (Some "") 3; event "$x" "m.room.message" None 4]
    [json "$c" "{'depth':1,'sender':'@u:h'}";
     json "$m" "{'depth':2,'sender':'@u:h','content':{'membership':'join'}}";
     json "$v" "{'depth':3,'sender':'@u:h','content':{'history_visibility':'joined'}}";
     json "$x" "{'depth':4,'sender':'@u:h','content':{'body':'hi'}}"]
    [Db.RoomRow "!r" (Some "10") (Some true)] []
    [("$m", "$c"); ("$v", "$m"); ("$v", "$c"); ("$x", "$m"); ("$x", "$c")]
    [Db.EdgeRow "$x" "$v" false; Db.EdgeRow "$v" "$m" false] [] []
    [("$m", Some 1%Z); ("$v", Some 1%Z); ("$x", Some 1%Z)]
    [Db.SgsRow 1 "m.room.create" "" "$c"; Db.SgsRow 1 "m.room.member" "@u:h" "$m";
     Db.SgsRow 1 "m.room.history_visibility" "" "$v"] []
    [Db.CseRow "!r" "m.room.member" "@u:h" "$m" (Some "join"); Db.CseRow "!r" "m.room.member" "@o:o" "$o" (Some "join")]
    [] [] [] [] [].
(** A world whose queries fail where [down] says so. *)
Definition world_of (down : nat → bool) : world :=
  MkWorld (λ n, if down n then Err "connection reset" else Ok db) (λ _, false) 50 0
    (newCaches Settings.DefaultSettings) Trace.WithTrace.
Definition up : world := world_of (λ _, false).

Lemma proper_db : proper db 20.
Proof.
  split.
  - by apply keyed_check; vm_compute.
  - split; [constructor|]. by intros e ?%not_elem_of_nil.
  - split; try constructor; intros; match goal with Hx : _ ∈ _ |- _ => by apply not_elem_of_nil in Hx end.
  - intros j1 j2. simpl. rewrite !elem_of_cons.
    intros [->|[->|[->|[->|[]%not_elem_of_nil]]]] [->|[->|[->|[->|[]%not_elem_of_nil]]]]; done.
  - apply (bool_decide_unpack _). vm_compute. exact I.
  - split; by intros r ?%not_elem_of_nil.
  - vm_compute. lia.
Qed.

Lemma clear host : host = "h" ∨ host = "o" → clear_host db "!r" host.
Proof.
  intros Hh. split.
  - destruct Hh as [->| ->]; by split_and!.
  - by destruct Hh as [->| ->].
  - intros r Hr _. simpl in Hr. rewrite !elem_of_cons in Hr.
    destruct Hr as [->|[->|[]%not_elem_of_nil]], Hh as [->| ->]; by vm_compute.
Qed.

Lemma fits : fit db 20 (promises (H := Sample.ext) db) up.
Proof. split; [done|done| |]; [vm_compute; lia|]. apply keeps_new. repeat constructor; done. Qed.

Lemma rfits : rfit (H := Sample.ext) db 20 (NewResolver up).
Proof. split; [apply fits|]. apply holds_new; [apply sizeOfACL_nonneg|done]. Qed.

Lemma plain : plain_ids db "!r" "$x".
Proof.
  split; [done|]. intros ev g Hev Hg.
  assert (raw_event db "$x" = Some (MkEvent "$x" "!r" "m.room.message" None "10" (js "{'depth':4,'sender':'@u:h','content':{'body':'hi'}}")
    "{}" 4 false 3 "" "")) as Hx by (vm_compute; reflexivity).
  rewrite Hx in Hev. injection Hev as <-. assert (event_group db "$x" = Some 1%Z) as Hg1 by (vm_compute; reflexivity).
  rewrite Hg1 in Hg. injection Hg as <-. apply (bool_decide_unpack _). vm_compute. exact I.
Qed.

Definition body_full : string := js "{'depth':4,'sender':'@u:h','content':{'body':'hi'},'unsigned':{}}".
Definition body_redacted : string := js "{'depth':4,'sender':'@u:h','content':{},'unsigned':{}}".
End ServedWitness.

(** Visibility fails open.  When loading the history visibility event fails,
    the error is dropped and the history counts as shared: here [o]'s server, none
    of whose users was in the room at [$x], is served the redacted event, but
    served the content when that one query fails. *)
Theorem visibility_fails_open :
  (Event_ (H := Sample.ext) 0 "o" "h" "$x" (ServedWitness.world_of (λ _, false))).1 =
    Ok (TR "h" 0 [ServedWitness.body_redacted]) ∧
  ∃ n, (Event_ (H := Sample.ext) 0 "o" "h" "$x" (ServedWitness.world_of (λ i, bool_decide (i = n)))).1 =
    Ok (TR "h" 0 [ServedWitness.body_full]).
Proof. split; [vm_compute; reflexivity|]. exists 10%nat. vm_compute. reflexivity. Qed.

Lemma state_ids_exact_witness :
  ∃ r w', StateIDs (H := Sample.ext) None "h" "!r" "$x" (NewResolver ServedWitness.up) = (r, w') ∧
    state_answer ServedWitness.db "!r" "$x" r.
Proof.
  destruct (state_ids_exact (H := Sample.ext) ServedWitness.db 20 ServedWitness.proper_db None "h" "!r" "$x"
    (NewResolver ServedWitness.up)) as (r & w' & E & _ & Hr).
  - intros x y Hxy. exact Hxy.
  - apply ServedWitness.clear. by left.
  - apply ServedWitness.plain.
  - exact I.
  - apply ServedWitness.rfits.
  - exists r, w'. split; [exact E|].
    assert (access_answer (H := Sample.ext) ServedWitness.db "h" "!r" = Ok tt) as Ha by (vm_compute; reflexivity).
    rewrite Ha in Hr. exact Hr.
Defined.

Lemma event_served_exactly_witness :
  ∃ r w', Event_ (H := Sample.ext) 0 "o" "h" "$x" ServedWitness.up = (r, w') ∧
    event_answer (H := Sample.ext) ServedWitness.db 0 "o" "h" "$x" r.
Proof.
  destruct (event_served_exactly (H := Sample.ext) ServedWitness.db 20 ServedWitness.proper_db 0 "o" "h" "$x"
    ServedWitness.up) as (r & w' & E & _ & Hr).
  - intros ev Hev. assert (RoomID <$> raw_event ServedWitness.db "$x" = Some "!r"%string) as Hx by (vm_compute; reflexivity).
    rewrite Hev in Hx. injection Hx as ->. apply ServedWitness.clear. by right.
  - apply ServedWitness.fits.
  - eauto.
Defined.

Lemma missing_events_served_witness :
  ∃ r w', GetMissingEvents (H := Sample.ext) 0 "o" "h" "!r" ["$m"%string] ["$x"%string] 10 (NewResolver ServedWitness.up) = (r, w') ∧
    ∃ ids truncated, evals ServedWitness.db 20 (promises (H := Sample.ext) ServedWitness.db)
        (MissingEvents.GetMissingEvents "!r" ["$m"%string] ["$x"%string] 10) (Ok (ids, truncated)) ∧
      ∃ r', items (H := Sample.ext) ServedWitness.db "o" "h" false 0 ids r' ∧
        r = match r' with Ok out => Ok (MER out truncated) | Err e => Err e end.
Proof.
  destruct (missing_events_served (H := Sample.ext) ServedWitness.db 20 ServedWitness.proper_db 0 "o" "h" "!r"
    ["$m"%string] ["$x"%string] 10 (NewResolver ServedWitness.up)) as (r & w' & E & _ & _ & _ & Hr).
  - apply ServedWitness.clear. by right.
  - apply ServedWitness.rfits.
  - exists r, w'. split; [exact E|]. apply Hr; [by vm_compute|].
    exists (Db.CseRow "!r" "m.room.member" "@o:o" "$o" (Some "join"%string)). split; [right; left|].
    exact (conj (conj eq_refl (conj eq_refl eq_refl)) eq_refl).
Defined.
