(* ===== verification/ServedState.v ===== *)
(** * What the streamed /state answers, from the tables

    [State] against the tables: which events its two arrays hold, in which form and
    order, over any writer; and what a failure may be.  The batches the events are
    loaded in, the caches and the writer's progress do not show. *)
From S2P Require Import Prelude Cache Json JsonStream Store AuthChain StateGroups MissingEvents External Events Acl Pducmp Wire Digest Resolver StateStream Access Served.

Open Scope list_scope.
Open Scope Z_scope.

(** ** What is sent for one event *)
Section item.
Context `{!External} (d : DB).

(** [serialisePDU], with the redaction decided elsewhere. *)
Definition serialised (ev : Event) (hide : bool) : result error string :=
  match (if hide then redactEvent ev else Some (JSON ev)) with
  | None => Err (ErrText ("redact " +:+ EventID ev))
  | Some body =>
      match applyPDUJSONRulesAt body None with
      | None => Err (ErrText ("prepare pdu " +:+ EventID ev))
      | Some out => Ok out
      end
  end.

(** An event goes out redacted exactly if it has been redacted: visibility is not
    asked for, as the whole state of a room is shown to the servers in it. *)
Inductive state_body (ev : Event) : result error string → Prop :=
| state_body_of hide : (hide = true ↔ redacted d ev) → state_body ev (serialised ev hide).

(** The identifiers whose events are known and not rejected; the auth chain sent is
    theirs. *)
Definition known (id : string) : bool :=
  match raw_event d id with Some ev => bool_decide (RejectedReason ev = EmptyString) | None => false end.

Inductive state_item (id : string) : option string → Prop :=
| si_unknown : known id = false → state_item id None
| si_deep ev body :
    known id = true → raw_event d id = Some ev → state_body ev (Ok body) → depthInCanonicalRange body = false →
    state_item id None
| si_sent ev body :
    known id = true → raw_event d id = Some ev → state_body ev (Ok body) → depthInCanonicalRange body = true →
    is_Some (Canonical body) → state_item id (Some body).

(** An event that cannot be rendered ends the answer. *)
Inductive state_fault (id : string) : error → Prop :=
| sf_body ev e : known id = true → raw_event d id = Some ev → state_body ev (Err e) → state_fault id e
| sf_canonical ev body :
    known id = true → raw_event d id = Some ev → state_body ev (Ok body) → depthInCanonicalRange body = true →
    Canonical body = None → state_fault id (ErrText ("canonicalise " +:+ id)).

Definition item_of (id : string) : result error (option string) :=
  match raw_event d id with
  | None => Ok None
  | Some ev =>
      if bool_decide (RejectedReason ev ≠ EmptyString) then Ok None else
      match serialisePDU (marked d ev) with
      | Err e => Err e
      | Ok body =>
          if negb (depthInCanonicalRange body) then Ok None
          else match Canonical body with
               | None => Err (ErrText ("canonicalise " +:+ id))
               | Some _ => Ok (Some body)
               end
      end
  end.
End item.

Section items.
Context `{!External} (d : DB) (F : nat) (Hd : proper d F).

Lemma serialised_marked ev : serialisePDU (marked d ev) = serialised ev (IsRedacted (marked d ev)).
Proof using Type.
  unfold serialisePDU, serialised. rewrite redactEvent_marked.
  destruct (marked_fields d ev) as (_ & _ & _ & _ & _ & -> & -> & _). done.
Qed.

Lemma state_body_marked id ev : raw_event d id = Some ev → state_body d ev (serialisePDU (marked d ev)).
Proof using Hd.
  intros Hev. rewrite serialised_marked. apply state_body_of. apply marked_redacted; [apply Hd|by eapply raw_event_unredacted].
Qed.

(** [item_of] decides the specification. *)
Lemma item_of_spec id :
  match item_of d id with Ok o => state_item d id o | Err e => state_fault d id e end.
Proof using Hd.
  unfold item_of. destruct (raw_event d id) as [ev|] eqn:Hev.
  2:{ apply si_unknown. unfold known. by rewrite Hev. }
  case_bool_decide as Hj.
  { apply si_unknown. unfold known. rewrite Hev. by apply bool_decide_false. }
  assert (known d id = true) as Hk by (unfold known; rewrite Hev; apply bool_decide_true; by destruct (decide (RejectedReason ev = EmptyString))).
  pose proof (state_body_marked id ev Hev) as Hb. destruct (serialisePDU (marked d ev)) as [body|e]; [|by eapply sf_body].
  destruct (depthInCanonicalRange body) eqn:Ed; cbn [negb]; [|by eapply si_deep].
  destruct (Canonical body) as [c|] eqn:Ec; [|by eapply sf_canonical]. eapply si_sent; eauto.
Qed.
End items.

(** ** The stream, event by event *)
Section run.
Context `{!External} (d : DB) {W : Type} `{LawfulWriter W}.
Notation sink := (sink W).
Notation stream := (stream W).

(** Something has been written. *)
Definition touched (w : W) : Prop := ∃ w1 p, w = (write w1 p).1.
(** An error a writer of this kind may return. *)
Definition write_error (e : error) : Prop := ∃ (w : W) p, (write w p).2.2 = Some e.

(** One identifier after the other, as if each were a batch of its own. *)
Definition stream_id (collect : bool) (id : string) (s : stream) : stream * option error :=
  match raw_event d id with Some ev => stream_event collect id (marked d ev) s | None => (s, None) end.
Fixpoint stream_ids (collect : bool) (ids : list string) (s : stream) : stream * option error :=
  match ids with
  | [] => (s, None)
  | id :: ids =>
      let '(s, e) := stream_id collect id s in
      match e with Some e => (s, Some e) | None => stream_ids collect ids s end
  end.

Lemma stream_ids_app collect l l' s : stream_ids collect (l ++ l') s =
  let '(s, e) := stream_ids collect l s in
  match e with Some e => (s, Some e) | None => stream_ids collect l' s end.
Proof.
  revert s. induction l as [|id l IH]; intros s; [done|]. cbn [app stream_ids].
  destruct (stream_id collect id s) as [s1 [e|]]; [done|apply IH].
Qed.

(** A batch passes over the identifiers of the others. *)
Lemma stream_batch_skip collect b pre rest s : (∀ x, x ∈ pre → x ∉ b) →
  stream_batch collect (pre ++ rest) (marked d <$> raw_map d b) s = stream_batch collect rest (marked d <$> raw_map d b) s.
Proof.
  induction pre as [|x pre IH]; intros Hp; [done|]. cbn [app stream_batch].
  rewrite lookup_fmap, raw_map_lookup, decide_False by (apply Hp; left). cbn. apply IH. intros y Hy. apply Hp. by right.
Qed.
Lemma stream_batch_own collect b l rest s : (∀ x, x ∈ l → x ∈ b) →
  stream_batch collect (l ++ rest) (marked d <$> raw_map d b) s =
  let '(s, e) := stream_ids collect l s in
  match e with Some e => (s, Some e) | None => stream_batch collect rest (marked d <$> raw_map d b) s end.
Proof.
  revert s. induction l as [|x l IH]; intros s Hl; [done|]. cbn [app stream_batch stream_ids].
  rewrite lookup_fmap, raw_map_lookup, decide_True by (apply Hl; left). unfold stream_id.
  assert (∀ y, y ∈ l → y ∈ b) as Hl' by (intros y Hy; apply Hl; by right).
  destruct (raw_event d x) as [ev|]; cbn; [|by apply IH].
  destruct (stream_event collect x (marked d ev) s) as [s1 [e|]]; [done|by apply IH].
Qed.

Lemma stream_batches collect all pre bs s : all = pre ++ concat bs → NoDup all →
  fold_batches d (stream_batch collect all) bs s = stream_ids collect (concat bs) s.
Proof.
  revert pre s. induction bs as [|b bs IH]; intros pre s Hall Hnd; [done|]. cbn [concat fold_batches] in *.
  assert (stream_batch collect all (marked d <$> raw_map d b) s = stream_ids collect b s) as ->.
  { rewrite Hall in Hnd |- *. apply NoDup_app in Hnd as (_ & Hpre & (_ & Hb & _)%NoDup_app).
    rewrite stream_batch_skip by (intros x Hx Hxb; apply (Hpre x Hx), elem_of_app; by left).
    rewrite stream_batch_own by done. destruct (stream_ids collect b s) as [s1 [e|]]; [done|].
    rewrite <-(app_nil_r (concat bs)). rewrite stream_batch_skip by (intros x Hx Hxb; by apply (Hb x Hxb)). done. }
  rewrite stream_ids_app. destruct (stream_ids collect b s) as [s1 [e|]]; [done|].
  apply (IH (pre ++ b)); [by rewrite Hall, app_assoc|done].
Qed.

(** *** What the stream leaves *)
Notation canonical_of := (λ b c, Canonical b = Some c).

Lemma Write_fails p (k k' : sink) e : Write p k = (k', Some e) → write_error e.
Proof.
  unfold Write. destruct (write (s_w k) p) as [w [n o]] eqn:E. intros [= _ ->]. exists (s_w k), p. by rewrite E.
Qed.
Lemma emit_fails b c (s s' : stream) e : emit b c s = (s', Some e) → write_error e.
Proof.
  unfold emit. intros He. assert (∀ k k' e, Write b k = (k', e) → match e with Some e => write_error e | None => True end) as Hb.
  { intros k k' [e'|]; [apply Write_fails|done]. }
  destruct (bool_decide _).
  - destruct (Write "," (st_sink s)) as [k [e1|]] eqn:E1; [injection He as _ ->; by eapply Write_fails|].
    destruct (Write b k) as [k' [e2|]] eqn:E2; [injection He as _ ->; by eapply Write_fails|done].
  - destruct (Write b (st_sink s)) as [k' [e2|]] eqn:E2; [injection He as _ ->; by eapply Write_fails|done].
Qed.

Lemma emit_found b c (s s' : stream) e : emit b c s = (s', e) → st_found s' = st_found s.
Proof.
  unfold emit. destruct (if bool_decide _ then _ else _) as [k [e1|]]; [by intros [= <- _]|].
  destruct (Write b k) as [k' [e2|]]; by intros [= <- _].
Qed.

Lemma stream_id_ok collect id k0 s bs cs s' e :
  emitted canonical_of k0 s bs cs → stream_id collect id s = (s', e) →
  match e with
  | Some e => write_error e ∨ item_of d id = Err e
  | None => ∃ o cs', item_of d id = Ok o ∧ emitted canonical_of k0 s' (bs ++ option_list o) cs' ∧
              st_found s' = st_found s ++ (if collect && known d id then [id] else [])
  end.
Proof.
  intros Hs. unfold stream_id, item_of, known. destruct (raw_event d id) as [ev|].
  2:{ intros [= <- <-]. exists None, cs. rewrite andb_false_r, !app_nil_r. done. }
  unfold stream_event. destruct (marked_fields d ev) as (_ & -> & _).
  destruct (decide (RejectedReason ev = EmptyString)) as [Hj|Hj].
  2:{ rewrite !bool_decide_true, bool_decide_false by done. intros [= <- <-]. exists None, cs. rewrite andb_false_r, !app_nil_r. done. }
  rewrite bool_decide_false, (bool_decide_true (RejectedReason ev = _)) by (done || tauto). rewrite andb_true_r. cbv zeta.
  assert (∀ f n, emitted canonical_of k0 (Stream (st_sink s) (st_digest s) f (st_written s) n) bs cs) as Hs' by (intros; by destruct Hs).
  assert ((if collect then st_found s ++ [id] else st_found s) = st_found s ++ (if collect then [id] else [])) as Hf
    by (destruct collect; [done|by rewrite app_nil_r]).
  destruct (serialisePDU (marked d ev)) as [body|e0]; [|intros [= _ <-]; by right].
  destruct (depthInCanonicalRange body); cbn [negb].
  2:{ intros [= <- <-]. exists None, cs. rewrite app_nil_r. split; [done|]. split; [apply Hs'|done]. }
  destruct (Canonical body) as [c|] eqn:Ec; [|intros [= _ <-]; by right].
  intros He. destruct e as [e|]; [left; by eapply emit_fails|].
  exists (Some body), (cs ++ [c]). split; [done|]. split; [eapply emitted_emit; [apply Hs'|exact Ec|exact He]|].
  apply emit_found in He. rewrite He. exact Hf.
Qed.

Lemma stream_ids_ok collect ids k0 s bs cs s' e :
  emitted canonical_of k0 s bs cs → stream_ids collect ids s = (s', e) →
  match e with
  | Some e => write_error e ∨ ∃ id, id ∈ ids ∧ item_of d id = Err e
  | None => ∃ os cs', Forall2 (λ id o, item_of d id = Ok o) ids os ∧ emitted canonical_of k0 s' (bs ++ omap id os) cs' ∧
              st_found s' = st_found s ++ (if collect then filter (λ id, known d id = true) ids else [])
  end.
Proof.
  revert s bs cs. induction ids as [|i ids IH]; intros s bs cs Hs; cbn [stream_ids].
  { intros [= <- <-]. exists [], cs. rewrite app_nil_r. split; [constructor|]. split; [done|]. destruct collect; by rewrite app_nil_r. }
  destruct (stream_id collect i s) as [s1 e1] eqn:E1. pose proof (stream_id_ok _ _ _ _ _ _ _ _ Hs E1) as H1.
  destruct e1 as [e1|].
  { intros [= _ <-]. destruct H1 as [H1|H1]; [by left|right; exists i; split; [left|done]]. }
  destruct H1 as (o & cs1 & Ho & Hs1 & Hf1). intros Hr. specialize (IH s1 _ _ Hs1 Hr). destruct e as [e|].
  { destruct IH as [He|(j & Hj & He)]; [by left|right; exists j; split; [by right|done]]. }
  destruct IH as (os & cs2 & Hos & Hs2 & Hf2). exists (o :: os), cs2. split; [by constructor|]. split.
  - rewrite <-app_assoc in Hs2. by destruct o.
  - rewrite Hf2, Hf1, <-app_assoc. f_equal. destruct collect; cbn [andb]; [|done].
    rewrite filter_cons. destruct (known d i); case_decide; done.
Qed.

Lemma touched_write w p : touched w → touched (write w p).1.
Proof. intros _. by exists w, p. Qed.
Lemma Write_touched p (k : sink) : touched (s_w (Write p k).1).
Proof. exists (s_w k), p. unfold Write. by destruct (write (s_w k) p) as [w [n e]]. Qed.
Lemma stream_ids_touched collect ids (s : stream) : touched (s_w (st_sink s)) → touched (s_w (st_sink (stream_ids collect ids s).1)).
Proof.
  revert s. induction ids as [|i ids IH]; intros s Hs; [done|]. cbn [stream_ids].
  assert (touched (s_w (st_sink (stream_id collect i s).1))) as H1.
  { unfold stream_id. destruct (raw_event d i); [|done]. by apply stream_event_keeps; [apply touched_write|]. }
  destruct (stream_id collect i s) as [s1 [e|]]; [done|by apply IH].
Qed.

(** [streamEvents] on a list without repetitions. *)
Lemma evals_streamEvents F collect ids (k : sink) : proper d F → NoDup ids → touched (s_w k) →
  ∃ s e, evals d F (promises d) (streamEvents collect ids k) (Ok (s, e)) ∧ touched (s_w (st_sink s)) ∧
    match e with
    | Some e => write_error e ∨ ∃ id, id ∈ ids ∧ item_of d id = Err e
    | None => ∃ os cs, Forall2 (λ id o, item_of d id = Ok o) ids os ∧ emitted canonical_of k s (omap id os) cs ∧
                st_found s = (if collect then filter (λ id, known d id = true) ids else [])
    end.
Proof.
  intros Hd Hnd Hk. set (s0 := Stream k empty_digest [] 0 0). pose proof (stream_ids_touched collect ids s0 Hk) as Ht.
  destruct (stream_ids collect ids s0) as [s e] eqn:E. exists s, e. split; [|split; [exact Ht|]].
  - unfold streamEvents, GetEventsBatched. fold s0. rewrite bool_decide_false by (unfold DefaultEventBatch; lia). rewrite Nat2Z.id.
    pose proof (evals_run_batches d (pr_keyed _ _ Hd) F (promises d) (λ _ _, iff_refl _)
      (stream_batch collect ids) (batches DefaultEventBatch ids) s0) as Hr.
    assert (concat (batches DefaultEventBatch ids) = ids) as Hc by (apply batches_concat; unfold DefaultEventBatch; lia).
    rewrite (stream_batches collect ids [] (batches DefaultEventBatch ids) s0), Hc, E in Hr by done. exact Hr.
  - assert (emitted canonical_of k s0 [] []) as Hs0.
    { split; simpl; [by rewrite app_nil_str|by rewrite Z.add_0_r|done..|constructor]. }
    pose proof (stream_ids_ok _ _ _ _ _ _ _ _ Hs0 E) as Hr. by destruct e.
Qed.
End run.

(** ** The answer *)
Section served.
Context `{!External} (d : DB) (F : nat) (Hd : proper d F) {W : Type} `{LawfulWriter W}.

Definition sent (ids : list string) (bodies : list string) : Prop :=
  ∃ os, Forall2 (state_item d) ids os ∧ bodies = omap id os.

(** The digest of an array holding these bodies. *)
Definition digests (bs : list string) (dg : string) : Prop :=
  ∃ cs, Forall2 (λ b c, Canonical b = Some c) bs cs ∧ dg = digest (accumulate cs empty_digest).

(** How [State] may end once the caller has access and the event's state is [pdus]:
    with the whole answer, the auth chain being that of the known events, or with the
    error of a write or of an event that cannot be rendered. *)
Definition state_ends (pdus : list string) (res : StateResult) (k : sink W) (err : option error) : Prop :=
  ∃ chain, NoDup chain ∧ (∀ e, e ∈ chain ↔ in_chain d (filter (λ id, known d id = true) pdus) e) ∧
    touched (s_w k) ∧
    match err with
    | Some e => write_error (W := W) e ∨ ∃ id, (id ∈ pdus ∨ id ∈ chain) ∧ state_fault d id e
    | None => ∃ bs1 bs2, sent pdus bs1 ∧ sent chain bs2 ∧ taken (s_w k) = response bs1 bs2 ∧
                PDUs res = Z.of_nat (length bs1) ∧ AuthChain_ res = Z.of_nat (length bs2) ∧ Bytes res = str_len (response bs1 bs2) ∧
                digests bs1 (PDUDigest res) ∧ digests bs2 (AuthChainDigest res)
    end.

(** Where no chain is computed any will do. *)
Lemma chain_exists (Hinj : Inj (=) (=) sha256) roomID ids : plain roomID ids →
  ∃ chain, NoDup chain ∧ (∀ e, e ∈ chain ↔ in_chain d ids e) ∧
    ∃ walked, evals d F (promises d) (GetAuthChainIDsWithFallback sha256 roomID ids) (Ok (chain, walked)).
Proof using Hd.
  intros Hp. destruct (evals_fallback sha256 d Hinj F (promises d) (λ _ _, iff_refl _) (pr_fuel _ _ Hd) roomID ids (pr_index _ _ Hd) Hp)
    as (chain & walked & Hc & Hnd & Hin & _). eauto 10.
Qed.

Lemma sent_items ids os : Forall2 (λ id o, item_of d id = Ok o) ids os → sent ids (omap id os).
Proof using Hd.
  intros Hi. exists os. split; [|done]. eapply Forall2_impl; [exact Hi|]. intros i o Ho.
  pose proof (item_of_spec d F Hd i) as Hs. by rewrite Ho in Hs.
Qed.
Lemma fault_items P e : (∃ i : string, P i ∧ item_of d i = Err e) → ∃ i, P i ∧ state_fault d i e.
Proof using Hd.
  intros (i & Hi & He). exists i. split; [done|]. pose proof (item_of_spec d F Hd i) as Hs. by rewrite He in Hs.
Qed.

(** [State] from its second array on. *)
Definition auth_part (roomID : string) (s1 : stream W) : R (outcome W) :=
  let res := MkStateResult (st_written s1) 0 0 zero_digest zero_digest in
  writing res auth_head (st_sink s1) (λ k,
    r ← rtry (lift (GetAuthChainIDsWithFallback sha256 roomID (st_found s1)));
    match r with
    | Err e => done_ res k (Some (Wrapped "auth chain" e))
    | Ok (authIDs, _) =>
        p ← lift (streamEvents false authIDs k);
        let '(s2, e) := (p : stream W * option error) in
        match e with
        | Some e => done_ res (st_sink s2) (Some e)
        | None =>
            let res := MkStateResult (st_written s1) (st_written s2) 0 zero_digest zero_digest in
            writing res "]}" (st_sink s2) (λ k,
              done_ (MkStateResult (st_written s1) (st_written s2) (s_n k)
                       (digest (st_digest s1)) (digest (st_digest s2))) k None)
        end
    end).

Lemma revals_auth_part roomID s1 chain walked :
  NoDup chain → touched (s_w (st_sink s1)) → evals d F (promises d) (GetAuthChainIDsWithFallback sha256 roomID (st_found s1)) (Ok (chain, walked)) →
  ∃ res k err, revals d F (auth_part roomID s1) (Ok (res, k, err)) ∧
    touched (s_w k) ∧
    match err with
    | Some e => write_error (W := W) e ∨ ∃ i, i ∈ chain ∧ state_fault d i e
    | None => ∃ bs2, sent chain bs2 ∧ s_out k = s_out (st_sink s1) +:+ auth_head +:+ text bs2 +:+ "]}" ∧
                s_n k = s_n (st_sink s1) + str_len (auth_head +:+ text bs2 +:+ "]}") ∧
                PDUs res = st_written s1 ∧ AuthChain_ res = Z.of_nat (length bs2) ∧ Bytes res = s_n k ∧
                PDUDigest res = digest (st_digest s1) ∧ digests bs2 (AuthChainDigest res)
    end.
Proof using Hd.
  intros Hnd Ht Hchain. unfold auth_part, writing. pose proof (Write_touched auth_head (st_sink s1)) as Ht2.
  destruct (Write auth_head (st_sink s1)) as [k2 [e|]] eqn:E2.
  { eexists _, _, (Some e). split; [apply revals_ret|]. split; [exact Ht2|]. left. by eapply Write_fails. }
  destruct (evals_streamEvents d F false chain k2 Hd Hnd Ht2) as (s2 & e & Hs2 & Hts2 & Hspec).
  destruct e as [e|].
  { eexists _, _, (Some e). split.
    - eapply revals_bind; [by apply revals_try, revals_lift|]. cbv beta iota. eapply revals_bind; [by apply revals_lift|]. apply revals_ret.
    - split; [done|]. destruct Hspec as [Hw|Hf]; [by left|right]. by apply fault_items. }
  destruct Hspec as (os & cs & Hos & [Ho Hn Hwr Hdg Hcs] & _). apply Write_ok in E2 as [Eo2 En2].
  pose proof (Write_touched "]}" (st_sink s2)) as Ht3.
  destruct (Write "]}" (st_sink s2)) as [k3 [e|]] eqn:E3.
  { eexists _, _, (Some e). split; [|split; [exact Ht3|left; by eapply Write_fails]].
    eapply revals_bind; [by apply revals_try, revals_lift|]. cbv beta iota. eapply revals_bind; [by apply revals_lift|].
    cbv beta iota zeta. rewrite E3. apply revals_ret. }
  pose proof E3 as [Eo3 En3]%Write_ok. eexists _, k3, None. split.
  - eapply revals_bind; [by apply revals_try, revals_lift|]. cbv beta iota. eapply revals_bind; [by apply revals_lift|].
    cbv beta iota zeta. rewrite E3. apply revals_ret.
  - split; [exact Ht3|]. exists (omap id os). split; [by apply sent_items|]. cbn [PDUs AuthChain_ Bytes PDUDigest AuthChainDigest].
    rewrite Eo3, Ho, Eo2, En3, Hn, En2, !str_len_app, <-!app_assoc_str. split_and!; try done; [lia|]. exists cs. by rewrite Hdg.
Qed.

Lemma revals_State (Hinj : Inj (=) (=) sha256) w0 origin roomID eventID pdus :
  taken w0 = EmptyString → access_answer d origin roomID = Ok tt → clear_host d roomID origin →
  evals d F (promises d) (stateIDsForEvent roomID eventID) (Ok pdus) → NoDup pdus → plain roomID pdus →
  ∃ res k err, revals d F (State w0 origin roomID eventID) (Ok (res, k, err)) ∧ state_ends pdus res k err.
Proof using Hd.
  intros Hw0 Ha Hc Hids Hnd Hpl. set (found := filter (λ id, known d id = true) pdus).
  assert (plain roomID found) as Hpf.
  { split; [apply Hpl|]. apply Forall_forall. intros x [_ Hx]%list_elem_of_filter. destruct Hpl as [_ Hall].
    rewrite Forall_forall in Hall. by apply Hall. }
  destruct (chain_exists Hinj roomID found Hpf) as (chain & Hcnd & Hcin & walked & Hchain).
  assert (∀ m out, revals d F (m pdus) (Ok out) →
    revals d F (r ← rtry (checkAccess origin roomID);
      match r with
      | Err e => done_ no_result (fresh_sink w0) (Some e)
      | Ok _ => r ← rtry (lift (stateIDsForEvent roomID eventID));
          match r with Err e => done_ no_result (fresh_sink w0) (Some e) | Ok stateIDs => m stateIDs end
      end) (Ok out)) as Hgate.
  { intros m out Hm. pose proof (revals_checkAccess d F origin roomID (pr_json _ _ Hd) Hc) as Hacc. rewrite Ha in Hacc.
    eapply revals_bind; [by apply revals_try|]. cbv beta iota. eapply revals_bind; [by apply revals_try, revals_lift|]. exact Hm. }
  unfold State. cbv zeta. pose proof (Write_touched pdus_head (fresh_sink w0)) as Ht1.
  destruct (Write pdus_head (fresh_sink w0)) as [k1 [e|]] eqn:E1.
  { eexists _, _, (Some e). split; [apply Hgate; unfold writing; rewrite E1; apply revals_ret|].
    exists chain. split_and!; [done..|]. left. by eapply Write_fails. }
  destruct (evals_streamEvents d F true pdus k1 Hd Hnd Ht1) as (s1 & e & Hs1 & Hts1 & Hspec). destruct e as [e|].
  { eexists _, _, (Some e). split.
    - apply Hgate. unfold writing at 1. rewrite E1. eapply revals_bind; [by apply revals_lift|]. apply revals_ret.
    - exists chain. split_and!; [done..|]. destruct Hspec as [Hw|Hf]; [by left|right].
      apply fault_items in Hf as (i & Hi & Hf). exists i. split; [by left|done]. }
  destruct Hspec as (os & cs & Hos & [Ho Hn Hwr Hdg Hcs] & Hfound). fold found in Hfound.
  destruct (revals_auth_part roomID s1 chain walked Hcnd) as (res & k & err & Hrun & Hres); [done|by rewrite Hfound|].
  exists res, k, err. split.
  { apply Hgate. unfold writing at 1. rewrite E1. eapply revals_bind; [by apply revals_lift|]. exact Hrun. }
  exists chain. destruct Hres as [Ht Hres]. split; [done|]. split; [done|]. split; [done|]. destruct err as [e|].
  { destruct Hres as [Hw|(i & Hi & Hf)]; [by left|right]. exists i. split; [by right|done]. }
  destruct Hres as (bs2 & Hsent & Hout & Hk & Hp & Hac & Hb & Hdp & Hda). apply Write_ok in E1 as [Eo1 En1].
  exists (omap id os), bs2. assert (s_out k = response (omap id os) bs2) as E.
  { rewrite Hout, Ho, Eo1. unfold response, s_out. cbn [fresh_sink s_w]. by rewrite Hw0, <-!app_assoc_str. }
  split_and!; [by apply sent_items|done|exact E|by rewrite Hp, Hwr|done| |exists cs; by rewrite Hdp, Hdg|done].
  rewrite Hb, Hk, Hn, En1. unfold response. rewrite !str_len_app. cbn [fresh_sink s_n]. lia.
Qed.

(** What a call may answer. *)
Definition state_spec (origin roomID eventID : string) (w0 : W) (res : StateResult) (k : sink W) (err : option error) : Prop :=
  match access_answer d origin roomID with
  | Err e => err = Some e ∧ s_w k = w0
  | Ok _ => ∃ r, resolved d roomID eventID r ∧
      match r with
      | Err e => err = Some e ∧ s_w k = w0
      | Ok pdus => state_ends pdus res k err
      end
  end.

(** No event is the state under two keys. *)
Definition distinct_ids (eventID : string) : Prop :=
  ∀ ev g, raw_event d eventID = Some ev → event_group d eventID = Some g → NoDup (ids_before d ev g).

Lemma revals_state_spec (Hinj : Inj (=) (=) sha256) origin roomID eventID w0 :
  taken w0 = EmptyString → clear_host d roomID origin → plain_ids d roomID eventID → distinct_ids eventID →
  ∃ res k err, revals d F (State w0 origin roomID eventID) (Ok (res, k, err)) ∧
    state_spec origin roomID eventID w0 res k err.
Proof using Hd.
  intros Hw0 Hc [Hroom Hshort] Hnd. unfold state_spec.
  pose proof (revals_checkAccess d F origin roomID (pr_json _ _ Hd) Hc) as Hacc.
  destruct (access_answer d origin roomID) as [[]|e] eqn:Ha.
  2:{ exists no_result, (fresh_sink w0), (Some e). split; [|done]. unfold State.
      eapply revals_bind; [by apply revals_try|]. apply revals_ret. }
  destruct (evals_stateIDs d F Hd roomID eventID) as ([pdus|e] & He & Hr).
  2:{ exists no_result, (fresh_sink w0), (Some e). split; [|exists (Err e); done]. unfold State.
      eapply revals_bind; [by apply revals_try|]. cbv beta iota. eapply revals_bind; [by apply revals_try, revals_lift|]. apply revals_ret. }
  pose proof Hr as (ev & g & Hev & _ & _ & _ & Hg & Hp).
  destruct (revals_State Hinj w0 origin roomID eventID pdus Hw0 Ha Hc He) as (res & k & err & Hrun & Hends).
  - rewrite Hp. by apply Hnd.
  - split; [done|]. rewrite Hp. by apply Hshort.
  - exists res, k, err. split; [done|]. by exists (Ok pdus).
Qed.

(** C4. The streamed /state refines its specification, over any writer and whatever
    the caches hold.  A caller that does not pass the gate, or whose event has no
    state to be told, gets that error and nothing is written.  Otherwise the answer
    is whole or ends with an error: whole, it has the state before the event and the
    exact auth chain of its known events, each event once, in the order of the
    identifiers, redacted exactly if it has been redacted, leaving out unknown and
    rejected events and those of unrepresentable depth, and the result counts and
    digests what was written; and an error is that of a write, or of an event of the answer that
    cannot be rendered. *)
Theorem state_served origin roomID eventID w0 w :
  Inj (=) (=) sha256 → taken w0 = EmptyString → clear_host d roomID origin → plain_ids d roomID eventID →
  distinct_ids eventID → rfit d F w →
  ∃ res k err w', State w0 origin roomID eventID w = (Ok (res, k, err), w') ∧ rfit d F w' ∧
    state_spec origin roomID eventID w0 res k err.
Proof using Hd.
  intros Hinj Hw0 Hc Hp Hnd Hw. destruct (revals_state_spec Hinj origin roomID eventID w0 Hw0 Hc Hp Hnd) as (res & k & err & Hr & Hspec).
  destruct (Hr w Hw) as (w' & E & Hw'). by exists res, k, err, w'.
Qed.
End served.

(** ** The concrete room *)
Lemma ids_before_distinct ev g : raw_event ServedWitness.db "$x" = Some ev → event_group ServedWitness.db "$x" = Some g →
  NoDup (ids_before ServedWitness.db ev g).
Proof.
  intros Hev Hg. assert (StateKey_ <$> raw_event ServedWitness.db "$x" = Some None) as Hx by (vm_compute; reflexivity).
  rewrite Hev in Hx. injection Hx as Hx. assert (event_group ServedWitness.db "$x" = Some 1) as Hg1 by (vm_compute; reflexivity).
  rewrite Hg1 in Hg. injection Hg as <-. unfold ids_before, before. rewrite Hx. apply (bool_decide_unpack _). vm_compute. exact I.
Qed.

Lemma state_served_witness :
  ∃ res k err w', State (H := Sample.ext) EmptyString "h" "!r" "$x" (NewResolver ServedWitness.up) = (Ok (res, k, err), w') ∧
    ∃ pdus, resolved ServedWitness.db "!r" "$x" (Ok pdus) ∧ state_ends (H := Sample.ext) ServedWitness.db pdus res k err.
Proof.
  destruct (state_served (H := Sample.ext) ServedWitness.db 20 ServedWitness.proper_db "h" "!r" "$x" EmptyString
    (NewResolver ServedWitness.up)) as (res & k & err & w' & E & _ & Hs).
  - intros x y Hxy. exact Hxy.
  - reflexivity.
  - apply ServedWitness.clear. by left.
  - apply ServedWitness.plain.
  - exact ids_before_distinct.
  - apply ServedWitness.rfits.
  - exists res, k, err, w'. split; [exact E|]. unfold state_spec in Hs.
    assert (access_answer (H := Sample.ext) ServedWitness.db "h" "!r" = Ok tt) as Ha by (vm_compute; reflexivity).
    rewrite Ha in Hs. destruct Hs as (r & Hr & Hs). destruct r as [pdus|e]; [exact (ex_intro _ pdus (conj Hr Hs))|]. exfalso.
    destruct Hs as [-> _].
    assert (match (State (H := Sample.ext) EmptyString "h" "!r" "$x" (NewResolver ServedWitness.up)).1 with
      | Ok (_, _, None) => true | _ => false end = true) as Hok by (vm_compute; reflexivity).
    rewrite E in Hok. discriminate Hok.
Defined.
