(* ===== verification/Replication.v ===== *)
(** * [internal/replication]: Synapse's invalidations drive the caches

    The subscriber is written against the interface [Caches], as in the source; the
    store's caches are its implementation.  The handling of one replication command,
    and of whatever else the channel delivers, is a function here; [Run] and [session]
    are in [Listening].  Redis, metrics and logs are not modelled. *)
From S2P Require Import Prelude Cache Json Store.

Open Scope Z_scope.

(** ** Constants and configuration *)
Definition purgeHistoryCache : string := "ph_cache_fake".
Definition deleteRoomCache : string := "dr_cache_fake".
Definition currentStateCache : string := "cs_cache_fake".

(** The position of the event ID among the keys. *)
Definition perEventCaches : list (string * nat) :=
  [("_get_state_group_for_event", 0%nat); ("have_seen_event", 1%nat)]%string.
Definition per_event (cacheFunc : string) : option nat :=
  snd <$> List.find (λ p, bool_decide (p.1 = cacheFunc)) perEventCaches.

Record Config := MkConfig { Enabled : bool; Address : string; Channel : string; Password : string; DB_ : Z }.

Definition validate (c : Config) : option string :=
  if bool_decide (Address c = EmptyString) then
    Some "replication.address is required when replication is enabled"%string
  else if bool_decide (Channel c = EmptyString) then
    Some "replication.channel is required when replication is enabled; it must match Synapse's server_name"%string
  else None.

(** ** The interface *)
Class Caches (C : Type) := {
  set_armed : bool → C → C;
  purge : C → C;
  drop_event : string → C → C }.

(** ** One command *)

(** [strings.SplitN(s, " ", n)] for a positive [n]. *)
Fixpoint split_n (n : nat) (s : string) : list string :=
  match n with
  | O => []
  | S O => [s]
  | S n => match cut " "%char s with
           | (l, r, true) => l :: split_n n r
           | (l, _, false) => [l]
           end
  end.

(** [json.Unmarshal] into a [[]json.RawMessage] and into a [string]. *)
Definition raw_array (raw : string) : option (list string) :=
  match parse raw with
  | Ok (JArr elems) => Some elems.*2
  | Ok JNull => Some []
  | _ => None
  end.
Definition string_value (raw : string) : option string :=
  match parse raw with
  | Ok (JStr s) => Some (unquote s)
  | Ok JNull => Some EmptyString
  | _ => None
  end.

Section subscriber.
Context {C : Type} `{!Caches C}.

Definition malformed (c : C) : C := purge c.

Definition handleCacheRow (row : string) (c : C) : C :=
  match raw_array row with
  | Some (func :: rawKeys :: _) =>
      match string_value func with
      | None => malformed c
      | Some cacheFunc =>
          let nullKeys := bool_decide (rawKeys = "null"%string) in
          match (if nullKeys then Some [] else raw_array rawKeys) with
          | None => malformed c
          | Some keys =>
              if bool_decide (cacheFunc = purgeHistoryCache) || bool_decide (cacheFunc = deleteRoomCache) then
                purge c
              else if bool_decide (cacheFunc = currentStateCache) then c
              else match per_event cacheFunc with
                   | None => c
                   | Some idx =>
                       if nullKeys then purge c else
                       match keys !! idx with
                       | None => malformed c
                       | Some key =>
                           match string_value key with
                           | None => malformed c
                           | Some eventID => drop_event eventID c
                           end
                       end
                   end
          end
      end
  | _ => malformed c
  end.

Definition handle (payload : string) (c : C) : C :=
  let '(cmd, rest, _) := cut " "%char payload in
  if bool_decide (cmd ≠ "RDATA"%string) then c else
  match split_n 4 rest with
  | [stream; _; _; row] => if bool_decide (stream ≠ "caches"%string) then c else handleCacheRow row c
  | _ => malformed c
  end.

Definition arm (c : C) : C := set_armed true (set_armed false c).
Definition disarm (c : C) : C := set_armed false c.

(** ** [Run] *)

(** What the channel of a session delivers. *)
Inductive item := Subscription (kind : string) | Message (payload : string) | Pong.

Definition session_item (i : item) (c : C) : C :=
  match i with
  | Subscription kind => if bool_decide (kind ≠ "subscribe"%string) then c else arm c
  | Message payload => handle payload c
  | Pong => c
  end.

Definition maxBackoff : Z := 30.
Definition next_backoff (b : Z) : Z := let b := b * 2 in if bool_decide (maxBackoff < b) then maxBackoff else b.

Definition confirms (i : item) : bool :=
  match i with Subscription kind => bool_decide (kind = "subscribe"%string) | _ => false end.

End subscriber.

(** ** The store's caches *)
#[export] Instance store_caches : Caches caches :=
  {| set_armed := SetCachesArmed; purge := PurgeCaches; drop_event := DropEvent |}.

(** ** Announced changes *)

(** A row of the caches stream, as Synapse writes it. *)
Definition row_message (payload row : string) : Prop :=
  ∃ inst tok, contains_byte " " inst = false ∧ contains_byte " " tok = false ∧
    payload = ("RDATA" +:+ String " " ("caches" +:+ String " " (inst +:+ String " " (tok +:+ String " " row))))%string.

(** It names a cache function and its keys; [None] is null, all keys. *)
Definition names (payload func : string) (keys : option (list string)) : Prop :=
  ∃ row f k rest, row_message payload row ∧ raw_array row = Some (f :: k :: rest) ∧ string_value f = Some func ∧
    match keys with None => k = "null"%string | Some ks => k ≠ "null"%string ∧ raw_array k = Some ks end.

(** [truth P P']: what was true of cached entries by [P] is true by [P'], except for
    what the change took away. *)
Definition still (P P' : contract) : Prop :=
  (∀ g m, p_stateGroups P g m → p_stateGroups P' g m) ∧
  (∀ k ids, p_authChains P k ids → p_authChains P' k ids) ∧
  (∀ k m, p_filteredState P k m → p_filteredState P' k m).

(** ... of the event [id]: nothing is known of other events that was not before. *)
Record only_about (id : string) (P P' : contract) : Prop := {
  oa_still : still P P';
  oa_events id' e : id' ≠ id → p_events P id' e → p_events P' id' e;
  oa_groups id' g : id' ≠ id → p_eventStateGroup P id' g → p_eventStateGroup P' id' g }.

(** The change of the database that a message announces, as the contract of the
    caches before and after.  The cache functions and the place of the event ID among
    their keys are those of Synapse's replication protocol. *)
Inductive announced (payload : string) (P P' : contract) : Prop :=
| an_purged keys :
    (* history was purged: anything may have become untrue *)
    names payload "ph_cache_fake" keys → announced payload P P'
| an_deleted keys :
    (* a room was deleted *)
    names payload "dr_cache_fake" keys → announced payload P P'
| an_groups :
    (* null for keys is every key: anything about any event *)
    names payload "_get_state_group_for_event" None → announced payload P P'
| an_seen :
    names payload "have_seen_event" None → announced payload P P'
| an_group raw others id :
    (* keyed by the event: nothing about other events *)
    names payload "_get_state_group_for_event" (Some (raw :: others)) → string_value raw = Some id →
    only_about id P P' → announced payload P P'
| an_seen_event room raw others id :
    (* keyed by the room, then the event *)
    names payload "have_seen_event" (Some (room :: raw :: others)) → string_value raw = Some id →
    only_about id P P' → announced payload P P'
| an_group_keyless keys :
    (* an event that is not named, or not as a string, may be any event *)
    names payload "_get_state_group_for_event" (Some keys) → (head keys ≫= string_value) = None → announced payload P P'
| an_seen_keyless keys :
    names payload "have_seen_event" (Some keys) → (head (tail keys) ≫= string_value) = None → announced payload P P'
| an_unreadable row :
    (* a row that does not parse may have announced anything *)
    row_message payload row →
    (∀ f k rest func, raw_array row = Some (f :: k :: rest) → string_value f = Some func →
       k ≠ "null"%string ∧ raw_array k = None) → announced payload P P'.

Lemma handle_row payload row (c : caches) : row_message payload row → handle payload c = handleCacheRow row c.
Proof.
  intros (inst & tok & Hi & Ht & ->). unfold handle.
  rewrite (cut_sep " "%char "RDATA" _ eq_refl). cbn [split_n].
  rewrite (cut_sep " "%char "caches" _ eq_refl), (cut_sep " "%char inst _ Hi), (cut_sep " "%char tok _ Ht). reflexivity.
Qed.

Lemma keeps_purged P P' c : keeps P c → keeps P' (PurgeCaches c).
Proof. intros []. split; simpl; eauto using holds_purged. Qed.

Lemma keeps_dropped P P' id c : only_about id P P' → keeps P c → keeps P' (DropEvent id c).
Proof.
  intros [(H1 & H2 & H3) He Hg] []. split; simpl; eauto using holds_weaken, holds_removed.
Qed.

(** What handling comes to, for a row that names a function and its keys. *)
Lemma handle_named payload func keys (c : caches) : names payload func keys →
  handle payload c =
    (if bool_decide (func = purgeHistoryCache) || bool_decide (func = deleteRoomCache) then PurgeCaches c
     else if bool_decide (func = currentStateCache) then c
     else match per_event func, keys with
          | None, _ => c
          | Some _, None => PurgeCaches c
          | Some idx, Some keys =>
              match keys !! idx ≫= string_value with None => PurgeCaches c | Some id => DropEvent id c end
          end).
Proof.
  intros (row & f & k & rest & Hm & Hr & Hf & Hk). rewrite (handle_row _ _ _ Hm). unfold handleCacheRow. rewrite Hr, Hf. cbn zeta.
  destruct keys as [keys|].
  - destruct Hk as [Hn Hk]. rewrite (bool_decide_false (k = "null"%string)), Hk by done.
    destruct (_ || _); [done|]. destruct (bool_decide (func = _)); [done|]. destruct (per_event func) as [idx|]; [|done].
    destruct (keys !! idx) as [key|]; [|done]. cbn [mbind option_bind]. by destruct (string_value key).
  - subst k. change (bool_decide ("null" = "null")%string) with true. cbn iota.
    destruct (_ || _); [done|]. destruct (bool_decide (func = _)); [done|]. by destruct (per_event func).
Qed.

(** The tests of literal names, computed. *)
Ltac decide_names :=
  repeat match goal with
  | |- context [bool_decide (?f = ?g)] => let b := eval vm_compute in (bool_decide (f = g)) in change (bool_decide (f = g)) with b
  | |- context [per_event ?f] => let i := eval vm_compute in (per_event f) in change (per_event f) with i
  end; cbn [orb].

(** C12. No announced invalidation leaves a stale entry: if the caches told the
    truth before a change of the database, and the stream delivers the message by
    which Synapse announces it (a purge of history, the deletion of a room, the state
    group or the arrival of one event or of all, or a row that cannot be read), they
    tell the truth about the new database once it is handled; and handling never makes
    a true entry untrue. *)
Theorem announced_changes_reach_caches payload P P' (c : caches) :
  keeps P c → keeps P (handle payload c) ∧ (announced payload P P' → keeps P' (handle payload c)).
Proof.
  intros Hc. split.
  - assert (∀ row, keeps P (handleCacheRow row c)) as Hrow.
    { intros row. unfold handleCacheRow, malformed. repeat case_match; auto using keeps_purge, keeps_drop. }
    unfold handle, malformed. repeat case_match; auto using keeps_purge.
  - intros Ha. pose proof (keeps_purged P P' c Hc) as Hpurge.
    destruct Ha as [keys Hn|keys Hn|Hn|Hn|raw others id Hn Hid Ho|room raw others id Hn Hid Ho|keys Hn Hb|keys Hn Hb|row Hm Hbad];
      [..|rewrite (handle_row _ _ _ Hm); unfold handleCacheRow];
      try (rewrite (handle_named _ _ _ _ Hn); decide_names; try exact Hpurge).
    + change ((raw :: others) !! 0%nat) with (Some raw). cbn [mbind option_bind]. rewrite Hid. by apply keeps_dropped with P.
    + change ((room :: raw :: others) !! 1%nat) with (Some raw). cbn [mbind option_bind]. rewrite Hid. by apply keeps_dropped with P.
    + destruct keys as [|raw keys]; [exact Hpurge|]. change ((raw :: keys) !! 0%nat ≫= string_value) with (string_value raw).
      change (string_value raw = None) in Hb. by rewrite Hb.
    + destruct keys as [|room [|raw keys]]; [exact Hpurge..|]. change ((room :: raw :: keys) !! 1%nat ≫= string_value) with (string_value raw).
      change (string_value raw = None) in Hb. by rewrite Hb.
    + destruct (raw_array row) as [[|f [|k rest]]|] eqn:Hr; [exact Hpurge|exact Hpurge| |exact Hpurge].
      destruct (string_value f) as [func|] eqn:Hf; [|exact Hpurge].
      destruct (Hbad f k rest func eq_refl Hf) as [Hnull Hk]. cbn zeta. rewrite bool_decide_false, Hk by done. exact Hpurge.
Qed.

(** ** A concrete run *)
Module ReplicationWitness.
Local Open Scope string_scope.
Definition start : caches := newCaches Settings.DefaultSettings.
Definition warm (c : caches) : caches :=
  MkCaches (stateGroups c) (events c) (LRU.Add "$e" 7 (eventStateGroup c)) (authChains c) (filteredState c).
Definition drop_e : string := js "RDATA caches master 12 ['_get_state_group_for_event',['$e'],1]".
End ReplicationWitness.

Lemma announced_changes_reach_caches_witness :
  let P := MkContract (λ _ _, True) (λ _ _, True) (λ _ _, True) (λ _ _, True) (λ _ _, True) in
  let P' := MkContract (λ _ _, True) (λ _ _, True) (λ id _, id ≠ "$e"%string) (λ _ _, True) (λ _ _, True) in
  keeps P' (handle ReplicationWitness.drop_e (ReplicationWitness.warm ReplicationWitness.start)).
Proof.
  intros P P'. apply (announced_changes_reach_caches ReplicationWitness.drop_e P P').
  - assert (keeps P ReplicationWitness.start) as [] by (apply keeps_new; repeat constructor; done).
    split; simpl; try assumption. by apply holds_add.
  - apply (an_group _ P P' (js "'$e'") [] "$e"); [|reflexivity|by split].
    exists (js "['_get_state_group_for_event',['$e'],1]"), (js "'_get_state_group_for_event'"), (js "['$e']"), ["1"%string].
    split_and!; [|reflexivity|reflexivity|discriminate|reflexivity].
    exists "master"%string, "12"%string. split_and!; reflexivity.
Defined.
