(* ===== verification/Listening.v ===== *)
(** * [internal/replication], running: the subscriber among the requests

    [Run] and [session] as a step relation.  The subscriber's calls on the caches are
    taken apart into the accesses that are atomic in [internal/cache]: the store of the
    armed flag, and each emptying or removal under the lock; a request's addition into
    its test of [Enabled] and its locked part.  Any number of requests run between any
    two of them.  A history lists the steps. *)
From S2P Require Import Prelude Cache Json Store Replication.

Open Scope list_scope.
Open Scope Z_scope.

(** ** The five caches, by name *)
Inductive which := Groups | EventRows | EventGroups | Chains | Filtered.
#[export] Instance which_eq : EqDecision which.
Proof. solve_decision. Defined.
Definition each : list which := [Groups; EventRows; EventGroups; Chains; Filtered].

Definition Key (i : which) : Type :=
  match i with Groups => Z | EventRows | EventGroups | Chains => string | Filtered => FilteredStateKey end.
Definition Val (i : which) : Type :=
  match i with Groups | Filtered => StateMap | EventRows => Event | EventGroups => Z | Chains => list string end.
#[export] Instance key_eq i : EqDecision (Key i) := match i with Groups => _ | EventRows | EventGroups | Chains => _ | Filtered => _ end.
#[export] Instance key_countable i : Countable (Key i) :=
  match i with Groups => _ | EventRows => _ | EventGroups => _ | Chains => _ | Filtered => _ end.

Definition cache (i : which) (c : caches) : LRU.t (Key i) (Val i) :=
  match i with
  | Groups => stateGroups c | EventRows => events c | EventGroups => eventStateGroup c
  | Chains => authChains c | Filtered => filteredState c
  end.
Definition put (i : which) : LRU.t (Key i) (Val i) → caches → caches :=
  match i with
  | Groups => λ l c, MkCaches l (events c) (eventStateGroup c) (authChains c) (filteredState c)
  | EventRows => λ l c, MkCaches (stateGroups c) l (eventStateGroup c) (authChains c) (filteredState c)
  | EventGroups => λ l c, MkCaches (stateGroups c) (events c) l (authChains c) (filteredState c)
  | Chains => λ l c, MkCaches (stateGroups c) (events c) (eventStateGroup c) l (filteredState c)
  | Filtered => λ l c, MkCaches (stateGroups c) (events c) (eventStateGroup c) (authChains c) l
  end.

(** An entry of one of them, and whether it is there. *)
Record cell := Cell { at_cache : which; cl_key : Key at_cache; cl_val : Val at_cache }.
Definition held_in (x : cell) (c : caches) : Prop := LRU.contents (cache (at_cache x) c) (cl_key x) = Some (cl_val x).

(** ** The subscriber's accesses *)
Inductive action := Arm (i : which) (armed : bool) | Flush (i : which) | ForgetEvent (id : string) | ForgetGroup (id : string).

Definition act (a : action) (c : caches) : caches :=
  match a with
  | Arm i armed => put i (LRU.with_armed (cache i c) armed) c
  | Flush i => put i (LRU.Purge (cache i c)) c
  | ForgetEvent id => put EventRows (LRU.Remove id (cache EventRows c)) c
  | ForgetGroup id => put EventGroups (LRU.Remove id (cache EventGroups c)) c
  end.
Definition perform (l : list action) (c : caches) : caches := foldl (λ c a, act a c) c l.

(** The implementation of the interface that notes what is to be done: run on it, the
    subscriber's functions give the accesses they make, in their order. *)
#[export] Instance noting : Caches (list action) :=
  {| set_armed armed l := l ++ (each ≫= λ i, Arm i armed :: if armed then [] else [Flush i]);
     purge l := l ++ (Flush <$> each);
     drop_event id l := l ++ [ForgetEvent id; ForgetGroup id] |}.

(** ** The run *)

(** Where [Run] is: before its first statement, in a session, waiting to
    reconnect, or returned.  [confirmed] is that the session was. *)
Inductive phase := Starting | InSession (confirmed : bool) | Waiting | Stopped.

(** [todo] is what the subscriber has begun and not done yet; [adding] holds the
    additions that passed their test of [Enabled] and have not got the lock. *)
Record run_state := RS { at_ : phase; backoff : Z; todo : list action; held : caches; adding : gmap nat cell }.
Definition listening (s : run_state) : bool := match at_ s with InSession l => l | _ => false end.

Inductive event := Turned | Did (a : action) | Looked (i : which) | Began (n : nat) (x : cell) | Stored (n : nat) (x : cell).

Inductive step : run_state → event → run_state → Prop :=
(* [Run] and [session] *)
| step_start b c p : step (RS Starting b [] c p) Turned (RS (InSession false) 1 (disarm []) c p)
| step_item l it b c p :
    step (RS (InSession l) b [] c p) Turned (RS (InSession (l || confirms it)) b (session_item it []) c p)
| step_lost l b c p : step (RS (InSession l) b [] c p) Turned (RS Waiting b (disarm []) c p)
| step_retry b c p : step (RS Waiting b [] c p) Turned (RS (InSession false) (next_backoff b) [] c p)
| step_stop_session l b c p : step (RS (InSession l) b [] c p) Turned (RS Stopped b (disarm []) c p)
| step_stop_waiting b c p : step (RS Waiting b [] c p) Turned (RS Stopped (next_backoff b) (disarm []) c p)
| step_act ph b a l c p : step (RS ph b (a :: l) c p) (Did a) (RS ph b l (act a c) p)
(* the requests: [Get] past its test, [Add] up to its test, [Add] past it *)
| step_look ph b l c p i k :
    step (RS ph b l c p) (Looked i) (RS ph b l (put i (LRU.get_locked k (cache i c)).2 c) p)
| step_begin ph b l c p n x : p !! n = None → LRU.add_begin (cache (at_cache x) c) = true →
    step (RS ph b l c p) (Began n x) (RS ph b l c (<[n := x]> p))
| step_store ph b l c p n x : p !! n = Some x →
    step (RS ph b l c p) (Stored n x)
      (RS ph b l (put (at_cache x) (LRU.add_commit (cl_key x) (cl_val x) (cache (at_cache x) c)) c) (delete n p)).

(** What happens from the start of the process on. *)
Inductive runs (c0 : caches) : list event → run_state → Prop :=
| runs_nil : runs c0 [] (RS Starting 1 [] c0 ∅)
| runs_snoc tr s e s' : runs c0 tr s → step s e s' → runs c0 (tr ++ [e]) s'.

(** ** The caches one by one *)
Lemma cache_put i l c : cache i (put i l c) = l.
Proof. by destruct i. Qed.
Lemma cache_other i j l c : i ≠ j → cache j (put i l c) = cache j c.
Proof. by destruct i, j. Qed.

Lemma held_put i l c (x : cell) : held_in x (put i l c) →
  held_in x c ∨ ∃ k v, x = Cell i k v ∧ LRU.contents l k = Some v.
Proof.
  unfold held_in. destruct x as [j k v]. cbn [at_cache cl_key cl_val]. destruct (decide (i = j)) as [->|Hne].
  - rewrite cache_put. right. by exists k, v.
  - rewrite cache_other by done. by left.
Qed.

Definition sound (c : caches) : Prop := ∀ i, LRU.good (cache i c).
Lemma sound_put i l c : sound c → LRU.good l → sound (put i l c).
Proof. intros Hc Hl j. destruct (decide (i = j)) as [->|Hne]; [by rewrite cache_put|by rewrite cache_other]. Qed.

Lemma sound_act a c : sound c → sound (act a c).
Proof.
  intros Hc. destruct a as [i b|i|id|id]; apply sound_put; try done.
  - apply with_armed_good, Hc.
  - apply (purge_refines _ (LRU.good_sane _ (Hc i))).
  - apply (remove_refines id _ (Hc EventRows)).
  - apply (remove_refines id _ (Hc EventGroups)).
Qed.

Lemma remove_only {K V} `{Countable K} k (l : LRU.t K V) k' v :
  LRU.good l → LRU.contents (LRU.Remove k l) k' = Some v → LRU.contents l k' = Some v.
Proof. intros Hg Hk. by destruct (step_contents (ORemove k) l k' v Hg Hk). Qed.

(** The subscriber adds nothing, and empties what it empties. *)
Lemma held_act a c x : sound c → held_in x (act a c) → held_in x c ∧ a ≠ Flush (at_cache x).
Proof.
  intros Hc Hx. assert (a = Flush (at_cache x) → False) as Hf.
  { intros ->. unfold held_in in Hx. cbn [act] in Hx. by rewrite cache_put in Hx. }
  split; [|done]. destruct a as [i b|i|id|id].
  - by destruct (held_put i _ c x Hx) as [?|(k & v & -> & ?)].
  - by destruct (held_put i _ c x Hx) as [?|(k & v & -> & ?)].
  - destruct (held_put EventRows _ c x Hx) as [?|(k & v & -> & Hr)]; [done|]. by apply remove_only in Hr.
  - destruct (held_put EventGroups _ c x Hx) as [?|(k & v & -> & Hr)]; [done|]. by apply remove_only in Hr.
Qed.

(** The armed flag after some accesses: the last one stored, if any. *)
Definition flag (i : which) (b : bool) (l : list action) : bool :=
  foldl (λ b a, match a with Arm j b' => if decide (i = j) then b' else b | _ => b end) b l.

Lemma armed_put i j l c : LRU.armed l = LRU.armed (cache i c) → LRU.armed (cache j (put i l c)) = LRU.armed (cache j c).
Proof. intros Hl. destruct (decide (i = j)) as [->|Hne]; [by rewrite cache_put|by rewrite cache_other]. Qed.

Lemma armed_act i a c : LRU.armed (cache i (act a c)) = flag i (LRU.armed (cache i c)) [a].
Proof.
  assert (∀ K V `{Countable K} (k : K) (l : LRU.t K V), LRU.armed (LRU.Remove k l) = LRU.armed l) as Hr.
  { intros K V ? ? k l. unfold LRU.Remove. destruct (LRU.entries l !! k) as [el|]; [|done]. by destruct (LRU.heap l !! el). }
  destruct a as [j b|j|id|id].
  - cbn [act flag foldl]. case_decide as E; [subst; by rewrite cache_put|by rewrite cache_other by congruence].
  - by apply armed_put.
  - apply (armed_put EventRows), Hr.
  - apply (armed_put EventGroups), Hr.
Qed.

Lemma armed_perform i l c : LRU.armed (cache i (perform l c)) = flag i (LRU.armed (cache i c)) l.
Proof. revert c. induction l as [|a l IH]; intros c; [done|]. cbn [perform foldl]. fold (perform l (act a c)). by rewrite IH, armed_act. Qed.

Lemma armed_same l c c' : (∀ i, LRU.armed (cache i c') = LRU.armed (cache i c)) →
  ∀ i, LRU.armed (cache i (perform l c')) = LRU.armed (cache i (perform l c)).
Proof. intros Hc i. by rewrite !armed_perform, Hc. Qed.

(** ** What the subscriber notes down *)

(** Done to the end, it is what the interface promises. *)
Lemma perform_app l1 l2 c : perform (l1 ++ l2) c = perform l2 (perform l1 c).
Proof. apply foldl_app. Qed.
Lemma perform_set_armed armed l c : perform (set_armed armed l) c = SetCachesArmed armed (perform l c).
Proof. cbn [set_armed noting]. rewrite perform_app. by destruct armed, (perform l c). Qed.
Lemma perform_purge l c : perform (purge l) c = PurgeCaches (perform l c).
Proof. cbn [purge noting]. rewrite perform_app. by destruct (perform l c). Qed.
Lemma perform_drop id l c : perform (drop_event id l) c = DropEvent id (perform l c).
Proof. cbn [drop_event noting]. rewrite perform_app. by destruct (perform l c). Qed.

Lemma perform_handle payload l c : perform (handle payload l) c = handle payload (perform l c).
Proof.
  assert (∀ row, perform (handleCacheRow row l) c = handleCacheRow row (perform l c)) as Hrow.
  { intros row. unfold handleCacheRow, malformed.
    repeat case_match; auto using perform_purge, perform_drop. }
  unfold handle, malformed. repeat case_match; auto using perform_purge.
Qed.
Lemma perform_disarm l c : perform (disarm l) c = disarm (perform l c).
Proof. apply perform_set_armed. Qed.
Lemma perform_session_item it l c : perform (session_item it l) c = session_item it (perform l c).
Proof.
  destruct it as [kind|payload|]; [|apply perform_handle|done]. cbn [session_item]. case_bool_decide; [done|].
  unfold arm. by rewrite !perform_set_armed.
Qed.

(** Handling a message arms and disarms nothing. *)
Lemma handle_noted payload :
  let l := handle payload ([] : list action) in l = [] ∨ l = purge [] ∨ ∃ id, l = drop_event id [].
Proof.
  assert (∀ row, handleCacheRow row ([] : list action) = [] ∨ handleCacheRow row [] = purge ([] : list action) ∨
    ∃ id, handleCacheRow row [] = drop_event id ([] : list action)) as Hrow.
  { intros row. unfold handleCacheRow, malformed. repeat case_match; eauto. }
  unfold handle, malformed. repeat case_match; eauto.
Qed.

(** A disarmed cache is emptied next. *)
Fixpoint flushes_follow (l : list action) : Prop :=
  match l with
  | [] => True
  | Arm i false :: l => Flush i ∈ l ∧ flushes_follow l
  | _ :: l => flushes_follow l
  end.

Lemma flushes_disarm : flushes_follow (disarm []).
Proof. cbn. set_solver. Qed.
Lemma flushes_item it : flushes_follow (session_item it []).
Proof.
  destruct it as [kind|payload|]; [|cbn [session_item]|done].
  - cbn [session_item]. case_bool_decide; [done|]. cbn. set_solver.
  - destruct (handle_noted payload) as [->|[->|[id ->]]]; cbn; done.
Qed.

Lemma armed_disarm i c : LRU.armed (cache i (perform (disarm []) c)) = false.
Proof. rewrite perform_disarm. by destruct i. Qed.
Lemma armed_item i it c : LRU.armed (cache i (perform (session_item it []) c)) = LRU.armed (cache i c) || confirms it.
Proof.
  destruct it as [kind|payload|].
  - cbn [session_item confirms]. destruct (decide (kind = "subscribe"%string)) as [->|Hk].
    + rewrite bool_decide_false, bool_decide_true, orb_true_r by tauto. destruct c, i; reflexivity.
    + rewrite bool_decide_true, bool_decide_false by tauto. by rewrite orb_false_r.
  - cbn [session_item confirms]. rewrite orb_false_r, armed_perform.
    by destruct (handle_noted payload) as [->|[->|[id ->]]].
  - cbn. by rewrite orb_false_r.
Qed.

(** ** Every step keeps the accounts *)
Definition began_in (tr : list event) (n : nat) (x : cell) : Prop :=
  ∃ tr1 tr2, tr = tr1 ++ Began n x :: tr2 ∧ ∀ y, Stored n y ∉ tr2.
Definition added_in (tr : list event) (x : cell) : Prop :=
  ∃ n tr1 tr2 tr3, tr = tr1 ++ Began n x :: tr2 ++ Stored n x :: tr3 ∧
    (∀ y, Stored n y ∉ tr2) ∧ Did (Flush (at_cache x)) ∉ tr3.
(** While it is disarmed and emptied, each addition begun has a flush after it. *)
Definition closed_in (tr : list event) (s : run_state) : Prop :=
  ∀ i, LRU.armed (cache i (held s)) = false → Flush i ∉ todo s →
  ∀ tr1 n x tr2, tr = tr1 ++ Began n x :: tr2 → at_cache x = i → Did (Flush i) ∈ tr2.

Record accounted (tr : list event) (s : run_state) : Prop := {
  ac_sound : sound (held s);
  ac_backoff : 1 ≤ backoff s ≤ maxBackoff;
  ac_armed : at_ s ≠ Starting → ∀ i, LRU.armed (cache i (perform (todo s) (held s))) = listening s;
  ac_todo : flushes_follow (todo s);
  ac_adding n x : adding s !! n = Some x → began_in tr n x;
  ac_held x : held_in x (held s) → added_in tr x;
  ac_closed : closed_in tr s }.

Lemma next_backoff_bounds b : 1 ≤ b ≤ maxBackoff → 1 ≤ next_backoff b ≤ maxBackoff.
Proof. unfold next_backoff, maxBackoff. case_bool_decide; lia. Qed.

Lemma began_snoc tr n x e : began_in tr n x → (∀ y, e ≠ Stored n y) → began_in (tr ++ [e]) n x.
Proof.
  intros (tr1 & tr2 & -> & Hn) He. exists tr1, (tr2 ++ [e]). split; [by rewrite <-app_assoc|].
  intros y. rewrite elem_of_app, list_elem_of_singleton. intros [Hy|Hy]; [by apply (Hn y)|by apply (He y)].
Qed.
Lemma added_snoc tr x e : added_in tr x → e ≠ Did (Flush (at_cache x)) → added_in (tr ++ [e]) x.
Proof.
  intros (n & tr1 & tr2 & tr3 & -> & Hn & Hf) He. exists n, tr1, tr2, (tr3 ++ [e]).
  split; [by rewrite <-!app_assoc, <-app_comm_cons, <-app_assoc|]. split; [done|]. set_solver.
Qed.

Lemma snoc_split {A} (l l1 l2 : list A) e a : l ++ [e] = l1 ++ a :: l2 →
  (l2 = [] ∧ e = a) ∨ ∃ l2', l2 = l2' ++ [e] ∧ l = l1 ++ a :: l2'.
Proof.
  destruct l2 as [|b l2 _] using rev_ind; intros E.
  - left. by apply app_inj_tail in E as [_ ->].
  - right. rewrite app_comm_cons, app_assoc in E. apply app_inj_tail in E as [-> ->]. by exists l2.
Qed.

(** An event that disarms nothing and begins nothing leaves an emptied cache so. *)
Lemma closed_before s e s' i : flushes_follow (todo s) → sound (held s) → step s e s' →
  LRU.armed (cache i (held s')) = false → Flush i ∉ todo s' → e ≠ Did (Flush i) →
  (∀ n x, at_cache x = i → e ≠ Began n x) ∧ LRU.armed (cache i (held s)) = false ∧ Flush i ∉ todo s.
Proof.
  intros Ht Hg Hs Ha Hf He. destruct Hs as [| | | | | |ph b a l c p|ph b l c p j k|ph b l c p n x Hn Hb|ph b l c p n x Hn];
    cbn [held todo] in *; try (split_and!; [done|done|set_solver]).
  - split; [done|]. rewrite armed_act in Ha. destruct a as [j [|]|j|id|id]; cbn [flag foldl flushes_follow] in *; try (split; set_solver).
    + case_decide; [done|]. split; set_solver.
    + case_decide; [subst; by destruct Ht|]. split; set_solver.
  - split; [done|]. split; [|done]. rewrite <-Ha. symmetry. apply armed_put. apply (get_locked_refines k _ (Hg j)).
  - split; [|done]. intros m y Hy [= -> ->]. subst i. unfold LRU.add_begin, LRU.Enabled in *.
    apply andb_true_iff in Hb as [_ Hb]. congruence.
  - split; [done|]. split; [|done]. rewrite <-Ha. symmetry. apply armed_put. apply add_commit_refines, Hg.
Qed.

Lemma closed_snoc tr s e s' : flushes_follow (todo s) → sound (held s) → closed_in tr s → step s e s' → closed_in (tr ++ [e]) s'.
Proof.
  intros Ht Hg Hc Hs i Ha Hf tr1 n x tr2 E Hi.
  assert (e = Did (Flush i) ∨ e ≠ Did (Flush i)) as [->|He].
  { destruct e as [|[j b|j|id|id]|j|m y|m y]; try by right. destruct (decide (j = i)) as [->|Hne]; [by left|right; congruence]. }
  - apply snoc_split in E as [[-> E]|(tr2' & -> & ->)]; [done|set_solver].
  - destruct (closed_before s e s' i Ht Hg Hs Ha Hf He) as (Hb & Ha' & Hf').
    apply snoc_split in E as [[-> E]|(tr2' & -> & ->)]; [by destruct (Hb n x Hi)|].
    rewrite elem_of_app. left. by apply (Hc i Ha' Hf' tr1 n x tr2').
Qed.

Lemma held_snoc tr s e s' : sound (held s) → (∀ n x, adding s !! n = Some x → began_in tr n x) →
  (∀ x, held_in x (held s) → added_in tr x) → step s e s' → ∀ x, held_in x (held s') → added_in (tr ++ [e]) x.
Proof.
  intros Hg Hp Hh Hs x Hx. destruct Hs as [| | | | | |ph b a l c p|ph b l c p j k|ph b l c p n y Hn Hb|ph b l c p n y Hn];
    cbn [held adding] in *; try (apply added_snoc; [by apply Hh|done]).
  - apply held_act in Hx as [Hx Ha]; [|done]. apply added_snoc; [by apply Hh|congruence].
  - apply added_snoc; [|done]. apply Hh. apply held_put in Hx as [Hx|(k' & v & -> & Hx)]; [done|].
    unfold held_in. cbn [at_cache cl_key cl_val]. by rewrite <-(proj1 (get_locked_contents k _ k')).
  - apply held_put in Hx as [Hx|(k' & v & -> & Hx)]; [by apply added_snoc; [apply Hh|]|].
    apply commit_only in Hx as [Hx|[<- <-]]; [by apply added_snoc; [apply Hh|]| |by apply Hg].
    destruct y as [i k v]. cbn [at_cache cl_key cl_val] in *. destruct (Hp n _ Hn) as (tr1 & tr2 & -> & Ht2).
    exists n, tr1, tr2, []. split; [by rewrite <-app_assoc|]. split; [done|]. set_solver.
Qed.

Lemma adding_snoc tr s e s' : (∀ n x, adding s !! n = Some x → began_in tr n x) → step s e s' →
  ∀ n x, adding s' !! n = Some x → began_in (tr ++ [e]) n x.
Proof.
  intros Hp Hs m x Hx. destruct Hs as [| | | | | |ph b a l c p|ph b l c p j k|ph b l c p n y Hn Hb|ph b l c p n y Hn];
    cbn [adding] in *; try (apply began_snoc; [by apply Hp|done]).
  - apply lookup_insert_Some in Hx as [[-> ->]|[Hne Hx]]; [|by apply began_snoc; [apply Hp|]].
    exists tr, []. by split; [|set_solver].
  - apply lookup_delete_Some in Hx as [Hne Hx]. apply began_snoc; [by apply Hp|]. congruence.
Qed.

Lemma sound_step s e s' : sound (held s) → step s e s' → sound (held s').
Proof.
  intros Hg Hs. destruct Hs as [| | | | | |ph b a l c p|ph b l c p j k|ph b l c p n y Hn Hb|ph b l c p n y Hn]; cbn [held] in *; try done.
  - by apply sound_act.
  - apply sound_put; [done|]. apply get_locked_refines, Hg.
  - apply sound_put; [done|]. apply add_commit_refines, Hg.
Qed.

(** Only what the subscriber turns to changes what the caches will be armed to. *)
Lemma armed_step s e s' : sound (held s) → (at_ s ≠ Starting → ∀ i, LRU.armed (cache i (perform (todo s) (held s))) = listening s) →
  step s e s' → at_ s' ≠ Starting → ∀ i, LRU.armed (cache i (perform (todo s') (held s'))) = listening s'.
Proof.
  intros Hg Ha Hs. destruct Hs as [b c p|l it b c p|l b c p|b c p|l b c p|b c p|ph b a l c p|ph b l c p j k|ph b l c p n x Hn Hb|ph b l c p n x Hn];
    unfold listening in *; cbn [held todo at_] in *; intros Hph i; try apply armed_disarm.
  - rewrite armed_item. f_equal. exact (Ha ltac:(done) i).
  - by apply Ha.
  - by apply Ha.
  - rewrite <-(Ha Hph i). apply armed_same. intros i'. apply armed_put. apply (get_locked_refines k _ (Hg j)).
  - by apply Ha.
  - rewrite <-(Ha Hph i). apply armed_same. intros i'. apply armed_put. apply add_commit_refines, Hg.
Qed.

Lemma step_accounted tr s e s' : accounted tr s → step s e s' → accounted (tr ++ [e]) s'.
Proof.
  intros [Hg Hb Ha Ht Hp Hh Hc] Hs. split.
  - by eapply sound_step.
  - destruct Hs; cbn [backoff] in *; auto using next_backoff_bounds. unfold maxBackoff. lia.
  - by eapply armed_step.
  - destruct Hs; cbn [todo] in *; auto using flushes_disarm, flushes_item. destruct a as [j [|]|j|id|id]; try done. by destruct Ht.
  - by eapply adding_snoc.
  - by eapply held_snoc.
  - by eapply closed_snoc.
Qed.

(** A fresh store. *)
Definition moderate (s : Settings.t) : Prop :=
  Forall (λ v, v < 2 ^ 42) [Settings.StateGroupsMB s; Settings.EventsMB s; Settings.EventStateGroupsMB s;
                            Settings.AuthChainsMB s; Settings.FilteredStateMB s].

Lemma nothing_new {K V} `{Countable K} nm mx sz k v : LRU.contents (LRU.NewLRU (K := K) (V := V) nm mx sz) k = Some v → False.
Proof. unfold LRU.contents. cbn. by rewrite lookup_empty. Qed.

Lemma fresh_accounted settings : moderate settings → accounted [] (RS Starting 1 [] (newCaches settings) ∅).
Proof.
  intros Hm. split; cbn [held backoff at_ todo adding]; try done.
  - destruct (keeps_new (MkContract (λ _ _, True) (λ _ _, True) (λ _ _, True) (λ _ _, True) (λ _ _, True)) settings Hm) as [[] [] [] [] []].
    by intros [].
  - intros x Hx. destruct x as [[] k v]; by destruct (nothing_new _ _ _ _ _ Hx).
  - intros i Ha. by destruct i.
Qed.

Lemma runs_accounted settings tr s : moderate settings → runs (newCaches settings) tr s → accounted tr s.
Proof. intros Hm Hr. induction Hr; [by apply fresh_accounted|by eapply step_accounted]. Qed.

(** A lookup of any key of any of the five answers nothing. *)
Definition silent (c : caches) : Prop := ∀ i k, (LRU.Get k (cache i c)).1 = None.


(** ** A concrete run *)
Lemma runs_todo c0 tr ph b l c p : runs c0 tr (RS ph b l c p) → ∃ tr', runs c0 tr' (RS ph b [] (perform l c) p).
Proof.
  revert tr c. induction l as [|a l IH]; intros tr c Hr; [by exists tr|].
  apply (IH (tr ++ [Did a])). eapply runs_snoc; [exact Hr|]. apply step_act.
Qed.

