(* ===== verification/Config.v ===== *)
(** * [internal/config]: the configuration and its validation

    Modes and their text, the configuration records, and [validate].  YAML decoding
    ([gopkg.in/yaml.v3]) is a parameter; environment and files are not modelled. *)
From S2P Require Import Prelude Cache RateLimit Json Store External Events Pducmp Wire Replication.

Open Scope Z_scope.

(** ** [strings.TrimSpace] *)
Definition bytes_of (l : list Z) : string := string_of_list_ascii (Utf8.chr <$> l).

(** The runes [unicode.IsSpace] accepts, encoded. *)
Definition spaces : list string :=
  (bytes_of <$> [[9]; [10]; [11]; [12]; [13]; [32]; [194; 133]; [194; 160]; [225; 154; 128];
                 [226; 128; 168]; [226; 128; 169]; [226; 128; 175]; [226; 129; 159]; [227; 128; 128]]) ++
  ((λ n, bytes_of [226; 128; 128 + n]) <$> seqZ 0 11).

Fixpoint trim_left (fuel : nat) (s : string) : string :=
  match fuel with
  | O => s
  | S fuel => match List.find (has_prefix s) spaces with
              | Some sp => trim_left fuel (drop_str (String.length sp) s)
              | None => s
              end
  end.
Fixpoint trim_right (fuel : nat) (s : string) : string :=
  match fuel with
  | O => s
  | S fuel => match List.find (has_suffix s) spaces with
              | Some sp => trim_right fuel (trim_suffix s sp)
              | None => s
              end
  end.
(** Every round removes a byte: the length is enough fuel. *)
Definition TrimSpace (s : string) : string :=
  let s := trim_left (String.length s) s in trim_right (String.length s) s.

(** ** Modes *)
Definition ModeProxy : string := "proxy".
Definition ModeShadow : string := "shadow".
Definition ModeCanary : string := "canary".
Definition ModeNative : string := "native".

Record Mode := MkMode { Kind : string; CanaryPercent : Z }.

(** [Mode.parse] into [m]: the mode afterwards, or an error. *)
Definition parse_mode (m : Mode) (raw : string) : result string Mode :=
  let '(kind, pct, hasPct) := cut colon raw in
  let kind := TrimSpace kind in
  if bool_decide (kind ∈ [ModeProxy; ModeShadow; ModeNative]) then
    if (hasPct : bool) then Err ("mode " +:+ kind +:+ " does not take a percentage")%string
    else Ok (MkMode kind (CanaryPercent m))
  else if bool_decide (kind = ModeCanary) then
    if negb hasPct then Err ("mode " +:+ kind +:+ " requires a percentage, e.g. canary:5")%string else
    match ParseInt (TrimSpace pct) with
    | None => Err ("invalid canary percentage " +:+ pct)%string
    | Some n =>
        if bool_decide (n < 0) || bool_decide (100 < n) then
          Err ("canary percentage must be 0-100, got " +:+ print_int n)%string
        else Ok (MkMode kind n)
    end
  else Err ("unknown mode " +:+ raw)%string.

Definition String_ (m : Mode) : string :=
  if bool_decide (Kind m = ModeCanary) then ("canary:" +:+ print_int (CanaryPercent m))%string else Kind m.

Definition ServesNatively (m : Mode) : bool :=
  bool_decide (Kind m = ModeCanary) || bool_decide (Kind m = ModeNative).

(** ** The configuration *)
Record Endpoints := MkEndpoints { Event : Mode; State : Mode; StateIDs : Mode; GetMissingEvents : Mode }.
Record Listen := MkListen { Socket : string; Addr : string; SocketMode : string }.
Record Upstream := MkUpstream { Sockets : list string; Addrs : list string; TimeoutSeconds : Z; MaxIdleConns : Z }.
Record Database := MkDatabase {
  DSN : string; MaxConns : Z; ConnectTimeoutSeconds : Z; Cache_ : Cache.Settings.t }.
Record DiffLog := MkDiffLog {
  Dir : string; MaxFileMB : Z; MaxFiles : Z; Compress : option bool; QueueSize : Z; BodyKB : Z; ListLimit : Z }.
Record Shadow := MkShadow {
  sh_Concurrency : Z; sh_TimeoutSeconds : Z; CaptureMB : Z; VerifyWaitSeconds : Z }.
Record Auth := MkAuth { KeyRefetchMinutes : Z; au_TimeoutSeconds : Z; TrustedKeyServers : list string }.
Record Log := MkLog { Level : string; Pretty : bool }.
Record Config := MkConfig {
  ServerName : string; listen : Listen; upstream : Upstream; metrics_addr : string; endpoints : Endpoints;
  log : Log; diff_log : DiffLog; database : Database; shadow : Shadow; auth : Auth;
  NativeTimeoutSeconds : Z; StreamTimeoutSeconds : Z; StreamIdleTimeoutSeconds : Z;
  replication : Replication.Config; rc_federation : RateLimit.Federation.FederationSettings }.

Definition db_Enabled (d : Database) : bool := negb (bool_decide (DSN d = EmptyString)).
Definition diff_Enabled (d : DiffLog) : bool := negb (bool_decide (Dir d = EmptyString)).
Definition CompressRotated (d : DiffLog) : bool := default true (Compress d).

(** The map's entries; Go's iteration order is random. *)
Definition ByName (e : Endpoints) : list (string * Mode) :=
  [("event", Event e); ("state", State e); ("state_ids", StateIDs e);
   ("get_missing_events", GetMissingEvents e)]%string.

Definition NeedsDatabase (c : Config) : bool :=
  existsb (λ p, negb (bool_decide (Kind p.2 = ModeProxy))) (ByName (endpoints c)).

(** [strconv.ParseUint(s, 8, 32)] *)
Fixpoint parse_octal (acc : Z) (s : string) : option Z :=
  match s with
  | EmptyString => Some acc
  | String a s =>
      let v := Utf8.byte a - 48 in
      if bool_decide (0 ≤ v) && bool_decide (v < 8) then
        let acc := acc * 8 + v in
        if bool_decide (2 ^ 32 ≤ acc) then None else parse_octal acc s
      else None
  end.
Definition ParsedSocketMode (l : Listen) : option Z :=
  let mode := if bool_decide (SocketMode l = EmptyString) then "0660"%string else SocketMode l in
  match mode with EmptyString => None | _ => parse_octal 0 mode end.

Definition with_socket_mode (c : Config) : Config :=
  let l := listen c in
  let mode := if bool_decide (SocketMode l = EmptyString) then "0660"%string else SocketMode l in
  MkConfig (ServerName c) (MkListen (Socket l) (Addr l) mode) (upstream c) (metrics_addr c) (endpoints c) (log c)
    (diff_log c) (database c) (shadow c) (auth c) (NativeTimeoutSeconds c) (StreamTimeoutSeconds c)
    (StreamIdleTimeoutSeconds c) (replication c) (rc_federation c).

Definition with_channel (c : Config) : Config :=
  let r := replication c in
  let channel := if bool_decide (Channel r = EmptyString) then ServerName c else Channel r in
  MkConfig (ServerName c) (listen c) (upstream c) (metrics_addr c) (endpoints c) (log c) (diff_log c) (database c)
    (shadow c) (auth c) (NativeTimeoutSeconds c) (StreamTimeoutSeconds c) (StreamIdleTimeoutSeconds c)
    (Replication.MkConfig (Enabled r) (Address r) channel (Password r) (DB_ r)) (rc_federation c).

(** An error unless the condition holds. *)
Definition check (b : bool) (msg : string) : result string unit := if b then Ok tt else Err msg.

Definition check_endpoint (c : Config) (p : string * Mode) : result string unit :=
  let '(name, m) := p in
  check (negb ((bool_decide (Kind m = ModeShadow) || bool_decide (Kind m = ModeCanary)) && negb (diff_Enabled (diff_log c))))
    ("endpoint " +:+ name +:+ " is in " +:+ Kind m +:+ " mode but diff_log.dir is not set");;
  check (negb (negb (bool_decide (Kind m = ModeProxy)) && negb (db_Enabled (database c))))
    ("endpoint " +:+ name +:+ " is in " +:+ Kind m +:+ " mode but database.dsn is not set").

Fixpoint check_endpoints (c : Config) (ps : list (string * Mode)) : result string unit :=
  match ps with
  | [] => Ok tt
  | p :: ps => check_endpoint c p;; check_endpoints c ps
  end.

Definition no_neg (l : list Z) : bool := forallb (λ v, negb (bool_decide (v < 0))) l.

(** [validate], with the configuration it leaves.  Messages that quote a value
    ([%q]) are shortened. *)
Definition validate (c : Config) : result string Config :=
  check (negb (bool_decide (ServerName c = EmptyString))) "server_name is required";;
  check (negb (eqb (bool_decide (Socket (listen c) = EmptyString)) (bool_decide (Addr (listen c) = EmptyString))))
    "listen: exactly one of socket or addr must be set";;
  let c := with_socket_mode c in
  check (bool_decide (is_Some (ParsedSocketMode (listen c)))) "listen: invalid socket_mode";;
  check (negb (bool_decide (Sockets (upstream c) = []) && bool_decide (Addrs (upstream c) = [])))
    "upstream: at least one of sockets or addrs must be set";;
  check (no_neg [TimeoutSeconds (upstream c)]) "upstream: timeout_seconds must not be negative";;
  check (no_neg [MaxIdleConns (upstream c)]) "upstream: max_idle_conns must not be negative";;
  check (no_neg [MaxFileMB (diff_log c); MaxFiles (diff_log c); QueueSize (diff_log c); ListLimit (diff_log c)])
    "diff_log: sizes must not be negative";;
  check (negb (bool_decide (BodyKB (diff_log c) < -1)))
    "diff_log: body_kb must be -1 (omit), 0 (default) or positive";;
  check (no_neg [MaxConns (database c); ConnectTimeoutSeconds (database c)]) "database: values must not be negative";;
  check (Cache.Settings.Validate (Cache_ (database c))) "database.cache must be -1 (disabled), 0 (default) or positive";;
  check (no_neg [StreamIdleTimeoutSeconds c]) "stream_idle_timeout_seconds must not be negative";;
  check (no_neg [NativeTimeoutSeconds c]) "native_timeout_seconds must not be negative";;
  check (negb (Enabled (replication c) && bool_decide (Address (replication c) = EmptyString)))
    "replication: address is required when enabled";;
  let c := if Enabled (replication c) then with_channel c else c in
  check (negb (Enabled (replication c) && bool_decide (Channel (replication c) = EmptyString)))
    "replication: channel is required when enabled (it must match Synapse's server_name)";;
  check (no_neg [sh_Concurrency (shadow c); sh_TimeoutSeconds (shadow c); CaptureMB (shadow c)])
    "shadow: values must not be negative";;
  check (no_neg [KeyRefetchMinutes (auth c); au_TimeoutSeconds (auth c)]) "auth: values must not be negative";;
  RateLimit.Federation.Validate (rc_federation c);;
  check_endpoints c (ByName (endpoints c));;
  Ok c.

(** What [parse] decodes into. *)
Definition default_mode : Mode := MkMode ModeProxy 0.
Definition defaults : Config :=
  MkConfig "" (MkListen "" "" "0660") (MkUpstream [] [] 0 0) ":9200"
    (MkEndpoints default_mode default_mode default_mode default_mode) (MkLog "info" false)
    (MkDiffLog "" 0 0 None 0 0 0) (MkDatabase "" 0 0 (Cache.Settings.Mk 0 0 0 0 0)) (MkShadow 0 0 0 0)
    (MkAuth 0 0 []) 0 0 0 (Replication.MkConfig false "" "" "" 0) (RateLimit.Federation.Mk 0 0 0 0 0).

(** [parse]: YAML into the defaults, then validated. *)
Definition parse_config (decode : string → Config → option Config) (data : string) : result string Config :=
  match decode data defaults with
  | None => Err "parse config"%string
  | Some c => validate c
  end.

(** ** What a validated configuration guarantees *)
Definition valid_mode (m : Mode) : Prop :=
  Kind m ∈ [ModeProxy; ModeShadow; ModeNative] ∨ (Kind m = ModeCanary ∧ 0 ≤ CanaryPercent m ≤ 100).

(** What the rest of the program relies on. *)
Record well_formed (c : Config) : Prop := {
  wc_name : ServerName c ≠ EmptyString;
  wc_listen : (Socket (listen c) = EmptyString) ↔ (Addr (listen c) ≠ EmptyString);
  wc_mode : SocketMode (listen c) ≠ EmptyString ∧ is_Some (ParsedSocketMode (listen c));
  wc_upstream : Sockets (upstream c) ≠ [] ∨ Addrs (upstream c) ≠ [];
  wc_replication : Enabled (replication c) = true →
    Address (replication c) ≠ EmptyString ∧ Channel (replication c) ≠ EmptyString;
  wc_cache : Cache.Settings.Validate (Cache_ (database c)) = true;
  wc_limits : RateLimit.Federation.Validate (rc_federation c) = Ok tt;
  wc_computed : ∀ name m, (name, m) ∈ ByName (endpoints c) → Kind m ≠ ModeProxy → DSN (database c) ≠ EmptyString;
  wc_compared : ∀ name m, (name, m) ∈ ByName (endpoints c) → Kind m = ModeShadow ∨ Kind m = ModeCanary →
    Dir (diff_log c) ≠ EmptyString }.

Section lemmas.
Lemma check_Ok b msg u : check b msg = Ok u ↔ b = true.
Proof. destruct b; simpl; split; try done. by destruct u. Qed.

Lemma result_seq {E A B} (m : result E A) (k : result E B) b : (m;; k) = Ok b ↔ (∃ a, m = Ok a) ∧ k = Ok b.
Proof. rewrite result_bind_Ok. naive_solver. Qed.

Lemma ok_unit {E} (r : result E unit) : (∃ u, r = Ok u) ↔ r = Ok tt.
Proof. split; [by intros [[] ->]|eauto]. Qed.

Lemma guards_iff A B C P D `{!Decision A, !Decision B, !Decision C, !Decision P, !Decision D} :
  negb ((bool_decide A || bool_decide B) && bool_decide C) = true ∧ negb (negb (bool_decide P) && bool_decide D) = true
  ↔ (¬ P → ¬ D) ∧ (A ∨ B → ¬ C).
Proof. repeat case_bool_decide; simpl; split; intuition discriminate. Qed.

Lemma check_endpoint_Ok c n m : check_endpoint c (n, m) = Ok tt ↔
  (Kind m ≠ ModeProxy → DSN (database c) ≠ EmptyString) ∧
  (Kind m = ModeShadow ∨ Kind m = ModeCanary → Dir (diff_log c) ≠ EmptyString).
Proof.
  change (check_endpoint c (n, m) = Ok tt) with (
    (check (negb ((bool_decide (Kind m = ModeShadow) || bool_decide (Kind m = ModeCanary)) && negb (diff_Enabled (diff_log c))))
      ("endpoint " +:+ n +:+ " is in " +:+ Kind m +:+ " mode but diff_log.dir is not set");;
     check (negb (negb (bool_decide (Kind m = ModeProxy)) && negb (db_Enabled (database c))))
      ("endpoint " +:+ n +:+ " is in " +:+ Kind m +:+ " mode but database.dsn is not set")) = Ok tt).
  rewrite result_seq, ok_unit, !check_Ok. unfold diff_Enabled, db_Enabled. rewrite !negb_involutive.
  apply guards_iff.
Qed.

Lemma check_endpoints_Ok c ps : check_endpoints c ps = Ok tt ↔
  ∀ name m, (name, m) ∈ ps →
    (Kind m ≠ ModeProxy → DSN (database c) ≠ EmptyString) ∧
    (Kind m = ModeShadow ∨ Kind m = ModeCanary → Dir (diff_log c) ≠ EmptyString).
Proof.
  induction ps as [|[n m] ps IH]; [split; [by intros _ ? ? ?%not_elem_of_nil|done]|].
  cbn [check_endpoints]. rewrite result_seq, IH, ok_unit, check_endpoint_Ok.
  split.
  - intros [Hh Ht] name m' [[= -> ->]|Hin]%elem_of_cons; [exact Hh|exact (Ht name m' Hin)].
  - intros Hall. split; [apply (Hall n m); left|]. intros name m' Hin. apply (Hall name m'). by right.
Qed.

Lemma no_neg_pair b1 b2 : (negb (eqb b1 b2) = true) ↔ (b1 = true ↔ b2 = false).
Proof. destruct b1, b2; simpl; naive_solver. Qed.

(** [validate] fills two defaults in, and doing so twice changes nothing. *)
Definition defaulted (c : Config) : Config :=
  let c := with_socket_mode c in if Enabled (replication c) then with_channel c else c.

Lemma defaulted_idem c : defaulted (defaulted c) = defaulted c.
Proof.
  assert (∀ d x : string, (if bool_decide ((if bool_decide (x = EmptyString) then d else x) = EmptyString) then d
    else if bool_decide (x = EmptyString) then d else x) = if bool_decide (x = EmptyString) then d else x) as Hf.
  { intros d x. destruct (decide (x = EmptyString)) as [->|Hx].
    - change (bool_decide (EmptyString = EmptyString)) with true. cbn iota. by destruct (bool_decide (d = EmptyString)).
    - by rewrite !(bool_decide_false (x = EmptyString)). }
  destruct c as [nm [so ad mo] ? ? ? ? ? ? ? ? ? ? ? [en a ch p b] ?]. unfold defaulted, with_socket_mode, with_channel.
  cbn [listen Socket Addr SocketMode replication Enabled]. destruct en; cbn; by rewrite !Hf.
Qed.

(** The checks of [validate], on a configuration that is already normalised. *)
Definition checks (c : Config) : Prop :=
  ServerName c ≠ EmptyString ∧
  negb (eqb (bool_decide (Socket (listen c) = EmptyString)) (bool_decide (Addr (listen c) = EmptyString))) = true ∧
  bool_decide (is_Some (ParsedSocketMode (listen c))) = true ∧
  negb (bool_decide (Sockets (upstream c) = []) && bool_decide (Addrs (upstream c) = [])) = true ∧
  no_neg [TimeoutSeconds (upstream c)] = true ∧ no_neg [MaxIdleConns (upstream c)] = true ∧
  no_neg [MaxFileMB (diff_log c); MaxFiles (diff_log c); QueueSize (diff_log c); ListLimit (diff_log c)] = true ∧
  negb (bool_decide (BodyKB (diff_log c) < -1)) = true ∧
  no_neg [MaxConns (database c); ConnectTimeoutSeconds (database c)] = true ∧
  Cache.Settings.Validate (Cache_ (database c)) = true ∧
  no_neg [StreamIdleTimeoutSeconds c] = true ∧ no_neg [NativeTimeoutSeconds c] = true ∧
  negb (Enabled (replication c) && bool_decide (Address (replication c) = EmptyString)) = true ∧
  negb (Enabled (replication c) && bool_decide (Channel (replication c) = EmptyString)) = true ∧
  no_neg [sh_Concurrency (shadow c); sh_TimeoutSeconds (shadow c); CaptureMB (shadow c)] = true ∧
  no_neg [KeyRefetchMinutes (auth c); au_TimeoutSeconds (auth c)] = true ∧
  RateLimit.Federation.Validate (rc_federation c) = Ok tt ∧
  check_endpoints c (ByName (endpoints c)) = Ok tt.

Lemma validate_checks c c' : validate c = Ok c' ↔ checks (defaulted c) ∧ c' = defaulted c.
Proof.
  unfold validate. cbv zeta. rewrite !result_seq, !ok_unit, !check_Ok. unfold checks, defaulted.
  rewrite negb_true_iff, bool_decide_eq_false. cbv zeta.
  destruct (Enabled (replication (with_socket_mode c))) eqn:E.
  - assert (Enabled (replication (with_channel (with_socket_mode c))) = true) as -> by done.
    change (Address (replication (with_channel (with_socket_mode c)))) with (Address (replication (with_socket_mode c))).
    split.
    + intros (? & ? & ? & ? & ? & ? & ? & ? & ? & ? & ? & ? & ? & ? & ? & ? & ? & ? & [= <-]).
      split_and!; (assumption || reflexivity).
    + intros [(? & ? & ? & ? & ? & ? & ? & ? & ? & ? & ? & ? & ? & ? & ? & ? & ? & ?) ->].
      split_and!; (assumption || reflexivity).
  - rewrite !E. split.
    + intros (? & ? & ? & ? & ? & ? & ? & ? & ? & ? & ? & ? & ? & ? & ? & ? & ? & ? & [= <-]).
      split_and!; (assumption || reflexivity).
    + intros [(? & ? & ? & ? & ? & ? & ? & ? & ? & ? & ? & ? & ? & ? & ? & ? & ? & ?) ->].
      split_and!; (assumption || reflexivity).
Qed.


Lemma checks_well_formed c : checks c → SocketMode (listen c) ≠ EmptyString → well_formed c.
Proof.
  intros (H1 & H2 & H3 & H4 & _ & _ & _ & _ & _ & H5 & _ & _ & H6 & H7 & _ & _ & H8 & H9) Hm.
  rewrite check_endpoints_Ok in H9. rewrite bool_decide_eq_true in H3.
  split; [done| |done| | |done|done|intros; by eapply H9|intros; by eapply H9].
  - revert H2. repeat case_bool_decide; simpl; try done; tauto.
  - revert H4. repeat case_bool_decide; simpl; try done; tauto.
  - intros He. rewrite He in H6, H7. simpl in *. rewrite negb_true_iff, bool_decide_eq_false in H6, H7. done.
Qed.

Lemma defaulted_socket_mode c : SocketMode (listen (defaulted c)) ≠ EmptyString.
Proof.
  unfold defaulted. cbv zeta. assert (SocketMode (listen (with_socket_mode c)) ≠ EmptyString) as Hs
    by (cbn; case_bool_decide; done).
  by destruct (Enabled (replication (with_socket_mode c))).
Qed.

Lemma validate_well_formed c c' : validate c = Ok c' → well_formed c'.
Proof. intros [Hc ->]%validate_checks. apply checks_well_formed; [done|apply defaulted_socket_mode]. Qed.

(** *** Modes *)
Lemma parse_mode_valid m raw m' : parse_mode m raw = Ok m' → valid_mode m'.
Proof.
  unfold parse_mode, valid_mode. destruct (cut colon raw) as [[kind pct] hasPct].
  case_bool_decide as Hk; [destruct hasPct; [done|]; intros [= <-]; by left|].
  case_bool_decide as Hc; [|done]. destruct hasPct; [|done]. cbn [negb].
  destruct (ParseInt (TrimSpace pct)) as [n|]; [|done].
  destruct (bool_decide (n < 0) || bool_decide (100 < n)) eqn:E; [done|]. intros [= <-]. right.
  apply orb_false_iff in E. rewrite !bool_decide_eq_false in E. simpl. split; [done|lia].
Qed.

Lemma percentages n : 0 ≤ n ≤ 100 → TrimSpace (print_int n) = print_int n.
Proof.
  intros Hn. assert (forallb (λ n, bool_decide (TrimSpace (print_int n) = print_int n)) (seqZ 0 101) = true) as Hall
    by (vm_compute; reflexivity).
  rewrite forallb_forall in Hall. specialize (Hall n). rewrite bool_decide_eq_true in Hall. apply Hall.
  apply list_elem_of_In, elem_of_seqZ. lia.
Qed.
End lemmas.

(** ** Properties *)

(** Modes round trip: a mode's text reads back as the mode, the percentage
    included; and whatever text is accepted, the mode is one of the four, with a
    percentage between 0 and 100 for a canary. *)
Theorem mode_roundtrip m raw :
  (∀ m', parse_mode m raw = Ok m' → valid_mode m' ∧ parse_mode m (String_ m') = Ok m') ∧
  (valid_mode m → parse_mode m (String_ m) = Ok m).
Proof.
  assert (∀ m0 m', valid_mode m' → (Kind m' ≠ ModeCanary → CanaryPercent m' = CanaryPercent m0) →
    parse_mode m0 (String_ m') = Ok m') as Hrt.
  { intros m0 [k p] Hv Hp. unfold String_. cbn [Kind CanaryPercent] in *. destruct Hv as [Hk|[Hk Hr]]; cbn in Hk.
    - rewrite bool_decide_false.
      2: { intros ->. repeat (apply elem_of_cons in Hk as [Hk|Hk]; [done|]). by apply not_elem_of_nil in Hk. }
      assert (CanaryPercent m0 = p) as <-.
      { symmetry. apply Hp. intros ->. repeat (apply elem_of_cons in Hk as [Hk|Hk]; [done|]). by apply not_elem_of_nil in Hk. }
      repeat (apply elem_of_cons in Hk as [->|Hk]; [by vm_compute|]). by apply not_elem_of_nil in Hk.
    - subst k. cbn in Hr. change (bool_decide (ModeCanary = ModeCanary)) with true. cbn iota.
      unfold parse_mode. change ("canary:" +:+ print_int p)%string with ("canary" +:+ String colon (print_int p))%string.
      rewrite cut_sep by done. assert (TrimSpace "canary" = ModeCanary) as -> by (vm_compute; reflexivity).
      rewrite bool_decide_false by (intros Hk; repeat (apply elem_of_cons in Hk as [Hk|Hk]; [done|]);
        by apply not_elem_of_nil in Hk).
      change (bool_decide (ModeCanary = ModeCanary)) with true. cbn iota. cbn [negb].
      rewrite percentages by done. rewrite print_int_parse by (unfold max_int64; lia).
      rewrite !(bool_decide_false (_ < _)) by lia. done. }
  split; [|intros Hv; by apply Hrt].
  intros m' Hp. split; [by eapply parse_mode_valid|]. apply Hrt; [by eapply parse_mode_valid|].
  revert Hp. unfold parse_mode. destruct (cut colon raw) as [[kind pct] hasPct].
  case_bool_decide; [destruct hasPct; [done|]; by intros [= <-]|]. case_bool_decide as Hc; [|done].
  destruct hasPct; [|done]. cbn [negb]. destruct (ParseInt (TrimSpace pct)) as [n|]; [|done].
  destruct (_ || _); [done|]. intros [= <-]. simpl. tauto.
Qed.

(** C35. A configuration that loads is well-formed, whatever YAML gave: a name, one
    listener with usable permissions, an upstream, a database wherever an answer is
    computed and a diff log wherever answers are compared, a channel wherever
    replication is consumed; and it validates to itself. *)
Theorem loaded_config_well_formed decode data c :
  parse_config decode data = Ok c → well_formed c ∧ validate c = Ok c.
Proof.
  unfold parse_config. destruct (decode data defaults) as [c0|]; [|done]. intros Hv.
  split; [by eapply validate_well_formed|]. apply validate_checks in Hv as [Hc ->].
  apply validate_checks. by rewrite defaulted_idem.
Qed.

Lemma mode_roundtrip_witness : parse_mode default_mode "canary:5" = Ok (MkMode ModeCanary 5) ∧
  parse_mode (MkMode ModeCanary 5) (String_ (MkMode ModeCanary 5)) = Ok (MkMode ModeCanary 5).
Proof.
  split; [vm_compute; reflexivity|]. apply (mode_roundtrip (MkMode ModeCanary 5) EmptyString).
  right. split; [reflexivity|]. simpl. lia.
Defined.

Lemma loaded_config_well_formed_witness :
  let c := MkConfig "h" (MkListen "/s" "" "0660") (MkUpstream ["/u"%string] [] 0 0) ":9200"
    (MkEndpoints default_mode default_mode default_mode default_mode) (MkLog "info" false)
    (MkDiffLog "" 0 0 None 0 0 0) (MkDatabase "" 0 0 (Cache.Settings.Mk 0 0 0 0 0)) (MkShadow 0 0 0 0)
    (MkAuth 0 0 []) 0 0 0 (Replication.MkConfig true "/r" "h" "" 0) (RateLimit.Federation.Mk 0 0 0 0 0) in
  well_formed c ∧ validate c = Ok c.
Proof.
  intros c. apply (loaded_config_well_formed (λ _ _, Some c) EmptyString c). vm_compute. reflexivity.
Defined.
