(* ===== verification/Route.v ===== *)
(** * [internal/fedapi]: which request is whose

    Matching a path ([route.go]), decoding its parameter, the claimed origin
    ([origin.go]), and the canary's choice ([canary.go], [handler.go]).  Parsing an
    X-Matrix header ([mautrix]) is a parameter. *)
From S2P Require Import Prelude Json JsonStream Store Config.

Open Scope Z_scope.

(** ** [route.go] *)
Inductive Endpoint := EndpointEvent | EndpointState | EndpointStateIDs | EndpointGetMissingEvents | EndpointUnknown.
#[export] Instance endpoint_eq_dec : EqDecision Endpoint.
Proof. solve_decision. Defined.

Definition endpoint_name (e : Endpoint) : string :=
  match e with
  | EndpointEvent => "event" | EndpointState => "state" | EndpointStateIDs => "state_ids"
  | EndpointGetMissingEvents => "get_missing_events" | EndpointUnknown => "unknown"
  end.

Definition Streams (e : Endpoint) : bool := bool_decide (e = EndpointState).
Definition HasRequestBody (e : Endpoint) : bool := bool_decide (e = EndpointGetMissingEvents).

Record Route := MkRoute { Endpoint_ : Endpoint; Param : string }.

Definition prefixes : list (string * Endpoint) :=
  [("/_matrix/federation/v1/state_ids/", EndpointStateIDs);
   ("/_matrix/federation/v1/state/", EndpointState);
   ("/_matrix/federation/v1/event/", EndpointEvent);
   ("/_matrix/federation/v1/get_missing_events/", EndpointGetMissingEvents)]%string.

Definition slash : ascii := "/"%char.

Fixpoint match_prefixes (ps : list (string * Endpoint)) (escapedPath : string) : option Route :=
  match ps with
  | [] => None
  | (prefix, endpoint) :: ps =>
      if negb (has_prefix escapedPath prefix) then match_prefixes ps escapedPath else
      let param := trim_suffix (drop_str (String.length prefix) escapedPath) "/" in
      if bool_decide (param = EmptyString) || contains_byte slash param then None
      else Some (MkRoute endpoint param)
  end.
Definition Match (escapedPath : string) : option Route := match_prefixes prefixes escapedPath.

(** ** Parameters *)

(** [url.PathUnescape] *)
Fixpoint PathUnescape (s : string) : option string :=
  match s with
  | EmptyString => Some EmptyString
  | String "%" s =>
      match s with
      | String a (String b s) =>
          match hex_val a, hex_val b with
          | Some x, Some y => String (Utf8.chr (16 * x + y)) <$> PathUnescape s
          | _, _ => None
          end
      | _ => None
      end
  | String a s => String a <$> PathUnescape s
  end.
Definition DecodeParam (s : string) : string := default s (PathUnescape s).

Definition roomIDFor (r : Route) : string :=
  if bool_decide (Endpoint_ r = EndpointEvent) then EmptyString else DecodeParam (Param r).
(** [query] is the [event_id] query parameter. *)
Definition eventIDFor (r : Route) (query : string) : string :=
  if bool_decide (Endpoint_ r = EndpointEvent) then DecodeParam (Param r) else query.

Section origin.
Variable ParseXMatrixAuth : string → string.  (* the origin of a header *)
Definition originFromAuth (header : string) : string :=
  if has_prefix header "X-Matrix " then ParseXMatrixAuth header else EmptyString.
End origin.

(** ** The canary's share *)

(** [fnv.New64a] *)
Definition fnv_offset : Z := 14695981039346656037.
Definition fnv_prime : Z := 1099511628211.
Fixpoint fnv1a (h : Z) (s : string) : Z :=
  match s with
  | EmptyString => h
  | String a s => fnv1a (u64 (Z.lxor h (Utf8.byte a) * fnv_prime)) s
  end.

Definition sampled (mode : Mode) (key : string) : bool :=
  if bool_decide (Kind mode = ModeNative) then true
  else if bool_decide (Kind mode = ModeCanary) then
    if bool_decide (CanaryPercent mode ≤ 0) then false
    else if bool_decide (100 ≤ CanaryPercent mode) then true
    else if bool_decide (key = EmptyString) then false
    else bool_decide (fnv1a fnv_offset key `mod` 100 < u64 (CanaryPercent mode))
  else false.

Definition samplingKey (r : Route) (eventID reqBody : string) : string :=
  if negb (HasRequestBody (Endpoint_ r)) then eventID
  else DecodeParam (Param r) +:+ String nul reqBody.

(** [modeFor] *)
Definition modeFor (modes : list (string * Mode)) (e : Endpoint) : Mode :=
  default (MkMode ModeProxy 0) (snd <$> List.find (λ p, bool_decide (p.1 = endpoint_name e)) modes).

Definition answeredRoom (gjson_room : string) (roomID : string) (status : Z) : string :=
  if negb (bool_decide (roomID = EmptyString)) || negb (bool_decide (status = 200)) then roomID else gjson_room.

(** ** Properties *)

(** [url.PathEscape], for bytes that need it: the inverse on any byte. *)
Definition hex_digit (z : Z) : ascii := Utf8.chr (if bool_decide (z < 10) then z + 48 else z + 55).
Fixpoint escape (safe : ascii → bool) (s : string) : string :=
  match s with
  | EmptyString => EmptyString
  | String a s =>
      if safe a then String a (escape safe s)
      else String "%" (String (hex_digit (Utf8.byte a / 16)) (String (hex_digit (Utf8.byte a `mod` 16)) (escape safe s)))
  end.

Lemma hex_round z : 0 ≤ z < 16 → hex_val (hex_digit z) = Some z.
Proof.
  intros Hz. assert (forallb (λ z, bool_decide (hex_val (hex_digit z) = Some z)) (seqZ 0 16) = true) as Hall
    by (vm_compute; reflexivity).
  rewrite forallb_forall in Hall. specialize (Hall z). rewrite bool_decide_eq_true in Hall.
  apply Hall, list_elem_of_In, elem_of_seqZ. lia.
Qed.

Definition prefix_of (e : Endpoint) : string :=
  match e with
  | EndpointEvent => "/_matrix/federation/v1/event/"
  | EndpointState => "/_matrix/federation/v1/state/"
  | EndpointStateIDs => "/_matrix/federation/v1/state_ids/"
  | EndpointGetMissingEvents => "/_matrix/federation/v1/get_missing_events/"
  | EndpointUnknown => EmptyString
  end.

Lemma Match_prefix e s : e ≠ EndpointUnknown →
  Match (prefix_of e +:+ s) =
    (let param := trim_suffix s "/" in
     if bool_decide (param = EmptyString) || contains_byte slash param then None else Some (MkRoute e param)).
Proof.
  intros He. assert (∀ a b, a ≠ EndpointUnknown →
    has_prefix (prefix_of a +:+ s) (prefix_of b) = bool_decide (a = b ∨ b = EndpointUnknown)) as Hp.
  { intros a b Ha. destruct (decide (a = b)) as [->|Hne]; [rewrite bool_decide_true by auto; apply has_prefix_app|].
    by destruct a, b. }
  assert (Match (prefix_of e +:+ s) = match_prefixes ((λ e, (prefix_of e, e)) <$>
    [EndpointStateIDs; EndpointState; EndpointEvent; EndpointGetMissingEvents]) (prefix_of e +:+ s)) as -> by done.
  destruct e; [..|done]; cbn [fmap list_fmap match_prefixes]; rewrite !Hp by done;
    repeat match goal with |- context [bool_decide ?P] => first [change (bool_decide P) with true|change (bool_decide P) with false] end;
    cbn [negb]; by rewrite drop_str_app.
Qed.

Lemma Match_inv path r : Match path = Some r →
  Endpoint_ r ≠ EndpointUnknown ∧ Param r ≠ EmptyString ∧ contains_byte slash (Param r) = false.
Proof.
  unfold Match. assert (∀ p, p ∈ prefixes → p.2 ≠ EndpointUnknown) as Hk.
  { intros p Hp. unfold prefixes in Hp. rewrite !elem_of_cons in Hp.
    destruct Hp as [->|[->|[->|[->|[]%not_elem_of_nil]]]]; done. }
  revert Hk. generalize prefixes as ps. induction ps as [|[p e] ps IH]; intros Hk; [done|]. cbn [match_prefixes].
  destruct (has_prefix path p); cbn [negb]; [|apply IH; intros x Hx; apply Hk; by right].
  destruct (bool_decide _ || contains_byte slash _) eqn:E; [done|]. intros [= <-].
  apply orb_false_iff in E as [E1 E2]. apply bool_decide_eq_false in E1. cbn [Endpoint_ Param].
  split_and!; [|done|done]. apply (Hk (p, e)). left.
Qed.

Section escaped.
Context (safe : ascii → bool) (Hpercent : safe "%"%char = false) (Hslash : safe slash = false).

Lemma byte_bounds a : 0 ≤ Utf8.byte a < 256.
Proof using Type. unfold Utf8.byte. pose proof (N_ascii_bounded a). lia. Qed.

Lemma unescape_escape s : PathUnescape (escape safe s) = Some s.
Proof using Hpercent.
  induction s as [|a s IH]; [done|]. cbn [escape]. pose proof (byte_bounds a) as Hb. destruct (safe a) eqn:Ha.
  - assert (PathUnescape (String a (escape safe s)) = String a <$> PathUnescape (escape safe s)) as ->; [|by rewrite IH].
    destruct (decide (a = "%"%char)) as [->|Hne]; [congruence|]. destruct a as [[] [] [] [] [] [] [] []]; done.
  - cbn [PathUnescape]. rewrite !hex_round by (split; [apply Z.div_pos || apply Z.mod_pos_bound; lia|
      apply Z.div_lt_upper_bound || apply Z.mod_pos_bound; lia]).
    rewrite <-Z.div_mod by lia. rewrite IH. cbn. do 2 f_equal. unfold Utf8.chr, Utf8.byte.
    rewrite N2Z.id. by rewrite ascii_N_embedding.
Qed.

Lemma escape_no_slash s : contains_byte slash (escape safe s) = false.
Proof using Hslash.
  assert (∀ z, 0 ≤ z < 16 → hex_digit z ≠ slash) as Hd.
  { intros z Hz. assert (forallb (λ z, negb (bool_decide (hex_digit z = slash))) (seqZ 0 16) = true) as Hall
      by (vm_compute; reflexivity).
    rewrite forallb_forall in Hall. specialize (Hall z). rewrite negb_true_iff, bool_decide_eq_false in Hall.
    apply Hall, list_elem_of_In, elem_of_seqZ. lia. }
  induction s as [|a s IH]; [done|]. cbn [escape]. pose proof (byte_bounds a) as Hb. destruct (safe a) eqn:Ha; cbn [contains_byte].
  - rewrite IH, orb_false_r, bool_decide_eq_false. intros ->. congruence.
  - rewrite IH, orb_false_r. rewrite !(bool_decide_false (hex_digit _ = slash)); [done|..]; apply Hd.
    + pose proof (Z.mod_pos_bound (Utf8.byte a) 16). lia.
    + split; [apply Z.div_pos; lia|apply Z.div_lt_upper_bound; lia].
Qed.
End escaped.

(** An escaped identifier is matched and decoded. *)
Lemma Match_escaped (safe : ascii → bool) e id tail : safe "%"%char = false → safe slash = false → e ≠ EndpointUnknown →
  id ≠ EmptyString → tail = EmptyString ∨ tail = "/"%string →
  ∃ r, Match (prefix_of e +:+ (escape safe id +:+ tail)) = Some r ∧ Endpoint_ r = e ∧ DecodeParam (Param r) = id.
Proof.
  intros Hp Hs He Hid Ht. exists (MkRoute e (escape safe id)).
  pose proof (unescape_escape safe Hp id) as Hu. pose proof (escape_no_slash safe Hs id) as Hn.
  assert (trim_suffix (escape safe id +:+ tail) "/" = escape safe id) as Htr.
  { destruct Ht as [-> | ->]; [rewrite app_nil_str; by apply trim_suffix_byte|apply trim_suffix_app]. }
  rewrite Match_prefix by done. cbv zeta. rewrite Htr, Hn, orb_false_r, bool_decide_false.
  - split_and!; [done|done|]. unfold DecodeParam. cbn [Param]. by rewrite Hu.
  - intros E. rewrite E in Hu. injection Hu as <-. done.
Qed.

(** Routing keeps the identifier: whatever event or room ID a server escapes
    into the path of an endpoint, with or without a trailing slash, the request is
    matched to that endpoint and decodes to that ID; and no other path is matched
    to anything but a known endpoint with one non-empty segment. *)
Theorem route_roundtrip (safe : ascii → bool) e id tail path r :
  safe "%"%char = false → safe slash = false → e ≠ EndpointUnknown → id ≠ EmptyString →
  tail = EmptyString ∨ tail = "/"%string →
  (∃ r', Match (prefix_of e +:+ (escape safe id +:+ tail)) = Some r' ∧ Endpoint_ r' = e ∧ DecodeParam (Param r') = id) ∧
  (Match path = Some r → Endpoint_ r ≠ EndpointUnknown ∧ Param r ≠ EmptyString ∧ contains_byte slash (Param r) = false).
Proof.
  intros Hp Hs He Hid Ht. split; [by apply Match_escaped|apply Match_inv].
Qed.

(** The canary's share only grows: a question answered natively at one
    percentage is answered natively at every higher one and in native mode, always
    the same way for the same question; at 0 nothing is, and proxy and shadow serve
    nothing. *)
Theorem sampled_monotone p q key :
  0 ≤ p ≤ q → q ≤ 100 →
  (sampled (MkMode ModeCanary p) key = true → sampled (MkMode ModeCanary q) key = true) ∧
  sampled (MkMode ModeNative q) key = true ∧ sampled (MkMode ModeCanary 0) key = false ∧
  (key ≠ EmptyString → sampled (MkMode ModeCanary 100) key = true) ∧
  ∀ m, Kind m = ModeProxy ∨ Kind m = ModeShadow → sampled m key = false.
Proof.
  intros Hp Hq. split_and!.
  - unfold sampled. cbn [Kind CanaryPercent]. change (bool_decide (ModeCanary = ModeNative)) with false.
    change (bool_decide (ModeCanary = ModeCanary)) with true. cbn iota.
    repeat case_bool_decide; try done; try lia.
    all: rewrite ?bool_decide_eq_true in *; rewrite ?u64_small in * by lia; lia.
  - done.
  - done.
  - intros _. done.
  - intros [k c] [Hk|Hk]; cbn in Hk; subst k; done.
Qed.

Lemma route_roundtrip_witness :
  ∃ r, Match "/_matrix/federation/v1/state_ids/%21a:b%2Fc/" = Some r ∧ Endpoint_ r = EndpointStateIDs ∧
    DecodeParam (Param r) = "!a:b/c"%string.
Proof.
  destruct (route_roundtrip (λ a, negb (bool_decide (a ∈ ["%"; "/"; "!"]%char))) EndpointStateIDs "!a:b/c" "/"
    EmptyString (MkRoute EndpointEvent EmptyString)) as [Hr _]; [done|done|done|done|by right|exact Hr].
Defined.

Lemma sampled_monotone_witness :
  sampled (MkMode ModeCanary 50) "$a" = true ∧ sampled (MkMode ModeCanary 60) "$a" = true.
Proof.
  assert (sampled (MkMode ModeCanary 50) "$a" = true) as H by (vm_compute; reflexivity).
  split; [exact H|]. destruct (sampled_monotone 50 60 "$a") as [Hm _]; [lia|lia|exact (Hm H)].
Defined.
