(* ===== verification/Native.v ===== *)
(** * [internal/native]: an endpoint's answer

    The resolver is an interface, as in the source; the request path and the
    comparator share [Answer]. *)
From S2P Require Import Prelude Json JsonStream Store External Events Pducmp Wire Printed Digest Resolver StateStream.

Open Scope Z_scope.

(** ** The interface *)
Class NativeResolver := {
  rs_StateIDs : string → string → string → R StateIDsResponse;                  (* origin, room, event *)
  rs_Event : string → string → string → R TransactionResponse;                  (* origin, server name, event *)
  rs_GetMissingEvents : string → string → string → list string → list string → Z → R MissingEventsResponse;
  rs_State {W} `{!Writer W} : W → string → string → string → R (outcome W) }.   (* writer, origin, room, event *)

(** The resolver of [matrixstate], with what it reads outside the database: the
    shared computation it may wait for, and the clock. *)
Definition matrixstate_resolver `{!External} (other : option flight_outcome) (now : Z) : NativeResolver :=
  {| rs_StateIDs := StateIDs other;
     rs_Event origin serverName eventID := lift (Event_ now origin serverName eventID);
     rs_GetMissingEvents := GetMissingEvents now;
     rs_State W _ := State |}.

(** ** [json.Marshal] of the responses *)
Definition marshal_state_ids (r : StateIDsResponse) : string :=
  print_object [("pdu_ids", print_array (encode_string <$> PDUIDs r));
                ("auth_chain_ids", print_array (encode_string <$> AuthChainIDs r))]%string.

(** A [json.RawMessage] is checked and compacted; [None] is the error. *)
Definition marshal_raws (l : list string) : option string :=
  if forallb (λ raw, is_ok (parse raw)) l then Some (print_array (compact false <$> l)) else None.

Definition marshal_transaction (r : TransactionResponse) : option string :=
  pdus ← marshal_raws (TPDUs r);
  Some (print_object [("origin", encode_string (Origin r)); ("origin_server_ts", print_int (OriginServerTS r));
                      ("pdus", pdus)]%string).
Definition marshal_missing_events (r : MissingEventsResponse) : option string :=
  evs ← marshal_raws (Events_ r); Some (print_object [("events", evs)]%string).

(** ** Requests *)
Record Request := MkRequest {
  rq_Endpoint : string; rq_Origin : string; rq_RoomID : string; rq_EventID : string; rq_Body : string }.

Record MissingEventsRequest := MER_ { EarliestEvents : list string; LatestEvents : list string; Limit : option Z }.

(** A [[]string] field: [null] is the nil slice.  A repeated field is decoded into the
    slots there are, those past its end included, and a null element leaves its slot as
    it was, which is empty at first. *)
Fixpoint string_elems (slots : list string) (es : list (json * string)) : option (list string) :=
  match es with
  | [] => Some slots
  | (JStr raw, _) :: es => cons (unquote raw) <$> string_elems (tail slots) es
  | (JNull, _) :: es => cons (default EmptyString (head slots)) <$> string_elems (tail slots) es
  | _ :: _ => None
  end.
Fixpoint strings_field (slots : list string) (len : nat) (vs : list (json * string)) : option (list string) :=
  match vs with
  | [] => Some (take len slots)
  | (JNull, _) :: vs | (JArr [], _) :: vs => strings_field [] 0 vs
  | (JArr es, _) :: vs => l ← string_elems slots es; strings_field l (length es) vs
  | _ :: _ => None
  end.
(** A [*int] field. *)
Fixpoint int_ptr_field (cur : option Z) (vs : list (json * string)) : option (option Z) :=
  match vs with
  | [] => Some cur
  | (JNull, _) :: vs => int_ptr_field None vs
  | (JNum tok, _) :: vs => n ← ParseInt tok; int_ptr_field (Some n) vs
  | _ :: _ => None
  end.
Definition request_fields : list string := ["earliest_events"; "latest_events"; "limit"]%string.
Definition parse_missing_events (body : string) : option MissingEventsRequest :=
  ms ← Struct.top body;
  earliest ← strings_field [] 0 (Struct.occurrences request_fields "earliest_events" ms);
  latest ← strings_field [] 0 (Struct.occurrences request_fields "latest_events" ms);
  limit ← int_ptr_field None (Struct.occurrences request_fields "limit" ms);
  Some (MER_ earliest latest limit).

(** ** [Answer] *)
Record Meta := MkMeta { meta_WalkTruncated : bool }.
Definition no_meta : Meta := MkMeta false.
Notation answer := (string * Z * Meta)%type.

(** [errors.As] with a [*MatrixError]. *)
Definition as_matrix (e : error) : option (Z * string * string) :=
  match unwrap e with MatrixError status code msg => Some (status, code, msg) | _ => None end.

Definition matrixError (e : error) : R answer :=
  match as_matrix e with
  | Some (status, code, msg) => mret ((Response status code msg).1, status, no_meta)
  | None => rfail e
  end.

(** The error of a failed [json.Marshal]. *)
Definition marshalled (status : Z) (meta : Meta) (b : option string) : R answer :=
  match b with Some body => mret (body, status, meta) | None => rfail (ErrText "json: error calling MarshalJSON") end.

Definition is_event_not_found (e : error) : bool :=
  match unwrap e with ErrEventNotFound => true | _ => false end.

Definition Answer `{!NativeResolver} (serverName : string) (request : Request) : R answer :=
  if bool_decide (rq_Endpoint request = "state_ids"%string) then
    r ← rtry (rs_StateIDs (rq_Origin request) (rq_RoomID request) (rq_EventID request));
    match r with
    | Err e => matrixError e
    | Ok resp => mret (marshal_state_ids resp, 200, no_meta)
    end
  else if bool_decide (rq_Endpoint request = "get_missing_events"%string) then
    match (if bool_decide (rq_Body request = EmptyString) then Some (MER_ [] [] None)
           else parse_missing_events (rq_Body request)) with
    | None => matrixError ErrBadJSON
    | Some body =>
        r ← rtry (rs_GetMissingEvents (rq_Origin request) serverName (rq_RoomID request)
                    (EarliestEvents body) (LatestEvents body) (default 10 (Limit body)));
        match r with
        | Err e => matrixError e
        | Ok resp => marshalled 200 (MkMeta (WalkTruncated resp)) (marshal_missing_events resp)
        end
    end
  else if bool_decide (rq_Endpoint request = "event"%string) then
    r ← rtry (rs_Event (rq_Origin request) serverName (rq_EventID request));
    match r with
    | Err e => if is_event_not_found e then mret (EmptyString, 404, no_meta) else matrixError e
    | Ok resp => marshalled 200 no_meta (marshal_transaction resp)
    end
  else rfail (ErrText ("native: no implementation for " +:+ rq_Endpoint request)).

(** A printed list of strings is decoded to the list. *)
Lemma strings_field_printed l : Forall (λ s, valid_utf8 s = true) l →
  strings_field [] 0 [(JArr (str_values l), print_array (encode_string <$> l))] = Some l.
Proof.
  intros Hl. assert (string_elems [] (str_values l) = Some l) as He.
  { induction Hl as [|s l Hs Hl IH]; [done|]. cbn. fold (str_values l). by rewrite IH, unquote_escaped. }
  destruct l as [|s l]; [done|]. cbn [strings_field str_values fmap list_fmap] in *. rewrite He.
  cbn [mbind option_bind length take]. by rewrite length_fmap, firstn_all.
Qed.
