(* ===== verification/Http.v ===== *)
(** * [net/http]'s response, as the handlers use it

    What a handler did to its [http.ResponseWriter]: the headers, the status, and
    the bytes the connection took.  The connection decides how much of a write it
    takes and fails when its deadline passes; it is a parameter, with the contract
    of [io.Writer]. *)
From S2P Require Import Prelude Store StateStream.

Open Scope Z_scope.

(** ** The connection *)

(** What it takes of a write, after what was sent, under a write deadline. *)
Class Connection := accept : option Z → string → string → Z * option error.

Class LawfulConnection `{!Connection} := {
  accept_bounds dl sent p : 0 ≤ (accept dl sent p).1 ≤ str_len p;
  accept_all dl sent p n : accept dl sent p = (n, None) → n = str_len p }.

(** ** [http.ResponseWriter] *)
Class ResponseWriter (W : Type) := {
  Header_Set : string → string → W → W;
  WriteHeader : Z → W → W;
  WriteBody : string → W → W * (Z * option error) }.

(** The server's: [r_informational] are the 1xx responses sent before the one
    that counts. *)
Record response := Resp {
  r_header : gmap string string; r_informational : list Z; r_status : option Z; r_sent : string }.
Definition blank : response := Resp ∅ [] None EmptyString.

Definition informational (code : Z) : bool :=
  bool_decide (100 ≤ code) && bool_decide (code < 200) && negb (bool_decide (code = 101)).
Definition body_allowed (code : Z) : bool :=
  negb (bool_decide (100 ≤ code < 200) || bool_decide (code = 204) || bool_decide (code = 304)).

Definition set_header (k v : string) (r : response) : response :=
  match r_status r with
  | None => Resp (<[k := v]> (r_header r)) (r_informational r) None (r_sent r)
  | Some _ => r
  end.
Definition set_status (code : Z) (r : response) : response :=
  match r_status r with
  | Some _ => r
  | None =>
      if informational code then Resp (r_header r) (r_informational r ++ [code]) None (r_sent r)
      else Resp (r_header r) (r_informational r) (Some code) (r_sent r)
  end.
(** A write under a deadline; without a status it is a 200. *)
Definition send `{!Connection} (dl : option Z) (p : string) (r : response) : response * (Z * option error) :=
  let r := set_status 200 r in
  if negb (body_allowed (default 200 (r_status r))) then
    (r, (0, Some (ErrText "http: request method or response status code does not allow body")))
  else
    let '(n, e) := accept dl (r_sent r) p in
    (Resp (r_header r) (r_informational r) (r_status r) (r_sent r +:+ take_str (Z.to_nat n) p), (n, e)).

#[export] Instance server_writer `{!Connection} : ResponseWriter response :=
  {| Header_Set := set_header; WriteHeader := set_status; WriteBody := send None |}.

(** A whole answer, its write error dropped. *)
Definition respond `{!Connection} (headers : list (string * string)) (code : Z) (body : string) (r : response) : response :=
  (WriteBody body (WriteHeader code (foldl (λ r h, Header_Set h.1 h.2 r) r headers))).1.

Definition json_type : list (string * string) := [("Content-Type", "application/json")]%string.
Definition newline : string := String "010" EmptyString.

(** [http.Error] and [http.NotFound] *)
Definition http_Error `{!Connection} (msg : string) (code : Z) : response → response :=
  respond [("Content-Type", "text/plain; charset=utf-8"); ("X-Content-Type-Options", "nosniff")]%string code
    (msg +:+ newline).
Definition http_NotFound `{!Connection} : response → response := http_Error "404 page not found" 404.

(** ** Lemmas *)
Lemma take_str_all p : take_str (String.length p) p = p.
Proof. induction p as [|a p IH]; [done|]. cbn. by rewrite IH. Qed.

Lemma send_all `{LawfulConnection} dl p r r' n :
  send dl p r = (r', (n, None)) → n = str_len p ∧ r_sent r' = r_sent r +:+ p.
Proof.
  unfold send. destruct (negb _); [done|].
  destruct (accept dl (r_sent (set_status 200 r)) p) as [m [e|]] eqn:E; [done|]. intros [= <- <-].
  apply accept_all in E as ->. split; [done|]. cbn [r_sent]. unfold str_len. rewrite Nat2Z.id, take_str_all.
  f_equal. unfold set_status. by destruct (r_status r).
Qed.
