(* ===== verification/Proxy.v ===== *)
(** * [internal/proxy]: forwarding a request to Synapse

    The recorder between [httputil.ReverseProxy] and the client, the round robin
    over the backends, and how a finished forward is classified.  What the reverse
    proxy does to the writer it is given is a list of operations. *)
From S2P Require Import Prelude Store StateStream Config Http.

Open Scope Z_scope.

(** ** What the reverse proxy does to its writer

    [Fail] is an error while the upstream's body is read. *)
Inductive rw_op := SetHeader (k v : string) | Status (code : Z) | Body (p : string) | Fail.

Section forward.
Context {W : Type} `{!ResponseWriter W} {S : Type} `{!Writer S}.

(** ** [recorder] *)
Record recorder := Recorder {
  rec_w : W; status : Z; written : Z; limit : Z; buf : string; truncated : bool;
  rec_sink : option S; sinkErr : option error }.

Definition rec_WriteHeader (code : Z) (r : recorder) : recorder :=
  if bool_decide (status r = 0) then
    Recorder (WriteHeader code (rec_w r)) code (written r) (limit r) (buf r) (truncated r) (rec_sink r) (sinkErr r)
  else r.

(** The copy to the sink, which a failure disables. *)
Definition tee (p : string) (r : recorder) : recorder :=
  match rec_sink r, sinkErr r with
  | Some s, None =>
      let '(s, (_, serr)) := write s p in
      Recorder (rec_w r) (status r) (written r) (limit r) (buf r) (truncated r) (Some s) serr
  | _, _ => r
  end.

(** The copy kept for a comparison. *)
Definition capture (p : string) (r : recorder) : recorder :=
  if bool_decide (0 < limit r) then
    let remaining := limit r - str_len (buf r) in
    let '(b, t) :=
      if bool_decide (remaining ≤ 0) then (buf r, true)
      else if bool_decide (remaining < str_len p) then (buf r +:+ take_str (Z.to_nat remaining) p, true)
      else (buf r +:+ p, truncated r) in
    Recorder (rec_w r) (status r) (written r) (limit r) b t (rec_sink r) (sinkErr r)
  else r.

Definition rec_Write (p : string) (r : recorder) : recorder * (Z * option error) :=
  let st := if bool_decide (status r = 0) then 200 else status r in
  let '(w, (n, e)) := WriteBody p (rec_w r) in
  let p' := take_str (Z.to_nat n) p in
  (capture p' (tee p' (Recorder w st (written r + n) (limit r) (buf r) (truncated r) (rec_sink r) (sinkErr r))), (n, e)).

#[export] Instance recorder_writer : ResponseWriter recorder :=
  {| Header_Set k v r := Recorder (Header_Set k v (rec_w r)) (status r) (written r) (limit r) (buf r) (truncated r)
                           (rec_sink r) (sinkErr r);
     WriteHeader := rec_WriteHeader;
     WriteBody := rec_Write |}.
End forward.
Arguments recorder : clear implicits.

(** The reverse proxy stops copying at the first read or write that fails; whether it
    got to the end. *)
Fixpoint perform {W} `{!ResponseWriter W} (ops : list rw_op) (w : W) : W * bool :=
  match ops with
  | [] => (w, true)
  | SetHeader k v :: ops => perform ops (Header_Set k v w)
  | Status code :: ops => perform ops (WriteHeader code w)
  | Body p :: ops => let '(w, (_, e)) := WriteBody p w in match e with None => perform ops w | Some _ => (w, false) end
  | Fail :: _ => (w, false)
  end.

(** ** The backends *)
Inductive dialFunc := unixDialer (path : string) | tcpDialer (addr : string).
Definition unixHost : string := "unix".

(** [http.Transport], times in nanoseconds. *)
Record Transport := MkTransport {
  DialContext : dialFunc; tr_MaxIdleConns : Z; MaxIdleConnsPerHost : Z; IdleConnTimeout : Z;
  ResponseHeaderTimeout : Z; ExpectContinueTimeout : Z; DisableCompression : bool }.
Record backend := MkBackend { b_name : string; b_host : string; b_transport : Transport }.
Definition second : Z := 1000000000.

Definition newBackend (name host : string) (dial : dialFunc) (timeout idle : Z) : backend :=
  MkBackend name host (MkTransport dial idle idle (90 * second) timeout second true).

Record Proxy := MkProxy { backends : list backend; next : Z }.

Definition New (cfg : Upstream) : result string Proxy :=
  let timeout := if bool_decide (TimeoutSeconds cfg = 0) then 60 * second else i64 (TimeoutSeconds cfg * second) in
  let idle := if bool_decide (MaxIdleConns cfg = 0) then 32 else MaxIdleConns cfg in
  let bs := (((λ sock, newBackend sock unixHost (unixDialer sock) timeout idle) <$> Sockets cfg) ++
             ((λ addr, newBackend addr addr (tcpDialer addr) timeout idle) <$> Addrs cfg))%list in
  if bool_decide (length bs = 0%nat) then Err "proxy: no upstreams configured"%string else Ok (MkProxy bs 0).

Definition Backends (p : Proxy) : list string := b_name <$> backends p.

(** [None] is an index out of range. *)
Definition pick (p : Proxy) : option backend * Proxy :=
  if bool_decide (length (backends p) = 1%nat) then (head (backends p), p)
  else
    let n := u64 (next p + 1) in
    let i := u64 (n - 1) in
    (backends p !! Z.to_nat (i `mod` Z.of_nat (length (backends p))), MkProxy (backends p) n).

(** ** [rewrite]: the request sent on *)
Record URL := MkURL { Scheme : string; Host : string; Path : string; RawPath : string; RawQuery : string; ForceQuery : bool }.
Record http_request := MkHttpRequest { r_URL : URL; r_Host : string }.

(** [Out] begins as a copy of [In], its query cleaned by the reverse proxy. *)
Definition rewrite (In Out : http_request) (host : string) : http_request :=
  MkHttpRequest (MkURL "http" host (Path (r_URL In)) (RawPath (r_URL In)) (RawQuery (r_URL In)) (ForceQuery (r_URL Out)))
    (r_Host In).

(** ** [forward] *)
Record Result := MkResult {
  Backend : string; Status_ : Z; Bytes_ : Z; Body_ : string; Truncated : bool;
  Canceled : bool; Err_ : bool (* [Err] is set *); SinkErr : option error }.

Section forwarding.
Context {W : Type} `{!ResponseWriter W} {S : Type} `{!Writer S}.

(** [ops] is the upstream's answer, [gone] whether the request's context is done
    when the forward ends, [served] whether it is one of an [http.Server]: then the
    reverse proxy panics with [http.ErrAbortHandler] if it could not copy all of the
    body, and there is no result. *)
Definition forward (backend : string) (ops : list rw_op) (gone served : bool) (w : W) (captureLimit : Z) (sink : option S)
    : option Result * recorder W S :=
  let '(r, copied) := perform ops (Recorder w 0 0 captureLimit EmptyString false sink None) in
  if negb copied && served then (None, r) else
  let canceled := bool_decide (status r = 0) && gone in
  (Some (MkResult backend (status r) (written r) (if bool_decide (0 < captureLimit) then buf r else EmptyString) (truncated r)
     canceled (negb canceled && bool_decide (status r = 502) && bool_decide (written r = 0)) (sinkErr r)), r).

Definition Forward backend ops gone served w captureLimit := forward backend ops gone served w captureLimit None.
Definition ForwardStreaming backend ops gone served w sink := forward backend ops gone served w 0 (Some sink).
End forwarding.

(** [discardWriter] and [Discard] *)
Inductive discard := Discard.
#[export] Instance discard_writer : ResponseWriter discard :=
  {| Header_Set _ _ w := w; WriteHeader _ w := w; WriteBody p w := (w, (str_len p, None)) |}.

Definition Fetch {S} `{!Writer S} backend ops gone served captureLimit : option Result :=
  (Forward (S := S) backend ops gone served Discard (if bool_decide (captureLimit ≤ 0) then 1 else captureLimit)).1.

(** ** The client gets what Synapse sent *)
Section transparent.
Context {conn : Connection} {Hconn : LawfulConnection} {S : Type} {Hsink : Writer S}.

(** A final status. *)
Definition proper (o : rw_op) : Prop := match o with Status code => 200 ≤ code | _ => True end.

(** What of [ops] the recorder lets through: a status only while it knows of none, and
    the body's first write settles it. *)
Fixpoint once (settled : bool) (ops : list rw_op) : list rw_op :=
  match ops with
  | [] => []
  | Status code :: ops => if settled then once settled ops else (Status code :: once (bool_decide (code ≠ 0)) ops)%list
  | Body p :: ops => (Body p :: once true ops)%list
  | o :: ops => (o :: once settled ops)%list
  end.

(** The recorder next to the writer it stands before: what it counts and keeps of the body. *)
Record copies (lim : Z) (r : recorder response S) (w : response) : Prop := {
  cp_w : rec_w r = w;
  cp_written : written r = str_len (r_sent w);
  cp_limit : limit r = lim;
  cp_buf : 0 < lim → buf r = take_str (Z.to_nat lim) (r_sent w);
  cp_kept : 0 < lim → truncated r = false → str_len (r_sent w) ≤ lim;
  cp_cut : 0 < lim → lim < str_len (r_sent w) → truncated r = true;
  cp_whole : 0 < lim → str_len (r_sent w) < lim → truncated r = false }.

(** And the status. *)
Record mirrors (lim : Z) (r : recorder response S) (w : response) : Prop := {
  mi_copies : copies lim r w;
  mi_status : status r = default 0 (r_status w);
  mi_known : r_status w ≠ Some 0 }.
Lemma mi_w lim r w (Hm : mirrors lim r w) : rec_w r = w.
Proof using Type. apply Hm. Qed.
Lemma mi_written lim r w (Hm : mirrors lim r w) : written r = str_len (r_sent w).
Proof using Type. apply Hm. Qed.
Lemma mi_buf lim r w (Hm : mirrors lim r w) : 0 < lim → buf r = take_str (Z.to_nat lim) (r_sent w).
Proof using Type. apply Hm. Qed.
Lemma mi_kept lim r w (Hm : mirrors lim r w) : 0 < lim → truncated r = false → str_len (r_sent w) ≤ lim.
Proof using Type. apply Hm. Qed.
Lemma mi_cut lim r w (Hm : mirrors lim r w) : 0 < lim → lim < str_len (r_sent w) → truncated r = true.
Proof using Type. apply Hm. Qed.
Lemma mi_whole lim r w (Hm : mirrors lim r w) : 0 < lim → str_len (r_sent w) < lim → truncated r = false.
Proof using Type. apply Hm. Qed.

Lemma take_str_app_le n s t : (n ≤ String.length s)%nat → take_str n (s +:+ t) = take_str n s.
Proof using Type.
  revert s. induction n as [|n IH]; intros [|a s] Hn; simpl in Hn; [by destruct t|done|lia|].
  cbn. f_equal. apply IH. lia.
Qed.
Lemma take_str_app_ge n s t : (String.length s ≤ n)%nat → take_str n (s +:+ t) = s +:+ take_str (n - String.length s) t.
Proof using Type.
  revert s. induction n as [|n IH]; intros [|a s] Hn; simpl in Hn; [done|lia|done|].
  change (take_str (Datatypes.S n) (String a (s +:+ t)) = String a (s +:+ take_str (n - String.length s) t)).
  cbn [take_str]. f_equal. apply IH. lia.
Qed.
Lemma take_str_len n s : (String.length (take_str n s) = n `min` String.length s)%nat.
Proof using Type. revert s. induction n as [|n IH]; intros [|a s]; [done..|]. cbn. by rewrite IH. Qed.
Lemma take_str_ge n s : (String.length s ≤ n)%nat → take_str n s = s.
Proof using Type. intros Hn. rewrite <-(app_nil_str s) at 1. rewrite take_str_app_ge by done. destruct (n - _)%nat; apply app_nil_str. Qed.

Lemma mirrors_status lim r w code : 200 ≤ code → mirrors lim r w → mirrors lim (WriteHeader code r) (WriteHeader code w).
Proof using Type.
  intros Hc [[Hrw Hw Hl Hb Hkp Hct Hwh] Hs Hk].
  change (mirrors lim (rec_WriteHeader code r) (set_status code w)). unfold rec_WriteHeader. rewrite Hs.
  destruct (r_status w) as [c|] eqn:E; cbn [default from_option id].
  - rewrite bool_decide_false by congruence.
    assert (set_status code w = w) as -> by (unfold set_status; by rewrite E). by split; [|rewrite E..].
  - rewrite bool_decide_true by done.
    assert (set_status code w = Resp (r_header w) (r_informational w) (Some code) (r_sent w)) as Hset.
    { unfold set_status. rewrite E. unfold informational. rewrite (bool_decide_false (code < 200)) by lia.
      by rewrite andb_false_r. }
    rewrite Hset. split; [split|..]; cbn [rec_w status written limit buf truncated r_status r_sent WriteHeader server_writer];
      try done; [by rewrite Hrw|]. intros [= ->]. lia.
Qed.

Lemma send_sent dl p w : ∃ n, (send dl p w).2.1 = n ∧ 0 ≤ n ≤ str_len p ∧
  r_sent (send dl p w).1 = r_sent w +:+ take_str (Z.to_nat n) p ∧
  r_status (send dl p w).1 = Some (default 200 (r_status w)).
Proof using Hconn.
  unfold send. assert (r_sent (set_status 200 w) = r_sent w ∧ r_status (set_status 200 w) = Some (default 200 (r_status w)))
    as [E1 E2] by (unfold set_status; destruct (r_status w) eqn:E; [by rewrite E|done]).
  destruct (negb _).
  - exists 0. cbn [fst snd]. rewrite E1, E2. split_and!; [done|done|unfold str_len; lia| |done].
    by rewrite app_nil_str.
  - pose proof (accept_bounds dl (r_sent (set_status 200 w)) p) as Hb.
    destruct (accept dl (r_sent (set_status 200 w)) p) as [n e]. exists n. cbn [fst snd r_sent r_status] in *.
    by rewrite E1, E2.
Qed.

(** [tee] leaves all but the sink. *)
Lemma tee_frame p (r : recorder response S) : rec_w (tee p r) = rec_w r ∧ status (tee p r) = status r ∧
  written (tee p r) = written r ∧ limit (tee p r) = limit r ∧ buf (tee p r) = buf r ∧ truncated (tee p r) = truncated r.
Proof using Type. unfold tee. destruct (rec_sink r), (sinkErr r); try done. by destruct (write s p) as [? [? ?]]. Qed.

(** One more piece of the body. *)
Lemma copies_capture lim r w w' p r1 : copies lim r w → r_sent w' = r_sent w +:+ p → rec_w r1 = w' →
  written r1 = written r + str_len p → limit r1 = limit r → buf r1 = buf r → truncated r1 = truncated r →
  copies lim (capture p r1) w'.
Proof using Type.
  intros [Hrw Hw Hl Hb Hkp Hct Hwh] Esent E1 E3 E4 E5 E6. unfold capture. rewrite E4, E5, E6, Hl.
  assert (str_len (r_sent w') = str_len (r_sent w) + str_len p) as Hlen' by (rewrite Esent; unfold str_len; rewrite app_len; lia).
  destruct (decide (0 < lim)) as [Hlim|Hlim].
  2:{ rewrite bool_decide_false by lia. split; [done|..]; try lia. }
  rewrite bool_decide_true by done. specialize (Hb Hlim). specialize (Hkp Hlim). specialize (Hct Hlim). specialize (Hwh Hlim).
  assert (str_len (buf r) = Z.min lim (str_len (r_sent w))) as Hlen by (rewrite Hb; unfold str_len; rewrite take_str_len; lia).
  assert (∀ b t, (b = take_str (Z.to_nat lim) (r_sent w')) → (t = false → str_len (r_sent w') ≤ lim) →
    (lim < str_len (r_sent w') → t = true) → (str_len (r_sent w') < lim → t = false) →
    copies lim (Recorder (rec_w r1) (status r1) (written r1) lim b t (rec_sink r1) (sinkErr r1)) w') as Hfin.
  { intros b t H1 H2 H3 H4. split; cbn [rec_w status written limit buf truncated]; try done. lia. }
  destruct (decide (lim - str_len (buf r) ≤ 0)) as [Hr|Hr];
    [rewrite (bool_decide_true (lim - _ ≤ 0)) by done|rewrite (bool_decide_false (lim - _ ≤ 0)) by done;
     destruct (decide (lim - str_len (buf r) < str_len p)) as [Hr2|Hr2];
     [rewrite (bool_decide_true (lim - _ < _)) by done|rewrite (bool_decide_false (lim - _ < _)) by done]];
    apply Hfin; rewrite ?Hlen', ?Esent; unfold str_len in *; try done; try lia.
  - by rewrite take_str_app_le by lia.
  - rewrite take_str_app_ge by lia. rewrite Hb. rewrite (take_str_ge _ (r_sent w)) by lia. f_equal. f_equal.
    rewrite Hb in Hlen. lia.
  - rewrite Hb, (take_str_ge _ (r_sent w)) by lia. rewrite take_str_ge; [done|]. rewrite app_len. lia.
  - intros Hgt. apply Hwh. lia.
Qed.

Lemma copies_body lim r w p : copies lim r w →
  copies lim (WriteBody p r).1 (WriteBody p w).1 ∧ (WriteBody p r).2 = (WriteBody p w).2 ∧
  status (WriteBody p r).1 = (if bool_decide (status r = 0) then 200 else status r) ∧
  r_status (WriteBody p w).1 = Some (default 200 (r_status w)).
Proof using Hconn.
  intros Hc. cbn [WriteBody recorder_writer server_writer]. destruct (send_sent None p w) as (n & En & Hn & Esent & Est).
  unfold rec_Write. rewrite (cp_w _ _ _ Hc). cbn [WriteBody server_writer].
  destruct (send None p w) as [w' [m e]] eqn:E. cbn [fst snd] in *. subst m. set (p' := take_str (Z.to_nat n) p) in *.
  assert (str_len p' = n) as Hp' by (unfold p', str_len in *; rewrite take_str_len; lia).
  match goal with |- context [capture p' (tee p' ?r0)] => set (r1 := r0); destruct (tee_frame p' r1) as (E1 & E2 & E3 & E4 & E5 & E6) end.
  split_and!; [|done| |done].
  - apply copies_capture with r w; try done; [by rewrite E3; cbn [r1 written]; rewrite Hp'].
  - assert (status (capture p' (tee p' r1)) = status (tee p' r1)) as -> by (unfold capture; by repeat case_match).
    by rewrite E2.
Qed.

Lemma mirrors_body lim r w p : mirrors lim r w →
  mirrors lim (WriteBody p r).1 (WriteBody p w).1 ∧ (WriteBody p r).2 = (WriteBody p w).2.
Proof using Hconn.
  intros [Hc Hs Hk]. destruct (copies_body lim r w p Hc) as (H1 & H2 & H3 & H4). split; [|done].
  split; [done| |]; rewrite ?H3, H4, ?Hs; destruct (r_status w) as [c|]; cbn [default from_option id]; try done.
  rewrite bool_decide_false; congruence.
Qed.

Lemma mirrors_perform lim ops r w : Forall proper ops → mirrors lim r w →
  mirrors lim (perform ops r).1 (perform ops w).1 ∧ (perform ops r).2 = (perform ops w).2.
Proof using All.
  revert r w. induction ops as [|o ops IH]; intros r w Hp Hm; [done|]. apply Forall_cons in Hp as [Ho Hp].
  destruct o as [k v|code|p|]; cbn [perform]; [| | |done].
  - apply IH; [done|]. destruct Hm as [[Hrw Hw Hl Hb Hkp Hct Hwh] Hs Hk]. cbn. unfold set_header.
    destruct (r_status w) eqn:E; (split; [split|..]); cbn; rewrite ?Hrw, ?E; unfold set_header; rewrite ?E; done.
  - apply IH; [done|]. by apply mirrors_status.
  - destruct (mirrors_body lim r w p Hm) as [Hm' E].
    destruct (WriteBody p r) as [r' [n e]], (WriteBody p w) as [w' [n' e']]. cbn [fst snd] in *. simplify_eq.
    destruct e'; [done|]. by apply IH.
Qed.

Lemma fresh_mirrors lim (sink : option S) : mirrors lim (Recorder blank 0 0 lim EmptyString false sink None) blank.
Proof using Type.
  split; [split|..]; try done; cbn [buf truncated r_sent blank]; unfold str_len; simpl; try lia.
  intros _. by destruct (Z.to_nat lim).
Qed.

(** Without a sink or with one, the forward leaves the client what it would have got. *)
Lemma forwarded backend ops gone served lim (sink : option S) : Forall proper ops →
  mirrors lim (forward backend ops gone served blank lim sink).2 (perform ops blank).1 ∧
  (is_Some (forward backend ops gone served blank lim sink).1 ↔ (perform ops blank).2 = true ∨ served = false).
Proof using All.
  intros Hp. unfold forward. destruct (mirrors_perform lim ops _ blank Hp (fresh_mirrors lim sink)) as [Hm E].
  destruct (perform ops (Recorder _ _ _ _ _ _ _ _)) as [r c]. cbn [fst snd] in *. rewrite <-E.
  destruct c, served; cbn [negb andb]; (split; [exact Hm|]); split; intros Hx; try done; auto; by destruct Hx.
Qed.

Lemma copies_perform lim ops r w : copies lim r w →
  copies lim (perform ops r).1 (perform (once (bool_decide (status r ≠ 0)) ops) w).1 ∧
  (perform ops r).2 = (perform (once (bool_decide (status r ≠ 0)) ops) w).2.
Proof using Hconn.
  revert r w. induction ops as [|o ops IH]; intros r w Hc; [done|].
  destruct o as [k v|code|p|]; cbn [perform once]; [| | |done].
  - change (status r) with (status (Header_Set k v r)). apply IH. destruct Hc as [Hrw Hw Hl Hb Hkp Hct Hwh]. cbn. unfold set_header.
    destruct (r_status w) eqn:E; split; cbn; rewrite ?Hrw; unfold set_header; rewrite ?E; done.
  - change (WriteHeader code r) with (rec_WriteHeader code r). unfold rec_WriteHeader.
    destruct (decide (status r = 0)) as [E|E].
    + rewrite (bool_decide_true (status r = 0)), (bool_decide_false (status r ≠ 0)) by tauto. cbn [perform].
      match goal with |- context [perform ops ?r0] => apply (IH r0) end.
      destruct Hc as [Hrw Hw Hl Hb Hkp Hct Hwh].
      assert (r_sent (WriteHeader code w) = r_sent w) as Es by (cbn; unfold set_status; by repeat case_match).
      by split; cbn [rec_w written limit buf truncated]; rewrite ?Es, ?Hrw.
    + rewrite (bool_decide_false (status r = 0)), (bool_decide_true (status r ≠ 0)) by tauto.
      specialize (IH r w Hc). by rewrite bool_decide_true in IH by done.
  - destruct (copies_body lim r w p Hc) as (Hc' & E & Es & _).
    destruct (WriteBody p r) as [r' [n e]], (WriteBody p w) as [w' [n' e']]. cbn [fst snd] in *. simplify_eq.
    destruct e'; [done|]. specialize (IH r' w' Hc'). rewrite (bool_decide_true (status r' ≠ 0)) in IH; [done|].
    rewrite Es. case_bool_decide; lia.
Qed.

(** C30. The recorder is transparent but for one thing.  Whatever Synapse answers, however
    it breaks off, whether the comparison keeps a copy or its sink fails, the client gets
    exactly what it would get without the recorder if every status after the first (or
    after the body has begun) had been left out of the answer; so if no response in it is
    informational, exactly what it would get without the recorder.  If all of it could be
    copied there is a result, whose byte count is the client's, whose captured body is its
    first [captureLimit] bytes, and all of them unless marked truncated, and whose status,
    if no response is informational, is the client's.  If not, the connection is
    aborted. *)
Theorem proxy_transparent backend ops gone captureLimit (sink : option S) :
  let '(out, copied) := perform (once false ops) blank in
  let '(o, r) := forward backend ops gone true blank captureLimit sink in
  rec_w r = out ∧
  (Forall proper ops → perform ops blank = (out, copied)) ∧
  match o with
  | None => copied = false
  | Some res => copied = true ∧ Bytes_ res = str_len (r_sent out) ∧
      (Forall proper ops → Status_ res = default 0 (r_status out)) ∧
      (0 < captureLimit →
         Body_ res = take_str (Z.to_nat captureLimit) (r_sent out) ∧
         (Truncated res = false → Body_ res = r_sent out) ∧
         (captureLimit < str_len (r_sent out) → Truncated res = true) ∧
         (str_len (r_sent out) < captureLimit → Truncated res = false))
  end.
Proof using All.
  unfold forward. pose proof (λ Hp, mirrors_perform captureLimit ops _ blank Hp (fresh_mirrors captureLimit sink)) as Hm.
  destruct (copies_perform captureLimit ops _ blank (mi_copies _ _ _ (fresh_mirrors captureLimit sink)))
    as [[Hrw Hw Hl Hb Hkp Hct Hwh] Ec].
  cbn [status] in *. rewrite (bool_decide_false (0 ≠ 0)) in * by tauto.
  destruct (perform (once false ops) blank) as [out copied], (perform ops (Recorder _ _ _ _ _ _ _ _)) as [r c].
  cbn [fst snd] in *. subst c.
  assert (Forall proper ops → perform ops blank = (out, copied) ∧ status r = default 0 (r_status out)) as Hprop.
  { intros Hp. destruct (Hm Hp) as [Hm1 Hm2]. destruct (perform ops blank) as [w c]. cbn [fst snd] in *. subst c.
    assert (w = out) as -> by (by rewrite <-(mi_w _ _ _ Hm1)). split; [done|apply Hm1]. }
  destruct copied; cbn [negb andb]; (split; [done|]); (split; [apply Hprop|]); [|done].
  cbn [Status_ Bytes_ Body_ Truncated]. split_and!; [done..|apply Hprop|]. intros Hlim. rewrite bool_decide_true by done.
  specialize (Hb Hlim). split_and!; [done| |auto|auto]. intros Ht. rewrite Hb. apply take_str_ge.
  specialize (Hkp Hlim Ht). unfold str_len in Hkp. lia.
Qed.
End transparent.

(** An informational response loses the status that follows it: the recorder
    takes the first status for the final one, so after a 103 a 404 is swallowed and
    the client is told 200. *)
Theorem informational_swallows_status `{!Connection} :
  let ops := [Status 103; Status 404] in
  let r : recorder response string := (Forward "b" ops false true blank 0).2 in
  r_status (rec_w r) = None ∧ r_status (perform ops blank).1 = Some 404 ∧ status r = 103 ∧
  ∀ p, r_status (rec_w (Forward (S := string) "b" (ops ++ [Body p]) false true blank 0).2) = Some 200.
Proof.
  cbv zeta. split_and!; [done..|]. intros p.
  unfold Forward, forward. cbn [app perform snd WriteHeader recorder_writer rec_WriteHeader status].
  cbn. unfold rec_Write. cbn. unfold send. cbn. destruct (accept _ _ _) as [n [e|]]; done.
Qed.

(** ** Round robin *)
Fixpoint picks (n : nat) (p : Proxy) : list (option backend) * Proxy :=
  match n with
  | O => ([], p)
  | S n => let '(b, p) := pick p in let '(bs, p) := picks n p in (b :: bs, p)
  end.

Lemma picks_spec n p :
  0 ≤ next p → next p + Z.of_nat n < 2 ^ 64 → (length (backends p) ≠ 1)%nat →
  picks n p = ((λ k, backends p !! Z.to_nat ((next p + Z.of_nat k) `mod` Z.of_nat (length (backends p)))) <$> seq 0 n,
               MkProxy (backends p) (next p + Z.of_nat n)).
Proof.
  revert p. induction n as [|n IH]; intros [bs k] Hk Hn Hl; cbn [backends next] in *; [by rewrite Z.add_0_r|].
  cbn [picks]. unfold pick. cbn [backends next]. rewrite bool_decide_false by done.
  assert (u64 (k + 1) = k + 1) as -> by (apply Z.mod_small; lia).
  assert (u64 (k + 1 - 1) = k) as -> by (unfold u64; rewrite Z.mod_small; lia).
  rewrite IH; cbn [backends next]; [|lia..]. cbn [seq fmap list_fmap]. rewrite Z.add_0_r. f_equal; [f_equal|f_equal; lia].
  rewrite <-seq_shift, <-list_fmap_compose. apply list_fmap_ext. intros _ m _. cbn. do 3 f_equal. lia.
Qed.

(** Before the counter wraps, any run of as many requests as there are backends
    goes to each backend once. *)
Theorem round_robin_even p :
  0 ≤ next p → next p + Z.of_nat (length (backends p)) < 2 ^ 64 →
  (picks (length (backends p)) p).1 ≡ₚ Some <$> backends p.
Proof.
  intros Hk Hn. destruct (decide (length (backends p) = 1%nat)) as [E|E].
  { rewrite E. cbn [picks]. unfold pick. rewrite bool_decide_true by done. destruct p as [[|b [|? ?]] k]; done. }
  rewrite picks_spec by done. cbn [fst]. set (bs := backends p) in *. set (k := next p) in *.
  destruct bs as [|b0 bs'] eqn:Eb; [done|]. rewrite <-Eb in *. set (m := length bs) in *.
  assert (0 < Z.of_nat m) as Hm by (unfold m; rewrite Eb; simpl; lia).
  transitivity ((λ i, bs !! i) <$> ((λ j, Z.to_nat ((k + Z.of_nat j) `mod` Z.of_nat m)) <$> seq 0 m)).
  { by rewrite <-list_fmap_compose. }
  transitivity ((λ i, bs !! i) <$> seq 0 m).
  - apply fmap_Permutation. symmetry. apply submseteq_length_Permutation; [|by rewrite length_fmap].
    apply NoDup_submseteq; [apply NoDup_seq|]. intros x [_ Hx]%elem_of_seq. apply list_elem_of_fmap.
    exists (Z.to_nat ((Z.of_nat x - k) `mod` Z.of_nat m)).
    pose proof (Z.mod_pos_bound (Z.of_nat x - k) (Z.of_nat m) Hm). split; [|apply elem_of_seq; lia].
    rewrite Z2Nat.id by lia. rewrite Zplus_mod_idemp_r, Z.add_sub_assoc.
    replace (k + Z.of_nat x - k) with (Z.of_nat x) by lia. rewrite Z.mod_small by lia. lia.
  - clear. unfold m. clear m. induction bs as [|b bs IH]; [done|]. cbn [length seq fmap list_fmap lookup list_lookup].
    rewrite <-seq_shift, <-list_fmap_compose. by apply Permutation_cons, IH.
Qed.

(** A connection that takes everything, and one that breaks. *)
Definition open_connection : Connection := λ _ _ p, (str_len p, None).
Lemma open_lawful : LawfulConnection (H := open_connection).
Proof. split; unfold accept, open_connection; [intros ? ? ?; unfold str_len; simpl; lia|by intros ? ? ? ? [= ->]]. Qed.
Definition sink_down : Writer string := λ w p, (w, (0, Some (ErrText "sink closed"))).

Lemma proxy_transparent_witness :
  let '(o, r) := @forward response (@server_writer open_connection) string sink_down "b" [Status 404; Body "abc"; Body "de"] false true blank 4
                     (Some EmptyString) in
  r_status (rec_w r) = Some 404 ∧ r_sent (rec_w r) = "abcde"%string ∧
  ∃ res, o = Some res ∧ Status_ res = 404 ∧ Body_ res = "abcd"%string ∧ Truncated res = true.
Proof.
  pose proof (@proxy_transparent open_connection open_lawful string sink_down "b" [Status 404; Body "abc"; Body "de"]
    false 4 (Some EmptyString)) as Hp.
  assert (@perform response (@server_writer open_connection) (once false [Status 404; Body "abc"; Body "de"]) blank =
    (Resp ∅ [] (Some 404) "abcde"%string, true)) as E by (vm_compute; reflexivity). rewrite E in Hp. clear E.
  destruct (@forward _ _ _ _ _ _ _ _ _ _ _) as [o r].
  destruct Hp as (H1 & _ & H2). rewrite H1. split; [reflexivity|]. split; [reflexivity|].
  destruct o as [res|]; [|discriminate H2]. exists res. split; [reflexivity|]. destruct H2 as (_ & _ & H3 & H4).
  destruct H4 as (Hb & _ & Ht & _); [lia|]. split; [apply H3; repeat constructor; simpl; lia|]. split; [exact Hb|].
  apply Ht. vm_compute. reflexivity.
Defined.
