(* ===== verification/Serve.v ===== *)
(** * [internal/fedapi]: serving a request

    [Handler.ServeHTTP] and what it calls: the native attempt ([canary.go]), the
    streamed answer with its lazy response and idle deadline ([stream.go]), the
    429 ([ratelimit.go]) and the fallback to the proxy.  What happens around the
    handler is its environment: the outcome of the rate limiter, the state of the
    request's context, panics, and Synapse's answer. *)
From S2P Require Import Prelude RateLimit Json JsonStream Store External Events Pducmp Wire Digest Resolver StateStream Config Route Native Http Proxy.

Open Scope Z_scope.

(** ** [lazyResponse] *)
Section lazy_response.
Context `{!Connection}.
Variable clock : nat → Z.         (* the n-th reading *)
Variable settable : bool.         (* [SetWriteDeadline] is supported *)

Record lazyResponse := Lazy {
  l_w : response; l_idle : Z; l_noDeadline : bool;
  l_refreshAt : option Z;         (* [None] is the zero time *)
  l_deadline : option Z;          (* the connection's *)
  l_readings : nat; l_written : bool; l_bytes : Z }.

Definition new_lazy (w : response) (idle : Z) : lazyResponse := Lazy w idle false None None 0 false 0.

Definition refreshDeadline (l : lazyResponse) : lazyResponse :=
  if bool_decide (l_idle l ≤ 0) || l_noDeadline l then l else
  let now := clock (l_readings l) in
  if from_option (λ t, bool_decide (now < t)) false (l_refreshAt l) then
    Lazy (l_w l) (l_idle l) (l_noDeadline l) (l_refreshAt l) (l_deadline l) (S (l_readings l)) (l_written l) (l_bytes l)
  else if negb settable then
    Lazy (l_w l) (l_idle l) true (l_refreshAt l) (l_deadline l) (S (l_readings l)) (l_written l) (l_bytes l)
  else
    Lazy (l_w l) (l_idle l) false (Some (now + l_idle l `quot` 4)) (Some (now + l_idle l)) (S (l_readings l))
      (l_written l) (l_bytes l).

Definition clearDeadline (l : lazyResponse) : lazyResponse :=
  if l_noDeadline l then l else
  Lazy (l_w l) (l_idle l) (l_noDeadline l) (l_refreshAt l) None (l_readings l) (l_written l) (l_bytes l).

Definition commit (l : lazyResponse) : lazyResponse :=
  if l_written l then l else
  Lazy (WriteHeader 200 (Header_Set "Content-Type" "application/json" (l_w l))) (l_idle l) (l_noDeadline l)
    (l_refreshAt l) (l_deadline l) (l_readings l) true (l_bytes l).

Definition lazy_Write (l : lazyResponse) (p : string) : lazyResponse * (Z * option error) :=
  let l := refreshDeadline (commit l) in
  let '(w, (n, e)) := send (l_deadline l) p (l_w l) in
  (Lazy w (l_idle l) (l_noDeadline l) (l_refreshAt l) (l_deadline l) (l_readings l) (l_written l) (l_bytes l + n), (n, e)).
#[export] Instance lazy_writer : Writer lazyResponse := lazy_Write.
End lazy_response.

(** ** The handler *)
Inductive ctx_error := DeadlineExceeded | CtxCanceled.
#[export] Instance ctx_error_eq_dec : EqDecision ctx_error.
Proof. solve_decision. Defined.

Record hrequest := MkHReq {
  q_Path : string; q_EscapedPath : string; q_Authorization : string;
  q_event_id : string;                     (* the query parameter *)
  q_body : option (string * bool) }.       (* what the client sends, and whether reading it fails at its end *)

Record Handler := MkHandler {
  h_serverName : string; h_modes : list (string * Mode); h_settings : Federation.FederationSettings;
  h_captureLimit : Z; h_shadowing : bool;  (* there is a comparator *)
  h_resolver : option NativeResolver; h_Verify : hrequest → option string;
  h_nativeTimeout : Z; h_streamTimeout : Z; h_streamIdleTimeout : Z; h_verifyTimeout : Z }.

(** [Option]s, in seconds. *)
Inductive Option :=
| WithStreamTimeout (d : Z)
| WithStreamIdleTimeout (d : Z)
| WithNative (r : NativeResolver) (verify : hrequest → option string) (timeout verifyTimeout : Z).

Definition positive (d old : Z) : Z := if bool_decide (0 < d) then d else old.
Definition apply_option (h : Handler) (o : Option) : Handler :=
  match o with
  | WithStreamTimeout d =>
      MkHandler (h_serverName h) (h_modes h) (h_settings h) (h_captureLimit h) (h_shadowing h) (h_resolver h) (h_Verify h)
        (h_nativeTimeout h) (positive d (h_streamTimeout h)) (h_streamIdleTimeout h) (h_verifyTimeout h)
  | WithStreamIdleTimeout d =>
      MkHandler (h_serverName h) (h_modes h) (h_settings h) (h_captureLimit h) (h_shadowing h) (h_resolver h) (h_Verify h)
        (h_nativeTimeout h) (h_streamTimeout h) (positive d (h_streamIdleTimeout h)) (h_verifyTimeout h)
  | WithNative r v timeout verifyTimeout =>
      MkHandler (h_serverName h) (h_modes h) (h_settings h) (h_captureLimit h) (h_shadowing h) (Some r) v
        (positive timeout (h_nativeTimeout h)) (h_streamTimeout h) (h_streamIdleTimeout h)
        (positive verifyTimeout (h_verifyTimeout h))
  end.

Definition NewHandler (cfg : Config) (shadowing : bool) (opts : list Option) : Handler :=
  let limit := i64 (Z.shiftl (CaptureMB (shadow cfg)) 20) in
  let limit := if bool_decide (limit ≤ 0) then Z.shiftl 32 20 else limit in
  foldl apply_option
    (MkHandler (ServerName cfg) (ByName (endpoints cfg)) (Federation.withDefaults (rc_federation cfg)) limit shadowing
       None (λ _, None) 5 900 60 30) opts.

(** What [nativeResult] says, but for times and the cache trace; [nr_Compared] is
    whether a comparison of the served answer was started. *)
Record nativeResult := NR {
  nr_Served : bool; nr_Reason : string; nr_Status : Z; nr_Bytes : Z; nr_RoomID : string; nr_Meta : Meta;
  nr_StateResult : option StateResult; nr_Compared : bool }.
Definition not_served (reason : string) : nativeResult := NR false reason 0 0 EmptyString no_meta None false.

(** A call that returns, or panics with [http.ErrAbortHandler]. *)
Inductive ending := Returned (n : nativeResult) | AbortHandler (reason : string).

(** Where the handler leaves its slot of the rate limiter. *)
Inductive slot := NoSlot | Freed | Kept.
Inductive acquisition := Acquired | LimitExceeded | CtxDone.

Inductive fate :=
| Refused                      (* answered without asking anyone *)
| Answered (n : nativeResult)
| ClientGone
| Proxied (res : Result) (shadowed : bool)
| CutOff                       (* Synapse's answer, which could not all be copied *)
| Aborted (reason : string).
Record handled := Handled { h_resp : response; h_fate : fate; h_slot : slot }.

(** The environment of one request. *)
Record environment := Env {
  e_acquire : string → acquisition;     (* [limiter.Acquire], of the claimed origin *)
  e_panics : bool;                      (* the native answer panics *)
  e_ctx : option ctx_error;             (* the attempt's context, when it failed *)
  e_gone : bool;                        (* the request's context, before forwarding *)
  e_gone_after : bool;                  (* ... and after *)
  e_backend : string; e_upstream : list rw_op }.

(** ** Native answers *)
Section serve.
Context `{!Connection}.
Variable clock : nat → Z.
Variable settable : bool.
Variable is_deadline : error → bool.       (* [errors.Is(err, os.ErrDeadlineExceeded)] *)
Variable gjson_room : string → string.     (* [pdus.0.room_id] *)
Variable ParseXMatrixAuth : string → string.

Definition reason_of (ctx : option ctx_error) : string :=
  match ctx with Some DeadlineExceeded => "timeout" | Some CtxCanceled => "client_gone" | None => "error" end.

Definition classifyCommitted (ctx : option ctx_error) (e : error) : string :=
  if is_deadline e then "stream_stalled"
  else match ctx with
       | Some CtxCanceled => "client_gone" | Some DeadlineExceeded => "timeout" | None => "stream_aborted"
       end.

Definition serveStreamed {rs : NativeResolver} (h : Handler) (env : environment) (w : response)
    (origin roomID eventID : string) : R (response * ending) :=
  p ← rs_State (Writer0 := lazy_writer clock settable) (new_lazy w (h_streamIdleTimeout h)) origin roomID eventID;
  let '(res, k, err) := (p : outcome lazyResponse) in
  let out := s_w k in
  match err with
  | Some e =>
      if l_written out then mret (l_w out, AbortHandler (classifyCommitted (e_ctx env) e))
      else match as_matrix e with
           | Some (status, code, msg) =>
               let '(body, status) := Response status code msg in
               mret (respond json_type status body (l_w out),
                     Returned (NR true EmptyString status (str_len body) EmptyString no_meta None false))
           | None => mret (l_w out, Returned (not_served (reason_of (e_ctx env))))
           end
  | None =>
      mret (l_w (clearDeadline out),
            Returned (NR true EmptyString 200 (Bytes res) EmptyString no_meta (Some res) false))
  end.

(** [answer]: a panic is an error. *)
Definition answer_ {rs : NativeResolver} (h : Handler) (env : environment) (rq : Native.Request) : R (result error answer) :=
  if e_panics env then mret (Err (ErrText "native answer panicked"))
  else rtry (Answer (h_serverName h) rq).

Definition serveNative (h : Handler) (env : environment) (rq : hrequest) (mode : Mode) (endpoint : Endpoint)
    (roomID eventID reqBody : string) (w : response) : R (response * ending) :=
  match h_resolver h with
  | None => mret (w, Returned (not_served "no_resolver"))
  | Some rs =>
      match h_Verify h rq with
      | None => mret (w, Returned (not_served "auth_rejected"))
      | Some origin =>
          if Streams endpoint then
            p ← serveStreamed (rs := rs) h env w origin roomID eventID;
            let '(w, e) := (p : response * ending) in
            match e with
            | AbortHandler _ => mret (w, e)
            | Returned n =>
                let compared := nr_Served n && bool_decide (Kind mode = ModeCanary)
                                && bool_decide (is_Some (nr_StateResult n)) && h_shadowing h in
                mret (w, Returned (NR (nr_Served n) (nr_Reason n) (nr_Status n) (nr_Bytes n) roomID (nr_Meta n)
                                     (nr_StateResult n) compared))
            end
          else
            a ← answer_ (rs := rs) h env (MkRequest (endpoint_name endpoint) origin roomID eventID reqBody);
            match a with
            | Err _ => mret (w, Returned (not_served (reason_of (e_ctx env))))
            | Ok (body, status, meta) =>
                mret (respond json_type status body w,
                      Returned (NR true EmptyString status (str_len body) (answeredRoom (gjson_room body) roomID status)
                                  meta None (bool_decide (Kind mode = ModeCanary) && h_shadowing h)))
            end
      end
  end.

(** ** [writeLimitExceeded] *)
Definition writeLimitExceeded (s : Federation.FederationSettings) : response → response :=
  respond [("Retry-After", print_int (Federation.retry_after_seconds s)); ("Content-Type", "application/json")]%string 429
    ("{" +:+ encode_string "errcode" +:+ ":" +:+ encode_string "M_LIMIT_EXCEEDED" +:+ "," +:+
             encode_string "error" +:+ ":" +:+ encode_string "Too Many Requests" +:+ "," +:+
             encode_string "retry_after_ms" +:+ ":" +:+ print_int (Federation.RetryAfterMS s) +:+ "}" +:+ newline).

(** ** The request's body *)
Definition maxRequestBody : Z := Z.shiftl 1 20.

(** Reading at most [maxRequestBody + 1] bytes; [Err] is the status of the refusal. *)
Definition read_body (e : Endpoint) (body : option (string * bool)) : result Z string :=
  match (if HasRequestBody e then body else None) with
  | None => Ok EmptyString
  | Some (data, fails) =>
      if bool_decide (str_len data ≤ maxRequestBody) then (if fails then Err 400 else Ok data)
      else Err 413
  end.

(** ** [ServeHTTP] *)

(** After the native attempt, if any: the proxy. *)
Definition fall_back (h : Handler) (env : environment) (mode : Mode) (endpoint : Endpoint) (s : slot) (w : response) : handled :=
  if e_gone env then Handled w ClientGone s else
  let shadowing := (bool_decide (Kind mode = ModeShadow) || bool_decide (Kind mode = ModeCanary)) && h_shadowing h in
  let '(res, rec) :=
    if shadowing && bool_decide (endpoint = EndpointState) then
      ForwardStreaming (e_backend env) (e_upstream env) (e_gone_after env) true w EmptyString
    else Forward (e_backend env) (e_upstream env) (e_gone_after env) true w (if shadowing then h_captureLimit h else 0) in
  match res with
  | None => Handled (rec_w rec) CutOff s
  | Some res => Handled (rec_w rec) (Proxied res (shadowing && negb (Canceled res) && negb (Err_ res))) s
  end.

Definition ServeHTTP (h : Handler) (env : environment) (rq : hrequest) : R handled :=
  let w := blank in
  if bool_decide (q_Path rq = "/health"%string) then mret (Handled (respond [] 200 "OK" w) Refused NoSlot) else
  match Match (q_EscapedPath rq) with
  | None => mret (Handled (http_NotFound w) Refused NoSlot)
  | Some route =>
      let endpoint := Endpoint_ route in
      let mode := modeFor (h_modes h) endpoint in
      let origin := originFromAuth ParseXMatrixAuth (q_Authorization rq) in
      let roomID := roomIDFor route in
      let eventID := eventIDFor route (q_event_id rq) in
      match read_body endpoint (q_body rq) with
      | Err code =>
          mret (Handled (http_Error (if bool_decide (code = 400)
                                     then js "{'errcode':'M_NOT_JSON','error':'Could not read request body.'}"
                                     else js "{'errcode':'M_TOO_LARGE','error':'Request body too large.'}") code w)
                  Refused NoSlot)
      | Ok reqBody =>
          if sampled mode (samplingKey route eventID reqBody) then
            match e_acquire env origin with
            | LimitExceeded => mret (Handled (writeLimitExceeded (h_settings h) w) Refused NoSlot)
            | CtxDone => mret (Handled w ClientGone NoSlot)
            | Acquired =>
                p ← serveNative h env rq mode endpoint roomID eventID reqBody w;
                let '(w, e) := (p : response * ending) in
                match e with
                | AbortHandler reason => mret (Handled w (Aborted reason) Kept)
                | Returned n =>
                    if nr_Served n then mret (Handled w (Answered n) Freed)
                    else mret (fall_back h env mode endpoint Freed w)
                end
            end
          else mret (fall_back h env mode endpoint NoSlot w)
      end
  end.
End serve.

(** ** The lazy response *)
Section lazy_lemmas.
Context {conn : Connection} {Hconn : LawfulConnection}.
Variable clock : nat → Z.
Variable settable : bool.
#[local] Hint Extern 0 (Writer lazyResponse) => exact (lazy_writer clock settable) : typeclass_instances.

#[export] Instance lazy_lawful : LawfulWriter (Writer0 := lazy_writer clock settable) lazyResponse.
Proof using Hconn.
  refine {| taken l := r_sent (l_w l) |}. intros l p l' n. unfold write, lazy_writer, lazy_Write.
  assert (r_sent (l_w (refreshDeadline clock settable (commit l))) = r_sent (l_w l)) as Hr.
  { assert (r_sent (l_w (commit l)) = r_sent (l_w l)) as <-.
    { unfold commit. destruct (l_written l); [done|]. cbn. unfold set_status, set_header.
      by destruct (r_status (l_w l)) eqn:E; cbn; rewrite ?E. }
    unfold refreshDeadline. by repeat case_match. }
  destruct (send _ _ _) as [w [m [e|]]] eqn:E; [done|]. intros [= <- <-]. apply send_all in E as [-> E].
  by rewrite Hr in E.
Defined.

(** Nothing has happened to the response until it is committed to a 200. *)
Definition committed_or (w0 : response) (l : lazyResponse) : Prop :=
  if l_written l then r_status (l_w l) = Some 200 ∧ r_header (l_w l) !! "Content-Type"%string = Some "application/json"%string
  else l_w l = w0.

Lemma refresh_frame l : l_w (refreshDeadline clock settable l) = l_w l ∧ l_written (refreshDeadline clock settable l) = l_written l.
Proof using Type. unfold refreshDeadline. by repeat case_match. Qed.

Lemma send_status dl p w : r_status w ≠ None →
  r_status (send dl p w).1 = r_status w ∧ r_header (send dl p w).1 = r_header w.
Proof using Type.
  intros Hs. unfold send. assert (set_status 200 w = w) as -> by (unfold set_status; by destruct (r_status w)).
  destruct (negb _); [done|]. by destruct (accept dl (r_sent w) p).
Qed.

Lemma lazy_commits w0 l p : r_status w0 = None → committed_or w0 l → committed_or w0 (write l p).1.
Proof using Type.
  intros Hw Hl. unfold write, lazy_writer, lazy_Write.
  assert (l_written (commit l) = true ∧ r_status (l_w (commit l)) = Some 200 ∧
    r_header (l_w (commit l)) !! "Content-Type"%string = Some "application/json"%string) as (H1 & H2 & H3).
  { unfold committed_or in Hl. unfold commit. destruct (l_written l) eqn:E; [by rewrite E|]. subst w0.
    cbn [l_written l_w WriteHeader Header_Set server_writer]. unfold set_status, set_header. rewrite Hw.
    change (informational 200) with false. cbn [r_status r_header]. rewrite lookup_insert_eq. done. }
  destruct (refresh_frame (commit l)) as [Ew Ewr]. set (l' := refreshDeadline clock settable (commit l)) in *.
  rewrite <-Ew in H2, H3. pose proof (send_status (l_deadline l') p (l_w l')) as Hs.
  destruct (send (l_deadline l') p (l_w l')) as [w [n e]].
  unfold committed_or. cbn [fst l_written l_w]. rewrite Ewr, H1. cbn [fst] in Hs.
  destruct Hs as [-> ->]; [by rewrite H2|done].
Qed.
End lazy_lemmas.

(** ** How a request ends *)
Section served.
Context `{!External} {conn : Connection} {Hconn : LawfulConnection}.
Variable clock : nat → Z.
Variable settable : bool.
Variable is_deadline : error → bool.
Variable gjson_room : string → string.
Variable ParseXMatrixAuth : string → string.
Variable other : option flight_outcome.
Variable now : Z.
#[local] Hint Extern 0 (Writer lazyResponse) => exact (lazy_writer clock settable) : typeclass_instances.
Notation resolver := (matrixstate_resolver other now).
Notation native_stream := (serveStreamed (rs := resolver) clock settable is_deadline).
Notation ServeHTTP := (ServeHTTP clock settable is_deadline gjson_room ParseXMatrixAuth).

(** The streamed attempt: what is left of the response. *)
Lemma streamed_ends h env w0 origin roomID eventID st : r_status w0 = None →
  ∃ w e st', native_stream h env w0 origin roomID eventID st = (Ok (w, e), st') ∧
    match e with
    | AbortHandler _ => r_status w = Some 200
    | Returned n =>
        (nr_Served n = false → w = w0) ∧ nr_Compared n = false ∧
        match nr_StateResult n with
        | Some res => nr_Status n = 200 ∧ ∃ k, w = l_w (s_w k) ∧ Bytes res = nr_Bytes n ∧
            StateStream.State (new_lazy w0 (h_streamIdleTimeout h)) origin roomID eventID st = (Ok (res, k, None), st')
        | None => nr_Served n = true → ∃ err status code msg,
            as_matrix err = Some (status, code, msg) ∧ nr_Status n = status ∧
            w = respond json_type status (Response status code msg).1 w0
        end
    end.
Proof using Type.
  intros Hw. unfold serveStreamed, mbind, R_bind. cbn [rs_State matrixstate_resolver].
  destruct (state_keeps (committed_or w0) (λ l p, lazy_commits clock settable w0 l p Hw)
    (new_lazy w0 (h_streamIdleTimeout h)) origin roomID eventID st eq_refl) as (res & k & e & st' & E & Hc).
  rewrite E. destruct e as [e|].
  - unfold committed_or in Hc. destruct (l_written (s_w k)).
    + eexists _, _, st'. split; [reflexivity|]. apply Hc.
    + rewrite Hc. destruct (as_matrix e) as [[[status code] msg]|] eqn:Ea; cbn [Response].
      * eexists _, _, st'. split; [reflexivity|]. cbn [nr_Served nr_Compared nr_StateResult nr_Status].
        split; [done|]. split; [done|]. intros _. by exists e, status, code, msg.
      * eexists _, _, st'. split; [reflexivity|]. done.
  - eexists _, _, st'. split; [reflexivity|]. cbn [nr_Served nr_Compared nr_StateResult nr_Status nr_Bytes].
    split; [done|]. split; [done|]. split; [done|]. exists k. split_and!; [|done|reflexivity].
    unfold clearDeadline. by destruct (l_noDeadline (s_w k)).
Qed.

(** What the client gets from Synapse, through the handler. *)
Definition passed_on (env : environment) (hd : handled) : Prop :=
  h_resp hd = (perform (e_upstream env) blank).1 ∧
  if (perform (e_upstream env) blank).2 then ∃ res sh, h_fate hd = Proxied res sh else h_fate hd = CutOff.

Lemma fall_back_ends h env mode e s : Forall proper (e_upstream env) →
  h_slot (fall_back h env mode e s blank) = s ∧
  ((e_gone env = true ∧ fall_back h env mode e s blank = Handled blank ClientGone s) ∨
   (e_gone env = false ∧ passed_on env (fall_back h env mode e s blank))).
Proof using Hconn.
  intros Hp. unfold fall_back. destruct (e_gone env); [split; [done|by left]|].
  assert (∀ (lim : Z) (sink : option string) (f : Result → bool),
    let hd := let '(res, r) := forward (e_backend env) (e_upstream env) (e_gone_after env) true blank lim sink in
      match res with None => Handled (rec_w r) CutOff s | Some res => Handled (rec_w r) (Proxied res (f res)) s end in
    h_slot hd = s ∧ passed_on env hd) as Hf.
  { intros lim sink f. unfold passed_on.
    destruct (forwarded (e_backend env) (e_upstream env) (e_gone_after env) true lim sink Hp) as [Hm Hr].
    destruct (forward _ _ _ _ _ _ _) as [res r]. cbn [fst snd] in *.
    destruct res as [res|], (perform (e_upstream env) blank).2; cbn [h_slot h_resp h_fate]; (split; [done|]); (split; [apply Hm|]).
    - by eexists _, _.
    - destruct Hr as [Hr _]. by destruct Hr.
    - destruct Hr as [_ Hr]. destruct Hr as [? ?]; [by left|done].
    - done. }
  destruct (_ && bool_decide (e = EndpointState)).
  - unfold ForwardStreaming. destruct (Hf 0 (Some EmptyString) (λ res, (bool_decide (Kind mode = ModeShadow) || bool_decide (Kind mode = ModeCanary)) && h_shadowing h
      && negb (Canceled res) && negb (Err_ res))) as [H1 H2]. split; [exact H1|right; split; [done|exact H2]].
  - unfold Forward. match goal with |- context [forward (S := string) _ _ _ _ _ ?l _] => destruct (Hf l None (λ res, (bool_decide (Kind mode = ModeShadow) || bool_decide (Kind mode = ModeCanary)) && h_shadowing h
      && negb (Canceled res) && negb (Err_ res))) as [H1 H2] end. split; [exact H1|right; split; [done|exact H2]].
Qed.

(** A request the handler may answer itself: for the route's question it is in the
    canary's share, it has a slot, and its signature was verified. *)
Record natively (h : Handler) (env : environment) (rq : hrequest) (route : Route) (body origin : string) : Prop := {
  na_path : q_Path rq ≠ "/health"%string;
  na_route : Match (q_EscapedPath rq) = Some route;
  na_body : read_body (Endpoint_ route) (q_body rq) = Ok body;
  na_sampled : sampled (modeFor (h_modes h) (Endpoint_ route))
                 (samplingKey route (eventIDFor route (q_event_id rq)) body) = true;
  na_slot : e_acquire env (originFromAuth ParseXMatrixAuth (q_Authorization rq)) = Acquired;
  na_verified : h_Verify h rq = Some origin }.

(** What [ServeHTTP] does with such a request. *)
Definition attempt_ends (h : Handler) (env : environment) (route : Route) (p : result error (response * ending) * rworld)
    : result error handled * rworld :=
  match p with
  | (Ok (w, AbortHandler reason), st) => (Ok (Handled w (Aborted reason) Kept), st)
  | (Ok (w, Returned n), st) =>
      (Ok (if nr_Served n then Handled w (Answered n) Freed
           else fall_back h env (modeFor (h_modes h) (Endpoint_ route)) (Endpoint_ route) Freed w), st)
  | (Err e, st) => (Err e, st)
  end.

Lemma serve_attempt h env rq route body origin st : natively h env rq route body origin →
  ServeHTTP h env rq st = attempt_ends h env route
    (serveNative clock settable is_deadline gjson_room h env rq (modeFor (h_modes h) (Endpoint_ route)) (Endpoint_ route)
       (roomIDFor route) (eventIDFor route (q_event_id rq)) body blank st).
Proof using Type.
  intros [Hp Hr Hb Hs Ha Hv]. unfold ServeHTTP. rewrite bool_decide_false by done. rewrite Hr. cbv zeta.
  rewrite Hb, Hs, Ha. unfold mbind at 1, R_bind at 1, attempt_ends.
  destruct (serveNative _ _ _ _ _ _ _ _ _ _ _ _ _ st) as [[[w [n|reason]]|e] st']; [|done|done].
  by destruct (nr_Served n).
Qed.

(** How a request may end. *)
Definition ends (h : Handler) (env : environment) (rq : hrequest) (st : rworld) (hd : handled) (st' : rworld) : Prop :=
  match h_fate hd with
  | Refused => st' = st ∧ h_slot hd = NoSlot
  | ClientGone => h_resp hd = blank ∧ h_slot hd ≠ Kept
  | Proxied _ _ | CutOff => passed_on env hd ∧ h_slot hd ≠ Kept
  | Answered _ => (∃ route body origin, natively h env rq route body origin) ∧ h_slot hd = Freed
  | Aborted _ => (∃ route body origin, natively h env rq route body origin ∧ Endpoint_ route = EndpointState) ∧
                 r_status (h_resp hd) = Some 200 ∧ h_slot hd = Kept
  end.

Lemma fall_back_ok h env rq mode e s st st' : s ≠ Kept → Forall proper (e_upstream env) →
  ends h env rq st (fall_back h env mode e s blank) st'.
Proof using Hconn.
  intros Hs Hup. unfold ends.
  destruct (fall_back_ends h env mode e s Hup) as (Hsl & [(_ & E)|(_ & Hp)]); [by rewrite E|].
  pose proof Hp as [_ Hf]. destruct (perform (e_upstream env) blank).2; [destruct Hf as (res & sh & Hf)|]; rewrite Hf, Hsl; done.
Qed.

Lemma native_ok h env rq route body origin st :
  h_resolver h = Some resolver → Forall proper (e_upstream env) → natively h env rq route body origin →
  ∃ hd st', ServeHTTP h env rq st = (Ok hd, st') ∧ ends h env rq st hd st'.
Proof using Hconn.
  intros Hrs Hup Hn. rewrite (serve_attempt h env rq route body origin st Hn).
  assert (∀ w n st', (nr_Served n = false → w = blank) → ∃ hd st0,
    attempt_ends h env route (Ok (w, Returned n), st') = (Ok hd, st0) ∧ ends h env rq st hd st0) as Hret.
  { intros w n st' Hw. cbn [attempt_ends]. destruct (nr_Served n); eexists _, _; (split; [reflexivity|]).
    - split; [by exists route, body, origin|done].
    - rewrite Hw by done. by apply fall_back_ok. }
  unfold serveNative. rewrite Hrs, (na_verified _ _ _ _ _ _ Hn). destruct (Streams (Endpoint_ route)) eqn:Est.
  - destruct (streamed_ends h env blank origin (roomIDFor route) (eventIDFor route (q_event_id rq)) st eq_refl)
      as (w & e & st' & E & Hm).
    unfold mbind, R_bind. rewrite E. destruct e as [n|reason].
    + cbn [mret R_ret]. apply Hret. cbn [nr_Served]. apply Hm.
    + eexists _, _. split; [reflexivity|]. split; [|done]. exists route, body, origin. split; [done|].
      by apply bool_decide_eq_true in Est.
  - unfold mbind, R_bind, answer_. destruct (e_panics env); [by apply Hret|]. unfold rtry.
    destruct (Answer _ _ st) as [[[[b status] meta]|e] st']; cbn [mret R_ret]; by apply Hret.
Qed.

(** C9. Every request ends in exactly one way, and the rate limiter's slot with it:
    refused before anyone is asked; answered natively, only in the canary's share,
    behind the limiter and for a verified signature; given to Synapse, whose answer
    reaches the client as if nothing had been tried, and is cut off where it cannot be
    copied to its end; dropped untouched when the
    client has gone; or, once a streamed answer has begun as a 200, cut off by
    aborting the connection. *)
Theorem every_request_ends h env rq st :
  h_resolver h = Some resolver → Forall proper (e_upstream env) →
  ∃ hd st', ServeHTTP h env rq st = (Ok hd, st') ∧ ends h env rq st hd st'.
Proof using Hconn.
  intros Hrs Hup.
  destruct (decide (q_Path rq = "/health"%string)) as [Hp|Hp].
  { unfold ServeHTTP. rewrite bool_decide_true by done. by eexists _, _. }
  destruct (Match (q_EscapedPath rq)) as [route|] eqn:Hr.
  2:{ unfold ServeHTTP. rewrite bool_decide_false by done. rewrite Hr. by eexists _, _. }
  destruct (read_body (Endpoint_ route) (q_body rq)) as [body|code] eqn:Hb.
  2:{ unfold ServeHTTP. rewrite bool_decide_false by done. rewrite Hr. cbv zeta. rewrite Hb. by eexists _, _. }
  destruct (sampled (modeFor (h_modes h) (Endpoint_ route)) (samplingKey route (eventIDFor route (q_event_id rq)) body)) eqn:Hs.
  2:{ unfold ServeHTTP. rewrite bool_decide_false by done. rewrite Hr. cbv zeta. rewrite Hb, Hs.
      eexists _, _. split; [reflexivity|by apply fall_back_ok]. }
  destruct (e_acquire env (originFromAuth ParseXMatrixAuth (q_Authorization rq))) eqn:Ha.
  2,3: unfold ServeHTTP; rewrite bool_decide_false by done; rewrite Hr; cbv zeta; rewrite Hb, Hs, Ha; by eexists _, _.
  destruct (h_Verify h rq) as [origin|] eqn:Hv; [by apply (native_ok h env rq route body origin)|].
  unfold ServeHTTP. rewrite bool_decide_false by done. rewrite Hr. cbv zeta. rewrite Hb, Hs, Ha.
  unfold serveNative. rewrite Hrs, Hv. eexists _, _. split; [reflexivity|by apply fall_back_ok].
Qed.

(** A buffered endpoint's native answer is served whole or not at all: the
    client gets exactly the status and body [Answer] computed for the verified
    origin, Matrix errors included; when it fails, or panics, the response is
    untouched and Synapse answers, or nobody if the client has gone. *)
Theorem native_answer_exact h env rq route body origin st :
  h_resolver h = Some resolver → natively h env rq route body origin → Endpoint_ route ≠ EndpointState →
  let name := endpoint_name (Endpoint_ route) in
  let ask := MkRequest name origin (roomIDFor route) (eventIDFor route (q_event_id rq)) body in
  let instead := fall_back h env (modeFor (h_modes h) (Endpoint_ route)) (Endpoint_ route) Freed blank in
  (∀ text status meta st', Answer (H := resolver) (h_serverName h) ask st = (Ok (text, status, meta), st') →
     e_panics env = false →
     ∃ n, ServeHTTP h env rq st = (Ok (Handled (respond json_type status text blank) (Answered n) Freed), st') ∧
          nr_Status n = status ∧ nr_Bytes n = str_len text ∧ nr_Meta n = meta) ∧
  (∀ e st', Answer (H := resolver) (h_serverName h) ask st = (Err e, st') → e_panics env = false →
     ServeHTTP h env rq st = (Ok instead, st')) ∧
  (e_panics env = true → ServeHTTP h env rq st = (Ok instead, st)).
Proof using Type.
  intros Hrs Hn Hne name ask instead. rewrite (serve_attempt h env rq route body origin st Hn).
  assert (Streams (Endpoint_ route) = false) as Est by (by apply bool_decide_eq_false).
  unfold serveNative. rewrite Hrs, (na_verified _ _ _ _ _ _ Hn), Est. unfold mbind, R_bind, answer_.
  split_and!.
  - intros text status meta st' Ha ->. unfold rtry. fold name ask. rewrite Ha. eexists. split; [reflexivity|done].
  - intros e st' Ha ->. unfold rtry. fold name ask. by rewrite Ha.
  - by intros ->.
Qed.
End served.

(** ** Streamed answers *)
Section streamed_answers.
Context `{!External} {conn : Connection} {Hconn : LawfulConnection}.
Context (Hdoc : ∀ ev body, serialisePDU ev = Ok body → is_doc body).
Variable clock : nat → Z.
Variable settable : bool.
#[local] Hint Extern 0 (Writer lazyResponse) => exact (lazy_writer clock settable) : typeclass_instances.

(** A streamed answer that is neither served nor aborted leaves the request as it was. *)
Lemma streamed_otherwise is_deadline gjson_room parse_auth other now h env rq st route body origin :
  h_resolver h = Some (matrixstate_resolver other now) → Endpoint_ route = EndpointState →
  natively parse_auth h env rq route body origin →
  ∃ hd st', ServeHTTP clock settable is_deadline gjson_room parse_auth h env rq st = (Ok hd, st') ∧
    match h_fate hd with
    | Answered _ | Aborted _ => True
    | _ => hd = fall_back h env (modeFor (h_modes h) EndpointState) EndpointState Freed blank
    end.
Proof using Type.
  intros Hrs Hst Hn. rewrite (serve_attempt clock settable is_deadline gjson_room parse_auth h env rq route body origin st Hn).
  unfold serveNative. rewrite Hrs, (na_verified _ _ _ _ _ _ _ Hn), Hst. change (Streams EndpointState) with true.
  cbn iota. unfold mbind, R_bind.
  destruct (streamed_ends clock settable is_deadline other now h env blank origin (roomIDFor route)
    (eventIDFor route (q_event_id rq)) st eq_refl) as (w & e & st1 & -> & Hm).
  destruct e as [n|reason]; cbn [attempt_ends mret R_ret]; (eexists _, st1; split; [reflexivity|]); [|done].
  destruct Hm as (Hw & _). cbn [nr_Served]. rewrite Hst. destruct (nr_Served n); [done|]. rewrite Hw by done.
  unfold fall_back. destruct (e_gone env); [done|]. by destruct (if _ && _ then _ else _) as [[res|] r].
Qed.

Lemma streamed_fates is_deadline gjson_room parse_auth other now h env rq st hd st' route body origin :
  h_resolver h = Some (matrixstate_resolver other now) → Endpoint_ route = EndpointState →
  natively parse_auth h env rq route body origin →
  ServeHTTP clock settable is_deadline gjson_room parse_auth h env rq st = (Ok hd, st') →
  match h_fate hd with
  | Answered n =>
      (∃ res res', nr_StateResult n = Some res ∧ nr_Status n = 200 ∧
         DigestStateResponse (r_sent (h_resp hd)) = (res', None) ∧ Agrees res res' = true ∧
         nr_Bytes n = str_len (r_sent (h_resp hd))) ∨
      (∃ err status code msg, nr_StateResult n = None ∧ as_matrix err = Some (status, code, msg) ∧ nr_Status n = status ∧
         h_resp hd = respond json_type status (Response status code msg).1 blank)
  | Aborted _ => h_slot hd = Kept
  | _ => hd = fall_back h env (modeFor (h_modes h) EndpointState) EndpointState Freed blank
  end.
Proof using Hdoc Hconn.
  intros Hrs Hst Hn. rewrite (serve_attempt clock settable is_deadline gjson_room parse_auth h env rq route body origin st Hn).
  unfold serveNative. rewrite Hrs, (na_verified _ _ _ _ _ _ _ Hn), Hst. change (Streams EndpointState) with true.
  cbn iota. unfold mbind, R_bind.
  destruct (streamed_ends clock settable is_deadline other now h env blank origin (roomIDFor route)
    (eventIDFor route (q_event_id rq)) st eq_refl) as (w & e & st1 & -> & Hm).
  destruct e as [n|reason]; cbn [attempt_ends mret R_ret]; [|intros [= <- <-]; done].
  destruct Hm as (Hw & _ & Hm). cbn [nr_Served]. rewrite Hst.
  destruct (nr_Served n) eqn:Es; intros [= <- <-].
  - cbn [h_fate h_resp nr_StateResult nr_Status nr_Bytes].
    destruct (nr_StateResult n) as [res|] eqn:Er.
    + left. destruct Hm as (Hs & k & -> & <- & E).
      destruct (state_scans Hdoc (new_lazy blank (h_streamIdleTimeout h)) origin (roomIDFor route) (eventIDFor route (q_event_id rq)) st res k st1)
        as (res' & H1 & H2 & _ & _ & H5); [reflexivity|exact E|].
      exists res, res'. done.
    + right. destruct (Hm eq_refl) as (err & status & code & msg & H1 & H2 & H3). by exists err, status, code, msg.
  - rewrite Hw by done. unfold fall_back. destruct (e_gone env); [done|].
    by destruct (if _ && _ then _ else _) as [[res|] r].
Qed.

(** C10. The client of a streamed /state is never misled by a truncated body: a
    native 200 that ends normally is a complete, well-formed response, whose arrays
    digest to what the verification compares; any other streamed answer that ends
    normally is a whole Matrix error written to an untouched response; everything
    else falls back untouched or aborts the connection. *)
Theorem streamed_complete_or_aborted is_deadline gjson_room parse_auth other now h env rq st hd st' route body origin :
  h_resolver h = Some (matrixstate_resolver other now) → Endpoint_ route = EndpointState →
  natively parse_auth h env rq route body origin →
  ServeHTTP clock settable is_deadline gjson_room parse_auth h env rq st = (Ok hd, st') →
  match h_fate hd with
  | Answered n =>
      (∃ res res', nr_StateResult n = Some res ∧ nr_Status n = 200 ∧
         DigestStateResponse (r_sent (h_resp hd)) = (res', None) ∧ Agrees res res' = true ∧
         nr_Bytes n = str_len (r_sent (h_resp hd))) ∨
      (∃ err status code msg, nr_StateResult n = None ∧ as_matrix err = Some (status, code, msg) ∧ nr_Status n = status ∧
         h_resp hd = respond json_type status (Response status code msg).1 blank)
  | Aborted _ => h_slot hd = Kept
  | _ => hd = fall_back h env (modeFor (h_modes h) EndpointState) EndpointState Freed blank
  end.
Proof using Hdoc Hconn. apply streamed_fates. Qed.
End streamed_answers.

(** ** The idle deadline *)
Section idle.
Context {conn : Connection}.
Variable clock : nat → Z.
Context (Hclock : ∀ i j, (i ≤ j)%nat → clock i ≤ clock j).
#[local] Hint Extern 0 (Writer lazyResponse) => exact (lazy_writer clock true) : typeclass_instances.

Definition writes (ps : list string) (l : lazyResponse) : lazyResponse := foldl (λ l p, (write l p).1) l ps.

(** What holds between writes. *)
Record timed (idle : Z) (l : lazyResponse) : Prop := {
  ti_idle : l_idle l = idle;
  ti_set : l_noDeadline l = false;
  ti_last : (l_refreshAt l = None) ∨
            ∃ i, (i < l_readings l)%nat ∧ l_refreshAt l = Some (clock i + idle `quot` 4) ∧ l_deadline l = Some (clock i + idle) }.

Lemma refresh_timed idle l : 0 < idle → timed idle l →
  let l' := refreshDeadline clock true l in
  timed idle l' ∧ l_readings l' = S (l_readings l) ∧
  ∃ d, l_deadline l' = Some d ∧ idle - idle `quot` 4 ≤ d - clock (l_readings l) ≤ idle.
Proof using Hclock.
  intros Hi [H1 H2 H3]. cbv zeta. unfold refreshDeadline. rewrite H1, H2, bool_decide_false by lia. cbn [orb negb].
  assert (0 ≤ idle `quot` 4 < idle) as Hq by (split; [apply Z.quot_pos; lia|apply Z.quot_lt; lia]).
  assert (∀ l', l' = Lazy (l_w l) idle false (Some (clock (l_readings l) + idle `quot` 4)) (Some (clock (l_readings l) + idle))
                  (S (l_readings l)) (l_written l) (l_bytes l) →
    timed idle l' ∧ l_readings l' = S (l_readings l) ∧
    ∃ d, l_deadline l' = Some d ∧ idle - idle `quot` 4 ≤ d - clock (l_readings l) ≤ idle) as Hset.
  { intros l' ->. split_and!; [|done|].
    - split; [done..|]. right. exists (l_readings l). split_and!; [simpl; lia|done|done].
    - eexists. split; [reflexivity|]. lia. }
  destruct H3 as [E|(i & Hl & E1 & E2)]; [rewrite E; by apply Hset|]. rewrite E1. cbn [from_option].
  case_bool_decide as Hb; [|by apply Hset]. split_and!; [|done|].
  - split; [done..|]. right. exists i. split_and!; [simpl; lia|done|done].
  - exists (clock i + idle). split; [done|]. pose proof (Hclock i (l_readings l)). lia.
Qed.

Lemma commit_frame l : l_idle (commit l) = l_idle l ∧ l_noDeadline (commit l) = l_noDeadline l ∧
  l_refreshAt (commit l) = l_refreshAt l ∧ l_deadline (commit l) = l_deadline l ∧ l_readings (commit l) = l_readings l.
Proof using Type. unfold commit. by destruct (l_written l). Qed.

Lemma commit_timed idle l : timed idle l → timed idle (commit l).
Proof using Type. intros [H1 H2 H3]. destruct (commit_frame l) as (E1 & E2 & E3 & E4 & E5). split; rewrite ?E1, ?E2, ?E3, ?E4, ?E5; done. Qed.

Lemma write_timed idle l p : 0 < idle → timed idle l → timed idle (write l p).1.
Proof using Hclock.
  intros Hi Ht. destruct (refresh_timed idle (commit l) Hi (commit_timed idle l Ht)) as ([H1 H2 H3] & _).
  unfold write, lazy_writer, lazy_Write.
  destruct (send _ _ _) as [w [n e]]. split; done.
Qed.

(** The idle timeout cuts exactly the clients that make no progress: at every
    write of a stream, whatever was written before and however long it took, the
    connection's deadline is ahead of now by at most the idle budget and by at
    least three quarters of it; when the answer is complete the deadline is gone. *)
Theorem idle_deadline idle w ps :
  0 < idle →
  let l := writes ps (new_lazy w idle) in
  (∃ d, l_deadline (refreshDeadline clock true (commit l)) = Some d ∧
        idle - idle `quot` 4 ≤ d - clock (l_readings l) ≤ idle) ∧
  l_deadline (clearDeadline l) = None.
Proof using Hclock.
  intros Hi. cbv zeta.
  assert (∀ l, timed idle l → timed idle (writes ps l)) as Hrun.
  { induction ps as [|p ps' IH]; intros l Hl; [done|]. by apply IH, write_timed. }
  assert (timed idle (new_lazy w idle)) as Hnew by (split; [done..|by left]).
  specialize (Hrun _ Hnew). set (l := writes ps (new_lazy w idle)) in *.
  destruct (commit_frame l) as (_ & _ & _ & _ & Er).
  destruct (refresh_timed idle (commit l) Hi (commit_timed idle l Hrun)) as (_ & _ & Hd). rewrite Er in Hd.
  split; [done|]. unfold clearDeadline. by rewrite (ti_set _ _ Hrun).
Qed.
End idle.

(** ** A concrete handler *)
Module ServeWitness.
Local Open Scope string_scope.
(** A connection that breaks once twenty bytes are out. *)
Definition broken : Connection := λ _ sent p,
  if bool_decide (str_len sent < 20)%Z then (str_len p, None) else (0%Z, Some (ErrText "broken pipe")).
Lemma broken_lawful : LawfulConnection (H := broken).
Proof.
  split; unfold accept, broken; intros dl sent p; destruct (bool_decide _); [unfold str_len; simpl; lia..|intros n; congruence|done].
Qed.
Definition resolver : NativeResolver := matrixstate_resolver (H := Sample.ext) None 0.
Definition handler : Handler :=
  MkHandler "h" [("state", MkMode ModeNative 0); ("state_ids", MkMode ModeCanary 100)] Federation.DefaultFederationSettings
    1024 true (Some resolver) (λ rq, if bool_decide (q_Authorization rq = "X-Matrix h") then Some "h" else None) 5 900 60 30.
Definition env : environment := Env (λ _, Acquired) false None false false "b" [Status 404; Body "no"].
Definition get (path : string) : hrequest := MkHReq path path "X-Matrix h" "$x" None.
Definition serve (conn : Connection) (rq : hrequest) :=
  ServeHTTP (H := conn) (λ n, Z.of_nat n) true (λ _, false) (λ _, "") id handler env rq StateStream.Witness.start.
Definition state_path : string := "/_matrix/federation/v1/state/%21r".
Definition ids_path : string := "/_matrix/federation/v1/state_ids/%21r".
Definition route : Route := MkRoute EndpointState "%21r".
Definition ids_route : Route := MkRoute EndpointStateIDs "%21r".
Definition outcome_of (r : result error handled * rworld) : handled :=
  match r.1 with Ok hd => hd | Err _ => Handled blank Refused NoSlot end.
End ServeWitness.

Section witnesses.
Import ServeWitness.

Lemma natively_state : natively id handler env (get state_path) route EmptyString "h".
Proof. by split. Qed.

Lemma every_request_ends_witness :
  r_status (h_resp (outcome_of (serve broken (get state_path)))) = Some 200 ∧
  h_slot (outcome_of (serve broken (get state_path))) = Kept.
Proof.
  destruct (every_request_ends (H := Sample.ext) (Hconn := broken_lawful) (λ n, Z.of_nat n) true (λ _, false)
    (λ _, EmptyString) id None 0 handler env (get state_path) StateStream.Witness.start) as (hd & st' & E & He).
  - reflexivity.
  - repeat constructor; simpl; lia.
  - assert (match h_fate (outcome_of (serve broken (get state_path))) with Aborted _ => true | _ => false end = true) as Hf
      by (vm_compute; reflexivity).
    revert Hf. unfold serve, outcome_of. rewrite E. clear E. cbn [fst]. unfold ends in He.
    destruct (h_fate hd); intros Hf; [discriminate Hf..|exact (proj2 He)].
Defined.

Lemma native_answer_exact_witness :
  r_sent (h_resp (outcome_of (serve open_connection (get ids_path)))) =
    js "{'pdu_ids':['$c','$m'],'auth_chain_ids':['$c']}".
Proof.
  destruct (native_answer_exact (H := Sample.ext) (conn := open_connection) (λ n, Z.of_nat n) true (λ _, false)
    (λ _, EmptyString) id None 0 handler env (get ids_path) ids_route EmptyString "h" StateStream.Witness.start)
    as (Hok & _ & _).
  - reflexivity.
  - split; reflexivity || discriminate.
  - discriminate.
  - assert (match (Answer (H := resolver) "h" (MkRequest "state_ids" "h" "!r" "$x" EmptyString)
      StateStream.Witness.start).1 with Ok (t, s, _) => bool_decide (t = js "{'pdu_ids':['$c','$m'],'auth_chain_ids':['$c']}")
      && bool_decide (s = 200) | Err _ => false end = true) as Ha by (vm_compute; reflexivity).
    change (MkRequest _ _ _ _ _) with (MkRequest "state_ids" "h" "!r" "$x" EmptyString) in Hok.
    change (h_serverName handler) with "h"%string in Hok. unfold resolver in Ha.
    destruct (Answer _ _ StateStream.Witness.start) as [[[[t s] m]|e] st'] eqn:E; [|discriminate Ha]. cbn [fst] in Ha.
    apply andb_true_iff in Ha. rewrite !bool_decide_eq_true in Ha. destruct Ha as [-> ->].
    destruct (Hok _ _ _ _ eq_refl eq_refl) as (n & En & _). unfold serve. rewrite En. vm_compute. reflexivity.
Defined.

Lemma streamed_complete_or_aborted_witness :
  match h_fate (outcome_of (serve open_connection (get state_path))) with
  | Answered n => nr_Bytes n = str_len (r_sent (h_resp (outcome_of (serve open_connection (get state_path)))))
  | _ => False
  end.
Proof.
  assert (match h_fate (outcome_of (serve open_connection (get state_path))) with
    Answered n => bool_decide (is_Some (nr_StateResult n)) | _ => false end = true) as Hf by (vm_compute; reflexivity).
  destruct (serve open_connection (get state_path)) as [[hd|e] st'] eqn:E; [|discriminate Hf].
  pose proof (streamed_complete_or_aborted (H := Sample.ext) (Hconn := open_lawful) sample_doc (λ n, Z.of_nat n) true
    (λ _, false) (λ _, EmptyString) id None 0 handler env (get state_path) StateStream.Witness.start hd st' route
    EmptyString "h" eq_refl eq_refl natively_state E) as Hs.
  clear E. unfold outcome_of in *. cbn [fst] in *. destruct (h_fate hd) as [|n| | | |]; [discriminate Hf| |discriminate Hf..].
  apply bool_decide_eq_true in Hf as [r Hr].
  destruct Hs as [(res & res' & _ & _ & _ & _ & Hb)|(er & st & c & m & Hn & _)]; [exact Hb|congruence].
Defined.

Lemma idle_deadline_witness :
  let l := writes (conn := open_connection) (λ n, Z.of_nat n) ["a"; "b"]%string (new_lazy blank 60) in
  ∃ d, l_deadline (refreshDeadline (λ n, Z.of_nat n) true (commit (H := open_connection) l)) = Some d ∧ 45 ≤ d - 2 ≤ 60.
Proof.
  destruct (idle_deadline (conn := open_connection) (λ n, Z.of_nat n) ltac:(intros i j Hij; cbn; lia) 60 blank ["a"; "b"]%string)
    as [Hd _]; [lia|exact Hd].
Defined.
End witnesses.
