(* ===== verification/Slots.v ===== *)
(** * The handler and the rate limiter together

    [ServeHTTP] releases its slot after the native attempt returns.  Here the
    limiter's interleaved system runs with requests that release only if their
    handler does. *)
From S2P Require Import Prelude RateLimit Json JsonStream Store External Events Digest Resolver StateStream Config Route Native Http Proxy Serve.
Import RateLimit.Federation RateLimit.System.

Open Scope Z_scope.

(** A step of the limiter, where [ended r] is how the handler of request [r] ends. *)
Inductive served_step (s : FederationSettings) (ended : nat → handled) : System.t → System.t → Prop :=
| served_act now r a st st' :
    act s now r a st = Some st' → (a = Release → h_slot (ended r) = Freed) → served_step s ended st st'
| served_cleanup cutoff st : served_step s ended st (Cleanup cutoff st).1.

Lemma served_step_sub s ended st st' : served_step s ended st st' → step s st st'.
Proof. destruct 1; by econstructor. Qed.

Lemma count_ge P st (l : list nat) :
  NoDup l → (∀ r, r ∈ l → ∃ p, reqs st !! r = Some p ∧ P p = true) → Z.of_nat (length l) ≤ count P st.
Proof.
  intros Hnd Hl.
  set (held := (filter (λ x, P x.2 = true) (map_to_list (reqs st))).*1).
  rewrite (count_list P st held).
  - apply Nat2Z.inj_le, submseteq_length, NoDup_submseteq; [done|]. intros r Hr.
    destruct (Hl r Hr) as (p & Hp & HP). unfold held. apply list_elem_of_fmap. exists (r, p). split; [done|].
    apply list_elem_of_filter. split; [done|]. by apply elem_of_map_to_list.
  - apply NoDup_fmap_filter, NoDup_fst_map_to_list.
  - intros r. unfold held. rewrite list_elem_of_fmap. split.
    + intros ([r' p] & -> & [HP Hin]%list_elem_of_filter). apply elem_of_map_to_list in Hin. eauto.
    + intros (p & Hr & HP). exists (r, p). split; [done|]. apply list_elem_of_filter.
      split; [done|]. by apply elem_of_map_to_list.
Qed.

(** ** A server whose slots are all kept *)
Section exhausted.
Variables (s : FederationSettings) (ended : nat → handled) (st0 : System.t).
Variables (srv : string) (h : nat) (L : list nat).
Hypothesis HC : 0 < Concurrent s.
Hypothesis Hnd : NoDup L.
Hypothesis Hlen : Z.of_nat (length L) = Concurrent s.
Hypothesis Hkept : ∀ r, r ∈ L → h_slot (ended r) = Kept.

Record exhausted (st : System.t) : Prop := {
  ex_inv : inv s st;
  ex_host : hosts st !! srv = Some h;
  ex_held : ∀ r, r ∈ L → reqs st !! r = Some (srv, Running h);
  ex_new : ∀ r p h', reqs st0 !! r = None → reqs st !! r = Some (srv, p) → uses p = Some h' → h' = h }.

Lemma exhausted_none st r srv' p :
  exhausted st → r ∉ L → reqs st !! r = Some (srv', p) → p ≠ Running h ∧ p ≠ Granted h.
Proof using Hnd Hlen.
  intros [[Ha Hb] _ Hheld _] Hr Hp.
  assert (holds_slot h (srv', p) = true → False) as Hno.
  { intros Hs. destruct (ac_uses _ Ha r srv' p h Hp) as [hl Hhl].
    { unfold holds_slot in Hs. apply orb_true_iff in Hs. rewrite !bool_decide_eq_true in Hs. cbn [snd] in Hs.
      by destruct Hs as [-> | ->]. }
    destruct (Hb _ _ Hhl) as [Hle _]. rewrite (ha_processing _ _ _ (ac_host _ Ha _ _ Hhl)) in Hle.
    assert (Z.of_nat (length (r :: L)) ≤ count (holds_slot h) st) as Hge; [|simpl in Hge; lia].
    apply count_ge; [by constructor|]. intros x [->|Hx]%elem_of_cons; [eauto|].
    exists (srv, Running h). split; [by apply Hheld|]. unfold holds_slot. by rewrite bool_decide_true. }
  unfold holds_slot in Hno. cbn [snd] in Hno.
  split; intros ->; apply Hno; apply orb_true_iff; rewrite !bool_decide_eq_true; auto.
Qed.

End exhausted.

(** ** The host object a request uses never changes *)

(** Nobody moved onto a host object but its own requests, and a lookup. *)
Definition uses_kept (st st' : System.t) : Prop :=
  (∀ srv h, hosts st !! srv = Some h → hosts st' !! srv = Some h) ∧
  ∀ r srv p h, reqs st' !! r = Some (srv, p) → uses p = Some h →
    (∃ p', reqs st !! r = Some (srv, p') ∧ uses p' = Some h) ∨ (reqs st !! r = Some (srv, Arrived) ∧ hosts st' !! srv = Some h).

Lemma set_phase_kept st r srv p p' hl h0 :
  reqs st !! r = Some (srv, p) → (∀ h, uses p' = Some h → uses p = Some h) →
  uses_kept st (set_phase r srv p' (set_host h0 hl st)).
Proof.
  intros Hr Hu. split; [done|]. intros x srv' q h. simpl. destruct (decide (x = r)) as [->|Hx].
  - rewrite lookup_insert_eq. intros [= <- <-] Hq. left. eauto.
  - rewrite lookup_insert_ne by done. left. eauto.
Qed.

Lemma grant_kept st n h st1 : uses_kept st st1 →
  (∀ r srv h1, n = Some r → reqs st1 !! r = Some (srv, Waiting h1) → h1 = h) → uses_kept st (grant n h st1).
Proof.
  intros [Hh Hu] Hn. assert (hosts (grant n h st1) = hosts st1) as Eh by (unfold grant; by repeat case_match).
  split; [by rewrite Eh|]. rewrite Eh. intros x srv p h' Hx Hp.
  destruct (grant_other n h st1 x) as [E| ->]; [rewrite E in Hx; by eapply Hu|].
  unfold grant in Hx. destruct (reqs st1 !! x) as [[srv1 q]|] eqn:Eq; [|congruence].
  destruct q; try (rewrite Eq in Hx; injection Hx as <- <-; by eapply Hu).
  simpl in Hx. rewrite lookup_insert_eq in Hx. injection Hx as <- <-. simplify_eq/=.
  rewrite <-(Hn x srv1 _ eq_refl Eq). by eapply Hu.
Qed.

Lemma waiting_head st h hl r srv h1 : acct st → heap st !! h = Some hl →
  head (Host.waiters hl) = Some r → reqs st !! r = Some (srv, Waiting h1) → h1 = h.
Proof.
  intros Ha Hh Hr Hw. destruct (ac_host _ Ha _ _ Hh) as [_ _ _ Hin _].
  destruct (proj1 (Hin r)) as [srv' Hw']; [|congruence].
  destruct (Host.waiters hl); [done|]. injection Hr as ->. by left.
Qed.

(** A slot given back, or a wait given up. *)
Lemma finish_kept st r srv p o h hl hl' n :
  acct st → reqs st !! r = Some (srv, p) → heap st !! h = Some hl →
  (∀ r', n = Some r' → head (Host.waiters hl) = Some r') →
  uses_kept st (grant n h (set_phase r srv (Finished o) (set_host h hl' st))).
Proof.
  intros Ha Hr Hh Hn. apply grant_kept; [by eapply set_phase_kept|].
  intros r' srv' h1 En. simpl. destruct (decide (r' = r)) as [->|Hne]; [rewrite lookup_insert_eq; congruence|].
  rewrite lookup_insert_ne by done. by apply waiting_head with hl; [..|apply Hn].
Qed.

Lemma act_kept s now r a st st' : acct st → act s now r a st = Some st' → uses_kept st st'.
Proof.
  intros Ha Hact. unfold act in Hact.
  destruct a; destruct (reqs st !! r) as [[srv1 q]|] eqn:Hr; try done; try (destruct q; try done).
  all: try (apply bind_Some in Hact as (hl & Hhl & Hact)).
  - simplify_eq. split; [done|]. intros x srv' p h. simpl.
    destruct (decide (x = r)) as [->|Hx]; [rewrite lookup_insert_eq; by intros [= <- <-]|].
    rewrite lookup_insert_ne by done. left. eauto.
  - assert (∀ h st1, hostLimiter now srv1 st = (h, st1) → reqs st1 = reqs st ∧ hosts st1 !! srv1 = Some h ∧
      ∀ srv h, hosts st !! srv = Some h → hosts st1 !! srv = Some h) as Hhl.
    { intros h st1. unfold hostLimiter. destruct (hosts st !! srv1) eqn:Eh; intros [= <- <-]; [done|]. simpl.
      split_and!; [done|by rewrite lookup_insert_eq|]. intros srv h Hs. rewrite lookup_insert_ne by congruence. done. }
    destruct (hostLimiter now srv1 st) as [h st1]. destruct (Hhl h st1 eq_refl) as (E & Hh & Hg). simplify_eq.
    split; [done|]. intros x srv' p h'. simpl. rewrite E. destruct (decide (x = r)) as [->|Hx].
    + rewrite lookup_insert_eq. intros [= <- <-] [= <-]. by right.
    + rewrite lookup_insert_ne by done. left. eauto.
  - destruct (Host.arrive s now hl) as [[] hl']; simplify_eq; by eapply set_phase_kept.
  - simplify_eq. by eapply set_phase_kept.
  - simplify_eq. by eapply set_phase_kept.
  - destruct (Host.enter s r hl) as [[] hl']; simplify_eq; by eapply set_phase_kept.
  - simplify_eq. destruct (ac_uses _ Ha _ _ _ _ Hr eq_refl) as [hl Hhl].
    replace (set_phase r srv1 (Running h) st) with (set_phase r srv1 (Running h) (set_host h hl st)); [by eapply set_phase_kept|].
    unfold set_phase, set_host. simpl. by rewrite (insert_id (heap st)).
  - destruct (Host.abandon r false hl) as [n hl'] eqn:E. simplify_eq. eapply finish_kept; try done.
    intros r' ->. by eapply abandon_head.
  - destruct (Host.abandon r true hl) as [n hl'] eqn:E. simplify_eq. eapply finish_kept; try done.
    intros r' ->. by eapply abandon_head.
  - destruct (Host.release hl) as [n hl'] eqn:E. simplify_eq. eapply finish_kept; try done.
    intros r' ->. symmetry. by eapply release_head.
Qed.

(** ** A server whose slots are all kept stays so *)
Section stuck.
Variables (s : FederationSettings) (ended : nat → handled) (st0 : System.t).
Variables (srv : string) (h : nat) (L : list nat).
Hypothesis HC : 0 < Concurrent s.
Hypothesis Hnd : NoDup L.
Hypothesis Hlen : Z.of_nat (length L) = Concurrent s.
Hypothesis Hkept : ∀ r, r ∈ L → h_slot (ended r) = Kept.
Notation exhausted := (exhausted s st0 srv h L).

Lemma held_stay now r a st st' : exhausted st → act s now r a st = Some st' → (a = Release → h_slot (ended r) = Freed) →
  ∀ x, x ∈ L → reqs st' !! x = Some (srv, Running h).
Proof using Hkept.
  intros [[Ha Hb] _ Hheld _] Hact Hrel x Hx. pose proof (Hheld x Hx) as Hr. pose proof (Hkept x Hx) as Hkx.
  destruct (decide (x = r)) as [->|Hne].
  - unfold act in Hact. rewrite Hr in Hact. destruct a; try done. rewrite Hrel in Hkx by done. done.
  - destruct (act_other _ _ _ _ _ _ x Hact Hne) as [->|(h' & hl & Hh & Hhd)]; [done|]. exfalso.
    destruct (ac_host _ Ha _ _ Hh) as [_ _ _ Hin _]. destruct (proj1 (Hin x)) as [? Hw]; [|congruence].
    destruct (Host.waiters hl); [done|]. injection Hhd as ->. by left.
Qed.

Lemma exhausted_step st st' : exhausted st → served_step s ended st st' → exhausted st'.
Proof using HC Hnd Hlen Hkept.
  intros Hex Hs. pose proof (step_inv s st st' (Z.lt_le_incl _ _ HC) (ex_inv _ _ _ _ _ _ Hex) (served_step_sub _ _ _ _ Hs)) as Hi.
  destruct Hs as [now r a st st' Hact Hrel|cutoff st].
  - destruct (act_kept s now r a st st' (proj1 (ex_inv _ _ _ _ _ _ Hex)) Hact) as [Hho Hu].
    split; [done|by apply Hho, Hex|by eapply held_stay|].
    intros x p h' Hx0 Hx Hp. destruct (Hu _ _ _ _ Hx Hp) as [(p' & Hx' & Hp')|[_ Hh]]; [by eapply (ex_new _ _ _ _ _ _ Hex)|].
    rewrite (Hho _ _ (ex_host _ _ _ _ _ _ Hex)) in Hh. congruence.
  - destruct Hex as [[Ha Hb] Hh Hheld Hnew]. split; [done| |done|done].
    simpl. apply map_lookup_filter_Some. split; [done|]. simpl.
    destruct (ac_hosts _ Ha _ _ Hh) as [hl Hhl]. rewrite Hhl. simpl. unfold Host.idle.
    assert (0 < Host.processing hl) as Hp.
    { rewrite (ha_processing _ _ _ (ac_host _ Ha _ _ Hhl)). eapply Z.lt_le_trans; [exact HC|]. rewrite <-Hlen.
      apply count_ge; [done|]. intros x Hx. exists (srv, Running h). split; [by apply Hheld|].
      unfold holds_slot. by rewrite bool_decide_true. }
    rewrite (bool_decide_false (Host.processing hl = 0)) by lia. by rewrite andb_false_r.
Qed.

Lemma exhausted_run st st' : exhausted st → rtc (served_step s ended) st st' → exhausted st'.
Proof using HC Hnd Hlen Hkept. intros Hex Hrun. induction Hrun; [done|]. by apply IHHrun, (exhausted_step x). Qed.
End stuck.

Lemma aborted_keeps {conn : Connection} clk settable isd gj pa hd env rq w (r : handled) w' reason :
  ServeHTTP clk settable isd gj pa hd env rq w = (Ok r, w') → h_fate r = Aborted reason → h_slot r = Kept.
Proof.
  assert (∀ mode e sl st v, h_fate (fall_back hd env mode e sl st) = v → v ≠ Aborted reason) as Hfb.
  { intros mode e sl x v <-. unfold fall_back. destruct (e_gone env); [done|]. by destruct (if _ && _ then _ else _) as [[res|] rc]. }
  unfold ServeHTTP. cbv zeta. destruct (bool_decide _); [by intros [= <- _]|].
  destruct (Match _) as [route|]; [|by intros [= <- _]].
  destruct (read_body _ _) as [body|code]; [|by intros [= <- _]].
  destruct (sampled _ _); [|intros [= <- _] E; by eapply Hfb in E].
  destruct (e_acquire env _); [|by intros [= <- _]..].
  unfold mbind, R_bind. destruct (serveNative _ _ _ _ _ _ _ _ _ _ _ _ _ w) as [[[x [n|why]]|e] st']; [|by intros [= <- _]|done].
  destruct (nr_Served n); [by intros [= <- _]|]. intros [= <- _] E. by eapply Hfb in E.
Qed.

(** C14. An aborted stream leaks its slot: [ServeHTTP] calls [release] after the
    native attempt returns, and the abort is a panic that passes it by.  Once as
    many streams of a server as it has slots have been cut off (by its own
    disconnecting is enough), no request of that server that arrives later is ever
    let through, whatever else happens, cleanups included. *)
Theorem aborted_streams_lock_server_out f (ended : nat → handled) st st' srv h L :
  Validate f = Ok tt → reachable (withDefaults f) st → hosts st !! srv = Some h →
  NoDup L → Z.of_nat (length L) = Concurrent (withDefaults f) →
  (∀ r, r ∈ L → reqs st !! r = Some (srv, Running h)) →
  (∀ r, r ∈ L → ∃ conn clk settable isd gj pa hd env rq w w' reason,
     ServeHTTP (H := conn) clk settable isd gj pa hd env rq w = (Ok (ended r), w') ∧
     h_fate (ended r) = Aborted reason) →
  rtc (served_step (withDefaults f) ended) st st' →
  hosts st' !! srv = Some h ∧
  ∀ r h', reqs st !! r = None → reqs st' !! r ≠ Some (srv, Running h').
Proof.
  intros Hv Hr Hh Hnd Hlen Hheld Hab Hrun.
  destruct (withDefaults_positive f Hv) as (_ & _ & _ & _ & HC).
  assert (∀ r, r ∈ L → h_slot (ended r) = Kept) as Hkept.
  { intros r Hr'. destruct (Hab r Hr') as (conn & clk & settable & isd & gj & pa & hd & env & rq & w & w' & reason & E & Ef).
    by eapply aborted_keeps. }
  assert (exhausted (withDefaults f) st srv h L st) as H0.
  { split; [by apply reachable_inv; [lia|]|done|done|]. intros r p h' Hn Hp. congruence. }
  pose proof (exhausted_run _ ended st srv h L HC Hnd Hlen Hkept st st' H0 Hrun) as Hex.
  split; [apply Hex|]. intros r h' Hn Hp. pose proof (ex_new _ _ _ _ _ _ Hex r _ h' Hn Hp eq_refl) as ->.
  assert (r ∉ L) as HrL by (intros HrL; rewrite (Hheld r HrL) in Hn; done).
  by destruct (exhausted_none _ st srv h L Hnd Hlen st' r srv _ Hex HrL Hp).
Qed.

(** Three streams of a server broken off; the next request waits for ever. *)
Section witnesses.
Import ServeWitness.

Definition later : list (Z * nat * action) :=
  [(9000, 5%nat, Start "a.org"); (9000, 5%nat, Lookup); (9000, 5%nat, Admit); (9000, 5%nat, Enter)].
Definition later_state : System.t :=
  Eval vm_compute in from_option id init (foldl (run_act (withDefaults wit_settings)) (Some wit_state) later).

Lemma aborted_streams_lock_server_out_witness :
  reqs later_state !! 5%nat = Some ("a.org"%string, Waiting 0) ∧
  ∀ h', reqs later_state !! 5%nat ≠ Some ("a.org"%string, Running h').
Proof.
  split; [by vm_compute|].
  destruct (aborted_streams_lock_server_out wit_settings (λ _, outcome_of (serve broken (get state_path))) wit_state later_state
    "a.org" 0 [0; 1; 2]%nat) as [_ Hno].
  - by vm_compute.
  - apply wit_reachable.
  - by vm_compute.
  - apply (bool_decide_unpack _). by vm_compute.
  - by vm_compute.
  - intros r Hr. repeat (apply elem_of_cons in Hr as [->|Hr]; [by vm_compute|]). by apply not_elem_of_nil in Hr.
  - intros _ _. assert (match h_fate (outcome_of (serve broken (get state_path))) with Aborted _ => true | _ => false end = true) as Hf
      by (vm_compute; reflexivity).
    destruct (serve broken (get state_path)) as [[hd|e] w'] eqn:E; [|discriminate Hf].
    unfold outcome_of in *. cbn [fst] in *. destruct (h_fate hd) as [| | | | |reason] eqn:Ef; try discriminate Hf.
    do 10 eexists. exists w', reason. split; [exact E|reflexivity].
  - assert (∀ l a b, foldl (run_act (withDefaults wit_settings)) (Some a) l = Some b →
      Forall (λ x : Z * nat * action, x.2 ≠ Release) l →
      rtc (served_step (withDefaults wit_settings) (λ _, outcome_of (serve broken (get state_path)))) a b) as Hrun.
    { intros l. induction l as [|[[now r] a] l IH] using rev_ind; intros x y; [intros [= <-]; constructor|].
      rewrite foldl_app, Forall_app. simpl. destruct (foldl _ (Some x) l) as [z|] eqn:Ez; [|done].
      intros Hact [Hl Ha]. eapply rtc_r; [by apply IH|]. apply (served_act _ _ now r a); [done|].
      intros ->. by inversion Ha. }
    apply (Hrun later); [by vm_compute|]. repeat constructor; discriminate.
  - intros h'. apply Hno. by vm_compute.
Defined.
End witnesses.
