(* ===== verification/DiffLog.v ===== *)
(** * [internal/difflog]: the log of disagreements and its statistics

    The records ([record.go]) and their JSON, the counters ([stats.go]), the writer
    with its bounded queue, its rotating files and its checkpoints ([writer.go],
    [options.go]), and the verdict of the report ([report.go]).  The directory is a
    map from names to files; every call on it may fail, which is chosen by the
    [Faults] of a step.  Times and durations are nanoseconds, a zero [time.Time] is
    [None]; a duration is printed exactly up to 10^15 ns, where the float64 of the
    source has the same shortest decimal. *)
From Stdlib Require Import DecimalString DecimalZ.
From S2P Require Import Prelude Json JsonStream Pducmp Wire Printed Cache RateLimit Replication Config.

Open Scope list_scope.
Open Scope Z_scope.

(** ** [record.go] *)
Inductive Kind := KindStatus | KindBody | KindNativeError | KindNativeTimeout | KindAuth.
Definition kind_text (k : Kind) : string :=
  match k with
  | KindStatus => "status_mismatch"
  | KindBody => "body_mismatch"
  | KindNativeError => "native_error"
  | KindNativeTimeout => "native_timeout"
  | KindAuth => "auth_mismatch"
  end.

Record FieldDiff := FD {
  Field : string; MissingFromNative : list string; ExtraInNative : list string; ContentMismatch : list string;
  SynapseCount : Z; NativeCount : Z; ListsTruncated : bool }.
Record Diff := MkDiff { Fields : list FieldDiff }.

Definition field_clean (f : FieldDiff) : bool :=
  bool_decide (MissingFromNative f = []) && bool_decide (ExtraInNative f = []) &&
  bool_decide (ContentMismatch f = []) && bool_decide (SynapseCount f = NativeCount f).
Definition Empty (d : Diff) : bool := forallb field_clean (Fields d).

(** [Record].  An absent body is empty. *)
Record LogRecord := MkRecord {
  Time : option Z; rec_Kind : Kind; rec_Endpoint : string; rec_Origin : string; URI : string;
  rec_RoomID : string; rec_EventID : string; SynapseStatus : Z; NativeStatus : Z;
  SynapseDuration : Z; NativeDuration : Z; rec_Diff : option Diff; NativeError : string;
  SynapseBody : string; NativeBody : string; BodiesTruncated : bool }.

(** *** A record as JSON *)

(** [n] in decimal, padded to [w] digits. *)
Fixpoint padded (w : nat) (n : Z) : string :=
  match w with O => EmptyString | S w => padded w (n / 10) +:+ String (hex_digit (n mod 10)) EmptyString end.
Fixpoint trim_zeros (s : string) : string :=
  match s with
  | EmptyString => EmptyString
  | String a s => match a, trim_zeros s with "0"%char, EmptyString => EmptyString | _, t => String a t end
  end.
(** [.frac], or nothing. *)
Definition fraction (w : nat) (n : Z) : string :=
  match trim_zeros (padded w n) with EmptyString => EmptyString | s => String "." s end.

(** The date of a day counted from 1970-01-01. *)
Definition civil (days : Z) : Z * Z * Z :=
  let z := days + 719468 in
  let era := z / 146097 in
  let doe := z mod 146097 in
  let yoe := (doe - doe / 1460 + doe / 36524 - doe / 146096) / 365 in
  let doy := doe - (365 * yoe + yoe / 4 - yoe / 100) in
  let mp := (5 * doy + 2) / 153 in
  let m := if bool_decide (mp < 10) then mp + 3 else mp - 9 in
  (yoe + era * 400 + (if bool_decide (m ≤ 2) then 1 else 0), m, doy - (153 * mp + 2) / 5 + 1).

(** [Time.MarshalJSON] of a UTC time; the zero time is in year 1. *)
Definition RFC3339Nano (t : option Z) : string :=
  match t with
  | None => "0001-01-01T00:00:00Z"
  | Some ns =>
      let secs := ns / 1000000000 in
      let '(y, m, d) := civil (secs / 86400) in
      let s := secs mod 86400 in
      padded 4 y +:+ "-" +:+ padded 2 m +:+ "-" +:+ padded 2 d +:+ "T" +:+
      padded 2 (s / 3600) +:+ ":" +:+ padded 2 ((s / 60) mod 60) +:+ ":" +:+ padded 2 (s mod 60) +:+
      fraction 9 (ns mod 1000000000) +:+ "Z"
  end.

(** [float64(ns) / 1e6] *)
Definition print_ms (ns : Z) : string := print_int (ns / 1000000) +:+ fraction 6 (ns mod 1000000).

(** [omitempty] *)
Definition member (k v : string) : list (string * string) := [(k, v)].
Definition unless (empty : bool) (k v : string) : list (string * string) := if empty then [] else member k v.
Definition text_field (k v : string) : list (string * string) := unless (bool_decide (v = EmptyString)) k (encode_string v).
Definition list_field (k : string) (l : list string) : list (string * string) :=
  unless (bool_decide (l = [])) k (print_array (encode_string <$> l)).

Definition marshal_field (f : FieldDiff) : string := print_object (
  member "field" (encode_string (Field f)) ++ list_field "missing_from_native" (MissingFromNative f) ++
  list_field "extra_in_native" (ExtraInNative f) ++ list_field "content_mismatch" (ContentMismatch f) ++
  member "synapse_count" (print_int (SynapseCount f)) ++ member "native_count" (print_int (NativeCount f)) ++
  unless (negb (ListsTruncated f)) "lists_truncated" "true").
(** The only [Diff] without fields has a nil slice. *)
Definition marshal_diff (d : Diff) : string := print_object
  (member "fields" (if bool_decide (Fields d = []) then "null" else print_array (marshal_field <$> Fields d))).

(** A [json.RawMessage] is checked, and compacted. *)
Definition raw_ok (raw : string) : bool := bool_decide (raw = EmptyString) || is_ok (parse raw).
Definition raw_member (k raw : string) : list (string * string) :=
  unless (bool_decide (raw = EmptyString)) k (compact false raw).

(** [json.Marshal(rec)]; [None] is its error. *)
Definition marshal_record (r : LogRecord) : option string :=
  if raw_ok (SynapseBody r) && raw_ok (NativeBody r) then Some (print_object (
    member "time" (encode_string (RFC3339Nano (Time r))) ++ member "kind" (encode_string (kind_text (rec_Kind r))) ++
    member "endpoint" (encode_string (rec_Endpoint r)) ++ text_field "origin" (rec_Origin r) ++
    member "uri" (encode_string (URI r)) ++ text_field "room_id" (rec_RoomID r) ++ text_field "event_id" (rec_EventID r) ++
    member "synapse_status" (print_int (SynapseStatus r)) ++ member "native_status" (print_int (NativeStatus r)) ++
    member "synapse_duration_ms" (print_ms (SynapseDuration r)) ++
    member "native_duration_ms" (print_ms (NativeDuration r)) ++
    from_option (λ d, member "diff" (marshal_diff d)) [] (rec_Diff r) ++
    text_field "native_error" (NativeError r) ++ raw_member "synapse_body" (SynapseBody r) ++
    raw_member "native_body" (NativeBody r) ++ unless (negb (BodiesTruncated r)) "bodies_truncated" "true"))
  else None.

Example time_text : RFC3339Nano (Some 1709210096123450000) = "2024-02-29T12:34:56.12345Z"%string.
Proof. reflexivity. Qed.
Example ms_text : print_ms 1500000 = "1.5"%string ∧ print_ms 42 = "0.000042"%string ∧ print_ms 7000000 = "7"%string.
Proof. repeat split. Qed.

(** ** [stats.go] *)
Record EndpointStats := ES { es_Compared : Z; es_Matched : Z; es_Mismatched : Z; FirstMismatch : option Z; LastMismatch : option Z }.
Record Stats := MkStats {
  Since : option Z; Updated : option Z; Restarts : Z;
  Compared : Z; Matched : Z; Mismatched : Z;
  Logged : Z; Dropped : Z; Rotations : Z; WriteErrors : Z; per_endpoint : gmap string EndpointStats }.
Definition no_stats : Stats := MkStats None None 0 0 0 0 0 0 0 0 ∅.
Definition no_endpoint : EndpointStats := ES 0 0 0 None None.

Definition observe (now : Z) (endpoint : string) (matched : bool) (s : Stats) : Stats :=
  let e := default no_endpoint (per_endpoint s !! endpoint) in
  let '(yes, no) := if matched then (1, 0) else (0, 1) in
  MkStats (Since s) (Updated s) (Restarts s)
    (u64 (Compared s + 1)) (u64 (Matched s + yes)) (u64 (Mismatched s + no))
    (Logged s) (Dropped s) (Rotations s) (WriteErrors s)
    (<[endpoint := ES (u64 (es_Compared e + 1)) (u64 (es_Matched e + yes)) (u64 (es_Mismatched e + no))
         (if matched then FirstMismatch e else Some (default now (FirstMismatch e)))
         (if matched then LastMismatch e else Some now)]> (per_endpoint s)).

(** The fields the writer sets one at a time. *)
Definition opened (now : Z) (s : Stats) : Stats :=
  MkStats (Some (default now (Since s))) (Updated s) (i64 (Restarts s + 1)) (Compared s) (Matched s) (Mismatched s)
    (Logged s) (Dropped s) (Rotations s) (WriteErrors s) (per_endpoint s).
Definition logged (s : Stats) : Stats :=
  MkStats (Since s) (Updated s) (Restarts s) (Compared s) (Matched s) (Mismatched s)
    (u64 (Logged s + 1)) (Dropped s) (Rotations s) (WriteErrors s) (per_endpoint s).
Definition rotated (s : Stats) : Stats :=
  MkStats (Since s) (Updated s) (Restarts s) (Compared s) (Matched s) (Mismatched s)
    (Logged s) (Dropped s) (u64 (Rotations s + 1)) (WriteErrors s) (per_endpoint s).
Definition with_losses (dropped errs : Z) (s : Stats) : Stats :=
  MkStats (Since s) (Updated s) (Restarts s) (Compared s) (Matched s) (Mismatched s)
    (Logged s) dropped (Rotations s) errs (per_endpoint s).
Definition updated (now : Z) (s : Stats) : Stats :=
  MkStats (Since s) (Some now) (Restarts s) (Compared s) (Matched s) (Mismatched s)
    (Logged s) (Dropped s) (Rotations s) (WriteErrors s) (per_endpoint s).

(** [stats.json] on disk: what reading and decoding it gives. *)
Inductive stats_file := NoStatsFile | UnreadableStats | GarbledStats | SavedStats (s : Stats).
Definition loadStats (f : stats_file) : result string Stats :=
  match f with
  | NoStatsFile | GarbledStats => Ok no_stats
  | UnreadableStats => Err "difflog: read stats"%string
  | SavedStats s => Ok s
  end.

(** ** [Options] *)
Module Options.
Record t := Mk {
  Dir : string; MaxFileBytes : Z; MaxFiles : Z; Compress : bool; QueueSize : Z; BodyLimit : Z; ListLimit : Z; StatsEvery : Z }.

Definition DefaultMaxFileBytes : Z := Z.shiftl 64 20.
Definition DefaultMaxFiles : Z := 10.
Definition DefaultQueueSize : Z := 1024.
Definition DefaultBodyLimit : Z := Z.shiftl 256 10.
Definition DefaultListLimit : Z := 100.
Definition DefaultStatsEvery : Z := 30 * 1000000000.

Definition positive_or (d v : Z) : Z := if bool_decide (v ≤ 0) then d else v.
Definition applyDefaults (o : t) : t :=
  Mk (Dir o) (positive_or DefaultMaxFileBytes (MaxFileBytes o)) (positive_or DefaultMaxFiles (MaxFiles o)) (Compress o)
    (positive_or DefaultQueueSize (QueueSize o))
    (if bool_decide (BodyLimit o = 0) then DefaultBodyLimit else BodyLimit o)
    (positive_or DefaultListLimit (ListLimit o)) (positive_or DefaultStatsEvery (StatsEvery o)).

Definition FromConfig (c : Config.DiffLog) : t :=
  Mk (Config.Dir c)
    (if bool_decide (0 < Config.MaxFileMB c) then i64 (Z.shiftl (Config.MaxFileMB c) 20) else 0)
    (Config.MaxFiles c) (Config.CompressRotated c) (Config.QueueSize c)
    (if bool_decide (Config.BodyKB c < 0) then -1
     else if bool_decide (0 < Config.BodyKB c) then i64 (Z.shiftl (Config.BodyKB c) 10) else 0)
    (Config.ListLimit c) DefaultStatsEvery.
End Options.
Notation Options := Options.t.

(** ** The directory *)
Inductive file := Plain (data : string) | Gzip (data : string) | BrokenGzip.
Record Disk := MkDisk { files : gmap string file; stats_json : stats_file }.

Definition activeName : string := "diffs.jsonl".
(** [fmt.Sprintf("%s.%d%s", activeName, i, ext)] *)
Definition rotatedName (o : Options) (i : Z) : string :=
  activeName +:+ "." +:+ print_int i +:+ (if Options.Compress o then ".gz" else EmptyString).

Definition rename (from to : string) (fs : gmap string file) : gmap string file :=
  match fs !! from with Some f => <[to := f]> (delete from fs) | None => fs end.
Definition contents (name : string) (fs : gmap string file) : string :=
  match fs !! name with Some (Plain s) => s | _ => EmptyString end.
Definition append (name s : string) (fs : gmap string file) : gmap string file :=
  <[name := Plain (contents name fs +:+ s)]> fs.

(** How the calls of one step on the file system turn out. *)
Inductive gzip_outcome := GzipDone | GzipNotStarted | GzipPartial.
Record Faults := MkFaults {
  CloseFails : bool; ShiftFails : Z → bool; GzipEnds : gzip_outcome; RemoveFails : bool; RenameFails : bool; OpenFails : bool;
  WritesOnly : option nat; SyncFails : bool; SaveFails : bool }.
Definition no_faults : Faults := MkFaults false (λ _, false) GzipDone false false false None false false.

(** ** [Writer]

    The handle is nil, open, or closed with a pointer left to it, which is what a
    [Close] that returned an error leaves. *)
Inductive handle := NilFile | OpenFile | ClosedFile.
#[export] Instance handle_dec : EqDecision handle.
Proof. solve_decision. Defined.

Record Writer := MkWriter {
  opts : Options; queue : list LogRecord; closed : bool; loop_done : bool;
  wfile : handle; size : Z; stats : Stats; dropped : Z; errs : Z }.
Definition set_queue (q : list LogRecord) (w : Writer) : Writer :=
  MkWriter (opts w) q (closed w) (loop_done w) (wfile w) (size w) (stats w) (dropped w) (errs w).
Definition set_closed (w : Writer) : Writer :=
  MkWriter (opts w) (queue w) true (loop_done w) (wfile w) (size w) (stats w) (dropped w) (errs w).
Definition set_done (w : Writer) : Writer :=
  MkWriter (opts w) (queue w) (closed w) true (wfile w) (size w) (stats w) (dropped w) (errs w).
Definition set_file (h : handle) (n : Z) (w : Writer) : Writer :=
  MkWriter (opts w) (queue w) (closed w) (loop_done w) h n (stats w) (dropped w) (errs w).
Definition set_stats (s : Stats) (w : Writer) : Writer :=
  MkWriter (opts w) (queue w) (closed w) (loop_done w) (wfile w) (size w) s (dropped w) (errs w).
Definition add_dropped (w : Writer) : Writer :=
  MkWriter (opts w) (queue w) (closed w) (loop_done w) (wfile w) (size w) (stats w) (u64 (dropped w + 1)) (errs w).
Definition add_err (w : Writer) : Writer :=
  MkWriter (opts w) (queue w) (closed w) (loop_done w) (wfile w) (size w) (stats w) (dropped w) (u64 (errs w + 1)).

(** *** [truncate] *)
Definition clip (b : string) (n : Z) : string := encode_string (take_str (Z.to_nat n) b +:+ "…[truncated]").
Definition clip_body (limit : Z) (b : string) : string := if bool_decide (limit < str_len b) then clip b limit else b.
Definition clip_list (limit : Z) (l : list string) : list string := take (Z.to_nat limit) l.
Definition longer (limit : Z) (l : list string) : bool := bool_decide (limit < Z.of_nat (length l)).
Definition truncate_field (limit : Z) (f : FieldDiff) : FieldDiff :=
  FD (Field f) (clip_list limit (MissingFromNative f)) (clip_list limit (ExtraInNative f)) (clip_list limit (ContentMismatch f))
    (SynapseCount f) (NativeCount f)
    (ListsTruncated f || longer limit (MissingFromNative f) || longer limit (ExtraInNative f) || longer limit (ContentMismatch f)).
Definition with_bodies (r : LogRecord) (synapse native : string) (truncated : bool) (d : option Diff) : LogRecord :=
  MkRecord (Time r) (rec_Kind r) (rec_Endpoint r) (rec_Origin r) (URI r) (rec_RoomID r) (rec_EventID r) (SynapseStatus r)
    (NativeStatus r) (SynapseDuration r) (NativeDuration r) d (NativeError r) synapse native truncated.
Definition truncate (o : Options) (r : LogRecord) : LogRecord :=
  let limit := Options.BodyLimit o in
  let d := (λ d, MkDiff (truncate_field (Options.ListLimit o) <$> Fields d)) <$> rec_Diff r in
  if bool_decide (limit < 0) then with_bodies r EmptyString EmptyString (BodiesTruncated r) d
  else with_bodies r (clip_body limit (SynapseBody r)) (clip_body limit (NativeBody r))
         (BodiesTruncated r || bool_decide (limit < str_len (SynapseBody r)) || bool_decide (limit < str_len (NativeBody r))) d.
Definition stamped (now : Z) (r : LogRecord) : LogRecord :=
  MkRecord (Some (default now (Time r))) (rec_Kind r) (rec_Endpoint r) (rec_Origin r) (URI r) (rec_RoomID r) (rec_EventID r)
    (SynapseStatus r) (NativeStatus r) (SynapseDuration r) (NativeDuration r) (rec_Diff r) (NativeError r) (SynapseBody r)
    (NativeBody r) (BodiesTruncated r).

(** *** [Log], [Observe]: what requests call *)

(** The record as it is queued. *)
Definition prepared (now : Z) (o : Options) (r : LogRecord) : LogRecord := truncate o (stamped now r).
Definition Log (now : Z) (r : LogRecord) (w : Writer) : bool * Writer :=
  if closed w then (false, w)
  else if bool_decide (Z.of_nat (length (queue w)) < Options.QueueSize (opts w)) then
    (true, set_queue (queue w ++ [prepared now (opts w) r]) w)
  else (false, add_dropped w).
Definition Observe (now : Z) (endpoint : string) (matched : bool) (w : Writer) : Writer :=
  set_stats (observe now endpoint matched (stats w)) w.

(** *** [rotateLocked] and [write]: the writer's goroutine *)
Definition with_files (d : Disk) (fs : gmap string file) : Disk := MkDisk fs (stats_json d).

(** [true] when it returned no error. *)
Definition openActiveLocked (f : Faults) (w : Writer) (d : Disk) : bool * Writer * Disk :=
  if OpenFails f then (false, w, d)
  else
    let data := contents activeName (files d) in
    (true, set_file OpenFile (str_len data) w, with_files d (<[activeName := Plain data]> (files d))).

(** The loop over [i = n, ..., 1]. *)
Fixpoint shift_down (f : Faults) (o : Options) (n : nat) (fs : gmap string file) : gmap string file :=
  match n with
  | O => fs
  | S m =>
      let i := Z.of_nat n in
      let from := rotatedName o i in
      let to := rotatedName o (i + 1) in
      shift_down f o m
        (if ShiftFails f i then fs
         else if bool_decide (Options.MaxFiles o < i + 1) then delete from fs else rename from to fs)
  end.

(** The active file becomes the newest rotated one. *)
Definition gzipFile (f : Faults) (src dst : string) (fs : gmap string file) : bool * gmap string file :=
  match GzipEnds f with
  | GzipDone => (true, <[dst := Gzip (contents src fs)]> fs)
  | GzipNotStarted => (false, fs)
  | GzipPartial => (false, <[dst := BrokenGzip]> fs)
  end.
Definition retire (f : Faults) (o : Options) (fs : gmap string file) : bool * gmap string file :=
  let first := rotatedName o 1 in
  if Options.Compress o then
    let '(ok, fs) := gzipFile f activeName first fs in
    if negb ok then (false, fs)
    else if RemoveFails f then (false, fs) else (true, delete activeName fs)
  else if RenameFails f then (false, fs) else (true, rename activeName first fs).

Definition rotateLocked (f : Faults) (w : Writer) (d : Disk) : bool * Writer * Disk :=
  if CloseFails f || bool_decide (wfile w = ClosedFile) then (false, set_file ClosedFile (size w) w, d)
  else
    let w := set_file NilFile (size w) w in
    let '(ok, fs) := retire f (opts w) (shift_down f (opts w) (Z.to_nat (Options.MaxFiles (opts w) - 1)) (files d)) in
    if negb ok then (false, w, with_files d fs)
    else openActiveLocked f (set_stats (rotated (stats w)) w) (with_files d fs).

Definition too_big (w : Writer) (line : string) : bool :=
  bool_decide (Options.MaxFileBytes (opts w) < size w + str_len line) && bool_decide (0 < size w).

(** The bytes a [Write] to an open file gets out, and whether it returned no error. *)
Definition written (f : Faults) (line : string) : string * bool :=
  match WritesOnly f with Some n => (take_str n line, false) | None => (line, true) end.

Definition newline : string := String "010" EmptyString.
Definition put_line (f : Faults) (line : string) (w : Writer) (d : Disk) : Writer * Disk :=
  if bool_decide (wfile w = ClosedFile) then (add_err w, d)
  else
    let '(out, ok) := written f line in
    let d := with_files d (append activeName out (files d)) in
    let w := set_file (wfile w) (size w + str_len out) w in
    if negb ok then (add_err w, d)
    else
      let w := if SyncFails f then add_err w else w in
      (set_stats (logged (stats w)) w, d).
Definition write (f : Faults) (r : LogRecord) (w : Writer) (d : Disk) : Writer * Disk :=
  match marshal_record r with
  | None => (add_err w, d)
  | Some text =>
      let line := text +:+ newline in
      if bool_decide (wfile w = NilFile) then (add_err w, d)
      else
        let '(ok, w, d) := if too_big w line then rotateLocked f w d else (true, w, d) in
        if negb ok then (add_err w, d) else put_line f line w d
  end.

(** [flushStats], [Snapshot] *)
Definition Snapshot (w : Writer) : Stats := with_losses (dropped w) (errs w) (stats w).
Definition flushStats (f : Faults) (now : Z) (w : Writer) (d : Disk) : Writer * Disk :=
  if SaveFails f then (add_err w, d)
  else (w, MkDisk (files d) (SavedStats (updated now (Snapshot w)))).

(** *** [Open] *)
Definition Open (f : Faults) (now : Z) (o : Options) (d : Disk) : result string (Writer * Disk) :=
  if bool_decide (Options.Dir o = EmptyString) then Err "difflog: Dir is required"%string
  else
    let o := Options.applyDefaults o in
    s ← loadStats (stats_json d);
    match openActiveLocked f (MkWriter o [] false false NilFile 0 (opened now s) 0 0) d with
    | (true, w, d) => Ok (w, d)
    | (false, _, _) => Err "difflog: open"%string
    end.

(** *** [Close], and the steps of a process

    A request logs or observes; the goroutine takes a record from the queue, or
    checkpoints; [Close] refuses further records, waits for the goroutine to drain
    the queue, and closes the file. *)
Inductive op :=
| OLog (now : Z) (r : LogRecord)
| OObserve (now : Z) (endpoint : string) (matched : bool)
| OWrite (f : Faults)
| OTick (f : Faults) (now : Z)
| OClose
| ODrained (f : Faults) (now : Z)
| OCloseFile.

Definition act (o : op) (w : Writer) (d : Disk) : option (Writer * Disk) :=
  match o with
  | OLog now r => Some ((Log now r w).2, d)
  | OObserve now endpoint matched => Some (Observe now endpoint matched w, d)
  | OWrite f => match queue w with r :: q => Some (write f r (set_queue q w) d) | [] => None end
  | OTick f now => if loop_done w then None else Some (flushStats f now w d)
  | OClose => if closed w then None else Some (set_closed w, d)
  | ODrained f now =>
      if closed w && bool_decide (queue w = []) && negb (loop_done w)
      then Some (let '(w, d) := flushStats f now w d in (set_done w, d)) else None
  | OCloseFile => if loop_done w then Some (set_file NilFile (size w) w, d) else None
  end.

(** [Files]: the names in the directory, sorted. *)
Definition Files (o : Options) (d : Disk) : list string :=
  (λ name, Options.Dir o +:+ "/" +:+ name) <$>
    sort_strings (filter (λ name, has_prefix name activeName = true) (base.elements (dom (files d)))).

(** ** [report.go]: the verdict on an endpoint *)
Definition promotionWindow : Z := 7 * 24 * 3600 * 1000000000.
Inductive readiness :=
| NoComparisons
| NotReady (mismatches since : Z)
| ReadyHistorical (mismatches since : Z)
| CleanSoFar (elapsed : Z)
| Ready (compared : Z).
(** [elapsed] is the time since the first start against this log. *)
Definition verdict (now : Z) (e : EndpointStats) (elapsed : Z) : readiness :=
  let clean := if bool_decide (elapsed < promotionWindow) then CleanSoFar elapsed else Ready (es_Compared e) in
  if bool_decide (es_Compared e = 0) then NoComparisons
  else match LastMismatch e with
       | Some last =>
           if bool_decide (0 < es_Mismatched e) then
             if bool_decide (now - last < promotionWindow) then NotReady (es_Mismatched e) (now - last)
             else ReadyHistorical (es_Mismatched e) (now - last)
           else clean
       | None => clean
       end.

(** [Report]: an error, or the warnings about losses and the verdict on every
    endpoint, in order; nothing follows the table of a log without comparisons. *)
Record report := MkReport { rp_Restarts : Z; rp_Logged : option Z; rp_warns : list string; rp_verdicts : list (string * readiness) }.
Definition Report (now : Z) (d : Disk) : result string report :=
  s ← loadStats (stats_json d);
  match Since s with
  | None => Err "no shadow statistics recorded"%string
  | Some since =>
      let names := sort_strings (base.elements (dom (per_endpoint s))) in
      if bool_decide (names = []) then Ok (MkReport (Restarts s) None [] [])
      else Ok (MkReport (Restarts s) (Some (Logged s))
        ((if bool_decide (0 < Dropped s) then ["The log is incomplete."%string] else []) ++
         (if bool_decide (0 < WriteErrors s) then ["Check disk space and permissions."%string] else []))
        ((λ name, (name, verdict now (default no_endpoint (per_endpoint s !! name)) (now - since))) <$> names))
  end.

(** ** What a run did

    Of the records offered to [Log]: those it said were queued, as they were queued;
    those it refused because the queue was full, and those that came after [Close]. *)
Record History := MkHistory {
  offered : Z; accepted : list LogRecord; handled : list LogRecord; refused : Z; late : Z; steps : Z }.
Definition note (o : op) (w : Writer) (h : History) : History :=
  match o with
  | OLog now r =>
      let queued := (Log now r w).1 in
      MkHistory (offered h + 1) (if queued then accepted h ++ [prepared now (opts w) r] else accepted h) (handled h)
        (if negb queued && negb (closed w) then refused h + 1 else refused h)
        (if negb queued && closed w then late h + 1 else late h) (steps h + 1)
  | OWrite _ => MkHistory (offered h) (accepted h) (handled h ++ take 1 (queue w)) (refused h) (late h) (steps h + 1)
  | _ => MkHistory (offered h) (accepted h) (handled h) (refused h) (late h) (steps h + 1)
  end.

Inductive reach (w0 : Writer) (d0 : Disk) : Writer → Disk → History → Prop :=
| reach_start : reach w0 d0 w0 d0 (MkHistory 0 [] [] 0 0 0)
| reach_step o w d h w' d' : reach w0 d0 w d h → act o w d = Some (w', d') → reach w0 d0 w' d' (note o w h).

(** ** Lemmas on the operations *)

(** What a write may change: the file, and by at most one each the counters of
    records written and of errors; at least one of them moves. *)
Definition kept (w w' : Writer) : Prop :=
  opts w' = opts w ∧ queue w' = queue w ∧ closed w' = closed w ∧ dropped w' = dropped w.
Lemma write_counts f r w d w' d' : 0 ≤ Logged (stats w) < 2 ^ 64 - 1 → 0 ≤ errs w < 2 ^ 64 - 1 →
  write f r w d = (w', d') →
  kept w w' ∧ Logged (stats w) ≤ Logged (stats w') ≤ Logged (stats w) + 1 ∧ errs w ≤ errs w' ≤ errs w + 1 ∧
  1 ≤ Logged (stats w') - Logged (stats w) + (errs w' - errs w).
Proof.
  intros Hl He. unfold write, put_line, rotateLocked, openActiveLocked, kept.
  repeat (split_match; simplify_eq; cbn in *; try done); intros; simplify_eq; cbn;
    rewrite ?u64_small by lia; split_and!; lia || done.
Qed.

Lemma flush_counts f now w d w' d' : 0 ≤ errs w < 2 ^ 64 - 1 → flushStats f now w d = (w', d') →
  kept w w' ∧ stats w' = stats w ∧ errs w ≤ errs w' ≤ errs w + 1.
Proof.
  intros He. unfold flushStats, kept. destruct (SaveFails f); intros; simplify_eq; cbn; rewrite ?u64_small by lia;
    split_and!; lia || done.
Qed.

Lemma Open_fresh f now o d w d' : Open f now o d = Ok (w, d') →
  opts w = Options.applyDefaults o ∧ queue w = [] ∧ closed w = false ∧ wfile w = OpenFile ∧ dropped w = 0 ∧ errs w = 0 ∧
  ∃ s, loadStats (stats_json d) = Ok s ∧ stats w = opened now s.
Proof.
  unfold Open. case_bool_decide; [done|]. unfold mbind, result_bind.
  destruct (loadStats _) as [s|]; [|done]. unfold openActiveLocked. destruct (OpenFails f); [done|].
  intros [= <- <-]. cbn. eauto 10.
Qed.

Lemma QueueSize_pos o : 0 < Options.QueueSize (Options.applyDefaults o).
Proof. unfold Options.applyDefaults, Options.positive_or. cbn. case_bool_decide; [done|lia]. Qed.

(** ** Nothing is lost uncounted *)
Section accounting.
Context (w0 : Writer) (d0 : Disk).
Context (Hfresh : queue w0 = [] ∧ dropped w0 = 0 ∧ errs w0 = 0 ∧ closed w0 = false).
Context (Hroom : 0 < Options.QueueSize (opts w0)) (Hlog : 0 ≤ Logged (stats w0)).

Record accounts (w : Writer) (h : History) : Prop := {
  ac_fifo : accepted h = handled h ++ queue w;
  ac_room : Z.of_nat (length (queue w)) ≤ Options.QueueSize (opts w0);
  ac_opts : opts w = opts w0;
  ac_refused : dropped w = refused h ∧ 0 ≤ refused h ≤ steps h;
  ac_offered : offered h = Z.of_nat (length (accepted h)) + refused h + late h;
  ac_late : closed w = false → late h = 0;
  ac_logged : Logged (stats w0) ≤ Logged (stats w) ≤ Logged (stats w0) + Z.of_nat (length (handled h));
  ac_errs : 0 ≤ errs w ≤ steps h;
  ac_all : Z.of_nat (length (handled h)) ≤ Logged (stats w) - Logged (stats w0) + errs w;
  ac_steps : Z.of_nat (length (handled h)) ≤ steps h }.

Ltac account := constructor; cbn in *; rewrite ?u64_small by lia; lia || done.

Lemma accounts_step o w d h w' d' : accounts w h → Logged (stats w0) + steps h < 2 ^ 64 - 1 →
  act o w d = Some (w', d') → accounts w' (note o w h).
Proof using Hlog Hroom.
  intros [Hf Hr Ho [Hd1 Hd2] Hoff Hlt Hl He Ha Hs] Hb. destruct o; cbn [act note]; intros E.
  - unfold Log in *. simplify_eq. destruct (closed w) eqn:Ec; [constructor; cbn; rewrite ?Ec; lia || done|].
    specialize (Hlt eq_refl). case_bool_decide as Hq; cbn; rewrite ?Ec; [|constructor; cbn; rewrite ?Ec, ?u64_small by lia; lia || done].
    constructor; cbn in *; rewrite ?length_app, ?Ec; cbn; try (lia || done || auto); [by rewrite Hf, app_assoc|].
    rewrite Ho in Hq. lia.
  - simplify_eq. destruct matched; account.
  - destruct (queue w) as [|r q] eqn:Eq; [done|]. simplify_eq.
    destruct (write _ _ _ _) as [w1 d1] eqn:Ew. simplify_eq.
    apply write_counts in Ew as ((Ho' & Hq' & Hc' & Hd') & Hl' & He' & Hm); cbn in *; [|lia..].
    constructor; cbn; rewrite ?length_app, ?Hq', ?Ho', ?Hc', ?Hd'; cbn; rewrite ?take_0; cbn; try (lia || done);
      try (rewrite Hf, <-app_assoc; done).
  - destruct (loop_done w); [done|]. destruct (flushStats _ _ _ _) as [w1 d1] eqn:Ew. simplify_eq.
    apply flush_counts in Ew as ((Ho' & Hq' & Hc' & Hd') & Hst & He'); [|lia].
    constructor; cbn; rewrite ?Hq', ?Ho', ?Hc', ?Hd', ?Hst; lia || done.
  - destruct (closed w); [done|]. simplify_eq. account.
  - destruct (_ && _ && _); [|done]. destruct (flushStats _ _ _ _) as [w1 d1] eqn:Ew. simplify_eq.
    apply flush_counts in Ew as ((Ho' & Hq' & Hc' & Hd') & Hst & He'); [|lia].
    constructor; cbn; rewrite ?Hq', ?Ho', ?Hc', ?Hd', ?Hst; lia || done.
  - destruct (loop_done w); [|done]. simplify_eq. account.
Qed.

Lemma steps_note o w h : steps (note o w h) = steps h + 1.
Proof. destruct o; cbn; repeat case_match; done. Qed.
Lemma reach_steps w d h : reach w0 d0 w d h → 0 ≤ steps h.
Proof. induction 1; [done|]. rewrite steps_note. lia. Qed.

Lemma accounts_reach w d h : reach w0 d0 w d h → Logged (stats w0) + steps h < 2 ^ 64 → accounts w h.
Proof using All.
  destruct Hfresh as (Hq & Hd & He & _).
  induction 1 as [|o w d h w' d' Hreach IH E]; intros Hb.
  - constructor; cbn; rewrite ?Hq; cbn; lia || done.
  - rewrite steps_note in Hb. eapply accounts_step; [apply IH; lia|lia|exact E].
Qed.
End accounting.

(** C21. Every record offered to the log is accounted for.  Whatever the requests, the
    goroutine's progress, the checkpoints, the shutdown and the failures of the
    disk: each was accepted, or refused because the queue was full, and then it is one
    in the dropped counter, or came after [Close], and then no counter has it; the
    records accepted are handled in order, once each, and the queue holds the rest,
    within its size; and a record handled that is not in the logged counter is one in
    the error counter. *)
Theorem log_accounting f now o d w0 d0 w d' h :
  Open f now o d = Ok (w0, d0) → reach w0 d0 w d' h →
  0 ≤ Logged (stats w0) → Logged (stats w0) + steps h < 2 ^ 64 →
  offered h = Z.of_nat (length (accepted h)) + Dropped (Snapshot w) + late h ∧
  (closed w = false → late h = 0) ∧
  accepted h = handled h ++ queue w ∧ Z.of_nat (length (queue w)) ≤ Options.QueueSize (opts w0) ∧
  Z.of_nat (length (handled h)) - WriteErrors (Snapshot w) ≤ Logged (Snapshot w) - Logged (Snapshot w0)
    ≤ Z.of_nat (length (handled h)).
Proof.
  intros Ho Hr Hl Hb. apply Open_fresh in Ho as (Hop & Hq & Hc & _ & Hd & He & _).
  destruct (accounts_reach w0 d0 (conj Hq (conj Hd (conj He Hc)))
    ltac:(rewrite Hop; apply QueueSize_pos) Hl w d' h Hr Hb) as [Hf Hroom _ [Hdr _] Hoff Hlt Hlg Her Hal _].
  cbn. rewrite Hdr. split_and!; [done|done|done|done|lia|lia].
Qed.

(** ** Rotation keeps the newest records *)

Lemma print_int_inj a b : print_int a = print_int b → a = b.
Proof.
  unfold print_int. intros E. apply (f_equal NilEmpty.int_of_string) in E.
  rewrite !NilEmpty.isi in E. injection E as E. rewrite <-(DecimalZ.of_to a), <-(DecimalZ.of_to b). congruence.
Qed.
Lemma app_inj_1 p s t : p +:+ s = p +:+ t → s = t.
Proof. induction p as [|a p IH]; [done|]. rewrite !app_cons. intros [= E]. auto. Qed.
Lemma app_inj_2 e s t : s +:+ e = t +:+ e → s = t.
Proof.
  revert t. induction s as [|a s IH]; intros [|b t] E; try done.
  - apply (f_equal String.length) in E. rewrite !app_len in E. cbn in E. lia.
  - apply (f_equal String.length) in E. rewrite !app_len in E. cbn in E. lia.
  - rewrite !app_cons in E. injection E as -> E. f_equal. auto.
Qed.
Lemma rotatedName_inj o i j : rotatedName o i = rotatedName o j → i = j.
Proof. unfold rotatedName. intros E. do 2 apply app_inj_1 in E. apply app_inj_2 in E. by apply print_int_inj. Qed.
Lemma rotatedName_active o i : rotatedName o i ≠ activeName.
Proof.
  unfold rotatedName. intros E. apply (f_equal String.length) in E. rewrite !app_len in E. cbn in E. lia.
Qed.

Definition join (l : list string) : string := foldr String.append EmptyString l.
#[local] Arguments join : simpl never.
#[local] Arguments activeName : simpl never.

(** What the files are meant to be: the current generation of lines and, newest
    first, the past ones that are kept. *)
Record generations := Gens { current : list string; past : list (list string) }.
Definition spec_write (o : Options) (line : string) (g : generations) : generations :=
  let n := str_len (join (current g)) in
  if bool_decide (Options.MaxFileBytes o < n + str_len line) && bool_decide (0 < n)
  then Gens [line] (take (Z.to_nat (Options.MaxFiles o)) (current g :: past g))
  else Gens (current g ++ [line]) (past g).

Definition packed (o : Options) (lines : list string) : file :=
  if Options.Compress o then Gzip (join lines) else Plain (join lines).
Record holds (o : Options) (g : generations) (fs : gmap string file) : Prop := {
  ho_current : fs !! activeName = Some (Plain (join (current g)));
  ho_past : ∀ k, fs !! rotatedName o (Z.of_nat k + 1) = packed o <$> past g !! k;
  ho_length : (length (past g) ≤ Z.to_nat (Options.MaxFiles o))%nat }.

Section shift.
Context (o : Options).
Let g (fs : gmap string file) (k : nat) : option file := fs !! rotatedName o (Z.of_nat k + 1).

Lemma rename_shift (n : nat) (fs : gmap string file) k :
  g (rename (rotatedName o (Z.of_nat n + 1)) (rotatedName o (Z.of_nat n + 1 + 1)) fs) k =
  match g fs n with
  | Some f => if decide (k = S n) then Some f else if decide (k = n) then None else g fs k
  | None => g fs k
  end.
Proof.
  unfold rename, g. destruct (fs !! _) as [f|] eqn:E; [|done].
  replace (Z.of_nat n + 1 + 1) with (Z.of_nat (S n) + 1) by lia.
  destruct (decide (k = S n)) as [->|Hk]; [by rewrite lookup_insert_eq|].
  rewrite lookup_insert_ne by (intros Hc; apply rotatedName_inj in Hc; lia).
  destruct (decide (k = n)) as [->|Hk']; [by rewrite lookup_delete_eq|].
  rewrite lookup_delete_ne; [done|]. intros Hc. apply rotatedName_inj in Hc. lia.
Qed.

Lemma shift_lookup (n : nat) (fs : gmap string file) :
  (Z.of_nat n < Options.MaxFiles o) → (∀ k, (k < n)%nat → g fs k = None → g fs (S k) = None) →
  ∀ k, g (shift_down no_faults o n fs) k =
    if decide (n = 0)%nat then g fs k
    else if decide (k = 0)%nat then None else if decide (k ≤ n)%nat then g fs (pred k) else g fs k.
Proof.
  revert fs. induction n as [|n IH]; intros fs Hn Hgap k; [done|].
  cbn [shift_down no_faults ShiftFails]. rewrite bool_decide_false by lia.
  replace (Z.of_nat (S n)) with (Z.of_nat n + 1) by lia.
  set (fs1 := rename _ _ fs).
  assert (∀ k, g fs1 k = match g fs n with Some f => if decide (k = S n) then Some f else
    if decide (k = n) then None else g fs k | None => g fs k end) as H1 by (intros; apply rename_shift).
  rewrite IH; [|lia|].
  - destruct (g fs n) eqn:En; rewrite !H1; repeat case_decide; try done; try lia;
      try (replace k with (S n) by lia; cbn); try (replace k with 0%nat by lia); try congruence.
    all: rewrite En; apply Hgap; [lia|done].
  - intros j Hj. destruct (g fs n) eqn:En; rewrite !H1; repeat case_decide; try done; try lia; apply Hgap; lia.
Qed.

Lemma shift_active f (n : nat) (fs : gmap string file) : shift_down f o n fs !! activeName = fs !! activeName.
Proof.
  revert fs. induction n as [|n IH]; intros fs; [done|]. cbn [shift_down]. rewrite IH.
  destruct (ShiftFails f _); [done|]. case_bool_decide.
  - apply lookup_delete_ne, rotatedName_active.
  - unfold rename. destruct (fs !! rotatedName _ _); [|done].
    rewrite lookup_insert_ne by apply rotatedName_active. apply lookup_delete_ne, rotatedName_active.
Qed.
End shift.

Definition sized (w : Writer) (d : Disk) (g : generations) : Prop :=
  wfile w = OpenFile ∧ size w = str_len (join (current g)) ∧ 0 < Options.MaxFiles (opts w) ∧ holds (opts w) g (files d).

Lemma join_snoc l s : join (l ++ [s]) = join l +:+ s.
Proof.
  induction l as [|x l IH]; [unfold join; cbn; by rewrite app_nil_str|].
  change (x +:+ join (l ++ [s]) = (x +:+ join l) +:+ s). rewrite IH. apply app_assoc_str.
Qed.

Lemma contents_holds o g fs : holds o g fs → contents activeName fs = join (current g).
Proof. intros H. unfold contents. by rewrite (ho_current _ _ _ H). Qed.

(** The past after [shift_down]: one place further, the first place free. *)
Lemma shifted o g fs k : 0 < Options.MaxFiles o → holds o g fs →
  let fs' := shift_down no_faults o (Z.to_nat (Options.MaxFiles o - 1)) fs in
  (S k < Z.to_nat (Options.MaxFiles o))%nat → fs' !! rotatedName o (Z.of_nat (S k) + 1) = packed o <$> past g !! k.
Proof.
  intros HM [_ Hp Hl]. cbv zeta. intros Hk. rewrite shift_lookup; [|lia|].
  - repeat case_decide; try lia. apply Hp.
  - intros j _ Hj. rewrite Hp in *. apply fmap_None. apply fmap_None in Hj.
    apply lookup_ge_None in Hj. apply lookup_ge_None. lia.
Qed.

Lemma shifted_beyond o g fs k : 0 < Options.MaxFiles o → holds o g fs →
  let fs' := shift_down no_faults o (Z.to_nat (Options.MaxFiles o - 1)) fs in
  (Z.to_nat (Options.MaxFiles o) ≤ k)%nat → (0 < k)%nat → fs' !! rotatedName o (Z.of_nat k + 1) = None.
Proof.
  intros HM [_ Hp Hl]. cbv zeta. intros Hk H0. rewrite shift_lookup; [|lia|].
  - assert (fs !! rotatedName o (Z.of_nat k + 1) = None).
    { rewrite Hp. apply fmap_None, lookup_ge_None. lia. }
    repeat case_decide; try lia; done.
  - intros j _ Hj. rewrite Hp in *. apply fmap_None. apply fmap_None in Hj.
    apply lookup_ge_None in Hj. apply lookup_ge_None. lia.
Qed.

Lemma retire_ok o fs g : fs !! activeName = Some (Plain (join (current g))) →
  ∃ fs', retire no_faults o fs = (true, fs') ∧ fs' !! activeName = None ∧
    fs' !! rotatedName o 1 = Some (packed o (current g)) ∧
    ∀ k, fs' !! rotatedName o (Z.of_nat (S k) + 1) = fs !! rotatedName o (Z.of_nat (S k) + 1).
Proof.
  intros Ha. unfold retire, packed, gzipFile. cbn [no_faults GzipEnds RemoveFails RenameFails].
  assert (∀ k, rotatedName o 1 ≠ rotatedName o (Z.of_nat (S k) + 1)) as Hne.
  { intros k Hc. apply rotatedName_inj in Hc. lia. }
  destruct (Options.Compress o); cbn [negb].
  - eexists. split_and!; [done|apply lookup_delete_eq| |].
    + rewrite lookup_delete_ne by (intros Hc; symmetry in Hc; by apply rotatedName_active in Hc).
      rewrite lookup_insert_eq. unfold contents. by rewrite Ha.
    + intros k. rewrite lookup_delete_ne by (intros Hc; symmetry in Hc; by apply rotatedName_active in Hc).
      by apply lookup_insert_ne.
  - unfold rename. rewrite Ha. eexists. split_and!; [done| |apply lookup_insert_eq|].
    + rewrite lookup_insert_ne by apply rotatedName_active. apply lookup_delete_eq.
    + intros k. rewrite lookup_insert_ne by done.
      apply lookup_delete_ne. intros Hc. symmetry in Hc. by apply rotatedName_active in Hc.
Qed.

Lemma rotate_refines w d g : sized w d g →
  ∃ w' d', rotateLocked no_faults w d = (true, w', d') ∧ opts w' = opts w ∧
    sized w' d' (Gens [] (take (Z.to_nat (Options.MaxFiles (opts w))) (current g :: past g))).
Proof.
  intros (Hf & Hs & HM & Hh). unfold rotateLocked. rewrite Hf. cbn [no_faults CloseFails orb].
  rewrite (bool_decide_false (OpenFile = ClosedFile)) by done. cbn [set_file opts size].
  destruct (retire_ok (opts w) (shift_down no_faults (opts w) (Z.to_nat (Options.MaxFiles (opts w) - 1)) (files d)) g)
    as (fs' & -> & Ha & H1 & Hrest); [rewrite shift_active; apply Hh|].
  cbn [negb]. unfold openActiveLocked. cbn. eexists _, _. split; [done|]. cbn. split; [done|].
  unfold sized. cbn. split_and!; [done| |done|].
  - unfold contents. by rewrite Ha.
  - constructor; cbn [current past].
    + rewrite lookup_insert_eq. unfold contents. by rewrite Ha.
    + intros k. rewrite lookup_insert_ne by (intros Hc; symmetry in Hc; by apply rotatedName_active in Hc).
      destruct k as [|k].
      * replace (Z.of_nat 0 + 1) with 1 by lia. rewrite H1, lookup_take, decide_True by lia. done.
      * rewrite Hrest. destruct (decide (S k < Z.to_nat (Options.MaxFiles (opts w)))%nat) as [Hk|Hk].
        -- rewrite (shifted _ g) by done. by rewrite lookup_take, decide_True.
        -- rewrite (shifted_beyond _ g) by (lia || done). rewrite lookup_take_ge; [done|lia].
    + rewrite length_take. lia.
Qed.

Lemma write_refines r text w d g : marshal_record r = Some text → sized w d g →
  ∃ w' d', write no_faults r w d = (w', d') ∧ opts w' = opts w ∧ sized w' d' (spec_write (opts w) (text +:+ newline) g).
Proof.
  intros Hm Hsz. pose proof Hsz as (Hf & Hs & HM & Hh).
  unfold write. rewrite Hm, Hf. rewrite (bool_decide_false (OpenFile = NilFile)) by done.
  assert (∀ w1 d1 g1, sized w1 d1 g1 → opts w1 = opts w →
    ∃ w' d', put_line no_faults (text +:+ newline) w1 d1 = (w', d') ∧ opts w' = opts w ∧
      sized w' d' (Gens (current g1 ++ [text +:+ newline]) (past g1))) as Hput.
  { intros w1 d1 g1 (Hf1 & Hs1 & HM1 & Hh1) Ho1. unfold put_line. rewrite Hf1.
    rewrite (bool_decide_false (OpenFile = ClosedFile)) by done. cbn. eexists _, _. split; [done|].
    split; [done|]. unfold sized. cbn. split_and!; [done| |done|].
    - by rewrite join_snoc, !str_len_app, Hs1.
    - constructor; cbn [current past]; [| |apply Hh1].
      + unfold append. rewrite lookup_insert_eq, join_snoc, (contents_holds _ _ _ Hh1). done.
      + intros k. unfold append. rewrite lookup_insert_ne; [apply Hh1|].
        intros Hc. symmetry in Hc. by apply rotatedName_active in Hc. }
  unfold spec_write, too_big. rewrite <-Hs. destruct (_ && _).
  - destruct (rotate_refines w d g Hsz) as (w1 & d1 & -> & Ho1 & Hsz1). cbn [negb].
    destruct (Hput _ _ _ Hsz1 Ho1) as (w' & d' & E & Ho' & Hsz'). eexists _, _. split; [exact E|]. done.
  - cbn [negb]. destruct (Hput w d g Hsz eq_refl) as (w' & d' & E & Ho' & Hsz'). eexists _, _. split; [exact E|]. done.
Qed.

(** The lines on disk, oldest first. *)
Definition all_lines (g : generations) : list string := concat (rev (past g)) ++ current g.
(** The file is within the size, or a single record. *)
Definition within (o : Options) (lines : list string) : Prop :=
  str_len (join lines) ≤ Options.MaxFileBytes o ∨ ∃ line, line ∈ lines ∧ join lines = line.
Definition tidy (o : Options) (g : generations) : Prop := Forall (within o) (current g :: past g).
Definition write_all (recs : list LogRecord) (w : Writer) (d : Disk) : Writer * Disk :=
  foldl (λ st r, write no_faults r st.1 st.2) (w, d) recs.

Lemma str_len_nonneg s : 0 ≤ str_len s.
Proof. unfold str_len. lia. Qed.
Lemma str_len_zero s : str_len s ≤ 0 → s = EmptyString.
Proof. destruct s; [done|]. unfold str_len. cbn. lia. Qed.

Lemma spec_write_tidy o line g : tidy o g → tidy o (spec_write o line g).
Proof.
  unfold tidy, spec_write. intros Ht. apply Forall_cons in Ht as [Hc Hp].
  assert (within o [line]) as H1.
  { right. exists line. split; [by left|]. unfold join. cbn. apply app_nil_str. }
  destruct (_ && _) eqn:E; cbn [current past].
  - constructor; [done|]. by apply Forall_take, Forall_cons.
  - constructor; [|done]. apply andb_false_iff in E as [E|E]; apply bool_decide_eq_false in E.
    + left. rewrite join_snoc, str_len_app. lia.
    + right. exists line. split; [apply elem_of_app; right; by left|].
      rewrite join_snoc, (str_len_zero (join (current g))) by lia. done.
Qed.

Lemma concat_rev_drop {A} n (l : list (list A)) : ∃ k, concat (rev (take n l)) = drop k (concat (rev l)) ∧
  (k ≤ length (concat (rev l)))%nat ∧ ((length l ≤ n)%nat → k = 0%nat).
Proof.
  assert (concat (rev l) = concat (rev (drop n l)) ++ concat (rev (take n l))) as ->.
  { by rewrite <-concat_app, <-rev_app_distr, take_drop. }
  exists (length (concat (rev (drop n l)))). split_and!.
  - by rewrite drop_app_length.
  - rewrite length_app. lia.
  - intros Hl. by rewrite drop_ge.
Qed.

Lemma spec_write_lines o line g : (length (past g) ≤ Z.to_nat (Options.MaxFiles o))%nat →
  ∃ k, all_lines (spec_write o line g) = drop k (all_lines g ++ [line]) ∧ (k ≤ length (all_lines g))%nat ∧
    ((0 < k)%nat → length (past (spec_write o line g)) = Z.to_nat (Options.MaxFiles o)) ∧
    (length (past g) ≤ length (past (spec_write o line g)) ≤ Z.to_nat (Options.MaxFiles o))%nat.
Proof.
  intros Hl. unfold spec_write, all_lines. destruct (_ && _); cbn [current past].
  - destruct (concat_rev_drop (Z.to_nat (Options.MaxFiles o)) (current g :: past g)) as (k & E & Hk & H0).
    cbn [rev] in *. rewrite concat_app in *. cbn [concat] in *. rewrite app_nil_r in *.
    exists k. split_and!; [rewrite E; symmetry; by apply drop_app_le|done| | |]; rewrite length_take; cbn [length].
    + intros Hpos. destruct (decide (S (length (past g)) ≤ Z.to_nat (Options.MaxFiles o))%nat); [|lia].
      rewrite H0 in Hpos by done. lia.
    + lia.
    + lia.
  - exists 0%nat. rewrite drop_0, app_assoc. split_and!; [done|lia|lia|lia|done].
Qed.

Lemma write_all_snoc recs r w d :
  write_all (recs ++ [r]) w d = write no_faults r (write_all recs w d).1 (write_all recs w d).2.
Proof. unfold write_all. by rewrite foldl_app. Qed.

Lemma write_all_refines recs lines w d g : sized w d g → tidy (opts w) g →
  Forall2 (λ r l, marshal_record r = Some l) recs lines →
  ∃ w' d' g' k, write_all recs w d = (w', d') ∧ opts w' = opts w ∧ sized w' d' g' ∧ tidy (opts w) g' ∧
    all_lines g' = drop k (all_lines g ++ ((λ l, l +:+ newline) <$> lines)) ∧
    (k ≤ length (all_lines g ++ ((λ l, l +:+ newline) <$> lines)))%nat ∧
    ((0 < k)%nat → length (past g') = Z.to_nat (Options.MaxFiles (opts w))).
Proof.
  intros Hs Ht. revert lines. induction recs as [|r recs IH] using rev_ind; intros lines Hrl.
  - apply Forall2_nil_inv_l in Hrl as ->. exists w, d, g, 0%nat. rewrite app_nil_r, drop_0. split_and!; try done; lia.
  - apply Forall2_app_inv_l in Hrl as (ls & ls' & Hrl & Hr & ->).
    apply Forall2_cons_inv_l in Hr as (l & ? & Hm & Hnil & ->). apply Forall2_nil_inv_l in Hnil as ->.
    destruct (IH ls Hrl) as (w1 & d1 & g1 & k1 & E1 & Ho1 & Hs1 & Ht1 & Hl1 & Hk1 & Hf1).
    destruct (write_refines r l w1 d1 g1 Hm Hs1) as (w2 & d2 & E2 & Ho2 & Hs2). rewrite Ho1 in *.
    assert (length (past g1) ≤ Z.to_nat (Options.MaxFiles (opts w)))%nat as Hpl.
    { rewrite <-Ho1. apply Hs1. }
    destruct (spec_write_lines (opts w) (l +:+ newline) g1 Hpl) as (k2 & El & Hk2 & Hf2 & Hmono).
    exists w2, d2, (spec_write (opts w) (l +:+ newline) g1), (k1 + k2)%nat.
    rewrite write_all_snoc, E1. cbn [fst snd]. rewrite fmap_app, app_assoc. cbn [fmap list_fmap].
    split_and!; [done|congruence|done|by apply spec_write_tidy| | |].
    + rewrite El, Hl1, <-drop_app_le, drop_drop by done. done.
    + rewrite length_app. rewrite Hl1, length_drop in Hk2. cbn. lia.
    + intros Hk. destruct (decide (k1 = 0)%nat); [apply Hf2; lia|]. rewrite Hf1 in * by lia. lia.
Qed.

(** C22. Rotation loses only the oldest lines.  On a disk that does not fail, whatever
    is written to an opened log, a log left by an earlier run included: the files are
    the last generations of the lines ever logged, in order, newest in [.1]; a line is
    missing only when the configured number of rotated files is there; and no file
    exceeds the configured size unless it holds a single record. *)
Theorem rotation_keeps_newest f now o d w0 d0 g recs lines :
  Open f now o d = Ok (w0, d0) → holds (opts w0) g (files d0) → tidy (opts w0) g →
  Forall2 (λ r l, marshal_record r = Some l) recs lines →
  ∃ g' k, let d' := (write_all recs w0 d0).2 in
    holds (opts w0) g' (files d') ∧ tidy (opts w0) g' ∧
    all_lines g' = drop k (all_lines g ++ ((λ l, l +:+ newline) <$> lines)) ∧
    ((0 < k)%nat → length (past g') = Z.to_nat (Options.MaxFiles (opts w0))).
Proof.
  intros Ho Hh Ht Hrl. assert (sized w0 d0 g) as Hs.
  { pose proof (Open_fresh _ _ _ _ _ _ Ho) as (Hop & _ & _ & Hf & _). unfold sized. split_and!; [done| | |done].
    - rewrite <-(contents_holds _ _ _ Hh). revert Ho. unfold Open. case_bool_decide; [done|].
      unfold mbind, result_bind. destruct (loadStats _); [|done]. unfold openActiveLocked. destruct (OpenFails f); [done|].
      intros [= <- <-]. cbn. unfold contents. rewrite lookup_insert_eq. done.
    - rewrite Hop. cbn. unfold Options.positive_or. case_bool_decide; [done|lia]. }
  destruct (write_all_refines recs lines w0 d0 g Hs Ht Hrl) as (w' & d' & g' & k & E & Ho' & Hs' & Ht' & Hl & _ & Hk).
  exists g', k. rewrite E. cbn. split_and!; [|done|done|done]. rewrite <-Ho'. apply Hs'.
Qed.

(** ** Which records can be written *)


Lemma clip_loggable b n : raw_ok (clip b n) = true.
Proof. unfold raw_ok, clip. rewrite parse_encode_string. apply orb_true_r. Qed.
Lemma clip_body_loggable limit b : raw_ok (clip_body limit b) = true ↔ limit < str_len b ∨ raw_ok b = true.
Proof.
  unfold clip_body. case_bool_decide; [|intuition lia]. rewrite clip_loggable. intuition.
Qed.
Lemma marshal_record_ok r : is_Some (marshal_record r) ↔ raw_ok (SynapseBody r) = true ∧ raw_ok (NativeBody r) = true.
Proof.
  unfold marshal_record. rewrite <-andb_true_iff. destruct (_ && _); [by split; [|eauto]|].
  split; [intros H; by apply is_Some_None in H|done].
Qed.

(** C39. What can be logged.  A record, as it is queued, can be written exactly if
    each of its bodies is absent, omitted, JSON, or longer than the limit, in which
    case it is cut to a JSON string; a short body that is not JSON makes the whole
    record unwritable.  No list of a queued record exceeds the limit, and the counts
    stay those of the full lists. *)
Theorem loggable_exact now o r : 0 < Options.ListLimit o →
  let q := prepared now o r in
  let ok body := Options.BodyLimit o < 0 ∨ Options.BodyLimit o < str_len body ∨ body = EmptyString ∨ is_ok (parse body) = true in
  (is_Some (marshal_record q) ↔ ok (SynapseBody r) ∧ ok (NativeBody r)) ∧
  ∀ d, rec_Diff q = Some d → ∃ d0, rec_Diff r = Some d0 ∧ Forall2 (λ f f0,
    (∀ l l0, (l, l0) ∈ [(MissingFromNative f, MissingFromNative f0); (ExtraInNative f, ExtraInNative f0);
                        (ContentMismatch f, ContentMismatch f0)] →
       l `prefix_of` l0 ∧ Z.of_nat (length l) ≤ Options.ListLimit o ∧ (l ≠ l0 → ListsTruncated f = true)) ∧
    SynapseCount f = SynapseCount f0 ∧ NativeCount f = NativeCount f0) (Fields d) (Fields d0).
Proof.
  intros HL. cbv zeta. split.
  - rewrite marshal_record_ok. unfold prepared, truncate. case_bool_decide as Hneg.
    + cbn. split; [by intros _; split; left|done].
    + cbn. rewrite !clip_body_loggable. unfold raw_ok. rewrite !orb_true_iff, !bool_decide_eq_true. intuition lia.
  - intros d E. destruct (rec_Diff r) as [d0|] eqn:E0; [|unfold prepared, truncate in E; case_bool_decide; cbn in E; by rewrite E0 in E].
    exists d0. split; [done|].
    assert (Fields d = truncate_field (Options.ListLimit o) <$> Fields d0) as ->.
    { unfold prepared, truncate in E. case_bool_decide; cbn in E; rewrite E0 in E; by injection E as <-. }
    clear E E0. induction (Fields d0) as [|f fs IH]; constructor; [|exact IH]. cbn. split; [|done].
    assert (∀ l0 : list string, clip_list (Options.ListLimit o) l0 `prefix_of` l0 ∧
      Z.of_nat (length (clip_list (Options.ListLimit o) l0)) ≤ Options.ListLimit o ∧
      (clip_list (Options.ListLimit o) l0 ≠ l0 → longer (Options.ListLimit o) l0 = true)) as Hclip.
    { intros l0. unfold clip_list, longer. split_and!.
      - exists (drop (Z.to_nat (Options.ListLimit o)) l0). by rewrite take_drop.
      - rewrite length_take. lia.
      - intros Hne. apply bool_decide_eq_true. destruct (decide (Options.ListLimit o < Z.of_nat (length l0))); [done|].
        exfalso. apply Hne, take_ge. lia. }
    intros l l0 Hin. rewrite !elem_of_cons, elem_of_nil in Hin.
    destruct Hin as [[= -> ->]|[[= -> ->]|[[= -> ->]|[]]]];
      (split_and!; [apply Hclip|apply Hclip|intros Hne; apply Hclip in Hne; rewrite Hne, ?orb_true_r; done]).
Qed.

(** ** Restarts and failures *)

(** A restart forgets the losses.  The counters of comparisons, the start of the
    run, the records logged and the rotations survive, but the first checkpoint of
    the new process sets the dropped and write-error counters of [stats.json] to those
    of this process, zero at first: the report that warned that the log is incomplete
    no longer does. *)
Theorem restart_forgets_losses f now o d w0 d0 s f' now' w1 d1 t0 now'' :
  stats_json d = SavedStats s → Since s = Some t0 → per_endpoint s ≠ ∅ → 0 < Dropped s →
  Open f now o d = Ok (w0, d0) → SaveFails f' = false → flushStats f' now' w0 d0 = (w1, d1) →
  (∃ s', stats_json d1 = SavedStats s' ∧ Since s' = Since s ∧ Restarts s' = i64 (Restarts s + 1) ∧
    Compared s' = Compared s ∧ Matched s' = Matched s ∧ Mismatched s' = Mismatched s ∧ per_endpoint s' = per_endpoint s ∧
    Logged s' = Logged s ∧ Rotations s' = Rotations s ∧ Dropped s' = 0 ∧ WriteErrors s' = 0) ∧
  (∃ rep, Report now'' d = Ok rep ∧ "The log is incomplete."%string ∈ rp_warns rep) ∧
  (∃ rep, Report now'' d1 = Ok rep ∧ rp_warns rep = []).
Proof.
  intros Hs Ht He Hd Ho Hf' Hfl. apply Open_fresh in Ho as (_ & _ & _ & _ & Hd0 & He0 & s1 & Hs1 & Hst).
  rewrite Hs in Hs1. injection Hs1 as <-. unfold flushStats in Hfl. rewrite Hf' in Hfl. injection Hfl as <- <-.
  assert (∀ e : gmap string EndpointStats, e ≠ ∅ → sort_strings (base.elements (dom e)) ≠ []) as Hne.
  { intros e Hemp E. apply Hemp, map_empty. intros i. apply eq_None_not_Some. intros Hi.
    apply elem_of_dom, elem_of_elements, sort_strings_elem_of in Hi. rewrite E in Hi. by apply not_elem_of_nil in Hi. }
  split_and!.
  - eexists. split; [reflexivity|]. unfold Snapshot. rewrite Hst, Hd0, He0. cbn. rewrite Ht. cbn. by split_and!.
  - unfold Report. rewrite Hs. cbn. rewrite Ht. rewrite (bool_decide_false (sort_strings _ = [])) by auto.
    eexists. split; [done|]. cbn. rewrite (bool_decide_true (0 < Dropped s)) by done. by left.
  - unfold Report, Snapshot. cbn. rewrite Hst, Hd0, He0. cbn. rewrite (bool_decide_false (sort_strings _ = [])) by auto.
    eexists. by split.
Qed.

Lemma write_without_file f r w d : wfile w ≠ OpenFile →
  ∃ w', write f r w d = (w', d) ∧ stats w' = stats w ∧ wfile w' = wfile w.
Proof.
  intros Hw. unfold write. destruct (marshal_record r); [|by eexists].
  destruct (wfile w) eqn:Ew; [by eexists|done|]. rewrite (bool_decide_false (ClosedFile = NilFile)) by done.
  destruct (too_big w _).
  - unfold rotateLocked. rewrite Ew, (bool_decide_true (ClosedFile = ClosedFile)), orb_true_r by done. by eexists.
  - unfold put_line. cbn [negb]. rewrite Ew, (bool_decide_true (ClosedFile = ClosedFile)) by done. by eexists.
Qed.

(** A rotation that fails is the end of the log.  Once [rotateLocked] has
    returned an error (the disk full while compressing, say), no step of the process
    opens the file again: whatever happens afterwards, nothing more is logged and no
    file changes, although the process goes on. *)
Theorem failed_rotation_is_final f w d w1 d1 w2 d2 h :
  rotateLocked f w d = (false, w1, d1) → reach w1 d1 w2 d2 h →
  files d2 = files d1 ∧ Logged (stats w2) = Logged (stats w1) ∧ wfile w2 ≠ OpenFile.
Proof.
  intros E Hr. assert (wfile w1 ≠ OpenFile) as Hf.
  { revert E. unfold rotateLocked, openActiveLocked. repeat (split_match; cbn); intros; simplify_eq; done. }
  clear E. induction Hr as [|o w' d' h w'' d'' _ (IHd & IHl & IHf) E]; [done|].
  destruct o; cbn [act] in E; repeat split_match; simplify_eq; try done.
  - unfold Log. repeat case_match; done.
  - unfold Observe. destruct matched; done.
  - match type of E with write ?f ?r ?w ?d = _ => destruct (write_without_file f r w d IHf) as (w2 & E2 & Hst & Hf2) end.
    rewrite E2 in E. injection E as <- <-. cbn in *. by rewrite Hst, Hf2.
  - unfold flushStats in *. repeat split_match; simplify_eq; done.
  - unfold flushStats in *. repeat split_match; simplify_eq; done.
Qed.

(** ** [Close] against [Log]

    The read-write lock [queueMu], one access at a time.  A request holds the read
    lock from its check of [closed] to its send; [Close] holds the write lock from its
    own check to the close of the channel.  A send on a closed channel, or a second
    close, panics. *)
Module Handoff.
Inductive sender := SIdle | SLocked | SSending | SDone.
Inductive closer := CIdle | CLocked | CFlagged | CDone.
Record t := Mk { senders : list sender; closers : list closer; flag : bool; chan_closed : bool; panicked : bool }.

Definition reading (s : sender) : bool := match s with SLocked | SSending => true | _ => false end.
Definition writing (c : closer) : bool := match c with CLocked | CFlagged => true | _ => false end.
Definition set_sender (i : nat) (s : sender) (st : t) : t :=
  Mk (<[i := s]> (senders st)) (closers st) (flag st) (chan_closed st) (panicked st).
Definition set_closer (j : nat) (c : closer) (st : t) : t :=
  Mk (senders st) (<[j := c]> (closers st)) (flag st) (chan_closed st) (panicked st).

Inductive step : t → t → Prop :=
| RLock st i : senders st !! i = Some SIdle → existsb writing (closers st) = false → step st (set_sender i SLocked st)
| Checked st i : senders st !! i = Some SLocked → step st (set_sender i (if flag st then SDone else SSending) st)
| Sent st i : senders st !! i = Some SSending →
    step st (set_sender i SDone (Mk (senders st) (closers st) (flag st) (chan_closed st) (panicked st || chan_closed st)))
| WLock st j : closers st !! j = Some CIdle → existsb writing (closers st) = false → existsb reading (senders st) = false →
    step st (set_closer j CLocked st)
| Flagged st j : closers st !! j = Some CLocked →
    step st (if flag st then set_closer j CDone st
             else set_closer j CFlagged (Mk (senders st) (closers st) true (chan_closed st) (panicked st)))
| Closed st j : closers st !! j = Some CFlagged →
    step st (set_closer j CDone (Mk (senders st) (closers st) (flag st) true (panicked st || chan_closed st))).

Definition start (n m : nat) : t := Mk (replicate n SIdle) (replicate m CIdle) false false false.

Lemma existsb_lookup {A} (f : A → bool) l i x : existsb f l = false → l !! i = Some x → f x = false.
Proof.
  intros H Hi. apply not_true_iff_false. intros Hx. apply not_true_iff_false in H. apply H, existsb_exists.
  exists x. split; [|done]. apply list_elem_of_In. by eapply list_elem_of_lookup_2.
Qed.

Record inv (st : t) : Prop := {
  i_apart : ∀ i j s c, senders st !! i = Some s → closers st !! j = Some c → reading s = true → writing c = true → False;
  i_one : ∀ j j' c c', closers st !! j = Some c → closers st !! j' = Some c' → writing c = true → writing c' = true → j = j';
  i_sending : ∀ i, senders st !! i = Some SSending → flag st = false;
  i_open : flag st = false → chan_closed st = false;
  i_flagged : ∀ j, closers st !! j = Some CFlagged → chan_closed st = false ∧ flag st = true;
  i_calm : panicked st = false }.

Lemma start_inv n m : inv (start n m).
Proof.
  constructor; cbn; try done.
  - intros i j s c Hi _ Hs _. apply lookup_replicate_1 in Hi as [-> _]. done.
  - intros j j' c c' Hj _ Hc _. apply lookup_replicate_1 in Hj as [-> _]. done.
  - intros j Hj. apply lookup_replicate_1 in Hj as [? _]. done.
Qed.

(** An updated entry, or an old one. *)
Ltac at_index H :=
  rewrite list_lookup_insert_Some in H; destruct H as [(? & ? & _)|(?Hne & H)]; subst.

Lemma handoff_step_inv st st' : inv st → step st st' → inv st'.
Proof.
  intros Hinv Hstep. destruct Hstep as [st i Hi Hw|st i Hi|st i Hi|st j Hj Hw Hr|st j Hj|st j Hj];
    destruct Hinv as [Ha Ho Hs Hop Hfl Hp].
  - constructor; cbn; try done.
    + intros i' j s c Hi' Hj Hrs Hwc. by rewrite (existsb_lookup _ _ _ _ Hw Hj) in Hwc.
    + intros i' Hi'. at_index Hi'; [done|eauto].
  - constructor; cbn; try done.
    + intros i' j s c Hi' Hj Hrs Hwc. at_index Hi'; [by eapply (Ha _ _ SLocked)|eauto].
    + intros i' Hi'. at_index Hi'; [by destruct (flag st)|eauto].
  - constructor; cbn; try done.
    + intros i' j s c Hi' Hj Hrs Hwc. at_index Hi'; [done|eauto].
    + intros i' Hi'. at_index Hi'; [done|eauto].
    + rewrite Hp. cbn. eauto.
  - constructor; cbn; try done.
    + intros i j' s c Hi Hj' Hrs Hwc. by rewrite (existsb_lookup _ _ _ _ Hr Hi) in Hrs.
    + intros j1 j2 c c' H1 H2 W1 W2. at_index H1; at_index H2; try done.
      * by rewrite (existsb_lookup _ _ _ _ Hw H2) in W2.
      * by rewrite (existsb_lookup _ _ _ _ Hw H1) in W1.
      * eauto.
    + intros j' Hj'. at_index Hj'; [done|eauto].
  - destruct (flag st) eqn:Ef; constructor; cbn; try done.
    + intros i j' s c Hi Hj' Hrs Hwc. at_index Hj'; [done|eauto].
    + intros j1 j2 c c' H1 H2 W1 W2. at_index H1; at_index H2; try done; eauto.
    + rewrite Ef. eauto.
    + by rewrite Ef.
    + intros j' Hj'. at_index Hj'; [done|]. rewrite Ef. eauto.
    + intros i j' s c Hi Hj' Hrs Hwc. at_index Hj'; [by eapply (Ha _ _ s CLocked)|eauto].
    + intros j1 j2 c c' H1 H2 W1 W2. at_index H1; at_index H2; try done.
      * by apply (Ho _ _ CLocked c').
      * by apply (Ho _ _ c CLocked).
      * eauto.
    + intros i Hi. exfalso. by apply (Ha i j SSending CLocked).
    + intros j' Hj'. split; [by apply Hop|done].
  - destruct (Hfl j Hj) as [Hc Hf]. constructor; cbn; try done.
    + intros i j' s c Hi Hj' Hrs Hwc. at_index Hj'; [done|eauto].
    + intros j1 j2 c c' H1 H2 W1 W2. at_index H1; at_index H2; try done; eauto.
    + by rewrite Hf.
    + intros j' Hj'. at_index Hj'; [done|]. exfalso. by apply Hne, (Ho _ _ CFlagged CFlagged).
    + by rewrite Hp, Hc.
Qed.

(** No shutdown panics.  Under every interleaving of any number of requests that
    log with any number of calls of [Close], nothing is sent on the closed queue and
    the queue is closed at most once. *)
Theorem close_never_panics n m st : rtc step (start n m) st → panicked st = false.
Proof.
  intros H. apply i_calm. revert H. generalize (start_inv n m). generalize (start n m).
  intros s0 H0 H. induction H; [done|]. eauto using handoff_step_inv.
Qed.
End Handoff.

(** ** The verdict of the report *)
Definition observed (vs : list (Z * string * bool)) (s : Stats) : Stats :=
  foldl (λ s v, observe v.1.1 v.1.2 v.2 s) s vs.
Definition about (endpoint : string) (vs : list (Z * string * bool)) : list (Z * string * bool) :=
  filter (λ v, v.1.2 = endpoint) vs.
Definition with_outcome (matched : bool) (vs : list (Z * string * bool)) : list (Z * string * bool) :=
  filter (λ v, v.2 = matched) vs.
Definition count {A} (l : list A) : Z := Z.of_nat (length l).

Lemma filter_last {A} (keep : A → Prop) `{∀ y, Decision (keep y)} (y : A) (ys : list A) :
  filter keep (ys ++ [y]) = if decide (keep y) then filter keep ys ++ [y] else filter keep ys.
Proof.
  rewrite filter_app. case_decide; [by rewrite filter_cons_True by done|]. rewrite filter_cons_False by done. apply app_nil_r.
Qed.
Lemma count_snoc {A} (l : list A) x : count (l ++ [x]) = count l + 1.
Proof. unfold count. rewrite length_app. cbn. lia. Qed.

Record tallies (vs : list (Z * string * bool)) (c m n : Z) : Prop := {
  ta_matched : m = count (with_outcome true vs);
  ta_mismatched : n = count (with_outcome false vs);
  ta_compared : c = count vs }.

Lemma tallies_snoc vs v c m n : count vs < 2 ^ 64 - 1 → tallies vs c m n →
  tallies (vs ++ [v]) (u64 (c + 1)) (u64 (m + if v.2 : bool then 1 else 0)) (u64 (n + if v.2 : bool then 0 else 1)).
Proof.
  intros Hb [-> -> ->].
  pose proof (length_filter (λ v : Z * string * bool, v.2 = true) vs).
  pose proof (length_filter (λ v : Z * string * bool, v.2 = false) vs).
  unfold count in Hb. constructor; unfold with_outcome; rewrite ?filter_last, ?count_snoc; destruct (v.2); cbn [negb];
    rewrite ?decide_True, ?decide_False, ?app_nil_r, ?count_snoc, ?Z.add_0_r by done; apply u64_small; unfold count; lia.
Qed.

(** All counters are exact, and the last mismatch is the last one's time. *)
Lemma observed_exact vs endpoint : count vs < 2 ^ 64 →
  let s := observed vs no_stats in
  let e := default no_endpoint (per_endpoint s !! endpoint) in
  tallies vs (Compared s) (Matched s) (Mismatched s) ∧
  tallies (about endpoint vs) (es_Compared e) (es_Matched e) (es_Mismatched e) ∧
  FirstMismatch e = (λ v, v.1.1) <$> head (with_outcome false (about endpoint vs)) ∧
  LastMismatch e = (λ v, v.1.1) <$> last (with_outcome false (about endpoint vs)).
Proof.
  induction vs as [|[[now ep] matched] vs IH] using rev_ind.
  { intros _. cbv zeta. split_and!; try done; by constructor. }
  rewrite count_snoc. intros Hb. cbv zeta in *. destruct IH as (H1 & H2 & H3 & H4); [lia|].
  unfold observed in *. rewrite foldl_app. cbn [foldl fst snd]. set (s := foldl _ no_stats vs) in *.
  assert (count (about endpoint vs) < 2 ^ 64 - 1) as Hab.
  { unfold count, about in *. pose proof (length_filter (λ v : Z * string * bool, v.1.2 = endpoint) vs). lia. }
  apply (tallies_snoc _ (now, ep, matched)) in H1; [|lia]. cbn [snd] in H1.
  split; [by destruct matched|]. unfold about in *. rewrite filter_last. cbn [fst snd].
  destruct (decide (ep = endpoint)) as [->|Hne].
  - apply (tallies_snoc _ (now, endpoint, matched)) in H2; [|done]. cbn [snd] in H2.
    unfold observe. destruct matched; cbn [per_endpoint Compared Matched Mismatched] in *; rewrite lookup_insert_eq;
      unfold with_outcome in *; rewrite !filter_last; cbn [snd].
    + rewrite decide_False by done. done.
    + rewrite decide_True by done. cbn [default from_option id es_Compared es_Matched es_Mismatched FirstMismatch LastMismatch].
      split_and!; [done| |by rewrite last_snoc]. rewrite H3. by destruct (filter _ (filter _ _)).
  - unfold observe. destruct matched; cbn [per_endpoint]; rewrite lookup_insert_ne by done; done.
Qed.

(** What the report says of an endpoint, after any comparisons: nothing before
    the first; not ready while the last mismatch is less than seven days old, with
    their number; else ready, on the strength of the time since the last mismatch if
    there was one, of the age of the whole log if not. *)
Theorem report_verdict_exact vs endpoint now elapsed : count vs < 2 ^ 64 →
  let mine := about endpoint vs in
  let wrong := with_outcome false mine in
  verdict now (default no_endpoint (per_endpoint (observed vs no_stats) !! endpoint)) elapsed =
    if bool_decide (mine = []) then NoComparisons
    else match last wrong with
         | Some v => if bool_decide (now - v.1.1 < promotionWindow) then NotReady (count wrong) (now - v.1.1)
                     else ReadyHistorical (count wrong) (now - v.1.1)
         | None => if bool_decide (elapsed < promotionWindow) then CleanSoFar elapsed else Ready (count mine)
         end.
Proof.
  intros Hb. cbv zeta. destruct (observed_exact vs endpoint Hb) as (_ & [_ Hn Hc] & _ & Hl). cbv zeta in *.
  set (e := default _ _) in *. unfold verdict. rewrite Hl, Hn, Hc.
  destruct (about endpoint vs) as [|v l] eqn:Ev.
  { rewrite !bool_decide_true; done. }
  rewrite !(bool_decide_false (_ = _)) by (done || unfold count; cbn; lia). rewrite <-Ev in *.
  destruct (last (with_outcome false (about endpoint vs))) as [u|] eqn:El; [|done]. cbn.
  rewrite (bool_decide_true (0 < _)); [done|].
  apply last_Some in El as [l' ->]. rewrite count_snoc. unfold count. lia.
Qed.

(** The soak is not the endpoint's: seven days after the log was started an endpoint
    is ready at its first comparison. *)
Theorem ready_without_soak :
  let day := 24 * 3600 * 1000000000 in
  let s := observe (8 * day) "state" true (observe 0 "event" true (opened 0 no_stats)) in
  verdict (8 * day) (default no_endpoint (per_endpoint s !! "state"%string)) (8 * day - default 0 (Since s)) = Ready 1.
Proof. by vm_compute. Qed.

(** With the default ten rotated files the oldest is listed before the second
    newest. *)
Theorem files_not_newest_first :
  let o := Options.applyDefaults (Options.Mk "/d" 0 0 true 0 0 0 0) in
  let d := MkDisk (list_to_map ((λ n, (n, Plain EmptyString)) <$> activeName :: (rotatedName o <$> [1; 2; 10]))) NoStatsFile in
  Files o d = ["/d/diffs.jsonl"; "/d/diffs.jsonl.1.gz"; "/d/diffs.jsonl.10.gz"; "/d/diffs.jsonl.2.gz"]%string.
Proof. by vm_compute. Qed.

(** ** Concrete runs *)
Module LogWitness.
Definition o : Options := Options.Mk "/d" 400 2 true 1 0 0 0.
Definition clean : Disk := MkDisk ∅ NoStatsFile.
Definition r : LogRecord :=
  MkRecord None KindStatus "event" "a.org" "/e" "" "$e" 200 404 1500000 42 None "" "{}" "" false.
Definition begin (d : Disk) : Writer * Disk :=
  match Open no_faults 5 o d with Ok st => st | Err _ => (MkWriter o [] false false NilFile 0 no_stats 0 0, d) end.
Definition w0 : Writer := (begin clean).1.
Definition d0 : Disk := (begin clean).2.
Lemma begun : Open no_faults 5 o clean = Ok (w0, d0).
Proof. by vm_compute. Qed.

(** Three records are logged, the second when the queue is full, the third after the
    log was closed; the first is written. *)
Definition ops : list op := [OLog 7 r; OLog 8 r; OWrite no_faults; OTick no_faults 9; OClose; OLog 10 r].
Definition run (l : list op) (st : Writer * Disk * History) : option (Writer * Disk * History) :=
  foldl (λ st o, '(w, d, h) ← st; '(w', d') ← act o w d; Some (w', d', note o w h)) (Some st) l.
Lemma run_reach l w1 d1 w d h w' d' h' : reach w1 d1 w d h → run l (w, d, h) = Some (w', d', h') → reach w1 d1 w' d' h'.
Proof.
  revert w d h. induction l as [|o' l IH]; intros w d h Hr E; [by injection E as <- <- <-|].
  unfold run in *. cbn [foldl mbind option_bind] in E. destruct (act o' w d) as [[w2 d2]|] eqn:Ea.
  - eapply IH; [|exact E]. by eapply reach_step.
  - exfalso. cbn in E. clear -E. induction l; [done|]. auto.
Qed.

Definition after : Writer * Disk * History := default (w0, d0, MkHistory 0 [] [] 0 0 0) (run ops (w0, d0, MkHistory 0 [] [] 0 0 0)).

Lemma log_accounting_witness :
  offered after.2 = 3 ∧ Dropped (Snapshot after.1.1) = 1 ∧ late after.2 = 1 ∧
  accepted after.2 = handled after.2 ++ queue after.1.1 ∧ Logged (Snapshot after.1.1) = 1.
Proof.
  assert (reach w0 d0 after.1.1 after.1.2 after.2) as Hr.
  { eapply (run_reach ops); [apply reach_start|]. by vm_compute. }
  destruct (log_accounting _ _ _ _ _ _ _ _ _ begun Hr) as (H1 & _ & H3 & H4); [by vm_compute..|].
  assert (Z.of_nat (length (accepted after.2)) = 1) as Ha by by vm_compute.
  assert (late after.2 = 1) as Hl by by vm_compute. assert (offered after.2 = 3) as Ho by by vm_compute.
  split_and!; [exact Ho|rewrite Ho, Ha, Hl in H1; lia|exact Hl|exact H3|by vm_compute].
Defined.

Lemma rotation_keeps_newest_witness :
  let recs := [r; r; r; r; r; r; r; r; r] in
  let lines := replicate 9 (default EmptyString (marshal_record r)) in
  ∃ g' k, holds (opts w0) g' (files (write_all recs w0 d0).2) ∧
    all_lines g' = drop k ([] ++ ((λ l, l +:+ newline) <$> lines)).
Proof.
  cbv zeta. destruct (rotation_keeps_newest no_faults 5 o clean w0 d0 (Gens [] []) (replicate 9 r)
    (replicate 9 (default EmptyString (marshal_record r))) begun) as (g' & k & H1 & _ & H3 & _).
  - constructor; cbn [current past].
    + by vm_compute.
    + intros k. assert (files d0 = <[activeName := Plain EmptyString]> ∅) as -> by by vm_compute.
      rewrite lookup_nil, lookup_insert_ne; [done|]. intros E. symmetry in E. by apply rotatedName_active in E.
    + cbn. lia.
  - repeat constructor. by vm_compute.
  - cbn [replicate]. repeat constructor.
  - exists g', k. split; [exact H1|exact H3].
Defined.

Definition html : LogRecord :=
  MkRecord None KindStatus "event" "a.org" "/e" "" "$e" 502 200 1500000 42 None "" "<html>" "{}" false.
Lemma loggable_exact_witness :
  is_Some (marshal_record (prepared 7 (Options.applyDefaults o) r)) ∧ marshal_record (prepared 7 (Options.applyDefaults o) html) = None.
Proof.
  destruct (loggable_exact 7 (Options.applyDefaults o) r) as [[_ H1] _]; [by vm_compute|].
  destruct (loggable_exact 7 (Options.applyDefaults o) html) as [[H2 _] _]; [by vm_compute|].
  split.
  - apply H1. split; right; right; [right; by vm_compute|by left].
  - apply eq_None_not_Some. intros H. apply H2 in H as [[H|[H|[H|H]]] _]; by vm_compute in H.
Defined.

(** A log whose last process dropped three records. *)
Definition lossy : Stats := with_losses 3 0 (observe 2 "event" true (opened 1 no_stats)).
Definition old : Disk := MkDisk ∅ (SavedStats lossy).
Lemma restart_forgets_losses_witness :
  ∃ d1 rep rep', d1 = (flushStats no_faults 9 (begin old).1 (begin old).2).2 ∧
    Report 10 old = Ok rep ∧ rp_warns rep ≠ [] ∧ Report 10 d1 = Ok rep' ∧ rp_warns rep' = [].
Proof.
  destruct (restart_forgets_losses no_faults 5 o old (begin old).1 (begin old).2 lossy no_faults 9
    (flushStats no_faults 9 (begin old).1 (begin old).2).1 (flushStats no_faults 9 (begin old).1 (begin old).2).2 1 10)
    as (_ & (rep & E & Hr) & (rep' & E' & Hr')); [by vm_compute..|].
  eexists _, rep, rep'. split; [reflexivity|]. split; [exact E|]. split; [|split; [exact E'|exact Hr']].
  intros Hn. rewrite Hn in Hr. by apply not_elem_of_nil in Hr.
Defined.

(** The disk is full when the rotated file is compressed. *)
Definition disk_full : Faults := MkFaults false (λ _, false) GzipPartial false false false None false false.
Definition failed : bool * Writer * Disk := rotateLocked disk_full w0 d0.
Definition later : Writer * Disk * History :=
  default (failed.1.2, failed.2, MkHistory 0 [] [] 0 0 0) (run [OLog 7 r; OWrite no_faults] (failed.1.2, failed.2, MkHistory 0 [] [] 0 0 0)).
Lemma failed_rotation_is_final_witness : Logged (stats later.1.1) = 0 ∧ errs later.1.1 = 1.
Proof.
  assert (reach failed.1.2 failed.2 later.1.1 later.1.2 later.2) as Hr.
  { eapply (run_reach [OLog 7 r; OWrite no_faults]); [apply reach_start|]. by vm_compute. }
  destruct (failed_rotation_is_final disk_full w0 d0 failed.1.2 failed.2 later.1.1 later.1.2 later.2) as (_ & H & _);
    [by vm_compute|exact Hr|].
  split; [|by vm_compute]. rewrite H. by vm_compute.
Defined.

Lemma close_never_panics_witness :
  ∃ st, rtc Handoff.step (Handoff.start 1 1) st ∧ Handoff.chan_closed st = true ∧ Handoff.panicked st = false.
Proof.
  assert (∃ st, rtc Handoff.step (Handoff.start 1 1) st ∧ Handoff.chan_closed st = true) as (st & Hr & Hc).
  { eexists. split.
    - eapply rtc_l; [by apply (Handoff.WLock _ 0)|]. eapply rtc_l; [by apply (Handoff.Flagged _ 0)|].
      eapply rtc_l; [by apply (Handoff.Closed _ 0)|]. apply rtc_refl.
    - done. }
  exists st. split; [exact Hr|]. split; [exact Hc|]. exact (Handoff.close_never_panics 1 1 st Hr).
Defined.

Lemma report_verdict_exact_witness :
  verdict 100 (default no_endpoint (per_endpoint (observed [(1, "event", true); (2, "event", false)]%string no_stats) !! "event"%string)) 99
  = NotReady 1 98.
Proof.
  rewrite (report_verdict_exact [(1, "event", true); (2, "event", false)]%string "event" 100 99) by by vm_compute.
  by vm_compute.
Defined.
End LogWitness.
