(* ===== verification/Compare.v ===== *)
(** * [internal/shadow]: comparing our answers with Synapse's

    The comparators ([compare.go]) and the verdict on one comparison ([runner.go],
    [state.go]).  A comparison ends in a verdict: a match, a skip with its reason, or
    a record of the disagreement as [record] is given it.  Verifying a signature
    ([fedauth]) is a parameter, as are [%q], the text of an error and whether a slot
    for the comparison was free. *)
From S2P Require Import Prelude Json JsonStream Store External Events Pducmp Wire Digest Resolver StateStream Config Native DiffLog.

Open Scope Z_scope.

Definition nonempty (d : Diff) : option Diff := if Empty d then None else Some d.

(** ** Decoding the bodies *)
Definition field_of (fields : list string) (ms : list (string * (json * string))) (f : string) : list (json * string) :=
  Struct.occurrences fields f ms.

Record stateIDsBody := SIB { sib_PDUIDs : list string; sib_AuthChainIDs : list string }.
Definition parse_state_ids (body : string) : option stateIDsBody :=
  ms ← Struct.top body;
  let f := field_of ["pdu_ids"; "auth_chain_ids"]%string ms in
  pdus ← strings_field [] 0 (f "pdu_ids"%string);
  auth ← strings_field [] 0 (f "auth_chain_ids"%string);
  Some (SIB pdus auth).

(** A [[]json.RawMessage] field. *)
Fixpoint raws_field (cur : list string) (vs : list (json * string)) : option (list string) :=
  match vs with
  | [] => Some cur
  | (JNull, _) :: vs => raws_field [] vs
  | (JArr es, _) :: vs => raws_field es.*2 vs
  | _ :: _ => None
  end.
(** An [int64] field. *)
Fixpoint int_field (cur : Z) (vs : list (json * string)) : option Z :=
  match vs with
  | [] => Some cur
  | (JNull, _) :: vs => int_field cur vs
  | (JNum tok, _) :: vs => n ← ParseInt tok; int_field n vs
  | _ :: _ => None
  end.
(** A [*string] field. *)
Fixpoint string_ptr_field (cur : option string) (vs : list (json * string)) : option (option string) :=
  match vs with
  | [] => Some cur
  | (JNull, _) :: vs => string_ptr_field None vs
  | (JStr raw, _) :: vs => string_ptr_field (Some (unquote raw)) vs
  | _ :: _ => None
  end.

Record transactionBody := TB { tb_Origin : string; tb_TS : Z; tb_PDUs : list string }.
Definition parse_transaction (body : string) : option transactionBody :=
  ms ← Struct.top body;
  let f := field_of ["origin"; "origin_server_ts"; "pdus"]%string ms in
  origin ← Struct.string_field EmptyString (f "origin"%string);
  ts ← int_field 0 (f "origin_server_ts"%string);
  pdus ← raws_field [] (f "pdus"%string);
  Some (TB origin ts pdus).

Definition parse_events (body : string) : option (list string) :=
  ms ← Struct.top body; raws_field [] (field_of ["events"]%string ms "events"%string).

(** ** The comparators *)
Definition diffIDSets (field : string) (synapse native : list string) : FieldDiff :=
  let synSet : gset string := list_to_set synapse in
  let natSet : gset string := list_to_set native in
  FD field (sort_strings (base.elements (synSet ∖ natSet))) (sort_strings (base.elements (natSet ∖ synSet))) []
    (Z.of_nat (base.size synSet)) (Z.of_nat (base.size natSet)) false.

Definition parse_error (side : string) : error := ErrText ("shadow: parse " +:+ side +:+ " body").

Definition CompareStateIDs (synapseBody nativeBody : string) : result error (option Diff) :=
  match parse_state_ids synapseBody with
  | None => Err (parse_error "synapse")
  | Some syn =>
      match parse_state_ids nativeBody with
      | None => Err (parse_error "native")
      | Some nat =>
          Ok (nonempty (MkDiff [diffIDSets "pdu_ids" (sib_PDUIDs syn) (sib_PDUIDs nat);
                                diffIDSets "auth_chain_ids" (sib_AuthChainIDs syn) (sib_AuthChainIDs nat)]))
      end
  end.

Definition position (i : nat) : string := "#" +:+ print_int (Z.of_nat i).
Definition pdu_key (i : nat) (raw : string) : string :=
  match Struct.get_string "event_id" raw with
  | Some id => if bool_decide (id = EmptyString) then position i else id
  | None => position i
  end.
Definition index_by (key : nat → string → string) (l : list string) : gmap string string :=
  foldl (λ m p, <[key p.1 p.2 := p.2]> m) ∅ (imap pair l).
Definition indexPDUs : list string → gmap string string := index_by pdu_key.

Definition content_key (i : nat) (raw : string) : string := default (position i) (Canonical raw).
Definition indexByContent : list string → gmap string string := index_by content_key.

(** The keys of one map that the other lacks. *)
Definition only_in (a b : gmap string string) : list string := base.elements (dom a ∖ dom b).

Section compare.
Variable Quote : string → string.   (* [%q] *)
Variable error_text : error → string.   (* [err.Error()] *)

Definition CompareEvent (synapseBody nativeBody : string) : result error (option Diff) :=
  match parse_transaction synapseBody with
  | None => Err (parse_error "synapse")
  | Some syn =>
      match parse_transaction nativeBody with
      | None => Err (parse_error "native")
      | Some nat =>
          let synPDUs := indexPDUs (tb_PDUs syn) in
          let natPDUs := indexPDUs (tb_PDUs nat) in
          let origins := if bool_decide (tb_Origin syn = tb_Origin nat) then []
                         else ["origin: synapse=" +:+ Quote (tb_Origin syn) +:+ " native=" +:+ Quote (tb_Origin nat)] in
          let differing := (map_to_list synPDUs ≫= λ p,
            match natPDUs !! p.1 with
            | Some natPDU => if Equal p.2 natPDU then [] else [p.1]
            | None => []
            end) in
          Ok (nonempty (MkDiff [FD "pdus" (sort_strings (only_in synPDUs natPDUs)) (sort_strings (only_in natPDUs synPDUs))
                                  (sort_strings (origins ++ differing))
                                  (Z.of_nat (length (tb_PDUs syn))) (Z.of_nat (length (tb_PDUs nat))) false]))
      end
  end.

Definition CompareStatus (synapseStatus nativeStatus : Z) : bool * bool :=
  if bool_decide (synapseStatus ≠ nativeStatus) then (false, false) else (true, bool_decide (synapseStatus = 200)).

Definition describeEvent (raw : string) : string :=
  match (ms ← Struct.top raw;
         let f := field_of ["event_id"; "type"; "sender"; "state_key"]%string ms in
         id ← Struct.string_field EmptyString (f "event_id"%string);
         ty ← Struct.string_field EmptyString (f "type"%string);
         sender ← Struct.string_field EmptyString (f "sender"%string);
         key ← string_ptr_field None (f "state_key"%string);
         Some (id, ty, sender, key)) with
  | None => "<unparseable>"
  | Some (id, ty, sender, key) =>
      if negb (bool_decide (id = EmptyString)) then id
      else match key with
           | Some k => ty +:+ "/" +:+ k +:+ " from " +:+ sender
           | None => ty +:+ " from " +:+ sender
           end
  end.

Definition missingEventsLimit (requestBody : string) : Z :=
  let limit :=
    if bool_decide (requestBody = EmptyString) then 10
    else default 10 (ms ← Struct.top requestBody; mjoin (int_ptr_field None (field_of ["limit"]%string ms "limit"%string))) in
  if bool_decide (20 < limit) then 20 else limit.

Definition described (m : gmap string string) (keys : list string) : list string :=
  (λ k, describeEvent (default EmptyString (m !! k))) <$> keys.

(** The diff, or the reason to skip. *)
Definition CompareGetMissingEvents (requestBody synapseBody nativeBody : string) (nativeWalkTruncated : bool)
    : result error (option Diff * string) :=
  match parse_events synapseBody with
  | None => Err (parse_error "synapse")
  | Some syn =>
      match parse_events nativeBody with
      | None => Err (parse_error "native")
      | Some nat =>
          let synSet := indexByContent syn in
          let natSet := indexByContent nat in
          let diff := MkDiff [FD "events" (sort_strings (described synSet (only_in synSet natSet)))
                                (sort_strings (described natSet (only_in natSet synSet))) []
                                (Z.of_nat (length syn)) (Z.of_nat (length nat)) false] in
          if Empty diff then Ok (None, EmptyString)
          else if nativeWalkTruncated || bool_decide (missingEventsLimit requestBody ≤ Z.of_nat (length syn)) then
            Ok (None, "walk_truncated"%string)
          else Ok (Some diff, EmptyString)
      end
  end.

(** ** The verdict *)
Inductive verdict :=
| VMatch
| VSkip (reason : string)
| VRecord (rec : LogRecord).

(** The [Record] that [record] is called with: what the comparison knows. *)
Definition found (kind : Kind) (nativeStatus : Z) (nativeBody : string) (diff : option Diff) (nativeError : string) : LogRecord :=
  MkRecord None kind EmptyString EmptyString EmptyString EmptyString EmptyString 0 nativeStatus 0 0 diff nativeError
    EmptyString nativeBody false.

Record ProxyResult := PR { pr_Status : Z; pr_Body : string; pr_Duration : Z; pr_Truncated : bool }.

Definition no_key : string := "Failed to find any key to satisfy".
Definition upstreamCouldNotFetchKeys (proxy : ProxyResult) : bool :=
  if bool_decide (pr_Status proxy ≠ 401) || pr_Truncated proxy || bool_decide (pr_Body proxy = EmptyString) then false else
  match (ms ← Struct.top (pr_Body proxy);
         let f := field_of ["errcode"; "error"]%string ms in
         code ← Struct.string_field EmptyString (f "errcode"%string);
         msg ← Struct.string_field EmptyString (f "error"%string);
         Some (code, msg)) with
  | None => false
  | Some (code, msg) => bool_decide (code = "M_UNAUTHORIZED"%string) && contains_str msg no_key
  end.

(** [Runner.diff] *)
Definition diff (endpoint body synapseBody nativeBody : string) (meta : Meta) : result error (option Diff * string) :=
  if bool_decide (endpoint = "state_ids"%string) then (λ d, (d, EmptyString)) <$> CompareStateIDs synapseBody nativeBody
  else if bool_decide (endpoint = "event"%string) then (λ d, (d, EmptyString)) <$> CompareEvent synapseBody nativeBody
  else if bool_decide (endpoint = "get_missing_events"%string) then
    CompareGetMissingEvents body synapseBody nativeBody (meta_WalkTruncated meta)
  else Err (ErrText ("shadow: no comparator for " +:+ endpoint)).

Definition finish (rq : Native.Request) (proxy : ProxyResult) (nativeBody : string) (nativeStatus : Z) (meta : Meta) : verdict :=
  let '(agree, compareBodies) := CompareStatus (pr_Status proxy) nativeStatus in
  if negb agree then
    if bool_decide (nativeStatus ≠ 401) && upstreamCouldNotFetchKeys proxy then VSkip "upstream_key_fetch_failed"
    else if bool_decide (pr_Status proxy = 429) && bool_decide (nativeStatus ≠ 429) then VSkip "upstream_rate_limited"
    else VRecord (found KindStatus nativeStatus nativeBody None EmptyString)
  else if negb compareBodies then VMatch
  else if pr_Truncated proxy then VSkip "truncated"
  else match diff (rq_Endpoint rq) (rq_Body rq) (pr_Body proxy) nativeBody meta with
       | Err e => VRecord (found KindNativeError nativeStatus nativeBody None (error_text e))
       | Ok (d, skipReason) =>
           if negb (bool_decide (skipReason = EmptyString)) then VSkip skipReason
           else match d with None => VMatch | Some d => VRecord (found KindBody nativeStatus nativeBody (Some d) EmptyString) end
       end.

(** ** [verifyOrigin] *)

(** What the verifier says: a replay that cannot be built, an origin, or the error
    the request is refused with. *)
Inductive replay := ReplayFailed | Verified (origin : string) | Refused (status : Z) (code msg : string).

Definition auth_verdict (r : replay) (proxy : ProxyResult) : string :=
  let synapseAccepted := negb (bool_decide (pr_Status proxy = 401)) && negb (bool_decide (pr_Status proxy = 403)) in
  match r with
  | ReplayFailed => "replay_failed"
  | Verified _ =>
      if bool_decide (pr_Status proxy = 401) && upstreamCouldNotFetchKeys proxy then "synapse_key_fetch_failed"
      else if bool_decide (pr_Status proxy = 401) then "we_accept_synapse_rejects"
      else "agree_accept"
  | Refused _ _ _ => if synapseAccepted then "we_reject_synapse_accepts" else "agree_reject"
  end.
Definition verifyOrigin (verifier : option replay) (rq : Native.Request) : string * option (Z * string * string) :=
  match verifier with
  | None | Some ReplayFailed => (rq_Origin rq, None)
  | Some (Verified origin) => (origin, None)
  | Some (Refused status code msg) => (rq_Origin rq, Some (status, code, msg))
  end.

(** ** [run], [GoState], and the verification of what was served *)
Variable is_deadline_exceeded : error → bool.

Definition native_failed (e : error) : verdict :=
  VRecord (found (if is_deadline_exceeded e then KindNativeTimeout else KindNativeError) 0 EmptyString None (error_text e)).

Definition with_origin (rq : Native.Request) (origin : string) : Native.Request :=
  MkRequest (rq_Endpoint rq) origin (rq_RoomID rq) (rq_EventID rq) (rq_Body rq).

Definition run `{!NativeResolver} (serverName : string) (verifier : option replay) (rq : Native.Request) (proxy : ProxyResult)
    : R verdict :=
  let '(origin, authErr) := verifyOrigin verifier rq in
  match authErr with
  | Some (status, code, msg) => mret (finish rq proxy (Response status code msg).1 status no_meta)
  | None =>
      a ← rtry (Answer serverName (with_origin rq origin));
      mret (match a with
            | Err e => native_failed e
            | Ok (body, status, meta) => finish rq proxy body status meta
            end)
  end.

(** [io.Discard] *)
Definition Discard : StateStream.Writer unit := λ w p, (w, (str_len p, None)).

Definition stateDiff (ours upstream : StateResult) : Diff :=
  MkDiff
    ((if negb (bool_decide (PDUs ours = PDUs upstream)) || negb (bool_decide (PDUDigest ours = PDUDigest upstream))
      then [FD "pdus" [] [] [] (PDUs upstream) (PDUs ours) false] else []) ++
     (if negb (bool_decide (AuthChain_ ours = AuthChain_ upstream)) ||
         negb (bool_decide (AuthChainDigest ours = AuthChainDigest upstream))
      then [FD "auth_chain" [] [] [] (AuthChain_ upstream) (AuthChain_ ours) false] else [])).

Definition unavailable (proxy : ProxyResult) : bool :=
  bool_decide (pr_Status proxy = 0) || bool_decide (pr_Status proxy = 502).

Definition digests_verdict (ours upstream : StateResult) : verdict :=
  if Agrees ours upstream then VMatch else VRecord (found KindBody 200 EmptyString (Some (stateDiff ours upstream)) EmptyString).

Definition compareState `{!NativeResolver} (verifier : option replay) (rq : Native.Request) (proxy : ProxyResult)
    (upstream : StateResult * option error) : R verdict :=
  if bool_decide (is_Some upstream.2) then mret (VSkip "upstream_undigestible")
  else if unavailable proxy then mret (VSkip "upstream_unavailable")
  else
    let '(origin, authErr) := verifyOrigin verifier rq in
    match authErr with
    | Some (status, code, msg) => mret (finish rq proxy (Response status code msg).1 status no_meta)
    | None =>
        p ← rs_State (Writer0 := Discard) tt origin (rq_RoomID rq) (rq_EventID rq);
        let '(ours, _, err) := (p : outcome unit) in
        mret (match err with
              | Some e =>
                  match as_matrix e with
                  | None => native_failed e
                  | Some (status, code, msg) => finish rq proxy (Response status code msg).1 status no_meta
                  end
              | None =>
                  if bool_decide (pr_Status proxy ≠ 200) then finish rq proxy EmptyString 200 no_meta
                  else digests_verdict ours upstream.1
              end)
    end.

Definition CompareServed (slot : bool) (rq : Native.Request) (proxy : ProxyResult) (nativeBody : string) (nativeStatus : Z)
    (meta : Meta) : verdict :=
  if negb slot then VSkip "busy_verify"
  else if unavailable proxy then VSkip "upstream_unavailable"
  else finish rq proxy nativeBody nativeStatus meta.

Definition CompareStateServed (slot : bool) (proxy : ProxyResult) (upstream : StateResult * option error) (ours : StateResult)
    : verdict :=
  if negb slot then VSkip "busy_verify"
  else if bool_decide (is_Some upstream.2) then VSkip "upstream_undigestible"
  else if unavailable proxy then VSkip "upstream_unavailable"
  else if bool_decide (pr_Status proxy ≠ 200) then VRecord (found KindStatus 200 EmptyString None EmptyString)
  else digests_verdict ours upstream.1.
End compare.

(** ** What a verdict counts as: [match] and [record] *)
Definition count_verdict (now : Z) (endpoint : string) (v : verdict) (s : Stats) : Stats :=
  match v with
  | VMatch => observe now endpoint true s
  | VSkip _ => s
  | VRecord _ => observe now endpoint false s
  end.

(** [Go] and [GoState]: dropped when no slot is free. *)
Definition when_free (slot : bool) (m : R verdict) : R verdict :=
  if slot then m else mret (VSkip "busy").

(** ** Lemmas *)
Lemma sort_strings_in x l : x ∈ sort_strings l ↔ x ∈ l.
Proof. unfold sort_strings. by rewrite (merge_sort_Permutation str_le l). Qed.
Lemma sort_strings_nil l : sort_strings l = [] ↔ l = [].
Proof.
  split; intros E; [|by rewrite E]. apply Permutation_nil_r. rewrite <-E. symmetry. apply merge_sort_Permutation.
Qed.

Lemma diffIDSets_lists field syn nat x :
  (x ∈ MissingFromNative (diffIDSets field syn nat) ↔ x ∈ syn ∧ x ∉ nat) ∧
  (x ∈ ExtraInNative (diffIDSets field syn nat) ↔ x ∈ nat ∧ x ∉ syn).
Proof.
  unfold diffIDSets. cbn [MissingFromNative ExtraInNative].
  rewrite !sort_strings_in, !elem_of_elements, !elem_of_difference, !elem_of_list_to_set. done.
Qed.

Lemma diffIDSets_clean field syn nat :
  field_clean (diffIDSets field syn nat) = true ↔ ∀ x, x ∈ syn ↔ x ∈ nat.
Proof.
  unfold field_clean. rewrite !andb_true_iff, !bool_decide_eq_true. split.
  - intros [[[H1 H2] _] _] x. destruct (diffIDSets_lists field syn nat x) as [Hm He].
    rewrite H1 in Hm. rewrite H2 in He.
    split; intros Hx; apply dec_stable; intros Hn; [apply (not_elem_of_nil x), Hm|apply (not_elem_of_nil x), He]; done.
  - intros Heq. assert ((list_to_set syn : gset string) = list_to_set nat) as E.
    { apply set_eq. intros x. rewrite !elem_of_list_to_set. apply Heq. }
    unfold diffIDSets. cbn [MissingFromNative ExtraInNative ContentMismatch SynapseCount NativeCount].
    rewrite E, difference_diag_L, elements_empty. done.
Qed.

Lemma nonempty_None d : nonempty d = None ↔ Forall (λ f, field_clean f = true) (Fields d).
Proof.
  unfold nonempty, Empty. destruct (forallb field_clean (Fields d)) eqn:E.
  - split; [|done]. intros _. apply Forall_forall. intros f Hf. rewrite forallb_forall in E. by apply E, list_elem_of_In.
  - split; [done|]. intros Hf. exfalso. apply not_true_iff_false in E. apply E, forallb_forall. intros f Hin.
    rewrite Forall_forall in Hf. by apply Hf, list_elem_of_In.
Qed.

(** ** The comparators decide sets *)

(** Two /state_ids answers agree exactly when both fields name the same sets of
    events, whatever their order and repetitions; when they do not, the diff names,
    sorted, exactly the events each side lacks; and only a body that does not parse
    is an error. *)
Theorem state_ids_verdict_exact synapseBody nativeBody syn nat :
  parse_state_ids synapseBody = Some syn → parse_state_ids nativeBody = Some nat →
  ∃ d, CompareStateIDs synapseBody nativeBody = Ok d ∧
    (d = None ↔ (∀ x, x ∈ sib_PDUIDs syn ↔ x ∈ sib_PDUIDs nat) ∧ (∀ x, x ∈ sib_AuthChainIDs syn ↔ x ∈ sib_AuthChainIDs nat)) ∧
    ∀ d', d = Some d' → ∃ p a, Fields d' = [p; a] ∧
      (∀ x, (x ∈ MissingFromNative p ↔ x ∈ sib_PDUIDs syn ∧ x ∉ sib_PDUIDs nat) ∧
            (x ∈ ExtraInNative p ↔ x ∈ sib_PDUIDs nat ∧ x ∉ sib_PDUIDs syn) ∧
            (x ∈ MissingFromNative a ↔ x ∈ sib_AuthChainIDs syn ∧ x ∉ sib_AuthChainIDs nat) ∧
            (x ∈ ExtraInNative a ↔ x ∈ sib_AuthChainIDs nat ∧ x ∉ sib_AuthChainIDs syn)) ∧
      Sorted str_le (MissingFromNative p) ∧ Sorted str_le (ExtraInNative a).
Proof.
  intros Hs Hn. unfold CompareStateIDs. rewrite Hs, Hn. eexists. split; [reflexivity|]. split.
  - rewrite nonempty_None. cbn [Fields]. rewrite !Forall_cons, Forall_nil, !diffIDSets_clean. tauto.
  - unfold nonempty. destruct (Empty _); [done|]. intros d' [= <-]. eexists _, _. split; [reflexivity|]. split.
    + intros x. destruct (diffIDSets_lists "pdu_ids" (sib_PDUIDs syn) (sib_PDUIDs nat) x).
      by destruct (diffIDSets_lists "auth_chain_ids" (sib_AuthChainIDs syn) (sib_AuthChainIDs nat) x).
    + split; apply Sorted_merge_sort; apply _.
Qed.

(** ** The verdict on a comparison *)
Section verdicts.
Variable Quote : string → string.
Variable error_text : error → string.

(** A comparison ends in a match exactly when the statuses agree and, for two
    200s, the whole captured bodies compare equal; a disagreement is excused only
    for the three stated reasons (Synapse could not fetch the key, it shed load, or
    the walk was truncated) or because the body was cut; everything else is
    recorded, with its kind. *)
Theorem verdict_exact rq proxy body status meta :
  let same := diff Quote (rq_Endpoint rq) (rq_Body rq) (pr_Body proxy) body meta in
  match finish Quote error_text rq proxy body status meta with
  | VMatch => pr_Status proxy = status ∧ (status = 200 → pr_Truncated proxy = false ∧ same = Ok (None, EmptyString))
  | VSkip reason =>
      (pr_Status proxy ≠ status ∧
         (reason = "upstream_key_fetch_failed"%string ∧ status ≠ 401 ∧ upstreamCouldNotFetchKeys proxy = true ∨
          reason = "upstream_rate_limited"%string ∧ pr_Status proxy = 429)) ∨
      (pr_Status proxy = 200 ∧ status = 200 ∧
         (reason = "truncated"%string ∧ pr_Truncated proxy = true ∨
          pr_Truncated proxy = false ∧ reason ≠ EmptyString ∧ ∃ d, same = Ok (d, reason)))
  | VRecord rec =>
      NativeStatus rec = status ∧ NativeBody rec = body ∧
      match rec_Kind rec with
      | KindStatus => pr_Status proxy ≠ status ∧ rec_Diff rec = None
      | KindBody =>
          pr_Status proxy = 200 ∧ status = 200 ∧ pr_Truncated proxy = false ∧
          ∃ d, rec_Diff rec = Some d ∧ same = Ok (Some d, EmptyString)
      | KindNativeError =>
          pr_Status proxy = 200 ∧ status = 200 ∧ pr_Truncated proxy = false ∧ rec_Diff rec = None ∧
          ∃ e, same = Err e ∧ NativeError rec = error_text e
      | KindNativeTimeout | KindAuth => False
      end
  end.
Proof using Type.
  cbv zeta. unfold finish, CompareStatus. case_bool_decide as Hst; cbn [negb].
  - destruct (bool_decide (status ≠ 401) && upstreamCouldNotFetchKeys proxy) eqn:E1.
    + apply andb_true_iff in E1 as [E1 E2]. apply bool_decide_eq_true in E1. left. auto.
    + destruct (bool_decide (pr_Status proxy = 429) && bool_decide (status ≠ 429)) eqn:E2; [|done].
      apply andb_true_iff in E2 as [E2 _]. apply bool_decide_eq_true in E2. left. auto.
  - case_bool_decide as H200; cbn [negb]; [|split; [done|congruence]].
    destruct (pr_Truncated proxy) eqn:Et; [right; split_and!; [done|congruence|by left]|].
    destruct (diff _ _ _ _ _ _) as [[d reason]|e] eqn:Ed; [|cbn; split_and!; try done; [congruence|by exists e]].
    case_bool_decide as Hr; cbn [negb].
    + subst reason. destruct d as [d|]; [|done]. cbn. split_and!; try done; [congruence|by exists d].
    + right. split_and!; [done|congruence|]. right. split_and!; [done|done|by exists d].
Qed.
End verdicts.

(** ** The counters *)
Section counters.

Definition is_match (v : verdict) : bool := match v with VMatch => true | _ => false end.
Definition is_record (v : verdict) : bool := match v with VRecord _ => true | _ => false end.
Definition counted (P : verdict → bool) (vs : list (Z * string * verdict)) : Z :=
  count (filter (λ v, P v.2 = true) vs).
Definition about_endpoint (endpoint : string) (vs : list (Z * string * verdict)) : list (Z * string * verdict) :=
  filter (λ v, v.1.2 = endpoint) vs.
Definition run_counters (vs : list (Z * string * verdict)) : Stats :=
  foldl (λ s v, count_verdict v.1.1 v.1.2 v.2 s) no_stats vs.

(** What the verdicts observe: a skip observes nothing. *)
Definition observation (v : Z * string * verdict) : list (Z * string * bool) :=
  match v.2 with VMatch => [(v.1, true)] | VSkip _ => [] | VRecord _ => [(v.1, false)] end.
Definition observations (vs : list (Z * string * verdict)) : list (Z * string * bool) := vs ≫= observation.

Lemma observations_snoc vs v : observations (vs ++ [v]) = observations vs ++ observation v.
Proof. unfold observations. rewrite bind_app. cbn. by rewrite app_nil_r. Qed.
Lemma run_observed vs : run_counters vs = observed (observations vs) no_stats.
Proof.
  induction vs as [|[[now ep] v] vs IH] using rev_ind; [done|].
  rewrite observations_snoc. unfold run_counters, observed in *. rewrite !foldl_app, IH. by destruct v.
Qed.
Lemma counted_observations vs :
  counted is_match vs = count (with_outcome true (observations vs)) ∧
  counted is_record vs = count (with_outcome false (observations vs)) ∧
  count (observations vs) = counted is_match vs + counted is_record vs ∧ count (observations vs) ≤ count vs.
Proof.
  induction vs as [|[[now ep] v] vs IH] using rev_ind; [done|].
  rewrite observations_snoc. unfold counted, with_outcome in *. rewrite !filter_last, filter_app.
  destruct v; cbn; rewrite ?filter_last, ?app_nil_r, ?count_snoc; cbn;
    repeat case_decide; rewrite ?app_nil_r, ?count_snoc; try (done || congruence); lia.
Qed.
Lemma observations_about endpoint vs : about endpoint (observations vs) = observations (about_endpoint endpoint vs).
Proof.
  induction vs as [|[[now ep] v] vs IH] using rev_ind; [done|].
  rewrite observations_snoc. unfold about, about_endpoint in *. rewrite filter_app, filter_last, IH. cbn [fst snd].
  destruct (decide (ep = endpoint)) as [->|Hne].
  - rewrite observations_snoc. f_equal. destruct v; [|done|]; unfold observation; cbn [fst snd]; by rewrite filter_cons_True.
  - rewrite <-(app_nil_r (observations _)) at 2. f_equal.
    destruct v; [|done|]; unfold observation; cbn [fst snd]; by rewrite filter_cons_False.
Qed.

(** The match rate a promotion rests on is exact: after any sequence of
    comparisons, overall and per endpoint, the matched and mismatched counters are
    the numbers of matches and of records, skips move nothing, and compared is their
    sum. *)
Theorem counters_exact vs endpoint :
  count vs < 2 ^ 64 →
  let s := run_counters vs in
  let e := default no_endpoint (per_endpoint s !! endpoint) in
  Matched s = counted is_match vs ∧ Mismatched s = counted is_record vs ∧ Compared s = Matched s + Mismatched s ∧
  es_Matched e = counted is_match (about_endpoint endpoint vs) ∧
  es_Mismatched e = counted is_record (about_endpoint endpoint vs) ∧
  es_Compared e = es_Matched e + es_Mismatched e.
Proof.
  intros Hlen. cbv zeta. rewrite run_observed. destruct (counted_observations vs) as (H1 & H2 & H3 & H4).
  destruct (counted_observations (about_endpoint endpoint vs)) as (H5 & H6 & H7 & _).
  destruct (observed_exact (observations vs) endpoint ltac:(lia)) as ([-> -> ->] & [Hm Hn Hc] & _).
  rewrite Hm, Hn, Hc, observations_about. by rewrite <-H1, <-H2, <-H5, <-H6.
Qed.
End counters.

(** The /state comparisons excuse less than the others.  The verification of a
    served answer records Synapse's 429 as a disagreement; and a comparison of
    /state is given no body, so that a 401 for a key Synapse could not fetch counts
    as a request it rejected. *)
Theorem state_checks_excuse_less Quote error_text rq body meta upstream ours origin :
  let shed := PR 429 EmptyString 0 false in
  let no_key := PR 401 EmptyString 0 false in
  CompareServed Quote error_text true rq shed body 200 meta = VSkip "upstream_rate_limited" ∧
  CompareStateServed true shed (upstream, None) ours = VRecord (found KindStatus 200 EmptyString None EmptyString) ∧
  auth_verdict (Verified origin) no_key = "we_accept_synapse_rejects"%string ∧
  finish Quote error_text rq no_key body 200 meta = VRecord (found KindStatus 200 body None EmptyString).
Proof. by repeat split. Qed.

(** ** Concrete comparisons *)
Section witnesses.
Definition ids (a b : list string) : string := marshal_state_ids (SIR a b).

Lemma state_ids_verdict_exact_witness :
  CompareStateIDs (ids ["$a"; "$b"; "$a"] ["$c"]) (ids ["$b"; "$a"] ["$c"]) = Ok None ∧
  ∃ d, CompareStateIDs (ids ["$a"; "$b"] ["$c"]) (ids ["$b"] ["$c"; "$d"]) = Ok (Some d).
Proof.
  destruct (state_ids_verdict_exact (ids ["$a"; "$b"; "$a"] ["$c"]) (ids ["$b"; "$a"] ["$c"])
    (SIB ["$a"; "$b"; "$a"] ["$c"]) (SIB ["$b"; "$a"] ["$c"])) as (d & E & Hd & _); [by vm_compute..|].
  destruct (state_ids_verdict_exact (ids ["$a"; "$b"] ["$c"]) (ids ["$b"] ["$c"; "$d"])
    (SIB ["$a"; "$b"] ["$c"]) (SIB ["$b"] ["$c"; "$d"])) as (d' & E' & Hd' & _); [by vm_compute..|].
  split.
  - rewrite E. f_equal. apply Hd. cbn [sib_PDUIDs sib_AuthChainIDs]. split; intros x; [|done].
    rewrite !elem_of_cons, elem_of_nil. tauto.
  - rewrite E'. destruct d' as [d'|]; [by exists d'|]. exfalso.
    destruct (proj1 Hd' eq_refl) as [H _]. specialize (H "$a"%string). cbn [sib_PDUIDs] in H.
    rewrite !elem_of_cons, elem_of_nil in H. destruct H as [H _]. destruct H as [?|[]]; [by left|done].
Defined.

Lemma counters_exact_witness :
  let s := run_counters [(1, "event"%string, VMatch); (2, "state"%string, VSkip "busy"); (3, "event"%string, VRecord (found KindBody 200 EmptyString None EmptyString))] in
  Compared s = Matched s + Mismatched s ∧ Matched s = 1.
Proof.
  destruct (counters_exact [(1, "event"%string, VMatch); (2, "state"%string, VSkip "busy");
    (3, "event"%string, VRecord (found KindBody 200 EmptyString None EmptyString))] "event") as (H1 & _ & H3 & _); [by vm_compute|].
  split; [exact H3|]. rewrite H1. by vm_compute.
Defined.
End witnesses.
