(* ===== verification/EndToEnd.v ===== *)
(** * From the request to the tables

    The handler, [Answer], the resolver, the store and its caches, composed: what the
    client of a native request is sent, said of the tables alone; and what a match in
    shadow mode then means. *)
From S2P Require Import Prelude Cache RateLimit Json JsonStream Store AuthChain StateGroups MissingEvents External Events Acl Pducmp Wire Printed Digest Resolver StateStream Access Served ServedState Config Route Native Http Proxy Serve DiffLog Compare.

Open Scope list_scope.
Open Scope Z_scope.

(** ** The last step of [Answer] *)
Definition of_error (e : error) : result error answer :=
  match as_matrix e with
  | Some (status, code, msg) => Ok ((Response status code msg).1, status, no_meta)
  | None => Err e
  end.
Definition of_marshal (meta : Meta) (b : option string) : result error answer :=
  match b with Some body => Ok (body, 200, meta) | None => Err (ErrText "json: error calling MarshalJSON") end.

Definition state_ids_reply (r : result error StateIDsResponse) : result error answer :=
  match r with Ok resp => Ok (marshal_state_ids resp, 200, no_meta) | Err e => of_error e end.
Definition event_reply (r : result error TransactionResponse) : result error answer :=
  match r with
  | Ok resp => of_marshal no_meta (marshal_transaction resp)
  | Err e => if is_event_not_found e then Ok (EmptyString, 404, no_meta) else of_error e
  end.
Definition missing_reply (r : result error MissingEventsResponse) : result error answer :=
  match r with
  | Ok resp => of_marshal (MkMeta (WalkTruncated resp)) (marshal_missing_events resp)
  | Err e => of_error e
  end.

Section replies.
Context `{!External} (d : DB) (F : nat) (Hd : Served.proper d F).
Notation revals := (revals d F).

Lemma revals_matrixError e : revals (matrixError e) (of_error e).
Proof using Type.
  unfold matrixError, of_error. destruct (as_matrix e) as [[[status code] msg]|]; [apply revals_ret|apply revals_fail].
Qed.
Lemma revals_marshalled meta b : revals (marshalled 200 meta b) (of_marshal meta b).
Proof using Type. destruct b; [apply revals_ret|apply revals_fail]. Qed.

(** ** What a request is told *)
Context (other : option flight_outcome) (now : Z).

(** The body of a /get_missing_events request; none counts as an empty one. *)
Definition asked_for (body : string) : option MissingEventsRequest :=
  if bool_decide (body = EmptyString) then Some (MER_ [] [] None) else parse_missing_events body.

Inductive tables_say (serverName : string) (rq : Native.Request) : result error answer → Prop :=
| say_state_ids r :
    rq_Endpoint rq = "state_ids"%string →
    state_ids_answer d other (rq_Origin rq) (rq_RoomID rq) (rq_EventID rq) r → tables_say serverName rq (state_ids_reply r)
| say_event r :
    rq_Endpoint rq = "event"%string →
    event_answer d now (rq_Origin rq) serverName (rq_EventID rq) r → tables_say serverName rq (event_reply r)
| say_missing_events body r :
    rq_Endpoint rq = "get_missing_events"%string → asked_for (rq_Body rq) = Some body →
    missing_answer d F now (rq_Origin rq) serverName (rq_RoomID rq) (EarliestEvents body) (LatestEvents body)
      (default 10 (Limit body)) r → tables_say serverName rq (missing_reply r)
| say_bad_json :
    rq_Endpoint rq = "get_missing_events"%string → asked_for (rq_Body rq) = None →
    tables_say serverName rq (of_error ErrBadJSON).

(** What is assumed of the tables and of the identifiers a request names. *)
Record askable (rq : Native.Request) : Prop := {
  as_event : rq_Endpoint rq = "event"%string →
    ∀ ev, raw_event d (rq_EventID rq) = Some ev → clear_host d (RoomID ev) (rq_Origin rq);
  as_room : rq_Endpoint rq ≠ "event"%string → clear_host d (rq_RoomID rq) (rq_Origin rq);
  as_ids : rq_Endpoint rq = "state_ids"%string → Inj (=) (=) sha256 ∧ plain_ids d (rq_RoomID rq) (rq_EventID rq) ∧
    shared d (rq_RoomID rq) (rq_EventID rq) other }.

Lemma revals_Answer_ids serverName rq : askable rq → rq_Endpoint rq = "state_ids"%string →
  ∃ r, revals (Answer (H := matrixstate_resolver other now) serverName rq) (state_ids_reply r) ∧
    state_ids_answer d other (rq_Origin rq) (rq_RoomID rq) (rq_EventID rq) r.
Proof using Hd.
  intros [He Hr Hi] E. unfold Answer. rewrite bool_decide_true by done. destruct (Hi E) as (Hinj & Hp & Hs).
  destruct (revals_StateIDs d F Hd Hinj other (rq_Origin rq) (rq_RoomID rq) (rq_EventID rq)) as (r & Hrun & Hans); [|done..|].
  { apply Hr. by rewrite E. }
  exists r. split; [|done]. eapply revals_bind; [by apply revals_try|]. destruct r; [apply revals_ret|apply revals_matrixError].
Qed.

Lemma revals_Answer serverName rq : askable rq →
  rq_Endpoint rq ∈ ["state_ids"; "event"; "get_missing_events"]%string →
  ∃ r, revals (Answer (H := matrixstate_resolver other now) serverName rq) r ∧ tables_say serverName rq r.
Proof using Hd.
  intros [He Hr Hi] Hin. pose proof (Build_askable rq He Hr Hi) as Hask. unfold Answer. rewrite !elem_of_cons in Hin. destruct Hin as [E|[E|[E|[]%not_elem_of_nil]]].
  - destruct (revals_Answer_ids serverName rq Hask E) as (r & Hrun & Hans). exists (state_ids_reply r).
    split; [done|by apply say_state_ids].
  - rewrite !bool_decide_false, bool_decide_true by (done || by rewrite E).
    destruct (evals_Event d F Hd now (rq_Origin rq) serverName (rq_EventID rq)) as (r & Hrun & Hans); [by apply He|].
    exists (event_reply r). split; [|by apply say_event]. eapply revals_bind; [by apply revals_try, revals_lift|].
    destruct r as [resp|e]; [apply revals_marshalled|]. cbn [event_reply].
    destruct (is_event_not_found e); [apply revals_ret|apply revals_matrixError].
  - rewrite bool_decide_false, bool_decide_true by (done || by rewrite E). fold (asked_for (rq_Body rq)).
    destruct (asked_for (rq_Body rq)) as [body|] eqn:Eb.
    2:{ exists (of_error ErrBadJSON). split; [apply revals_matrixError|by apply say_bad_json]. }
    destruct (revals_GetMissingEvents d F Hd now (rq_Origin rq) serverName (rq_RoomID rq) (EarliestEvents body)
      (LatestEvents body) (default 10 (Limit body))) as (r & Hrun & Hans); [apply Hr; by rewrite E|].
    exists (missing_reply r). split; [|by eapply say_missing_events]. eapply revals_bind; [by apply revals_try|].
    destruct r; [apply revals_marshalled|apply revals_matrixError].
Qed.
End replies.

(** ** What the client is sent *)
Section client.
Context `{!External} {conn : Connection} {Hconn : LawfulConnection} (d : DB) (F : nat) (Hd : Served.proper d F).
Variable clock : nat → Z.
Variable settable : bool.
Variable is_deadline : error → bool.
Variable gjson_room : string → string.
Variable ParseXMatrixAuth : string → string.
Variable other : option flight_outcome.
Variable now : Z.
#[local] Hint Extern 0 (StateStream.Writer lazyResponse) => exact (lazy_writer clock settable) : typeclass_instances.
Notation ServeHTTP := (ServeHTTP clock settable is_deadline gjson_room ParseXMatrixAuth).
Notation natively := (natively ParseXMatrixAuth).

(** What [Answer] is asked for such a request. *)
Definition question (rq : hrequest) (route : Route) (body origin : string) : Native.Request :=
  MkRequest (endpoint_name (Endpoint_ route)) origin (roomIDFor route) (eventIDFor route (q_event_id rq)) body.
Definition instead (h : Handler) (env : environment) (route : Route) : Serve.handled :=
  fall_back h env (modeFor (h_modes h) (Endpoint_ route)) (Endpoint_ route) Freed blank.

(** C2. A native request for a single event, the state's identifiers or missing events is
    answered as the tables say, through every layer: for a verified origin and in the
    canary's share, the client gets, whole, the status and body of the resolver's
    specified answer, or of its Matrix error, whatever the caches hold; only an answer
    that cannot be rendered or is no Matrix error is left to Synapse. *)
Theorem native_request_exact h env rq route body origin st :
  h_resolver h = Some (matrixstate_resolver other now) → natively h env rq route body origin →
  Endpoint_ route ≠ EndpointState → e_panics env = false → askable d other (question rq route body origin) → rfit d F st →
  ∃ r st', rfit d F st' ∧ tables_say d F other now (h_serverName h) (question rq route body origin) r ∧
    match r with
    | Ok (text, status, meta) =>
        ∃ n, ServeHTTP h env rq st = (Ok (Handled (respond json_type status text blank) (Answered n) Freed), st') ∧
          nr_Status n = status ∧ nr_Bytes n = str_len text ∧ nr_Meta n = meta
    | Err _ => ServeHTTP h env rq st = (Ok (instead h env route), st')
    end.
Proof using Hd.
  intros Hrs Hn Hne Hp Hask Hst.
  destruct (revals_Answer d F Hd other now (h_serverName h) (question rq route body origin) Hask) as (r & Hr & Hsay).
  { unfold question. cbn [rq_Endpoint]. destruct (Match_inv _ _ (na_route _ _ _ _ _ _ _ Hn)) as [Hk _]. rewrite !elem_of_cons. destruct (Endpoint_ route); cbn; tauto. }
  destruct (Hr st Hst) as (st' & E & Hst'). exists r, st'. split; [done|]. split; [done|].
  rewrite (serve_attempt clock settable is_deadline gjson_room ParseXMatrixAuth h env rq route body origin st Hn).
  assert (Streams (Endpoint_ route) = false) as Est by (by apply bool_decide_eq_false).
  unfold serveNative. rewrite Hrs, (na_verified _ _ _ _ _ _ _ Hn), Est. unfold mbind, R_bind, answer_. rewrite Hp. unfold rtry.
  unfold question in E. rewrite E. destruct r as [[[text status] meta]|e]; [|done].
  eexists. split; [reflexivity|done].
Qed.

(** *** The streamed /state *)

Lemma touched_written (l : lazyResponse) : touched l → l_written l = true.
Proof using Type.
  intros (l1 & p & ->). unfold StateStream.write, lazy_writer, lazy_Write.
  destruct (refresh_frame clock settable (commit l1)) as [_ Hw].
  set (l' := refreshDeadline clock settable (commit l1)) in *. destruct (send (l_deadline l') p (l_w l')) as [w [n e]]. cbn [fst l_written].
  rewrite Hw. unfold commit. by destruct (l_written l1) eqn:E.
Qed.

(** The error of a refused request is one Matrix defines. *)
Lemma refusal_matrix roomID eventID origin e :
  access_answer d origin roomID = Err e ∨ state_answer d roomID eventID (Err e) →
  ∃ status code msg, as_matrix e = Some (status, code, msg).
Proof using Type.
  intros [Ha|Ha].
  - unfold access_answer in Ha. repeat case_match; simplify_eq; by eexists _, _, _.
  - inversion Ha; by eexists _, _, _.
Qed.

(** The response is that Matrix error. *)
Definition refused (hd : Serve.handled) (e : error) : Prop :=
  ∃ status code msg n, as_matrix e = Some (status, code, msg) ∧
    hd = Handled (respond json_type status (Response status code msg).1 blank) (Answered n) Freed ∧ nr_Status n = status.
(** The response is what [State] wrote, complete or aborted. *)
Definition streamed_as (hd : Serve.handled) (res : StateResult) (k : sink lazyResponse) (err : option error) : Prop :=
  match err with
  | None => (∃ n, h_fate hd = Answered n ∧ nr_StateResult n = Some res) ∧
      r_status (h_resp hd) = Some 200 ∧ r_sent (h_resp hd) = taken (s_w k)
  | Some _ => ∃ reason, h_fate hd = Aborted reason
  end.
Definition state_sent (origin roomID eventID : string) (hd : Serve.handled) : Prop :=
  match access_answer d origin roomID with
  | Err e => refused hd e
  | Ok _ => ∃ r, resolved d roomID eventID r ∧
      match r with
      | Err e => refused hd e
      | Ok pdus => ∃ res (k : sink lazyResponse) err, state_ends d pdus res k err ∧ streamed_as hd res k err
      end
  end.

Lemma native_state_sent h env rq route body origin st :
  h_resolver h = Some (matrixstate_resolver other now) → natively h env rq route body origin →
  Endpoint_ route = EndpointState → Inj (=) (=) sha256 →
  let roomID := roomIDFor route in let eventID := eventIDFor route (q_event_id rq) in
  clear_host d roomID origin → plain_ids d roomID eventID →
  distinct_ids d eventID → rfit d F st →
  ∃ hd st', ServeHTTP h env rq st = (Ok hd, st') ∧ rfit d F st' ∧ state_sent origin roomID eventID hd.
Proof using Hd Hconn.
  intros Hrs Hn Hst Hinj roomID eventID Hc Hp Hnd Hw.
  set (w0 := new_lazy blank (h_streamIdleTimeout h)).
  assert (taken w0 = EmptyString) as Ht0 by reflexivity.
  destruct (revals_state_spec d F Hd Hinj origin roomID eventID w0 Ht0 Hc Hp Hnd) as (res & k & err & Hr & Hspec).
  destruct (Hr st Hw) as (st' & E & Hw').
  destruct (state_keeps (committed_or blank) (λ l p, lazy_commits clock settable blank l p eq_refl) w0 origin roomID eventID st eq_refl)
    as (res1 & k1 & e1 & st1 & E1 & Hcommit).
  rewrite E in E1. injection E1 as <- <- <- <-. clear Hr.
  rewrite (serve_attempt clock settable is_deadline gjson_room ParseXMatrixAuth h env rq route body origin st Hn).
  unfold serveNative. rewrite Hrs, (na_verified _ _ _ _ _ _ _ Hn), Hst. change (Streams EndpointState) with true. cbn iota.
  unfold serveStreamed, mbind, R_bind. cbn [rs_State matrixstate_resolver]. fold roomID eventID w0. rewrite E. clear E.
  set (att := attempt_ends h env route _).
  assert (∀ e, err = Some e → s_w k = w0 → (∃ status code msg, as_matrix e = Some (status, code, msg)) →
    ∃ hd, att = (Ok hd, st') ∧ refused hd e) as Href.
  { intros e -> Hk (status & code & msg & Ha). unfold att, refused. rewrite Hk.
    cbn [l_written w0 new_lazy]. rewrite Ha. cbn. eexists. split; [reflexivity|]. by eexists status, code, msg, _. }
  unfold state_spec in Hspec. unfold state_sent. destruct (access_answer d origin roomID) as [[]|e] eqn:Eacc.
  2:{ destruct Hspec as [He Hk]. destruct (Href e He Hk) as (hd & E & Hhd); [apply (refusal_matrix roomID eventID origin); by left|by exists hd, st']. }
  destruct Hspec as (r & Hres & Hspec). destruct r as [pdus|e].
  2:{ destruct Hspec as [He Hk]. destruct (Href e He Hk) as (hd & E & Hhd); [apply (refusal_matrix roomID eventID origin); by right|].
      exists hd, st'. split; [done|]. split; [done|]. by exists (Err e). }
  assert (l_written (s_w k) = true) as Hwr by (destruct Hspec as (? & _ & _ & Ht & _); by apply touched_written).
  assert (∃ hd, att = (Ok hd, st') ∧ streamed_as hd res k err) as (hd & E & Hhd).
  { unfold att, streamed_as. destruct err as [e|].
    - rewrite Hwr. eexists. split; [reflexivity|]. by eexists.
    - eexists. split; [reflexivity|]. cbn. split; [by eexists|]. unfold committed_or in Hcommit. rewrite Hwr in Hcommit.
      unfold clearDeadline. destruct (l_noDeadline (s_w k)); split; [apply Hcommit|reflexivity|apply Hcommit|reflexivity]. }
  exists hd, st'. split; [done|]. split; [done|]. exists (Ok pdus). split; [done|]. by exists res, k, err.
Qed.

(** C3. A native /state request is answered as the tables say, over the connection: as
    long as the database answers every query and the request is not cancelled, a
    caller without access, or asking for an event whose state it cannot be told, gets
    that Matrix error; any other gets a 200 whose body has, as its two arrays, the
    state before the event and the auth chain of its known events; or the connection
    is aborted, after an error of the connection or an event that cannot be rendered.
    Whatever the database does, the request ends; and where it is neither answered
    nor aborted, it is left to Synapse (or to nobody, if the client has gone) with an
    untouched response: Synapse is asked only if something failed before the first
    byte. *)
Theorem native_state_exact h env rq route body origin st :
  h_resolver h = Some (matrixstate_resolver other now) → natively h env rq route body origin →
  Endpoint_ route = EndpointState → Inj (=) (=) sha256 →
  let roomID := roomIDFor route in let eventID := eventIDFor route (q_event_id rq) in
  clear_host d roomID origin → plain_ids d roomID eventID →
  distinct_ids d eventID →
  ∃ hd st', ServeHTTP h env rq st = (Ok hd, st') ∧
    (rfit d F st → rfit d F st' ∧ state_sent origin roomID eventID hd) ∧
    match h_fate hd with
    | Answered _ | Aborted _ => True
    | _ => hd = instead h env route
    end.
Proof using Hd Hconn.
  intros Hrs Hn Hst Hinj roomID eventID Hc Hp Hnd.
  destruct (streamed_otherwise clock settable is_deadline gjson_room ParseXMatrixAuth other now h env rq st route body origin Hrs Hst Hn)
    as (hd & st' & E & Hm).
  exists hd, st'. split; [done|]. split; [|by unfold instead; rewrite Hst].
  intros Hw. destruct (native_state_sent h env rq route body origin st Hrs Hn Hst Hinj Hc Hp Hnd Hw) as (hd' & st1 & E' & Hw' & Hs).
  rewrite E' in E. by injection E as -> ->.
Qed.
End client.

(** ** A match in shadow mode *)

(** PostgreSQL's text is UTF-8. *)
Definition utf8_ids (l : list string) : Prop := Forall (λ s, valid_utf8 s = true) l.

(** What we answer is read back by the comparison. *)
Lemma parse_marshal_state_ids r : utf8_ids (PDUIDs r) → utf8_ids (AuthChainIDs r) →
  parse_state_ids (marshal_state_ids r) = Some (SIB (PDUIDs r) (AuthChainIDs r)).
Proof.
  intros Hp Ha. unfold parse_state_ids, marshal_state_ids.
  rewrite (top_object 1 _ [JArr (str_values (PDUIDs r)); JArr (str_values (AuthChainIDs r))]); [|by repeat constructor; apply prints_strings|unfold max_depth; lia].
  cbn [mbind option_bind zip_with fst snd].
  pose proof (strings_field_printed _ Hp) as Ep. pose proof (strings_field_printed _ Ha) as Ea.
  revert Ep Ea. generalize (JArr (str_values (PDUIDs r))) as vp. generalize (JArr (str_values (AuthChainIDs r))) as va.
  generalize (print_array (encode_string <$> PDUIDs r)) as tp. generalize (print_array (encode_string <$> AuthChainIDs r)) as ta.
  intros ta tp va vp Ep Ea.
  assert (∀ x y : json * string, field_of ["pdu_ids"; "auth_chain_ids"]%string [(escaped "pdu_ids", x); (escaped "auth_chain_ids", y)] "pdu_ids" = [x] ∧
    field_of ["pdu_ids"; "auth_chain_ids"]%string [(escaped "pdu_ids", x); (escaped "auth_chain_ids", y)] "auth_chain_ids" = [y]) as Hf by done.
  destruct (Hf (vp, tp) (va, ta)) as [-> ->]. rewrite Ep, Ea. done.
Qed.

Section shadow.
Context `{!External} (d : DB) (F : nat) (Hd : Served.proper d F).
Variable now : Z.
Variable Quote : string → string.
Variable error_text : error → string.
Variable is_deadline : error → bool.

Lemma finish_ids rq proxy resp : rq_Endpoint rq = "state_ids"%string → utf8_ids (PDUIDs resp) → utf8_ids (AuthChainIDs resp) →
  finish Quote error_text rq proxy (marshal_state_ids resp) 200 no_meta = VMatch ↔
  pr_Status proxy = 200 ∧ pr_Truncated proxy = false ∧
  ∃ syn, parse_state_ids (pr_Body proxy) = Some syn ∧
    (∀ x, x ∈ sib_PDUIDs syn ↔ x ∈ PDUIDs resp) ∧ (∀ x, x ∈ sib_AuthChainIDs syn ↔ x ∈ AuthChainIDs resp).
Proof using Type.
  intros E Hp Ha. unfold finish, CompareStatus. destruct (decide (pr_Status proxy = 200)) as [Hst|Hst].
  2:{ rewrite bool_decide_true by done. cbn [negb]. split; [|naive_solver]. by repeat case_match. }
  rewrite (bool_decide_false (_ ≠ 200)), (bool_decide_true (_ = 200)) by tauto. cbn [negb].
  destruct (pr_Truncated proxy); [naive_solver|].
  unfold diff, CompareStateIDs. rewrite E, bool_decide_true, (parse_marshal_state_ids resp Hp Ha) by done.
  destruct (parse_state_ids (pr_Body proxy)) as [syn|]; [|naive_solver]. cbn [fmap result_fmap].
  rewrite bool_decide_true by done. cbn [negb sib_PDUIDs sib_AuthChainIDs].
  match goal with |- context [nonempty ?x] => set (dd := x) end.
  assert (nonempty dd = None ↔ (∀ x, x ∈ sib_PDUIDs syn ↔ x ∈ PDUIDs resp) ∧ (∀ x, x ∈ sib_AuthChainIDs syn ↔ x ∈ AuthChainIDs resp)) as Hdd.
  { unfold dd. rewrite nonempty_None. cbn [Fields]. rewrite !Forall_cons, Forall_nil, !diffIDSets_clean. tauto. }
  destruct (nonempty dd) as [df|]; [|naive_solver]. split; [done|]. intros (_ & _ & syn' & [= <-] & Hs).
  apply Hdd in Hs. done.
Qed.

Lemma finish_error rq proxy body status meta : status ≠ 200 →
  finish Quote error_text rq proxy body status meta = VMatch ↔ pr_Status proxy = status.
Proof using Type.
  intros Hs. unfold finish, CompareStatus. destruct (decide (pr_Status proxy = status)) as [->|Hp].
  - rewrite (bool_decide_false (status ≠ status)), (bool_decide_false (status = 200)) by tauto. done.
  - rewrite (bool_decide_true (_ ≠ status)) by done. cbn [negb]. split; [|done]. by repeat case_match.
Qed.

Lemma refusal_status roomID eventID origin e : state_ids_answer d None origin roomID eventID (Err e) →
  ∃ status code msg, as_matrix e = Some (status, code, msg) ∧ status ≠ 200.
Proof using Type.
  unfold state_ids_answer, access_answer. intros Ha. repeat case_match; simplify_eq; try (by eexists _, _, _).
  inversion Ha; by eexists _, _, _.
Qed.

(** The verdict on a /state_ids answer of Synapse's is about the tables. *)
Lemma state_ids_judged serverName verifier rq proxy origin st :
  rq_Endpoint rq = "state_ids"%string → verifyOrigin verifier rq = (origin, None) →
  askable d None (with_origin rq origin) → rfit d F st →
  (∀ pdus chain, state_ids_answer d None origin (rq_RoomID rq) (rq_EventID rq) (Ok (SIR pdus chain)) →
     utf8_ids pdus ∧ utf8_ids chain) →
  ∃ v r st', Compare.run (H := matrixstate_resolver None now) Quote error_text is_deadline serverName verifier rq proxy st = (Ok v, st') ∧
    rfit d F st' ∧ state_ids_answer d None origin (rq_RoomID rq) (rq_EventID rq) r ∧
    (v = VMatch ↔
       match r with
       | Ok (SIR pdus chain) => pr_Status proxy = 200 ∧ pr_Truncated proxy = false ∧
           ∃ syn, parse_state_ids (pr_Body proxy) = Some syn ∧
             (∀ x, x ∈ sib_PDUIDs syn ↔ x ∈ pdus) ∧ (∀ x, x ∈ sib_AuthChainIDs syn ↔ x ∈ chain)
       | Err e => ∃ code msg, as_matrix e = Some (pr_Status proxy, code, msg)
       end) ∧
    (∀ resp, r = Ok resp → pr_Status proxy = 200 → pr_Truncated proxy = true → v = VSkip "truncated").
Proof using Hd.
  intros Hep Hv Hask Hst Hutf.
  destruct (revals_Answer_ids d F Hd None now serverName (with_origin rq origin) Hask Hep) as (r & Hr & Hans).
  cbn [with_origin rq_Origin rq_RoomID rq_EventID] in Hans. destruct (Hr st Hst) as (st' & E & Hst').
  unfold run. rewrite Hv. unfold mbind, R_bind, rtry. rewrite E. eexists _, r, st'. split; [reflexivity|]. split; [done|]. split; [done|].
  destruct r as [[pdus chain]|e]; cbn [state_ids_reply].
  - destruct (Hutf pdus chain Hans) as [Hp Hc]. split; [by apply finish_ids|]. intros _ _ E1 E2.
    unfold finish, CompareStatus. cbn [fst snd]. by rewrite E1, E2.
  - split; [|done]. destruct (refusal_status _ _ _ _ Hans) as (status & code & msg & Ha & Hs). unfold of_error. rewrite Ha.
    cbn [fst snd Response]. rewrite finish_error by done. naive_solver.
Qed.

(** *** /state, by digest *)

Definition digest_of (cs : list string) : string := digest (accumulate cs empty_digest).
(** Two different multisets of events with one digest. *)
Definition collision (cs cs' : list string) : Prop := ¬ cs ≡ₚ cs' ∧ digest_of cs = digest_of cs'.

Lemma digest_same cs cs' : digest_of cs = digest_of cs' ↔ cs ≡ₚ cs' ∨ collision cs cs'.
Proof using Type.
  unfold collision. assert (cs ≡ₚ cs' → digest_of cs = digest_of cs').
  { intros Hp. unfold digest_of, digest. by rewrite !accumulate_sum, Hp. }
  destruct (decide (cs ≡ₚ cs')); tauto.
Qed.

(** The canonical forms of the events an array is to have. *)
Definition events_of (ids cs : list string) : Prop :=
  ∃ bs, sent d ids bs ∧ Forall2 (λ b c, Canonical b = Some c) bs cs.

(** What /state is to hold: the events of both arrays, or the error. *)
Definition state_expected (origin roomID eventID : string) (x : result error (list string * list string)) : Prop :=
  match access_answer d origin roomID with
  | Err e => x = Err e
  | Ok _ => ∃ r, resolved d roomID eventID r ∧
      match r with
      | Err e => x = Err e
      | Ok pdus => ∃ chain, NoDup chain ∧ (∀ e, e ∈ chain ↔ in_chain d (filter (λ id, known d id = true) pdus) e) ∧
          match x with
          | Ok (ps, cs) => events_of pdus ps ∧ events_of chain cs
          | Err e => ∃ id, (id ∈ pdus ∨ id ∈ chain) ∧ state_fault d id e
          end
      end
  end.

Lemma expected_error origin roomID eventID e : state_expected origin roomID eventID (Err e) →
  as_matrix e = None ∨ ∃ status code msg, as_matrix e = Some (status, code, msg) ∧ status ∉ [0; 200; 502].
Proof using Type.
  assert (∀ e, access_answer d origin roomID = Err e ∨ state_answer d roomID eventID (Err e) →
    ∃ status code msg, as_matrix e = Some (status, code, msg) ∧ status ∉ [0; 200; 502]) as Href.
  { intros e' [Ha|Ha].
    - unfold access_answer in Ha. repeat case_match; simplify_eq; eexists _, _, _; split; try reflexivity; by apply (bool_decide_unpack _).
    - inversion Ha; eexists _, _, _; split; try reflexivity; by apply (bool_decide_unpack _). }
  unfold state_expected. destruct (access_answer d origin roomID) as [[]|e'] eqn:Ea.
  - intros ([pdus|e'] & Hr & Hx); [|injection Hx as ->; right; apply Href; by right].
    left. destruct Hx as (chain & _ & _ & i & _ & [ev e0 _ _ Hb|ev body _ _ _ _ _]); [|done].
    inversion Hb as [hide _ E]. unfold serialised in E. repeat case_match; by simplify_eq.
  - intros [= ->]. right. apply Href. by left.
Qed.

(** The run over [io.Discard], from the one over a buffer. *)
Lemma state_discarded origin roomID eventID st :
  Inj (=) (=) sha256 → clear_host d roomID origin → plain_ids d roomID eventID → distinct_ids d eventID → rfit d F st →
  ∃ res (k : sink unit) err st', @StateStream.State _ unit Discard tt origin roomID eventID st = (Ok (res, k, err), st') ∧ rfit d F st' ∧
    match err with
    | Some e => state_expected origin roomID eventID (Err e)
    | None => ∃ ps cs, state_expected origin roomID eventID (Ok (ps, cs)) ∧
        PDUDigest res = digest_of ps ∧ AuthChainDigest res = digest_of cs
    end.
Proof using Hd.
  intros Hinj Hc Hp Hnd Hst.
  assert (taken EmptyString = EmptyString) as Ht0 by reflexivity.
  destruct (revals_state_spec d F Hd (W := string) Hinj origin roomID eventID EmptyString Ht0 Hc Hp Hnd) as (res & k & err & Hr & Hspec).
  destruct (Hr st Hst) as (st' & E & Hst').
  assert (Accepting string) as Hs by done. assert (@Accepting unit Discard) as Hu by done.
  destruct (@State_alike _ string unit buffer Hs Discard Hu EmptyString tt origin roomID eventID st) as [Ew Ho]. rewrite E in Ew, Ho. cbn [fst snd] in *.
  destruct (@StateStream.State _ unit Discard tt origin roomID eventID st) as [[[[res2 k2] err2]|e] st2]; [|done].
  cbn [fst snd] in *. subst st2. destruct Ho as [Er Ee]. cbn [fst snd] in *. subst res2 err2.
  exists res, k2, err, st'. split; [done|]. split; [done|]. clear E Hr k2. unfold state_expected. unfold state_spec in Hspec.
  destruct (access_answer d origin roomID) as [[]|e]; [|by destruct Hspec as [-> _]].
  destruct Hspec as (r & Hres & Hspec). destruct r as [pdus|e]; [|destruct Hspec as [-> _]; by exists (Err e)].
  destruct Hspec as (chain & Hcn & Hcin & _ & Hspec). destruct err as [e|].
  - destruct Hspec as [(w & p & Hw)|Hf]; [discriminate Hw|]. exists (Ok pdus). split; [done|]. by exists chain.
  - destruct Hspec as (bs1 & bs2 & H1 & H2 & _ & _ & _ & _ & (cs1 & Hd1 & E1) & (cs2 & Hd2 & E2)).
    exists cs1, cs2. split; [|done]. exists (Ok pdus). split; [done|]. exists chain. split; [done|]. split; [done|].
    split; [by exists bs1|by exists bs2].
Qed.

(** So is that on a /state answer, which is never held whole. *)
Lemma state_judged verifier rq proxy origin body st :
  verifyOrigin verifier rq = (origin, None) → Inj (=) (=) sha256 →
  clear_host d (rq_RoomID rq) origin → plain_ids d (rq_RoomID rq) (rq_EventID rq) → distinct_ids d (rq_EventID rq) →
  rfit d F st →
  ∃ v st', compareState (H := matrixstate_resolver None now) Quote error_text is_deadline verifier rq proxy (DigestStateResponse body) st = (Ok v, st') ∧
    rfit d F st' ∧
    match arrays body, unavailable proxy with
    | Some (ps, cs), false => ∃ x, state_expected origin (rq_RoomID rq) (rq_EventID rq) x ∧
        (v = VMatch ↔
           match x with
           | Ok (ps', cs') => pr_Status proxy = 200 ∧ (ps ≡ₚ ps' ∨ collision ps ps') ∧ (cs ≡ₚ cs' ∨ collision cs cs')
           | Err e => ∃ code msg, as_matrix e = Some (pr_Status proxy, code, msg)
           end)
    | _, _ => ∃ reason, v = VSkip reason
    end.
Proof using Hd.
  intros Hv Hinj Hc Hp Hnd Hst. unfold compareState. pose proof (digest_arrays body) as Hda.
  destruct (DigestStateResponse body) as [up e]. cbn [fst snd]. destruct (arrays body) as [[ps cs]|].
  2:{ rewrite bool_decide_true by done. eexists _, st. split; [reflexivity|]. split; [done|]. by eexists. }
  destruct Hda as (-> & Hup & Hua). rewrite bool_decide_false by (by intros []).
  destruct (unavailable proxy); [eexists _, st; split; [reflexivity|]; split; [done|]; by eexists|]. rewrite Hv.
  destruct (state_discarded origin (rq_RoomID rq) (rq_EventID rq) st Hinj Hc Hp Hnd Hst) as (res & k & err & st' & E & Hst' & Hx).
  unfold mbind, R_bind. cbn [rs_State matrixstate_resolver]. rewrite E. eexists _, st'. split; [reflexivity|]. split; [done|].
  destruct err as [e|].
  - exists (Err e). split; [done|].
    destruct (expected_error _ _ _ _ Hx) as [->|(status & code & msg & -> & Hs)]; [naive_solver|].
    cbn [fst Response]. rewrite finish_error by (intros ->; apply Hs; apply (bool_decide_unpack _); done). naive_solver.
  - destruct Hx as (ps' & cs' & Hx & Ep & Ec). exists (Ok (ps', cs')). split; [done|]. case_bool_decide as Hne.
    + unfold finish, CompareStatus. rewrite (bool_decide_true (_ ≠ 200)) by done. cbn [negb]. split; [|tauto]. by repeat case_match.
    + unfold digests_verdict, Agrees. rewrite Hup, Hua, Ep, Ec. fold (digest_of ps) (digest_of cs).
      rewrite <-!digest_same. destruct (decide (pr_Status proxy = 200)) as [|]; [|tauto].
      generalize (digest_of ps) as x, (digest_of ps') as x', (digest_of cs) as y, (digest_of cs') as y'. intros x x' y y'.
      do 2 case_bool_decide; cbn [andb]; (split; [intros Hm|intros (_ & -> & ->)]); done || by split_and!.
Qed.
End shadow.

(** ** A concrete request *)
Module EndWitness.
Import ServeWitness.
Definition ask : Native.Request := MkRequest "state_ids" "h" "!r" "$x" EmptyString.
Definition start : rworld := NewResolver ServedWitness.up.
Definition respond_to (rq : hrequest) :=
  ServeHTTP (H := open_connection) (λ n, Z.of_nat n) true (λ _, false) (λ _, EmptyString) id handler env rq start.
Definition ours : string := js "{'auth_chain_ids':['$c','$m'],'pdu_ids':['$v','$m','$c','$m']}".

Lemma askable_ids : askable (H := Sample.ext) ServedWitness.db None ask.
Proof.
  split; [done| |].
  - intros _. apply ServedWitness.clear. by left.
  - intros _. split; [by intros x y Hxy|]. split; [exact ServedWitness.plain|exact I].
Qed.

Lemma natively_ids : natively id handler env (get ids_path) ids_route EmptyString "h".
Proof. by split. Qed.

(** The identifiers of an answer are those of the tables. *)
Lemma utf8_answer pdus chain : state_ids_answer (H := Sample.ext) ServedWitness.db None "h" "!r" "$x" (Ok (SIR pdus chain)) →
  utf8_ids pdus ∧ utf8_ids chain.
Proof.
  assert (access_answer (H := Sample.ext) ServedWitness.db "h" "!r" = Ok tt) as Ha by (vm_compute; reflexivity).
  unfold state_ids_answer. rewrite Ha. intros Hs.
  assert (∃ ev g, raw_event ServedWitness.db "$x" = Some ev ∧ event_group ServedWitness.db "$x" = Some g ∧
    pdus ≡ₚ ids_before ServedWitness.db ev g ∧ ∀ e, e ∈ chain ↔ in_chain ServedWitness.db pdus e) as (ev & g & Hev & Hg & Hp & Hc).
  { inversion Hs; eauto 10. }
  split.
  - unfold utf8_ids. rewrite Hp.
    assert (StateKey_ <$> raw_event ServedWitness.db "$x" = Some None) as Hx by (vm_compute; reflexivity).
    rewrite Hev in Hx. injection Hx as Hx. assert (event_group ServedWitness.db "$x" = Some 1) as Hg1 by (vm_compute; reflexivity).
    rewrite Hg1 in Hg. injection Hg as <-. unfold ids_before, before. rewrite Hx. apply (bool_decide_unpack _). vm_compute. exact I.
  - apply Forall_forall. intros e (i & _ & Ht)%Hc. assert (e ∈ Db.ev_id <$> Db.events ServedWitness.db) as He.
    { clear Hc Hp. induction Ht as [x y [_ Hy]|x y z [_ Hy] _ IH]; [exact Hy|exact IH]. }
    clear Ht i. revert e He. apply Forall_forall. apply (bool_decide_unpack _). vm_compute. exact I.
Qed.
End EndWitness.

Lemma native_request_exact_witness :
  ∃ r st', rfit (H := Sample.ext) ServedWitness.db 20 st' ∧
    tables_say (H := Sample.ext) ServedWitness.db 20 None 0 "h" EndWitness.ask r ∧
    match r with
    | Ok (text, status, meta) => ∃ n, EndWitness.respond_to (ServeWitness.get ServeWitness.ids_path) =
        (Ok (Handled (respond (H := open_connection) json_type status text blank) (Answered n) Freed), st') ∧
        nr_Status n = status ∧ nr_Bytes n = str_len text ∧ nr_Meta n = meta
    | Err _ => EndWitness.respond_to (ServeWitness.get ServeWitness.ids_path) =
        (Ok (instead (conn := open_connection) ServeWitness.handler ServeWitness.env ServeWitness.ids_route), st')
    end.
Proof.
  apply (native_request_exact (H := Sample.ext) (conn := open_connection) ServedWitness.db 20 ServedWitness.proper_db
    (λ n, Z.of_nat n) true (λ _, false) (λ _, EmptyString) id None 0 ServeWitness.handler ServeWitness.env
    (ServeWitness.get ServeWitness.ids_path) ServeWitness.ids_route EmptyString "h" EndWitness.start).
  - reflexivity.
  - exact EndWitness.natively_ids.
  - discriminate.
  - reflexivity.
  - exact EndWitness.askable_ids.
  - exact ServedWitness.rfits.
Defined.

Lemma native_state_exact_witness :
  ∃ hd st', EndWitness.respond_to (ServeWitness.get ServeWitness.state_path) = (Ok hd, st') ∧
    rfit (H := Sample.ext) ServedWitness.db 20 st' ∧
    state_sent (H := Sample.ext) (conn := open_connection) (Hconn := open_lawful) ServedWitness.db (λ n, Z.of_nat n) true "h" "!r" "$x" hd.
Proof.
  destruct (native_state_exact (H := Sample.ext) (conn := open_connection) (Hconn := open_lawful) ServedWitness.db 20 ServedWitness.proper_db
    (λ n, Z.of_nat n) true (λ _, false) (λ _, EmptyString) id None 0 ServeWitness.handler ServeWitness.env
    (ServeWitness.get ServeWitness.state_path) ServeWitness.route EmptyString "h" EndWitness.start)
    as (hd & st' & E & Hs & _).
  - reflexivity.
  - exact natively_state.
  - reflexivity.
  - intros x y Hxy. exact Hxy.
  - apply ServedWitness.clear. by left.
  - exact ServedWitness.plain.
  - exact ids_before_distinct.
  - exists hd, st'. split; [exact E|]. apply Hs. exact ServedWitness.rfits.
Defined.

