(* ===== verification/Diagnose.v ===== *)
(** * [internal/shadow/diagnose.go]: the events behind a /state mismatch

    Two passes over both answers.  The first hashes every PDU and cancels equal
    hashes of the two sides, which leaves a residue; the second names the events
    whose hash is in the residue.  A replay of one side is the bytes it wrote and its
    error; the second pass may see other answers than the first.  What [gjson] reads
    as an integer is a parameter. *)
From stdpp Require Import gmultiset.
From S2P Require Import Prelude Json JsonStream Store External Pducmp Digest.

Open Scope list_scope.
Open Scope Z_scope.

Record EventIdentity := MkIdentity {
  id_Type : string; id_StateKey : string; id_Sender : string; id_OriginServerTS : Z; id_Depth : Z }.

Record ArrayDiagnosis := AD {
  NativeOnly : Z; SynapseOnly : Z; NativeSamples : list EventIdentity; SynapseSamples : list EventIdentity }.
Record StateDiagnosis := SD { dg_PDUs : ArrayDiagnosis; dg_AuthChain : ArrayDiagnosis }.
Definition no_diagnosis : ArrayDiagnosis := AD 0 0 [] [].

Definition Empty (d : StateDiagnosis) : bool :=
  bool_decide (NativeOnly (dg_PDUs d) = 0) && bool_decide (SynapseOnly (dg_PDUs d) = 0) &&
  bool_decide (NativeOnly (dg_AuthChain d) = 0) && bool_decide (SynapseOnly (dg_AuthChain d) = 0).

Definition defaultDiagnosisSamples : Z := 10.

(** [arrayFor], read and written. *)
Definition arrayFor (d : StateDiagnosis) (array : string) : ArrayDiagnosis :=
  if bool_decide (array = ArrayAuthChain) then dg_AuthChain d else dg_PDUs d.
Definition setArray (array : string) (a : ArrayDiagnosis) (d : StateDiagnosis) : StateDiagnosis :=
  if bool_decide (array = ArrayAuthChain) then SD (dg_PDUs d) a else SD a (dg_AuthChain d).

(** One side's replay: the bytes it wrote, and its error. *)
Record Replay := MkReplay { rp_Body : string; rp_Err : option error }.
(** [replay]: the scanner's error comes first. *)
Definition replay {St} (visit : visitor St) (side : Replay) (s : St) : St * option error :=
  let '(_, _, s, scanErr) := ScanStateResponse visit (rp_Body side) s in
  (s, match scanErr with Some e => Some e | None => rp_Err side end).

(** The residue: how many more of a hash the native side has, by array. *)
Notation residues := (gmap string (gmap string Z)).

Section diagnose.
Context `{!External}.
Variable gjson_int : string → string → Z.   (* [gjson.GetBytes(raw, path).Int()] *)

Definition gjson_str (raw path : string) : string := from_option fst EmptyString (gjson_get raw path).
Definition identify (raw : string) : EventIdentity :=
  MkIdentity (gjson_str raw "type") (gjson_str raw "state_key") (gjson_str raw "sender")
    (gjson_int raw "origin_server_ts") (gjson_int raw "depth").

Definition tally1 (sign : Z) (h : string) (m : gmap string Z) : gmap string Z :=
  let n := default 0 (m !! h) + sign in
  if bool_decide (n = 0) then delete h m else <[h := n]> m.
Definition tally (sign : Z) : visitor residues := λ array _ canonical _ residue,
  (match residue !! array with
   | None => residue
   | Some m => <[array := tally1 sign (sha256 canonical) m]> residue
   end, None).

(** The counts of one array. *)
Definition count_residue (m : gmap string Z) (a : ArrayDiagnosis) : ArrayDiagnosis :=
  map_fold (λ _ n a, if bool_decide (0 < n) then AD (NativeOnly a + n) (SynapseOnly a) (NativeSamples a) (SynapseSamples a)
                     else AD (NativeOnly a) (SynapseOnly a + - n) (NativeSamples a) (SynapseSamples a)) a m.

(** [pick] *)
Definition samples_of (sign : Z) (a : ArrayDiagnosis) : list EventIdentity :=
  if bool_decide (0 < sign) then NativeSamples a else SynapseSamples a.
Definition set_samples (sign : Z) (l : list EventIdentity) (a : ArrayDiagnosis) : ArrayDiagnosis :=
  if bool_decide (0 < sign) then AD (NativeOnly a) (SynapseOnly a) l (SynapseSamples a)
  else AD (NativeOnly a) (SynapseOnly a) (NativeSamples a) l.

(** The working copy, and the visitor that uses it up. *)
Definition remaining_of (sign : Z) (residue : residues) : residues :=
  fmap (M := gmap string)
    (omap (M := gmap string) (λ n : Z, if bool_decide (0 < n * sign) then Some (n * sign) else None)) residue.
Definition collect (sign samples : Z) : visitor (residues * StateDiagnosis) := λ array _ canonical raw st,
  (match st.1 !! array with
   | None => st
   | Some m =>
       let h := sha256 canonical in
       let n := default 0 (m !! h) in
       if bool_decide (n ≤ 0) then st
       else
         let a := arrayFor st.2 array in
         let out := samples_of sign a in
         (<[array := <[h := n - 1]> m]> st.1,
          if bool_decide (Z.of_nat (length out) < samples)
          then setArray array (set_samples sign (out ++ [identify raw]) a) st.2 else st.2)
   end, None).

(** The two passes.  A diagnosis comes with the error of the second pass, but not
    with one of the first. *)
Definition start : residues := <[ArrayPDUs := ∅]> (<[ArrayAuthChain := ∅]> ∅).
Definition DiagnoseStateMismatch (native synapse native' synapse' : Replay) (samples : Z)
    : option StateDiagnosis * option error :=
  let samples := if bool_decide (samples ≤ 0) then defaultDiagnosisSamples else samples in
  let '(residue, e) := replay (tally 1) native start in
  match e with
  | Some e => (None, Some (Wrapped "replay native" e))
  | None =>
      let '(residue, e) := replay (tally (-1)) synapse residue in
      match e with
      | Some e => (None, Some (Wrapped "replay synapse" e))
      | None =>
          let d := map_fold (λ array m d, setArray array (count_residue m (arrayFor d array)) d)
                     (SD no_diagnosis no_diagnosis) residue in
          if Empty d then (Some d, None)
          else
            let '((_, d), e) := replay (collect 1 samples) native' (remaining_of 1 residue, d) in
            match e with
            | Some e => (Some d, Some (Wrapped "identify native" e))
            | None =>
                let '((_, d), e) := replay (collect (-1) samples) synapse' (remaining_of (-1) residue, d) in
                (Some d, Wrapped "identify synapse" <$> e)
            end
      end
  end.
End diagnose.

(** ** A scan is a fold over what it visits *)
Record visited := MkVisited { v_array : string; v_index : Z; v_canonical : string; v_raw : string }.

Section trace.
(** A visitor that never fails, by its effect on the state. *)
Definition effect {St} (visit : visitor St) (v : visited) (s : St) : St :=
  (visit (v_array v) (v_index v) (v_canonical v) (v_raw v) s).1.
Definition never_fails {St} (visit : visitor St) : Prop := ∀ array n canonical raw s, (visit array n canonical raw s).2 = None.
Definition folds {St} (visit : visitor St) (l : list visited) (s : St) : St := foldl (λ s v, effect visit v s) s l.

Definition elements_trace (fuel : nat) (array : string) (n : Z) (dec : decoder) : Prop :=
  ∃ n' dec' l e, Forall (λ v, v_array v = array) l ∧ ∀ St (visit : visitor St) s, never_fails visit →
    scan_elements visit fuel array n dec s = (n', dec', folds visit l s, e).

Lemma scan_elements_trace fuel array n dec : elements_trace fuel array n dec.
Proof.
  revert n dec. induction fuel as [|fuel IH]; intros n dec.
  { by exists n, dec, [], (Some OutOfFuel). }
  unfold elements_trace. cbn [scan_elements]. destruct (More dec).
  2:{ destruct (Token dec) as [[t dec']|]; [by exists n, dec', [], None|by eexists n, dec, [], _]. }
  destruct (Decode dec) as [[[v raw] dec']|]; [|by eexists n, dec, [], _].
  destruct (Canonical raw) as [c|]; [|by eexists n, dec', [], _].
  destruct (IH (n + 1) dec') as (n2 & dec2 & l & e & Ha & H).
  exists n2, dec2, (MkVisited array n c raw :: l), e. split; [by constructor|].
  intros St visit s Hv. specialize (Hv array n c raw s) as Hn.
  destruct (visit array n c raw s) as [s' e'] eqn:Ev. cbn in Hn. subst e'. rewrite H by done.
  unfold folds. cbn [foldl]. unfold effect at 3. cbn. by rewrite Ev.
Qed.

Definition in_arrays (v : visited) : Prop := v_array v = ArrayPDUs ∨ v_array v = ArrayAuthChain.

Lemma scanArray_trace dec array : ∃ n' dec' l e, Forall (λ v, v_array v = array) l ∧
  ∀ St (visit : visitor St) s, never_fails visit → scanArray visit dec array s = (n', dec', folds visit l s, e).
Proof.
  unfold scanArray. destruct (Token dec) as [[t dec']|]; [|by eexists 0, dec, [], _].
  destruct t as [c| |]; [|by eexists 0, dec, [], _..].
  destruct (decide (c = "["%char)) as [->|Hc]; [apply scan_elements_trace|].
  exists 0, dec, [], (Some (ErrText "expected array")). split; [done|]. intros St visit s _.
  destruct c as [[] [] [] [] [] [] [] []]; try done.
Qed.

Lemma folds_app {St} (visit : visitor St) l l' s : folds visit (l ++ l') s = folds visit l' (folds visit l s).
Proof. apply foldl_app. Qed.

Lemma scan_members_trace fuel pdus authChain dec : ∃ p a l e, Forall in_arrays l ∧
  ∀ St (visit : visitor St) s, never_fails visit → scan_members visit fuel pdus authChain dec s = (p, a, folds visit l s, e).
Proof.
  revert pdus authChain dec. induction fuel as [|fuel IH]; intros pdus authChain dec.
  { by exists pdus, authChain, [], (Some OutOfFuel). }
  cbn [scan_members]. destruct (More dec).
  2:{ destruct (Token dec) as [[t dec']|]; [by exists pdus, authChain, [], None|by eexists pdus, authChain, [], _]. }
  destruct (Token dec) as [[tok dec']|]; [|by eexists pdus, authChain, [], _].
  cbv zeta. set (key := match tok with StrTok k => k | _ => EmptyString end).
  destruct (bool_decide (key = ArrayPDUs)); [|destruct (bool_decide (key = ArrayAuthChain))].
  - destruct (scanArray_trace dec' ArrayPDUs) as (n & dec2 & l & e & Hl & H).
    assert (Forall in_arrays l) as Hl' by (eapply Forall_impl; [exact Hl|by left]). destruct e as [e|].
    + eexists n, authChain, l, _. split; [done|]. intros St visit s Hv. by rewrite H.
    + destruct (IH n authChain dec2) as (p & a & l' & e' & Hl2 & H'). exists p, a, (l ++ l'), e'. split; [by apply Forall_app|].
      intros St visit s Hv. by rewrite H, H', folds_app.
  - destruct (scanArray_trace dec' ArrayAuthChain) as (n & dec2 & l & e & Hl & H).
    assert (Forall in_arrays l) as Hl' by (eapply Forall_impl; [exact Hl|by right]). destruct e as [e|].
    + eexists pdus, n, l, _. split; [done|]. intros St visit s Hv. by rewrite H.
    + destruct (IH pdus n dec2) as (p & a & l' & e' & Hl2 & H'). exists p, a, (l ++ l'), e'. split; [by apply Forall_app|].
      intros St visit s Hv. by rewrite H, H', folds_app.
  - destruct (Decode dec') as [[[v raw] dec2]|]; [apply IH|by eexists pdus, authChain, [], _].
Qed.
End trace.

(** ** The residue is the difference of the multisets of hashes *)
Section residue.
Context `{!External}.

Definition of_array (array : string) (l : list visited) : list visited := filter (λ v, v_array v = array) l.
Definition hash_of (v : visited) : string := sha256 (v_canonical v).
Definition hashes (array : string) (l : list visited) : gmultiset string := list_to_set_disj (hash_of <$> of_array array l).

Definition nonzero (n : Z) : option Z := if bool_decide (n = 0) then None else Some n.
Definition balance (m : gmap string Z) (X Y : gmultiset string) : Prop :=
  ∀ h, m !! h = nonzero (Z.of_nat (multiplicity h X) - Z.of_nat (multiplicity h Y)).

Lemma default_nonzero n : default 0 (nonzero n) = n.
Proof. unfold nonzero. by case_bool_decide. Qed.
Lemma tally1_lookup sign h m h' :
  tally1 sign h m !! h' = if decide (h' = h) then nonzero (default 0 (m !! h) + sign) else m !! h'.
Proof.
  unfold tally1, nonzero. destruct (decide (h' = h)) as [->|Hne]; case_bool_decide;
    rewrite ?lookup_delete_eq, ?lookup_insert_eq, ?lookup_delete_ne, ?lookup_insert_ne by done; done.
Qed.

Lemma tally1_native h m X Y : balance m X Y → balance (tally1 1 h m) ({[+ h +]} ⊎ X) Y.
Proof.
  intros Hb h'. rewrite tally1_lookup, multiplicity_disj_union, multiplicity_singleton, (Hb h).
  destruct (decide (h' = h)) as [->|]; [rewrite default_nonzero|rewrite (Hb h')]; f_equal; lia.
Qed.
Lemma tally1_synapse h m X Y : balance m X Y → balance (tally1 (-1) h m) X ({[+ h +]} ⊎ Y).
Proof.
  intros Hb h'. rewrite tally1_lookup, multiplicity_disj_union, multiplicity_singleton, (Hb h).
  destruct (decide (h' = h)) as [->|]; [rewrite default_nonzero|rewrite (Hb h')]; f_equal; lia.
Qed.

Definition tallied (sign : Z) (vs : list visited) (m : gmap string Z) : gmap string Z :=
  foldl (λ m v, tally1 sign (hash_of v) m) m vs.
Lemma tallied_native vs m X Y : balance m X Y → balance (tallied 1 vs m) (list_to_set_disj (hash_of <$> vs) ⊎ X) Y.
Proof.
  revert m X. induction vs as [|v vs IH]; intros m X Hb.
  - cbn [fmap list_fmap tallied foldl]. by replace (list_to_set_disj [] ⊎ X) with X by multiset_solver.
  - cbn [tallied foldl fmap list_fmap]. rewrite list_to_set_disj_cons.
    replace ({[+ hash_of v +]} ⊎ list_to_set_disj (hash_of <$> vs) ⊎ X)
      with (list_to_set_disj (hash_of <$> vs) ⊎ ({[+ hash_of v +]} ⊎ X)) by multiset_solver.
    by apply IH, tally1_native.
Qed.
Lemma tallied_synapse vs m X Y : balance m X Y → balance (tallied (-1) vs m) X (list_to_set_disj (hash_of <$> vs) ⊎ Y).
Proof.
  revert m Y. induction vs as [|v vs IH]; intros m Y Hb.
  - cbn [fmap list_fmap tallied foldl]. by replace (list_to_set_disj [] ⊎ Y) with Y by multiset_solver.
  - cbn [tallied foldl fmap list_fmap]. rewrite list_to_set_disj_cons.
    replace ({[+ hash_of v +]} ⊎ list_to_set_disj (hash_of <$> vs) ⊎ Y)
      with (list_to_set_disj (hash_of <$> vs) ⊎ ({[+ hash_of v +]} ⊎ Y)) by multiset_solver.
    by apply IH, tally1_synapse.
Qed.

Lemma folds_tally sign l (residue : residues) A :
  folds (tally sign) l residue !! A = tallied sign (of_array A l) <$> residue !! A.
Proof.
  revert residue. induction l as [|v l IH]; intros residue; [cbn; by destruct (residue !! A)|].
  cbn [folds foldl]. change (foldl _ ?x l) with (folds (tally sign) l x). rewrite IH. unfold effect, tally. cbn [fst].
  unfold of_array. destruct (decide (v_array v = A)) as [<-|Hne].
  - rewrite filter_cons_True by done. destruct (residue !! v_array v) as [m|] eqn:E; [|by rewrite E].
    rewrite lookup_insert_eq. done.
  - rewrite filter_cons_False by done. destruct (residue !! v_array v) as [m|] eqn:E; [|done].
    by rewrite lookup_insert_ne.
Qed.

(** Counting: the sizes of the two differences. *)
Lemma count_exact m (X Y : gmultiset string) a :
  (∀ h, m !! h = nonzero (Z.of_nat (multiplicity h X) - Z.of_nat (multiplicity h Y))) →
  (∀ h, multiplicity h X = 0%nat ∨ multiplicity h Y = 0%nat) →
  count_residue m a = AD (NativeOnly a + Z.of_nat (size X)) (SynapseOnly a + Z.of_nat (size Y)) (NativeSamples a) (SynapseSamples a).
Proof.
  revert X Y. induction m as [|h n m Hm Hf IH] using map_first_key_ind; intros X Y Hb Hd.
  - assert (X = ∅ ∧ Y = ∅) as [-> ->].
    { split; apply gmultiset_eq; intros h; specialize (Hb h); rewrite lookup_empty in Hb; unfold nonzero in Hb;
        case_bool_decide; try done; destruct (Hd h); rewrite multiplicity_empty; lia. }
    unfold count_residue. rewrite map_fold_empty, gmultiset_size_empty. destruct a. cbn. f_equal; lia.
  - unfold count_residue. rewrite map_fold_insert_first_key by done. fold (count_residue m a).
    pose proof (Hb h) as Hh. rewrite lookup_insert_eq in Hh. unfold nonzero in Hh. case_bool_decide as Hz; [done|].
    injection Hh as Hn.
    set (X' := X ∖ (multiplicity h X *: {[+ h +]})). set (Y' := Y ∖ (multiplicity h Y *: {[+ h +]})).
    assert (∀ Z0 : gmultiset string, multiplicity h Z0 *: {[+ h +]} ⊆ Z0) as Hsub.
    { intros Z0 h'. rewrite multiplicity_scalar_mul, multiplicity_singleton. destruct (decide (h' = h)) as [->|]; lia. }
    assert (∀ Z0 : gmultiset string, ∀ h', multiplicity h' (Z0 ∖ (multiplicity h Z0 *: {[+ h +]})) =
      if decide (h' = h) then 0%nat else multiplicity h' Z0) as Hmul.
    { intros Z0 h'. rewrite multiplicity_difference, multiplicity_scalar_mul, multiplicity_singleton.
      destruct (decide (h' = h)) as [->|]; lia. }
    assert (∀ Z0 : gmultiset string, Z.of_nat (size Z0) =
      Z.of_nat (size (Z0 ∖ (multiplicity h Z0 *: {[+ h +]}))) + Z.of_nat (multiplicity h Z0)) as Hsize.
    { intros Z0. pose proof (gmultiset_size_difference Z0 (multiplicity h Z0 *: {[+ h +]}) (Hsub Z0)) as E.
      pose proof (gmultiset_subseteq_size _ _ (Hsub Z0)) as Hle.
      rewrite gmultiset_size_scalar_mul, gmultiset_size_singleton in E, Hle. lia. }
    rewrite (IH X' Y').
    + rewrite (Hsize X), (Hsize Y). fold X' Y'. cbn [NativeOnly SynapseOnly NativeSamples SynapseSamples].
      destruct (Hd h) as [H0|H0]; rewrite H0 in *; case_bool_decide; try lia; f_equal; lia.
    + intros h'. unfold X', Y'. rewrite !Hmul. specialize (Hb h'). destruct (decide (h' = h)) as [->|Hne]; [by rewrite Hm|].
      by rewrite lookup_insert_ne in Hb.
    + intros h'. unfold X', Y'. rewrite !Hmul. destruct (decide (h' = h)); [by left|apply Hd].
Qed.

Lemma count_balance m X Y a : balance m X Y →
  count_residue m a = AD (NativeOnly a + Z.of_nat (size (X ∖ Y))) (SynapseOnly a + Z.of_nat (size (Y ∖ X)))
    (NativeSamples a) (SynapseSamples a).
Proof.
  intros Hb. apply count_exact.
  - intros h. rewrite Hb, !multiplicity_difference. f_equal. lia.
  - intros h. rewrite !multiplicity_difference. lia.
Qed.
End residue.

(** ** The samples name the residue *)
Section picking.
Context `{!External}.

(** The events of [vs] that use up [R], one hash at a time. *)
Fixpoint picked (R : gmultiset string) (vs : list visited) : list visited :=
  match vs with
  | [] => []
  | v :: vs => if decide (hash_of v ∈ R) then v :: picked (R ∖ {[+ hash_of v +]}) vs else picked R vs
  end.

Lemma mult_in h (R : gmultiset string) : h ∈ R → (0 < multiplicity h R)%nat.
Proof. done. Qed.
Lemma mult_not_in h (R : gmultiset string) : h ∉ R → multiplicity h R = 0%nat.
Proof. intros Hn. assert (¬ (0 < multiplicity h R)%nat) by done. lia. Qed.

Lemma picked_sublist R vs : picked R vs `sublist_of` vs.
Proof.
  revert R. induction vs as [|v vs IH]; intros R; [constructor|]. cbn [picked].
  case_decide; [by apply sublist_skip|by apply sublist_cons].
Qed.
Lemma picked_hashes R vs :
  list_to_set_disj (hash_of <$> picked R vs) = R ∩ (list_to_set_disj (hash_of <$> vs) : gmultiset string).
Proof.
  revert R. induction vs as [|v vs IH]; intros R; [cbn; multiset_solver|].
  cbn [picked fmap list_fmap]. rewrite list_to_set_disj_cons. case_decide as Hin.
  - cbn [fmap list_fmap]. rewrite list_to_set_disj_cons, IH. apply gmultiset_eq. intros h.
    rewrite multiplicity_disj_union, !multiplicity_intersection, multiplicity_difference, multiplicity_disj_union,
      multiplicity_singleton. apply mult_in in Hin. destruct (decide (h = hash_of v)) as [->|]; lia.
  - rewrite IH. apply gmultiset_eq. intros h.
    rewrite !multiplicity_intersection, multiplicity_disj_union, multiplicity_singleton.
    apply mult_not_in in Hin. destruct (decide (h = hash_of v)) as [->|]; lia.
Qed.

Definition stock (m : gmap string Z) (R : gmultiset string) : Prop :=
  ∀ h, Z.max 0 (default 0 (m !! h)) = Z.of_nat (multiplicity h R).

Definition take_samples (samples : Z) (out : list EventIdentity) (l : list EventIdentity) : list EventIdentity :=
  out ++ take (Z.to_nat samples - length out)%nat l.

(** What a pass over [l] leaves of an array of the state. *)
Definition kept_array (sign : Z) (a a' : ArrayDiagnosis) : Prop :=
  NativeOnly a' = NativeOnly a ∧ SynapseOnly a' = SynapseOnly a ∧ samples_of (- sign) a' = samples_of (- sign) a.

Lemma arrayFor_set A B a d : (A = ArrayPDUs ∨ A = ArrayAuthChain) → (B = ArrayPDUs ∨ B = ArrayAuthChain) →
  arrayFor (setArray A a d) B = if decide (B = A) then a else arrayFor d B.
Proof. intros [->| ->] [->| ->]; unfold arrayFor, setArray; reflexivity. Qed.

Lemma samples_set sign l a : sign = 1 ∨ sign = -1 →
  samples_of sign (set_samples sign l a) = l ∧ kept_array sign a (set_samples sign l a).
Proof. intros [->| ->]; by repeat split. Qed.

End picking.

Section naming.
Context `{!External}.
Variable gjson_int : string → string → Z.
Notation identify := (identify gjson_int).

Lemma folds_collect sign samples l st A R : sign = 1 ∨ sign = -1 → 0 ≤ samples →
  Forall in_arrays l → (A = ArrayPDUs ∨ A = ArrayAuthChain) →
  (∃ m, st.1 !! A = Some m ∧ stock m R) → (Z.of_nat (length (samples_of sign (arrayFor st.2 A))) ≤ samples) →
  let st' := folds (collect gjson_int sign samples) l st in
  samples_of sign (arrayFor st'.2 A) =
    take_samples samples (samples_of sign (arrayFor st.2 A)) ((λ v, identify (v_raw v)) <$> picked R (of_array A l)) ∧
  kept_array sign (arrayFor st.2 A) (arrayFor st'.2 A).
Proof.
  intros Hs H0 Hl HA. revert st R. induction Hl as [|v l Hv Hl IH]; intros st R (m & Hm & Hst) Hlen; cbv zeta in *.
  { split; [|done]. unfold take_samples. cbn. by rewrite take_nil, app_nil_r. }
  cbn [folds foldl]. change (foldl _ ?x l) with (folds (collect gjson_int sign samples) l x).
  unfold of_array. destruct (decide (v_array v = A)) as [HvA|Hne].
  - rewrite filter_cons_True by done. cbn [picked]. unfold effect at 1 2, collect at 2 4. cbn [fst]. rewrite HvA, Hm.
    fold (hash_of v). pose proof (Hst (hash_of v)) as Hh.
    destruct (decide (hash_of v ∈ R)) as [Hin|Hin]; [apply mult_in in Hin|apply mult_not_in in Hin].
    + rewrite bool_decide_false by lia. set (out := samples_of sign (arrayFor st.2 A)) in *.
      assert (stock (<[hash_of v := default 0 (m !! hash_of v) - 1]> m) (R ∖ {[+ hash_of v +]})) as Hst'.
      { intros h. rewrite multiplicity_difference, multiplicity_singleton. destruct (decide (h = hash_of v)) as [->|].
        - rewrite lookup_insert_eq. cbn. lia.
        - rewrite lookup_insert_ne by done. specialize (Hst h). lia. }
      case_bool_decide as Hcap.
      * destruct (samples_set sign (out ++ [identify (v_raw v)]) (arrayFor st.2 A) Hs) as [Hso Hk].
        match goal with |- context [folds _ l ?x] => destruct (IH x (R ∖ {[+ hash_of v +]})) as [E1 E2] end.
        { cbn [fst]. rewrite lookup_insert_eq. eauto. }
        { cbn [snd]. rewrite arrayFor_set, decide_True, Hso, length_app by done. cbn. lia. }
        cbn [snd] in E1, E2. rewrite arrayFor_set, decide_True in E1, E2 by done. rewrite Hso in E1. split.
        -- rewrite E1. unfold take_samples, of_array. rewrite length_app. cbn [length fmap list_fmap].
           rewrite <-app_assoc. f_equal. replace (Z.to_nat samples - length out)%nat with
             (S (Z.to_nat samples - (length out + 1)))%nat by lia. done.
        -- destruct Hk as (K1 & K2 & K3), E2 as (L1 & L2 & L3). unfold kept_array.
           rewrite L1, L2, L3, K1, K2, K3. done.
      * match goal with |- context [folds _ l ?x] => destruct (IH x (R ∖ {[+ hash_of v +]})) as [E1 E2] end.
        { cbn [fst]. rewrite lookup_insert_eq. eauto. }
        { done. }
        cbn [snd] in E1, E2. split; [|done]. rewrite E1. unfold take_samples. fold out.
        replace (Z.to_nat samples - length out)%nat with 0%nat by lia. by rewrite !take_0.
    + rewrite bool_decide_true by lia. apply IH; eauto.
  - rewrite filter_cons_False by done. unfold effect, collect. cbn [fst].
    destruct (st.1 !! v_array v) as [mv|] eqn:Ev; [|apply IH; eauto].
    case_bool_decide; [apply IH; eauto|].
    assert (∀ x, arrayFor (setArray (v_array v) x st.2) A = arrayFor st.2 A) as Hother.
    { intros x. rewrite arrayFor_set by done. by rewrite decide_False. }
    match goal with |- context [folds _ l ?x] => destruct (IH x R) as [E1 E2] end.
    { cbn [fst]. rewrite lookup_insert_ne by done. eauto. }
    { cbn [snd]. case_bool_decide; rewrite ?Hother; done. }
    cbn [snd] in E1, E2. case_bool_decide; rewrite ?Hother in *; by split.
Qed.
End naming.

(** ** The two passes together *)
Section passes.
Context `{!External}.
Variable gjson_int : string → string → Z.
Notation identify := (identify gjson_int).

(** What a scan of [body] visits; [None] if it fails. *)
Definition visited_by (body : string) : option (list visited) :=
  let '(_, _, l, e) := ScanStateResponse (λ array n canonical raw l, (l ++ [MkVisited array n canonical raw], None)) body [] in
  match e with None => Some l | Some _ => None end.
Definition reads (r : Replay) (l : list visited) : Prop := rp_Err r = None ∧ visited_by (rp_Body r) = Some l.

Lemma folds_record l acc :
  folds (λ array n canonical raw l, (l ++ [MkVisited array n canonical raw], None)) l acc = acc ++ l.
Proof.
  revert acc. induction l as [|v l IH]; intros acc; [by rewrite app_nil_r|].
  cbn [folds foldl]. unfold folds in IH. rewrite IH. unfold effect. cbn. rewrite <-app_assoc. by destruct v.
Qed.

Lemma visited_folds body l : visited_by body = Some l → Forall in_arrays l ∧
  ∀ St (visit : visitor St) s, never_fails visit → ∃ p a, ScanStateResponse visit body s = (p, a, folds visit l s, None).
Proof.
  intros Hv. assert (∃ p a l e, Forall in_arrays l ∧ ∀ St (visit : visitor St) s, never_fails visit →
    ScanStateResponse visit body s = (p, a, folds visit l s, e)) as (p & a & l' & e & Hl & Ht).
  { unfold ScanStateResponse. destruct (Token (NewDecoder body)) as [[t dec]|]; [|by eexists 0, 0, [], _].
    destruct t as [c| |]; [|by eexists 0, 0, [], _..].
    destruct (decide (c = "{"%char)) as [->|Hc]; [apply scan_members_trace|].
    exists 0, 0, [], (Some (ErrText "state response: expected object")). split; [done|]. intros St visit s _.
    destruct c as [[] [] [] [] [] [] [] []]; try done. }
  unfold visited_by in Hv. rewrite Ht in Hv by done. rewrite folds_record in Hv. cbn in Hv.
  destruct e; [done|]. injection Hv as <-. split; [done|]. eauto.
Qed.

Lemma replay_reads {St} (visit : visitor St) r l s : reads r l → never_fails visit → replay visit r s = (folds visit l s, None).
Proof.
  intros [He Hv] Hn. apply visited_folds in Hv as [_ Hv]. destruct (Hv _ visit s Hn) as (p & a & E).
  unfold replay. by rewrite E, He.
Qed.

Lemma tally_never_fails sign : never_fails (tally sign).
Proof. done. Qed.
Lemma collect_never_fails sign samples : never_fails (collect gjson_int sign samples).
Proof. done. Qed.

Lemma counted_all m1 m2 d :
  map_fold (λ array m d, setArray array (count_residue m (arrayFor d array)) d) d
    (<[ArrayPDUs := m1]> (<[ArrayAuthChain := m2]> ∅)) =
  SD (count_residue m1 (dg_PDUs d)) (count_residue m2 (dg_AuthChain d)).
Proof.
  rewrite map_fold_insert_L; [rewrite map_fold_insert_L; [|..]|..]; try (by rewrite map_fold_empty).
  - intros j1 j2 z1 z2 y Hne H1 H2. rewrite lookup_insert_Some, lookup_empty in H1, H2. naive_solver.
  - by rewrite lookup_empty.
  - intros j1 j2 z1 z2 y Hne H1 H2. rewrite !lookup_insert_Some, lookup_empty in H1, H2.
    destruct H1 as [[<- <-]|(? & [[<- <-]|[? ?]])], H2 as [[<- <-]|(? & [[<- <-]|[? ?]])]; done.
  - by rewrite lookup_insert_ne, lookup_empty.
Qed.

(** The residue after the first pass. *)
Lemma residue_after N S :
  let residue := folds (tally (-1)) S (folds (tally 1) N start) in
  ∃ m1 m2, residue = <[ArrayPDUs := m1]> (<[ArrayAuthChain := m2]> ∅) ∧
    balance m1 (hashes ArrayPDUs N) (hashes ArrayPDUs S) ∧
    balance m2 (hashes ArrayAuthChain N) (hashes ArrayAuthChain S).
Proof.
  cbv zeta. exists (tallied (-1) (of_array ArrayPDUs S) (tallied 1 (of_array ArrayPDUs N) ∅)).
  exists (tallied (-1) (of_array ArrayAuthChain S) (tallied 1 (of_array ArrayAuthChain N) ∅)).
  assert (balance ∅ ∅ ∅) as H0.
  { intros h. by rewrite lookup_empty, !multiplicity_empty. }
  assert (∀ A, balance (tallied (-1) (of_array A S) (tallied 1 (of_array A N) ∅)) (hashes A N) (hashes A S)) as Hb.
  { intros A. apply (tallied_native (of_array A N)), (tallied_synapse (of_array A S)) in H0. unfold hashes.
    by rewrite !gmultiset_disj_union_right_id in H0. }
  split_and!; [|apply Hb..]. apply map_eq. intros A. rewrite !folds_tally. unfold start.
  destruct (decide (A = ArrayPDUs)) as [->|H1]; [by rewrite !lookup_insert_eq|].
  rewrite !(lookup_insert_ne _ ArrayPDUs) by done.
  destruct (decide (A = ArrayAuthChain)) as [->|H2]; [by rewrite !lookup_insert_eq|].
  by rewrite !lookup_insert_ne.
Qed.

Lemma remaining_stock sign m X Y : sign = 1 ∨ sign = -1 → balance m X Y →
  stock (omap (λ n : Z, if bool_decide (0 < n * sign) then Some (n * sign) else None) m)
    (if bool_decide (0 < sign) then X ∖ Y else Y ∖ X).
Proof.
  intros Hs Hb h. rewrite lookup_omap, Hb. unfold nonzero. set (x := multiplicity h X) in *. set (y := multiplicity h Y) in *.
  assert (multiplicity h (if bool_decide (0 < sign) then X ∖ Y else Y ∖ X) = if bool_decide (0 < sign) then (x - y)%nat else (y - x)%nat)
    as -> by (case_bool_decide; by rewrite multiplicity_difference).
  destruct (decide (Z.of_nat x - Z.of_nat y = 0)) as [E|E]; [rewrite bool_decide_true by done|rewrite bool_decide_false by done];
    cbn [mbind option_bind]; [|case_bool_decide]; cbn [default from_option id]; destruct Hs as [->| ->]; rewrite ?(bool_decide_true (0 < 1)), ?(bool_decide_false (0 < -1)) by lia; lia.
Qed.

Lemma Empty_sizes d : Empty d = true ↔
  ∀ A, A = ArrayPDUs ∨ A = ArrayAuthChain → NativeOnly (arrayFor d A) = 0 ∧ SynapseOnly (arrayFor d A) = 0.
Proof.
  unfold Empty. rewrite !andb_true_iff, !bool_decide_eq_true. split.
  - intros (((H1 & H2) & H3) & H4) A [->| ->]; done.
  - intros Ha. destruct (Ha ArrayPDUs) as [H1 H2]; [by left|]. destruct (Ha ArrayAuthChain) as [H3 H4]; [by right|]. done.
Qed.

Lemma size_differences (X Y : gmultiset string) : size (X ∖ Y) = 0%nat → size (Y ∖ X) = 0%nat → X = Y.
Proof.
  intros H1 H2. apply gmultiset_size_empty_inv in H1, H2. apply gmultiset_eq. intros h.
  apply (f_equal (multiplicity h)) in H1, H2. rewrite multiplicity_difference, multiplicity_empty in H1, H2. lia.
Qed.
(** The digests see the hashes only. *)
Lemma list_to_set_disj_inj (l1 l2 : list string) :
  (list_to_set_disj l1 : gmultiset string) = list_to_set_disj l2 → l1 ≡ₚ l2.
Proof.
  revert l2. induction l1 as [|x l1 IH]; intros l2 E.
  - destruct l2 as [|y l2]; [done|]. exfalso. rewrite list_to_set_disj_cons in E. multiset_solver.
  - assert (x ∈ l2) as Hx.
    { apply (elem_of_list_to_set_disj (A := string)). rewrite <-E, list_to_set_disj_cons. multiset_solver. }
    apply elem_of_Permutation in Hx as (l2' & Hp). rewrite Hp. constructor. apply IH.
    rewrite Hp, !list_to_set_disj_cons in E. multiset_solver.
Qed.

Lemma of_array_cons A v l : of_array A (v :: l) = if decide (v_array v = A) then v :: of_array A l else of_array A l.
Proof. unfold of_array. by rewrite filter_cons. Qed.

Lemma folds_digest l (s : digestAccumulator * digestAccumulator) : Forall in_arrays l →
  folds digest_visit l s = (accumulate (v_canonical <$> of_array ArrayPDUs l) s.1,
                            accumulate (v_canonical <$> of_array ArrayAuthChain l) s.2).
Proof.
  intros Hl. revert s. induction Hl as [|v l Hv Hl IH]; intros [s1 s2]; [done|].
  cbn [folds foldl]. change (foldl _ ?x l) with (folds digest_visit l x). rewrite IH, !of_array_cons. unfold effect, digest_visit.
  destruct Hv as [E|E]; cbn [fst snd]; rewrite E; done.
Qed.

Lemma digests_equal N S body body' : visited_by body = Some N → visited_by body' = Some S →
  (∀ A, A = ArrayPDUs ∨ A = ArrayAuthChain → hashes A N = hashes A S) →
  Agrees (DigestStateResponse body).1 (DigestStateResponse body').1 = true.
Proof.
  intros HN HS Hh. apply visited_folds in HN as [HlN HN]. apply visited_folds in HS as [HlS HS].
  assert (∀ A, A = ArrayPDUs ∨ A = ArrayAuthChain →
    digest (accumulate (v_canonical <$> of_array A N) empty_digest) =
    digest (accumulate (v_canonical <$> of_array A S) empty_digest)) as HD.
  { intros A HA. unfold digest. rewrite !accumulate_sum. do 2 f_equal.
    assert (hash_of <$> of_array A N ≡ₚ hash_of <$> of_array A S) as Hp by (apply list_to_set_disj_inj, Hh, HA).
    apply (fmap_Permutation of_bytes) in Hp. rewrite <-!list_fmap_compose in Hp. rewrite <-!list_fmap_compose.
    change (hash ∘ v_canonical) with (of_bytes ∘ hash_of). by rewrite Hp. }
  unfold DigestStateResponse.
  destruct (HN _ digest_visit (empty_digest, empty_digest)) as (p & a & ->); [done|].
  destruct (HS _ digest_visit (empty_digest, empty_digest)) as (p' & a' & ->); [done|].
  rewrite !folds_digest by done. cbn [fst snd]. unfold Agrees. cbn [PDUDigest AuthChainDigest].
  rewrite !HD by auto. by rewrite !bool_decide_true.
Qed.

(** The diagnosis the counts give, before anything is named. *)
Definition counted_diagnosis (N S : list visited) (d : StateDiagnosis) : Prop :=
  ∀ A, A = ArrayPDUs ∨ A = ArrayAuthChain →
    NativeOnly (arrayFor d A) = Z.of_nat (size (hashes A N ∖ hashes A S)) ∧
    SynapseOnly (arrayFor d A) = Z.of_nat (size (hashes A S ∖ hashes A N)).

Lemma counted_empty N S d : counted_diagnosis N S d →
  (Empty d = true ↔ ∀ A, A = ArrayPDUs ∨ A = ArrayAuthChain → hashes A N = hashes A S).
Proof.
  intros Hc. rewrite Empty_sizes. split; intros Ha A HA; destruct (Hc A HA) as [H1 H2].
  - destruct (Ha A HA) as [H3 H4]. apply size_differences; lia.
  - rewrite H1, H2, Ha by done.
    assert (hashes A S ∖ hashes A S = ∅) as -> by (apply gmultiset_eq; intros h;
      rewrite multiplicity_difference, multiplicity_empty; lia).
    by rewrite gmultiset_size_empty.
Qed.

Definition names (cap : Z) (R : gmultiset string) (A : string) (l : list visited) (out : list EventIdentity) : Prop :=
  ∃ vs, vs `sublist_of` of_array A l ∧ list_to_set_disj (hash_of <$> vs) = R ∩ hashes A l ∧
    out = take (Z.to_nat cap) ((λ v, identify (v_raw v)) <$> vs).

Definition residue_of (N S : list visited) (residue : residues) : Prop :=
  ∀ A, A = ArrayPDUs ∨ A = ArrayAuthChain → ∃ m, residue !! A = Some m ∧ balance m (hashes A N) (hashes A S).

Lemma remaining_residue sign N S residue A : sign = 1 ∨ sign = -1 → residue_of N S residue → A = ArrayPDUs ∨ A = ArrayAuthChain →
  ∃ m, remaining_of sign residue !! A = Some m ∧
    stock m (if bool_decide (0 < sign) then hashes A N ∖ hashes A S else hashes A S ∖ hashes A N).
Proof.
  intros Hs Hr HA. destruct (Hr A HA) as (m & Hm & Hb). eexists. split; [|by apply remaining_stock].
  unfold remaining_of. by rewrite lookup_fmap, Hm.
Qed.

(** One side of the second pass: its samples, and what it leaves. *)
Lemma name_side sign cap residue d N S l A : sign = 1 ∨ sign = -1 → 0 ≤ cap → residue_of N S residue → Forall in_arrays l →
  A = ArrayPDUs ∨ A = ArrayAuthChain → samples_of sign (arrayFor d A) = [] →
  let d' := (folds (collect gjson_int sign cap) l (remaining_of sign residue, d)).2 in
  names cap (if bool_decide (0 < sign) then hashes A N ∖ hashes A S else hashes A S ∖ hashes A N) A l
    (samples_of sign (arrayFor d' A)) ∧ kept_array sign (arrayFor d A) (arrayFor d' A).
Proof.
  intros Hs Hcap Hr Hl HA Hno. cbv zeta.
  destruct (folds_collect gjson_int sign cap l (remaining_of sign residue, d) A _ Hs Hcap Hl HA
    (remaining_residue sign N S residue A Hs Hr HA)) as [E K]; [cbn; rewrite Hno; cbn; lia|].
  split; [|exact K]. cbn [snd] in E. rewrite Hno in E. unfold take_samples in E. cbn [app length] in E. rewrite Nat.sub_0_r in E.
  eexists. split; [apply picked_sublist|split; [apply picked_hashes|exact E]].
Qed.

Lemma second_pass cap residue d0 N S N' S' A : 0 ≤ cap → residue_of N S residue → Forall in_arrays N' → Forall in_arrays S' →
  A = ArrayPDUs ∨ A = ArrayAuthChain → NativeSamples (arrayFor d0 A) = [] → SynapseSamples (arrayFor d0 A) = [] →
  let d1 := (folds (collect gjson_int 1 cap) N' (remaining_of 1 residue, d0)).2 in
  let d2 := (folds (collect gjson_int (-1) cap) S' (remaining_of (-1) residue, d1)).2 in
  NativeOnly (arrayFor d2 A) = NativeOnly (arrayFor d0 A) ∧ SynapseOnly (arrayFor d2 A) = SynapseOnly (arrayFor d0 A) ∧
  names cap (hashes A N ∖ hashes A S) A N' (NativeSamples (arrayFor d2 A)) ∧
  names cap (hashes A S ∖ hashes A N) A S' (SynapseSamples (arrayFor d2 A)).
Proof.
  intros Hcap Hr HN' HS' HA Hn Hs. cbv zeta.
  destruct (name_side 1 cap residue d0 N S N' A (or_introl eq_refl) Hcap Hr HN' HA Hn) as [E1 (K1 & K2 & K3)].
  set (d1 := (folds _ N' _).2) in *.
  destruct (name_side (-1) cap residue d1 N S S' A (or_intror eq_refl) Hcap Hr HS' HA) as [E2 (L1 & L2 & L3)];
    [by change (-1) with (- (1)); rewrite K3|].
  set (d2 := (folds _ S' _).2) in *. change (- (-1)) with 1 in L3.
  rewrite L1, L2, K1, K2. rewrite <-L3 in E1. split_and!; [done|done|exact E1|exact E2].
Qed.

(** C31. A diagnosis is exact.  When both passes read both sides, the counts are, per
    array, the sizes of the two differences of the multisets of event hashes, whatever
    the order of the events; it is empty exactly if the multisets agree, so that
    digests that disagreed are never explained by nothing; and what it names, on each
    side, are the first events, up to the cap, of the second pass that the residue
    accounts for, each as often as it is over. *)
Theorem diagnosis_exact native synapse native' synapse' samples N S N' S' :
  reads native N → reads synapse S → reads native' N' → reads synapse' S' →
  ∃ d, DiagnoseStateMismatch gjson_int native synapse native' synapse' samples = (Some d, None) ∧
    counted_diagnosis N S d ∧
    (Empty d = true ↔ ∀ A, A = ArrayPDUs ∨ A = ArrayAuthChain → hashes A N = hashes A S) ∧
    (Agrees (DigestStateResponse (rp_Body native)).1 (DigestStateResponse (rp_Body synapse)).1 = false → Empty d = false) ∧
    (Empty d = false → ∀ A, A = ArrayPDUs ∨ A = ArrayAuthChain →
       let cap := if bool_decide (samples ≤ 0) then defaultDiagnosisSamples else samples in
       names cap (hashes A N ∖ hashes A S) A N' (NativeSamples (arrayFor d A)) ∧
       names cap (hashes A S ∖ hashes A N) A S' (SynapseSamples (arrayFor d A))).
Proof.
  intros HN HS HN' HS'. unfold DiagnoseStateMismatch. set (cap := if bool_decide _ then _ else samples).
  assert (0 ≤ cap) as Hcap by (unfold cap; case_bool_decide; [done|lia]).
  rewrite (replay_reads _ _ _ _ HN), (replay_reads _ _ _ _ HS) by done.
  destruct (residue_after N S) as (m1 & m2 & Hres & Hb1 & Hb2). cbv zeta in Hres. rewrite Hres, counted_all.
  set (d0 := SD _ _). set (residue := <[ArrayPDUs := m1]> _) in *.
  assert (residue_of N S residue) as Hr by (intros A [->| ->]; [by exists m1|by exists m2]).
  assert (∀ A, A = ArrayPDUs ∨ A = ArrayAuthChain → arrayFor d0 A = AD (Z.of_nat (size (hashes A N ∖ hashes A S)))
    (Z.of_nat (size (hashes A S ∖ hashes A N))) [] []) as Hd0.
  { intros A [->| ->]; unfold d0, arrayFor; cbn; [rewrite (count_balance m1 _ _ _ Hb1)|rewrite (count_balance m2 _ _ _ Hb2)]; done. }
  assert (∀ d, (∀ A, A = ArrayPDUs ∨ A = ArrayAuthChain → NativeOnly (arrayFor d A) = NativeOnly (arrayFor d0 A) ∧
    SynapseOnly (arrayFor d A) = SynapseOnly (arrayFor d0 A)) → counted_diagnosis N S d) as Hcount.
  { intros d Hsame A HA. destruct (Hsame A HA) as [-> ->]. by rewrite Hd0. }
  assert (∀ d, counted_diagnosis N S d → Agrees (DigestStateResponse (rp_Body native)).1
    (DigestStateResponse (rp_Body synapse)).1 = false → Empty d = false) as Hdig.
  { intros d Hc Hag. apply not_true_iff_false. intros He.
    by rewrite (digests_equal N S _ _ (proj2 HN) (proj2 HS) (proj1 (counted_empty _ _ _ Hc) He)) in Hag. }
  destruct (Empty d0) eqn:He.
  { exists d0. assert (counted_diagnosis N S d0) as Hc by by apply Hcount.
    split; [done|]. split; [done|]. split; [by apply counted_empty|]. split; [by apply Hdig|by rewrite He]. }
  pose proof (λ A HA, second_pass cap residue d0 N S N' S' A Hcap Hr (proj1 (visited_folds _ _ (proj2 HN')))
    (proj1 (visited_folds _ _ (proj2 HS'))) HA ltac:(by rewrite Hd0) ltac:(by rewrite Hd0)) as H2. cbv zeta in H2.
  rewrite (replay_reads _ _ _ _ HN') by done. destruct (folds (collect gjson_int 1 cap) N' _) as [rem1 d1].
  rewrite (replay_reads _ _ _ _ HS') by done. cbn [snd] in H2.
  destruct (folds (collect gjson_int (-1) cap) S' _) as [rem2 d2]. cbn [snd] in H2.
  exists d2. split; [done|]. assert (counted_diagnosis N S d2) as Hc by (apply Hcount; intros A HA; by destruct (H2 A HA) as (-> & -> & _)).
  split; [done|]. split; [by apply counted_empty|]. split; [by apply Hdig|]. intros _ A HA. cbv zeta. by destruct (H2 A HA) as (_ & _ & ?).
Qed.
End passes.

(** ** A concrete mismatch *)
Module DiagnosisWitness.
Definition ours : Replay :=
  MkReplay (js "{'pdus':[{'type':'m.a'},{'type':'m.b'},{'type':'m.a'}],'auth_chain':[{'type':'m.c'}]}") None.
Definition theirs : Replay :=
  MkReplay (js "{'auth_chain':[{'type':'m.c'}],'pdus':[{ 'type':'m.a' },{'type':'m.d'}]}") None.
Definition seen (r : Replay) : list visited := default [] (visited_by (rp_Body r)).

Lemma diagnosis_exact_witness :
  ∃ d, DiagnoseStateMismatch (H := Sample.ext) (λ _ _, 7) ours theirs ours theirs 0 = (Some d, None) ∧
    NativeOnly (dg_PDUs d) = 2 ∧ SynapseOnly (dg_PDUs d) = 1 ∧ id_Type <$> NativeSamples (dg_PDUs d) = ["m.a"; "m.b"]%string ∧
    id_Type <$> SynapseSamples (dg_PDUs d) = ["m.d"]%string ∧ NativeOnly (dg_AuthChain d) = 0.
Proof.
  destruct (diagnosis_exact (H := Sample.ext) (λ _ _, 7) ours theirs ours theirs 0 (seen ours) (seen theirs) (seen ours) (seen theirs))
    as (d & E & _); [split; by vm_compute..|].
  exists d. split; [exact E|]. vm_compute in E. injection E as <-. by vm_compute.
Defined.
End DiagnosisWitness.
