(* ===== verification/FedAuth.v ===== *)
(** * [internal/fedauth]: verifying who made a request

    The two layers of published keys ([keycache.go]), the trusted key servers
    ([notary.go]) and the verifier around mautrix's [ServerAuth] ([auth.go]).
    mautrix is a parameter: decoding and checking a key response, the in-memory
    cache, parsing an X-Matrix header, asking a notary, and [Authenticate] itself,
    which reads and fills the same cache.  What is relied on of it is stated as
    [LawfulMautrix]. *)
From S2P Require Import Prelude Json JsonStream Store.

Open Scope list_scope.
Open Scope Z_scope.

(** ** mautrix *)
Record RespError := MkRespError { re_StatusCode : Z; re_ErrCode : string; re_Err : string }.

(** A request as verification sees it. *)
Record vrequest := MkVReq { vr_Method : string; vr_URI : string; vr_Authorization : string; vr_Body : option string }.

Class Mautrix := {
  key_response : Type;
  kr_ServerName : key_response → string;
  kr_ValidUntil : key_response → Z;                       (* milliseconds *)
  unmarshal_keys : string → option key_response;          (* [json.Unmarshal] *)
  VerifySelfSignature : key_response → bool;
  HasKey : option key_response → string → bool;           (* of a pointer that may be nil *)
  InMemoryCache : Type;
  mem_LoadKeys : Z → string → InMemoryCache → option key_response;   (* now, server; an error is [None] *)
  mem_StoreKeys : key_response → InMemoryCache → InMemoryCache;
  mem_StoreFetchError : string → InMemoryCache → InMemoryCache;
  mem_ShouldReQuery : string → InMemoryCache → bool;
  ParseXMatrixAuth : string → string * string;            (* origin, key ID *)
  (** A notary's answer to a query for a server's key valid at a time: the values of
      [resp.ServerKeys], or an error. *)
  QueryKeys : string → string → string → Z → option (list (option key_response)) }.

(** ** [layeredCache] *)
Section fedauth.
Context `{!Mautrix}.

(** Synapse's database may be absent. *)
Record layeredCache := MkLayered { lc_mem : InMemoryCache; lc_db : option world }.
Definition set_mem (m : InMemoryCache) (c : layeredCache) : layeredCache := MkLayered m (lc_db c).
Definition set_world (w : world) (c : layeredCache) : layeredCache := MkLayered (lc_mem c) (Some w).

(** The first stored response that decodes, names the server and is signed by it. *)
Fixpoint first_usable (serverName : string) (rows : list Db.key_row) : option key_response :=
  match rows with
  | [] => None
  | row :: rows =>
      match unmarshal_keys (Db.ky_json row) with
      | None => first_usable serverName rows
      | Some resp =>
          if negb (bool_decide (kr_ServerName resp = serverName)) then first_usable serverName rows
          else if negb (VerifySelfSignature resp) then first_usable serverName rows
          else Some resp
      end
  end.

Definition LoadKeys (now : Z) (serverName : string) (c : layeredCache) : option key_response * layeredCache :=
  match mem_LoadKeys now serverName (lc_mem c) with
  | Some res => (Some res, c)
  | None =>
      match lc_db c with
      | None => (None, c)
      | Some w =>
          let '(rows, w) := GetServerKeys serverName now w in
          let c := set_world w c in
          match rows with
          | Err _ => (None, c)
          | Ok rows =>
              match first_usable serverName rows with
              | Some resp => (Some resp, set_mem (mem_StoreKeys resp (lc_mem c)) c)
              | None => (None, c)
              end
          end
      end
  end.
Definition StoreKeys (resp : key_response) (c : layeredCache) : layeredCache := set_mem (mem_StoreKeys resp (lc_mem c)) c.
Definition StoreFetchError (serverName : string) (c : layeredCache) : layeredCache :=
  set_mem (mem_StoreFetchError serverName (lc_mem c)) c.
Definition ShouldReQuery (serverName : string) (c : layeredCache) : bool := mem_ShouldReQuery serverName (lc_mem c).

(** ** Notaries *)

(** The loop over one answer: whether the key was found. *)
Fixpoint take_answer (serverName keyID : string) (answer : list (option key_response)) (c : layeredCache) : bool * layeredCache :=
  match answer with
  | [] => (false, c)
  | None :: answer => take_answer serverName keyID answer c
  | Some keys :: answer =>
      if negb (bool_decide (kr_ServerName keys = serverName)) then take_answer serverName keyID answer c
      else if negb (VerifySelfSignature keys) then take_answer serverName keyID answer c
      else
        let c := StoreKeys keys c in
        if HasKey (Some keys) keyID then (true, c) else take_answer serverName keyID answer c
  end.
Fixpoint queryNotaries (now : Z) (notaries : list string) (serverName keyID : string) (c : layeredCache) : bool * layeredCache :=
  match notaries with
  | [] => (false, c)
  | notary :: notaries =>
      if bool_decide (notary = serverName) then queryNotaries now notaries serverName keyID c
      else
        match QueryKeys notary serverName keyID now with
        | None => queryNotaries now notaries serverName keyID c
        | Some answer =>
            let '(found, c) := take_answer serverName keyID answer c in
            if found then (true, c) else queryNotaries now notaries serverName keyID c
        end
  end.

Definition warmCache (now : Z) (notaries : list string) (authHeader : string) (c : layeredCache) : layeredCache :=
  if bool_decide (notaries = []) then c
  else
    let '(origin, keyID) := ParseXMatrixAuth authHeader in
    if bool_decide (origin = EmptyString) || bool_decide (keyID = EmptyString) then c
    else
      let '(res, c) := LoadKeys now origin c in
      if HasKey res keyID then c else (queryNotaries now notaries origin keyID c).2.

(** ** [Verifier] *)
Record Options := MkOptions { op_KeyRefetchDelay : Z; op_Timeout : Z; op_Notaries : list string; op_DB : option world }.
Definition with_defaults (o : Options) : Options :=
  MkOptions (if bool_decide (op_KeyRefetchDelay o ≤ 0) then 3600 * 1000000000 else op_KeyRefetchDelay o)
    (if bool_decide (op_Timeout o ≤ 0) then 30 * 1000000000 else op_Timeout o) (op_Notaries o) (op_DB o).
Definition MaxBodySize : Z := 64 * 1024.
Record Verifier := MkVerifier { vf_serverName : string; vf_notaries : list string; vf_cache : layeredCache }.

(** mautrix's cache, new, with a minimum delay between fetches. *)
Variable NewInMemoryCache : Z → InMemoryCache.
Definition New (serverName : string) (opts : Options) : Verifier :=
  let opts := with_defaults opts in
  MkVerifier serverName (op_Notaries opts) (MkLayered (NewInMemoryCache (op_KeyRefetchDelay opts)) (op_DB opts)).

Inductive Result := OK (origin : string) | Failed (err : RespError).
Definition Status (r : Result) : Z :=
  match r with
  | OK _ => 200
  | Failed err => if negb (bool_decide (re_StatusCode err = 0)) then re_StatusCode err else 401
  end.

(** [Authenticate] for a destination and a body limit: the origin it attaches to the
    request, and what it does to the cache. *)
Variable Authenticate : Z → string → Z → vrequest → layeredCache → (RespError + string) * layeredCache.

Definition expired_key (keyID origin : string) : RespError :=
  MkRespError 401 "M_UNAUTHORIZED" ("No currently valid key to satisfy " +:+ keyID +:+ " for " +:+ origin +:+
    ": the published key is past its valid_until_ts").
Definition requireCurrentlyValidKey (now : Z) (authHeader : string) (c : layeredCache) : option RespError * layeredCache :=
  let '(origin, keyID) := ParseXMatrixAuth authHeader in
  if bool_decide (origin = EmptyString) || bool_decide (keyID = EmptyString) then (None, c)
  else
    let '(res, c) := LoadKeys now origin c in
    match res with
    | Some r => if bool_decide (now < kr_ValidUntil r) then (None, c) else (Some (expired_key keyID origin), c)
    | None => (Some (expired_key keyID origin), c)
    end.

Definition with_body (r : vrequest) : vrequest :=
  match vr_Body r with
  | Some _ => r
  | None => MkVReq (vr_Method r) (vr_URI r) (vr_Authorization r) (Some EmptyString)   (* [http.NoBody] *)
  end.
Definition Verify (now : Z) (v : Verifier) (r : vrequest) : Result * Verifier :=
  let r := with_body r in
  let c := warmCache now (vf_notaries v) (vr_Authorization r) (vf_cache v) in
  let '(a, c) := Authenticate now (vf_serverName v) MaxBodySize r c in
  let done_with c := MkVerifier (vf_serverName v) (vf_notaries v) c in
  match a with
  | inl err => (Failed err, done_with c)
  | inr origin =>
      let '(e, c) := requireCurrentlyValidKey now (vr_Authorization r) c in
      match e with Some err => (Failed err, done_with c) | None => (OK origin, done_with c) end
  end.

(** ** What the cache may hold *)

(** The in-memory cache gives back what was stored last under a name, while it is
    valid, and nothing else. *)
Class LawfulMautrix := {
  load_store now s r m : mem_LoadKeys now s (mem_StoreKeys r m) =
    if bool_decide (kr_ServerName r = s) then (if bool_decide (now < kr_ValidUntil r) then Some r else None)
    else mem_LoadKeys now s m;
  load_error now s s' m : mem_LoadKeys now s (mem_StoreFetchError s' m) = mem_LoadKeys now s m;
  load_new now s delay : mem_LoadKeys now s (NewInMemoryCache delay) = None }.

(** A response of the server itself, signed by it. *)
Definition genuine (s : string) (r : key_response) : Prop := kr_ServerName r = s ∧ VerifySelfSignature r = true.
(** What is in memory in [c'] and was not in [c] is genuine. *)
Definition adds (c c' : layeredCache) : Prop :=
  ∀ now s r, mem_LoadKeys now s (lc_mem c') = Some r → genuine s r ∨ mem_LoadKeys now s (lc_mem c) = Some r.
#[export] Instance adds_preorder : PreOrder adds.
Proof using Type.
  split.
  - intros c now s r E. by right.
  - intros c1 c2 c3 H1 H2 now s r E. destruct (H2 now s r E) as [?|E']; [by left|by apply H1].
Qed.
(** Everything in memory is. *)
Definition trusted (c : layeredCache) : Prop := ∀ now s r, mem_LoadKeys now s (lc_mem c) = Some r → genuine s r.
Lemma adds_trusted c c' : adds c c' → trusted c → trusted c'.
Proof using Type. intros Ha Ht now s r E. destruct (Ha now s r E) as [?|E']; [done|by apply (Ht now)]. Qed.

Section lemmas.
Context `{!LawfulMautrix}.

Lemma adds_store r c : VerifySelfSignature r = true → adds c (StoreKeys r c).
Proof using Type*.
  intros Hr now s r'. cbn. rewrite load_store. case_bool_decide as Hs; [|by right].
  case_bool_decide; [|done]. intros [= <-]. left. by split.
Qed.

Lemma first_usable_genuine s rows r : first_usable s rows = Some r →
  genuine s r ∧ ∃ row, row ∈ rows ∧ unmarshal_keys (Db.ky_json row) = Some r.
Proof.
  induction rows as [|row rows IH]; [done|]. cbn [first_usable].
  assert (first_usable s rows = Some r → genuine s r ∧ ∃ row', row' ∈ row :: rows ∧ unmarshal_keys (Db.ky_json row') = Some r) as Hrest.
  { intros E. destruct (IH E) as (Hg & row' & Hin & Hu). split; [done|]. exists row'. split; [by right|done]. }
  destruct (unmarshal_keys _) as [resp|] eqn:Eu; [|done]. case_bool_decide as Hs; [|done]. cbn [negb].
  destruct (VerifySelfSignature resp) eqn:Ev; [|done]. cbn [negb]. intros [= <-]. split; [done|].
  exists row. split; [by left|done].
Qed.

Lemma LoadKeys_adds now s c r c' : LoadKeys now s c = (r, c') →
  adds c c' ∧ ∀ res, r = Some res → genuine s res ∨ mem_LoadKeys now s (lc_mem c) = Some res.
Proof using Type*.
  unfold LoadKeys. destruct (mem_LoadKeys now s (lc_mem c)) as [res|] eqn:Em.
  { intros [= <- <-]. split; [done|]. intros res' [= <-]. by right. }
  destruct (lc_db c) as [w|]; [|intros [= <- <-]; split; [intros ? ? ? ?; by right|done]].
  destruct (GetServerKeys s now w) as [[rows|e] w']; [|intros [= <- <-]; split; [intros ? ? ? ?; by right|done]].
  destruct (first_usable s rows) as [resp|] eqn:Ef; [|intros [= <- <-]; split; [intros ? ? ? ?; by right|done]].
  apply first_usable_genuine in Ef as [Hg _]. intros [= <- <-]. split.
  - by apply (adds_store resp (set_world w' c)), Hg.
  - intros res [= <-]. by left.
Qed.

Lemma take_answer_adds s k answer c found c' : take_answer s k answer c = (found, c') → adds c c'.
Proof using Type*.
  revert c. induction answer as [|[keys|] answer IH]; intros c; cbn [take_answer]; [by intros [= <- <-]| |by apply IH].
  case_bool_decide; cbn [negb]; [|by apply IH]. destruct (VerifySelfSignature keys) eqn:Ev; cbn [negb]; [|by apply IH].
  pose proof (adds_store keys c Ev) as Ha.
  destruct (HasKey _ _); [by intros [= <- <-]|]. intros E. etrans; [exact Ha|by apply IH].
Qed.
Lemma queryNotaries_adds now notaries s k c : adds c (queryNotaries now notaries s k c).2.
Proof using Type*.
  revert c. induction notaries as [|n notaries IH]; intros c; [done|]. cbn [queryNotaries].
  case_bool_decide; [by apply IH|]. destruct (QueryKeys _ _ _ _) as [answer|]; [|by apply IH].
  destruct (take_answer s k answer c) as [found c'] eqn:E. apply take_answer_adds in E.
  destruct found; [done|]. etrans; [exact E|by apply IH].
Qed.
Lemma warmCache_adds now notaries h c : adds c (warmCache now notaries h c).
Proof using Type*.
  unfold warmCache. case_bool_decide; [done|]. destruct (ParseXMatrixAuth h) as [origin keyID].
  destruct (_ || _); [done|]. destruct (LoadKeys now origin c) as [r c'] eqn:E.
  apply LoadKeys_adds in E as [Ha _]. destruct (HasKey _ _); [done|]. etrans; [exact Ha|by apply queryNotaries_adds].
Qed.
End lemmas.

(** ** What a verified origin rests on *)
Section verified.
Context `{!LawfulMautrix}.
(** mautrix says of whom the header is. *)
Context (Horigin : ∀ now dest limit r c origin c', Authenticate now dest limit r c = (inr origin, c') →
  origin = (ParseXMatrixAuth (vr_Authorization r)).1 ∧ origin ≠ EmptyString ∧ (ParseXMatrixAuth (vr_Authorization r)).2 ≠ EmptyString).

(** C18. The verdict on a request, on every branch, whatever the notaries, the database
    and earlier requests put forward.  An origin is returned only if mautrix
    authenticated the request, for this server and within the body limit, and the
    origin then has a published response that is valid now; a request is refused with
    mautrix's error, or with 401 when the origin has no currently valid response.  And
    what this code puts into the cache, before mautrix reads it and after, is nothing
    but responses signed by the server they are kept for: so mautrix is handed a cache
    of such responses alone if that is what earlier requests left, and the response
    the last check rests on is such a one, or one that mautrix itself left in the
    cache. *)
Theorem verify_exact now v r :
  let '(res, v') := Verify now v r in
  ∃ c0 a c1, Authenticate now (vf_serverName v) MaxBodySize (with_body r) c0 = (a, c1) ∧
    adds (vf_cache v) c0 ∧ adds c1 (vf_cache v') ∧
    (trusted (vf_cache v) → trusted c0) ∧ (trusted c1 → trusted (vf_cache v')) ∧
    match res with
    | OK origin => a = inr origin ∧ ∃ keys, (LoadKeys now origin c1).1 = Some keys ∧ now < kr_ValidUntil keys ∧
        (genuine origin keys ∨ mem_LoadKeys now origin (lc_mem c1) = Some keys)
    | Failed err =>
        a = inl err ∨
        ∃ origin, a = inr origin ∧ Status (Failed err) = 401 ∧ re_ErrCode err = "M_UNAUTHORIZED"%string ∧
          ∀ keys, (LoadKeys now origin c1).1 = Some keys → kr_ValidUntil keys ≤ now
    end.
Proof using All.
  unfold Verify. assert (vr_Authorization (with_body r) = vr_Authorization r) as Hh by (unfold with_body; by case_match).
  pose proof (warmCache_adds now (vf_notaries v) (vr_Authorization (with_body r)) (vf_cache v)) as Hc0.
  set (c0 := warmCache _ _ _ _) in *. destruct (Authenticate _ _ _ _ c0) as [[err|origin] c1] eqn:Ea.
  { exists c0, (inl err), c1. split_and!; [done|done|done|by apply adds_trusted|done|by left]. }
  apply Horigin in Ea as Hor. destruct Hor as (Ho & Hne & Hk). rewrite Hh in *.
  unfold requireCurrentlyValidKey. destruct (ParseXMatrixAuth (vr_Authorization r)) as [o keyID]. cbn [fst snd] in *. subst o.
  rewrite !bool_decide_false by done. cbn [orb].
  destruct (LoadKeys now origin c1) as [[keys|] c2] eqn:El; apply LoadKeys_adds in El as Hl; destruct Hl as [Ha Hg].
  - case_bool_decide as Hv; exists c0, (inr origin), c1; cbn [vf_cache];
      (split; [done|]; split; [done|]; split; [done|]; split; [by apply adds_trusted|]; split; [by apply adds_trusted|]).
    + split; [done|]. exists keys. rewrite El. split; [done|]. split; [done|by apply Hg].
    + right. exists origin. rewrite El. split_and!; try done. intros k [= <-]. lia.
  - exists c0, (inr origin), c1; cbn [vf_cache]. split_and!; [done|done|done|by apply adds_trusted|by apply adds_trusted|].
    right. exists origin. by rewrite El.
Qed.
End verified.
End fedauth.

(** ** A small mautrix *)
Module SampleAuth.
Record keys := MkKeys { k_server : string; k_until : Z; k_keys : list string; k_signed : bool }.

(** Synapse's table holds a response of a.org with the key K2; a.org itself publishes
    K1, past its validity. *)
Definition decode (s : string) : option keys :=
  if bool_decide (s = "a.org K2"%string) then Some (MkKeys "a.org" 100 ["K2"%string] true)
  else if bool_decide (s = "b.org K2"%string) then Some (MkKeys "b.org" 100 ["K2"%string] true) else None.
Definition published : keys := MkKeys "a.org" 5 ["K1"%string] true.
Definition parse_header (h : string) : string * string := let '(a, b, _) := cut " "%char h in (a, b).

#[export] Instance mautrix : Mautrix :=
  {| key_response := keys; kr_ServerName := k_server; kr_ValidUntil := k_until; unmarshal_keys := decode;
     VerifySelfSignature := k_signed; HasKey r id := from_option (λ r, bool_decide (id ∈ k_keys r)) false r;
     InMemoryCache := gmap string keys;
     mem_LoadKeys now s m := r ← m !! s; if bool_decide (now < k_until r) then Some r else None;
     mem_StoreKeys r m := <[k_server r := r]> m; mem_StoreFetchError _ m := m; mem_ShouldReQuery _ _ := true;
     ParseXMatrixAuth := parse_header; QueryKeys _ _ _ _ := None |}.
Definition new_cache (_ : Z) : InMemoryCache (Mautrix := mautrix) := (∅ : gmap string keys).
#[export] Instance lawful : LawfulMautrix new_cache.
Proof.
  split; cbn.
  - intros now s r m. case_bool_decide as E; [subst; by rewrite lookup_insert_eq|by rewrite lookup_insert_ne].
  - done.
  - done.
Qed.

(** The keys in the cache, else those the origin publishes now; the signature is good
    if its key is among them. *)
Definition authenticate (now : Z) (dest : string) (limit : Z) (r : vrequest) (c : layeredCache)
    : (RespError + string) * layeredCache :=
  let '(origin, keyID) := parse_header (vr_Authorization r) in
  if bool_decide (origin = EmptyString) || bool_decide (keyID = EmptyString) then (inl (MkRespError 401 "M_UNAUTHORIZED" "no header"), c)
  else
    let '(res, c) := LoadKeys now origin c in
    if HasKey res keyID then (inr origin, c)
    else
      let c := if bool_decide (origin = "a.org"%string) then StoreKeys published c else c in
      if bool_decide (origin = "a.org"%string) && HasKey (Some published) keyID then (inr origin, c)
      else (inl (MkRespError 401 "M_UNAUTHORIZED" "no key"), c).

Lemma authenticate_origin now dest limit r c origin c' : authenticate now dest limit r c = (inr origin, c') →
  origin = (parse_header (vr_Authorization r)).1 ∧ origin ≠ EmptyString ∧ (parse_header (vr_Authorization r)).2 ≠ EmptyString.
Proof.
  unfold authenticate. destruct (parse_header _) as [o k]. cbn [fst snd].
  case_bool_decide; [done|]. case_bool_decide; [done|]. cbn [orb]. destruct (LoadKeys now o c) as [res c1].
  destruct (HasKey res k); [by intros [= <- _]|]. destruct (_ && _); [by intros [= <- _]|done].
Qed.

Definition db : DB :=
  Db.MkDb [] [] [] [] [] [] [] [] [] [] [] [] [] [] [] []
    [Db.KeyRow "a.org" "K2" "a.org" 90 "b.org K2"; Db.KeyRow "a.org" "K2" "a.org" 100 "a.org K2"].
Definition store : world := MkWorld (λ _, Ok db) (λ _, false) 1 0 (newCaches Cache.Settings.DefaultSettings) Cache.Trace.WithTrace.
Definition verifier : Verifier := New new_cache "h" (MkOptions 0 0 ["notary"%string] (Some store)).
Definition request (header : string) : vrequest := MkVReq "GET" "/e" header None.

Lemma verify_exact_witness :
  (Verify authenticate 10 verifier (request "a.org K2")).1 = OK "a.org" ∧
  ∃ c0 c1 r, trusted c0 ∧ authenticate 10 "h" MaxBodySize (with_body (request "a.org K2")) c0 = (inr "a.org"%string, c1) ∧
    (LoadKeys 10 "a.org" c1).1 = Some r ∧ 10 < kr_ValidUntil r.
Proof.
  assert (trusted (vf_cache verifier)) as Ht by (intros now s r E; discriminate E).
  assert ((Verify authenticate 10 verifier (request "a.org K2")).1 = OK "a.org") as E by by vm_compute.
  split; [exact E|].
  pose proof (verify_exact new_cache authenticate authenticate_origin 10 verifier (request "a.org K2")) as Hv.
  destruct (Verify authenticate 10 verifier (request "a.org K2")) as [res v']. cbn [fst] in E. subst res.
  destruct Hv as (c0 & a & c1 & Ea & _ & _ & Ht0 & _ & -> & r & Hr & Hv & _).
  exists c0, c1, r. split; [exact (Ht0 Ht)|]. split; [exact Ea|]. split; [exact Hr|exact Hv].
Defined.

(** The check asks only whether the origin has some response that is valid: a request
    signed with K1, which its origin publishes as expired and nobody else lists, is
    accepted on the strength of a stored response that does not list K1. *)
Theorem expired_key_accepted :
  kr_ValidUntil published < 10 ∧ HasKey (Some published) "K1" = true ∧
  (∀ row r, row ∈ Db.server_keys_json db → unmarshal_keys (Db.ky_json row) = Some r → HasKey (Some r) "K1" = false) ∧
  (Verify authenticate 10 verifier (request "a.org K1")).1 = OK "a.org".
Proof.
  split_and!; [done|done| |by vm_compute].
  intros row r Hrow. cbn in Hrow. rewrite !elem_of_cons, elem_of_nil in Hrow.
  destruct Hrow as [->|[->|[]]]; cbn; intros [= <-]; by vm_compute.
Qed.
End SampleAuth.
