(* ===== verification/Runner.v ===== *)
(** * [internal/shadow/runner.go]: the runner around the comparisons

    What a comparison leaves behind: the record completed with the request, the
    counters and the log of [DiffLog], the counted skips, the diagnosis of a /state
    mismatch; the replay of the request for verification; and the slots that bound how
    many comparisons run at once.  Whether [url.ParseRequestURI] accepts the request
    URI is a parameter. *)
From S2P Require Import Prelude Json JsonStream Store External Events Pducmp Wire Digest Resolver StateStream Config Native DiffLog Compare Diagnose FedAuth.

Open Scope list_scope.
Open Scope Z_scope.

(** ** Requests *)

(** [shadow.Request]: what the answer depends on, and what replays it. *)
Record Request := MkShadowRequest {
  sr_Native : Native.Request; sr_URI : string; sr_Method : string; sr_AuthHeader : string }.

Section replay.
Context `{!Mautrix}.
Variable Authenticate : Z → string → Z → vrequest → layeredCache → (RespError + string) * layeredCache.
Variable ParseRequestURI : string → bool.

Definition synthesiseRequest (req : Request) : option vrequest :=
  if ParseRequestURI (sr_URI req) then
    Some (MkVReq (if bool_decide (sr_Method req = EmptyString) then "GET" else sr_Method req) (sr_URI req) (sr_AuthHeader req)
            (Some (rq_Body (sr_Native req))))
  else None.

(** The verdict of the verifier, as the comparisons use it. *)
Definition verdict_of (r : FedAuth.Result) : Compare.replay :=
  match r with
  | FedAuth.OK origin => Verified origin
  | FedAuth.Failed err => Refused (Status (FedAuth.Failed err)) (re_ErrCode err) (re_Err err)
  end.
Definition replay_verification (now : Z) (verifier : option Verifier) (req : Request) : option Compare.replay * option Verifier :=
  match verifier with
  | None => (None, None)
  | Some v =>
      match synthesiseRequest req with
      | None => (Some ReplayFailed, Some v)
      | Some synth => let '(res, v) := Verify Authenticate now v synth in (Some (verdict_of res), Some v)
      end
  end.
End replay.

(** ** Options *)
Record Options := MkRunnerOptions { ro_Timeout : Z; ro_Concurrency : Z; ro_VerifyWait : Z }.
Definition with_defaults (o : Options) : Options :=
  MkRunnerOptions (if bool_decide (ro_Timeout o ≤ 0) then 30 * 1000000000 else ro_Timeout o)
    (if bool_decide (ro_Concurrency o ≤ 0) then 4 else ro_Concurrency o)
    (if bool_decide (ro_VerifyWait o ≤ 0) then 5 * 1000000000 else ro_VerifyWait o).

(** ** What a comparison leaves behind *)

(** [record]: the request's part of the record. *)
Definition complete (req : Request) (proxy : ProxyResult) (elapsed : Z) (rec : LogRecord) : LogRecord :=
  let rq := sr_Native req in
  MkRecord (Time rec) (rec_Kind rec) (rq_Endpoint rq) (rq_Origin rq) (sr_URI req) (rq_RoomID rq) (rq_EventID rq)
    (pr_Status proxy) (NativeStatus rec) (pr_Duration proxy) elapsed (rec_Diff rec) (NativeError rec)
    (if pr_Truncated proxy then SynapseBody rec else pr_Body proxy) (NativeBody rec) (BodiesTruncated rec).

(** The writer, absent when diff logging is off, and the skips counted so far by
    endpoint and reason. *)
Record effects := MkEffects { fx_diffs : option Writer; fx_skipped : list (string * string) }.

Definition match_ (now : Z) (req : Request) (fx : effects) : effects :=
  MkEffects (Observe now (rq_Endpoint (sr_Native req)) true <$> fx_diffs fx) (fx_skipped fx).
Definition record (now : Z) (req : Request) (proxy : ProxyResult) (elapsed : Z) (rec : LogRecord) (fx : effects) : effects :=
  MkEffects ((λ w, (Log now (complete req proxy elapsed rec) (Observe now (rq_Endpoint (sr_Native req)) false w)).2)
               <$> fx_diffs fx) (fx_skipped fx).
Definition conclude (now : Z) (req : Request) (proxy : ProxyResult) (elapsed : Z) (v : Compare.verdict) (fx : effects) : effects :=
  match v with
  | VMatch => match_ now req fx
  | VSkip reason => MkEffects (fx_diffs fx) (fx_skipped fx ++ [(rq_Endpoint (sr_Native req), reason)])
  | VRecord rec => record now req proxy elapsed rec fx
  end.

(** [logAuthMismatch]: logged for two verdicts, and never observed. *)
Definition auth_record (req : Request) (proxy : ProxyResult) (why authErr : string) : LogRecord :=
  let rq := sr_Native req in
  MkRecord None KindAuth (rq_Endpoint rq) (rq_Origin rq) (sr_URI req) (rq_RoomID rq) (rq_EventID rq) (pr_Status proxy) 0 0 0
    None (why +:+ ": " +:+ authErr) EmptyString EmptyString false.
Definition logAuthMismatch (now : Z) (req : Request) (proxy : ProxyResult) (r : Compare.replay) (fx : effects) : effects :=
  let log why authErr :=
    MkEffects ((λ w, (Log now (auth_record req proxy why authErr) w).2) <$> fx_diffs fx) (fx_skipped fx) in
  if bool_decide (auth_verdict r proxy = "we_accept_synapse_rejects"%string) then
    log "we accepted a request Synapse rejected" EmptyString
  else if bool_decide (auth_verdict r proxy = "we_reject_synapse_accepts"%string) then
    log "we rejected a request Synapse accepted" (match r with Refused _ _ msg => msg | _ => EmptyString end)
  else fx.

(** [diagnoseStateMismatch]: started when the digests disagree and both replayers are
    set; the label its outcome_of is counted under. *)
Definition diagnosed (v : Compare.verdict) (replayers : bool) : bool :=
  replayers && match v with VRecord rec => match rec_Kind rec with KindBody => true | _ => false end | _ => false end.
Definition diagnosis_outcome (r : option StateDiagnosis * option error) : string :=
  match r with
  | (_, Some _) => "failed"
  | (Some d, None) => if Diagnose.Empty d then "not_reproducible" else "diagnosed"
  | (None, None) => "failed"
  end.

(** ** The slots: [sem] *)
Module Sem.
Section slots.
Variable capacity : nat.

(** The comparisons that hold a slot, those of served answers that wait for one, and
    those that ended, with what they were skipped as. *)
Record t := Mk { running : list nat; waiting : list nat; ended : list (nat * option string) }.
Definition init : t := Mk [] [] [].
Definition full (st : t) : bool := bool_decide (capacity ≤ length (running st))%nat.
Definition remove (j : nat) (l : list nat) : list nat := filter (λ i, i ≠ j) l.

Inductive action :=
| Go (j : nat)                          (* [Go], [GoState] *)
| Served (j : nat)                      (* [acquireForVerification], its first attempt *)
| Wake (j : nat)                        (* a slot was free *)
| TimedOut (j : nat)                    (* [verifyWait] went by *)
| End (j : nat) (panicked : bool).      (* the deferred calls: recover, then release *)

Definition act (a : action) (st : t) : option t :=
  match a with
  | Go j => Some (if full st then Mk (running st) (waiting st) (ended st ++ [(j, Some "busy"%string)])
                  else Mk (running st ++ [j]) (waiting st) (ended st))
  | Served j => Some (if full st then Mk (running st) (waiting st ++ [j]) (ended st)
                      else Mk (running st ++ [j]) (waiting st) (ended st))
  | Wake j => if bool_decide (j ∈ waiting st) && negb (full st)
              then Some (Mk (running st ++ [j]) (remove j (waiting st)) (ended st)) else None
  | TimedOut j => if bool_decide (j ∈ waiting st)
                  then Some (Mk (running st) (remove j (waiting st)) (ended st ++ [(j, Some "busy_verify"%string)])) else None
  | End j panicked =>
      if bool_decide (j ∈ running st)
      then Some (Mk (remove j (running st)) (waiting st)
                   (ended st ++ [(j, if panicked : bool then Some "panic"%string else None)])) else None
  end.

(** Every job has its own number. *)
Definition submits (a : action) : list nat := match a with Go j | Served j => [j] | _ => [] end.
Inductive reach : list nat → t → Prop :=
| reach_init : reach [] init
| reach_step js st a st' : reach js st → Forall (λ j, j ∉ js) (submits a) → act a st = Some st' → reach (js ++ submits a) st'.
End slots.
End Sem.

(** ** Slots are neither leaked nor exceeded *)
Section slot_lemmas.
Context (capacity : nat).

Lemma remove_perm j l : NoDup l → j ∈ l → l ≡ₚ j :: Sem.remove j l.
Proof.
  intros Hnd Hj. apply NoDup_Permutation; [done| |].
  - constructor; [unfold Sem.remove; rewrite list_elem_of_filter; naive_solver|by apply NoDup_filter].
  - intros i. unfold Sem.remove. rewrite elem_of_cons, list_elem_of_filter.
    destruct (decide (i = j)) as [->|]; naive_solver.
Qed.

#[local] Ltac to_front :=
  repeat (first [rewrite <-Permutation_cons_append | rewrite <-Permutation_middle | rewrite <-app_comm_cons | rewrite <-app_assoc]); reflexivity.

Record accounted (js : list nat) (st : Sem.t) : Prop := {
  so_bound : (length (Sem.running st) ≤ capacity)%nat;
  so_all : js ≡ₚ Sem.running st ++ Sem.waiting st ++ (Sem.ended st).*1;
  so_distinct : NoDup js }.

Lemma accounted_NoDup js st : accounted js st → NoDup (Sem.running st) ∧ NoDup (Sem.waiting st).
Proof.
  intros [_ Hp Hnd]. rewrite Hp in Hnd. apply NoDup_app in Hnd as (H1 & _ & H2). by apply NoDup_app in H2 as (H2 & _).
Qed.

Lemma accounted_step js st a st' : accounted js st → Forall (λ j, j ∉ js) (Sem.submits a) →
  Sem.act capacity a st = Some st' → accounted (js ++ Sem.submits a) st'.
Proof.
  intros Hac Hnew. destruct (accounted_NoDup _ _ Hac) as [Hr Hw]. destruct Hac as [Hb Hp Hnd].
  assert (NoDup (js ++ Sem.submits a)) as Hnd'.
  { destruct a; cbn in *; rewrite ?app_nil_r; try done; apply NoDup_app; split_and!; try done;
      try apply NoDup_singleton; intros i Hi Hj; apply list_elem_of_singleton in Hj as ->;
      apply Forall_cons in Hnew as [Hn _]; done. }
  destruct a as [j|j|j|j|j p]; cbn [Sem.act Sem.submits] in *; rewrite ?app_nil_r in *; unfold Sem.full; intros E.
  - injection E as <-. case_bool_decide as Hf; constructor; cbn; rewrite ?length_app, ?fmap_app; cbn; try (done || lia); rewrite Hp;
      to_front.
  - injection E as <-. case_bool_decide as Hf; constructor; cbn; rewrite ?length_app; cbn; try (done || lia); rewrite Hp;
      to_front.
  - do 2 (case_bool_decide; try done). injection E as <-. constructor; cbn; rewrite ?length_app; cbn; [lia| |done].
    rewrite Hp, (remove_perm j (Sem.waiting st) Hw) at 1 by done. to_front.
  - case_bool_decide as Hj; [|done]. injection E as <-. constructor; cbn; [done| |done].
    rewrite Hp, (remove_perm j (Sem.waiting st) Hw) at 1 by done. rewrite fmap_app. cbn. to_front.
  - case_bool_decide as Hj; [|done]. injection E as <-. constructor; cbn; [| |done].
    + unfold Sem.remove. pose proof (length_filter (λ i, i ≠ j) (Sem.running st)). lia.
    + rewrite Hp, (remove_perm j (Sem.running st) Hr) at 1 by done. rewrite fmap_app. cbn. to_front.
Qed.
End slot_lemmas.

(** Comparison slots are neither leaked nor exceeded, and no comparison is lost.
    Whatever the order in which comparisons are submitted, wait, time out, finish or
    panic: at most [Concurrency] run at a time, and every comparison submitted is
    exactly one of running, waiting or ended. *)
Theorem slots_accounted capacity js st : Sem.reach capacity js st →
  (length (Sem.running st) ≤ capacity)%nat ∧ js ≡ₚ Sem.running st ++ Sem.waiting st ++ (Sem.ended st).*1 ∧ NoDup js.
Proof.
  intros Hr. assert (accounted capacity js st) as [H1 H2 H3]; [|done].
  induction Hr as [|js st a st' Hr IH Hnew Ha].
  - constructor; cbn; [lia|done|constructor].
  - by eapply accounted_step.
Qed.

(** ** What comparisons leave in the log and the counters *)

(** What happens to the runner's log: comparisons conclude, on any number of
    goroutines, and the log's own goroutine and [Close] go on.  A disagreement's two
    accesses, to the counters and to the queue, touch different fields: taking them as
    one loses no interleaving. *)
Inductive happening :=
| Concluded (now : Z) (req : Request) (proxy : ProxyResult) (elapsed : Z) (v : Compare.verdict)
| Background (o : op).
Definition background (o : op) : bool := match o with OLog _ _ | OObserve _ _ _ => false | _ => true end.
Definition happen (e : happening) (st : effects * Disk) : option (effects * Disk) :=
  let '(fx, d) := st in
  match e with
  | Concluded now req proxy elapsed v => Some (conclude now req proxy elapsed v fx, d)
  | Background o =>
      w ← fx_diffs fx; '(w, d) ← (if background o then act o w d else None); Some (MkEffects (Some w) (fx_skipped fx), d)
  end.
Fixpoint exec (l : list happening) (st : effects * Disk) : option (effects * Disk) :=
  match l with [] => Some st | e :: l => st ← happen e st; exec l st end.

(** Read off what happened: the comparisons that agreed or not, at what time and of
    what endpoint; those skipped; the records of the disagreements, in order; how many
    of them came after [Close]; how many records the goroutine took from the queue. *)
Definition endpoint_of (req : Request) : string := rq_Endpoint (sr_Native req).
Definition outcome_of (e : happening) : list (Z * string * bool) :=
  match e with
  | Concluded now req _ _ VMatch => [(now, endpoint_of req, true)]
  | Concluded now req _ _ (VRecord _) => [(now, endpoint_of req, false)]
  | _ => []
  end.
Definition skip (e : happening) : list (string * string) :=
  match e with Concluded _ req _ _ (VSkip reason) => [(endpoint_of req, reason)] | _ => [] end.
Definition disagreement (o : DiffLog.Options) (e : happening) : list LogRecord :=
  match e with
  | Concluded now req proxy elapsed (VRecord rec) =>
      let rq := sr_Native req in
      [DiffLog.truncate o (MkRecord (Some (default now (Time rec))) (rec_Kind rec) (rq_Endpoint rq) (rq_Origin rq) (sr_URI req)
         (rq_RoomID rq) (rq_EventID rq) (pr_Status proxy) (NativeStatus rec) (pr_Duration proxy) elapsed (rec_Diff rec)
         (NativeError rec) (if pr_Truncated proxy then SynapseBody rec else pr_Body proxy) (NativeBody rec) (BodiesTruncated rec))]
  | _ => []
  end.
Fixpoint late_records (closed : bool) (l : list happening) : nat :=
  match l with
  | [] => 0
  | Concluded _ _ _ _ (VRecord _) :: l => (if closed then 1 else 0) + late_records closed l
  | Background OClose :: l => late_records true l
  | _ :: l => late_records closed l
  end.
Definition taken_by (e : happening) : nat := match e with Background (OWrite _) => 1 | _ => 0 end.
Definition taken (l : list happening) : nat := sum_list (taken_by <$> l).

(** The counters, which wrap, have moved by these outcomes. *)
Record moved (vs : list (Z * string * bool)) (s s' : Stats) : Prop := {
  mv_compared : u64 (Compared s') = u64 (Compared s + count vs);
  mv_matched : u64 (Matched s') = u64 (Matched s + count (with_outcome true vs));
  mv_mismatched : u64 (Mismatched s') = u64 (Mismatched s + count (with_outcome false vs));
  mv_endpoint ep :
    let e := default no_endpoint (per_endpoint s !! ep) in let e' := default no_endpoint (per_endpoint s' !! ep) in
    u64 (es_Compared e') = u64 (es_Compared e + count (about ep vs)) ∧
    u64 (es_Matched e') = u64 (es_Matched e + count (about ep (with_outcome true vs))) ∧
    u64 (es_Mismatched e') = u64 (es_Mismatched e + count (about ep (with_outcome false vs))) ∧
    FirstMismatch e' = match FirstMismatch e with Some t => Some t | None => (λ v, v.1.1) <$> head (about ep (with_outcome false vs)) end ∧
    LastMismatch e' = match last (about ep (with_outcome false vs)) with Some v => Some v.1.1 | None => LastMismatch e end }.

Definition uncounted (s s' : Stats) : Prop :=
  Compared s' = Compared s ∧ Matched s' = Matched s ∧ Mismatched s' = Mismatched s ∧ per_endpoint s' = per_endpoint s.
Lemma moved_nothing s s' : uncounted s s' → moved [] s s'.
Proof.
  intros (E1 & E2 & E3 & E4). split; cbn; rewrite ?E1, ?E2, ?E3, ?E4, ?Z.add_0_r; try done.
  intros ep. rewrite !Z.add_0_r. split_and!; try done. by destruct (FirstMismatch _).
Qed.

Lemma u64_add a b c n m : u64 b = u64 (a + n) → u64 c = u64 (b + m) → u64 c = u64 (a + (n + m)).
Proof.
  unfold u64. intros H1 ->. rewrite <-Zplus_mod_idemp_l, H1, Zplus_mod_idemp_l. f_equal. lia.
Qed.

Lemma moved_app vs1 vs2 s s1 s2 : moved vs1 s s1 → moved vs2 s1 s2 → moved (vs1 ++ vs2) s s2.
Proof.
  intros [H1 H2 H3 H4] [G1 G2 G3 G4].
  assert (∀ {A} (l1 l2 : list A), count (l1 ++ l2) = count l1 + count l2) as Hc by (intros; unfold count; rewrite length_app; lia).
  split; unfold with_outcome, about in *; rewrite ?filter_app, ?Hc; eauto using u64_add.
  intros ep. specialize (H4 ep). specialize (G4 ep). cbn zeta in *. destruct H4 as (A1 & A2 & A3 & A4 & A5), G4 as (B1 & B2 & B3 & B4 & B5).
  rewrite !filter_app, !Hc. split_and!; eauto using u64_add.
  - rewrite B4, A4. destruct (FirstMismatch (default no_endpoint (per_endpoint s !! ep))) as [t|]; [done|].
    by destruct (filter (λ v : Z * string * bool, v.1.2 = ep) (filter (λ v : Z * string * bool, v.2 = false) vs1)).
  - rewrite B5, A5, last_app.
    by destruct (last (filter (λ v : Z * string * bool, v.1.2 = ep) (filter (λ v : Z * string * bool, v.2 = false) vs2))).
Qed.

Lemma moved_observe now ep matched s : moved [(now, ep, matched)] s (observe now ep matched s).
Proof.
  assert (∀ x, u64 (u64 x) = u64 x) as Hu by (intros x; unfold u64; by rewrite Zmod_mod).
  assert (∀ b, with_outcome b [(now, ep, matched)] = if Bool.eqb b matched then [(now, ep, matched)] else []) as Hw
    by (by intros []; destruct matched).
  unfold observe. split; rewrite ?Hw.
  - destruct matched; cbn; by rewrite Hu.
  - destruct matched; cbn; by rewrite Hu.
  - destruct matched; cbn; by rewrite Hu.
  - intros ep'. destruct (decide (ep = ep')) as [->|Hne].
    + assert (about ep' [(now, ep', matched)] = [(now, ep', matched)]) as Ha by (unfold about; by rewrite filter_cons_True).
      rewrite Ha. destruct matched; cbn [Bool.eqb]; rewrite ?Ha; cbn; rewrite lookup_insert_eq; cbn; rewrite !Hu; split_and!; try done;
        by destruct (FirstMismatch (default no_endpoint (per_endpoint s !! ep'))).
    + assert (about ep' [(now, ep, matched)] = []) as Ha by (unfold about; by rewrite filter_cons_False).
      rewrite Ha. destruct matched; cbn [Bool.eqb]; rewrite ?Ha; cbn; rewrite lookup_insert_ne by done; rewrite !Z.add_0_r; split_and!; try done;
        by destruct (FirstMismatch (default no_endpoint (per_endpoint s !! ep'))).
Qed.

Lemma write_uncounted f r w d w' d' : write f r w d = (w', d') → kept w w' ∧ uncounted (stats w) (stats w').
Proof.
  unfold write, put_line, rotateLocked, openActiveLocked, kept, uncounted.
  repeat (split_match; simplify_eq; cbn in *; try done); intros; simplify_eq; done.
Qed.
Lemma flush_uncounted f now w d w' d' : flushStats f now w d = (w', d') → kept w w' ∧ stats w' = stats w.
Proof. unfold flushStats, kept. destruct (SaveFails f); intros; by simplify_eq. Qed.

(** What one event or many do to the writer. *)
Record wrote (l : list happening) (w w' : Writer) : Prop := {
  wr_opts : opts w' = opts w;
  wr_moved : moved (l ≫= outcome_of) (stats w) (stats w');
  wr_kept : ∃ out, length out = taken l ∧ out ++ queue w' `sublist_of` queue w ++ (l ≫= disagreement (opts w));
  wr_lost : ∃ full, u64 (dropped w') = u64 (dropped w + Z.of_nat full) ∧
    (length (queue w) + length (l ≫= disagreement (opts w)) = taken l + length (queue w') + full + late_records (closed w) l)%nat ∧
    (Z.of_nat (length (queue w) + length (l ≫= disagreement (opts w))) ≤ Options.QueueSize (opts w) → full = 0%nat) }.
Definition closes (e : happening) : bool := match e with Background OClose => true | _ => false end.

Lemma late_cons c e l : late_records c (e :: l) = (late_records c [e] + late_records (c || closes e) l)%nat.
Proof.
  destruct e as [now req proxy elapsed [|reason|rec]|[]]; cbn; rewrite ?orb_false_r, ?orb_true_r; try done. by destruct c.
Qed.

(** A record that is offered. *)
Lemma wrote_log now r w st e : disagreement (opts w) e = [prepared now (opts w) r] → taken_by e = 0%nat → closes e = false →
  late_records (closed w) [e] = (if closed w then 1 else 0)%nat → 
  moved (outcome_of e) (stats w) st → wrote [e] w (Log now r (set_stats st w)).2.
Proof.
  intros Hd Ht Hcl Hl Hm. assert ([e] ≫= disagreement (opts w) = [prepared now (opts w) r]) as Hd' by (cbn; by rewrite app_nil_r).
  assert (taken [e] = 0%nat) as Ht' by (unfold taken; cbn; lia).
  unfold Log. cbn [closed set_stats opts queue]. destruct (closed w) eqn:Ec; [|case_bool_decide as Hq].
  - split; cbn [snd opts set_queue set_stats add_dropped queue dropped stats]; rewrite ?Hd', ?Ht'; try done.
    + cbn. by rewrite app_nil_r.
    + exists []. split; [done|]. apply sublist_inserts_r. done.
    + exists 0%nat. rewrite ?Ec, Hl. split_and!; [by rewrite Z.add_0_r|cbn; lia|done].
  - split; cbn [snd opts set_queue set_stats add_dropped queue dropped stats]; rewrite ?Hd', ?Ht'; try done.
    + cbn. by rewrite app_nil_r.
    + by exists [].
    + exists 0%nat. rewrite ?Ec, Hl. split_and!; [by rewrite Z.add_0_r|cbn; rewrite length_app; cbn; lia|done].
  - split; cbn [snd opts set_queue set_stats add_dropped queue dropped stats]; rewrite ?Hd', ?Ht'; try done.
    + cbn. by rewrite app_nil_r.
    + exists []. split; [done|]. apply sublist_inserts_r. done.
    + exists 1%nat. rewrite ?Ec, Hl. split_and!; [cbn; unfold u64; by rewrite Zmod_mod|cbn; lia|cbn; lia].
Qed.

(** An event that leaves the queue and the dropped counter. *)
Lemma wrote_other e w w' : disagreement (opts w) e = [] → taken_by e = 0%nat → late_records (closed w) [e] = 0%nat →
  opts w' = opts w → queue w' = queue w → dropped w' = dropped w → moved (outcome_of e) (stats w) (stats w') → wrote [e] w w'.
Proof.
  intros Hd Ht Hl Ho Hq Hdr Hm. assert ([e] ≫= disagreement (opts w) = []) as Hd' by (cbn; by rewrite app_nil_r).
  assert (taken [e] = 0%nat) as Ht' by (unfold taken; cbn; lia).
  split; rewrite ?Hd', ?Ht'; try done.
  - cbn. by rewrite app_nil_r.
  - exists []. by rewrite Hq, app_nil_r.
  - exists 0%nat. rewrite Hl, Hq, Hdr. split_and!; [by rewrite Z.add_0_r|cbn; lia|done].
Qed.

Lemma wrote_trans e l w w1 w' : closed w1 = closed w || closes e → wrote [e] w w1 → wrote l w1 w' → wrote (e :: l) w w'.
Proof.
  intros Hc [Ho1 Hm1 (o1 & L1 & S1) (f1 & D1 & N1 & F1)] [Ho2 Hm2 (o2 & L2 & S2) (f2 & D2 & N2 & F2)].
  rewrite Ho1 in *. cbn [mbind list_bind] in *. rewrite !app_nil_r in *.
  assert (taken (e :: l) = (taken [e] + taken l)%nat) as Ht by (unfold taken; cbn; lia).
  split.
  - congruence.
  - cbn [mbind list_bind]. by eapply moved_app.
  - exists (o1 ++ o2). split; [rewrite length_app; lia|]. cbn [mbind list_bind]. rewrite <-app_assoc.
    etrans; [apply sublist_app; [done|exact S2]|]. rewrite !app_assoc. by apply sublist_app.
  - exists (f1 + f2)%nat. rewrite late_cons, <-Hc, Ht. cbn [mbind list_bind]. rewrite length_app.
    split; [|split; [lia|intros Hq; rewrite F1, F2; lia]]. rewrite Nat2Z.inj_add. eapply u64_add; done.
Qed.

Lemma act_wrote o w d w1 d1 : background o = true → act o w d = Some (w1, d1) →
  closed w1 = closed w || closes (Background o) ∧ wrote [Background o] w w1.
Proof.
  intros Hb. destruct o as [| |f|f now| |f now|]; try done; cbn [act closes]; rewrite ?orb_false_r, ?orb_true_r.
  - destruct (queue w) as [|r q] eqn:Eq; [done|]. intros [= E].
    apply write_uncounted in E as ((Ho & Hq & Hc & Hd) & Hu). cbn [set_queue opts queue closed dropped stats] in *. split; [done|].
    split; [done|by apply moved_nothing|..]; cbn [mbind list_bind disagreement app]; rewrite ?app_nil_r, Eq, Hq.
    + by exists [r].
    + exists 0%nat. rewrite Hd. split_and!; [by rewrite Z.add_0_r|unfold taken; cbn; lia|done].
  - destruct (loop_done w); [done|]. intros [= E]. apply flush_uncounted in E as ((Ho & Hq & Hc & Hd) & Hs).
    split; [done|]. apply wrote_other; try done. rewrite Hs. by apply moved_nothing.
  - destruct (closed w) eqn:Ec; [done|]. intros [= <- <-]. split; [done|]. apply wrote_other; try done. by apply moved_nothing.
  - destruct (_ && _ && _); [|done]. destruct (flushStats _ _ _ _) as [w2 d2] eqn:E. intros [= <- <-].
    apply flush_uncounted in E as ((Ho & Hq & Hc & Hd) & Hs).
    split; [done|]. apply wrote_other; try done. cbn. rewrite Hs. by apply moved_nothing.
  - destruct (loop_done w); [|done]. intros [= <- <-]. split; [done|]. apply wrote_other; try done. by apply moved_nothing.
Qed.

Lemma happen_wrote e fx d w fx1 d1 : fx_diffs fx = Some w → happen e (fx, d) = Some (fx1, d1) →
  fx_skipped fx1 = fx_skipped fx ++ skip e ∧ ∃ w1, fx_diffs fx1 = Some w1 ∧ closed w1 = closed w || closes e ∧ wrote [e] w w1.
Proof.
  intros Ew. destruct e as [now req proxy elapsed v|o]; cbn [happen].
  - intros [= <- <-]. destruct v as [|reason|rec]; cbn [conclude match_ record fx_diffs fx_skipped skip closes]; rewrite ?Ew, ?app_nil_r, ?orb_false_r.
    + split; [done|]. eexists. split; [reflexivity|]. split; [done|]. apply wrote_other; try done. by apply moved_observe.
    + split; [done|]. eexists. split; [reflexivity|]. split; [done|]. apply wrote_other; try done. by apply moved_nothing.
    + split; [done|]. eexists. split; [reflexivity|].
      split; [unfold Log; by repeat case_match|]. apply wrote_log; try done. apply moved_observe.
  - rewrite Ew. cbn [mbind option_bind]. destruct (background o) eqn:Hb; [|done].
    destruct (act o w d) as [[w1 d1']|] eqn:Ea; [|done]. cbn. intros [= <- <-]. rewrite app_nil_r. split; [done|]. exists w1. split; [done|].
    by apply (act_wrote o w d w1 d1').
Qed.

Lemma exec_wrote l fx d w fx' d' : fx_diffs fx = Some w → exec l (fx, d) = Some (fx', d') →
  fx_skipped fx' = fx_skipped fx ++ (l ≫= skip) ∧ ∃ w', fx_diffs fx' = Some w' ∧ wrote l w w'.
Proof.
  revert fx d w. induction l as [|e l IH]; intros fx d w Ew E.
  - injection E as <- <-. split; [by rewrite app_nil_r|]. exists w. split; [done|].
    split; [done|by apply moved_nothing|..]; cbn [mbind list_bind]; rewrite ?app_nil_r; [by exists []|].
    exists 0%nat. split_and!; [by rewrite Z.add_0_r|cbn; lia|done].
  - cbn [exec mbind option_bind] in E. destruct (happen e (fx, d)) as [[fx1 d1]|] eqn:Eh; [|done]. cbn in E.
    destruct (happen_wrote e fx d w fx1 d1 Ew Eh) as (Hs & w1 & Ew1 & Hc & Hw).
    destruct (IH fx1 d1 w1 Ew1 E) as (Hs' & w' & Ew' & Hw').
    split; [by rewrite Hs', Hs, <-app_assoc|]. exists w'. split; [done|]. by eapply wrote_trans.
Qed.

(** C34. Every comparison is counted once, and every disagreement leaves its record.
    From any state of the log, whatever comparisons conclude, in whatever order, and
    whatever the log's goroutine and its shutdown do in between: the counters, overall
    and by endpoint, have moved by the numbers of matches and disagreements, the first
    and the last disagreement of an endpoint are dated, and skips, which move nothing,
    are counted under their reasons; the records of the disagreements, completed with
    the request and Synapse's answer, reach the queue in order after what it held, and
    are taken from it in order, and those that do not were refused: one in the dropped
    counter each, which happens only when the queue has no room, or came after the log
    was closed. *)
Theorem disagreement_accounted l fx d w fx' d' :
  fx_diffs fx = Some w → exec l (fx, d) = Some (fx', d') →
  fx_skipped fx' = fx_skipped fx ++ (l ≫= skip) ∧
  ∃ w' out full, fx_diffs fx' = Some w' ∧ moved (l ≫= outcome_of) (stats w) (stats w') ∧
    length out = taken l ∧ out ++ queue w' `sublist_of` queue w ++ (l ≫= disagreement (opts w)) ∧
    (length (queue w) + length (l ≫= disagreement (opts w)) = length (out ++ queue w') + full + late_records (closed w) l)%nat ∧
    u64 (dropped w') = u64 (dropped w + Z.of_nat full) ∧
    (Z.of_nat (length (queue w) + length (l ≫= disagreement (opts w))) ≤ Options.QueueSize (opts w) → full = 0%nat).
Proof.
  intros Ew E. destruct (exec_wrote l fx d w fx' d' Ew E) as (Hs & w' & Ew' & [_ Hm (out & Hl & Hsub) (full & Hd & Hn & Hf)]).
  split; [done|]. exists w', out, full. split_and!; try done. rewrite length_app. lia.
Qed.

(** Synapse's answer is not always JSON: when something in front of it answers with
    HTML, the disagreement is counted and its record accepted, and it cannot be
    written. *)
Theorem html_disagreement_unwritable now o req nativeBody elapsed rec :
  let proxy := PR 503 "<html></html>" 1000000 false in
  finish (λ s, s) (λ _, EmptyString) (sr_Native req) proxy nativeBody 200 no_meta = VRecord rec →
  13 ≤ Options.BodyLimit o →
  marshal_record (prepared now o (complete req proxy elapsed rec)) = None.
Proof.
  cbv zeta. intros [= <-] Hb.
  assert (raw_ok "<html></html>" = false) as Hraw by by vm_compute.
  apply eq_None_not_Some. rewrite marshal_record_ok. intros [H _]. revert H.
  unfold prepared, truncate. rewrite bool_decide_false by lia. cbn [SynapseBody complete pr_Body pr_Truncated found with_bodies stamped].
  unfold with_bodies. cbn [SynapseBody stamped]. rewrite clip_body_loggable. rewrite Hraw.
  change (str_len "<html></html>") with 13. intros [H|H]; [lia|done].
Qed.

Module RunnerWitness.
Definition schedule : list Sem.action :=
  [Sem.Go 1; Sem.Go 2; Sem.Served 3; Sem.Served 4; Sem.End 1 true; Sem.Wake 3; Sem.TimedOut 4]%nat.
Definition step (st : option (list nat * Sem.t)) (a : Sem.action) : option (list nat * Sem.t) :=
  '(js, st) ← st;
  if bool_decide (Forall (λ j, j ∉ js) (Sem.submits a)) then st' ← Sem.act 1 a st; Some (js ++ Sem.submits a, st') else None.
Lemma steps_reach l js st js' st' : Sem.reach 1 js st → foldl step (Some (js, st)) l = Some (js', st') → Sem.reach 1 js' st'.
Proof.
  revert js st. induction l as [|a l IH]; intros js st Hr E; [by injection E as <- <-|]. cbn in E.
  case_bool_decide as Hn; [destruct (Sem.act 1 a st) as [st1|] eqn:Ea|]; cbn in E.
  - eapply IH; [|exact E]. by eapply Sem.reach_step.
  - exfalso. clear -E. induction l; [done|]. auto.
  - exfalso. clear -E. induction l; [done|]. auto.
Qed.
Definition settled : Sem.t :=
  Sem.Mk [3%nat] [] [(2%nat, Some "busy"%string); (1%nat, Some "panic"%string); (4%nat, Some "busy_verify"%string)].
Lemma slots_accounted_witness :
  foldl step (Some ([], Sem.init)) schedule = Some ([1; 2; 3; 4]%nat, settled) ∧ (length (Sem.running settled) ≤ 1)%nat.
Proof.
  split; [by vm_compute|]. apply (slots_accounted 1 [1; 2; 3; 4]%nat settled).
  eapply (steps_reach schedule); [apply Sem.reach_init|by vm_compute].
Defined.

Definition req : Request := MkShadowRequest (MkRequest "event" "a.org" "" "$e" "") "/e" "GET" "X-Matrix".
(** A match and two disagreements, of which the queue of one takes the first; the
    goroutine takes it, the log is closed, and a last disagreement comes too late. *)
Definition clash : Compare.verdict := VRecord (found KindStatus 404 "{}" None EmptyString).
Definition answer : ProxyResult := PR 200 "{}" 1500000 false.
Definition busy_hour : list happening :=
  [Concluded 6 req answer 42 VMatch; Concluded 7 req answer 42 clash; Concluded 8 req answer 42 clash;
   Background (OWrite no_faults); Background OClose; Concluded 9 req answer 42 clash].
Lemma disagreement_accounted_witness :
  ∃ w', (fx_diffs ∘ fst <$> exec busy_hour (MkEffects (Some LogWitness.w0) [], LogWitness.d0)) = Some (Some w') ∧
    u64 (Mismatched (stats w')) = u64 (Mismatched (stats LogWitness.w0) + 3) ∧
    u64 (dropped w') = u64 (dropped LogWitness.w0 + 1).
Proof.
  assert (is_Some (exec busy_hour (MkEffects (Some LogWitness.w0) [], LogWitness.d0))) as [[fx' d'] E]
    by (apply (bool_decide_unpack _); vm_compute; exact I).
  destruct (disagreement_accounted busy_hour (MkEffects (Some LogWitness.w0) []) LogWitness.d0 LogWitness.w0 fx' d' eq_refl E)
    as (_ & w' & out & full & Ew & Hm & Ho & _ & Hn & Hd & _).
  exists w'. split; [by rewrite E; cbn; rewrite Ew|]. split; [exact (mv_mismatched _ _ _ Hm)|].
  assert (queue w' = []) as Hq.
  { assert (fx_diffs ∘ fst <$> exec busy_hour (MkEffects (Some LogWitness.w0) [], LogWitness.d0) = Some (Some w')) as E'
      by (rewrite E; cbn; by rewrite Ew).
    assert (queue <$> mjoin (fx_diffs ∘ fst <$> exec busy_hour (MkEffects (Some LogWitness.w0) [], LogWitness.d0)) = Some []) as E2
      by (vm_compute; reflexivity).
    rewrite E' in E2. by injection E2. }
  rewrite length_app, Ho, Hq in Hn.
  assert (length (queue LogWitness.w0) = 0%nat) as E1 by (vm_compute; reflexivity).
  assert (length (busy_hour ≫= disagreement (opts LogWitness.w0)) = 3%nat) as E2 by (vm_compute; reflexivity).
  assert (taken busy_hour = 1%nat) as E3 by (vm_compute; reflexivity).
  assert (late_records (closed LogWitness.w0) busy_hour = 1%nat) as E4 by (vm_compute; reflexivity).
  rewrite E1, E2, E3, E4 in Hn. cbn [length] in Hn. assert (full = 1%nat) as -> by lia. exact Hd.
Defined.
End RunnerWitness.
