(* ===== verification/Verify.v ===== *)
(** * What is compared: the comparisons a request starts

    A request forwarded in shadow mode, or in the canary's other share, is compared with
    what we would have answered ([ServeHTTP], [GoState], [Go]); an answer we served is
    compared with what Synapse answers to a replay ([compareServed],
    [compareStateServed]).  Here the handler, the proxy with its recorder, the digest and
    the runner meet: a verdict is about what the client was sent. *)
From S2P Require Import Prelude Cache RateLimit Json JsonStream Store AuthChain StateGroups MissingEvents External Events Acl Pducmp Wire Printed Digest Resolver StateStream Access Served ServedState Config Route Native Http Proxy Serve DiffLog Compare EndToEnd Diagnose FedAuth Runner.

Open Scope list_scope.
Open Scope Z_scope.

(** ** The comparisons *)
Inductive comparison :=
| Bodies (req : Runner.Request) (proxy : ProxyResult)                                           (* [Runner.Go] *)
| Digests (req : Runner.Request) (proxy : ProxyResult) (upstream : StateResult * option error). (* [Runner.GoState] *)

(** [StateSink.Wait]: the digest of what was written to the sink. *)
Definition Wait `{!External} (sink : option string) : StateResult * option error := DigestStateResponse (default EmptyString sink).

Definition replayBudget : Z := 180.

Section compared.
Context `{!External}.
Variable ParseXMatrixAuth : string → string.
Variables RequestURI Method : hrequest → string.
Variable Quote : string → string.
Variable error_text : error → string.
Variable is_deadline : error → bool.
Variable duration : Z.     (* the time Synapse took *)

Definition shadowRequest (rq : hrequest) (endpoint origin roomID eventID reqBody : string) : Runner.Request :=
  MkShadowRequest (Native.MkRequest endpoint origin roomID eventID reqBody) (RequestURI rq) (Method rq) (q_Authorization rq).

(** *** Of a forwarded request *)

(** The request of a comparison: the origin is the one claimed. *)
Definition request_of (rq : hrequest) (route : Route) (reqBody : string) : Runner.Request :=
  shadowRequest rq (endpoint_name (Endpoint_ route)) (originFromAuth ParseXMatrixAuth (q_Authorization rq)) (roomIDFor route)
    (eventIDFor route (q_event_id rq)) reqBody.

Definition is_shadowing (h : Handler) (route : Route) : bool :=
  let mode := modeFor (h_modes h) (Endpoint_ route) in
  (bool_decide (Config.Kind mode = ModeShadow) || bool_decide (Config.Kind mode = ModeCanary)) && h_shadowing h.

(** What [ServeHTTP] starts once [fall_back] has forwarded the request. *)
Definition started `{!Connection} (h : Handler) (env : environment) (rq : hrequest) (route : Route) (reqBody : string) (w : response)
    : option comparison :=
  let req := request_of rq route reqBody in
  if e_gone env then None
  else if is_shadowing h route && bool_decide (Endpoint_ route = EndpointState) then
    let '(res, rec) := ForwardStreaming (e_backend env) (e_upstream env) (e_gone_after env) true w EmptyString in
    match res with
    | None => None
    | Some res =>
        let '(upstream, err) := Wait (rec_sink rec) in
        let err := match SinkErr res with Some e => Some e | None => err end in
        if negb (Canceled res) && negb (Err_ res) then
          Some (Digests req (PR (Status_ res) EmptyString duration false) (upstream, err))
        else None
    end
  else
    let '(res, _) := Forward (S := string) (e_backend env) (e_upstream env) (e_gone_after env) true w
                       (if is_shadowing h route then h_captureLimit h else 0) in
    match res with
    | None => None
    | Some res =>
        if is_shadowing h route && negb (Canceled res) && negb (Err_ res) then
          Some (Bodies req (PR (Status_ res) (Body_ res) duration (Truncated res)))
        else None
    end.

(** The comparison, when its goroutine runs. *)
Definition judge `{!NativeResolver} (serverName : string) (verifier : option Compare.replay) (slot : bool) (c : comparison) : R Compare.verdict :=
  when_free slot
    (match c with
     | Bodies req proxy => Compare.run Quote error_text is_deadline serverName verifier (sr_Native req) proxy
     | Digests req proxy upstream => compareState Quote error_text is_deadline verifier (sr_Native req) proxy upstream
     end).

(** *** Of a served answer

    [ops] is Synapse's answer to the replay.  No verdict: there is no comparator, or the
    reverse proxy panicked, which is recovered. *)
Definition compareServed (h : Handler) (backend : string) (ops : list rw_op) (gone slot : bool) (req : Runner.Request)
    (body : string) (status : Z) (meta : Meta) : option Compare.verdict :=
  if negb (h_shadowing h) then None else
  match Fetch (S := string) backend ops gone true (h_captureLimit h) with
  | None => None
  | Some res =>
      Some (CompareServed Quote error_text slot (sr_Native req) (PR (Status_ res) (Body_ res) duration (Truncated res)) body status meta)
  end.

(** How long the replay of a /state request may take, in seconds. *)
Definition state_budget (h : Handler) : Z :=
  if bool_decide (replayBudget < h_verifyTimeout h) then h_verifyTimeout h else replayBudget.

Definition compareStateServed (h : Handler) (backend : string) (ops : list rw_op) (gone slot : bool) (ours : StateResult)
    : option Compare.verdict :=
  if negb (h_shadowing h) then None else
  let '(res, rec) := ForwardStreaming backend ops gone true Proxy.Discard EmptyString in
  match res with
  | None => None
  | Some res =>
      let '(upstream, err) := Wait (rec_sink rec) in
      let err := match SinkErr res with Some e => Some e | None => err end in
      Some (CompareStateServed slot (PR (Status_ res) EmptyString duration false) (upstream, err) ours)
  end.

(** *** The digester

    [NewStateSink] starts a goroutine that reads a pipe until [Wait] closes it. *)
Inductive digester := NoDigester | Finished | Blocked.
Definition digester_of `{!Connection} (h : Handler) (env : environment) (route : Route) (w : response) : digester :=
  if e_gone env then NoDigester
  else if is_shadowing h route && bool_decide (Endpoint_ route = EndpointState) then
    match (ForwardStreaming (e_backend env) (e_upstream env) (e_gone_after env) true w EmptyString).1 with
    | None => Blocked
    | Some _ => Finished
    end
  else NoDigester.
End compared.

(** ** What the sink has seen *)
Section sink.
Context {conn : Connection} {Hconn : LawfulConnection}.

(** The digest's copy is the client's. *)
Definition in_step (r : recorder response string) : Prop := rec_sink r = Some (r_sent (rec_w r)) ∧ sinkErr r = None.

Lemma capture_frame {W S} p (r : recorder W S) :
  rec_w (capture p r) = rec_w r ∧ rec_sink (capture p r) = rec_sink r ∧ sinkErr (capture p r) = sinkErr r ∧ status (capture p r) = status r.
Proof using Type. unfold capture. destruct (bool_decide (0 < _)); [|done]. by destruct (if bool_decide _ then _ else _). Qed.

Lemma rec_body_step p (r : recorder response string) : in_step r → in_step (rec_Write p r).1.
Proof using Hconn.
  intros [Hs He]. unfold rec_Write, in_step. cbn [WriteBody server_writer].
  destruct (send_sent None p (rec_w r)) as (n & En & _ & Esent & _).
  destruct (send None p (rec_w r)) as [w [m e]]. cbn [fst snd] in *. subst m.
  match goal with |- context [capture ?p ?r] => destruct (capture_frame p r) as (-> & -> & -> & _) end.
  unfold tee. cbn [rec_sink sinkErr rec_w]. rewrite Hs, He. cbn. by rewrite Esent.
Qed.

Lemma perform_step ops (r : recorder response string) : in_step r → in_step (perform ops r).1.
Proof using Hconn.
  revert r. induction ops as [|[k v|code|p|] ops IH]; intros r Hr; cbn [perform]; [done|..|done].
  - apply IH. destruct Hr as [Hs He]. split; [|done]. cbn. rewrite Hs. unfold set_header. by destruct (r_status (rec_w r)).
  - apply IH. change (in_step (rec_WriteHeader code r)). unfold rec_WriteHeader. case_bool_decide; [|done].
    destruct Hr as [Hs He]. split; [|done]. cbn. rewrite Hs. unfold set_status. by repeat case_match.
  - change (WriteBody p r) with (rec_Write p r). pose proof (rec_body_step p r Hr) as Hs.
    destruct (rec_Write p r) as [r' [n [e|]]]; [done|by apply IH].
Qed.
End sink.

(** ** Synapse's answer to a replay *)

(** What it sends: the status, the body, and whether that is all of it. *)
Fixpoint said_status (ops : list rw_op) : Z :=
  match ops with
  | [] | Fail :: _ => 0
  | SetHeader _ _ :: ops => said_status ops
  | Proxy.Status code :: _ => code
  | Body _ :: _ => 200
  end.
Fixpoint said_body (ops : list rw_op) : string :=
  match ops with
  | [] | Fail :: _ => EmptyString
  | SetHeader _ _ :: ops | Proxy.Status _ :: ops => said_body ops
  | Body p :: ops => p +:+ said_body ops
  end.
Fixpoint said_all (ops : list rw_op) : bool :=
  match ops with
  | [] => true
  | Fail :: _ => false
  | _ :: ops => said_all ops
  end.

Lemma take_all p : take_str (Z.to_nat (str_len p)) p = p.
Proof. apply take_str_ge. unfold str_len. lia. Qed.

(** A writer that discards everything sees all of it. *)
Lemma discarded ops (r : recorder discard string) s : Forall proper ops → limit r = 0 → rec_sink r = Some s → sinkErr r = None →
  ∃ r', perform ops r = (r', said_all ops) ∧ rec_sink r' = Some (s +:+ said_body ops) ∧ sinkErr r' = None ∧
    status r' = (if bool_decide (status r = 0) then said_status ops else status r).
Proof.
  revert r s. induction ops as [|o ops IH]; intros r s Hp Hl Hs He.
  { exists r. cbn. rewrite Hs, app_nil_str. split_and!; try done. by case_bool_decide. }
  apply Forall_cons in Hp as [Ho Hp]. destruct o as [k v|code|p|]; cbn [perform said_all said_body said_status].
  - exact (IH (Header_Set k v r) s Hp Hl Hs He).
  - change (WriteHeader code r) with (rec_WriteHeader code r). unfold rec_WriteHeader. case_bool_decide as Hst.
    + match goal with |- context [perform ops ?r0] => destruct (IH r0 s) as (r' & E & H1 & H2 & H3); [done..|] end.
      exists r'. split_and!; [done..|]. rewrite H3. cbn [status]. rewrite bool_decide_false; [done|]. simpl in Ho. lia.
    + destruct (IH r s) as (r' & E & H1 & H2 & H3); [done..|]. exists r'. rewrite (bool_decide_false (status r = 0)) in H3 by done. done.
  - change (WriteBody p r) with (rec_Write p r). unfold rec_Write. cbn [WriteBody discard_writer]. rewrite take_all.
    unfold tee. cbn [rec_sink sinkErr]. rewrite Hs, He.
    change (StateStream.write s p) with (s +:+ p, (str_len p, @None error)). cbn [rec_w status Proxy.written limit buf truncated rec_sink sinkErr].
    match goal with |- context [capture ?p ?r0] => set (r1 := r0); destruct (capture_frame p r1) as (_ & E1 & E2 & E3) end.
    assert (limit (capture p r1) = 0) as El by (unfold capture; cbn [r1 limit]; rewrite Hl; done).
    destruct (IH (capture p r1) (s +:+ p)) as (r' & E & H1 & H2 & H3); [done|done|by rewrite E1|by rewrite E2|].
    exists r'. rewrite E. split_and!; [done|by rewrite H1, app_assoc_str|done|]. rewrite H3, E3. cbn [r1 status].
    destruct (decide (status r = 0)) as [Hz|Hz].
    + by rewrite !(bool_decide_true (status r = 0)) by done.
    + by rewrite !(bool_decide_false (status r = 0)) by done.
  - exists r. rewrite Hs, app_nil_str. split_and!; try done. by case_bool_decide.
Qed.

(** ** Forwarded requests *)
Section forwarded.
Context `{!External} {conn : Connection} {Hconn : LawfulConnection} (d : DB) (F : nat) (Hd : Served.proper d F).
Variable clock : nat → Z.
Variable settable : bool.
Variable is_deadline : error → bool.
Variable gjson_room : string → string.
Variable ParseXMatrixAuth : string → string.
Variables RequestURI Method : hrequest → string.
Variable Quote : string → string.
Variable error_text : error → string.
Variable duration : Z.
Variable now : Z.
Notation ServeHTTP := (ServeHTTP clock settable is_deadline gjson_room ParseXMatrixAuth).
Notation request_of := (request_of ParseXMatrixAuth RequestURI Method).
Notation started := (started ParseXMatrixAuth RequestURI Method duration).
Notation judge := (judge (H0 := matrixstate_resolver None now) Quote error_text is_deadline).

(** A request left to Synapse under a comparator, whose whole answer [out], with status
    [code], reaches the client. *)
Record forwards (h : Handler) (env : environment) (rq : hrequest) (route : Route) (body : string) (out : response) (code : Z) : Prop := {
  fw_path : q_Path rq ≠ "/health"%string;
  fw_route : Match (q_EscapedPath rq) = Some route;
  fw_body : read_body (Endpoint_ route) (q_body rq) = Ok body;
  fw_unsampled : sampled (modeFor (h_modes h) (Endpoint_ route)) (samplingKey route (eventIDFor route (q_event_id rq)) body) = false;
  fw_shadowing : is_shadowing h route = true;
  fw_here : e_gone env = false;
  fw_final : Forall proper (e_upstream env);
  fw_sent : perform (e_upstream env) blank = (out, true);
  fw_status : r_status out = Some code;
  fw_reached : code ≠ 502 ∨ r_sent out ≠ EmptyString }.

(** What the comparison is told of [out]. *)
Definition told (h : Handler) (rq : hrequest) (route : Route) (body : string) (out : response) (code : Z) (c : comparison) : Prop :=
  if bool_decide (Endpoint_ route = EndpointState) then
    c = Digests (request_of rq route body) (PR code EmptyString duration false) (DigestStateResponse (r_sent out))
  else ∃ kept cut, c = Bodies (request_of rq route body) (PR code kept duration cut) ∧
    (0 < h_captureLimit h →
       (cut = false → kept = r_sent out) ∧ (str_len (r_sent out) < h_captureLimit h → cut = false) ∧
       (h_captureLimit h < str_len (r_sent out) → cut = true)).

(** The comparison has only the beginning of the answer. *)
Definition cut_short (c : comparison) : bool := match c with Bodies _ proxy => pr_Truncated proxy | Digests _ _ _ => false end.

Lemma serve_unsampled h env rq route body st :
  q_Path rq ≠ "/health"%string → Match (q_EscapedPath rq) = Some route → read_body (Endpoint_ route) (q_body rq) = Ok body →
  sampled (modeFor (h_modes h) (Endpoint_ route)) (samplingKey route (eventIDFor route (q_event_id rq)) body) = false →
  ServeHTTP h env rq st = (Ok (fall_back h env (modeFor (h_modes h) (Endpoint_ route)) (Endpoint_ route) NoSlot blank), st).
Proof using Type.
  intros Hp Hr Hb Hs. unfold Serve.ServeHTTP. rewrite bool_decide_false by done. rewrite Hr. cbv zeta. by rewrite Hb, Hs.
Qed.

Lemma forward_result lim (sink : option string) env out code : Forall proper (e_upstream env) → e_gone env = false →
  perform (e_upstream env) blank = (out, true) → r_status out = Some code → code ≠ 502 ∨ r_sent out ≠ EmptyString →
  ∃ res r, forward (e_backend env) (e_upstream env) (e_gone_after env) true blank lim sink = (Some res, r) ∧
    rec_w r = out ∧ Status_ res = code ∧ Canceled res = false ∧ Err_ res = false ∧ SinkErr res = sinkErr r ∧
    Truncated res = truncated r ∧ (0 < lim → Body_ res = buf r) ∧ mirrors lim r out ∧
    (sink = Some EmptyString → rec_sink r = Some (r_sent out) ∧ sinkErr r = None).
Proof using Hconn.
  intros Hp Hg Hout Hst Hre. unfold forward.
  pose proof (mirrors_perform lim _ _ blank Hp (fresh_mirrors lim sink)) as [Hm E].
  assert (sink = Some EmptyString → in_step (perform (e_upstream env) (Recorder blank 0 0 lim EmptyString false sink None)).1) as Hstep.
  { intros ->. by apply perform_step. }
  destruct (perform (e_upstream env) (Recorder _ _ _ _ _ _ _ _)) as [r c]. rewrite Hout in Hm, E. cbn [fst snd] in *. subst c.
  cbn [negb andb]. eexists _, r. split; [reflexivity|]. cbn [Status_ Canceled Err_ SinkErr Truncated Body_].
  pose proof (mi_status _ _ _ Hm) as Hs. rewrite Hst in Hs. cbn [default from_option id] in Hs.
  assert (code ≠ 0) as H0 by (intros ->; by apply (mi_known _ _ _ Hm)).
  assert (bool_decide (status r = 0) = false) as E0 by (apply bool_decide_false; congruence). rewrite E0. cbn [negb andb].
  split_and!; [apply Hm|done|done| |done|done| |done|].
  - rewrite Hs. destruct Hre as [H5|Hne]; [by rewrite bool_decide_false|]. rewrite (bool_decide_false (Proxy.written r = 0)), andb_false_r; [done|].
    rewrite (mi_written _ _ _ Hm). unfold str_len. destruct (r_sent out); [done|]. simpl. lia.
  - intros Hl. by rewrite bool_decide_true.
  - intros Hsk. destruct (Hstep Hsk) as [H1 H2]. by rewrite H1, (mi_w _ _ _ Hm).
Qed.

Lemma forward_compared h env rq route body out code st : forwards h env rq route body out code →
  ∃ hd c, ServeHTTP h env rq st = (Ok hd, st) ∧ h_resp hd = out ∧ h_slot hd = NoSlot ∧ (∃ res, h_fate hd = Proxied res true) ∧
    started h env rq route body blank = Some c ∧ told h rq route body out code c.
Proof using Hconn.
  intros [Hp Hr Hb Hs Hsh Hg Hf Hout Hst Hre]. rewrite (serve_unsampled h env rq route body st) by done.
  unfold fall_back, Verify.started, told, is_shadowing in *. rewrite Hg. cbv zeta in *. rewrite Hsh. cbn [andb].
  destruct (bool_decide (Endpoint_ route = EndpointState)).
  - destruct (forward_result 0 (Some EmptyString) env out code Hf Hg Hout Hst Hre) as (res & r & E & Hw & Hc & Ecan & Eerr & Esk & _ & _ & _ & Hsink).
    unfold ForwardStreaming. rewrite E. destruct (Hsink eq_refl) as [H1 H2]. unfold Wait. rewrite H1, Ecan, Eerr, Esk, H2. cbn [default from_option id negb andb].
    destruct (DigestStateResponse (r_sent out)) as [up err]. rewrite Hc.
    eexists _, _. split; [reflexivity|]. split; [exact Hw|]. split; [done|]. split; [by eexists|]. done.
  - destruct (forward_result (h_captureLimit h) None env out code Hf Hg Hout Hst Hre) as (res & r & E & Hw & Hc & Ecan & Eerr & _ & Et & Hbody & Hm & _).
    unfold Forward. rewrite E, Ecan, Eerr. cbn [negb andb]. rewrite Hc, Et.
    eexists _, _. split; [reflexivity|]. split; [exact Hw|]. split; [done|]. split; [by eexists|]. split; [reflexivity|].
    exists (Body_ res), (truncated r). split; [done|]. intros Hl. rewrite (Hbody Hl), (mi_buf _ _ _ Hm Hl). split_and!.
    + intros Ht. apply take_str_ge. pose proof (mi_kept _ _ _ Hm Hl Ht) as Hk. unfold str_len in Hk. lia.
    + apply (mi_whole _ _ _ Hm Hl).
    + apply (mi_cut _ _ _ Hm Hl).
Qed.

(** C5. What shadow mode says of a /state_ids request is about what its client was sent.
    Synapse's answer, with no informational response before it, reaches the client
    unchanged and untouched by the comparison, of which it keeps at most the capture
    limit.  The comparison that is started, whenever it runs and whatever the caches
    hold by then, ends in a match exactly if that answer was kept whole and is right: a
    200 that names as its state exactly the state before the event and as its auth
    chain exactly the auth chain of that state; or, when the tables call for an error,
    if it has the status of that error.  An answer shorter than the limit is kept
    whole; of a longer one nothing is said: a 200 where the tables do not call for an
    error is skipped. *)
Theorem forwarded_state_ids_judged h env rq route body out code st serverName verifier origin st2 :
  forwards h env rq route body out code → Endpoint_ route = EndpointStateIDs → 0 < h_captureLimit h →
  let req := sr_Native (request_of rq route body) in
  verifyOrigin verifier req = (origin, None) → askable d None (with_origin req origin) → rfit d F st2 →
  (∀ pdus chain, state_ids_answer d None origin (rq_RoomID req) (rq_EventID req) (Ok (SIR pdus chain)) →
     utf8_ids pdus ∧ utf8_ids chain) →
  ∃ hd c, ServeHTTP h env rq st = (Ok hd, st) ∧ h_resp hd = out ∧ started h env rq route body blank = Some c ∧
    (str_len (r_sent out) < h_captureLimit h → cut_short c = false) ∧
    (h_captureLimit h < str_len (r_sent out) → cut_short c = true) ∧
    ∃ v r st', judge serverName verifier true c st2 = (Ok v, st') ∧ rfit d F st' ∧
      state_ids_answer d None origin (rq_RoomID req) (rq_EventID req) r ∧
      (v = VMatch ↔
         match r with
         | Ok (SIR pdus chain) => code = 200 ∧ cut_short c = false ∧ ∃ syn, parse_state_ids (r_sent out) = Some syn ∧
             (∀ x, x ∈ sib_PDUIDs syn ↔ x ∈ pdus) ∧ (∀ x, x ∈ sib_AuthChainIDs syn ↔ x ∈ chain)
         | Err e => ∃ cd msg, as_matrix e = Some (code, cd, msg)
         end) ∧
      (∀ resp, r = Ok resp → code = 200 → cut_short c = true → v = VSkip "truncated").
Proof using Hconn Hd.
  intros Hfw Hst Hl req Hv Hask Hst2 Hutf.
  destruct (forward_compared h env rq route body out code st Hfw) as (hd & c & E & Hout & _ & _ & Ec & Hc).
  unfold told in Hc. rewrite Hst, bool_decide_false in Hc by done. destruct Hc as (kept & cut & -> & Hk).
  destruct (Hk Hl) as (Hk1 & Hk2 & Hk3).
  destruct (state_ids_judged d F Hd now Quote error_text is_deadline serverName verifier req
    (PR code kept duration cut) origin st2) as (v & r & st' & Ev & Hst' & Hans & Hm & Hskip); [by unfold req; cbn; rewrite Hst|done..|].
  eexists hd, _. split; [exact E|]. split; [exact Hout|]. split; [exact Ec|]. split; [exact Hk2|]. split; [exact Hk3|].
  exists v, r, st'. split; [exact Ev|]. split; [done|]. split; [done|]. split; [|exact Hskip].
  rewrite Hm. cbn [cut_short pr_Status pr_Truncated pr_Body]. destruct r as [[pdus chain]|e]; naive_solver.
Qed.

(** C6. So it is for /state, whose answer is folded into a digest on its way to the client:
    the comparison ends in a match exactly if the answer the client was sent can be
    scanned and is right: a 200 whose arrays hold, in canonical form and in any order,
    exactly the events the tables call for, each as often, unless the digests of two
    different multisets collide; or, where the tables call for an error, the status of
    that error. *)
Theorem forwarded_state_judged h env rq route body out code st serverName verifier origin st2 :
  forwards h env rq route body out code → Endpoint_ route = EndpointState →
  let req := sr_Native (request_of rq route body) in
  verifyOrigin verifier req = (origin, None) → Inj (=) (=) sha256 →
  clear_host d (rq_RoomID req) origin → plain_ids d (rq_RoomID req) (rq_EventID req) → distinct_ids d (rq_EventID req) →
  rfit d F st2 →
  ∃ hd c, ServeHTTP h env rq st = (Ok hd, st) ∧ h_resp hd = out ∧ started h env rq route body blank = Some c ∧
    ∃ v st', judge serverName verifier true c st2 = (Ok v, st') ∧ rfit d F st' ∧
      match arrays (r_sent out) with
      | Some (ps, cs) => code ≠ 502 → ∃ x, state_expected d origin (rq_RoomID req) (rq_EventID req) x ∧
          (v = VMatch ↔
             match x with
             | Ok (ps', cs') => code = 200 ∧ (ps ≡ₚ ps' ∨ collision ps ps') ∧ (cs ≡ₚ cs' ∨ collision cs cs')
             | Err e => ∃ cd msg, as_matrix e = Some (code, cd, msg)
             end)
      | None => ∃ reason, v = VSkip reason
      end.
Proof using Hconn Hd.
  intros Hfw Hst req Hv Hinj Hc Hp Hnd Hst2.
  destruct (forward_compared h env rq route body out code st Hfw) as (hd & c & E & Hout & _ & _ & Ec & Ht).
  unfold told in Ht. rewrite Hst, bool_decide_true in Ht by done. subst c.
  destruct (state_judged d F Hd now Quote error_text is_deadline verifier req (PR code EmptyString duration false)
    origin (r_sent out) st2) as (v & st' & Ev & Hst' & Hm); [done..|].
  eexists hd, _. split; [exact E|]. split; [exact Hout|]. split; [exact Ec|]. exists v, st'. split; [exact Ev|]. split; [done|].
  destruct (arrays (r_sent out)) as [[ps cs]|]; [|done]. intros H5.
  assert (unavailable (PR code EmptyString duration false) = false) as Hun.
  { unfold unavailable. cbn [pr_Status]. rewrite !bool_decide_false; [done|done|].
    intros ->. destruct Hfw as [_ _ _ _ _ _ Hf Hs Hcode _].
    pose proof (mirrors_perform 0 _ _ blank Hf (fresh_mirrors 0 (Some EmptyString))) as [Hmi _]. rewrite Hs in Hmi.
    by apply (mi_known _ _ _ Hmi). }
  rewrite Hun in Hm. exact Hm.
Qed.

(** A /state answer that is cut off on its way leaves its digester behind: [Wait] is never
    called, and the goroutine reads a pipe nobody closes. *)
Theorem cut_off_blocks_digester h env rq route body st :
  q_Path rq ≠ "/health"%string → Match (q_EscapedPath rq) = Some route → read_body (Endpoint_ route) (q_body rq) = Ok body →
  sampled (modeFor (h_modes h) (Endpoint_ route)) (samplingKey route (eventIDFor route (q_event_id rq)) body) = false →
  is_shadowing h route = true → Endpoint_ route = EndpointState →
  ∃ hd, ServeHTTP h env rq st = (Ok hd, st) ∧ (digester_of h env route blank = Blocked ↔ h_fate hd = CutOff).
Proof using Type.
  intros Hp Hr Hb Hs Hsh Hst. rewrite (serve_unsampled h env rq route body st) by done.
  eexists. split; [reflexivity|]. unfold digester_of, fall_back, is_shadowing in *. cbv zeta in *. rewrite Hsh, Hst.
  destruct (e_gone env); [done|]. rewrite bool_decide_true by done. cbn [andb].
  by destruct (ForwardStreaming _ _ _ _ _ _) as [[res|] r].
Qed.
End forwarded.

(** ** Served answers *)
Section replayed.
Context `{!External}.
Variable Quote : string → string.
Variable error_text : error → string.
Variable duration : Z.

(** The copy a replay keeps, when it is not cut. *)
Lemma kept_whole ops (r : recorder discard string) : Forall proper ops → rec_sink r = None → truncated r = false →
  str_len (buf r +:+ said_body ops) < limit r →
  ∃ r', perform ops r = (r', said_all ops) ∧ buf r' = buf r +:+ said_body ops ∧ truncated r' = false ∧
    status r' = (if bool_decide (status r = 0) then said_status ops else status r).
Proof using Type.
  revert r. induction ops as [|o ops IH]; intros r Hp Hs Ht Hl.
  { exists r. cbn. rewrite app_nil_str. split_and!; try done. by case_bool_decide. }
  apply Forall_cons in Hp as [Ho Hp]. destruct o as [k v|code|p|]; cbn [perform said_all said_body said_status] in *.
  - exact (IH (Header_Set k v r) Hp Hs Ht Hl).
  - change (WriteHeader code r) with (rec_WriteHeader code r). unfold rec_WriteHeader. case_bool_decide as Hst.
    + match goal with |- context [perform ops ?r0] => destruct (IH r0) as (r' & E & H1 & H2 & H3); [done..|] end.
      exists r'. split_and!; [done..|]. rewrite H3. cbn [status]. rewrite bool_decide_false; [done|]. simpl in Ho. lia.
    + destruct (IH r) as (r' & E & H1 & H2 & H3); [done..|]. exists r'. rewrite (bool_decide_false (status r = 0)) in H3 by done. done.
  - change (WriteBody p r) with (rec_Write p r). unfold rec_Write. cbn [WriteBody discard_writer]. rewrite take_all.
    unfold tee. cbn [rec_sink sinkErr]. rewrite Hs. unfold capture. cbn [limit buf truncated rec_w status Proxy.written rec_sink sinkErr].
    assert (str_len (buf r) + str_len p + str_len (said_body ops) < limit r) as Hlen by (unfold str_len in *; rewrite !app_len in Hl; lia).
    assert (0 ≤ str_len p ∧ 0 ≤ str_len (buf r) ∧ 0 ≤ str_len (said_body ops)) as (H0 & H0' & H0'') by (unfold str_len; lia).
    rewrite (bool_decide_true (0 < limit r)), (bool_decide_false (limit r - _ ≤ 0)), (bool_decide_false (limit r - _ < _)) by lia.
    match goal with |- context [perform ops ?r0] => destruct (IH r0) as (r' & E & H1 & H2 & H3) end;
      [done..|cbn [limit buf]; by rewrite <-app_assoc_str|].
    exists r'. rewrite E. cbn [buf status] in *. split_and!; [done|by rewrite H1, app_assoc_str|done|]. rewrite H3.
    destruct (decide (status r = 0)) as [Hz|Hz].
    + by rewrite !(bool_decide_true (status r = 0)) by done.
    + by rewrite !(bool_decide_false (status r = 0)) by done.
  - exists r. rewrite app_nil_str. split_and!; try done. by case_bool_decide.
Qed.

Lemma fetched backend ops gone lim : Forall proper ops → str_len (said_body ops) < lim →
  match Fetch (S := string) backend ops gone true lim with
  | None => said_all ops = false
  | Some res => said_all ops = true ∧ Status_ res = said_status ops ∧ Body_ res = said_body ops ∧ Truncated res = false
  end.
Proof using Type.
  intros Hp Hl. assert (0 < lim) as H0 by (eapply Z.le_lt_trans; [|exact Hl]; unfold str_len; lia).
  unfold Fetch, Forward, forward. rewrite (bool_decide_false (lim ≤ 0)) by lia.
  destruct (kept_whole ops (Recorder Proxy.Discard 0 0 lim EmptyString false None None)) as (r & E & H1 & H2 & H3); [done..|].
  rewrite E. destruct (said_all ops); [|done]. cbn [negb andb fst Status_ Body_ Truncated]. rewrite bool_decide_true by done.
  cbn [status buf truncated] in *. rewrite H3. done.
Qed.

(** The verification of a served /state_ids answer compares what was served with what
    Synapse says of the same request: when its answer fits the capture limit, the
    verdict is a match exactly if it is a 200 naming the same two sets of events; an
    answer that breaks off gives no verdict. *)
Theorem served_state_ids_verified h backend ops gone req resp :
  rq_Endpoint (sr_Native req) = "state_ids"%string → utf8_ids (PDUIDs resp) → utf8_ids (AuthChainIDs resp) →
  h_shadowing h = true → Forall proper ops → str_len (said_body ops) < h_captureLimit h →
  match compareServed Quote error_text duration h backend ops gone true req (marshal_state_ids resp) 200 no_meta with
  | None => said_all ops = false
  | Some v => said_all ops = true ∧
      (v = VMatch ↔ said_status ops = 200 ∧ ∃ syn, parse_state_ids (said_body ops) = Some syn ∧
         (∀ x, x ∈ sib_PDUIDs syn ↔ x ∈ PDUIDs resp) ∧ (∀ x, x ∈ sib_AuthChainIDs syn ↔ x ∈ AuthChainIDs resp))
  end.
Proof using Type.
  intros He Hp Ha Hsh Hops Hl. unfold compareServed. rewrite Hsh. cbn [negb].
  pose proof (fetched backend ops gone (h_captureLimit h) Hops Hl) as Hf.
  destruct (Fetch backend ops gone true (h_captureLimit h)) as [res|]; [|done]. destruct Hf as (Hall & -> & -> & ->).
  split; [done|]. unfold CompareServed. cbn [negb].
  pose proof (finish_ids Quote error_text (sr_Native req) (PR (said_status ops) (said_body ops) duration false) resp He Hp Ha) as Hm.
  cbn [pr_Status pr_Truncated pr_Body] in Hm.
  destruct (unavailable (PR (said_status ops) (said_body ops) duration false)) eqn:Eu; [|rewrite Hm; tauto].
  split; [done|]. intros [Hst _]. unfold unavailable in Eu. cbn [pr_Status] in Eu. rewrite Hst in Eu. done.
Qed.
End replayed.

Section streamed.
Context `{!External} {conn : Connection} {Hconn : LawfulConnection}.
Context (Hdoc : ∀ ev body, serialisePDU ev = Ok body → is_doc body).
Variable duration : Z.

Lemma replayed_state backend ops gone : Forall proper ops →
  match ForwardStreaming backend ops gone true Proxy.Discard EmptyString with
  | (None, _) => said_all ops = false
  | (Some res, r) => said_all ops = true ∧ Status_ res = said_status ops ∧ SinkErr res = None ∧
      Wait (rec_sink r) = DigestStateResponse (said_body ops)
  end.
Proof using Type.
  intros Hp. unfold ForwardStreaming, forward.
  destruct (discarded ops (Recorder Proxy.Discard 0 0 0 EmptyString false (Some EmptyString) None) EmptyString) as (r & E & H1 & H2 & H3);
    [done..|]. rewrite E. destruct (said_all ops); [|done]. cbn [negb andb Status_ SinkErr status] in *. rewrite H3. unfold Wait. by rewrite H1.
Qed.

(** C32. The verification of a /state answer compares what its client was sent with what
    Synapse says, without either being held: the bytes sent are a response with two
    arrays, and the verdict on a replay is a match exactly if Synapse's answer is a 200
    whose arrays hold, in canonical form, the same events as often, whatever their order,
    unless the digests collide; an answer that breaks off gives no verdict. *)
Theorem served_state_verified clock settable is_deadline gjson_room parse_auth other now h env rq st hd st' route body origin n ours :
  h_resolver h = Some (matrixstate_resolver other now) → Endpoint_ route = EndpointState →
  natively parse_auth h env rq route body origin →
  ServeHTTP clock settable is_deadline gjson_room parse_auth h env rq st = (Ok hd, st') →
  h_fate hd = Answered n → nr_StateResult n = Some ours → h_shadowing h = true →
  ∃ ps cs, arrays (r_sent (h_resp hd)) = Some (ps, cs) ∧
    ∀ backend ops gone, Forall proper ops →
      match compareStateServed duration h backend ops gone true ours with
      | None => said_all ops = false
      | Some v => said_all ops = true ∧
          (v = VMatch ↔ said_status ops = 200 ∧ ∃ ps' cs', arrays (said_body ops) = Some (ps', cs') ∧
             (ps ≡ₚ ps' ∨ collision ps ps') ∧ (cs ≡ₚ cs' ∨ collision cs cs'))
      end.
Proof using Hdoc Hconn.
  intros Hrs Hst Hn E Hf Hr Hsh.
  pose proof (streamed_fates Hdoc clock settable is_deadline gjson_room parse_auth other now h env rq st hd st' route body origin Hrs Hst Hn E) as Hs.
  rewrite Hf in Hs. destruct Hs as [(res & res' & Er & _ & Hdig & Hag & _)|(err & status & code & msg & Er & _)]; [|congruence].
  rewrite Hr in Er. injection Er as <-. pose proof (digest_arrays (r_sent (h_resp hd))) as Ha. rewrite Hdig in Ha.
  destruct (arrays (r_sent (h_resp hd))) as [[ps cs]|]; [|by destruct Ha]. destruct Ha as (_ & Hps & Hcs).
  exists ps, cs. split; [done|]. intros backend ops gone Hops. unfold compareStateServed. rewrite Hsh. cbn [negb].
  pose proof (replayed_state backend ops gone Hops) as Hrep.
  destruct (ForwardStreaming backend ops gone true Proxy.Discard EmptyString) as [[res|] r]; [|done].
  destruct Hrep as (Hall & Est & Esk & ->). rewrite Est, Esk. clear Est Esk.
  pose proof (digest_arrays (said_body ops)) as Ha. destruct (DigestStateResponse (said_body ops)) as [up e].
  split; [done|]. unfold CompareStateServed, unavailable. cbn [negb pr_Status fst snd].
  destruct (arrays (said_body ops)) as [[ps' cs']|]; [|rewrite bool_decide_true by done; split; [done|by intros (_ & ? & ? & ? & _)]].
  destruct Ha as (-> & Hps' & Hcs'). rewrite bool_decide_false by (by intros []).
  destruct (decide (said_status ops = 200)) as [->|H2].
  2:{ rewrite (bool_decide_true (said_status ops ≠ 200)) by done. destruct (_ || _); split; [done|tauto|done|tauto]. }
  change (bool_decide (200 = 0) || bool_decide (200 = 502)) with false. rewrite (bool_decide_false (200 ≠ 200)) by tauto.
  unfold digests_verdict, Agrees in *. apply andb_true_iff in Hag as [Hg1 Hg2]. apply bool_decide_eq_true in Hg1, Hg2.
  rewrite Hg1, Hg2, Hps, Hcs, Hps', Hcs'. fold (digest_of ps) (digest_of cs) (digest_of ps') (digest_of cs').
  generalize (digest_same ps ps'), (digest_same cs cs').
  generalize (digest_of ps) as x, (digest_of ps') as x', (digest_of cs) as y, (digest_of cs') as y'. intros x y x' y' Hx Hy.
  do 2 case_bool_decide; cbn [andb]; (split; [intros Hm|intros (_ & p1 & p2 & [= <- <-] & Hc1 & Hc2)]); try done; try tauto.
  split; [done|]. exists ps', cs'. tauto.
Qed.
End streamed.

(** ** Concrete requests *)
Module VerifyWitness.
Import ServeWitness.
Definition handler_in (k : string) : Handler :=
  MkHandler "h" [("state", MkMode k 0); ("state_ids", MkMode k 0)]%string Federation.DefaultFederationSettings
    1024 true (Some resolver) (λ _, Some "h"%string) 5 900 60 30.
Definition answering (body : string) : environment := Env (λ _, Acquired) false None false false "b" [Proxy.Status 200; Body body].
Definition claimed : string → string := λ _, "h"%string.
Definition sent (body : string) : response := Resp ∅ [] (Some 200) body.
(** Synapse names the identifiers in another order, one of them twice. *)
Definition ids_answer : string := EndWitness.ours.
(** It sends the events in another order, formatted otherwise. *)
Definition state_answer : string := js
  "{'auth_chain':[{'sender':'@u:h','depth':2,'content':{'membership':'join'},'unsigned':{}}, {'unsigned':{},'depth':1,'sender':'@u:h'}],'pdus':[ {'unsigned':{},'depth':1,'sender':'@u:h'},{'depth':2,'sender':'@u:h','content':{'membership':'join'},'unsigned':{}},{'depth':3,'sender':'@u:h','content':{'history_visibility':'joined'},'unsigned':{}} ]}".

Lemma forwards_ids : forwards (conn := open_connection) (handler_in ModeShadow) (answering ids_answer) (get ids_path) ids_route EmptyString
  (sent ids_answer) 200.
Proof. split; try reflexivity; [discriminate|repeat constructor; simpl; lia|by left]. Qed.
Lemma forwards_state : forwards (conn := open_connection) (handler_in ModeShadow) (answering state_answer) (get state_path) route EmptyString
  (sent state_answer) 200.
Proof. split; try reflexivity; [discriminate|repeat constructor; simpl; lia|by left]. Qed.
End VerifyWitness.

Section witnesses.
Import ServeWitness VerifyWitness.
Notation compare_ env rq route :=
  (match started (H := Sample.ext) (H0 := open_connection) claimed q_EscapedPath (λ _, "GET"%string) 5 (handler_in ModeShadow) env rq route EmptyString blank with
   | Some c => match (judge (H0 := resolver) (λ s, s) (λ _, EmptyString) (λ _, false) "h" None true c EndWitness.start).1 with
               | Ok VMatch => true | _ => false end
   | None => false
   end).

Lemma forwarded_state_ids_judged_witness :
  ∃ pdus chain, state_ids_answer (H := Sample.ext) ServedWitness.db None "h" "!r" "$x" (Ok (SIR pdus chain)) ∧
    ∃ syn, parse_state_ids ids_answer = Some syn ∧
      (∀ x, x ∈ sib_PDUIDs syn ↔ x ∈ pdus) ∧ (∀ x, x ∈ sib_AuthChainIDs syn ↔ x ∈ chain).
Proof.
  destruct (forwarded_state_ids_judged (H := Sample.ext) (conn := open_connection) (Hconn := open_lawful) ServedWitness.db 20
    ServedWitness.proper_db (λ n, Z.of_nat n) true (λ _, false) (λ _, EmptyString) claimed q_EscapedPath (λ _, "GET"%string) (λ s, s)
    (λ _, EmptyString) 5 0 (handler_in ModeShadow) (answering ids_answer) (get ids_path) ids_route EmptyString (sent ids_answer) 200
    EndWitness.start "h" None "h" EndWitness.start forwards_ids)
    as (hd & c & _ & _ & Ec & _ & _ & v & r & st' & E & _ & Hans & Hv & _).
  - reflexivity.
  - reflexivity.
  - reflexivity.
  - exact EndWitness.askable_ids.
  - exact ServedWitness.rfits.
  - exact EndWitness.utf8_answer.
  - assert (compare_ (answering ids_answer) (get ids_path) ids_route = true) as Hm by (vm_compute; reflexivity).
    rewrite Ec in Hm. unfold resolver in Hm. rewrite E in Hm. cbn [fst] in Hm.
    assert (v = VMatch) as Hvm by (destruct v; [reflexivity|discriminate Hm|discriminate Hm]). apply Hv in Hvm.
    destruct r as [[pdus chain]|e].
    + exists pdus, chain. split; [exact Hans|]. exact (proj2 (proj2 Hvm)).
    + exfalso. destruct Hvm as (code & msg & Ha). revert Ha.
      destruct (refusal_status ServedWitness.db "!r" "$x" "h" e Hans) as (status & cd & m & -> & Hs). intros [= Hx _ _]. exact (Hs Hx).
Defined.

(** The match says that Synapse's events are those of the tables, or that a digest collides. *)
Lemma forwarded_state_judged_witness :
  ∃ ps cs, arrays state_answer = Some (ps, cs) ∧
    ∃ ps' cs', state_expected (H := Sample.ext) ServedWitness.db "h" "!r" "$x" (Ok (ps', cs')) ∧
      (ps ≡ₚ ps' ∨ collision (H := Sample.ext) ps ps') ∧ (cs ≡ₚ cs' ∨ collision (H := Sample.ext) cs cs').
Proof.
  destruct (forwarded_state_judged (H := Sample.ext) (conn := open_connection) (Hconn := open_lawful) ServedWitness.db 20
    ServedWitness.proper_db (λ n, Z.of_nat n) true (λ _, false) (λ _, EmptyString) claimed q_EscapedPath (λ _, "GET"%string) (λ s, s)
    (λ _, EmptyString) 5 0 (handler_in ModeShadow) (answering state_answer) (get state_path) route EmptyString (sent state_answer) 200
    EndWitness.start "h" None "h" EndWitness.start forwards_state) as (hd & c & _ & _ & Ec & v & st' & E & _ & Hv).
  - reflexivity.
  - reflexivity.
  - intros x y Hxy. exact Hxy.
  - apply ServedWitness.clear. by left.
  - exact ServedWitness.plain.
  - exact ids_before_distinct.
  - exact ServedWitness.rfits.
  - assert (compare_ (answering state_answer) (get state_path) route = true) as Hm by (vm_compute; reflexivity).
    rewrite Ec in Hm. unfold resolver in Hm. rewrite E in Hm. cbn [fst] in Hm.
    assert (v = VMatch) as -> by (destruct v; [reflexivity|discriminate Hm|discriminate Hm]). clear Hm E Ec.
    change (r_sent (sent state_answer)) with state_answer in Hv.
    assert (∃ p, arrays state_answer = Some p) as [[ps cs] Ha] by (eexists; vm_compute; reflexivity).
    exists ps, cs. split; [exact Ha|]. rewrite Ha in Hv. destruct Hv as (x & Hx & Hv); [discriminate|].
    pose proof (proj1 Hv eq_refl) as Hr. destruct x as [[ps' cs']|e].
    + exists ps', cs'. exact (conj Hx (proj2 Hr)).
    + exfalso. destruct Hr as (code & msg & Hr). destruct (expected_error _ "h" "!r" "$x" e Hx) as [Hn|(st & cd & m & Hs & Hn)].
      * rewrite Hn in Hr. discriminate Hr.
      * rewrite Hs in Hr. injection Hr as -> _ _. apply Hn. apply (bool_decide_unpack _). vm_compute. exact I.
Defined.

(** A replay that breaks off after a whole document gives no verdict. *)
Lemma served_state_ids_verified_witness :
  let req := MkShadowRequest (Native.MkRequest "state_ids" "h" "!r" "$x" EmptyString) "/u" "GET" "X-Matrix h" in
  let verify ops := compareServed (λ s, s) (λ _, EmptyString) 5 (handler_in ModeCanary) "b" ops false true req
    (marshal_state_ids (SIR ["$m"; "$c"; "$v"] ["$c"; "$m"])) 200 no_meta in
  verify [Proxy.Status 200; Body ids_answer] = Some VMatch ∧ verify [Proxy.Status 200; Body ids_answer; Fail] = None.
Proof.
  intros req verify.
  assert (utf8_ids ["$m"; "$c"; "$v"]%string ∧ utf8_ids ["$c"; "$m"]%string) as [Hp Ha]
    by (split; apply (bool_decide_unpack _); vm_compute; exact I).
  assert (∀ ops, Forall proper ops → str_len (said_body ops) < 1024 →
    match verify ops with
    | None => said_all ops = false
    | Some v => said_all ops = true ∧
        (v = VMatch ↔ said_status ops = 200 ∧ ∃ syn, parse_state_ids (said_body ops) = Some syn ∧
           (∀ x, x ∈ sib_PDUIDs syn ↔ x ∈ ["$m"; "$c"; "$v"]%string) ∧ (∀ x, x ∈ sib_AuthChainIDs syn ↔ x ∈ ["$c"; "$m"]%string))
    end) as Hv.
  { intros ops. exact (served_state_ids_verified (λ s, s) (λ _, EmptyString) 5 (handler_in ModeCanary) "b" ops false req
      (SIR ["$m"; "$c"; "$v"] ["$c"; "$m"]) eq_refl Hp Ha eq_refl). }
  pose proof (Hv [Proxy.Status 200; Body ids_answer]) as H1. pose proof (Hv [Proxy.Status 200; Body ids_answer; Fail]) as H2.
  clearbody verify. clear Hv Hp Ha. split.
  - destruct (verify _) as [v|]; [|discriminate H1; [repeat constructor; simpl; lia|vm_compute; reflexivity]].
    destruct H1 as [_ H1]; [repeat constructor; simpl; lia|vm_compute; reflexivity|]. f_equal. apply H1. split; [reflexivity|].
    eexists. split; [vm_compute; reflexivity|]. cbn [sib_PDUIDs sib_AuthChainIDs]. split; intros x; set_solver.
  - destruct (verify [_; _; Fail]) as [v|]; [|reflexivity]. exfalso.
    destruct H2 as [H2 _]; [repeat constructor; simpl; lia|vm_compute; reflexivity|]. discriminate H2.
Defined.

Lemma served_state_verified_witness :
  ∃ hd n ours, h_fate hd = Answered n ∧ nr_StateResult n = Some ours ∧
    compareStateServed (H := Sample.ext) 5 handler "b" [Proxy.Status 200; Body (r_sent (h_resp hd)); Fail] false true ours = None ∧
    is_Some (compareStateServed (H := Sample.ext) 5 handler "b" [Proxy.Status 200; Body (r_sent (h_resp hd))] false true ours).
Proof.
  assert (match h_fate (outcome_of (serve open_connection (get state_path))) with
    Answered n => bool_decide (is_Some (nr_StateResult n)) | _ => false end = true) as Hf by (vm_compute; reflexivity).
  destruct (serve open_connection (get state_path)) as [[hd|e] st'] eqn:E; [|discriminate Hf].
  unfold outcome_of in Hf. cbn [fst] in Hf. destruct (h_fate hd) as [|n| | | |] eqn:En; try discriminate Hf.
  apply bool_decide_eq_true in Hf as [ours Hr].
  destruct (served_state_verified (H := Sample.ext) (Hconn := open_lawful) sample_doc 5 (λ n, Z.of_nat n) true
    (λ _, false) (λ _, EmptyString) id None 0 handler env (get state_path) StateStream.Witness.start hd st' route
    EmptyString "h" n ours eq_refl eq_refl natively_state E En Hr eq_refl) as (ps & cs & Ha & Hv).
  exists hd, n, ours. split; [exact En|]. split; [exact Hr|].
  pose proof (Hv "b"%string [Proxy.Status 200; Body (r_sent (h_resp hd)); Fail] false) as H1.
  pose proof (Hv "b"%string [Proxy.Status 200; Body (r_sent (h_resp hd))] false) as H2. clear Hv E. revert H1 H2.
  generalize (compareStateServed (H := Sample.ext) 5 handler "b" [Proxy.Status 200; Body (r_sent (h_resp hd)); Fail] false true ours) as v1.
  generalize (compareStateServed (H := Sample.ext) 5 handler "b" [Proxy.Status 200; Body (r_sent (h_resp hd))] false true ours) as v2.
  intros v2 v1 H1 H2. split.
  - destruct v1 as [v|]; [|reflexivity]. destruct H1 as [[=] _]. repeat constructor; simpl; lia.
  - destruct v2 as [v|]; [exact (ex_intro _ v eq_refl)|]. discriminate H2. repeat constructor; simpl; lia.
Defined.
End witnesses.
