(* ===== verification/Metrics.v ===== *)
(** * What is counted and exported

    The counters a request moves on its way through [ServeHTTP], the series the
    collectors of the caches and of the diff log export, and the rendering of a cache
    trace for the request log.  A number is given as what is converted to [float64]; the
    histograms of times are left out. *)
From S2P Require Import Prelude Cache RateLimit Json JsonStream Store External Events Wire Digest Resolver StateStream Config Route Native Http Proxy Serve DiffLog.

Open Scope list_scope.
Open Scope Z_scope.

(** ** The trace in the log *)
Definition Detail (tr : Trace.t) : string :=
  let names := sort_strings ((map_to_list (Trace.counts tr)).*1) in
  String.concat " " ((λ nm, let '(hits, lookups) := default (0, 0) (Trace.counts tr !! nm) in
                            nm +:+ "=" +:+ print_int hits +:+ "/" +:+ print_int lookups) <$> names).

(** [withCache]: the fields of the event; there are none without a trace. *)
Definition withCache (t : option Trace.t) : list (string * string) :=
  match t with
  | None => []
  | Some tr =>
      if bool_decide (Trace.Summary tr = EmptyString) then []
      else ("cache"%string, Trace.Summary tr) ::
           (if bool_decide (Detail tr = EmptyString) then [] else [("cache_detail"%string, Detail tr)])
  end.
Definition withRoom (roomID : string) : list (string * string) :=
  if bool_decide (roomID = EmptyString) then [] else [("room_id"%string, roomID)].

(** ** The collectors *)
Inductive amount := Num (n : Z) | Ratio (num den : Z).
Record sample := Sample { s_desc : string; s_label : option string; s_counter : bool; s_value : amount }.

Definition HitRate (s : LRU.Stats) : amount :=
  let total := u64 (LRU.st_hits s + LRU.st_misses s) in
  if bool_decide (total = 0) then Num 0 else Ratio (LRU.st_hits s) total.

(** [cacheCollector.Collect] *)
Definition cache_samples (s : LRU.Stats) : list sample :=
  let counter d v := Sample ("gopro_cache_" +:+ d) (Some (LRU.st_name s)) true v in
  let gauge d v := Sample ("gopro_cache_" +:+ d) (Some (LRU.st_name s)) false v in
  [counter "hits_total" (Num (LRU.st_hits s)); counter "misses_total" (Num (LRU.st_misses s));
   counter "evictions_total" (Num (LRU.st_evictions s)); gauge "entries" (Num (Z.of_nat (LRU.st_entries s)));
   gauge "bytes" (Num (LRU.st_bytes s)); gauge "max_bytes" (Num (LRU.st_max s)); gauge "hit_rate" (HitRate s)]%string.
Definition collect_caches (stats : list LRU.Stats) : list sample := stats ≫= cache_samples.

(** [EndpointStats.MatchRate] *)
Definition MatchRate (e : EndpointStats) : amount :=
  if bool_decide (es_Compared e = 0) then Num 1 else Ratio (es_Matched e) (es_Compared e).

Definition endpoint_samples (endpoint : string) (e : EndpointStats) : list sample :=
  let l := Some endpoint in
  [Sample "gopro_shadow_compared_total" l true (Num (es_Compared e));
   Sample "gopro_shadow_matched_total" l true (Num (es_Matched e));
   Sample "gopro_shadow_mismatched_total" l true (Num (es_Mismatched e));
   Sample "gopro_shadow_match_rate" l false (MatchRate e)] ++
  match LastMismatch e with
  | Some t => [Sample "gopro_shadow_last_mismatch_timestamp_seconds" l false (Num (t `div` 1000000000))]
  | None => []
  end.

(** [Collector.Collect]; the order of the endpoints is that of a map. *)
Definition collect_log (s : Stats) : list sample :=
  (map_to_list (per_endpoint s) ≫= λ p, endpoint_samples p.1 p.2) ++
  [Sample "gopro_difflog_logged_total" None true (Num (Logged s));
   Sample "gopro_difflog_dropped_total" None true (Num (Dropped s));
   Sample "gopro_difflog_write_errors_total" None true (Num (WriteErrors s));
   Sample "gopro_difflog_rotations_total" None true (Num (Rotations s));
   Sample "gopro_shadow_restarts_total" None true (Num (u64 (Restarts s)))] ++
  match Since s with
  | Some t => [Sample "gopro_shadow_since_timestamp_seconds" None false (Num (t `div` 1000000000))]
  | None => []
  end.

(** ** The counters of a request *)
Inductive metric :=
| RequestsTotal (endpoint mode status : string)
| NativeServed (endpoint status : string)
| NativeFallback (endpoint reason : string)
| NativeFallbackServed (endpoint : string)
| FallbackUpstream (endpoint reason upstream : string)
| UpstreamSkipped (endpoint : string)
| RateLimitedTotal (endpoint : string)
| UpstreamErrorsTotal (endpoint backend : string)
| ResponseBytes (endpoint : string) (bytes : Z).

Definition statusLabel (res : Result) : string :=
  if Canceled res then "canceled" else if bool_decide (Status_ res = 0) then "none" else print_int (Status_ res).

Definition statusText (status : Z) : string :=
  if bool_decide (200 ≤ status) && bool_decide (status < 300) then "2xx"
  else if bool_decide (status = 404) then "404"
  else if bool_decide (status = 403) then "403"
  else if bool_decide (status = 401) then "401"
  else "other".

(** [noteLimited]: the origins refused so far, and how many they are. *)
Definition noteLimited (origin : string) (seen : gset string) : gset string * Z :=
  let seen := {[origin]} ∪ seen in (seen, Z.of_nat (base.size seen)).

(** [serveNative], [serveStreamed] and [answer]. *)
Definition attempt_metrics (h : Handler) (env : environment) (e : Endpoint) (en : ending) : list metric :=
  let name := endpoint_name e in
  match en with
  | AbortHandler reason => [NativeFallback name reason]
  | Returned n =>
      if nr_Served n then
        if Streams e then match nr_StateResult n with Some _ => [NativeServed name "2xx"] | None => [] end
        else [NativeServed name (statusText (nr_Status n))]
      else if bool_decide (nr_Reason n = "no_resolver"%string) then []
      else if bool_decide (nr_Reason n = "auth_rejected"%string) then [NativeFallback name "auth_rejected"]
      else (if negb (Streams e) && e_panics env then [NativeFallback name "panic"] else []) ++ [NativeFallback name (nr_Reason n)]
  end.

(** What follows the native attempt, [fellBack] being the reason it failed for. *)
Definition forward_metrics (kind : string) (e : Endpoint) (fellBack : option string) (f : fate) : list metric :=
  let name := endpoint_name e in
  match f with
  | ClientGone => [UpstreamSkipped name; RequestsTotal name kind "canceled"]
  | Proxied res _ =>
      match fellBack with Some _ => [NativeFallbackServed name] | None => [] end ++
      match fellBack with Some reason => [FallbackUpstream name reason (statusLabel res)] | None => [] end ++
      [RequestsTotal name kind (statusLabel res); ResponseBytes name (Bytes_ res)] ++
      (if Err_ res then [UpstreamErrorsTotal name (Backend res)] else [])
  | CutOff => match fellBack with Some _ => [NativeFallbackServed name] | None => [] end
  | _ => []
  end.

Section measured.
Context `{!Connection}.
Variable clock : nat → Z.
Variable settable : bool.
Variable is_deadline : error → bool.
Variable gjson_room : string → string.
Variable ParseXMatrixAuth : string → string.

(** [ServeHTTP], for what it counts. *)
Definition measured (h : Handler) (env : environment) (rq : hrequest) : R (list metric) :=
  if bool_decide (q_Path rq = "/health"%string) then mret [] else
  match Match (q_EscapedPath rq) with
  | None => mret []
  | Some route =>
      let endpoint := Endpoint_ route in
      let name := endpoint_name endpoint in
      let mode := modeFor (h_modes h) endpoint in
      let eventID := eventIDFor route (q_event_id rq) in
      match read_body endpoint (q_body rq) with
      | Err code => mret [RequestsTotal name (Config.Kind mode) (print_int code)]
      | Ok reqBody =>
          if sampled mode (samplingKey route eventID reqBody) then
            match e_acquire env (originFromAuth ParseXMatrixAuth (q_Authorization rq)) with
            | LimitExceeded => mret [RateLimitedTotal name; RequestsTotal name (Config.Kind mode) "429"]
            | CtxDone => mret [RequestsTotal name (Config.Kind mode) "canceled"]
            | Acquired =>
                p ← serveNative clock settable is_deadline gjson_room h env rq mode endpoint (roomIDFor route) eventID reqBody blank;
                let '(w, e) := (p : response * ending) in
                mret (attempt_metrics h env endpoint e ++
                      match e with
                      | AbortHandler _ => []
                      | Returned n =>
                          if nr_Served n then [RequestsTotal name (Config.Kind mode) "native"; ResponseBytes name (nr_Bytes n)]
                          else forward_metrics (Config.Kind mode) endpoint (Some (nr_Reason n)) (h_fate (fall_back h env mode endpoint Freed w))
                      end)
            end
          else mret (forward_metrics (Config.Kind mode) endpoint None (h_fate (fall_back h env mode endpoint NoSlot blank)))
      end
  end.
End measured.

(** ** Every series is exported once *)
Definition series (s : sample) : string * option string := (s_desc s, s_label s).

Lemma samples_of_label {A} (f : A → list sample) (label : A → string) (l : list A) :
  (∀ a, NoDup (series <$> f a) ∧ ∀ x, x ∈ f a → s_label x = Some (label a)) → NoDup (label <$> l) →
  NoDup (series <$> (l ≫= f)).
Proof.
  intros Hf. induction l as [|a l IH]; intros Hn; [constructor|].
  rewrite fmap_cons in Hn. apply NoDup_cons in Hn as [Ha Hn]. cbn. rewrite fmap_app. apply NoDup_app. split_and!; [apply Hf| |by apply IH].
  intros x (y & -> & Hy)%list_elem_of_fmap (z & Hz & (b & Hzb & Hb)%list_elem_of_bind)%list_elem_of_fmap.
  destruct (Hf a) as [_ Hla], (Hf b) as [_ Hlb]. injection Hz as _ Hz. rewrite (Hla _ Hy), (Hlb _ Hzb) in Hz.
  injection Hz as Hz. apply Ha. rewrite Hz. apply list_elem_of_fmap. by exists b.
Qed.

Lemma cache_samples_labelled s : NoDup (series <$> cache_samples s) ∧ ∀ x, x ∈ cache_samples s → s_label x = Some (LRU.st_name s).
Proof.
  split; [|unfold cache_samples; intros x; rewrite !elem_of_cons, elem_of_nil; naive_solver].
  unfold cache_samples. cbn [fmap list_fmap series s_desc s_label]. generalize (LRU.st_name s). intros nm.
  apply (NoDup_fmap_1 fst). apply (bool_decide_unpack _). vm_compute. exact I.
Qed.

Lemma endpoint_samples_labelled nm e : NoDup (series <$> endpoint_samples nm e) ∧ ∀ x, x ∈ endpoint_samples nm e → s_label x = Some nm.
Proof.
  split.
  - unfold endpoint_samples. apply (NoDup_fmap_1 fst). destruct (LastMismatch e);
      apply (bool_decide_unpack _); vm_compute; exact I.
  - unfold endpoint_samples. destruct (LastMismatch e); intros x; rewrite elem_of_app, !elem_of_cons, !elem_of_nil; naive_solver.
Qed.

(** A scrape never sees the same series twice, which Prometheus would refuse as a whole:
    the five caches have different names, whatever the settings, and the endpoints of the
    diff log are the keys of a map. *)
Theorem series_distinct settings s :
  NoDup (series <$> collect_caches (CacheStats (newCaches settings))) ∧ NoDup (series <$> collect_log s).
Proof.
  split.
  - apply (samples_of_label cache_samples LRU.st_name); [apply cache_samples_labelled|].
    apply (bool_decide_unpack _). vm_compute. exact I.
  - unfold collect_log. rewrite fmap_app. apply NoDup_app. split_and!.
    + apply (samples_of_label (λ p, endpoint_samples p.1 p.2) fst); [intros a; apply endpoint_samples_labelled|].
      apply NoDup_fst_map_to_list.
    + intros x (y & -> & (p & Hy & _)%list_elem_of_bind)%list_elem_of_fmap (z & Hz & Hin)%list_elem_of_fmap.
      destruct (endpoint_samples_labelled p.1 p.2) as [_ Hl]. injection Hz as _ Hz. rewrite (Hl _ Hy) in Hz. revert Hin Hz.
      destruct (Since s); rewrite elem_of_app, !elem_of_cons, !elem_of_nil; naive_solver.
    + apply (NoDup_fmap_1 fst). destruct (Since s); apply (bool_decide_unpack _); vm_compute; exact I.
Qed.

(** ** Every request is counted once *)
Definition is_request (m : metric) : bool := match m with RequestsTotal _ _ _ => true | _ => false end.

(** The label an ended request is counted under; one cut off on its way is not. *)
Definition request_label (hd : Serve.handled) : option string :=
  match h_fate hd with
  | Refused => print_int <$> r_status (h_resp hd)
  | Answered _ => Some "native"%string
  | ClientGone => Some "canceled"%string
  | Proxied res _ => Some (statusLabel res)
  | CutOff | Aborted _ => None
  end.

Section counted.
Context `{!Connection}.
Variable clock : nat → Z.
Variable settable : bool.
Variable is_deadline : error → bool.
Variable gjson_room : string → string.
Variable ParseXMatrixAuth : string → string.
Notation ServeHTTP := (ServeHTTP clock settable is_deadline gjson_room ParseXMatrixAuth).
Notation measured := (measured clock settable is_deadline gjson_room ParseXMatrixAuth).

Lemma attempt_no_request h env e en : filter (λ m, is_request m = true) (attempt_metrics h env e en) = [].
Proof using Type. unfold attempt_metrics. by repeat case_match. Qed.

Lemma forward_request h env e mode fb s w :
  filter (λ m, is_request m = true) (forward_metrics (Config.Kind mode) e fb (h_fate (fall_back h env mode e s w))) =
  match request_label (fall_back h env mode e s w) with Some l => [RequestsTotal (endpoint_name e) (Config.Kind mode) l] | None => [] end.
Proof using Type.
  assert (∀ hd, (match h_fate hd with ClientGone | Proxied _ _ | CutOff => True | _ => False end) →
    filter (λ m, is_request m = true) (forward_metrics (Config.Kind mode) e fb (h_fate hd)) =
    match request_label hd with Some l => [RequestsTotal (endpoint_name e) (Config.Kind mode) l] | None => [] end) as Hf.
  { intros hd Hhd. unfold request_label, forward_metrics. destruct (h_fate hd) as [| | |res sh| |]; try done; [|by destruct fb].
    destruct fb, (Err_ res); done. }
  apply Hf. unfold fall_back. destruct (e_gone env); [done|]. by destruct (if _ && _ then _ else _) as [[res|] r].
Qed.

Lemma respond_status headers code msg : informational code = false → r_status (respond headers code msg blank) = Some code.
Proof using Type.
  intros Hi. unfold respond. set (w := foldl _ blank headers).
  assert (r_status w = None) as Hw.
  { unfold w. assert (r_status blank = None) as Hb by done. revert Hb. generalize blank.
    induction headers as [|[k v] l IH]; intros r Hb; [done|]. apply IH. cbn. unfold set_header. by rewrite Hb. }
  cbn [WriteHeader WriteBody server_writer]. unfold set_status. rewrite Hw, Hi.
  by destruct (send_status None msg (Resp (r_header w) (r_informational w) (Some code) (r_sent w))) as [-> _].
Qed.

Lemma read_body_code e b code : read_body e b = Err code → informational code = false.
Proof using Type. unfold read_body. intros E. repeat case_match; by simplify_eq. Qed.

(** C33. A request for one of the endpoints is counted exactly once in [requests_total],
    under its endpoint and mode and the way it ended: the status of a refusal or of
    Synapse's answer, native, or canceled.  Only one that is cut off on its way, an
    aborted stream or an answer of Synapse's that broke off, is not counted. *)
Theorem requests_counted h env rq route st hd st' :
  q_Path rq ≠ "/health"%string → Match (q_EscapedPath rq) = Some route → ServeHTTP h env rq st = (Ok hd, st') →
  ∃ ms, measured h env rq st = (Ok ms, st') ∧
    filter (λ m, is_request m = true) ms =
      match request_label hd with
      | Some l => [RequestsTotal (endpoint_name (Endpoint_ route)) (Config.Kind (modeFor (h_modes h) (Endpoint_ route))) l]
      | None => []
      end.
Proof using Type.
  intros Hp Hr. unfold Serve.ServeHTTP, Metrics.measured. rewrite (bool_decide_false (q_Path rq = _)) by done. rewrite Hr. cbv zeta.
  set (mode := modeFor (h_modes h) (Endpoint_ route)). set (e := Endpoint_ route).
  destruct (read_body e (q_body rq)) as [body|code] eqn:Eb.
  2:{ intros [= <- <-]. eexists. split; [reflexivity|]. unfold request_label, http_Error. cbn [h_fate h_resp]. by rewrite respond_status by (by eapply read_body_code). }
  destruct (sampled mode _); [|intros [= <- <-]; eexists; split; [reflexivity|apply forward_request]].
  destruct (e_acquire env _).
  - unfold mbind, R_bind. destruct (serveNative _ _ _ _ _ _ _ _ _ _ _ _ _ st) as [[[w en]|er] st1]; [|done].
    destruct en as [n|reason].
    + destruct (nr_Served n) eqn:En; intros [= <- <-]; (eexists; split; [reflexivity|]); rewrite filter_app, attempt_no_request.
      * done.
      * apply forward_request.
    + intros [= <- <-]. eexists. split; [reflexivity|]. by rewrite filter_app, attempt_no_request.
  - intros [= <- <-]. eexists. split; [reflexivity|]. unfold request_label, writeLimitExceeded. cbn [h_fate h_resp].
    by rewrite respond_status.
  - intros [= <- <-]. by eexists.
Qed.
End counted.

(** ** Concrete requests *)
Module MetricsWitness.
Import ServeWitness.
Definition handler_for (origin : string) : Handler :=
  MkHandler "h" [("state", MkMode ModeNative 0); ("state_ids", MkMode ModeNative 0)]%string Federation.DefaultFederationSettings
    1024 true (Some resolver) (λ _, Some origin) 5 900 60 30.
Definition panicking : environment := Env (λ _, Acquired) true None false false "b" [Proxy.Status 200; Body "{}"].
Definition counts (h : Handler) (env : environment) (rq : hrequest) : result error (list metric) :=
  (measured (H := open_connection) (λ n, Z.of_nat n) true (λ _, false) (λ _, EmptyString) id h env rq StateStream.Witness.start).1.
End MetricsWitness.

Section witnesses.
Import ServeWitness MetricsWitness.
Local Open Scope string_scope.

(** A /state request that is answered natively with an error is not counted as served,
    as the same error of another endpoint is. *)
Theorem state_errors_not_counted_served :
  counts (handler_for "evil") env (get state_path) = Ok [RequestsTotal "state" "native" "native"; ResponseBytes "state" 53] ∧
  counts (handler_for "evil") env (get ids_path) =
    Ok [NativeServed "state_ids" "403"; RequestsTotal "state_ids" "native" "native"; ResponseBytes "state_ids" 53].
Proof. split; vm_compute; reflexivity. Qed.

(** A panic is counted as two fallbacks. *)
Theorem panic_counted_twice :
  counts (handler_for "h") panicking (get ids_path) =
    Ok [NativeFallback "state_ids" "panic"; NativeFallback "state_ids" "error"; NativeFallbackServed "state_ids";
        FallbackUpstream "state_ids" "error" "200"; RequestsTotal "state_ids" "native" "200"; ResponseBytes "state_ids" 2].
Proof. vm_compute. reflexivity. Qed.

Lemma requests_counted_witness :
  ∃ ms, counts (handler_for "h") panicking (get ids_path) = Ok ms ∧
    filter (λ m, is_request m = true) ms = [RequestsTotal "state_ids" "native" "200"].
Proof.
  destruct (Serve.ServeHTTP (H := open_connection) (λ n, Z.of_nat n) true (λ _, false) (λ _, EmptyString) id (handler_for "h") panicking
    (get ids_path) StateStream.Witness.start) as [r st'] eqn:E.
  assert (match r with Ok hd => bool_decide (request_label hd = Some "200") | Err _ => false end = true) as Hl.
  { assert (r = (Serve.ServeHTTP (H := open_connection) (λ n, Z.of_nat n) true (λ _, false) (λ _, EmptyString) id (handler_for "h") panicking
      (get ids_path) StateStream.Witness.start).1) as -> by (rewrite E; reflexivity). vm_compute. reflexivity. }
  destruct r as [hd|e]; [|discriminate Hl]. apply bool_decide_eq_true in Hl.
  destruct (requests_counted (H := open_connection) (λ n, Z.of_nat n) true (λ _, false) (λ _, EmptyString) id (handler_for "h") panicking
    (get ids_path) ids_route StateStream.Witness.start hd st') as (ms & Em & Hms); [discriminate|reflexivity|exact E|].
  exists ms. unfold counts. rewrite Em. split; [reflexivity|]. rewrite Hms, Hl. reflexivity.
Defined.
End witnesses.
