(* ===== verification/Worker.v ===== *)
(** * [cmd/gopro-worker], [internal/store/store.go]: the process

    What [run] builds from a configuration, in which order, and what it releases
    again; the health probe.  A startup is a sequence of calls that may fail: a
    computation gives the events it causes and its result, and [deferring] is Go's
    [defer].  Sockets, the connection pool, the log level's names and the metrics
    registry answer as the environment of the startup says.  Durations are in seconds;
    a number of seconds beyond 2^63 ns is not modelled. *)
From S2P Require Import Prelude Cache RateLimit Json JsonStream Store External Events Pducmp Wire Digest Resolver StateStream Served Replication Config Route Native Http Proxy Serve DiffLog Compare Diagnose FedAuth Runner.

Open Scope list_scope.
Open Scope Z_scope.

(** ** [net.SplitHostPort], [net.JoinHostPort] *)
Fixpoint split_last (c : ascii) (s : string) : option (string * string) :=
  match s with
  | EmptyString => None
  | String a s =>
      match split_last c s with
      | Some (p, q) => Some (String a p, q)
      | None => if bool_decide (a = c) then Some (EmptyString, s) else None
      end
  end.
Definition SplitHostPort (hostport : string) : option (string * string) :=
  match split_last colon hostport with
  | None => None
  | Some (before, port) =>
      match hostport with
      | String "[" rest =>
          let '(host, after, closes) := cut "]"%char rest in
          if closes && bool_decide (after = String colon port) && negb (contains_byte "["%char rest)
             && negb (contains_byte "]"%char after)
          then Some (host, port) else None
      | _ =>
          if contains_byte colon before || contains_byte "["%char hostport || contains_byte "]"%char hostport then None
          else Some (before, port)
      end
  end.
Definition JoinHostPort (host port : string) : string :=
  (if contains_byte colon host then "[" +:+ host +:+ "]" else host) +:+ String colon port.

(** ** [healthcheck.go] *)
Definition wildcard (host : string) : bool := bool_decide (host ∈ [EmptyString; "0.0.0.0"; "::"]%string).
Definition localAddr (addr : string) : string :=
  match SplitHostPort addr with
  | None => addr
  | Some (host, port) => if wildcard host then JoinHostPort "127.0.0.1" port else addr
  end.

(** Where the probe connects: a socket, or the host of the URL. *)
Inductive dial := DialUnix (path : string) | DialTCP (addr : string).
Definition probe_dial (l : Config.Listen) : dial :=
  if negb (bool_decide (Socket l = EmptyString)) then DialUnix (Socket l) else DialTCP (localAddr (Addr l)).
Definition probe_url (l : Config.Listen) : string :=
  "http://" +:+ (match probe_dial l with DialUnix _ => "localhost" | DialTCP a => a end) +:+ "/health".
(** [get] is the client: the status of the answer, or an error. *)
Definition healthcheck (get : dial → string → result string Z) (c : Config.Config) : result string unit :=
  match get (probe_dial (listen c)) (probe_url (listen c)) with
  | Err e => Err e
  | Ok status => if bool_decide (status = 200) then Ok tt else Err ("health returned " +:+ print_int status)%string
  end.

(** ** [store.go] *)
Module Pool.
Record Config := MkConfig { DSN : string; MaxConns : Z; ConnectTimeout : Z; Cache : Settings.t }.
(** The settings a pool is created with; [None] is pgx's default.  Statements are
    described on each execution, never prepared across transactions. *)
Record pool := MkPool { po_DSN : string; po_MaxConns : option Z; po_ConnectTimeout : option Z }.
Definition settings (c : Config) : pool :=
  MkPool (DSN c) (if bool_decide (0 < MaxConns c) then Some (MaxConns c) else None)
    (if bool_decide (0 < ConnectTimeout c) then Some (ConnectTimeout c) else None).
Record t := Mk { st_pool : pool; st_world : world }.
End Pool.

(** [int32(n)] *)
Definition i32 (z : Z) : Z := (z + 2 ^ 31) mod 2 ^ 32 - 2 ^ 31.

Definition with_caches (c : caches) (w : world) : world :=
  MkWorld (w_db w) (w_cancelled w) (w_fuel w) (w_tick w) c (w_trace w).

(** ** Startups *)
Section worker.
Context `{!External} `{!Mautrix}.
Variable NewInMemoryCache : Z → InMemoryCache.
Variable other : option flight_outcome.
Variable now : Z.
Variable verify : Verifier → hrequest → option string.   (* [Verify], as the handler uses it *)

Record worker := MkWorker {
  wk_proxy : Proxy.Proxy; wk_diffs : option Writer; wk_db : option Pool.t;
  wk_resolver : option rworld; wk_verifier : option Verifier; wk_runner : option Runner.Options;
  wk_handler : Handler; wk_replayers : bool; wk_limited : list string }.

Inductive resource := DiffWriter | Database | Listener.
#[export] Instance resource_dec : EqDecision resource.
Proof. solve_decision. Defined.
Inductive event :=
| Opened (r : resource) | Closed (r : resource)
| Unlinked (path : string)
| Subscribed (c : Replication.Config)     (* [go sub.Run(ctx)] *)
| Warned (what : string)
| Serving (w : worker).                   (* both servers are started *)

Definition P (A : Type) : Type := list event * result string A.
Definition stop {A} (msg : string) : P A := ([], Err msg).
Definition emit (e : event) : P unit := ([e], Ok tt).
#[local] Instance P_ret : MRet P := λ A a, ([], Ok a).
#[local] Instance P_bind : MBind P := λ A B f m,
  match m with
  | (l, Ok a) => let '(l', r) := f a in (l ++ l', r)
  | (l, Err e) => (l, Err e)
  end.
Definition of_res {A} (r : result string A) : P A := ([], r).
Definition deferring {A} (closing : list event) (m : P A) : P A := (m.1 ++ closing, m.2).

(** The answers the startup gets. *)
Inductive unlinking := Removed | NotThere | CannotRemove.
Record startup := MkStartup {
  su_level : string → bool;                (* [zerolog.ParseLevel] knows it *)
  su_disk : Disk; su_faults : Faults; su_registers : bool;
  su_dsn : string → bool; su_connects : bool; su_pings : bool; su_world : world;
  su_setting : option string;              (* [SHOW default_transaction_read_only] *)
  su_unlink : unlinking; su_listens : bool; su_chmods : bool;
  su_ends : option string }.               (* a signal, or the error of a listener *)

Section run.
Variable su : startup.

(** *** [openDatabase] and what it calls *)
Definition store_Open (c : Pool.Config) : P Pool.t :=
  if negb (su_dsn su (Pool.DSN c)) then stop "store: parse dsn"
  else if negb (su_connects su) then stop "store: connect"
  else
    emit (Opened Database);;
    if negb (su_pings su) then emit (Closed Database);; stop "store: ping"
    else mret (Pool.Mk (Pool.settings c) (with_caches (newCaches (Pool.Cache c)) (su_world su))).

Definition IsReadOnly : result string bool :=
  match su_setting su with
  | None => Err "store: check read-only"%string
  | Some setting => Ok (bool_decide (setting = "on"%string))
  end.

Definition disarmed (db : Pool.t) : Pool.t :=
  Pool.Mk (Pool.st_pool db) (with_caches (SetCachesArmed false (w_caches (Pool.st_world db))) (Pool.st_world db)).

Definition startReplication (c : Config.Config) (db : Pool.t) : P Pool.t :=
  if negb (Enabled (replication c)) then
    (if Settings.AnyEnabled (Settings.WithDefaults (Cache_ (database c))) then emit (Warned "Caching without replication") else mret tt);;
    mret db
  else
    match Replication.validate (replication c) with
    | Some _ => emit (Warned "Replication misconfigured; caches disabled");; mret (disarmed db)
    | None => emit (Subscribed (replication c));; mret db
    end.

Definition openDatabase (c : Config.Config) : P (option Pool.t) :=
  if negb (db_Enabled (database c)) then
    if NeedsDatabase c then stop "database.dsn is required for the configured endpoint modes" else mret None
  else
    let timeout := ConnectTimeoutSeconds (database c) in
    let timeout := if bool_decide (timeout = 0) then 10 else timeout in
    db ← store_Open (Pool.MkConfig (Config.DSN (database c)) (i32 (Config.MaxConns (database c))) timeout (Cache_ (database c)));
    db ← startReplication c db;
    match IsReadOnly with
    | Err _ => emit (Closed Database);; stop "verify read-only access"
    | Ok readOnly =>
        (if readOnly then mret tt else emit (Warned "Database role is NOT read-only"));; mret (Some db)
    end.

(** *** [listen] *)
Definition listen_on (l : Config.Listen) : P unit :=
  if negb (bool_decide (Addr l = EmptyString)) then
    if su_listens su then emit (Opened Listener) else stop "listen"
  else
    match su_unlink su with
    | CannotRemove => stop "remove stale socket"
    | u =>
        (match u with Removed => emit (Unlinked (Socket l)) | _ => mret tt end);;
        if negb (su_listens su) then stop "listen"
        else
          emit (Opened Listener);;
          match ParsedSocketMode l with
          | None => emit (Closed Listener);; stop "socket mode"
          | Some _ => if su_chmods su then mret tt else emit (Closed Listener);; stop "chmod socket"
          end
    end.

(** *** What is built once everything is open *)
Definition verifier_options (c : Config.Config) (db : Pool.t) : FedAuth.Options :=
  FedAuth.MkOptions (KeyRefetchMinutes (auth c) * 60 * 1000000000) (au_TimeoutSeconds (auth c) * 1000000000)
    (TrustedKeyServers (auth c)) (Some (Pool.st_world db)).
Definition runner_options (c : Config.Config) : Runner.Options :=
  Runner.with_defaults (Runner.MkRunnerOptions (sh_TimeoutSeconds (shadow c) * 1000000000) (sh_Concurrency (shadow c))
    (VerifyWaitSeconds (shadow c) * 1000000000)).
Definition handler_options (c : Config.Config) (v : Verifier) : list Serve.Option :=
  [WithNative (matrixstate_resolver other now) (verify v)
     (if bool_decide (NativeTimeoutSeconds c ≤ 0) then 5 else NativeTimeoutSeconds c)
     (if bool_decide (sh_TimeoutSeconds (shadow c) ≤ 0) then 30 else sh_TimeoutSeconds (shadow c));
   WithStreamTimeout (StreamTimeoutSeconds c); WithStreamIdleTimeout (StreamIdleTimeoutSeconds c)].
Definition limited (c : Config.Config) : list string :=
  sort_strings (fst <$> filter (λ p, ServesNatively p.2 = true) (ByName (endpoints c))).
Definition build (c : Config.Config) (p : Proxy.Proxy) (diffs : option Writer) (db : option Pool.t) : worker :=
  let db' := if NeedsDatabase c then db else None in
  let resolver := (λ d, NewResolver (Pool.st_world d)) <$> db' in
  let verifier := (λ d, FedAuth.New NewInMemoryCache (ServerName c) (verifier_options c d)) <$> db' in
  let runner := (λ _, runner_options c) <$> db' in
  let opts := match resolver, verifier with Some _, Some v => handler_options c v | _, _ => [] end in
  MkWorker p diffs db resolver verifier runner (NewHandler c (bool_decide (is_Some runner)) opts)
    (bool_decide (is_Some runner) && bool_decide (is_Some resolver)) (limited c).

(** *** [run], from the loaded configuration on *)
Definition OpenFromConfig (c : Config.DiffLog) : P (option Writer) :=
  if negb (diff_Enabled c) then mret None
  else p ← of_res (DiffLog.Open (su_faults su) now (Options.FromConfig c) (su_disk su));
       emit (Opened DiffWriter);; mret (Some p.1).
Definition closing {A} (r : resource) (o : option A) : list event := match o with Some _ => [Closed r] | None => [] end.

Definition serve (w : worker) : P unit :=
  emit (Serving w);;
  match su_ends su with Some e => stop e | None => emit (Closed Listener) end.   (* [srv.Shutdown] *)
Definition run_worker (c : Config.Config) : P unit :=
  if negb (su_level su (Level (log c))) then stop "log"
  else
    p ← of_res (Proxy.New (upstream c));
    diffs ← OpenFromConfig (diff_log c);
    deferring (closing DiffWriter diffs) (
      (if su_registers su then mret tt else stop "register diff log metrics");;
      db ← openDatabase c;
      deferring (closing Database db) (
        listen_on (listen c);;
        serve (build c p diffs db))).
End run.

(** ** [main]: the flags, in the order they are looked at *)
Record flags := MkFlags { fl_diffstats : string; fl_version : bool; fl_healthcheck : bool }.
Inductive invocation := ReportStats (r : result string report) | Version | LoadFailed (e : string)
  | Probed (r : result string unit) | Ran (l : list event) (r : result string unit).
Definition main_run (f : flags) (stats_dir : string → Disk) (loaded : result string Config.Config)
    (get : dial → string → result string Z) (su : startup) : invocation :=
  if negb (bool_decide (fl_diffstats f = EmptyString)) then ReportStats (Report now (stats_dir (fl_diffstats f)))
  else if fl_version f then Version
  else match loaded with
       | Err e => LoadFailed e
       | Ok c => if fl_healthcheck f then Probed (healthcheck get c)
                 else let '(l, r) := run_worker su c in Ran l r
       end.

(** ** The two sides of a /state diagnosis *)
Definition replay_native {W} (out : outcome W) (body : string) : Replay :=
  let '(_, _, err) := out in MkReplay body err.
Definition replay_forwarded (res : Proxy.Result) (sent : string) : Replay :=
  MkReplay sent (match Proxy.SinkErr res with
                 | Some e => Some e
                 | None => if Proxy.Err_ res then Some (ErrText "upstream")
                           else if negb (bool_decide (Proxy.Status_ res = 200)) then Some (ErrText ("upstream answered " +:+ print_int (Proxy.Status_ res)))
                           else None
                 end).

(** ** What a run releases *)

(** The diff log and the database opened and not yet closed, the last one first;
    [None] if something else is closed than what was opened last. *)
Definition storage (r : resource) : bool := match r with Listener => false | _ => true end.
Fixpoint brackets (l : list event) (held : list resource) : option (list resource) :=
  match l with
  | [] => Some held
  | Opened r :: l => brackets l (if storage r then r :: held else held)
  | Closed r :: l =>
      if storage r then match held with
                        | r' :: held => if bool_decide (r = r') then brackets l held else None
                        | [] => None
                        end
      else brackets l held
  | _ :: l => brackets l held
  end.
Definition neutral (l : list event) : Prop := ∀ held, brackets l held = Some held.

Lemma brackets_app l l' held : brackets (l ++ l') held = held' ← brackets l held; brackets l' held'.
Proof.
  revert held. induction l as [|[r|r| | | |] l IH]; intros held; cbn [app brackets]; try apply IH; [done|].
  destruct (storage r); [|apply IH]. destruct held as [|r' held]; [done|]. by case_bool_decide.
Qed.
Lemma neutral_app l l' : neutral l → neutral l' → neutral (l ++ l').
Proof. intros Hl Hl' held. rewrite brackets_app, (Hl held). apply Hl'. Qed.
Lemma neutral_bind {A B} (m : P A) (f : A → P B) : neutral m.1 → (∀ a, neutral (f a).1) → neutral (m ≫= f).1.
Proof.
  intros Hm Hf. destruct m as [l [a|e]]; [|done]. cbn. specialize (Hf a). destruct (f a) as [l' r]. by apply neutral_app.
Qed.

Context (su : startup).

#[local] Ltac steps :=
  unfold mbind, P_bind, mret, P_ret, emit, stop, of_res in *; repeat (case_match; simplify_eq/=).

Lemma neutral_listen l : neutral (listen_on su l).1.
Proof using Type. unfold listen_on. intros held. by steps. Qed.
Lemma neutral_serve w : neutral (serve su w).1.
Proof using Type. unfold serve. intros held. by case_match. Qed.

(** [openDatabase] leaves a database open exactly if it returns one. *)
Lemma openDatabase_brackets c held : brackets (openDatabase su c).1 held =
  Some (match (openDatabase su c).2 with Ok (Some _) => Database :: held | _ => held end).
Proof using Type.
  unfold openDatabase, store_Open, startReplication, IsReadOnly. by steps.
Qed.
Lemma OpenFromConfig_brackets c held : brackets (OpenFromConfig su c).1 held =
  Some (match (OpenFromConfig su c).2 with Ok (Some _) => DiffWriter :: held | _ => held end).
Proof using Type. unfold OpenFromConfig. by steps. Qed.

(** C19. Whatever fails in a startup, and however the process ends, everything opened
    is closed again, the last thing opened first: so the database is closed before
    the diff log. *)
Theorem run_releases c : brackets (run_worker su c).1 [] = Some [].
Proof using Type.
  unfold run_worker. case_match; [done|]. unfold mbind, P_bind, of_res.
  destruct (Proxy.New _) as [p|e]; [|done].
  pose proof (OpenFromConfig_brackets (diff_log c)) as Hd. destruct (OpenFromConfig su (diff_log c)) as [ld [diffs|e]];
    cbn [fst snd] in Hd; [|cbn; by rewrite Hd].
  unfold deferring. cbn [fst]. set (inner := match _ with (_, Ok _) => _ | (_, Err _) => _ end).
  assert (neutral inner.1) as Hn.
  { subst inner. destruct (su_registers su); [|done]. cbn [mret P_ret app].
    pose proof (openDatabase_brackets c) as Hb. destruct (openDatabase su c) as [lb [db|e]]; cbn [fst snd] in Hb; [|exact Hb].
    set (body := listen_on su (listen c);; serve su (build c p diffs db)).
    assert (neutral body.1) as Hbody by (apply neutral_bind; [apply neutral_listen|intros; apply neutral_serve]).
    intros held. cbn. rewrite !brackets_app, Hb. cbn. rewrite brackets_app. unfold body in Hbody. cbn in Hbody. rewrite Hbody. by destruct db. }
  destruct inner as [li ri]. cbn [fst snd] in *. cbn. rewrite brackets_app, Hd. cbn. rewrite brackets_app, Hn. by destruct diffs.
Qed.

(** ** What a serving worker consists of *)
Notation serves w l := (Serving w ∈ l).

#[local] Ltac nowhere :=
  repeat match goal with
         | E : serves _ [] |- _ => by apply not_elem_of_nil in E
         | E : serves _ (_ :: _) |- _ => apply elem_of_cons in E as [E|E]; [discriminate E|]
         | E : serves _ (_ ++ _) |- _ => apply elem_of_app in E as [E|E]
         end.

Lemma openDatabase_quiet c w : ¬ serves w (openDatabase su c).1.
Proof using Type. unfold openDatabase, store_Open, startReplication, IsReadOnly. steps; intros Hs; nowhere. Qed.
Lemma OpenFromConfig_quiet c w : ¬ serves w (OpenFromConfig su c).1.
Proof using Type. unfold OpenFromConfig. steps; intros Hs; nowhere. Qed.
Lemma listen_quiet l w : ¬ serves w (listen_on su l).1.
Proof using Type. unfold listen_on. steps; intros Hs; nowhere. Qed.
Lemma closing_quiet {A} r (o : option A) w : ¬ serves w (closing r o).
Proof using Type. unfold closing. case_match; intros Hs; nowhere. Qed.

(** A worker that serves was built from what was opened before. *)
Lemma serving_built c w : serves w (run_worker su c).1 →
  ∃ p diffs db, w = build c p diffs db ∧ Proxy.New (upstream c) = Ok p ∧
    (OpenFromConfig su (diff_log c)).2 = Ok diffs ∧ (openDatabase su c).2 = Ok db ∧
    ∀ e, e ∈ (openDatabase su c).1 → e ∈ (run_worker su c).1.
Proof using Type.
  unfold run_worker. destruct (negb (su_level su _)); [by intros Hs%not_elem_of_nil|]. unfold of_res. unfold mbind, P_bind.
  destruct (Proxy.New _) as [p|e]; [|by intros Hs%not_elem_of_nil].
  pose proof (OpenFromConfig_quiet (diff_log c) w) as Hd. destruct (OpenFromConfig su (diff_log c)) as [ld [diffs|e]]; [|done].
  unfold deferring. destruct (su_registers su); cbn [mret P_ret stop fst snd app].
  2:{ intros [Hs|Hs]%elem_of_app; [done|]. by apply closing_quiet in Hs. }
  pose proof (openDatabase_quiet c w) as Hb. destruct (openDatabase su c) as [lb [db|e]] eqn:Eb; cbn [fst snd app].
  2:{ intros [Hs|[Hs|Hs]%elem_of_app]%elem_of_app; [done..|]. by apply closing_quiet in Hs. }
  intros Hs. exists p, diffs, db. split; [|split_and!; try done; intros e He; cbn; rewrite !elem_of_app; tauto].
  cbn in Hs. apply elem_of_app in Hs as [Hs|Hs]; [done|]. apply elem_of_app in Hs as [Hs|Hs]; [|by apply closing_quiet in Hs].
  apply elem_of_app in Hs as [Hs|Hs]; [done|]. apply elem_of_app in Hs as [Hs|Hs]; [|by apply closing_quiet in Hs].
  pose proof (listen_quiet (listen c) w) as Hl. destruct (listen_on su (listen c)) as [ll [[]|e]]; [|done].
  cbn [fst snd] in *. unfold serve in Hs. revert Hs. destruct (su_ends su); cbn; rewrite elem_of_app; intros [Hs|Hs]; try done.
  all: apply elem_of_cons in Hs as [Hs|Hs]; [by injection Hs|nowhere].
Qed.

(** What opening the database does with the caches. *)
Lemma openDatabase_replication c db : (∀ m, Replication.validate (replication c) = Some m → Enabled (replication c) = false) →
  (openDatabase su c).2 = Ok (Some db) →
  if Enabled (replication c) then Subscribed (replication c) ∈ (openDatabase su c).1
  else Settings.AnyEnabled (Settings.WithDefaults (Cache_ (database c))) = true →
    Warned "Caching without replication" ∈ (openDatabase su c).1.
Proof using All.
  intros Hv. unfold openDatabase. destruct (negb (db_Enabled _)); [by destruct (NeedsDatabase c)|]. cbv zeta.
  set (pool := store_Open su _). unfold mbind, P_bind. destruct pool as [lp [d|e]]; [|done].
  unfold startReplication, emit. destruct (Enabled (replication c)) eqn:En; cbn [negb].
  - destruct (Replication.validate (replication c)) as [m|] eqn:Ev; [by specialize (Hv m eq_refl)|].
    cbn. unfold IsReadOnly. destruct (su_setting su) as [t|]; [|done]. cbn. destruct (bool_decide _); cbn; intros _;
      apply elem_of_app; right; by left.
  - destruct (Settings.AnyEnabled _); [|done]. cbn. destruct (IsReadOnly su) as [[]|]; cbn; [..|done];
      intros _ _; apply elem_of_app; right; by left.
Qed.

Lemma openDatabase_some c db : NeedsDatabase c = true → (openDatabase su c).2 = Ok db → is_Some db.
Proof using All. intros Hn. unfold openDatabase. rewrite Hn. steps; naive_solver. Qed.
Lemma OpenFromConfig_some c diffs : Dir c ≠ EmptyString → (OpenFromConfig su c).2 = Ok diffs → is_Some diffs.
Proof using All.
  intros Hd. unfold OpenFromConfig, diff_Enabled. rewrite bool_decide_false by done. cbn [negb]. steps; naive_solver.
Qed.

(** The time-outs a handler is left with. *)
Lemma handler_timeouts c v shadowing : let h := NewHandler c shadowing (handler_options c v) in
  0 < h_nativeTimeout h ∧ 0 < h_verifyTimeout h ∧ 0 < h_streamTimeout h ∧ 0 < h_streamIdleTimeout h.
Proof using All.
  cbv zeta. unfold NewHandler, handler_options. cbn. unfold positive. repeat case_bool_decide; lia.
Qed.

(** C20. A worker that serves has what its configuration asks for.  Whatever the
    environment of the startup answered: wherever an endpoint is not just proxied
    there are a database, a resolver, a verifier and a comparator, and the handler
    holds that resolver and that verifier, with positive time-outs; wherever answers
    are compared there is a diff log; at least one comparison can run; and whenever
    a database is open, replication is consumed if it is enabled, and the operator is
    warned if it is not and any cache is. *)
Theorem serves_as_configured c w : well_formed c → serves w (run_worker su c).1 →
  let h := wk_handler w in
  let asked (P : string → Prop) := ∃ name m, (name, m) ∈ ByName (endpoints c) ∧ P (Config.Kind m) in
  (asked (λ k, k ≠ ModeProxy) →
     is_Some (wk_db w) ∧ is_Some (wk_resolver w) ∧ is_Some (wk_runner w) ∧ wk_replayers w = true ∧
     ∃ v, wk_verifier w = Some v ∧ h_resolver h = Some (matrixstate_resolver other now) ∧ h_Verify h = verify v ∧
       0 < h_nativeTimeout h ∧ 0 < h_verifyTimeout h ∧ 0 < h_streamTimeout h ∧ 0 < h_streamIdleTimeout h) ∧
  (asked (λ k, k = ModeShadow ∨ k = ModeCanary) → is_Some (wk_diffs w)) ∧
  (∀ o, wk_runner w = Some o → 0 < ro_Concurrency o ∧ 0 < ro_Timeout o ∧ 0 < ro_VerifyWait o) ∧
  (is_Some (wk_db w) →
     if Enabled (replication c) then Subscribed (replication c) ∈ (run_worker su c).1
     else Settings.AnyEnabled (Settings.WithDefaults (Cache_ (database c))) = true →
       Warned "Caching without replication" ∈ (run_worker su c).1).
Proof using All.
  intros Hwf Hs. cbv zeta. destruct (serving_built c w Hs) as (p & diffs & db & -> & _ & Hdiffs & Hdb & Hin).
  split_and!.
  - intros (name & m & Hm & Hk). assert (NeedsDatabase c = true) as Hn.
    { unfold NeedsDatabase. apply existsb_exists. exists (name, m). split; [by apply list_elem_of_In|].
      cbn. by rewrite bool_decide_false. }
    destruct (openDatabase_some c db Hn Hdb) as [d ->]. unfold build. rewrite Hn. cbn. split_and!; try done.
    eexists. split; [done|]. split; [done|]. split; [done|]. 
    exact (handler_timeouts c (FedAuth.New NewInMemoryCache (ServerName c) (verifier_options c d)) true).
  - intros (name & m & Hm & Hk). eapply OpenFromConfig_some; [|exact Hdiffs]. exact (wc_compared c Hwf name m Hm Hk).
  - intros o Ho. assert (o = runner_options c) as ->.
    { unfold build in Ho. cbn [wk_runner] in Ho. destruct (NeedsDatabase c), db; by simplify_eq/=. }
    unfold runner_options, Runner.with_defaults. cbn. repeat case_bool_decide; lia.
  - intros [d Hd]. cbn in Hd. subst db. pose proof (openDatabase_replication c d) as Hr.
    assert (∀ m, Replication.validate (replication c) = Some m → Enabled (replication c) = false) as Hv.
    { intros m. destruct (Enabled (replication c)) eqn:En; [|done]. apply (wc_replication c Hwf) in En as [Ha Hc].
      unfold Replication.validate. by rewrite !bool_decide_false. }
    specialize (Hr Hv Hdb). destruct (Enabled (replication c)); [by apply Hin|]. intros Ha. by apply Hin, Hr.
Qed.
End worker.

(** ** The health probe dials the listener *)
Lemma split_last_app c s t : contains_byte c t = false → split_last c (s +:+ String c t) = Some (s, t).
Proof.
  intros Ht. assert (split_last c t = None) as Hn.
  { induction t as [|a t IH]; [done|]. cbn [contains_byte split_last] in *. apply orb_false_iff in Ht as [Ha Ht]. by rewrite (IH Ht), Ha. }
  induction s as [|a s IH]; [change (split_last c (String c t) = Some (EmptyString, t)); cbn [split_last]; by rewrite Hn, bool_decide_true|].
  rewrite app_cons. cbn [split_last]. by rewrite IH.
Qed.

Definition no_brackets (s : string) : Prop := contains_byte "["%char s = false ∧ contains_byte "]"%char s = false.

Lemma SplitHostPort_Join host port : no_brackets host → no_brackets port → contains_byte colon port = false →
  SplitHostPort (JoinHostPort host port) = Some (host, port).
Proof.
  intros [Ho Hc] [Po Pc] Hp. unfold SplitHostPort, JoinHostPort. rewrite split_last_app by done.
  destruct (contains_byte colon host) eqn:Eh.
  - change ("[" +:+ host +:+ "]") with (String "[" (host +:+ "]")). rewrite app_cons, <-app_assoc_str.
    change ("]" +:+ String colon port) with (String "]" (String colon port)). rewrite cut_sep by done.
    rewrite bool_decide_true by done. rewrite contains_byte_app, Ho. cbn. rewrite Po, Pc. done.
  - rewrite Eh. rewrite !contains_byte_app, Ho, Hc. cbn. rewrite Po, Pc. cbn.
    destruct host as [|a host]; [done|]. rewrite app_cons. cbn in Ho. apply orb_false_iff in Ho as [Ha _].
    apply bool_decide_eq_false in Ha. destruct a as [[] [] [] [] [] [] [] []]; done.
Qed.

(** The probe dials what the worker listens on: the socket, or the address, with the
    wildcards replaced by the loopback address. *)
Theorem probe_reaches_listener :
  (∀ l, Socket l ≠ EmptyString → probe_dial l = DialUnix (Socket l)) ∧
  (∀ l host port, Socket l = EmptyString → Addr l = JoinHostPort host port →
     no_brackets host → no_brackets port → contains_byte colon port = false →
     probe_dial l = DialTCP (JoinHostPort (if wildcard host then "127.0.0.1" else host) port)).
Proof.
  split; intros l; unfold probe_dial; [intros Hs; by rewrite bool_decide_false|].
  intros host port -> -> Hh Hp Hc. rewrite bool_decide_true by done. cbn [negb]. unfold localAddr.
  rewrite SplitHostPort_Join by done. by destruct (wildcard host).
Qed.

(** ** An error answer is never diagnosed

    However Synapse's error body reads, the diagnosis fails: it never reports our
    events as missing from an answer there was none of. *)
Theorem error_answer_never_diagnosed `{!External} gjson_int native native' synapse' res sent samples :
  Proxy.Status_ res ≠ 200 →
  ∃ e, DiagnoseStateMismatch gjson_int native (replay_forwarded res sent) native' synapse' samples = (None, Some e).
Proof.
  intros Hs. unfold DiagnoseStateMismatch. destruct (replay (tally 1) native start) as [r1 [e|]]; [by eexists|].
  destruct (replay (tally (-1)) (replay_forwarded res sent) r1) as [r2 e2] eqn:E.
  assert (is_Some e2) as [e ->]; [|by eexists].
  unfold replay in E. destruct (ScanStateResponse _ _ _) as [[[? ?] ?] [e|]]; injection E as <- <-; [done|].
  unfold replay_forwarded. cbn [rp_Err]. destruct (Proxy.SinkErr res); [done|]. destruct (Proxy.Err_ res); [done|].
  rewrite bool_decide_false by done. done.
Qed.

(** ** A comparison in flight at the end

    The database is closed before the diff log ([run_releases]), and nothing waits
    for the comparisons: one that has yet to query then fails, and is counted. *)
Definition closed_pool (w : world) : world :=
  MkWorld (λ _, Err "closed pool"%string) (w_cancelled w) (w_fuel w) (w_tick w) (w_caches w) (w_trace w).

Module Shutdown.
#[local] Instance resolver : NativeResolver := matrixstate_resolver (H := Sample.ext) None 0.
Definition request : Runner.Request := MkShadowRequest (Native.MkRequest "event" "h" "" "$x" "") "/e" "GET" "X-Matrix".
Definition our_answer : string :=
  match (Answer "h" (sr_Native request) (NewResolver ServedWitness.up)).1 with Ok (body, _, _) => body | Err _ => EmptyString end.
Definition synapse : ProxyResult := PR 200 our_answer 1000000 false.
Definition compare (w : world) : result error Compare.verdict :=
  (Compare.run (λ s, s) (λ _, "closed pool"%string) (λ _, false) "h" None (sr_Native request) synapse (NewResolver w)).1.
Definition counted_as (r : result error Compare.verdict) : option Stats :=
  match r with
  | Ok v => stats <$> fx_diffs (conclude 9 request synapse 0 v (MkEffects (Some LogWitness.w0) []))
  | Err _ => None
  end.
End Shutdown.

(** The two answers agree, and the comparison that runs into the closed pool counts
    as a mismatch, on which the seven days start again. *)
Theorem shutdown_counts_mismatch :
  Shutdown.compare ServedWitness.up = Ok VMatch ∧
  (Mismatched <$> Shutdown.counted_as (Shutdown.compare ServedWitness.up)) = Some 0 ∧
  (Mismatched <$> Shutdown.counted_as (Shutdown.compare (closed_pool ServedWitness.up))) = Some 1.
Proof. split_and!; vm_compute; reflexivity. Qed.

(** ** A concrete startup *)
Module WorkerWitness.
Definition c : Config.Config :=
  MkConfig "h" (MkListen "/s" "" "0660") (MkUpstream ["/u"%string] [] 0 0) ":9200"
    (MkEndpoints (MkMode ModeShadow 0) default_mode default_mode default_mode) (MkLog "info" false)
    (Config.MkDiffLog "/d" 0 0 None 0 0 0) (MkDatabase "host=/db" 0 0 (Settings.Mk 0 0 0 0 0)) (MkShadow 0 0 0 0)
    (MkAuth 0 0 []) 0 0 0 (Replication.MkConfig true "/r" "h" "" 0) (Federation.Mk 0 0 0 0 0).
Definition su : startup :=
  MkStartup (λ _, true) LogWitness.clean no_faults true (λ _, true) true true ServedWitness.up (Some "on"%string) Removed true true None.
Definition trace := (run_worker (H := Sample.ext) SampleAuth.new_cache None 0 (λ _ _, None) su c).1.
Definition served : option worker := head (omap (λ e, match e with Serving w => Some w | _ => None end) trace).

Lemma served_in_trace w : served = Some w → Serving w ∈ trace.
Proof.
  unfold served. intros Hw. apply head_Some_elem_of, list_elem_of_omap in Hw as (e & He & E). destruct e; simplify_eq/=. exact He.
Qed.
Lemma valid : Config.validate c = Ok c.
Proof. by vm_compute. Qed.

Lemma serves_as_configured_witness :
  ∃ w, Serving w ∈ trace ∧ is_Some (wk_resolver w) ∧ is_Some (wk_diffs w) ∧ Subscribed (replication c) ∈ trace.
Proof.
  assert (is_Some served) as [w Hw] by (eexists; reflexivity).
  exists w. pose proof (served_in_trace w Hw) as Hin.
  destruct (serves_as_configured (H := Sample.ext) SampleAuth.new_cache None 0 (λ _ _, None) su c w
    (validate_well_formed c c valid) Hin) as (H1 & H2 & _ & H4).
  assert (∃ name m, (name, m) ∈ ByName (endpoints c) ∧ Config.Kind m = ModeShadow) as (name & m & Hm & Hk).
  { exists "event"%string, (MkMode ModeShadow 0). split; [by left|reflexivity]. }
  destruct H1 as (Hdb & Hr & _); [exists name, m; split; [exact Hm|rewrite Hk; discriminate]|].
  split_and!; [exact Hin|exact Hr|apply H2; exists name, m; split; [exact Hm|by left]|exact (H4 Hdb)].
Defined.
End WorkerWitness.
