(* ===== verification/Sweep.v ===== *)
(** * [cmd/eventsweep], [cmd/gmesweep], [cmd/statesweep]

    The tools that send the worker requests nobody makes: what each picks from the
    tables, the request it builds and signs, and the loop that sends one after the
    other and notes in a file what is done.  Files are a map from paths to contents;
    signatures ([mautrix]), the transport and the database's random samples are
    arguments.  What is printed is left out.  The tables of [Store] have no forward
    extremities: they are an argument too. *)
From S2P Require Import Prelude Cache Json Store MissingEvents Pducmp Wire Printed Config Route Native.

Open Scope list_scope.
Open Scope Z_scope.

(** ** What the three tools share *)
Definition eol : ascii := "010".

(** [strings.Split] by one byte. *)
Fixpoint Split (c : ascii) (s : string) : list string :=
  match s with
  | EmptyString => [EmptyString]
  | String a s =>
      match Split c s with
      | x :: l => if bool_decide (a = c) then EmptyString :: x :: l else String a x :: l
      | [] => []
      end
  end.
(** The parts that are not blank, trimmed. *)
Definition parts (c : ascii) (s : string) : list string := filter (λ l, l ≠ EmptyString) (TrimSpace <$> Split c s).

Notation files := (gmap string string).

Definition loadProgress (path : string) (fs : files) : gset string :=
  if bool_decide (path = EmptyString) then ∅
  else match fs !! path with None => ∅ | Some raw => list_to_set (parts eol raw) end.

(** [progressFile]: the file's path while it is open. *)
Definition progressFile : Type := option string.
(** [None] is [fatal]. *)
Definition openProgress (path : string) (opens : bool) (fs : files) : option (progressFile * files) :=
  if bool_decide (path = EmptyString) then Some (None, fs)
  else if negb opens then None
  else Some (Some path, <[path := default EmptyString (fs !! path)]> fs).
(** [Fprintln] of a line, its error dropped: the line reaches the file, or its first
    bytes only. *)
Definition record_ (p : progressFile) (id : string) (cut : option nat) (fs : files) : files :=
  match p with
  | None => fs
  | Some path =>
      let line := id +:+ String eol EmptyString in
      <[path := default EmptyString (fs !! path) +:+ match cut with None => line | Some k => take_str k line end]> fs
  end.

Definition urlBase (socket base : string) : string :=
  if bool_decide (base ≠ EmptyString) then trim_suffix base "/" else "http://gopro-worker".

(** *** Escaping, as [net/url] does it *)
Definition unreserved (a : ascii) : bool :=
  let b := Utf8.byte a in
  is_digit a || (bool_decide (65 ≤ b) && bool_decide (b ≤ 90)) || (bool_decide (97 ≤ b) && bool_decide (b ≤ 122)) ||
  bool_decide (a ∈ ["-"; "_"; "."; "~"]%char).
Definition PathEscape : string → string := escape (λ a, unreserved a || bool_decide (a ∈ ["$"; "&"; "+"; "="; ":"; "@"]%char)).
Fixpoint plus_spaces (s : string) : string :=
  match s with
  | EmptyString => EmptyString
  | String a s =>
      if bool_decide (a = " "%char) then String "+" (plus_spaces s)
      else escape unreserved (String a EmptyString) +:+ plus_spaces s
  end.
Definition QueryEscape : string → string := plus_spaces.

(** *** A signed request *)
Record signableRequest := MkSignable {
  sg_Method : string; sg_URI : string; sg_Origin : string; sg_Destination : string; sg_Content : option string }.
Record outgoing := MkOutgoing {
  og_Method : string; og_URL : string; og_Host : string; og_Signature : string; og_JSON : bool; og_Body : option string }.

Section signing.
Variable SignJSON : signableRequest → result error string.    (* with the key *)
Variable parses : string → bool.                             (* [http.NewRequest] takes the URL *)

Definition signed (method base uri serverName : string) (content : option string) : result error outgoing :=
  match SignJSON (MkSignable method uri serverName serverName content) with
  | Err e => Err e
  | Ok sig =>
      if negb (parses (base +:+ uri)) then Err (ErrText "parse url")
      else Ok (MkOutgoing method (base +:+ uri) serverName sig (bool_decide (is_Some content)) content)
  end.

Definition askEvent (serverName base eventID : string) : result error outgoing :=
  signed "GET" base ("/_matrix/federation/v1/event/" +:+ PathEscape eventID) serverName None.
Definition askState (serverName base roomID eventID : string) : result error outgoing :=
  signed "GET" base ("/_matrix/federation/v1/state/" +:+ PathEscape roomID +:+ "?event_id=" +:+ QueryEscape eventID) serverName None.

Record target := MkTarget { tg_Room : string; tg_Latest : string; tg_Earliest : string }.
(** [json.Marshal] of a map: its keys in order. *)
Definition ask_body (t : target) (limit : Z) : string :=
  print_object [("earliest_events", print_array [encode_string (tg_Earliest t)]);
                ("latest_events", print_array [encode_string (tg_Latest t)]); ("limit", print_int limit)]%string.
Definition ask (serverName : string) (t : target) (limit : Z) : result error outgoing :=
  signed "POST" "http://gopro-worker" ("/_matrix/federation/v1/get_missing_events/" +:+ PathEscape (tg_Room t)) serverName
    (Some (ask_body t limit)).
End signing.

(** *** Signing keys *)
Definition loadSigningKey {K} (ParseSynapseKey : string → result error K) (path : string) (fs : files) : result error K :=
  match fs !! path with
  | None => Err (ErrText "open")
  | Some raw => match parts eol raw with line :: _ => ParseSynapseKey line | [] => Err (ErrText ("no key in " +:+ path)) end
  end.

(** *** The loop

    Before each request the interrupt is looked at; what is answered, whatever the
    status, is counted and recorded, what is not is left for another run.  The
    process may also be killed once a request is on its way, before its line is
    written. *)
Inductive moment := Goes | Interrupted | Killed.

Section loop.
Context {T C : Type} (id : T → string) (count : T → result error Z → C → C).
Variable fate : nat → moment.                                (* of the i-th request *)
Variable send : nat → T → result error Z.                     (* its status *)
Variable written : nat → option nat.                          (* [None]: its line reaches the file *)

(** The requests sent, each with its answer and whether its line is in the file. *)
Notation sent := (list (T * result error Z * bool)).

Fixpoint sweep (p : progressFile) (i : nat) (todo : list T) (counts : C) (fs : files) : sent * C * files :=
  match todo with
  | [] => ([], counts, fs)
  | t :: todo =>
      match fate i with
      | Interrupted => ([], counts, fs)
      | Killed => ([(t, send i t, false)], counts, fs)
      | Goes =>
          let r := send i t in
          let '(fs, line) := match r with
                             | Ok _ => (record_ p (id t) (written i) fs, bool_decide (written i = None))
                             | Err _ => (fs, false)
                             end in
          let '(asked, counts, fs) := sweep p (S i) todo (count t r counts) fs in
          ((t, r, line) :: asked, counts, fs)
      end
  end.

(** A run once its plan is made: a dry one, and one with nothing to do, opens nothing.
    [None] is [fatal]. *)
Definition swept (path : string) (opens dryRun : bool) (todo : list T) (counts : C) (fs : files) : option (sent * C * files) :=
  if dryRun || bool_decide (length todo = 0%nat) then Some ([], counts, fs)
  else '(p, fs) ← openProgress path opens fs; Some (sweep p 0 todo counts fs).
End loop.

(** ** [eventsweep] *)
Module EventSweep.
(** A stratum's query is a random sample, taken by the database; [$2] is in its text
    or not. *)
Record stratum := Stratum { Name : string; takes_server : bool }.
Definition strata : list stratum :=
  [Stratum "invisible" true; Stratum "redacted" false; Stratum "ban_redacted" false; Stratum "rejected" false;
   Stratum "outlier" false; Stratum "erased" false; Stratum "rare_room_version" false; Stratum "create_events" false;
   Stratum "state_events" false; Stratum "random" false].
Record item := Item { it_stratum : string; it_event : string }.

Definition selected (only : string) : gset string := list_to_set (parts ","%char only).
Definition chosen (sel : gset string) (st : stratum) : bool := bool_decide (sel = ∅) || bool_decide (Name st ∈ sel).

(** [sample]: the identifiers, or the error for which the stratum is skipped. *)
Definition sample (query : string → list string → result error (list string)) (st : stratum) (n : Z) (serverName : string)
    : result error (list string) :=
  query (Name st) (print_int n :: (if takes_server st then [serverName] else [])).

Fixpoint claim (done : gset string) (st : string) (ids : list string) (acc : list item * gset string) : list item * gset string :=
  match ids with
  | [] => acc
  | id :: ids =>
      let '(todo, seen) := acc in
      if bool_decide (id ∈ seen) || bool_decide (id ∈ done) then claim done st ids acc
      else claim done st ids (todo ++ [Item st id], {[id]} ∪ seen)
  end.
Definition plan (query : string → list string → result error (list string)) (sel : gset string) (n : Z) (serverName : string)
    (done : gset string) (sts : list stratum) : list item :=
  (foldl (λ acc st,
    if negb (chosen sel st) then acc else
    match sample query st n serverName with
    | Err _ => acc
    | Ok ids => claim done (Name st) ids acc
    end) ([], ∅) sts).1.

(** Counts per stratum and status. *)
Definition tally (t : item) (r : result error Z) (c : gmap string (gmap Z Z)) : gmap string (gmap Z Z) :=
  match r with
  | Err _ => c
  | Ok status =>
      let m := default ∅ (c !! it_stratum t) in
      <[it_stratum t := <[status := default 0 (m !! status) + 1]> m]> c
  end.

(** A run: the plan, shuffled by [rand.Shuffle] so that the requests are not ordered
    by stratum, is swept. *)
Definition sweep_events (shuffle : list item → list item) (fate : nat → moment) (send : nat → item → result error Z)
    (written : nat → option nat) (path : string) (opens dryRun : bool)
    (query : string → list string → result error (list string)) (only : string) (n : Z) (serverName : string) (fs : files)
    : option (list (item * result error Z * bool) * gmap string (gmap Z Z) * files) :=
  swept it_event tally fate send written path opens dryRun
    (shuffle (plan query (selected only) n serverName (loadProgress path fs) strata)) ∅ fs.
End EventSweep.

(** ** [gmesweep] *)
Module GmeSweep.
Section targets.
Variable extremities : list (string * string).    (* [event_forward_extremities]: room, event *)
Variable d : DB.

(** The least of a list, in the collation of the database. *)
Definition least (l : list string) : option string := head (sort_strings l).
Definition events_of (room : string) : list string := (filter (λ x, x.1 = room) extremities).*2.
Definition tips : list (string * string) :=
  omap (λ room, pair room <$> least (events_of room)) (sort_strings (remove_dups extremities.*1)).

(** [back] at a hop: with every path, its end. *)
Fixpoint back (hop : nat) : list (string * string * string) :=
  match hop with
  | O => (λ t, (t.1, t.2, t.2)) <$> tips
  | S hop =>
      back hop ≫= λ b,
        (λ e, (b.1, Db.ed_prev e)) <$> filter (λ e, Db.ed_event e = b.2 ∧ Db.ed_is_state e = false) (Db.event_edges d)
  end.
Definition loadTargets (depth : Z) : list target :=
  if bool_decide (depth < 0) then [] else
  omap (λ t, MkTarget t.1 t.2 <$> least (filter (λ b, b.1 = t) (back (Z.to_nat depth))).*2) tips.
End targets.

Definition plan (targets : list target) (done : gset string) (maxRooms : Z) : list target :=
  let todo := filter (λ t, tg_Room t ∉ done) targets in
  if bool_decide (0 < maxRooms) && bool_decide (maxRooms < Z.of_nat (length todo)) then take (Z.to_nat maxRooms) todo else todo.
Definition tally (t : target) (r : result error Z) (c : gmap Z Z) : gmap Z Z :=
  match r with Err _ => c | Ok status => <[status := default 0 (c !! status) + 1]> c end.
Definition sweep_targets (fate : nat → moment) (send : nat → target → result error Z) (written : nat → option nat)
    (path : string) (opens dryRun : bool) (targets : list target) (maxRooms : Z) (fs : files)
    : option (list (target * result error Z * bool) * gmap Z Z * files) :=
  swept tg_Room tally fate send written path opens dryRun (plan targets (loadProgress path fs) maxRooms) ∅ fs.
End GmeSweep.

(** ** [statesweep] *)
Module StateSweep.
Record room := MkRoom { ID : string; EventID : string; StateEvents : Z }.

(** The rows of the join for one room. *)
Definition joined_rows (extremities : list (string * string)) (d : DB) (r : string) : Z :=
  Z.of_nat (length (filter (λ c, Db.cs_room c = r) (Db.current_state_events d)) *
            length (filter (λ x, x.1 = r) extremities) * length (filter (λ x, Db.rm_id x = r) (Db.rooms d))).
Definition smaller (a b : room) : Prop := StateEvents a ≤ StateEvents b.
#[export] Instance smaller_dec : RelDecision smaller.
Proof. intros a b. unfold smaller. apply _. Defined.
(** [sort.Slice] may order equals otherwise. *)
Definition loadRooms (extremities : list (string * string)) (d : DB) (minState maxState : Z) : list room :=
  merge_sort smaller (omap (λ r,
    let n := joined_rows extremities d r in
    if bool_decide (0 < n) && bool_decide (minState ≤ n) && (bool_decide (maxState = 0) || bool_decide (n ≤ maxState))
    then (λ e, MkRoom r e n) <$> GmeSweep.least (GmeSweep.events_of extremities r) else None)
    (remove_dups (Db.cs_room <$> Db.current_state_events d))).

Definition plan (rooms : list room) (done : gset string) (limit : Z) : list room :=
  let todo := filter (λ r, ID r ∉ done) rooms in
  if bool_decide (0 < limit) && bool_decide (limit < Z.of_nat (length todo)) then take (Z.to_nat limit) todo else todo.
(** Answered with 200, and not. *)
Definition tally (r : room) (s : result error Z) (c : Z * Z) : Z * Z :=
  match s with Ok 200 => (c.1 + 1, c.2) | _ => (c.1, c.2 + 1) end.
Definition sweep_rooms (fate : nat → moment) (send : nat → room → result error Z) (written : nat → option nat)
    (path : string) (opens dryRun : bool) (rooms : list room) (limit : Z) (fs : files)
    : option (list (room * result error Z * bool) * (Z * Z) * files) :=
  swept ID tally fate send written path opens dryRun (plan rooms (loadProgress path fs) limit) (0, 0) fs.
End StateSweep.

(** ** A sweep that is resumed *)

(** An identifier that is its own line. *)
Definition clean (id : string) : Prop := contains_byte eol id = false ∧ TrimSpace id = id ∧ id ≠ EmptyString.
(** The file ends with a line's end, if it has any. *)
Definition terminated (s : string) : Prop := s = EmptyString ∨ ∃ s1, s = s1 +:+ String eol EmptyString.

Lemma Split_cons c s : ∃ x l, Split c s = x :: l.
Proof. induction s as [|a s (x & l & E)]; [by eexists _, _|]. cbn. rewrite E. case_bool_decide; by eexists _, _. Qed.
Lemma Split_app c s t : Split c (s +:+ String c t) = Split c s ++ Split c t.
Proof.
  induction s as [|a s IH].
  - change (EmptyString +:+ String c t) with (String c t). cbn [Split]. destruct (Split_cons c t) as (x & l & E). rewrite E.
    by rewrite bool_decide_true.
  - rewrite app_cons. cbn [Split]. rewrite IH. destruct (Split_cons c s) as (x & l & E). rewrite E. cbn [app].
    by case_bool_decide.
Qed.
Lemma Split_one c s : contains_byte c s = false → Split c s = [s].
Proof.
  induction s as [|a s IH]; [done|]. cbn [contains_byte Split]. intros [Ha Hs]%orb_false_iff. by rewrite (IH Hs), Ha.
Qed.

Lemma parts_blank c : parts c EmptyString = [].
Proof. done. Qed.
Lemma parts_app c s t : parts c (s +:+ String c t) = parts c s ++ parts c t.
Proof. unfold parts. by rewrite Split_app, fmap_app, filter_app. Qed.
Lemma parts_line id : clean id → parts eol (id +:+ String eol EmptyString) = [id].
Proof.
  intros (Hc & Ht & Hn). rewrite parts_app, parts_blank, app_nil_r. unfold parts. rewrite Split_one by done. cbn [fmap list_fmap].
  rewrite Ht. by rewrite filter_cons_True.
Qed.
Lemma parts_terminated s t : terminated s → parts eol (s +:+ t) = parts eol s ++ parts eol t.
Proof.
  intros [->|(s1 & ->)]; [done|]. rewrite <-app_assoc_str. change (String eol EmptyString +:+ t) with (String eol t).
  by rewrite !parts_app, parts_blank, app_nil_r.
Qed.

Lemma record_progress path id fs : path ≠ EmptyString → terminated (default EmptyString (fs !! path)) → clean id →
  let fs' := record_ (Some path) id None fs in
  loadProgress path fs' = loadProgress path fs ∪ {[id]} ∧ terminated (default EmptyString (fs' !! path)).
Proof.
  intros Hp Ht Hc. cbv zeta. cbn [record_]. rewrite lookup_insert_eq. split.
  - unfold loadProgress. rewrite bool_decide_false by done. rewrite lookup_insert_eq.
    rewrite parts_terminated, parts_line, list_to_set_app_L by done. cbn [list_to_set]. rewrite union_empty_r_L. f_equal.
    by destruct (fs !! path).
  - right. exists (default EmptyString (fs !! path) +:+ id). cbn [default from_option]. by rewrite app_assoc_str.
Qed.

Lemma open_progress path opens fs p fs' : path ≠ EmptyString → openProgress path opens fs = Some (p, fs') →
  p = Some path ∧ loadProgress path fs' = loadProgress path fs ∧ default EmptyString (fs' !! path) = default EmptyString (fs !! path).
Proof.
  intros Hp. unfold openProgress. rewrite bool_decide_false by done. destruct opens; [|done]. intros [= <- <-].
  rewrite lookup_insert_eq. split_and!; [done| |done]. unfold loadProgress. rewrite bool_decide_false, lookup_insert_eq by done.
  by destruct (fs !! path).
Qed.

(** What a run leaves behind: it asked in the planned order from the first on, all of
    them unless it was cut off; the lines in the file are those it held and those of
    the requests that were answered, not killed before the line, and whose line could
    be written. *)
Section resume.
Context {T C : Type} (id : T → string) (count : T → result error Z → C → C).
Variable fate : nat → moment.
Variable send : nat → T → result error Z.
Variable written : nat → option nat.
Notation run := (sweep id count fate send written).

Definition kept (asked : list (T * result error Z * bool)) : gset string :=
  list_to_set (omap (λ a : T * result error Z * bool, if a.2 then Some (id a.1.1) else None) asked).

Record resumed (path : string) (fs fs' : files) (planned : list T) (asked : list (T * result error Z * bool)) : Prop := {
  rs_order : asked.*1.*1 `prefix_of` planned;
  rs_all : (∀ i, fate i = Goes) → asked.*1.*1 = planned;
  rs_lines : ∀ i t r line, asked !! i = Some (t, r, line) →
    r = send i t ∧ (line = true ↔ is_ok r = true ∧ fate i = Goes ∧ written i = None);
  rs_progress : loadProgress path fs' = loadProgress path fs ∪ kept asked;
  rs_terminated : terminated (default EmptyString (fs' !! path)) }.

Context (path : string) (Hpath : path ≠ EmptyString).
(** A line is written whole or not at all. *)
Context (Hwhole : ∀ i k, written i = Some k → k = 0%nat).

Lemma record_or_not i t fs : terminated (default EmptyString (fs !! path)) → clean (id t) →
  let fs' := record_ (Some path) (id t) (written i) fs in
  loadProgress path fs' = loadProgress path fs ∪ (if bool_decide (written i = None) then {[id t]} else ∅) ∧
  terminated (default EmptyString (fs' !! path)).
Proof using Hpath Hwhole.
  intros Ht Hc. cbv zeta. destruct (written i) as [k|] eqn:E; [|by apply record_progress].
  rewrite (Hwhole _ _ E). cbn [record_ take_str]. rewrite app_nil_str, lookup_insert_eq.
  split; [|done]. rewrite bool_decide_false, union_empty_r_L by done. unfold loadProgress.
  rewrite bool_decide_false, lookup_insert_eq by done. by destruct (fs !! path).
Qed.

(** The part of a run from its [i]-th request on. *)
Lemma sweep_progress i todo counts fs : terminated (default EmptyString (fs !! path)) →
  (∀ t, t ∈ todo → clean (id t)) →
  let '(asked, _, fs') := run (Some path) i todo counts fs in
  asked.*1.*1 `prefix_of` todo ∧ ((∀ j, fate j = Goes) → asked.*1.*1 = todo) ∧
  (∀ j t r line, asked !! j = Some (t, r, line) →
    r = send (i + j)%nat t ∧ (line = true ↔ is_ok r = true ∧ fate (i + j)%nat = Goes ∧ written (i + j)%nat = None)) ∧
  loadProgress path fs' = loadProgress path fs ∪ kept asked ∧ terminated (default EmptyString (fs' !! path)).
Proof using Hpath Hwhole.
  revert i counts fs. induction todo as [|t todo IH]; intros i counts fs Ht Hc; cbn [sweep].
  { split_and!; try done. unfold kept. cbn. by rewrite union_empty_r_L. }
  destruct (fate i) eqn:Ei.
  2:{ split_and!; [apply prefix_nil|intros Hi; by rewrite Hi in Ei|done|unfold kept; cbn; by rewrite union_empty_r_L|done]. }
  2:{ split_and!; [apply prefix_cons, prefix_nil|intros Hi; by rewrite Hi in Ei| |unfold kept; cbn; by rewrite union_empty_r_L|done].
      intros [|j] t' r line; [|done]. intros [= <- <- <-]. rewrite Nat.add_0_r, Ei. naive_solver. }
  set (next := match send i t with Ok _ => _ | Err _ => _ end).
  assert (loadProgress path next.1 = loadProgress path fs ∪ (if next.2 then {[id t]} else ∅) ∧
    terminated (default EmptyString (next.1 !! path)) ∧
    (next.2 = true ↔ is_ok (send i t) = true ∧ fate i = Goes ∧ written i = None)) as (H1 & H2 & H3).
  { unfold next. destruct (send i t); cbn [fst snd].
    - destruct (record_or_not i t fs Ht (Hc t ltac:(left))) as [Hr1 Hr2]. split_and!; [done..|].
      rewrite bool_decide_eq_true. naive_solver.
    - rewrite union_empty_r_L. naive_solver. }
  destruct next as [fs1 line]. cbn [fst snd] in *.
  specialize (IH (S i) (count t (send i t) counts) fs1 H2 ltac:(intros y Hy; apply Hc; by right)).
  destruct (run (Some path) (S i) todo (count t (send i t) counts) fs1) as [[asked c'] fs'].
  destruct IH as (Hpre & Hall & Hlines & Hload & Hterm). cbn [fmap list_fmap fst].
  split_and!; [by apply prefix_cons| | | |done].
  - intros Hi. f_equal. by apply Hall.
  - intros [|j] t' r line'.
    + intros [= <- <- <-]. rewrite Nat.add_0_r. by split.
    + cbn [lookup list_lookup]. intros Hj%Hlines. by rewrite Nat.add_succ_r.
  - rewrite Hload, H1, <-(assoc_L (∪)). f_equal. unfold kept. cbn [omap list_omap snd fst].
    destruct line; cbn [list_to_set]; [done|by rewrite union_empty_l_L].
Qed.

Lemma swept_resumes opens fs todo counts asked c fs' : terminated (default EmptyString (fs !! path)) →
  (∀ t, t ∈ todo → clean (id t)) →
  swept id count fate send written path opens false todo counts fs = Some (asked, c, fs') →
  resumed path fs fs' todo asked.
Proof using Hpath Hwhole.
  intros Ht Hc. unfold swept. cbn [orb]. case_bool_decide as Hn.
  { destruct todo; [|done]. intros [= <- <- <-]. split; [done..| |done]. unfold kept. cbn. by rewrite union_empty_r_L. }
  destruct (openProgress path opens fs) as [[p fs0]|] eqn:Ho; [|done]. cbn [mbind option_bind]. intros [= Hs].
  destruct (open_progress path opens fs p fs0 Hpath Ho) as (-> & El & Ed).
  pose proof (sweep_progress 0 todo counts fs0) as Hp. rewrite Ed, Hs, El in Hp.
  destruct (Hp Ht Hc) as (H1 & H2 & H3 & H4 & H5). by split.
Qed.
End resume.

(** The first of a list; all of it without a limit. *)
Definition at_most {A} (limit : Z) (l : list A) : list A := if bool_decide (0 < limit) then take (Z.to_nat limit) l else l.

Lemma cut_at_most {A} limit (l : list A) :
  (if bool_decide (0 < limit) && bool_decide (limit < Z.of_nat (length l)) then take (Z.to_nat limit) l else l) = at_most limit l.
Proof.
  unfold at_most. destruct (bool_decide_reflect (0 < limit)); [|done]. cbn [andb]. case_bool_decide; [done|].
  by rewrite take_ge by lia.
Qed.

(** ** What is sampled is swept once *)
Section event_plan.
Import EventSweep.
Variable query : string → list string → result error (list string).
Variable sel : gset string.
Variable n : Z.
Variable serverName : string.
Variable done_ : gset string.

(** The strata's samples, those skipped left out. *)
Definition samples (sts : list stratum) : list (string * list string) :=
  omap (λ st, if chosen sel st then match sample query st n serverName with Ok ids => Some (Name st, ids) | Err _ => None end else None) sts.
(** The first stratum that has an identifier. *)
Definition claimed_by (l : list (string * list string)) (id : string) : option string :=
  fst <$> List.find (λ p, bool_decide (id ∈ p.2)) l.

(** What holds of the plan so far. *)
Record planned (l : list (string * list string)) (acc : list item * gset string) : Prop := {
  pl_seen : ∀ id, id ∈ acc.2 ↔ id ∈ it_event <$> acc.1;
  pl_nodup : NoDup (it_event <$> acc.1);
  pl_items : ∀ st id, Item st id ∈ acc.1 ↔ claimed_by l id = Some st ∧ id ∉ done_ }.

Lemma claimed_snoc l st ids id : claimed_by (l ++ [(st, ids)]) id =
  match claimed_by l id with Some s => Some s | None => if bool_decide (id ∈ ids) then Some st else None end.
Proof using Type.
  unfold claimed_by. induction l as [|p l IH]; cbn [app List.find].
  - cbn. by case_bool_decide.
  - destruct (bool_decide (id ∈ p.2)); [done|exact IH].
Qed.

Lemma planned_item l acc id : planned l acc → id ∈ it_event <$> acc.1 ↔ is_Some (claimed_by l id) ∧ id ∉ done_.
Proof using Type.
  intros [_ _ Hi]. rewrite list_elem_of_fmap. split.
  - intros ([st i] & -> & Hin). apply Hi in Hin as [Hst Hd]. split; [by exists st|done].
  - intros [[st Hst] Hd]. exists (Item st id). split; [done|]. by apply Hi.
Qed.

Lemma claim_planned l st pre ids acc : planned (l ++ [(st, pre)]) acc →
  planned (l ++ [(st, pre ++ ids)]) (claim done_ st ids acc).
Proof using All.
  revert pre acc. induction ids as [|id ids IH]; intros pre acc Hp; [by rewrite app_nil_r|].
  replace (pre ++ id :: ids) with ((pre ++ [id]) ++ ids) by (by rewrite <-app_assoc).
  assert (∀ x, x ≠ id → claimed_by (l ++ [(st, pre ++ [id])]) x = claimed_by (l ++ [(st, pre)]) x) as Hne.
  { intros x Hx. rewrite !claimed_snoc. rewrite (bool_decide_ext (x ∈ pre ++ [id]) (x ∈ pre)); [done|].
    rewrite elem_of_app, list_elem_of_singleton. tauto. }
  destruct acc as [todo seen]. cbn [claim]. destruct (bool_decide (id ∈ seen) || bool_decide (id ∈ done_)) eqn:E; apply IH.
  - assert (∀ x st', claimed_by (l ++ [(st, pre ++ [id])]) x = Some st' ∧ x ∉ done_ ↔ claimed_by (l ++ [(st, pre)]) x = Some st' ∧ x ∉ done_) as Hx.
    { intros x st'. destruct (decide (x = id)) as [->|]; [|by rewrite Hne]. destruct (decide (id ∈ done_)); [tauto|].
      rewrite orb_true_iff, !bool_decide_eq_true in E. destruct E as [E|E]; [|done]. apply (pl_seen _ _ Hp) in E.
      apply (planned_item _ _ _ Hp) in E as [[st1 Hst] _]. rewrite claimed_snoc in Hst |- *. rewrite claimed_snoc.
      destruct (claimed_by l id); [done|]. case_bool_decide; [|done]. rewrite bool_decide_true by (apply elem_of_app; by left). done. }
    destruct Hp as [H1 H2 H3]. split; [done|done|]. intros st' x. by rewrite H3, Hx.
  - apply orb_false_iff in E as [Es%bool_decide_eq_false Ed%bool_decide_eq_false]. cbn [snd] in *.
    assert (claimed_by (l ++ [(st, pre)]) id = None) as Hnone.
    { destruct (claimed_by _ id) eqn:Ec; [|done]. exfalso. apply Es, (pl_seen _ _ Hp), (planned_item _ _ _ Hp). by rewrite Ec. }
    assert (claimed_by (l ++ [(st, pre ++ [id])]) id = Some st) as Hid.
    { rewrite claimed_snoc in Hnone |- *. destruct (claimed_by l id); [done|].
      rewrite bool_decide_true; [done|]. apply elem_of_app. right. by left. }
    destruct Hp as [H1 H2 H3]. cbn [fst snd] in *. split; cbn [fst snd].
    + intros x. rewrite fmap_app, elem_of_union, elem_of_singleton, elem_of_app, H1. cbn. rewrite list_elem_of_singleton. tauto.
    + rewrite fmap_app. apply NoDup_app. split_and!; [done| |apply NoDup_singleton]. intros x Hx ->%list_elem_of_singleton.
      by apply Es, H1.
    + intros st' x. rewrite elem_of_app, list_elem_of_singleton, H3. destruct (decide (x = id)) as [->|Hx].
      * rewrite Hid, Hnone. naive_solver.
      * rewrite Hne by done. naive_solver.
Qed.

(** The event sweep asks for every event that some selected stratum sampled and that
    is not done, once, under the first stratum that has it, and for no other; a
    stratum whose query fails only loses its own events. *)
Theorem event_plan_exact sts :
  let todo := plan query sel n serverName done_ sts in
  NoDup (it_event <$> todo) ∧
  ∀ st id, Item st id ∈ todo ↔ claimed_by (samples sts) id = Some st ∧ id ∉ done_.
Proof using All.
  cbv zeta. assert (planned (samples sts) (foldl (λ acc st,
    if negb (chosen sel st) then acc else
    match sample query st n serverName with
    | Err _ => acc
    | Ok ids => claim done_ (Name st) ids acc
    end) ([], ∅) sts)) as [_ H2 H3]; [|done].
  induction sts as [|st sts IH] using rev_ind.
  { split; [intros id; cbn; by rewrite elem_of_empty, elem_of_nil|constructor|]. intros st id. cbn. split; [by intros ?%not_elem_of_nil|by intros [? _]]. }
  rewrite foldl_app. cbn [foldl]. set (acc := foldl _ ([], ∅) sts) in *. unfold samples. rewrite omap_app. fold (samples sts). cbn [omap list_omap].
  destruct (chosen sel st); cbn [negb]; [|by rewrite app_nil_r].
  destruct (sample query st n serverName) as [ids|]; [|by rewrite app_nil_r].
  apply (claim_planned (samples sts) (Name st) [] ids).
  destruct IH as [H1 H2 H3]. split; [done|done|]. intros st' id. rewrite H3, claimed_snoc. by destruct (claimed_by (samples sts) id).
Qed.
End event_plan.

(** The plan made once more is recorded: what it was without the recorded items. *)
Section replan.
Import EventSweep.
Context (done_ recorded : gset string).
Implicit Types (acc : list item * gset string).

Definition without acc acc' : Prop :=
  acc'.1 = filter (λ t, it_event t ∉ recorded) acc.1 ∧ ∀ id, id ∈ acc'.2 ↔ id ∈ acc.2 ∧ id ∉ recorded.

Lemma claim_without st ids acc acc' : without acc acc' →
  without (claim done_ st ids acc) (claim (done_ ∪ recorded) st ids acc').
Proof.
  revert acc acc'. induction ids as [|id ids IH]; intros [todo seen] [todo' seen'] Hw; [done|]. cbn [claim].
  destruct Hw as [Ht Hs]. cbn [fst snd] in Ht, Hs. destruct (decide (id ∈ recorded)) as [Hr|Hr].
  - rewrite (bool_decide_eq_true_2 (id ∈ done_ ∪ recorded)) by (apply elem_of_union; by right). rewrite orb_true_r.
    destruct (bool_decide (id ∈ seen) || bool_decide (id ∈ done_)); apply IH; [by split|]. split; cbn [fst snd].
    + rewrite filter_app, filter_cons_False by (intros Hn; by apply Hn). by rewrite app_nil_r.
    + intros x. rewrite Hs, elem_of_union, elem_of_singleton. split; [tauto|]. intros [[->|?] ?]; [done|by split].
  - rewrite (bool_decide_ext (id ∈ seen') (id ∈ seen)) by (rewrite Hs; tauto).
    rewrite (bool_decide_ext (id ∈ done_ ∪ recorded) (id ∈ done_)) by (rewrite elem_of_union; tauto).
    destruct (_ || _); apply IH; split; cbn [fst snd]; [done|done| |].
    + by rewrite filter_app, filter_cons_True, Ht.
    + intros x. rewrite !elem_of_union, Hs, elem_of_singleton. split; [|tauto]. intros [->|?]; tauto.
Qed.

Lemma plan_without query sel n serverName sts :
  plan query sel n serverName (done_ ∪ recorded) sts =
  filter (λ t, it_event t ∉ recorded) (plan query sel n serverName done_ sts).
Proof.
  unfold plan. set (f := λ acc st, _). set (g := λ (acc : list item * gset string) (st : stratum), _ : list item * gset string).
  assert (∀ acc acc', without acc acc' → without (foldl g acc sts) (foldl f acc' sts)) as H.
  { induction sts as [|st sts IH]; intros acc acc' Hw; [done|]. cbn [foldl]. apply IH. unfold f, g.
    destruct (chosen sel st); [|done]. cbn [negb]. destruct (sample _ _ _ _); [by apply claim_without|done]. }
  destruct (H ([], ∅) ([], ∅)) as [-> _]; [|done]. split; [done|]. cbn [snd]. set_solver.
Qed.
End replan.


(** ** What is sent is understood *)

(** [url.QueryUnescape], and [url.Values.Get] of a query string. *)
Fixpoint QueryUnescape (s : string) : option string :=
  match s with
  | EmptyString => Some EmptyString
  | String "+" s => String " " <$> QueryUnescape s
  | String "%" s =>
      match s with
      | String a (String b s) =>
          match hex_val a, hex_val b with
          | Some x, Some y => String (Utf8.chr (16 * x + y)) <$> QueryUnescape s
          | _, _ => None
          end
      | _ => None
      end
  | String a s => String a <$> QueryUnescape s
  end.
Definition query_get (key raw : string) : string :=
  default EmptyString (head (omap (λ kv,
    if contains_byte ";"%char kv then None else
    let '(k, v, _) := cut "="%char kv in
    k ← QueryUnescape k; v ← QueryUnescape v; if bool_decide (k = key) then Some v else None) (Split "&"%char raw))).

(** The bytes of an escaped text. *)
Lemma escape_bytes (safe : ascii → bool) c s : safe c = false → is_hex c = false → c ≠ "%"%char → contains_byte c (escape safe s) = false.
Proof.
  intros Hs Hh Hp. assert (∀ z, 0 ≤ z < 16 → Route.hex_digit z ≠ c) as Hd.
  { intros z Hz E. unfold is_hex in Hh. rewrite <-E, hex_round in Hh by done. done. }
  induction s as [|a s IH]; [done|]. cbn [escape]. pose proof (byte_range a) as Hb. destruct (safe a) eqn:Ha; cbn [contains_byte].
  - rewrite IH, orb_false_r. apply bool_decide_false. intros ->. congruence.
  - rewrite IH, orb_false_r. rewrite (bool_decide_false ("%"%char = c)) by done.
    rewrite !(bool_decide_false (Route.hex_digit _ = c)); [done|..]; apply Hd.
    + pose proof (Z.mod_pos_bound (Utf8.byte a) 16). lia.
    + split; [apply Z.div_pos; lia|apply Z.div_lt_upper_bound; lia].
Qed.

Lemma plus_bytes c s : unreserved c = false → is_hex c = false → c ≠ "%"%char → c ≠ "+"%char → contains_byte c (plus_spaces s) = false.
Proof.
  intros Hs Hh Hp Hplus. induction s as [|a s IH]; [done|]. cbn [plus_spaces]. case_bool_decide.
  - cbn [contains_byte]. rewrite IH, orb_false_r. by apply bool_decide_false.
  - by rewrite contains_byte_app, IH, escape_bytes.
Qed.

Lemma unescape_byte a t : a ≠ " "%char →
  QueryUnescape (escape unreserved (String a EmptyString) +:+ t) = String a <$> QueryUnescape t.
Proof. intros Ha. destruct a as [[] [] [] [] [] [] [] []]; first [reflexivity|by destruct Ha]. Qed.
Lemma unescape_plus s : QueryUnescape (plus_spaces s) = Some s.
Proof.
  induction s as [|a s IH]; [done|]. cbn [plus_spaces]. case_bool_decide as Ha.
  - subst a. change (String " " <$> QueryUnescape (plus_spaces s) = Some (String " " s)). by rewrite IH.
  - rewrite unescape_byte by done. by rewrite IH.
Qed.

Lemma query_get_one key s : contains_byte "="%char key = false → contains_byte "&"%char key = false →
  contains_byte ";"%char key = false → QueryUnescape key = Some key →
  query_get key (key +:+ String "=" (QueryEscape s)) = s.
Proof.
  intros H1 H2 H3 Hk. unfold query_get, QueryEscape.
  assert (∀ c, c ∈ ["&"; ";"; "="]%char → contains_byte c (plus_spaces s) = false) as Hb.
  { intros c Hc. rewrite !elem_of_cons in Hc. destruct Hc as [->|[->|[->|[]%not_elem_of_nil]]]; by apply plus_bytes. }
  rewrite Split_one.
  - cbn [omap list_omap]. rewrite contains_byte_app, H3. cbn [orb contains_byte]. rewrite Hb by (right; left).
    change (bool_decide ("="%char = ";"%char)) with false. cbn [orb].
    rewrite cut_sep by done. rewrite Hk. cbn [mbind option_bind]. rewrite unescape_plus. cbn [mbind option_bind].
    by rewrite bool_decide_true.
  - rewrite contains_byte_app, H2. cbn [orb contains_byte]. rewrite Hb by left. done.
Qed.

(** The body of a /get_missing_events request is read back. *)
Lemma ask_body_read t limit : valid_utf8 (tg_Earliest t) = true → valid_utf8 (tg_Latest t) = true → - 2 ^ 63 ≤ limit ≤ max_int64 →
  parse_missing_events (ask_body t limit) = Some (MER_ [tg_Earliest t] [tg_Latest t] (Some limit)).
Proof.
  intros He Hl Hn. unfold parse_missing_events, ask_body.
  set (ve := JArr (str_values [tg_Earliest t])). set (vl := JArr (str_values [tg_Latest t])).
  rewrite (top_object 1 _ [ve; vl; JNum (print_int limit)]);
    [|constructor; [apply (prints_strings [_])|constructor; [apply (prints_strings [_])|constructor; [|constructor]]];
      eapply prints_weaken; [apply prints_int|lia]|unfold max_depth; lia].
  pose proof (strings_field_printed [tg_Earliest t] ltac:(by repeat constructor)) as Ee.
  pose proof (strings_field_printed [tg_Latest t] ltac:(by repeat constructor)) as El. fold ve in Ee. fold vl in El.
  cbn [fmap list_fmap] in Ee, El. cbn [mbind option_bind zip_with fst snd].
  set (te := print_array [encode_string (tg_Earliest t)]) in *. set (tl := print_array [encode_string (tg_Latest t)]) in *.
  assert (∀ x y z : json * string, let ms := [(escaped "earliest_events", x); (escaped "latest_events", y); (escaped "limit", z)] in
    Struct.occurrences request_fields "earliest_events" ms = [x] ∧ Struct.occurrences request_fields "latest_events" ms = [y] ∧
    Struct.occurrences request_fields "limit" ms = [z]) as Hf by done.
  destruct (Hf (ve, te) (vl, tl) (JNum (print_int limit), print_int limit)) as (-> & -> & ->).
  rewrite Ee, El. cbn [mbind option_bind int_ptr_field]. rewrite print_int_parse by done. done.
Qed.

(** What the tools send is what was signed, and the worker understands it: the
    signature covers the method, URI and body sent; the path of each request is routed
    to its endpoint and decodes to the identifier asked about, whatever bytes that has;
    the query of a /state request gives back its event, and the body of a
    /get_missing_events request its two events and its limit. *)
Theorem requests_understood SignJSON parses serverName base id room event t limit o :
  (id ≠ EmptyString → askEvent SignJSON parses serverName base id = Ok o →
     ∃ uri r, og_URL o = base +:+ uri ∧ og_Body o = None ∧
       SignJSON (MkSignable (og_Method o) uri serverName serverName None) = Ok (og_Signature o) ∧
       Match uri = Some r ∧ Endpoint_ r = EndpointEvent ∧ ∀ query, eventIDFor r query = id) ∧
  (room ≠ EmptyString → askState SignJSON parses serverName base room event = Ok o →
     ∃ uri path query r, og_URL o = base +:+ uri ∧ og_Body o = None ∧
       SignJSON (MkSignable (og_Method o) uri serverName serverName None) = Ok (og_Signature o) ∧
       cut "?"%char uri = (path, query, true) ∧ Match path = Some r ∧ Endpoint_ r = EndpointState ∧
       roomIDFor r = room ∧ eventIDFor r (query_get "event_id" query) = event) ∧
  (tg_Room t ≠ EmptyString → valid_utf8 (tg_Earliest t) = true → valid_utf8 (tg_Latest t) = true → - 2 ^ 63 ≤ limit ≤ max_int64 →
   ask SignJSON parses serverName t limit = Ok o →
     ∃ uri r body, og_URL o = "http://gopro-worker" +:+ uri ∧ og_Body o = Some body ∧
       SignJSON (MkSignable (og_Method o) uri serverName serverName (Some body)) = Ok (og_Signature o) ∧
       Match uri = Some r ∧ Endpoint_ r = EndpointGetMissingEvents ∧ roomIDFor r = tg_Room t ∧
       parse_missing_events body = Some (MER_ [tg_Earliest t] [tg_Latest t] (Some limit))).
Proof.
  assert (∀ m b uri c, signed SignJSON parses m b uri serverName c = Ok o → og_URL o = b +:+ uri ∧ og_Body o = c ∧
    SignJSON (MkSignable (og_Method o) uri serverName serverName c) = Ok (og_Signature o)) as Hsig.
  { intros m b uri c. unfold signed. destruct (SignJSON _) as [sig|e] eqn:E; [|done].
    destruct (negb _); [done|]. intros [= <-]. done. }
  assert (∀ e i, e ≠ EndpointUnknown → i ≠ EmptyString →
    ∃ r, Match (prefix_of e +:+ PathEscape i) = Some r ∧ Endpoint_ r = e ∧ DecodeParam (Param r) = i) as Hroute.
  { intros e i He Hi. unfold PathEscape. rewrite <-(app_nil_str (escape _ i)). apply Match_escaped; by auto. }
  split_and!.
  - intros Hid (Hu & Hb & Hs)%Hsig. destruct (Hroute EndpointEvent id) as (r & Hr & He & Hi); [done|done|].
    eexists _, r. split_and!; [exact Hu|done|exact Hs|exact Hr|done|]. intros q. unfold eventIDFor. by rewrite He, bool_decide_true.
  - intros Hid (Hu & Hb & Hs)%Hsig. destruct (Hroute EndpointState room) as (r & Hr & He & Hi); [done|done|].
    eexists _, _, _, r. split_and!; [exact Hu|done|exact Hs| |exact Hr|done| |].
    + rewrite app_assoc_str. apply (cut_sep "?"%char _ ("event_id=" +:+ QueryEscape event)).
      rewrite contains_byte_app. unfold PathEscape. rewrite escape_bytes by done. done.
    + unfold roomIDFor. by rewrite He.
    + unfold eventIDFor. rewrite He. apply (query_get_one "event_id"); done.
  - intros Hid Hve Hvl Hn (Hu & Hb & Hs)%Hsig. destruct (Hroute EndpointGetMissingEvents (tg_Room t)) as (r & Hr & He & Hi); [done|done|].
    eexists _, r, _. split_and!; [exact Hu|exact Hb|exact Hs|exact Hr|done| |by apply ask_body_read].
    unfold roomIDFor. by rewrite He.
Qed.

(** ** Which rooms are swept *)
Definition least_of (P : string → Prop) (x : string) : Prop := P x ∧ ∀ y, P y → str_le x y.

Lemma least_iff l x : GmeSweep.least l = Some x ↔ least_of (λ y, y ∈ l) x.
Proof.
  unfold GmeSweep.least. assert (∀ y, y ∈ sort_strings l ↔ y ∈ l) as Hin.
  { intros y. unfold sort_strings. by rewrite (merge_sort_Permutation str_le l). }
  assert (StronglySorted str_le (sort_strings l)) as Hs by (apply Sorted_StronglySorted, Sorted_merge_sort; apply _).
  destruct (sort_strings l) as [|z zs] eqn:E; cbn [head].
  - split; [done|]. intros [Hx _]. apply Hin in Hx. by apply not_elem_of_nil in Hx.
  - assert (least_of (λ y, y ∈ l) z) as Hz.
    { split; [apply Hin; left|]. intros y Hy%Hin. apply elem_of_cons in Hy as [->|Hy]; [destruct (total str_le z z); done|].
      apply StronglySorted_inv in Hs as [_ Hall]. rewrite Forall_forall in Hall. by apply Hall. }
    split; [by intros [= <-]|]. intros [Hx Hmin]. f_equal. apply (anti_symm str_le); [apply Hz, Hx|apply Hmin, Hz].
Qed.
Lemma least_some l x : x ∈ l → is_Some (GmeSweep.least l).
Proof.
  intros Hx. unfold GmeSweep.least. destruct (sort_strings l) eqn:E; [|by eexists].
  assert (x ∈ sort_strings l) as Hin by (unfold sort_strings; by rewrite (merge_sort_Permutation str_le l)).
  rewrite E in Hin. by apply not_elem_of_nil in Hin.
Qed.
Lemma least_of_ext (P Q : string → Prop) x : (∀ y, P y ↔ Q y) → least_of P x ↔ least_of Q x.
Proof. intros H. unfold least_of. rewrite H. by setoid_rewrite H. Qed.

Section targets.
Import GmeSweep.
Variable extremities : list (string * string).
Variable d : DB.

(** [b] is [n] steps behind [a]. *)
Inductive hops : nat → string → string → Prop :=
| hops_0 a : hops 0 a a
| hops_S n a b e : hops n a b → e ∈ Db.event_edges d → Db.ed_event e = b → Db.ed_is_state e = false → hops (S n) a (Db.ed_prev e).

Lemma events_of_in room e : e ∈ events_of extremities room ↔ (room, e) ∈ extremities.
Proof.
  unfold events_of. rewrite list_elem_of_fmap. split.
  - intros ([r x] & -> & [Hr Hin]%list_elem_of_filter). cbn in Hr. by subst.
  - intros Hin. exists (room, e). split; [done|]. by apply list_elem_of_filter.
Qed.

Lemma tips_iff t : t ∈ tips extremities ↔ least_of (λ e, (t.1, e) ∈ extremities) t.2.
Proof.
  unfold tips. rewrite list_elem_of_omap. split.
  - intros (room & _ & Ht). destruct (least _) as [e|] eqn:E; [|done]. injection Ht as <-. apply least_iff in E.
    by eapply least_of_ext; [|exact E]; intros y; rewrite events_of_in.
  - intros Hl. exists t.1. split.
    + unfold sort_strings. rewrite (merge_sort_Permutation str_le), elem_of_remove_dups, list_elem_of_fmap.
      destruct Hl as [Hin _]. by exists (t.1, t.2).
    + assert (least (events_of extremities t.1) = Some t.2) as ->; [|by destruct t].
      apply least_iff. eapply least_of_ext; [|exact Hl]. intros y. by rewrite events_of_in.
Qed.

Lemma tips_rooms : NoDup (tips extremities).*1.
Proof.
  unfold tips. assert (NoDup (sort_strings (remove_dups extremities.*1))) as Hnd
    by (unfold sort_strings; rewrite (merge_sort_Permutation str_le); apply NoDup_remove_dups).
  induction Hnd as [|r l Hr Hnd IH]; [constructor|]. cbn [omap list_omap]. destruct (least _); cbn; [|done].
  constructor; [|done]. rewrite list_elem_of_fmap. intros ([r' e] & -> & (x & Hx & E)%list_elem_of_omap).
  destruct (least (events_of extremities x)); [|done]. cbn in E. injection E as <- _. done.
Qed.

Lemma back_iff n t c : (t, c) ∈ back extremities d n ↔ t ∈ tips extremities ∧ hops n t.2 c.
Proof.
  revert c. induction n as [|n IH]; intros c; cbn [back].
  - rewrite list_elem_of_fmap. split.
    + intros ([r x] & [= -> ->] & Hin). split; [done|constructor].
    + intros [Hin Hh]. inversion Hh; subst. exists t. by destruct t.
  - rewrite list_elem_of_bind. split.
    + intros ([t' b] & (e & [= -> ->] & [[Hb Hs] He]%list_elem_of_filter)%list_elem_of_fmap & Hin). cbn in *.
      apply IH in Hin as [Ht Hh]. split; [done|]. by econstructor.
    + intros [Ht Hh]. inversion Hh as [|? ? b e Hb He Hev Hs]; subst. exists (t, Db.ed_event e). split.
      * apply list_elem_of_fmap. exists e. split; [done|]. by apply list_elem_of_filter.
      * by apply IH.
Qed.

(** The /get_missing_events sweep asks, for each room that has one, about its least
    forward extremity and the least event exactly [depth] hops behind it, and for no
    other: a room without such an event is left out, and no room is asked about twice. *)
Theorem targets_exact depth :
  NoDup (tg_Room <$> loadTargets extremities d depth) ∧
  ∀ room latest earliest, MkTarget room latest earliest ∈ loadTargets extremities d depth ↔
    0 ≤ depth ∧ least_of (λ e, (room, e) ∈ extremities) latest ∧ least_of (hops (Z.to_nat depth) latest) earliest.
Proof.
  unfold loadTargets. case_bool_decide as Hd.
  { split; [constructor|]. intros room latest earliest. split; [by intros ?%not_elem_of_nil|lia]. }
  set (n := Z.to_nat depth). assert (∀ t e, t ∈ tips extremities →
    least (filter (λ b, b.1 = t) (back extremities d n)).*2 = Some e ↔ least_of (hops n t.2) e) as Hmin.
  { intros t e Ht. rewrite least_iff. apply least_of_ext. intros y. rewrite list_elem_of_fmap. split.
    - intros ([t' c] & -> & [E Hin]%list_elem_of_filter). cbn in E. subst. by apply back_iff in Hin as [_ Hh].
    - intros Hh. exists (t, y). split; [done|]. apply list_elem_of_filter. split; [done|]. by apply back_iff. }
  split.
  - pose proof tips_rooms as Hnd. induction (tips extremities) as [|t l IH]; [constructor|]. cbn [fmap list_fmap omap list_omap] in *.
    apply NoDup_cons in Hnd as [Ht Hnd]. assert (∀ t e, t ∈ l →
      least (filter (λ b, b.1 = t) (back extremities d n)).*2 = Some e ↔ least_of (hops n t.2) e) as Hmin' by (intros; apply Hmin; by right).
    destruct (least _); cbn; [|by apply IH]. constructor; [|by apply IH]. rewrite list_elem_of_fmap.
    intros ([r a b] & E & (t' & Hin & Ht')%list_elem_of_omap). destruct (least (filter _ _).*2) in Ht'; [|done]. injection Ht' as <- <- <-.
    cbn in E. apply Ht. rewrite E. by apply list_elem_of_fmap_2.
  - intros room latest earliest. rewrite list_elem_of_omap. split.
    + intros (t & Ht & E). destruct (least (filter _ _).*2) as [e|] eqn:Em; [|done]. injection E as <- <- <-.
      split; [lia|]. split; [by apply tips_iff|by apply Hmin].
    + intros (_ & Hl & He). exists (room, latest). assert ((room, latest) ∈ tips extremities) as Ht by (by apply tips_iff).
      split; [done|]. apply (Hmin (room, latest) earliest Ht) in He. by rewrite He.
Qed.
End targets.

Section rooms.
Import StateSweep.
Variable extremities : list (string * string).
Variable d : DB.

(** The /state sweep takes the rooms with current state, an extremity and a row of
    their own whose count is within the bounds, each once, by growing count.  The count
    is of the rows of the join, not of state events ([counts_the_join]). *)
Theorem rooms_exact minState maxState :
  let rooms := loadRooms extremities d minState maxState in
  Sorted smaller rooms ∧ NoDup (ID <$> rooms) ∧
  ∀ r, r ∈ rooms ↔ StateEvents r = joined_rows extremities d (ID r) ∧ 0 < StateEvents r ∧ minState ≤ StateEvents r ∧
    (maxState = 0 ∨ StateEvents r ≤ maxState) ∧ least_of (λ e, (ID r, e) ∈ extremities) (EventID r).
Proof.
  cbv zeta. unfold loadRooms. set (f := λ r, _). set (names := remove_dups _).
  assert (∀ r x, f r = Some x → ID x = r ∧ StateEvents x = joined_rows extremities d (ID x) ∧ 0 < StateEvents x ∧ minState ≤ StateEvents x ∧
    (maxState = 0 ∨ StateEvents x ≤ maxState) ∧ least_of (λ e, (ID x, e) ∈ extremities) (EventID x)) as Hf.
  { intros r x. unfold f. cbv zeta. destruct (_ && _) eqn:E; [|done]. destruct (GmeSweep.least _) as [e|] eqn:El; [|done]. intros [= <-].
    rewrite !andb_true_iff, orb_true_iff, !bool_decide_eq_true in E. cbn. split_and!; [done|done|tauto..|].
    apply least_iff in El. eapply least_of_ext; [|exact El]. intros y. by rewrite events_of_in. }
  split_and!.
  - apply Sorted_merge_sort. intros a b. unfold smaller. lia.
  - rewrite (merge_sort_Permutation smaller). assert (NoDup names) as Hnd by apply NoDup_remove_dups.
    induction Hnd as [|r l Hr Hnd IH]; [constructor|]. cbn [omap list_omap]. destruct (f r) as [x|] eqn:Ex; [|done].
    cbn [fmap list_fmap]. constructor; [|done]. apply Hf in Ex as [Ex _]. rewrite Ex, list_elem_of_fmap.
    intros (y & -> & (r' & Hin & Hy)%list_elem_of_omap). apply Hf in Hy as [<- _]. done.
  - intros r. rewrite (merge_sort_Permutation smaller), list_elem_of_omap. split.
    + intros (n & _ & Hn). by apply Hf in Hn as [_ Hn].
    + intros (Hc & Hpos & Hmin & Hmax & Hl). exists (ID r). split.
      * unfold names. rewrite elem_of_remove_dups. rewrite Hc in Hpos. unfold joined_rows in Hpos.
        destruct (filter (λ c, Db.cs_room c = ID r) (Db.current_state_events d)) as [|c l] eqn:E; [cbn in Hpos; lia|].
        assert (c ∈ filter (λ c, Db.cs_room c = ID r) (Db.current_state_events d)) as [Hr Hin]%list_elem_of_filter by (rewrite E; left).
        rewrite <-Hr. by apply list_elem_of_fmap_2.
      * unfold f. cbv zeta. rewrite <-Hc. rewrite !bool_decide_true by done.
        assert (bool_decide (maxState = 0) || bool_decide (StateEvents r ≤ maxState) = true) as ->
          by (rewrite orb_true_iff, !bool_decide_eq_true; tauto). cbn [andb].
        assert (GmeSweep.least (GmeSweep.events_of extremities (ID r)) = Some (EventID r)) as ->; [|by destruct r].
        apply least_iff. eapply least_of_ext; [|exact Hl]. intros y. by rewrite events_of_in.
Qed.
End rooms.

(** ** What the comments promise and the queries do not *)
Module Shapes.
Local Open Scope string_scope.
(** [$t] has two prev events, [$a] and [$b], each with a past of its own. *)
Definition event (id : string) (n : Z) : Db.event_row := Db.EventRow id "!r" "m.room.message" None "@u:h" false n.
Definition edges : list Db.edge_row :=
  [Db.EdgeRow "$t" "$a" false; Db.EdgeRow "$t" "$b" false; Db.EdgeRow "$a" "$a1" false;
   Db.EdgeRow "$b" "$b1" false; Db.EdgeRow "$b1" "$b2" false; Db.EdgeRow "$b2" "$b3" false].
Definition cse (key : string) : Db.cse_row := Db.CseRow "!r" "m.room.member" key key (Some "join").
Definition db : DB :=
  Db.MkDb [event "$a1" 1; event "$b3" 2; event "$b2" 3; event "$b1" 4; event "$a" 5; event "$b" 6; event "$t" 7]
    [] [Db.RoomRow "!r" (Some "10") None] [] [] edges [] [] [] [] [] [cse "@u:h"; cse "@v:h"] [] [] [] [] [].
Definition world : world := MkWorld (λ _, Ok db) (λ _, false) 50 0 (newCaches Settings.DefaultSettings) Trace.WithTrace.
End Shapes.

(** Naming one ancestor does not make the walk complete: beside the branch it is on,
    every other branch is walked to the limit, and the comparison is then skipped as
    truncated. *)
Theorem named_ancestor_does_not_complete :
  GmeSweep.loadTargets [("!r", "$t")]%string Shapes.db 2 = [MkTarget "!r" "$t" "$a1"] ∧
  (MissingEvents.GetMissingEvents "!r" ["$a1"]%string ["$t"]%string 4 Shapes.world).1 = Ok (["$b2"; "$b1"; "$b"; "$a"]%string, true).
Proof. split; vm_compute; reflexivity. Qed.

(** The same two state events count double where the room has two forward extremities,
    and an upper bound of three then leaves the room out. *)
Theorem counts_the_join :
  StateSweep.loadRooms [("!r", "$t")]%string Shapes.db 0 3 = [StateSweep.MkRoom "!r" "$t" 2] ∧
  StateSweep.loadRooms [("!r", "$t"); ("!r", "$s")]%string Shapes.db 0 0 = [StateSweep.MkRoom "!r" "$s" 4] ∧
  StateSweep.loadRooms [("!r", "$t"); ("!r", "$s")]%string Shapes.db 0 3 = [].
Proof. split_and!; vm_compute; reflexivity. Qed.

(** A torn line can be the name of another room, which is then taken for done. *)
Theorem torn_line_marks_another :
  loadProgress "p" (record_ (Some "p"%string) "!a:h.com" (Some 7%nat) ∅) = {["!a:h.co"]}%string.
Proof. vm_compute. reflexivity. Qed.

Module SweepWitness.
Local Open Scope string_scope.
Import StateSweep.
Definition fs : files := {["p" := "!a" +:+ String eol EmptyString]}.
Definition rooms : list room := [MkRoom "!a" "$a" 1; MkRoom "!b" "$b" 2; MkRoom "!c" "$c" 3; MkRoom "!d" "$d" 4; MkRoom "!e" "$e" 5].
(** The second request fails; the process is killed on its third. *)
Definition fate (i : nat) : moment := if bool_decide (i = 2%nat) then Killed else Goes.
Definition send {T} (i : nat) (_ : T) : result error Z := if bool_decide (i = 1%nat) then Err (ErrText "timeout") else Ok 403%Z.
Definition after : list (room * result error Z * bool) * (Z * Z) * files :=
  match sweep_rooms fate send (λ _, None) "p" true false rooms 0 fs with Some r => r | None => ([], (0, 0), ∅) end.
Definition query (st : string) (_ : list string) : result error (list string) :=
  if bool_decide (st = "redacted") then Ok ["$x"; "$y"; "$z"] else Err (ErrText "timeout").
Definition events : list (EventSweep.item * result error Z * bool) * gmap string (gmap Z Z) * files :=
  match EventSweep.sweep_events reverse fate send (λ _, None) "p" true false query "" 3 "h" fs with
  | Some r => r | None => ([], ∅, ∅) end.
Definition next (fs : files) : list string :=
  EventSweep.it_event <$> EventSweep.plan query (EventSweep.selected "") 3 "h" (loadProgress "p" fs) EventSweep.strata.
End SweepWitness.


Lemma requests_understood_witness :
  ∃ uri path query r, cut "?"%char uri = (path, query, true) ∧ Match path = Some r ∧ roomIDFor r = "!a/b:h"%string ∧
    eventIDFor r (query_get "event_id" query) = "$x +&"%string.
Proof.
  destruct (requests_understood (λ _, Ok "sig"%string) (λ _, true) "h" "http://h" EmptyString "!a/b:h" "$x +&" (MkTarget EmptyString EmptyString EmptyString) 0
    (MkOutgoing "GET" "http://h/_matrix/federation/v1/state/%21a%2Fb:h?event_id=%24x+%2B%26" "h" "sig" false None))
    as (_ & Hs & _).
  destruct Hs as (uri & path & query & r & _ & _ & _ & H1 & H2 & _ & H3 & H4).
  - discriminate.
  - vm_compute. reflexivity.
  - exists uri, path, query, r. exact (conj H1 (conj H2 (conj H3 H4))).
Defined.
