(* ===== verification/Strata.v ===== *)
(** * [cmd/eventsweep]: what its strata hold

    The queries of the event sweep, each a set of identifiers of which the database
    returns some: [LIMIT] without an order, [ORDER BY random()] and [TABLESAMPLE] leave
    open which.  The table of memberships, which no query of [Store] reads, is an
    argument. *)
From S2P Require Import Prelude Cache Json Store AuthChain StateGroups MissingEvents External Events Acl Pducmp Wire Digest Resolver Access Served Printed Config Route Native Sweep.

Open Scope list_scope.
Open Scope Z_scope.

(** ** Text functions of SQL *)

(** What follows the first [delim]. *)
Fixpoint after (delim s : string) : option string :=
  if has_prefix s delim then Some (drop_str (String.length delim) s)
  else match s with EmptyString => None | String _ s => after delim s end.
Fixpoint upto (c : ascii) (s : string) : string :=
  match s with
  | EmptyString => EmptyString
  | String a s => if bool_decide (a = c) then EmptyString else String a (upto c s)
  end.
(** The first part by the quote of the second part by [delim], which begins with a quote. *)
Definition quoted_after (delim s : string) : string := default EmptyString (upto quote <$> after delim s).

Section queries.
Variable d : DB.
Variable room_memberships : list (string * string * string).   (* event, user, membership *)

(** ** [invisible] *)
Definition hv : list (string * string) :=
  Db.events d ≫= λ e,
    if bool_decide (Db.ev_type e = "m.room.history_visibility"%string) then
      (λ j, (Db.ev_room e, quoted_after (js "'history_visibility':'") (Db.ej_json j))) <$>
        filter (λ j, Db.ej_id j = Db.ev_id e) (Db.event_json d)
    else [].
Definition restrictive (room : string) : bool :=
  bool_decide (room ∈ hv.*1) &&
  bool_decide (Forall (λ r, r.1 = room → r.2 ∉ ["shared"; "world_readable"]%string) hv).

(** The stream positions of the joins of the server's users. *)
Definition joins (server room : string) : list Z :=
  Db.events d ≫= λ e,
    if bool_decide (Db.ev_room e = room) then
      (λ _, Db.ev_stream e) <$>
        filter (λ m, m.1.1 = Db.ev_id e ∧ like ("%:" +:+ server) m.1.2 = true ∧ m.2 = "join"%string) room_memberships
    else [].
Definition minimum (l : list Z) : option Z :=
  match l with [] => None | x :: l => Some (foldr Z.min x l) end.
Definition firstjoin (server room : string) : option Z :=
  if restrictive room then minimum (joins server room) else None.

(** At most [n] rows of a partition, those with the greatest stream position. *)
Definition newest {K} `{EqDecision K} (part : Db.event_row → option K) (n : nat) (l : list Db.event_row) : list Db.event_row :=
  filter (λ e, (length (filter (λ x, part x = part e ∧ (Db.ev_stream e < Db.ev_stream x)%Z) l) < n)%nat) l.

Definition before_presence (server : string) (e : Db.event_row) : bool :=
  match firstjoin server (Db.ev_room e) with Some so => bool_decide (Db.ev_stream e < so) | None => false end.
Definition invisible (server : string) : list string :=
  Db.ev_id <$> newest (λ e, Some (Db.ev_room e)) 10 (filter (λ e, before_presence server e = true) (Db.events d)).

(** ** The others *)
Definition redacted_ : list string := omap Db.rd_redacts (Db.redactions d).
Definition ban_redacted : list string :=
  Db.room_ban_redactions d ≫= λ b,
    Db.ev_id <$> filter (λ e, Db.ev_room e = Db.bn_room b ∧ Db.ev_sender e = Db.bn_user b ∧ Db.ev_type e ≠ "m.room.create"%string)
                   (Db.events d).
Definition rejected : list string := (Db.rejections d).*1.
Definition outlier : list string := Db.ev_id <$> filter (λ e, Db.ev_outlier e = true) (Db.events d).
Definition erased : list string :=
  Db.erased_users d ≫= λ u, Db.ev_id <$> filter (λ e, Db.ev_sender e = u) (Db.events d).
Definition version_of (room : string) : option string :=
  r ← head (filter (λ r, Db.rm_id r = room) (Db.rooms d)); Db.rm_version r.
Definition rare (e : Db.event_row) : bool :=
  match version_of (Db.ev_room e) with Some v => bool_decide (v ∈ ["1"; "2"; "3"; "4"; "7"; "12"]%string) | None => false end.
Definition rare_room_version : list string :=
  Db.ev_id <$> newest (λ e, version_of (Db.ev_room e)) 60 (filter (λ e, rare e = true) (Db.events d)).
Definition create_events : list string := Db.ev_id <$> filter (λ e, Db.ev_type e = "m.room.create"%string) (Db.events d).
Definition state_events : list string := Db.ev_id <$> filter (λ e, is_Some (Db.ev_state_key e)) (Db.events d).
Definition random : list string := Db.ev_id <$> Db.events d.

Definition population (server : string) (st : string) : list string :=
  if bool_decide (st = "invisible"%string) then invisible server
  else if bool_decide (st = "redacted"%string) then redacted_
  else if bool_decide (st = "ban_redacted"%string) then ban_redacted
  else if bool_decide (st = "rejected"%string) then rejected
  else if bool_decide (st = "outlier"%string) then outlier
  else if bool_decide (st = "erased"%string) then erased
  else if bool_decide (st = "rare_room_version"%string) then rare_room_version
  else if bool_decide (st = "create_events"%string) then create_events
  else if bool_decide (st = "state_events"%string) then state_events
  else if bool_decide (st = "random"%string) then random
  else [].
End queries.

(** ** The plan draws from its strata *)
Section drawn.
Variable d : DB.
Variable room_memberships : list (string * string * string).
Variable query : string → list string → result error (list string).
Variable n : Z.
Variable serverName : string.
Notation population := (population d room_memberships serverName).

(** What the database may answer: some of a population, at most [n]. *)
Hypothesis Hquery : ∀ st ids, EventSweep.sample query st n serverName = Ok ids →
  (∀ id, id ∈ ids → id ∈ population (EventSweep.Name st)) ∧ Z.of_nat (length ids) ≤ n.

Lemma claimed_sample sel sts id st : claimed_by (samples query sel n serverName sts) id = Some st →
  st ∈ EventSweep.Name <$> sts ∧ id ∈ population st.
Proof using Hquery.
  unfold claimed_by, samples. intros Hc. destruct (List.find _ _) as [[st' ids]|] eqn:E; [|done]. injection Hc as ->.
  apply find_some in E as [Hin Hid]. apply bool_decide_eq_true in Hid. cbn [snd] in Hid.
  apply list_elem_of_In, list_elem_of_omap in Hin as (s & Hs & Hin). destruct (EventSweep.chosen sel s); [|done].
  destruct (EventSweep.sample query s n serverName) as [ids'|] eqn:Es; [|done]. injection Hin as <- <-.
  split; [apply list_elem_of_fmap; by exists s|]. by apply (Hquery s ids' Es).
Qed.

(** Whatever the database draws, an event is asked for under a stratum it belongs to. *)
Theorem plan_stratified sel done_ st id :
  EventSweep.Item st id ∈ EventSweep.plan query sel n serverName done_ EventSweep.strata →
  st ∈ EventSweep.Name <$> EventSweep.strata ∧ id ∈ population st ∧ id ∉ done_.
Proof using Hquery.
  intros Hin. apply (proj2 (event_plan_exact query sel n serverName done_ EventSweep.strata)) in Hin as [Hc Hn].
  destruct (claimed_sample _ _ _ _ Hc). done.
Qed.
End drawn.

(** ** What [invisible] selects *)
Lemma minimum_le l so x : minimum l = Some so → x ∈ l → so ≤ x.
Proof.
  destruct l as [|y l]; [done|]. intros [= <-]. rewrite elem_of_cons. revert x. induction l as [|z l IH]; intros x Hx; cbn [foldr].
  - destruct Hx as [->|Hx]; [lia|by apply not_elem_of_nil in Hx].
  - destruct Hx as [->|Hx]; [pose proof (IH y (or_introl eq_refl)); lia|]. apply elem_of_cons in Hx as [->|Hx]; [lia|].
    pose proof (IH x (or_intror Hx)). lia.
Qed.

Section hidden.
Context (d : DB) (room_memberships : list (string * string * string)).

(** The state before an event consists of earlier events of its room, and the joins among
    its members are in the table of memberships. *)
Record in_order (e : Db.event_row) (g : Z) : Prop := {
  or_earlier : ∀ k id, at_group d g !! k = Some id →
    ∃ x, x ∈ Db.events d ∧ Db.ev_id x = id ∧ Db.ev_room x = Db.ev_room e ∧ Db.ev_stream x < Db.ev_stream e;
  or_members : ∀ user id ev, at_group d g !! SK "m.room.member" user = Some id → raw_event d id = Some ev →
    membershipOf (JSON ev) = "join"%string → (id, user, "join"%string) ∈ room_memberships }.

Lemma newest_sub {K} `{EqDecision K} (part : Db.event_row → option K) n l e : e ∈ newest part n l → e ∈ l.
Proof using Type. by intros [_ ?]%list_elem_of_filter. Qed.

(** What the stratum is for: where the tables are in order, no user of the server had joined
    at an event it selects, so that where only joined members may see the history, the
    server is not shown it. *)
Theorem invisible_hidden server e ev g :
  no_specials (":" +:+ server) → server ≠ EmptyString →
  e ∈ newest (λ e, Some (Db.ev_room e)) 10 (filter (λ e, before_presence d room_memberships server e = true) (Db.events d)) →
  EventID ev = Db.ev_id e → event_group d (Db.ev_id e) = Some g → in_order e g →
  ¬ had_member d ev server MembershipJoin ∧
  ∀ sender localServer partial, visibility_at d ev = HistoryVisibilityJoined → ¬ visible_to d ev sender server localServer partial.
Proof using Type.
  intros Hsp Hne He Hid Hg [Hearly Hmem].
  assert (¬ had_member d ev server MembershipJoin) as Hno.
  { intros (_ & g' & user & id & x & Hg' & Hk & Hdom & Hx & Hm). rewrite Hid, Hg in Hg'. injection Hg' as <-.
    apply newest_sub, list_elem_of_filter in He as [Hb _]. unfold before_presence, firstjoin in Hb.
    destruct (restrictive d (Db.ev_room e)); [|done]. destruct (minimum _) as [so|] eqn:Eso; [|done].
    apply bool_decide_eq_true in Hb. destruct (Hearly _ _ Hk) as (r & Hr & Hrid & Hroom & Hlt).
    assert (so ≤ Db.ev_stream r); [|lia]. eapply minimum_le; [exact Eso|]. unfold joins. apply list_elem_of_bind.
    exists r. split; [|done]. rewrite bool_decide_true by done. apply list_elem_of_fmap.
    exists (id, user, "join"%string). split; [done|]. apply list_elem_of_filter. split; [|by apply (Hmem user id x)].
    cbn [fst snd]. rewrite Hrid. split; [done|]. split; [|done].
    change ("%:" +:+ server) with (String "%" (":" +:+ server)). rewrite like_suffix by done. by apply domain_suffix. }
  split; [done|]. intros sender localServer partial Hv (_ & _ & [Hr|[Hj|[Hi _]]]); [|done|].
  - rewrite Hv in Hr. done.
  - rewrite Hv in Hi. done.
Qed.
End hidden.

(** ** A concrete room *)
Module StrataWitness.
Local Open Scope string_scope.
Definition event (id ty : string) (key : option string) (n : Z) : Db.event_row := Db.EventRow id "!r" ty key "@u:h" false n.
(** [o]'s user joins last; at the creation there is no history visibility yet. *)
Definition db : DB :=
  Db.MkDb
    [event "$c" "m.room.create" (Some "") 1; event "$m" "m.room.member" (Some "@u:h") 2;
     event "$v" "m.room.history_visibility" (Some "") 3; event "$x" "m.room.message" None 4; event "$o" "m.room.member" (Some "@a:o") 5]
    (Db.event_json ServedWitness.db ++ [ServedWitness.json "$o" "{'depth':5,'sender':'@a:o','content':{'membership':'join'}}"])
    [Db.RoomRow "!r" (Some "10") (Some true)] [] [] [] [] []
    [("$c", Some 0); ("$m", Some 0); ("$v", Some 1); ("$x", Some 2)]
    [Db.SgsRow 2 "m.room.create" "" "$c"; Db.SgsRow 2 "m.room.member" "@u:h" "$m"; Db.SgsRow 2 "m.room.history_visibility" "" "$v"] []
    [] [] [] [] [] [].
Definition memberships : list (string * string * string) := [("$m", "@u:h", "join"); ("$o", "@a:o", "join")].
Definition answering (name : string) (_ : list string) : result error (list string) :=
  Ok (take 1 (population db memberships "o" name)).
End StrataWitness.

Section witnesses.
Import StrataWitness.
Local Open Scope string_scope.

(** The stratum also selects events that Synapse must not redact: before the first history
    visibility event of a room its history is shared, and the queries look only at the
    visibilities that were ever set. *)
Theorem invisible_selects_visible :
  "$c" ∈ invisible db memberships "o" ∧
  ∃ ev, raw_event db "$c" = Some ev ∧ visible_to db ev "@u:h" "o" "h" false.
Proof.
  split; [apply (bool_decide_unpack _); vm_compute; exact I|].
  assert (∃ ev, raw_event db "$c" = Some ev) as [ev Hev] by (eexists; vm_compute; reflexivity).
  exists ev. split; [exact Hev|]. assert (∃ ev', raw_event db "$c" = Some ev' ∧ restricted (visibility_at db ev') = false) as (ev' & Hev' & Hr).
  { eexists. split; [vm_compute; reflexivity|]. vm_compute. reflexivity. }
  rewrite Hev in Hev'. injection Hev' as <-. split; [by apply not_elem_of_nil|]. split; [done|]. by left.
Qed.

Lemma plan_stratified_witness :
  EventSweep.Item "invisible" "$c" ∈ EventSweep.plan answering ∅ 5 "o" ∅ EventSweep.strata ∧ "$c" ∈ population db memberships "o" "invisible".
Proof.
  assert (EventSweep.Item "invisible" "$c" ∈ EventSweep.plan answering ∅ 5 "o" ∅ EventSweep.strata) as Hin.
  { assert (head (EventSweep.plan answering ∅ 5 "o" ∅ EventSweep.strata) = Some (EventSweep.Item "invisible" "$c")) as Hh by (vm_compute; reflexivity).
    destruct (EventSweep.plan _ _ _ _ _ _) as [|x l]; [discriminate Hh|]. injection Hh as ->. by left. }
  split; [exact Hin|]. refine (proj1 (proj2 (plan_stratified db memberships answering 5 "o" _ ∅ ∅ "invisible" "$c" Hin))).
  intros st ids [= <-]. split.
  - intros id Hid. rewrite <-(take_drop 1 (population _ _ _ _)). apply elem_of_app. left. exact Hid.
  - rewrite length_take. lia.
Defined.

Lemma invisible_hidden_witness :
  ∃ ev, raw_event db "$x" = Some ev ∧ ¬ visible_to db ev "@u:h" "o" "h" false.
Proof.
  assert (∃ ev, raw_event db "$x" = Some ev ∧ EventID ev = "$x" ∧ visibility_at db ev = HistoryVisibilityJoined) as (ev & Hev & Hid & Hv).
  { eexists. split; [vm_compute; reflexivity|]. split; vm_compute; reflexivity. }
  exists ev. split; [exact Hev|].
  refine (proj2 (invisible_hidden db memberships "o" (event "$x" "m.room.message" None 4) ev 2 _ _ _ Hid _ _) _ _ _ Hv).
  - by split_and!.
  - discriminate.
  - apply list_elem_of_filter. split; [vm_compute; lia|]. apply list_elem_of_filter. split; [vm_compute; reflexivity|]. right; right; right; left.
  - vm_compute. reflexivity.
  - assert (∀ k id, at_group db 2 !! k = Some id → (k, id) ∈ [(SK "m.room.create" "", "$c"); (SK "m.room.member" "@u:h", "$m"); (SK "m.room.history_visibility" "", "$v")]) as Hat.
    { intros k id Hk%elem_of_map_to_list. revert Hk. generalize (k, id). apply Forall_forall. apply (bool_decide_unpack _). vm_compute. exact I. }
    split.
    + intros k id Hk%Hat. rewrite !elem_of_cons in Hk. destruct Hk as [[= -> ->]|[[= -> ->]|[[= -> ->]|[]%not_elem_of_nil]]];
        [exists (event "$c" "m.room.create" (Some "") 1)|exists (event "$m" "m.room.member" (Some "@u:h") 2)|
         exists (event "$v" "m.room.history_visibility" (Some "") 3)]; (split; [by repeat (left; done) || right|done]).
    + intros user id x Hk%Hat _ _. rewrite !elem_of_cons in Hk. destruct Hk as [[=]|[[= -> ->]|[[=]|[]%not_elem_of_nil]]]. by left.
Defined.
End witnesses.
